(* ===== verification/_CoqProject ===== *)
-Q . S2P
Prelude.v
Drr.v
DrrFair.v
Amount.v
Encoding.v
BudgetCodec.v
BudgetView.v
BudgetGate.v
Frame.v
Events.v
Ingest.v
Reorg.v
Source.v
State.v
Key.v
Watcher.v
WatcherSafe.v
Game.v
Evm.v
StateRoot.v
FaultGame.v
FaultProof.v
Calldata.v
GameReader.v
GameEvents.v
ObserverWatch.v
ObserverStore.v
Observer.v
ObserverLogic.v
ObserverDemo.v
ObserverSafe.v
ObserverTrack.v
LogTail.v
EventWire.v
EventCache.v
EventServer.v
EventStream.v
IndexEvent.v
IndexStore.v
Indexer.v
IndexViews.v
IndexerSafe.v
Pipeline.v
CbeDecode.v
Withdrawal.v
Bridge.v
BridgeCodec.v
BridgeSafe.v
BridgeExit.v
BridgeDeposit.v
