(* ===== verification/Prelude.v ===== *)
(** * Knomosis: a verification development

    Knomosis runs a legal kernel off chain and settles it on L1.  Users send
    signed actions to a host, which checks their budget and feeds them to the
    kernel; an ingestor watches L1 and turns bridge and identity events into
    signed actions of its own; a sequencer publishes batches of state roots on
    L1, and a fault-proof observer plays the bisection game against a batch that
    is wrong.  A bridge contract takes deposits, which the ingestor credits, and
    pays withdrawals against roots of the kernel.  The kernel appends to a log; an
    event server tails the log and streams the events of its entries to
    subscribers, and an indexer folds the stream into a database of balances and
    budgets.  The development models the
    parts of that pipeline that decide something: byte formats, admission,
    scheduling, ingestion, the bridge with both directions of value through it, the
    dispute game with both the contracts and the daemon that plays it, and the way
    of an event from the log to the database.

    Paths are relative to [src/runtime], those of contracts to
    [src/solidity/src].

    ** Conventions

    A machine integer is a [Z] with its width written out ([in_u64],
    [saturating_add 64], [checked_mul 256], ...); a byte is [Byte.byte] under the
    name [u8]; a fallible function returns [result]; a function that can panic
    returns [run]; unchecked Rust arithmetic that can overflow wraps, as in a
    release build; a [&mut self] method returns the state it leaves; a map is a
    [gmap], with [btree_iter] where its order is observed.  Definitions are
    executable and the witnesses evaluate them.

    Code outside the repository is a class of operations with a class of the laws
    the code relies on, each with an instance that satisfies it: the 256-bit
    engine ([Amount.U256], [U256Ok]), the curve ([Key.K256], [K256Ok]), serde's
    rendering of records ([State.StateJson], [ObserverStore.ObserverJson] with
    [ObserverJsonOk]), the hex crate ([GameReader.Hex], [HexOk]), hashing
    ([keccak256]), the key-value engine's faults ([ObserverStore.StorageWorld]),
    the L1 node ([Source.L1Source]), the file of the log ([LogTail.LogFile],
    [LogFileOk]), SQLite ([IndexStore.SqlWorld], [SqlWorldOk]), ether and tokens
    ([Bridge.Ledger], [BridgeSafe.LedgerOk]), the size of digests
    ([Withdrawal.Digest]) and the worlds the
    daemons talk to ([Watcher.World], [Observer.ObserverWorld],
    [Indexer.SubscribeWorld]).

    ** The files

    - [Prelude]: this header; results, panics, the state monad, machine integers,
      little- and big-endian bytes, sums over maps, tactics and hint databases.
    - [Drr], [DrrFair]: the two-tier deficit-round-robin scheduler
      ([knomosis-host/src/fair/drr.rs]).  [FlowStore] is the source's trait and
      [FlowStoreOk] what a tier promises to the tier above.  No sequence of
      enqueues and picks panics or breaks a capacity; the scheduler refines a
      bag of first-in-first-out flows and loses or invents no request; a
      buffered request is served within a bound computed from the caps; and
      connections get equal turns in a round.
    - [Amount]: the 256-bit scalar ([knomosis-amount/src/lib.rs]); every
      operation is exact or reports overflow, and printing and parsing are
      inverse.
    - [Encoding]: actions, their CBE encoding, the signing input and the signed
      action ([knomosis-l1-ingest/src/action.rs], [encoding.rs]); the encoding is
      prefix free and the signing input is injective.
    - [BudgetCodec], [BudgetView], [BudgetGate]: the budget-admission gate
      ([knomosis-host/src/budget.rs]).  The decoders accept exactly the
      canonical encodings; the gate's view of a signed action is what the
      ingestor's encoder wrote, except for withdrawals to a recipient of another
      length, which it also reads; admission is decided exactly by the written
      rules, and no actor spends more than its budget over any sequence.
    - [Frame]: the framing of host connections ([knomosis-host/src/frame.rs]);
      a conversation of either protocol is read back whatever the chunking.
    - [Events], [Ingest]: the L1 log decoder, the address book and the
      translation to actions ([knomosis-l1-ingest/src/events.rs],
      [address_book.rs], [translation.rs]).
    - [Reorg], [Source], [State], [Key], [Watcher], [WatcherSafe]: the ingestor's
      daemon ([reorg.rs], [state.rs], [key.rs], [watcher.rs], with the traits of
      [source.rs] and [submitter.rs]).  Every run refines the relation [lawful]
      on effects; so a run leaves a state file that replays to the state the loop
      held, or, after a failed write, one that continues it by a part of a record;
      every accepted submission is recorded, no event twice, and nonces are
      consecutive.
    - [Game]: the observer's game machine and honest strategy
      ([knomosis-faultproof-observer/src/game.rs], [strategy.rs]); games never
      get stuck and end, and the strategy keeps the range its side needs.
    - [Evm], [StateRoot], [FaultGame], [FaultProof]: the registry of state roots
      and the game contract ([contracts/KnomosisStateRootSubmission.sol],
      [contracts/KnomosisFaultProofGame.sol] and the libraries they use).  The
      registry discharges the interface class the game is proved against.
      Accepted calls refine the observer's machine and both contracts are solvent,
      the game contract with any ether it is sent off-band on top.  [Kernel] is an
      L2 that executes a log of signed actions, with [authorised] as the check of
      their signatures, and [vm_sound] what is relied on in the step VM, the cell
      openings and the inclusion proofs, for calldata without a hash collision;
      against these an honest party never loses.  And cases in which the contracts
      do not do what their comments say: a timeout of a game that was never opened,
      a late loss that reinstates a reverted batch, a repaired batch that reads as
      reverted, a self-challenge.
    - [Calldata]: the calls the observer signs ([submitter.rs]) and the
      validation of terminate bundles; the contract's decoder reads back the
      move that was chosen.
    - [GameReader]: the reader of a game's state ([state_reader.rs]).
    - [GameEvents], [ObserverWatch]: the observer's event decoder ([events.rs])
      and watcher ([watcher.rs]).  The decoder accepts exactly the logs the
      contracts emit, and any number of iterations deliver the events of every
      confirmed block once and in order.
    - [ObserverStore]: the observer's database ([persistence.rs]).  The class
      [Store] is what the orchestrator calls, [StoreOk] states it against a view
      of games, batches, responses, cursor and window, and the key-value
      implementation discharges it.
    - [Observer]: the orchestrator ([observer.rs], [error.rs] and the session of
      [main.rs]) as state passing over the observer, the world and a trace of
      effects; [lifetime] chains sessions over one database, each cut by a crash
      at any call.
    - [ObserverLogic], [ObserverDemo], [ObserverSafe], [ObserverTrack]: a weakest
      precondition over traces with a condition for crashes, a scripted world,
      and the theorems: intents are durable before they are broadcast, a move has
      one standing transaction, a restart resumes the stopped session, only moves
      of the strategy are signed, and the record of a known game follows the
      contract; and the lifetime in which an event from before a hydration is
      applied again.
    - [LogTail]: the reader of the log ([knomosis-event-subscribe/src/tail.rs]);
      polls of a growing file deliver its entries once, whole and in order.
    - [EventWire]: the frames between the event server and its subscribers
      ([frame.rs], and [knomosis-indexer/src/client.rs]); what one side writes the
      other reads, whatever the chunking and wherever the stream is cut.
    - [EventCache]: the window of recent events ([event_cache.rs]).
    - [EventServer], [EventStream]: subscriptions, the extractor thread and the
      dispatch threads ([subscription.rs], [server.rs]) as steps that interleave
      at shared state.  An invariant by induction on the run shows that a
      subscriber that lost no batch is sent a prefix of what it is owed, without
      gap or repetition; and runs with a gap, with a replay and with a leaked
      registration.
    - [IndexEvent]: the events the indexer decodes ([event.rs], [decoder.rs]).
    - [IndexStore]: one SQLite connection with a transaction that statements and
      commits may fail, and the cells the indexer keeps there
      ([knomosis-storage/src/combined_transaction.rs], [budget_storage.rs];
      [knomosis-indexer/src/balance.rs], [cursor.rs], [budget_view.rs]).
    - [Indexer]: batches, the stream consumer and the daemon ([indexer.rs],
      [budget_view.rs], [daemon.rs], [main.rs]).
    - [IndexViews], [IndexerSafe]: what the tables should show after a list of
      batches, as a fold, and the refinement: whatever fails, and however often
      the process dies, the disk shows the log from the first subscription up to the
      cursor applied once.  The class [ServesLog] is what the indexer needs of a
      connection, which may send what is at or below the cursor again.
    - [Pipeline]: the event server, also one that was started again, discharges
      [ServesLog], so the database shows the log; and two runs in which it does
      not.
    - [CbeDecode]: the calldata decoder of the contracts ([lib/CBEDecode.sol]), with
      the exactness of its readers.
    - [Withdrawal]: the kernel's tree of pending withdrawals
      ([LegalKernel/Bridge/WithdrawalRoot.lean]) and the verifier of the contracts
      ([lib/SmtVerifier.sol]): complete, and sound up to a collision it exhibits.
    - [Bridge], [BridgeCodec]: the bridge ([contracts/KnomosisBridge.sol],
      [lib/KnomosisEip712.sol]) with its constructor, entry points and decoders; a
      call carries the calls that the code it hands control to makes meanwhile.
    - [BridgeSafe]: over any history the bridge is solvent in every resource and no
      leaf is redeemed twice; calls back move nothing.
    - [BridgeExit]: only pending withdrawals of settled roots are paid, all of them
      can be, and roots are permanent; and exactly which roots a rollback reverts.
    - [BridgeDeposit]: the bridge composed with the ingestor: deposits are credited
      on L2 with what was taken on L1, under receipts that differ.

    ** Bounds and fuel

    [Frame.conversation] takes one unit of fuel per request and one for the end,
    and the theorem runs it with that many.  [BudgetCodec.decode_pairs] takes the
    length of the buffer as fuel: a pair is never empty, so it cannot run out,
    which the exactness theorem includes.  [Amount.display_loop] takes one step
    more than its buffer has cells.  [Watcher.submit_loop] counts its retries as
    the source does, and [Watcher.run_until], which the daemon runs for ever, is
    cut after any number of rounds: its theorems hold for every number, and so do
    those of [Observer.run] and [Observer.lifetime].  [ObserverWatch.watch_blocks] recurses on the number of
    blocks of its batch.  [LogTail.poll_many], [EventServer.server_run] and
    [Indexer.lifetime] are any number of polls, any sequence of steps and any runs
    of the daemon, of any number of rounds and frames, and their theorems hold for
    all of them.  The game needs no bound: [Game.game_terminates] derives one from
    the width of the range.

    ** Not modelled

    Process, socket, TLS and file plumbing (listeners, servers, configuration,
    logging, main functions), the benchmarks and test harnesses, the gateway's
    HTTP surface, the SQLite engine with its scans and migrations, the JSON-RPC and
    subprocess transports (the extractor of events among them), and the
    foreign-function crates for hashing and signature checks are not part of the development; nor are the
    remaining contracts (stake, identity registry, migrations, step VM and cell
    verifiers), of which the game contract sees the interface only.
    The Lean kernel has its own proofs in the repository. *)

From Stdlib Require Import ZArith Lia Permutation.
From stdpp Require Import base list numbers gmap sorting.
From Stdlib Require Strings.Byte.

Local Open Scope Z_scope.

(** ** Rust's [Result] and panics *)

(** [Result<A, E>]. *)
Inductive result (A E : Type) : Type :=
| Ok (a : A)
| Err (e : E).
Arguments Ok {A E} a.
Arguments Err {A E} e.

(** A computation that may panic ([expect], [unwrap], [assert!], an
    out-of-range index).  [Panicked] is what a theorem of
    panic freedom excludes. *)
Inductive run (A : Type) : Type :=
| Done (a : A)
| Panicked.
Arguments Done {A} a.
Arguments Panicked {A}.

Definition result_bind {A B E} (r : result A E) (k : A → result B E) : result B E :=
  match r with Ok a => k a | Err e => Err e end.

Definition run_bind {A B} (r : run A) (k : A → run B) : run B :=
  match r with Done a => k a | Panicked => Panicked end.

Definition result_map {A B E} (f : A → B) (r : result A E) : result B E :=
  match r with Ok a => Ok (f a) | Err e => Err e end.

Definition ok_or {A E} (o : option A) (e : E) : result A E :=
  match o with Some a => Ok a | None => Err e end.

Definition is_ok {A E} (r : result A E) : bool :=
  match r with Ok _ => true | Err _ => false end.

Declare Scope rust_scope.
Delimit Scope rust_scope with rust.
(** The [?] operator, and sequencing of computations that may panic. *)
Notation "'let?' x ':=' c 'in' k" := (result_bind c (fun x => k))
  (at level 10, x pattern, c at level 100, k at level 200) : rust_scope.
Notation "'let!' x ':=' c 'in' k" := (run_bind c (fun x => k))
  (at level 10, x pattern, c at level 100, k at level 200) : rust_scope.
Open Scope rust_scope.

Lemma result_bind_Ok {A B E} (r : result A E) (k : A → result B E) b :
  result_bind r k = Ok b ↔ ∃ a, r = Ok a ∧ k a = Ok b.
Proof. destruct r; naive_solver. Qed.

Lemma result_bind_assoc {A B C E} (r : result A E) (f : A → result B E) (g : B → result C E) :
  result_bind (result_bind r f) g = result_bind r (fun a => result_bind (f a) g).
Proof. by destruct r. Qed.

Lemma run_bind_Done {A B} (r : run A) (k : A → run B) b :
  run_bind r k = Done b ↔ ∃ a, r = Done a ∧ k a = Done b.
Proof. destruct r; naive_solver. Qed.

(** An early return: the rest runs exactly when the guard does not hold. *)
Lemma guard_Ok {A E} (P : Prop) `{Decision P} (e : E) (r : result A E) (a : A) :
  (if decide P then Err e else r) = Ok a ↔ ¬ P ∧ r = Ok a.
Proof. case_decide; naive_solver. Qed.

#[global] Instance result_eq_dec {A E} `{EqDecision A, EqDecision E} : EqDecision (result A E).
Proof. solve_decision. Defined.

(** A stateful computation that may fail: a function that takes [&mut S] and
    returns a [Result].  The state of a failed computation is dropped with it. *)
Definition stateful (S E A : Type) : Type := S → result (A * S) E.

#[global] Instance stateful_ret {S E} : MRet (stateful S E) := fun A a s => Ok (a, s).
#[global] Instance stateful_bind {S E} : MBind (stateful S E) := fun A B k m s =>
  match m s with Ok (a, s') => k a s' | Err e => Err e end.

Definition fail {S E A} (e : E) : stateful S E A := fun _ => Err e.

Lemma stateful_bind_Ok {S E A B} (m : stateful S E A) (k : A → stateful S E B) s b s'' :
  (m ≫= k) s = Ok (b, s'') ↔ ∃ a s', m s = Ok (a, s') ∧ k a s' = Ok (b, s'').
Proof. unfold mbind, stateful_bind. destruct (m s) as [[a s']|e]; naive_solver. Qed.

Lemma stateful_bind_step {S E A B} (m : stateful S E A) (k : A → stateful S E B) s a s' :
  m s = Ok (a, s') → (m ≫= k) s = k a s'.
Proof. intros Hm. unfold mbind, stateful_bind. by rewrite Hm. Qed.

(** ** Machine integers

    An integer of an unsigned Rust type of width [w] is a [Z] in
    [0 .. 2^w - 1].  The operations below are Rust's, at width [w]. *)

Definition in_width (w x : Z) : Prop := 0 ≤ x < 2 ^ w.

#[global] Instance in_width_dec w x : Decision (in_width w x).
Proof. unfold in_width. apply _. Defined.

Abbreviation in_u8 := (in_width 8).
Abbreviation in_u32 := (in_width 32).
Abbreviation in_u64 := (in_width 64).
Abbreviation in_u128 := (in_width 128).
Abbreviation in_u256 := (in_width 256).

Abbreviation u32_max := (2 ^ 32 - 1).
Abbreviation u64_max := (2 ^ 64 - 1).
Abbreviation u128_max := (2 ^ 128 - 1).

Definition checked_add (w a b : Z) : option Z :=
  if decide (a + b < 2 ^ w) then Some (a + b) else None.

Definition checked_sub (a b : Z) : option Z :=
  if decide (b ≤ a) then Some (a - b) else None.

Definition checked_mul (w a b : Z) : option Z :=
  if decide (a * b < 2 ^ w) then Some (a * b) else None.

Definition checked_div (a b : Z) : option Z :=
  if decide (b = 0) then None else Some (a / b).

Definition saturating_add (w a b : Z) : Z := Z.min (a + b) (2 ^ w - 1).

Definition saturating_sub (a b : Z) : Z := Z.max 0 (a - b).

Arguments in_width : simpl never.
Arguments checked_add : simpl never.
Arguments checked_sub : simpl never.
Arguments checked_mul : simpl never.
Arguments checked_div : simpl never.
Arguments saturating_add : simpl never.
Arguments saturating_sub : simpl never.

Lemma in_width_0 w : 0 ≤ w → in_width w 0.
Proof. intros. split; [lia|]. apply Z.pow_pos_nonneg; lia. Qed.

Lemma in_width_mono v w x : 0 ≤ v ≤ w → in_width v x → in_width w x.
Proof.
  intros Hvw [H0 Hlt]. split; [done|].
  eapply Z.lt_le_trans; [exact Hlt|]. apply Z.pow_le_mono_r; lia.
Qed.

Lemma checked_add_Some w a b c :
  checked_add w a b = Some c ↔ c = a + b ∧ a + b < 2 ^ w.
Proof. unfold checked_add. case_decide; naive_solver. Qed.

Lemma checked_sub_Some a b c : checked_sub a b = Some c ↔ c = a - b ∧ b ≤ a.
Proof. unfold checked_sub. case_decide; naive_solver. Qed.

Lemma checked_mul_Some w a b c :
  checked_mul w a b = Some c ↔ c = a * b ∧ a * b < 2 ^ w.
Proof. unfold checked_mul. case_decide; naive_solver. Qed.

Lemma checked_add_None w a b : checked_add w a b = None ↔ 2 ^ w ≤ a + b.
Proof. unfold checked_add. case_decide; split; intros; try done; lia. Qed.

Lemma checked_sub_None a b : checked_sub a b = None ↔ a < b.
Proof. unfold checked_sub. case_decide; split; intros; try done; lia. Qed.

Lemma checked_mul_None w a b : checked_mul w a b = None ↔ 2 ^ w ≤ a * b.
Proof. unfold checked_mul. case_decide; split; intros; try done; lia. Qed.

Lemma saturating_add_in_width w a b :
  in_width w a → in_width w b → in_width w (saturating_add w a b).
Proof. unfold in_width, saturating_add. lia. Qed.

Lemma saturating_add_ge_l w a b :
  in_width w a → 0 ≤ b → a ≤ saturating_add w a b.
Proof. unfold in_width, saturating_add. lia. Qed.

Lemma saturating_add_le w a b : saturating_add w a b ≤ a + b.
Proof. unfold saturating_add. lia. Qed.

(** ** Bytes and fixed-width encodings

    [u8] is [Byte.byte]; [to_le_bytes] / [from_le_bytes] at [n] bytes are the
    base-256 digits of the value, least significant first, and the big-endian
    forms are their reversals. *)

Abbreviation u8 := Init.Byte.byte.

#[global] Instance u8_eq_dec : EqDecision u8 := Byte.byte_eq_dec.

Definition byte_val (b : u8) : Z := Z.of_N (Byte.to_N b).

(** [x as u8]. *)
Definition byte_of (x : Z) : u8 :=
  default Byte.x00 (Byte.of_N (Z.to_N (x mod 256))).

Fixpoint to_le_bytes (n : nat) (x : Z) : list u8 :=
  match n with
  | O => []
  | S n => byte_of x :: to_le_bytes n (x / 256)
  end.

Fixpoint from_le_bytes (bs : list u8) : Z :=
  match bs with
  | [] => 0
  | b :: bs => byte_val b + 256 * from_le_bytes bs
  end.

Definition to_be_bytes (n : nat) (x : Z) : list u8 := reverse (to_le_bytes n x).
Definition from_be_bytes (bs : list u8) : Z := from_le_bytes (reverse bs).

Lemma byte_val_bound b : 0 ≤ byte_val b < 256.
Proof.
  unfold byte_val. pose proof (Byte.to_N_bounded b). lia.
Qed.

Lemma byte_val_of x : byte_val (byte_of x) = x mod 256.
Proof.
  unfold byte_val, byte_of. pose proof (Z.mod_pos_bound x 256 ltac:(lia)).
  destruct (Byte.of_N (Z.to_N (x mod 256))) as [b|] eqn:Hb.
  - apply Byte.to_of_N in Hb. simpl. rewrite Hb. lia.
  - apply Byte.of_N_None_iff in Hb. lia.
Qed.

Lemma byte_val_inj b1 b2 : byte_val b1 = byte_val b2 → b1 = b2.
Proof.
  unfold byte_val. intros Heq%N2Z.inj.
  pose proof (Byte.of_to_N b1). pose proof (Byte.of_to_N b2). congruence.
Qed.

Lemma byte_of_val b : byte_of (byte_val b) = b.
Proof.
  apply byte_val_inj. rewrite byte_val_of. apply Z.mod_small, byte_val_bound.
Qed.

#[global] Instance u8_countable : Countable u8 := inj_countable' byte_val byte_of byte_of_val.

Lemma to_le_bytes_length n x : length (to_le_bytes n x) = n.
Proof. revert x. induction n; intros; simpl; auto. Qed.

Lemma to_be_bytes_length n x : length (to_be_bytes n x) = n.
Proof. unfold to_be_bytes. rewrite length_reverse. apply to_le_bytes_length. Qed.

Lemma width_succ n : 2 ^ (8 * Z.of_nat (S n)) = 256 * 2 ^ (8 * Z.of_nat n).
Proof.
  replace (8 * Z.of_nat (S n)) with (8 + 8 * Z.of_nat n) by lia.
  by rewrite Z.pow_add_r by lia.
Qed.

Lemma from_to_le_bytes n x :
  in_width (8 * Z.of_nat n) x → from_le_bytes (to_le_bytes n x) = x.
Proof.
  unfold in_width. revert x. induction n as [|n IH]; intros x Hx.
  - simpl in *. lia.
  - rewrite width_succ in Hx. cbn [to_le_bytes from_le_bytes].
    rewrite byte_val_of, IH.
    + pose proof (Z.div_mod x 256). lia.
    + split; [apply Z.div_pos; lia|]. apply Z.div_lt_upper_bound; lia.
Qed.

Lemma from_le_bytes_bound bs : in_width (8 * Z.of_nat (length bs)) (from_le_bytes bs).
Proof.
  unfold in_width. induction bs as [|b bs IH]; [simpl; lia|].
  cbn [length from_le_bytes]. rewrite width_succ.
  pose proof (byte_val_bound b). lia.
Qed.

Lemma to_from_le_bytes bs : to_le_bytes (length bs) (from_le_bytes bs) = bs.
Proof.
  induction bs as [|b bs IH]; [done|]. cbn [length from_le_bytes to_le_bytes].
  pose proof (byte_val_bound b). f_equal.
  - apply byte_val_inj. rewrite byte_val_of, (Z.mul_comm 256), Z.mod_add by lia.
    by apply Z.mod_small.
  - etrans; [|exact IH]. f_equal.
    rewrite (Z.mul_comm 256), Z.div_add by lia. rewrite Z.div_small by done. lia.
Qed.

Lemma from_to_be_bytes n x :
  in_width (8 * Z.of_nat n) x → from_be_bytes (to_be_bytes n x) = x.
Proof.
  intros Hx. unfold from_be_bytes, to_be_bytes. rewrite reverse_involutive.
  by apply from_to_le_bytes.
Qed.

Lemma to_from_be_bytes bs : to_be_bytes (length bs) (from_be_bytes bs) = bs.
Proof.
  unfold to_be_bytes, from_be_bytes. rewrite <- (length_reverse bs).
  by rewrite to_from_le_bytes, reverse_involutive.
Qed.

Lemma from_be_bytes_bound bs : in_width (8 * Z.of_nat (length bs)) (from_be_bytes bs).
Proof.
  unfold from_be_bytes. rewrite <- (length_reverse bs). apply from_le_bytes_bound.
Qed.

Lemma from_be_bytes_app a b :
  from_be_bytes (a ++ b) = from_be_bytes a * 2 ^ (8 * Z.of_nat (length b)) + from_be_bytes b.
Proof.
  unfold from_be_bytes. rewrite reverse_app, <- (length_reverse b).
  induction (reverse b) as [|x l IH]; cbn [app from_le_bytes length].
  - change (2 ^ (8 * Z.of_nat 0)) with 1. lia.
  - rewrite IH, width_succ. lia.
Qed.

Lemma from_be_bytes_zero bs :
  existsb (fun b => negb (byte_val b =? 0)) bs = false ↔ from_be_bytes bs = 0.
Proof.
  induction bs as [|b bs IH]; [done|].
  change (b :: bs) with ([b] ++ bs) at 2. rewrite from_be_bytes_app.
  pose proof (byte_val_bound b). pose proof (from_be_bytes_bound bs) as [? _].
  assert (0 < 2 ^ (8 * Z.of_nat (length bs))) by (apply Z.pow_pos_nonneg; lia).
  assert (from_be_bytes [b] = byte_val b) as -> by (cbn; lia).
  cbn [existsb]. rewrite orb_false_iff, negb_false_iff, Z.eqb_eq, IH. split.
  - intros [-> ->]. lia.
  - intros ?. split; nia.
Qed.

(** The low bytes of a value. *)
Lemma take_to_le_bytes n k x : (k ≤ n)%nat → take k (to_le_bytes n x) = to_le_bytes k x.
Proof.
  revert n x. induction k as [|k IH]; intros [|n] x Hk; try done; [lia|].
  cbn. by rewrite IH by lia.
Qed.

Lemma from_to_le_bytes_mod n x : from_le_bytes (to_le_bytes n x) = x mod 2 ^ (8 * Z.of_nat n).
Proof.
  revert x. induction n as [|n IH]; intros x; [by rewrite Z.mod_1_r|].
  rewrite width_succ. cbn [to_le_bytes from_le_bytes]. rewrite IH, byte_val_of.
  symmetry. apply Z.rem_mul_r; [lia|]. apply Z.pow_pos_nonneg; lia.
Qed.

Lemma drop_to_be_bytes n k x :
  (k ≤ n)%nat → from_be_bytes (drop (n - k) (to_be_bytes n x)) = x mod 2 ^ (8 * Z.of_nat k).
Proof.
  intros Hk. unfold from_be_bytes, to_be_bytes. rewrite drop_reverse, reverse_involutive.
  rewrite to_le_bytes_length. replace (n - (n - k))%nat with k by lia.
  by rewrite take_to_le_bytes, from_to_le_bytes_mod.
Qed.

Lemma to_le_bytes_inj n x y :
  in_width (8 * Z.of_nat n) x → in_width (8 * Z.of_nat n) y →
  to_le_bytes n x = to_le_bytes n y → x = y.
Proof.
  intros Hx Hy Heq. rewrite <- (from_to_le_bytes n x), <- (from_to_le_bytes n y) by done.
  by rewrite Heq.
Qed.

Lemma from_le_bytes_inj bs1 bs2 :
  length bs1 = length bs2 → from_le_bytes bs1 = from_le_bytes bs2 → bs1 = bs2.
Proof.
  intros Hlen Heq. rewrite <- (to_from_le_bytes bs1), <- (to_from_le_bytes bs2).
  congruence.
Qed.

(** ** Slices *)

(** [bytes.get(a..b)]. *)
Definition slice (bs : list u8) (a b : Z) : option (list u8) :=
  if decide (0 ≤ a ≤ b ∧ b ≤ Z.of_nat (length bs))
  then Some (take (Z.to_nat (b - a)) (drop (Z.to_nat a) bs))
  else None.

Lemma slice_app pre mid post a b :
  a = Z.of_nat (length pre) → b = a + Z.of_nat (length mid) →
  slice (pre ++ mid ++ post) a b = Some mid.
Proof.
  intros -> ->. unfold slice. rewrite !length_app.
  rewrite decide_True by lia. f_equal.
  rewrite Nat2Z.id, drop_app_length.
  replace (Z.to_nat _) with (length mid) by lia. apply take_app_length.
Qed.

Lemma slice_Some bs a b s :
  slice bs a b = Some s →
  0 ≤ a ≤ b ∧ b ≤ Z.of_nat (length bs) ∧ Z.of_nat (length s) = b - a ∧
  s = take (Z.to_nat (b - a)) (drop (Z.to_nat a) bs).
Proof.
  unfold slice. case_decide as Hb; [|done]. intros [= <-].
  split_and!; try lia; [|done]. rewrite length_take, length_drop. lia.
Qed.

Lemma slice_None bs a b :
  0 ≤ a ≤ b → Z.of_nat (length bs) < b → slice bs a b = None.
Proof. intros ? ?. unfold slice. by rewrite decide_False by lia. Qed.

(** ** Lists and maps *)

Lemma list_bind_ext_in {A B} (f g : A → list B) (l : list A) :
  (∀ x, x ∈ l → f x = g x) → l ≫= f = l ≫= g.
Proof.
  induction l as [|x l IH]; intros Hfg; [done|]. cbn.
  rewrite (Hfg x) by set_solver. f_equal. apply IH. set_solver.
Qed.

Lemma Forall2_impl_elem {A B} (P Q : A → B → Prop) l k :
  Forall2 P l k → (∀ x y, x ∈ l → P x y → Q x y) → Forall2 Q l k.
Proof.
  induction 1 as [|x y l k Hxy Hlk IH]; intros HPQ; constructor.
  - apply HPQ; [set_solver|done].
  - apply IH. intros. apply HPQ; [set_solver|done].
Qed.

(** ** Ordered maps

    A [BTreeMap] keyed by an integer is a [gmap]; [btree_iter] is its iteration
    order. *)

Definition key_le {V} (p q : Z * V) : Prop := p.1 ≤ q.1.
Definition key_lt {V} (p q : Z * V) : Prop := p.1 < q.1.

#[global] Instance key_le_dec {V} (p q : Z * V) : Decision (key_le p q).
Proof. unfold key_le. apply _. Defined.

#[global] Instance key_le_total {V} : Total (@key_le V).
Proof. intros p q. unfold key_le. lia. Qed.

#[global] Instance key_le_trans {V} : Transitive (@key_le V).
Proof. intros p q r. unfold key_le. lia. Qed.

Definition btree_iter {V} (m : gmap Z V) : list (Z * V) := merge_sort key_le (map_to_list m).

Lemma btree_iter_perm {V} (m : gmap Z V) : btree_iter m ≡ₚ map_to_list m.
Proof. apply merge_sort_Permutation. Qed.

Lemma btree_iter_length {V} (m : gmap Z V) : length (btree_iter m) = size m.
Proof. rewrite btree_iter_perm. apply length_map_to_list. Qed.

Lemma btree_iter_map {V} (m : gmap Z V) : list_to_map (btree_iter m) = m.
Proof.
  rewrite <- (list_to_map_to_list m) at 2. apply list_to_map_proper.
  - rewrite btree_iter_perm. apply NoDup_fst_map_to_list.
  - apply btree_iter_perm.
Qed.

Lemma key_lt_NoDup {V} (l : list (Z * V)) : StronglySorted key_lt l → NoDup l.*1.
Proof.
  induction 1 as [|p l Hl IH Hp]; cbn; constructor; [|done].
  intros (q & Hq & Hin)%list_elem_of_fmap. rewrite Forall_forall in Hp.
  specialize (Hp q Hin). unfold key_lt in Hp. lia.
Qed.

Lemma key_lt_le {V} (l : list (Z * V)) : StronglySorted key_lt l → StronglySorted key_le l.
Proof.
  induction 1 as [|p l Hl IH Hp]; constructor; [done|].
  eapply Forall_impl; [exact Hp|]. unfold key_lt, key_le. lia.
Qed.

Lemma key_le_lt {V} (l : list (Z * V)) :
  NoDup l.*1 → StronglySorted key_le l → StronglySorted key_lt l.
Proof.
  intros Hnd Hs. induction Hs as [|p l Hl IH Hp]; constructor; cbn in Hnd;
    apply NoDup_cons in Hnd as [Hn Hnd]; [auto|].
  rewrite Forall_forall in *. intros q Hq. specialize (Hp q Hq). unfold key_lt, key_le in *.
  assert (p.1 ≠ q.1); [|lia]. intros Heq. apply Hn, list_elem_of_fmap. eauto.
Qed.

Lemma btree_iter_sorted {V} (m : gmap Z V) : StronglySorted key_lt (btree_iter m).
Proof.
  apply key_le_lt.
  - rewrite btree_iter_perm. apply NoDup_fst_map_to_list.
  - apply (StronglySorted_merge_sort _).
Qed.

(** An ascending listing of a map is its iteration order. *)
Lemma btree_iter_unique {V} (l : list (Z * V)) :
  StronglySorted key_lt l → btree_iter (list_to_map l) = l.
Proof.
  intros Hl. pose proof (key_lt_NoDup l Hl) as Hnd.
  assert (Hperm : btree_iter (list_to_map l : gmap Z V) ≡ₚ l).
  { rewrite btree_iter_perm. by apply map_to_list_to_map. }
  eapply (StronglySorted_unique_strong key_le); [| | |exact Hperm].
  - intros [k1 v1] [k2 v2] H1 H2. unfold key_le. cbn. intros Hle1 Hle2.
    assert (k1 = k2) as <- by lia. f_equal. rewrite Hperm in H1.
    apply (elem_of_list_to_map (M := gmap Z) l _ _ Hnd) in H1, H2. congruence.
  - apply key_lt_le, btree_iter_sorted.
  - by apply key_lt_le.
Qed.

(** ** Automation *)

Create HintDb knomosis.
Create Rewrite HintDb knomosis.
#[export] Hint Resolve in_width_0 saturating_add_in_width : knomosis.
#[export] Hint Rewrite to_le_bytes_length to_be_bytes_length length_app : knomosis.

(** Split every conditional of the goal or of a hypothesis on its guard. *)
Ltac split_guards :=
  repeat (case_decide || case_match); simplify_eq.

(** Invert a successful chain of [?] or of panicking calls. *)
Ltac inv_binds :=
  repeat match goal with
  | H : result_bind _ _ = Ok _ |- _ => apply result_bind_Ok in H as (? & ? & ?)
  | H : run_bind _ _ = Done _ |- _ => apply run_bind_Done in H as (? & ? & ?)
  end; simplify_eq.
