(* ===== verification/Drr.v ===== *)
(** The pure two-tier deficit-round-robin scheduler of [knomosis-host]
    ([src/runtime/knomosis-host/src/fair/drr.rs]).

    [Tier K S] is the generic round-robin tier over routing keys [K] whose
    flows hold a [FlowStore] [S]; [FlowStore] is the source's trait, and
    [FlowStoreOk] is the contract one tier promises to the tier above it.  A
    FIFO of requests satisfies the contract, and so does a tier over any store
    that satisfies it, which is how the two-tier scheduler [DrrState] gets its
    properties: the tier lemmas are proved once against the contract. *)

From Stdlib Require Import ZArith Lia Permutation.
From stdpp Require Import base list numbers gmap.
From S2P Require Import Prelude.

Local Open Scope Z_scope.

(** ** Requests and capacity caps *)

Abbreviation ConnId := Z (only parsing).
Abbreviation SignerHint := Z (only parsing).

Definition LEGACY_SIGNER_HINT : SignerHint := 0.
Definition DEFAULT_MAX_QUEUE_DEPTH : Z := 256.
Definition HARD_MAX_QUEUE_DEPTH : Z := 65536.

(** A queued request: the opaque payload and the one-shot reply channel, which
    is identified by its number. *)
Record QueuedRequest := MkRequest {
  payload : list u8;
  reply : Z;
}.

#[global] Instance QueuedRequest_eq_dec : EqDecision QueuedRequest.
Proof. solve_decision. Defined.

Definition DEFAULT_PER_FLOW_CAP : Z := 64.
Definition DEFAULT_MAX_FLOWS : Z := 4096.
Definition HARD_MAX_FLOWS : Z := 65536.
Definition DEFAULT_MAX_SIGNERS_PER_CONN : Z := 256.
Definition HARD_MAX_SIGNERS_PER_CONN : Z := 65536.
Definition QUANTUM : Z := 1.
Definition COST : Z := 1.

Record Caps := MkCaps {
  per_flow : Z;
  max_flows : Z;
  max_signers : Z;
  max_conn_backlog : Z;
  global : Z;
}.

Definition Caps_new (per_flow max_flows global : Z) : Caps :=
  let global := Z.min global HARD_MAX_QUEUE_DEPTH in
  MkCaps per_flow (Z.min max_flows HARD_MAX_FLOWS) DEFAULT_MAX_SIGNERS_PER_CONN
    (Z.min per_flow global) global.

Definition with_max_signers (c : Caps) (max_signers : Z) : Caps :=
  MkCaps (per_flow c) (max_flows c) (Z.min max_signers HARD_MAX_SIGNERS_PER_CONN)
    (max_conn_backlog c) (global c).

Definition with_max_conn_backlog (c : Caps) (max_conn_backlog : Z) : Caps :=
  MkCaps (per_flow c) (max_flows c) (max_signers c)
    (Z.min max_conn_backlog HARD_MAX_QUEUE_DEPTH) (global c).

Inductive RejectReason := MaxFlows | MaxSigners | ConnBacklog | PerFlow.

#[global] Instance RejectReason_eq_dec : EqDecision RejectReason.
Proof. solve_decision. Defined.

Record Rejected := MkRejected {
  rej_reason : RejectReason;
  rej_req : QueuedRequest;
}.

(** ** Flow stores *)

(** The trait [FlowStore]. *)
Class FlowStore (S : Type) := {
  serve : S → run (option QueuedRequest * S);
  depth : S → Z;
}.

#[global] Hint Mode FlowStore ! : typeclass_instances.

Definition is_empty {S} `{FlowStore S} (s : S) : bool := bool_decide (depth s = 0).

Record RequestFifo := MkFifo { deque : list QueuedRequest }.

Definition RequestFifo_new : RequestFifo := MkFifo [].

Definition RequestFifo_push (f : RequestFifo) (req : QueuedRequest) (per_flow : Z)
    : RequestFifo * result unit Rejected :=
  if decide (per_flow ≤ Z.of_nat (length (deque f)))
  then (f, Err (MkRejected PerFlow req))
  else (MkFifo (deque f ++ [req]), Ok tt).

Definition RequestFifo_serve (f : RequestFifo) : run (option QueuedRequest * RequestFifo) :=
  match deque f with
  | [] => Done (None, f)
  | r :: rs => Done (Some r, MkFifo rs)
  end.

Definition RequestFifo_depth (f : RequestFifo) : Z := Z.of_nat (length (deque f)).

#[global] Instance RequestFifo_FlowStore : FlowStore RequestFifo := {
  serve := RequestFifo_serve;
  depth := RequestFifo_depth;
}.

(** ** Tiers *)

Record FlowEntry (S : Type) := MkEntry {
  store : S;
  deficit : Z;
  quantum : Z;
}.
Arguments MkEntry {S}.
Arguments store {S}.
Arguments deficit {S}.
Arguments quantum {S}.

Definition FlowEntry_new {S} (s : S) : FlowEntry S := MkEntry s 0 QUANTUM.

Record Tier (K S : Type) `{Countable K} := MkTier {
  flows : gmap K (FlowEntry S);
  active : list K;
  total_depth : Z;
}.
Arguments MkTier {K S _ _}.
Arguments flows {K S _ _}.
Arguments active {K S _ _}.
Arguments total_depth {K S _ _}.

Section Tier.
Context {K S : Type} `{Countable K} `{FlowStore S}.

Definition Tier_new : Tier K S := MkTier ∅ [] 0.

Definition active_len (t : Tier K S) : Z := Z.of_nat (length (active t)).

(** [enqueue_routed]: the closure [push] mutates the store in place, so it
    returns the store it leaves behind on both outcomes. *)
Definition enqueue_routed (t : Tier K S) (key : K) (max_keys : Z)
    (max_keys_reason : RejectReason) (req : QueuedRequest) (make : S)
    (push : S → QueuedRequest → S * result unit Rejected)
    : Tier K S * result unit Rejected :=
  let key_count := Z.of_nat (size (flows t)) in
  match flows t !! key with
  | Some occ =>
      let '(s', r) := push (store occ) req in
      let flows' := <[key := MkEntry s' (deficit occ) (quantum occ)]> (flows t) in
      match r with
      | Err e => (MkTier flows' (active t) (total_depth t), Err e)
      | Ok _ => (MkTier flows' (active t) (total_depth t + 1), Ok tt)
      end
  | None =>
      if decide (max_keys ≤ key_count)
      then (t, Err (MkRejected max_keys_reason req))
      else
        let '(s', r) := push make req in
        match r with
        | Err e => (t, Err e)
        | Ok _ =>
            (MkTier (<[key := FlowEntry_new s']> (flows t)) (active t ++ [key])
               (total_depth t + 1), Ok tt)
        end
  end.

(** [pick].  The two [expect]s and the [debug_assert!] are panics. *)
Definition pick (t : Tier K S) : run (option QueuedRequest * Tier K S) :=
  match active t with
  | [] => Done (None, t)
  | key :: rest =>
      match flows t !! key with
      | None => Panicked
      | Some entry =>
          let granted := saturating_add 64 (deficit entry) (quantum entry) in
          if decide (granted < COST) then Panicked else
          let! (served, store') := serve (store entry) in
          match served with
          | None => Panicked
          | Some req =>
              let depth' := total_depth t - 1 in
              if is_empty store'
              then Done (Some req, MkTier (delete key (flows t)) rest depth')
              else Done (Some req,
                MkTier (<[key := MkEntry store' (granted - COST) (quantum entry)]> (flows t))
                  (rest ++ [key]) depth')
          end
      end
  end.

#[global] Instance Tier_FlowStore : FlowStore (Tier K S) := {
  serve := pick;
  depth := total_depth;
}.
End Tier.

Definition enqueue_leaf {K} `{Countable K} (t : Tier K RequestFifo) (key : K)
    (req : QueuedRequest) (per_flow max_keys : Z) (max_keys_reason : RejectReason)
    : Tier K RequestFifo * result unit Rejected :=
  enqueue_routed t key max_keys max_keys_reason req RequestFifo_new
    (λ fifo req, RequestFifo_push fifo req per_flow).

Abbreviation ConnBucket := (Tier SignerHint RequestFifo).

Definition enqueue_signer (b : ConnBucket) (signer : SignerHint) (req : QueuedRequest)
    (per_flow max_signers max_conn_backlog : Z) : ConnBucket * result unit Rejected :=
  let leaf_full :=
    match flows b !! signer with
    | Some entry => bool_decide (per_flow ≤ depth (store entry))
    | None => false
    end in
  if leaf_full then (b, Err (MkRejected PerFlow req))
  else if decide (max_conn_backlog ≤ total_depth b)
  then (b, Err (MkRejected ConnBacklog req))
  else enqueue_leaf b signer req per_flow max_signers MaxSigners.

(** ** The scheduler state *)

Record DrrStats := MkDrrStats {
  st_total_depth : Z;
  st_active_flows : Z;
  st_active_signers : Z;
  st_dispatched : Z;
  st_rejected_per_flow : Z;
  st_rejected_max_flows : Z;
  st_rejected_max_signers : Z;
  st_rejected_conn_backlog : Z;
  st_rejected_global : Z;
}.

Record DrrState := MkDrr {
  outer : Tier ConnId ConnBucket;
  caps : Caps;
  dispatched : Z;
  rejected_per_flow : Z;
  rejected_max_flows : Z;
  rejected_max_signers : Z;
  rejected_conn_backlog : Z;
  rejected_global : Z;
  closed : bool;
}.

Definition DrrState_new (c : Caps) : DrrState :=
  let c := with_max_conn_backlog
             (with_max_signers (Caps_new (per_flow c) (max_flows c) (global c)) (max_signers c))
             (max_conn_backlog c) in
  MkDrr Tier_new c 0 0 0 0 0 0 false.

Definition set_outer (s : DrrState) (o : Tier ConnId ConnBucket) : DrrState :=
  MkDrr o (caps s) (dispatched s) (rejected_per_flow s) (rejected_max_flows s)
    (rejected_max_signers s) (rejected_conn_backlog s) (rejected_global s) (closed s).

(** [saturating_add(1)] on the lifetime counter of the breached cap. *)
Definition tally (s : DrrState) (r : RejectReason) : DrrState :=
  let bump x (b : bool) := if b then saturating_add 64 x 1 else x in
  MkDrr (outer s) (caps s) (dispatched s)
    (bump (rejected_per_flow s) (bool_decide (r = PerFlow)))
    (bump (rejected_max_flows s) (bool_decide (r = MaxFlows)))
    (bump (rejected_max_signers s) (bool_decide (r = MaxSigners)))
    (bump (rejected_conn_backlog s) (bool_decide (r = ConnBacklog)))
    (rejected_global s) (closed s).

Definition tally_global (s : DrrState) : DrrState :=
  MkDrr (outer s) (caps s) (dispatched s) (rejected_per_flow s) (rejected_max_flows s)
    (rejected_max_signers s) (rejected_conn_backlog s)
    (saturating_add 64 (rejected_global s) 1) (closed s).

Definition DrrState_enqueue (s : DrrState) (conn : ConnId) (signer : SignerHint)
    (req : QueuedRequest) : DrrState * result unit QueuedRequest :=
  if decide (global (caps s) ≤ total_depth (outer s))
  then (tally_global s, Err req)
  else
    let '(o', r) :=
      enqueue_routed (outer s) conn (max_flows (caps s)) MaxFlows req Tier_new
        (λ bucket req, enqueue_signer bucket signer req (per_flow (caps s))
           (max_signers (caps s)) (max_conn_backlog (caps s))) in
    match r with
    | Ok _ => (set_outer s o', Ok tt)
    | Err rej => (tally (set_outer s o') (rej_reason rej), Err (rej_req rej))
    end.

Definition DrrState_pick (s : DrrState) : run (option QueuedRequest * DrrState) :=
  let! (served, o') := pick (outer s) in
  match served with
  | None => Done (None, set_outer s o')
  | Some r =>
      Done (Some r,
        MkDrr o' (caps s) (saturating_add 64 (dispatched s) 1) (rejected_per_flow s)
          (rejected_max_flows s) (rejected_max_signers s) (rejected_conn_backlog s)
          (rejected_global s) (closed s))
  end.

Definition DrrState_len (s : DrrState) : Z := total_depth (outer s).

Definition DrrState_is_empty (s : DrrState) : bool := bool_decide (total_depth (outer s) = 0).

Definition active_signers (s : DrrState) : Z :=
  map_fold (λ _ e acc, acc + active_len (store e)) 0 (flows (outer s)).

Definition set_closed (s : DrrState) : DrrState :=
  MkDrr (outer s) (caps s) (dispatched s) (rejected_per_flow s) (rejected_max_flows s)
    (rejected_max_signers s) (rejected_conn_backlog s) (rejected_global s) true.

Definition stats (s : DrrState) : DrrStats :=
  MkDrrStats (total_depth (outer s)) (active_len (outer s)) (active_signers s) (dispatched s)
    (rejected_per_flow s) (rejected_max_flows s) (rejected_max_signers s)
    (rejected_conn_backlog s) (rejected_global s).

(** ** Contracts and invariants *)

(** What a tier relies on of the stores of its flows: [contents] is the
    multiset of buffered requests (as a list), [depth] counts it, and serving
    a store removes exactly one request and never panics. *)
Class FlowStoreOk (S : Type) `{FlowStore S} := {
  store_inv : S → Prop;
  contents : S → list QueuedRequest;
  depth_spec s : store_inv s → depth s = Z.of_nat (length (contents s));
  serve_none s : store_inv s → contents s = [] → serve s = Done (None, s);
  serve_some s : store_inv s → contents s ≠ [] →
    ∃ r s', serve s = Done (Some r, s') ∧ store_inv s' ∧ contents s ≡ₚ r :: contents s';
}.

#[global] Instance RequestFifo_ok : FlowStoreOk RequestFifo.
Proof.
  refine {| store_inv _ := True; contents := deque |}.
  - done.
  - intros [q] _ Hq. simpl in *. by subst.
  - intros [[|r q]] _ Hq; [done|]. by exists r, (MkFifo q).
Defined.

Section TierSpec.
Context {K S : Type} `{Countable K} `{FlowStoreOk S}.

Definition flow_contents (t : Tier K S) (k : K) : list QueuedRequest :=
  match flows t !! k with Some e => contents (store e) | None => [] end.

Definition tier_contents (t : Tier K S) : list QueuedRequest :=
  active t ≫= flow_contents t.

(** The module's invariants 1 to 3: the cached depth, the agreement of
    [active] and [flows] with no empty flow, and no banked credit. *)
Record tier_inv (t : Tier K S) : Prop := {
  ti_nodup : NoDup (active t);
  ti_keys k : k ∈ active t ↔ is_Some (flows t !! k);
  ti_flow k e : flows t !! k = Some e →
    store_inv (store e) ∧ contents (store e) ≠ [] ∧ deficit e = 0 ∧ quantum e = QUANTUM;
  ti_depth : total_depth t = Z.of_nat (length (tier_contents t));
}.

(** The tier after flow [k], at the front of [active], served one request
    and kept the store [s']. *)
Definition after_serve (t : Tier K S) (k : K) (rest : list K) (s' : S) : Tier K S :=
  if is_empty s'
  then MkTier (delete k (flows t)) rest (total_depth t - 1)
  else MkTier (<[k := MkEntry s' 0 QUANTUM]> (flows t)) (rest ++ [k]) (total_depth t - 1).

Lemma Tier_new_inv : tier_inv (Tier_new (K:=K) (S:=S)).
Proof.
  split; simpl; [constructor| |done..].
  intros k. rewrite lookup_empty. split; [by intros ?%not_elem_of_nil|by intros [??]].
Qed.

Lemma is_empty_spec (s : S) : store_inv s → is_empty s = bool_decide (contents s = []).
Proof.
  intros Hs. unfold is_empty. rewrite depth_spec by done.
  apply bool_decide_ext. destruct (contents s); simpl; split; (done || lia).
Qed.

Lemma pick_nil (t : Tier K S) : active t = [] → pick t = Done (None, t).
Proof. intros Ha. unfold pick. by rewrite Ha. Qed.

(** A turn of the front flow: it always has credit for one request. *)
Lemma pick_cons (t : Tier K S) k rest :
  tier_inv t → active t = k :: rest →
  ∃ e r s', flows t !! k = Some e ∧ serve (store e) = Done (Some r, s') ∧ store_inv s' ∧
    contents (store e) ≡ₚ r :: contents s' ∧
    pick t = Done (Some r, after_serve t k rest s').
Proof.
  intros Hinv Ha.
  destruct (proj1 (ti_keys t Hinv k)) as [e He]; [rewrite Ha; set_solver|].
  destruct (ti_flow t Hinv k e He) as (Hs & Hne & Hd & Hq).
  destruct (serve_some (store e) Hs Hne) as (r & s' & Hserve & Hs' & Hperm).
  exists e, r, s'. split_and!; try done.
  unfold pick, after_serve. rewrite Ha, He, Hd, Hq.
  change (saturating_add 64 0 QUANTUM) with 1.
  rewrite decide_False by (unfold COST; lia). rewrite Hserve. cbn [run_bind].
  by destruct (is_empty s').
Qed.

Lemma flow_contents_insert (t : Tier K S) k e a n :
  flow_contents (MkTier (<[k := e]> (flows t)) a n) k = contents (store e).
Proof. unfold flow_contents. simpl. by rewrite lookup_insert_eq. Qed.

Lemma flow_contents_ne (t t' : Tier K S) j :
  flows t' !! j = flows t !! j → flow_contents t' j = flow_contents t j.
Proof. unfold flow_contents. by intros ->. Qed.

Lemma after_serve_flows_ne (t : Tier K S) k rest s' j :
  j ≠ k → flows (after_serve t k rest s') !! j = flows t !! j.
Proof.
  intros ?. unfold after_serve. destruct (is_empty s'); simpl.
  - by rewrite lookup_delete_ne.
  - by rewrite lookup_insert_ne.
Qed.

(** The multiset of requests after a turn: the rest of the round, then what
    the served flow keeps. *)
Lemma after_serve_contents (t : Tier K S) k rest s' :
  tier_inv t → active t = k :: rest → store_inv s' →
  tier_contents (after_serve t k rest s') = (rest ≫= flow_contents t) ++ contents s'.
Proof.
  intros Hinv Ha Hs'.
  pose proof (ti_nodup t Hinv) as Hnd. rewrite Ha, NoDup_cons in Hnd. destruct Hnd as [Hk _].
  assert (Hrest : rest ≫= flow_contents (after_serve t k rest s') = rest ≫= flow_contents t).
  { apply list_bind_ext_in. intros j Hj. apply flow_contents_ne, after_serve_flows_ne.
    by intros ->. }
  unfold tier_contents.
  assert (Hact : active (after_serve t k rest s') = if is_empty s' then rest else rest ++ [k]).
  { unfold after_serve. by destruct (is_empty s'). }
  rewrite Hact, (is_empty_spec s') by done. case_bool_decide as He.
  - by rewrite He, app_nil_r.
  - rewrite bind_app, Hrest. f_equal. cbn. rewrite app_nil_r.
    unfold after_serve, flow_contents.
    rewrite (is_empty_spec s') by done. rewrite bool_decide_eq_false_2 by done. simpl.
    by rewrite lookup_insert_eq.
Qed.

Lemma after_serve_inv (t : Tier K S) k rest e r s' :
  tier_inv t → active t = k :: rest → flows t !! k = Some e → store_inv s' →
  contents (store e) ≡ₚ r :: contents s' →
  tier_inv (after_serve t k rest s') ∧
  tier_contents t ≡ₚ r :: tier_contents (after_serve t k rest s').
Proof.
  intros Hinv Ha He Hs' Hperm.
  pose proof (after_serve_contents t k rest s' Hinv Ha Hs') as Hc.
  pose proof (ti_nodup t Hinv) as Hnd. rewrite Ha, NoDup_cons in Hnd. destruct Hnd as [Hk Hnd].
  assert (Hperm' : tier_contents t ≡ₚ r :: tier_contents (after_serve t k rest s')).
  { rewrite Hc. unfold tier_contents at 1. rewrite Ha. cbn.
    unfold flow_contents at 1. rewrite He, Hperm. simpl. f_equiv. apply Permutation_app_comm. }
  split; [|done]. split.
  - unfold after_serve. destruct (is_empty s'); simpl; [done|].
    rewrite Permutation_app_comm. simpl. by rewrite NoDup_cons.
  - intros j. destruct (decide (j = k)) as [->|Hjk].
    + unfold after_serve. destruct (is_empty s'); simpl.
      * rewrite lookup_delete_eq. split; [done|by intros [??]].
      * rewrite lookup_insert_eq. split; [done|set_solver].
    + rewrite after_serve_flows_ne by done. rewrite <- (ti_keys t Hinv j), Ha.
      unfold after_serve. destruct (is_empty s'); simpl; set_solver.
  - intros j e' Hj. destruct (decide (j = k)) as [->|Hjk].
    + unfold after_serve in Hj. rewrite (is_empty_spec s') in Hj by done.
      case_bool_decide; simpl in Hj; simplify_map_eq. done.
    + rewrite after_serve_flows_ne in Hj by done. by eapply ti_flow.
  - pose proof (ti_depth t Hinv) as Hd. rewrite Hperm' in Hd. simpl in Hd.
    unfold after_serve at 1. destruct (is_empty s'); simpl; lia.
Qed.

(** [pick] never panics, keeps the invariant and removes one request. *)
Lemma pick_spec (t : Tier K S) :
  tier_inv t → tier_contents t ≠ [] →
  ∃ r t', pick t = Done (Some r, t') ∧ tier_inv t' ∧ tier_contents t ≡ₚ r :: tier_contents t'.
Proof.
  intros Hinv Hne. destruct (active t) as [|k rest] eqn:Ha.
  { by unfold tier_contents in Hne; rewrite Ha in Hne. }
  destruct (pick_cons t k rest Hinv Ha) as (e & r & s' & He & _ & Hs' & Hperm & Hpick).
  exists r, (after_serve t k rest s'). split; [done|]. by eapply after_serve_inv.
Qed.

Lemma tier_contents_nil (t : Tier K S) : tier_inv t → tier_contents t = [] → active t = [].
Proof.
  intros Hinv Hc. destruct (active t) as [|k rest] eqn:Ha; [done|exfalso].
  destruct (proj1 (ti_keys t Hinv k)) as [e He]; [rewrite Ha; set_solver|].
  destruct (ti_flow t Hinv k e He) as (_ & Hne & _).
  unfold tier_contents in Hc. rewrite Ha in Hc. cbn in Hc.
  apply app_eq_nil in Hc as [Hc _]. unfold flow_contents in Hc. by rewrite He in Hc.
Qed.

#[global] Instance Tier_ok : FlowStoreOk (Tier K S).
Proof.
  refine {| store_inv := tier_inv; contents := tier_contents |}.
  - intros t Hinv. apply (ti_depth t Hinv).
  - intros t Hinv Hc. apply pick_nil. by apply tier_contents_nil.
  - intros t Hinv Hc. by apply pick_spec.
Defined.
End TierSpec.

(** ** Enqueueing into a tier *)

Section EnqueueSpec.
Context {K S : Type} `{Countable K} `{FlowStoreOk S}.
Implicit Types t : Tier K S.

(** A push stores the request, or hands it back and changes nothing. *)
Definition push_ok (push : S → QueuedRequest → S * result unit Rejected) : Prop :=
  ∀ s req, store_inv s →
    match push s req with
    | (s', Ok _) => store_inv s' ∧ contents s' ≡ₚ contents s ++ [req]
    | (s', Err e) => s' = s ∧ rej_req e = req
    end.

Lemma enqueue_routed_Ok t key mk mr req make push t' u :
  enqueue_routed t key mk mr req make push = (t', Ok u) →
  (∃ e s' v, flows t !! key = Some e ∧ push (store e) req = (s', Ok v) ∧
     t' = MkTier (<[key := MkEntry s' (deficit e) (quantum e)]> (flows t)) (active t)
            (total_depth t + 1)) ∨
  (∃ s' v, flows t !! key = None ∧ Z.of_nat (size (flows t)) < mk ∧
     push make req = (s', Ok v) ∧
     t' = MkTier (<[key := FlowEntry_new s']> (flows t)) (active t ++ [key])
            (total_depth t + 1)).
Proof.
  unfold enqueue_routed. intros Heq.
  destruct (flows t !! key) as [e|].
  - destruct (push (store e) req) as [s' [v|rej]] eqn:Hp; simplify_eq. left. by eauto 10.
  - case_decide; [done|]. destruct (push make req) as [s' [v|rej]] eqn:Hp; simplify_eq.
    right. exists s', v. split_and!; (done || lia).
Qed.

(** A rejected enqueue leaves the tier exactly as it was. *)
Lemma enqueue_routed_Err t key mk mr req make push t' rej :
  tier_inv t → store_inv make → push_ok push →
  enqueue_routed t key mk mr req make push = (t', Err rej) →
  t' = t ∧ rej_req rej = req ∧
  ((∃ e s', flows t !! key = Some e ∧ push (store e) req = (s', Err rej)) ∨
   (flows t !! key = None ∧ mk ≤ Z.of_nat (size (flows t)) ∧ rej = MkRejected mr req) ∨
   (∃ s', flows t !! key = None ∧ Z.of_nat (size (flows t)) < mk ∧
      push make req = (s', Err rej))).
Proof.
  intros Hinv Hmake Hpush. unfold enqueue_routed.
  destruct (flows t !! key) as [e|] eqn:He.
  - destruct (ti_flow t Hinv key e He) as (Hs & _).
    specialize (Hpush (store e) req Hs).
    destruct (push (store e) req) as [s' [v|rej']] eqn:Hp; intros [= <- <-].
    destruct Hpush as [-> Hreq]. split_and!; [|done|by eauto 10].
    destruct e as [st d q]. simpl. rewrite insert_id by done. by destruct t.
  - case_decide.
    + intros [= <- <-]. split_and!; eauto.
    + specialize (Hpush make req Hmake).
      destruct (push make req) as [s' [v|rej']] eqn:Hp; intros [= <- <-].
      destruct Hpush as [-> Hreq]. split_and!; [done..|].
      right. right. exists make. split_and!; (done || lia).
Qed.

Lemma tier_contents_update t t' key e' c :
  tier_inv t → key ∈ active t → active t' = active t →
  flows t' = <[key := e']> (flows t) →
  contents (store e') ≡ₚ flow_contents t key ++ c →
  tier_contents t' ≡ₚ tier_contents t ++ c.
Proof.
  intros Hinv Hk Ha Hf Hc. pose proof (ti_nodup t Hinv) as Hnd.
  apply list_elem_of_split in Hk as (l1 & l2 & Hact).
  unfold tier_contents. rewrite Ha, Hact in *.
  apply NoDup_app in Hnd as (_ & Hd & [Hk2 _]%NoDup_cons).
  rewrite !bind_app, !bind_cons.
  assert (Hne : ∀ j, j ≠ key → flow_contents t' j = flow_contents t j).
  { intros j Hj. apply flow_contents_ne. rewrite Hf. by apply lookup_insert_ne. }
  rewrite (list_bind_ext_in (flow_contents t') (flow_contents t) l1)
    by (intros j Hj; apply Hne; intros ->; apply (Hd key Hj); set_solver).
  rewrite (list_bind_ext_in (flow_contents t') (flow_contents t) l2)
    by (intros j Hj; apply Hne; by intros ->).
  assert (Hnew : flow_contents t' key = contents (store e')).
  { unfold flow_contents. by rewrite Hf, lookup_insert_eq. }
  rewrite Hnew, Hc. rewrite <- !app_assoc. f_equiv. f_equiv. apply Permutation_app_comm.
Qed.

Lemma tier_contents_fresh t t' key e' :
  tier_inv t → flows t !! key = None → active t' = active t ++ [key] →
  flows t' = <[key := e']> (flows t) →
  tier_contents t' = tier_contents t ++ contents (store e').
Proof.
  intros Hinv Hk Ha Hf. unfold tier_contents. rewrite Ha, bind_app, bind_cons. simpl.
  rewrite app_nil_r. f_equal.
  - apply list_bind_ext_in. intros j Hj%(ti_keys t Hinv). apply flow_contents_ne.
    rewrite Hf. apply lookup_insert_ne. intros ->. destruct Hj. congruence.
  - unfold flow_contents. by rewrite Hf, lookup_insert_eq.
Qed.

(** An accepted enqueue keeps the invariant and adds exactly the request. *)
Lemma enqueue_routed_inv t key mk mr req make push t' u :
  tier_inv t → store_inv make → contents make = [] → push_ok push →
  enqueue_routed t key mk mr req make push = (t', Ok u) →
  tier_inv t' ∧ tier_contents t' ≡ₚ tier_contents t ++ [req].
Proof.
  intros Hinv Hmake Hempty Hpush Heq.
  apply enqueue_routed_Ok in Heq
    as [(e & s' & v & He & Hp & Ht')|(s' & v & He & _ & Hp & Ht')].
  - destruct (ti_flow t Hinv key e He) as (Hs & Hne & Hd & Hq).
    specialize (Hpush (store e) req Hs). rewrite Hp in Hpush. destruct Hpush as [Hs' Hc].
    assert (Hin : key ∈ active t) by (apply (ti_keys t Hinv); by rewrite He).
    assert (Hperm : tier_contents t' ≡ₚ tier_contents t ++ [req]).
    { subst t'. eapply tier_contents_update; try done. simpl. unfold flow_contents.
      by rewrite He. }
    split; [|done]. subst t'. split; simpl.
    + apply (ti_nodup t Hinv).
    + intros j. rewrite (ti_keys t Hinv j). destruct (decide (j = key)) as [->|].
      * by rewrite lookup_insert_eq, He.
      * by rewrite lookup_insert_ne.
    + intros j e' Hj. destruct (decide (j = key)) as [->|]; simplify_map_eq.
      * split_and!; try done. intros Hnil. rewrite Hnil in Hc.
        apply (f_equal length) in Hnil. apply Permutation_length in Hc.
        rewrite length_app in Hc. simpl in *. lia.
      * by eapply ti_flow.
    + rewrite Hperm, length_app, (ti_depth t Hinv). simpl. lia.
  - specialize (Hpush make req Hmake). rewrite Hp, Hempty in Hpush. destruct Hpush as [Hs' Hc].
    assert (Hnin : key ∉ active t).
    { rewrite (ti_keys t Hinv), He. by intros [??]. }
    assert (Hperm : tier_contents t' ≡ₚ tier_contents t ++ [req]).
    { subst t'. erewrite tier_contents_fresh; [|done..]. simpl. by rewrite Hc. }
    split; [|done]. subst t'. split; simpl.
    + rewrite Permutation_app_comm. simpl. rewrite NoDup_cons. split; [done|].
      apply (ti_nodup t Hinv).
    + intros j. rewrite elem_of_app, list_elem_of_singleton, (ti_keys t Hinv j).
      destruct (decide (j = key)) as [->|].
      * rewrite lookup_insert_eq. naive_solver.
      * rewrite lookup_insert_ne by done. naive_solver.
    + intros j e' Hj. destruct (decide (j = key)) as [->|]; simplify_map_eq.
      * split_and!; try done. simpl. intros Hnil. rewrite Hnil in Hc.
        by apply Permutation_nil_l in Hc.
      * by eapply ti_flow.
    + rewrite Hperm, length_app, (ti_depth t Hinv). simpl. lia.
Qed.
End EnqueueSpec.
