(* ===== verification/DrrFair.v ===== *)
(** Theorems about the two-tier scheduler of [Drr.v]: panic freedom and
    capacity bounds over every sequence of operations, conservation of
    requests, first-in-first-out order within a (connection, signer) flow,
    the bound on the number of turns a buffered request waits, the equal
    share of connections in a round, and the collapse of a connection with a
    single hint to the one-tier scheduler. *)

From Stdlib Require Import ZArith Lia Permutation.
From stdpp Require Import base list numbers gmap.
From S2P Require Import Prelude Drr.

Local Open Scope Z_scope.

(** ** Sequences of scheduler operations *)

Inductive op :=
| Enq (c : ConnId) (g : SignerHint) (r : QueuedRequest)
| Pick.

Inductive event :=
| Accepted (c : ConnId) (g : SignerHint) (r : QueuedRequest)
| Refused (c : ConnId) (g : SignerHint) (r : QueuedRequest)
| Served (r : QueuedRequest)
| Idle.

Definition step (s : DrrState) (o : op) : run (DrrState * event) :=
  match o with
  | Enq c g r =>
      match DrrState_enqueue s c g r with
      | (s', Ok _) => Done (s', Accepted c g r)
      | (s', Err r') => Done (s', Refused c g r')
      end
  | Pick =>
      let! (served, s') := DrrState_pick s in
      Done (s', match served with Some r => Served r | None => Idle end)
  end.

Fixpoint exec (s : DrrState) (ops : list op) : run (DrrState * list event) :=
  match ops with
  | [] => Done (s, [])
  | o :: ops =>
      let! (s1, ev) := step s o in
      let! (s2, evs) := exec s1 ops in
      Done (s2, ev :: evs)
  end.

Definition accepted (evs : list event) : list QueuedRequest :=
  omap (λ ev, match ev with Accepted _ _ r => Some r | _ => None end) evs.

Definition served (evs : list event) : list QueuedRequest :=
  omap (λ ev, match ev with Served r => Some r | _ => None end) evs.

Fixpoint picks (ops : list op) : nat :=
  match ops with
  | [] => 0
  | Pick :: ops => S (picks ops)
  | Enq _ _ _ :: ops => picks ops
  end.

(** ** State predicates *)

(** The backlog of one (connection, signer) flow, oldest request first. *)
Definition leaf (s : DrrState) (c : ConnId) (g : SignerHint) : list QueuedRequest :=
  match flows (outer s) !! c with
  | Some e => match flows (store e) !! g with Some e' => deque (store e') | None => [] end
  | None => []
  end.

Definition drr_inv (s : DrrState) : Prop := tier_inv (outer s).

(** Every buffer is within the cap that bounds it. *)
Record within_caps (s : DrrState) : Prop := {
  wc_global : total_depth (outer s) ≤ global (caps s);
  wc_flows : Z.of_nat (size (flows (outer s))) ≤ max_flows (caps s);
  wc_signers c e : flows (outer s) !! c = Some e →
    Z.of_nat (size (flows (store e))) ≤ max_signers (caps s);
  wc_backlog c e : flows (outer s) !! c = Some e →
    total_depth (store e) ≤ max_conn_backlog (caps s);
  wc_leaf c g : Z.of_nat (length (leaf s c g)) ≤ per_flow (caps s);
}.

Definition caps_nonneg (c : Caps) : Prop :=
  0 ≤ per_flow c ∧ 0 ≤ max_flows c ∧ 0 ≤ max_signers c ∧ 0 ≤ max_conn_backlog c ∧ 0 ≤ global c.

(** Request [r] is buffered at position [d] of the flow of signer [g], which
    is at position [j] of the inner round of connection [c], which is at
    position [i] of the outer round. *)
Definition waiting (s : DrrState) (c : ConnId) (g : SignerHint) (r : QueuedRequest)
    (d j i : nat) : Prop :=
  active (outer s) !! i = Some c ∧
  ∃ e, flows (outer s) !! c = Some e ∧ active (store e) !! j = Some g ∧
  ∃ e', flows (store e) !! g = Some e' ∧ deque (store e') !! d = Some r.

(** The number of turns that may come before that request's. *)
Definition turns (s : DrrState) (d j i : nat) : Z :=
  (Z.of_nat d * max_signers (caps s) + Z.of_nat j) * max_flows (caps s) + Z.of_nat i.

(** ** The pushes satisfy the contract of [enqueue_routed] *)

Lemma RequestFifo_push_ok pf : push_ok (λ (f : RequestFifo) r, RequestFifo_push f r pf).
Proof.
  intros [q] r _. unfold RequestFifo_push. simpl. case_decide; simpl; done.
Qed.

Lemma enqueue_leaf_ok (b : ConnBucket) g r pf mk mr :
  tier_inv b →
  match enqueue_leaf b g r pf mk mr with
  | (b', Ok _) => tier_inv b' ∧ tier_contents b' ≡ₚ tier_contents b ++ [r]
  | (b', Err e) => b' = b ∧ rej_req e = r
  end.
Proof.
  intros Hb. unfold enqueue_leaf.
  destruct (enqueue_routed _ _ _ _ _ _ _) as [b' [u|e]] eqn:He.
  - eapply enqueue_routed_inv in He; [done|done|done|done|apply RequestFifo_push_ok].
  - eapply enqueue_routed_Err in He as (-> & Hr & _);
      [done|done|done|apply RequestFifo_push_ok].
Qed.

Lemma enqueue_signer_ok g pf ms mb :
  push_ok (λ (b : ConnBucket) r, enqueue_signer b g r pf ms mb).
Proof.
  intros b r Hb. unfold enqueue_signer.
  destruct (match flows b !! g with Some _ => _ | None => _ end); [done|].
  case_decide; [done|]. by apply enqueue_leaf_ok.
Qed.

(** ** The effect of an accepted enqueue *)

(** The store of flow [k], or the fresh store it would be created with. *)
Definition flow_store {K S} `{Countable K} (t : Tier K S) (make : S) (k : K) : S :=
  match flows t !! k with Some e => store e | None => make end.

(** [t'] is [t] after flow [key] accepted a push that left its store at [s']:
    the key joins the round at most once, at its end. *)
Record pushed {K S} `{Countable K} (t t' : Tier K S) (key : K) (mk : Z) (s' : S) : Prop := {
  pd_key : ∃ d q, flows t' !! key = Some (MkEntry s' d q);
  pd_ne j : j ≠ key → flows t' !! j = flows t !! j;
  pd_active : ∃ suf, active t' = active t ++ suf;
  pd_depth : total_depth t' = total_depth t + 1;
  pd_size : (is_Some (flows t !! key) ∧ size (flows t') = size (flows t)) ∨
    Z.of_nat (size (flows t')) ≤ mk;
}.

Lemma enqueue_routed_pushed {K S} `{Countable K} (t : Tier K S) key mk mr req make push t' u :
  enqueue_routed t key mk mr req make push = (t', Ok u) →
  ∃ s' v, push (flow_store t make key) req = (s', Ok v) ∧ pushed t t' key mk s'.
Proof.
  intros Heq. unfold flow_store. apply enqueue_routed_Ok in Heq
    as [(e & s' & v & He & Hp & ->)|(s' & v & He & Hsz & Hp & ->)];
    rewrite He; exists s', v; (split; [done|]); split; simpl; try done.
  - rewrite lookup_insert_eq. eauto.
  - intros j ?. by rewrite lookup_insert_ne.
  - exists []. by rewrite app_nil_r.
  - left. split; [by rewrite He|]. by rewrite map_size_insert_Some by (by rewrite He).
  - rewrite lookup_insert_eq. unfold FlowEntry_new. eauto.
  - intros j ?. by rewrite lookup_insert_ne.
  - eauto.
  - right. rewrite map_size_insert_None by done. lia.
Qed.

Lemma pushed_store {K S} `{Countable K} (t t' : Tier K S) key mk s' make :
  pushed t t' key mk s' → flow_store t' make key = s'.
Proof. intros [(d & q & Hk) _ _ _ _]. unfold flow_store. by rewrite Hk. Qed.

Lemma pushed_store_ne {K S} `{Countable K} (t t' : Tier K S) key mk s' make j :
  pushed t t' key mk s' → j ≠ key → flow_store t' make j = flow_store t make j.
Proof. intros Hp Hj. unfold flow_store. by rewrite (pd_ne _ _ _ _ _ Hp j Hj). Qed.

Definition bucket (s : DrrState) (c : ConnId) : ConnBucket := flow_store (outer s) Tier_new c.

Lemma leaf_bucket s c g :
  leaf s c g = deque (flow_store (bucket s c) RequestFifo_new g).
Proof.
  unfold leaf, bucket, flow_store.
  destruct (flows (outer s) !! c); simpl; [by destruct (_ !! g)|].
  by rewrite lookup_empty.
Qed.

Lemma enqueue_signer_Ok b g r pf ms mb b' u :
  enqueue_signer b g r pf ms mb = (b', Ok u) →
  let f := flow_store b RequestFifo_new g in
  Z.of_nat (length (deque f)) < pf ∧ total_depth b < mb ∧
  pushed b b' g ms (MkFifo (deque f ++ [r])).
Proof.
  unfold enqueue_signer, enqueue_leaf. intros Heq.
  destruct (match flows b !! g with Some _ => _ | None => _ end); [done|].
  case_decide; [done|]. apply enqueue_routed_pushed in Heq as (s' & v & Hp & Hpushed).
  unfold RequestFifo_push in Hp. case_decide; simplify_eq. split_and!; (done || lia).
Qed.

(** Which cap a connection's bucket reports. *)
Lemma enqueue_signer_Err b g r pf ms mb b' rej :
  tier_inv b → enqueue_signer b g r pf ms mb = (b', Err rej) →
  (rej_reason rej = PerFlow ∧
     pf ≤ Z.of_nat (length (deque (flow_store b RequestFifo_new g)))) ∨
  (rej_reason rej = ConnBacklog ∧ mb ≤ total_depth b) ∨
  (rej_reason rej = MaxSigners ∧ flows b !! g = None ∧ ms ≤ Z.of_nat (size (flows b))).
Proof.
  intros Hb. unfold enqueue_signer, flow_store.
  destruct (flows b !! g) as [e|] eqn:Hg; simpl.
  - case_bool_decide; [intros [= <- <-]; by left|].
    case_decide; [intros [= <- <-]; by right; left|].
    unfold enqueue_leaf, enqueue_routed. rewrite Hg. unfold RequestFifo_push.
    case_decide; intros [= <- <-]; by left.
  - case_decide; [intros [= <- <-]; by right; left|].
    unfold enqueue_leaf, enqueue_routed. rewrite Hg.
    case_decide; [intros [= <- <-]; right; right; done|].
    unfold RequestFifo_push. simpl. case_decide; intros [= <- <-]; by left.
Qed.

(** An accepted enqueue, at both tiers at once. *)
Lemma drr_enqueue_Ok s c g r s' u :
  DrrState_enqueue s c g r = (s', Ok u) →
  ∃ b', pushed (outer s) (outer s') c (max_flows (caps s)) b' ∧
    pushed (bucket s c) b' g (max_signers (caps s)) (MkFifo (leaf s c g ++ [r])) ∧
    Z.of_nat (length (leaf s c g)) < per_flow (caps s) ∧
    total_depth (bucket s c) < max_conn_backlog (caps s) ∧
    total_depth (outer s) < global (caps s) ∧ caps s' = caps s.
Proof.
  unfold DrrState_enqueue. case_decide; [done|].
  destruct (enqueue_routed _ _ _ _ _ _ _) as [o' [v|rej]] eqn:He; intros [= <- _].
  apply enqueue_routed_pushed in He as (b' & w & Hp & Hpushed).
  apply enqueue_signer_Ok in Hp as (Hlt & Hmb & Hin).
  exists b'. rewrite leaf_bucket. split_and!; (done || lia).
Qed.

Lemma drr_enqueue_inv s c g r s' u :
  drr_inv s → DrrState_enqueue s c g r = (s', Ok u) →
  drr_inv s' ∧ tier_contents (outer s') ≡ₚ tier_contents (outer s) ++ [r].
Proof.
  intros Hinv. unfold DrrState_enqueue. case_decide; [done|].
  destruct (enqueue_routed _ _ _ _ _ _ _) as [o' [v|rej]] eqn:He; intros [= <- _].
  eapply enqueue_routed_inv in He; [done|done|apply Tier_new_inv|done|apply enqueue_signer_ok].
Qed.

(** A refused enqueue hands the request back and changes nothing but one
    rejection counter. *)
Lemma drr_enqueue_Err s c g r s' r' :
  drr_inv s → DrrState_enqueue s c g r = (s', Err r') →
  r' = r ∧ outer s' = outer s ∧ caps s' = caps s ∧ closed s' = closed s ∧
  dispatched s' = dispatched s.
Proof.
  intros Hinv. unfold DrrState_enqueue. case_decide; [by intros [= <- <-]|].
  destruct (enqueue_routed _ _ _ _ _ _ _) as [o' [v|rej]] eqn:He; intros [= <- <-].
  eapply enqueue_routed_Err in He as (-> & Hr & _);
    [done|done|apply Tier_new_inv|apply enqueue_signer_ok].
Qed.

(** The backlog of a flow grows at its end; every other flow is untouched. *)
Lemma drr_enqueue_leaf s c g r s' u c' g' :
  DrrState_enqueue s c g r = (s', Ok u) →
  leaf s' c' g' =
    if decide (c' = c ∧ g' = g) then leaf s c g ++ [r] else leaf s c' g'.
Proof.
  intros (b' & Ho & Hi & _)%drr_enqueue_Ok. rewrite !leaf_bucket. unfold bucket.
  destruct (decide (c' = c)) as [->|Hc].
  - rewrite (pushed_store _ _ _ _ _ _ Ho). destruct (decide (g' = g)) as [->|Hg].
    + rewrite decide_True by done. rewrite (pushed_store _ _ _ _ _ _ Hi). simpl.
      by rewrite leaf_bucket.
    + rewrite decide_False by naive_solver.
      by rewrite (pushed_store_ne _ _ _ _ _ _ _ Hi Hg).
  - rewrite decide_False by naive_solver.
    by rewrite (pushed_store_ne _ _ _ _ _ _ _ Ho Hc).
Qed.

(** ** The effect of a turn *)

(** One turn: the connection at the front of the outer round serves the
    oldest request of the signer at the front of its inner round. *)
Lemma drr_pick_cons s c rest :
  drr_inv s → active (outer s) = c :: rest →
  ∃ e g rest' e' r q,
    flows (outer s) !! c = Some e ∧ active (store e) = g :: rest' ∧
    flows (store e) !! g = Some e' ∧ deque (store e') = r :: q ∧ tier_inv (store e) ∧
    pick (outer s) =
      Done (Some r, after_serve (outer s) c rest (after_serve (store e) g rest' (MkFifo q))).
Proof.
  intros Hinv Ha.
  destruct (pick_cons (outer s) c rest Hinv Ha) as (e & r & s' & He & Hserve & _ & _ & Hpick).
  destruct (ti_flow (outer s) Hinv c e He) as (Hb & Hne & _).
  destruct (active (store e)) as [|g rest'] eqn:Hg.
  { exfalso. apply Hne. simpl. unfold tier_contents. by rewrite Hg. }
  destruct (pick_cons (store e) g rest' Hb Hg) as (e' & r' & f & He' & Hserve' & _ & _ & Hpick').
  destruct (ti_flow (store e) Hb g e' He') as (_ & Hne' & _).
  destruct (deque (store e')) as [|r0 q] eqn:Hq; [done|].
  exists e, g, rest', e', r, q.
  change (serve (store e)) with (pick (store e)) in Hserve.
  rewrite Hpick' in Hserve. injection Hserve as <- <-.
  change (serve (store e')) with (RequestFifo_serve (store e')) in Hserve'.
  unfold RequestFifo_serve in Hserve'. rewrite Hq in Hserve'. injection Hserve' as <- <-.
  done.
Qed.

Lemma after_serve_store_ne {K S} `{Countable K} `{FlowStoreOk S} (t : Tier K S) k rest s' make j :
  j ≠ k → flow_store (after_serve t k rest s') make j = flow_store t make j.
Proof. intros ?. unfold flow_store. by rewrite after_serve_flows_ne. Qed.

Lemma after_serve_leaf (b : ConnBucket) g rest q :
  deque (flow_store (after_serve b g rest (MkFifo q)) RequestFifo_new g) = q.
Proof.
  unfold flow_store, after_serve, is_empty. simpl. unfold RequestFifo_depth. simpl.
  case_bool_decide; simpl.
  - rewrite lookup_delete_eq. simpl. by destruct q.
  - by rewrite lookup_insert_eq.
Qed.

(** A connection whose bucket drained is evicted; the fresh bucket a later
    submission would create reads as the same empty backlogs. *)
Lemma after_serve_bucket (o : Tier ConnId ConnBucket) c rest b g :
  tier_inv b →
  deque (flow_store (flow_store (after_serve o c rest b) Tier_new c) RequestFifo_new g) =
  deque (flow_store b RequestFifo_new g).
Proof.
  intros Hb. unfold after_serve. rewrite (is_empty_spec b) by done.
  case_bool_decide as He; unfold flow_store at 2; simpl.
  - rewrite lookup_delete_eq. unfold flow_store. simpl. rewrite lookup_empty.
    destruct (flows b !! g) as [e|] eqn:Hg; [|done]. exfalso.
    pose proof (tier_contents_nil b Hb He) as Hnil.
    apply (not_elem_of_nil g). rewrite <- Hnil. apply (ti_keys b Hb). by rewrite Hg.
  - by rewrite lookup_insert_eq.
Qed.

Lemma drr_pick_nil s : active (outer s) = [] → DrrState_pick s = Done (None, s).
Proof.
  intros Ha. unfold DrrState_pick. rewrite pick_nil by done. simpl. by destruct s.
Qed.

(** The turn, as an effect on the backlogs. *)
Lemma drr_pick_leaf s c rest :
  drr_inv s → active (outer s) = c :: rest →
  ∃ g r q s', DrrState_pick s = Done (Some r, s') ∧ drr_inv s' ∧ caps s' = caps s ∧
    closed s' = closed s ∧ leaf s c g = r :: q ∧
    (∀ c' g', leaf s' c' g' = if decide (c' = c ∧ g' = g) then q else leaf s c' g') ∧
    tier_contents (outer s) ≡ₚ r :: tier_contents (outer s') ∧
    dispatched s' = saturating_add 64 (dispatched s) 1.
Proof.
  intros Hinv Ha.
  destruct (drr_pick_cons s c rest Hinv Ha)
    as (e & g & rest' & e' & r & q & He & Hg & He' & Hq & Hb & Hpick).
  assert (Hb' : tier_inv (after_serve (store e) g rest' (MkFifo q))).
  { eapply (after_serve_inv (store e) g rest' e' r (MkFifo q)); try done. simpl. by rewrite Hq. }
  assert (Hdone := pick_spec (outer s) Hinv).
  destruct Hdone as (r0 & o' & Hp & Hinv' & Hperm).
  { intros Hnil%tier_contents_nil; [|done]. by rewrite Ha in Hnil. }
  rewrite Hpick in Hp. injection Hp as <- <-.
  eexists g, r, q, _. unfold DrrState_pick. rewrite Hpick. cbn [run_bind].
  split_and!; [done|done|done|done| |intros c' g'|done|done].
  - unfold leaf. by rewrite He, He'.
  - rewrite !leaf_bucket. unfold bucket. simpl.
    destruct (decide (c' = c)) as [->|Hc].
    + rewrite after_serve_bucket by done. destruct (decide (g' = g)) as [->|Hg'].
      * rewrite decide_True by done. apply after_serve_leaf.
      * rewrite decide_False by naive_solver. rewrite after_serve_store_ne by done.
        unfold flow_store at 3. by rewrite He.
    + rewrite decide_False by naive_solver. by rewrite after_serve_store_ne.
Qed.

(** ** Capacity bounds *)

Lemma after_serve_size {K S} `{Countable K} `{FlowStoreOk S} (t : Tier K S) k rest s' :
  is_Some (flows t !! k) → (size (flows (after_serve t k rest s')) ≤ size (flows t))%nat.
Proof.
  intros Hk. unfold after_serve. destruct (is_empty s'); simpl.
  - rewrite map_size_delete. destruct (flows t !! k); unfold id; lia.
  - by rewrite map_size_insert_Some.
Qed.

Lemma after_serve_lookup {K S} `{Countable K} `{FlowStoreOk S} (t : Tier K S) k rest s' e :
  flows (after_serve t k rest s') !! k = Some e → store e = s'.
Proof. unfold after_serve. destruct (is_empty s'); simpl; intros; by simplify_map_eq. Qed.

Lemma after_serve_depth {K S} `{Countable K} `{FlowStoreOk S} (t : Tier K S) k rest s' :
  total_depth (after_serve t k rest s') = total_depth t - 1.
Proof. unfold after_serve. by destruct (is_empty s'). Qed.

Lemma within_caps_enqueue s c g r s' u :
  within_caps s → DrrState_enqueue s c g r = (s', Ok u) → within_caps s'.
Proof.
  intros Hw Heq. pose proof (drr_enqueue_leaf s c g r s' u) as Hleaf.
  apply drr_enqueue_Ok in Heq as Hok.
  destruct Hok as (b' & Ho & Hi & Hlt & Hmb & Hgl & Hcaps).
  destruct (pd_key _ _ _ _ _ Ho) as (d & q & Hkey).
  assert (Hsize : Z.of_nat (size (flows b')) ≤ max_signers (caps s)).
  { destruct (pd_size _ _ _ _ _ Hi) as [[Hg ->]|]; [|lia].
    unfold bucket, flow_store in *. destruct (flows (outer s) !! c) as [e|] eqn:He.
    - by eapply wc_signers.
    - simpl in Hg. rewrite lookup_empty in Hg. by destruct Hg. }
  split; rewrite Hcaps.
  - rewrite (pd_depth _ _ _ _ _ Ho). lia.
  - pose proof (pd_size _ _ _ _ _ Ho). pose proof (wc_flows s Hw). naive_solver lia.
  - intros c' e' He'. destruct (decide (c' = c)) as [->|Hc].
    + rewrite Hkey in He'. by simplify_eq/=.
    + rewrite (pd_ne _ _ _ _ _ Ho c' Hc) in He'. by eapply wc_signers.
  - intros c' e' He'. destruct (decide (c' = c)) as [->|Hc].
    + rewrite Hkey in He'. simplify_eq/=. rewrite (pd_depth _ _ _ _ _ Hi). lia.
    + rewrite (pd_ne _ _ _ _ _ Ho c' Hc) in He'. by eapply wc_backlog.
  - intros c' g'. rewrite (Hleaf c' g' Heq). case_decide.
    + rewrite length_app. simpl. lia.
    + apply (wc_leaf s Hw).
Qed.

Lemma within_caps_pick s r s' :
  drr_inv s → within_caps s → DrrState_pick s = Done (r, s') → within_caps s'.
Proof.
  intros Hinv Hw Hp. destruct (active (outer s)) as [|c rest] eqn:Ha.
  { rewrite drr_pick_nil in Hp by done. by simplify_eq. }
  destruct (drr_pick_leaf s c rest Hinv Ha)
    as (g & r' & q & s1 & Hp' & _ & Hcaps & _ & Hg & Hleaf & _).
  rewrite Hp' in Hp. simplify_eq.
  destruct (drr_pick_cons s c rest Hinv Ha)
    as (e & g0 & rest' & e' & r0 & q0 & He & _ & He' & _ & _ & Hpick).
  unfold DrrState_pick in Hp'. rewrite Hpick in Hp'. cbn [run_bind] in Hp'.
  injection Hp' as <- <-.
  split; simpl.
  - rewrite after_serve_depth. pose proof (wc_global s Hw). lia.
  - pose proof (after_serve_size (outer s) c rest (after_serve (store e) g0 rest' (MkFifo q0))
      (mk_is_Some _ _ He)).
    pose proof (wc_flows s Hw). lia.
  - intros c' e1 He1. destruct (decide (c' = c)) as [->|Hc].
    + apply after_serve_lookup in He1 as ->.
      pose proof (after_serve_size (store e) g0 rest' (MkFifo q0) (mk_is_Some _ _ He')).
      pose proof (wc_signers s Hw c e He). lia.
    + rewrite after_serve_flows_ne in He1 by done. by eapply wc_signers.
  - intros c' e1 He1. destruct (decide (c' = c)) as [->|Hc].
    + apply after_serve_lookup in He1 as ->. rewrite after_serve_depth.
      pose proof (wc_backlog s Hw c e He). lia.
    + rewrite after_serve_flows_ne in He1 by done. by eapply wc_backlog.
  - intros c' g'. rewrite (Hleaf c' g'). case_decide; [|apply (wc_leaf s Hw)].
    pose proof (wc_leaf s Hw c g) as Hl. rewrite Hg in Hl. simpl in Hl. lia.
Qed.

(** ** Runs *)

Lemma within_caps_ext s s' :
  outer s' = outer s → caps s' = caps s → within_caps s → within_caps s'.
Proof.
  intros Ho Hc [? ? ? ? Hl]. split; rewrite ?Ho, ?Hc; try done.
  intros c g. specialize (Hl c g). unfold leaf in *. by rewrite Ho.
Qed.

(** Every operation of a well-formed scheduler within its caps returns, and
    keeps both; the requests of the state and of the event balance. *)
Lemma step_ok s o :
  drr_inv s → within_caps s →
  ∃ s' ev, step s o = Done (s', ev) ∧ drr_inv s' ∧ within_caps s' ∧ caps s' = caps s ∧
    tier_contents (outer s) ++ accepted [ev] ≡ₚ served [ev] ++ tier_contents (outer s').
Proof.
  intros Hinv Hw. destruct o as [c g r|]; simpl.
  - destruct (DrrState_enqueue s c g r) as [s' [u|r']] eqn:He.
    + exists s', (Accepted c g r). pose proof (within_caps_enqueue _ _ _ _ _ _ Hw He).
      apply drr_enqueue_Ok in He as Hok. destruct Hok as (? & _ & _ & _ & _ & _ & Hcaps).
      apply drr_enqueue_inv in He as [Hinv' Hperm]; [|done].
      split_and!; [done..|]. simpl. by rewrite Hperm.
    + exists s', (Refused c g r'). apply drr_enqueue_Err in He as (_ & Ho & Hc & _); [|done].
      split_and!; [done| |by eapply within_caps_ext|done|].
      * unfold drr_inv. by rewrite Ho.
      * simpl. by rewrite Ho, app_nil_r.
  - destruct (active (outer s)) as [|c rest] eqn:Ha.
    + rewrite drr_pick_nil by done. exists s, Idle. simpl. split_and!; try done.
      by rewrite app_nil_r.
    + destruct (drr_pick_leaf s c rest Hinv Ha)
        as (g & r & q & s' & Hp & Hinv' & Hcaps & _ & _ & _ & Hperm & _).
      rewrite Hp. exists s', (Served r). pose proof (within_caps_pick _ _ _ Hinv Hw Hp).
      split_and!; [done..|]. simpl. by rewrite app_nil_r.
Qed.

Lemma exec_ok ops s :
  drr_inv s → within_caps s →
  ∃ s' evs, exec s ops = Done (s', evs) ∧ drr_inv s' ∧ within_caps s' ∧ caps s' = caps s ∧
    tier_contents (outer s) ++ accepted evs ≡ₚ served evs ++ tier_contents (outer s').
Proof.
  revert s. induction ops as [|o ops IH]; intros s Hinv Hw.
  { exists s, []. simpl. by rewrite app_nil_r. }
  destruct (step_ok s o Hinv Hw) as (s1 & ev & Hs & Hinv1 & Hw1 & Hc1 & Hperm1).
  destruct (IH s1 Hinv1 Hw1) as (s2 & evs & He & Hinv2 & Hw2 & Hc2 & Hperm2).
  exists s2, (ev :: evs). cbn [exec]. rewrite Hs. cbn [run_bind]. rewrite He.
  split_and!; [done..|congruence|].
  change (ev :: evs) with ([ev] ++ evs). unfold accepted, served in *.
  rewrite !omap_app, app_assoc, Hperm1, <- app_assoc, Hperm2. by rewrite app_assoc.
Qed.

Lemma DrrState_new_ok c :
  caps_nonneg c → drr_inv (DrrState_new c) ∧ within_caps (DrrState_new c).
Proof.
  intros (? & ? & ? & ? & ?). split; [apply Tier_new_inv|].
  split; simpl; unfold HARD_MAX_QUEUE_DEPTH, HARD_MAX_FLOWS; rewrite ?map_size_empty; try lia.
  - intros c' e. by rewrite lookup_empty.
  - intros c' e. by rewrite lookup_empty.
  - intros c' g. unfold leaf. simpl. rewrite lookup_empty. simpl. lia.
Qed.

(** What every state reached from a fresh scheduler satisfies. *)
Lemma reachable_ok c ops s evs :
  caps_nonneg c → exec (DrrState_new c) ops = Done (s, evs) →
  drr_inv s ∧ within_caps s ∧ accepted evs ≡ₚ served evs ++ tier_contents (outer s).
Proof.
  intros Hc He. destruct (DrrState_new_ok c Hc) as [Hi Hw].
  destruct (exec_ok ops (DrrState_new c) Hi Hw) as (s' & evs' & He' & ? & ? & _ & Hperm).
  rewrite He in He'. by simplify_eq.
Qed.

(** ** How long a request waits *)

Lemma active_size {K S} `{Countable K} `{FlowStoreOk S} (t : Tier K S) :
  tier_inv t → length (active t) = size (flows t).
Proof.
  intros Hinv. rewrite <- size_dom. rewrite <- (size_list_to_set (C:=gset K)).
  - f_equal. apply set_eq. intros k. rewrite elem_of_list_to_set, elem_of_dom.
    apply (ti_keys t Hinv).
  - apply (ti_nodup t Hinv).
Qed.

Lemma is_empty_active {K S} `{Countable K} `{FlowStoreOk S} (t : Tier K S) k :
  tier_inv t → k ∈ active t → is_empty t = false.
Proof.
  intros Hinv Hk. rewrite (is_empty_spec t) by done. apply bool_decide_eq_false_2.
  intros Hnil%tier_contents_nil; [|done]. rewrite Hnil in Hk. by apply not_elem_of_nil in Hk.
Qed.

Lemma waiting_enq s c g r d j i c0 g0 r0 s' res :
  drr_inv s → waiting s c g r d j i → DrrState_enqueue s c0 g0 r0 = (s', res) →
  waiting s' c g r d j i.
Proof.
  intros Hinv Hwt Heq. destruct res as [u|r'].
  - destruct Hwt as (Hi & e & He & Hj & e' & He' & Hd).
    apply drr_enqueue_Ok in Heq as (b' & Ho & Hin & _).
    destruct (pd_active _ _ _ _ _ Ho) as [suf Hact].
    split; [rewrite Hact; by apply lookup_app_l_Some|].
    destruct (decide (c = c0)) as [<-|Hc].
    + destruct (pd_key _ _ _ _ _ Ho) as (d1 & q1 & Hk).
      unfold bucket, flow_store in Hin. rewrite He in Hin.
      destruct (pd_active _ _ _ _ _ Hin) as [suf' Hact'].
      eexists. split_and!; [done|simpl; rewrite Hact'; by apply lookup_app_l_Some|].
      destruct (decide (g = g0)) as [<-|Hg].
      * destruct (pd_key _ _ _ _ _ Hin) as (d2 & q2 & Hk').
        eexists. split; [done|]. simpl. apply lookup_app_l_Some.
        unfold leaf. by rewrite He, He'.
      * exists e'. split; [|done]. simpl. by rewrite (pd_ne _ _ _ _ _ Hin g Hg).
    + exists e. rewrite (pd_ne _ _ _ _ _ Ho c Hc). eauto.
  - apply drr_enqueue_Err in Heq as (_ & Ho & _); [|done]. unfold waiting. by rewrite Ho.
Qed.

(** A flow that keeps requests after its turn goes to the end of the round. *)
Lemma after_serve_rotate {K S} `{Countable K} `{FlowStoreOk S} (t : Tier K S) k rest s' :
  is_empty s' = false →
  active (after_serve t k rest s') !! length rest = Some k ∧
  flows (after_serve t k rest s') !! k = Some (MkEntry s' 0 QUANTUM).
Proof.
  intros He. unfold after_serve. rewrite He. simpl. rewrite lookup_insert_eq.
  split; [|done]. by apply list_lookup_middle.
Qed.

(** Every other flow moves up by one. *)
Lemma after_serve_advance {K S} `{Countable K} `{FlowStoreOk S} (t : Tier K S) k rest s' i x :
  tier_inv t → active t = k :: rest → rest !! i = Some x →
  x ≠ k ∧ active (after_serve t k rest s') !! i = Some x ∧
  flows (after_serve t k rest s') !! x = flows t !! x.
Proof.
  intros Hinv Ha Hi. pose proof (ti_nodup t Hinv) as Hnd.
  rewrite Ha, NoDup_cons in Hnd. destruct Hnd as [Hk _].
  assert (x ≠ k) as Hx by (intros ->; apply Hk; by eapply list_elem_of_lookup_2).
  split_and!; [done| |by apply after_serve_flows_ne].
  unfold after_serve. destruct (is_empty s'); simpl; [done|by apply lookup_app_l_Some].
Qed.

Lemma waiting_pick s c g r d j i :
  drr_inv s → within_caps s → waiting s c g r d j i →
  ∃ x s', DrrState_pick s = Done (Some x, s') ∧
    ((d = 0 ∧ j = 0 ∧ i = 0)%nat ∧ x = r ∨
     ∃ d' j' i', waiting s' c g r d' j' i' ∧ turns s' d' j' i' < turns s d j i).
Proof.
  intros Hinv Hw (Hi & e & He & Hj & e' & He' & Hd).
  destruct (active (outer s)) as [|c0 rest] eqn:Ha; [done|].
  destruct (drr_pick_cons s c0 rest Hinv Ha)
    as (e0 & g0 & rest' & e0' & r0 & q & He0 & Hg0 & He0' & Hq & Hb & Hpick).
  eexists r0, _. split; [unfold DrrState_pick; by rewrite Hpick|].
  assert (Hrest : Z.of_nat (length rest) < max_flows (caps s)).
  { pose proof (active_size (outer s) Hinv) as Hsz. pose proof (wc_flows s Hw).
    rewrite Ha in Hsz. simpl in Hsz. lia. }
  assert (Hrest' : Z.of_nat (length rest') < max_signers (caps s)).
  { pose proof (active_size (store e0) Hb) as Hsz. pose proof (wc_signers s Hw c0 e0 He0).
    rewrite Hg0 in Hsz. simpl in Hsz. lia. }
  set (b' := after_serve (store e0) g0 rest' (MkFifo q)).
  assert (Hb' : tier_inv b').
  { eapply (after_serve_inv (store e0) g0 rest' e0' r0 (MkFifo q)); try done. simpl. by rewrite Hq. }
  destruct i as [|i]; simpl in Hi.
  2: { right. exists d, j, i.
    destruct (after_serve_advance (outer s) c0 rest b' i c Hinv Ha Hi) as (Hc & Hact & Hfl).
    split; [|unfold turns; simpl; lia]. split; [done|].
    exists e. simpl. fold b'. rewrite Hfl. eauto. }
  injection Hi as ->. rewrite He0 in He. injection He as ->.
  rewrite Hg0 in Hj. destruct j as [|j]; simpl in Hj.
  2: { right. exists d, j, (length rest).
    destruct (after_serve_advance (store e) g0 rest' (MkFifo q) j g Hb Hg0 Hj) as (Hg & Hact & Hfl).
    fold b' in Hact, Hfl.
    destruct (after_serve_rotate (outer s) c rest b') as [Hact' Hfl'].
    { eapply is_empty_active; [done|by eapply list_elem_of_lookup_2]. }
    split; [|unfold turns; simpl; nia]. split; [done|].
    eexists. split; [exact Hfl'|]. split; [done|]. exists e'. simpl. rewrite Hfl. eauto. }
  injection Hj as ->. rewrite He0' in He'. injection He' as ->.
  rewrite Hq in Hd. destruct d as [|d]; simpl in Hd; [left; naive_solver|].
  right. exists d, (length rest'), (length rest).
  destruct (after_serve_rotate (store e) g rest' (MkFifo q)) as [Hact Hfl].
  { unfold is_empty. simpl. apply bool_decide_eq_false_2. unfold RequestFifo_depth. simpl.
    destruct q; simpl; [done|lia]. }
  fold b' in Hact, Hfl.
  destruct (after_serve_rotate (outer s) c rest b') as [Hact' Hfl'].
  { eapply is_empty_active; [done|by eapply list_elem_of_lookup_2]. }
  split; [|unfold turns; simpl; nia]. split; [done|].
  eexists. split; [exact Hfl'|]. split; [done|]. eexists. split; [exact Hfl|]. done.
Qed.

Lemma exec_cons_Done s o ops s1 ev :
  step s o = Done (s1, ev) →
  exec s (o :: ops) = let! (s2, evs) := exec s1 ops in Done (s2, ev :: evs).
Proof. intros Hs. cbn [exec]. by rewrite Hs. Qed.

Lemma step_pick_Done s x s' :
  DrrState_pick s = Done (Some x, s') → step s Pick = Done (s', Served x).
Proof. intros Hp. simpl. by rewrite Hp. Qed.

Lemma turns_nonneg s d j i :
  0 ≤ max_signers (caps s) → 0 ≤ max_flows (caps s) → 0 ≤ turns s d j i.
Proof.
  intros. unfold turns. apply Z.add_nonneg_nonneg; [|lia].
  apply Z.mul_nonneg_nonneg; [|done]. apply Z.add_nonneg_nonneg; [|lia].
  apply Z.mul_nonneg_nonneg; lia.
Qed.

(** The waiting request is dispatched by the time [turns] others were,
    whatever is enqueued in between. *)
Lemma waiting_served ops s c g r d j i :
  drr_inv s → within_caps s → waiting s c g r d j i → turns s d j i < Z.of_nat (picks ops) →
  ∃ ops1 ops2 s1 evs1 s2, ops = ops1 ++ Pick :: ops2 ∧
    Z.of_nat (picks ops1) ≤ turns s d j i ∧
    exec s ops1 = Done (s1, evs1) ∧ DrrState_pick s1 = Done (Some r, s2).
Proof.
  revert s d j i. induction ops as [|o ops IH]; intros s d j i Hinv Hw Hwt Hn.
  { exfalso. destruct Hwt as (_ & e & He & _). pose proof (wc_flows s Hw).
    pose proof (wc_signers s Hw c e He).
    pose proof (turns_nonneg s d j i ltac:(lia) ltac:(lia)). simpl in Hn. lia. }
  destruct (step_ok s o Hinv Hw) as (s1 & ev & Hs & Hinv1 & Hw1 & Hc1 & _).
  destruct o as [c0 g0 r0|].
  - assert (Hwt1 : waiting s1 c g r d j i).
    { simpl in Hs. destruct (DrrState_enqueue s c0 g0 r0) as [s1' res] eqn:He.
      apply (waiting_enq s c g r d j i c0 g0 r0 s1 res); [done..|].
      rewrite He. by destruct res; simplify_eq. }
    assert (Hturn : turns s1 d j i = turns s d j i) by (unfold turns; by rewrite Hc1).
    destruct (IH s1 d j i Hinv1 Hw1 Hwt1) as (ops1 & ops2 & s2 & evs & s3 & -> & ? & He & ?);
      [cbn [picks] in Hn; lia|].
    exists (Enq c0 g0 r0 :: ops1), ops2, s2, (ev :: evs), s3.
    rewrite (exec_cons_Done _ _ _ _ _ Hs), He. simpl. split_and!; (done || lia).
  - destruct (waiting_pick s c g r d j i Hinv Hw Hwt) as (x & s1' & Hp & Hcase).
    rewrite (step_pick_Done _ _ _ Hp) in Hs. simplify_eq.
    destruct Hcase as [[(-> & -> & ->) ->]|(d' & j' & i' & Hwt' & Hlt)].
    + exists [], ops, s, [], s1. by split_and!.
    + destruct (IH s1 d' j' i' Hinv1 Hw1 Hwt') as (ops1 & ops2 & s2 & evs & s3 & -> & ? & He & ?);
        [cbn [picks] in Hn; lia|].
      exists (Pick :: ops1), ops2, s2, (Served x :: evs), s3.
      rewrite (exec_cons_Done _ _ _ _ _ (step_pick_Done _ _ _ Hp)), He. simpl.
      split_and!; (done || lia).
Qed.

(** A buffered request has a place in both rounds. *)
Lemma leaf_waiting s c g r d :
  drr_inv s → within_caps s → leaf s c g !! d = Some r →
  ∃ j i, waiting s c g r d j i ∧
    turns s d j i < per_flow (caps s) * max_signers (caps s) * max_flows (caps s).
Proof.
  intros Hinv Hw Hl. pose proof (wc_leaf s Hw c g) as Hpf.
  apply lookup_lt_Some in Hl as Hlt. unfold leaf in *.
  destruct (flows (outer s) !! c) as [e|] eqn:He; [|done].
  destruct (flows (store e) !! g) as [e'|] eqn:He'; [|done].
  destruct (ti_flow (outer s) Hinv c e He) as (Hb & _).
  assert (c ∈ active (outer s)) as [i Hi]%list_elem_of_lookup
    by (apply (ti_keys _ Hinv); by rewrite He).
  assert (g ∈ active (store e)) as [j Hj]%list_elem_of_lookup
    by (apply (ti_keys _ Hb); by rewrite He').
  exists j, i. split; [by repeat (split || eexists)|].
  apply lookup_lt_Some in Hi. apply lookup_lt_Some in Hj.
  rewrite (active_size (outer s) Hinv) in Hi. rewrite (active_size (store e) Hb) in Hj.
  pose proof (wc_flows s Hw). pose proof (wc_signers s Hw c e He). unfold turns.
  assert (Z.of_nat d * max_signers (caps s) + Z.of_nat j + 1 ≤
          per_flow (caps s) * max_signers (caps s)) by nia.
  nia.
Qed.

(** ** Rounds *)

(** The request connection [c] dispatches on its next turn. *)
Definition front (s : DrrState) (c : ConnId) (r : QueuedRequest) : Prop :=
  ∃ e g rest q, flows (outer s) !! c = Some e ∧ active (store e) = g :: rest ∧
    leaf s c g = r :: q.

Lemma front_ext s s' c r :
  flows (outer s') !! c = flows (outer s) !! c → front s' c r → front s c r.
Proof.
  intros Hf (e & g & rest & q & He & Hg & Hq). exists e, g, rest, q.
  unfold leaf in *. by rewrite <- Hf.
Qed.

Lemma round_share cs s cs' :
  drr_inv s → active (outer s) = cs ++ cs' →
  ∃ s' evs, exec s (replicate (length cs) Pick) = Done (s', evs) ∧ drr_inv s' ∧
    Forall2 (λ c ev, ∃ r, ev = Served r ∧ front s c r) cs evs.
Proof.
  revert s cs'. induction cs as [|c cs IH]; intros s cs' Hinv Ha.
  { exists s, []. done. }
  destruct (drr_pick_cons s c (cs ++ cs') Hinv Ha)
    as (e & g & rest' & e' & r & q & He & Hg & He' & Hq & Hb & Hpick).
  destruct (drr_pick_leaf s c (cs ++ cs') Hinv Ha)
    as (g0 & r0 & q0 & s1 & Hp & Hinv1 & _).
  assert (Hs1 : outer s1 = after_serve (outer s) c (cs ++ cs')
                             (after_serve (store e) g rest' (MkFifo q)) ∧ r0 = r).
  { unfold DrrState_pick in Hp. rewrite Hpick in Hp. simpl in Hp. by simplify_eq. }
  destruct Hs1 as [Ho ->].
  assert (∃ suf, active (outer s1) = cs ++ suf) as [suf Ha1].
  { rewrite Ho. unfold after_serve. destruct (is_empty _); simpl; [eauto|].
    rewrite <- app_assoc. eauto. }
  destruct (IH s1 suf Hinv1 Ha1) as (s2 & evs & Hex & Hinv2 & Hall).
  exists s2, (Served r :: evs). cbn [length replicate].
  rewrite (exec_cons_Done _ _ _ _ _ (step_pick_Done _ _ _ Hp)), Hex.
  split_and!; [done..|]. constructor.
  { exists r. split; [done|]. exists e, g, rest', q. split_and!; [done..|].
    unfold leaf. by rewrite He, He'. }
  pose proof (ti_nodup _ Hinv) as Hnd. rewrite Ha in Hnd. simpl in Hnd.
  apply NoDup_cons in Hnd as [Hc _].
  eapply Forall2_impl_elem; [exact Hall|]. intros c' ev Hc' (r' & -> & Hf). exists r'.
  split; [done|]. eapply front_ext; [|done]. rewrite Ho. apply after_serve_flows_ne.
  intros ->. set_solver.
Qed.

(** ** The abstract queue the scheduler implements *)

Abbreviation queues := (ConnId → SignerHint → list QueuedRequest).

Definition set_queue (q : queues) (c : ConnId) (g : SignerHint) (l : list QueuedRequest) : queues :=
  λ c' g', if decide (c' = c ∧ g' = g) then l else q c' g'.

(** One operation of the specification.  A request is accepted at the end of
    its own queue or refused, a turn serves the oldest request of some queue,
    and it is idle only when every queue is empty. *)
Inductive spec_step (q q' : queues) : op → event → Prop :=
| spec_accept c g r :
    (∀ c' g', q' c' g' = set_queue q c g (q c g ++ [r]) c' g') →
    spec_step q q' (Enq c g r) (Accepted c g r)
| spec_refuse c g r :
    (∀ c' g', q' c' g' = q c' g') →
    spec_step q q' (Enq c g r) (Refused c g r)
| spec_serve c g r l :
    q c g = r :: l → (∀ c' g', q' c' g' = set_queue q c g l c' g') →
    spec_step q q' Pick (Served r)
| spec_idle :
    (∀ c g, q c g = []) → (∀ c g, q' c g = []) →
    spec_step q q' Pick Idle.

Inductive spec_run : queues → list op → list event → queues → Prop :=
| spec_run_nil q : spec_run q [] [] q
| spec_run_cons q q1 q2 o ops ev evs :
    spec_step q q1 o ev → spec_run q1 ops evs q2 → spec_run q (o :: ops) (ev :: evs) q2.

Lemma leaf_idle s c g : drr_inv s → active (outer s) = [] → leaf s c g = [].
Proof.
  intros Hinv Ha. unfold leaf. destruct (flows (outer s) !! c) as [e|] eqn:He; [|done].
  exfalso. apply (not_elem_of_nil c). rewrite <- Ha. apply (ti_keys _ Hinv). by rewrite He.
Qed.

Lemma step_refines s o s' ev :
  drr_inv s → step s o = Done (s', ev) → spec_step (leaf s) (leaf s') o ev.
Proof.
  intros Hinv Hs. destruct o as [c g r|]; simpl in Hs.
  - destruct (DrrState_enqueue s c g r) as [s1 [u|r']] eqn:He; simplify_eq.
    + constructor. intros c' g'. by apply (drr_enqueue_leaf s c g r s' u).
    + apply drr_enqueue_Err in He as (-> & Ho & _); [|done]. constructor.
      intros c' g'. unfold leaf. by rewrite Ho.
  - destruct (active (outer s)) as [|c rest] eqn:Ha.
    + rewrite drr_pick_nil in Hs by done. simpl in Hs. simplify_eq.
      constructor; intros c g; by apply leaf_idle.
    + destruct (drr_pick_leaf s c rest Hinv Ha)
        as (g & r & q & s1 & Hp & _ & _ & _ & Hq & Hleaf & _).
      rewrite Hp in Hs. simpl in Hs. simplify_eq. by econstructor.
Qed.

(** ** A connection with one hint behaves as in the one-tier scheduler *)

(** [s] and the one-tier scheduler [t] hold the same backlogs in the same
    round, every connection of [s] using the legacy hint only. *)
Definition legacy_entry (e : FlowEntry ConnBucket) (e' : FlowEntry RequestFifo) : Prop :=
  ∃ d q, store e = MkTier {[LEGACY_SIGNER_HINT := MkEntry (store e') d q]} [LEGACY_SIGNER_HINT]
                     (depth (store e')).

Record legacy_sim (o : Tier ConnId ConnBucket) (t : Tier ConnId RequestFifo) : Prop := {
  ls_active : active o = active t;
  ls_depth : total_depth o = total_depth t;
  ls_flows c : option_Forall2 legacy_entry (flows o !! c) (flows t !! c);
}.

Lemma legacy_push (b : ConnBucket) f d q r pf ms mb :
  b = MkTier {[LEGACY_SIGNER_HINT := MkEntry f d q]} [LEGACY_SIGNER_HINT] (depth f) →
  pf ≤ mb →
  match RequestFifo_push f r pf with
  | (f', Ok _) =>
      ∃ u, enqueue_signer b LEGACY_SIGNER_HINT r pf ms mb =
        (MkTier {[LEGACY_SIGNER_HINT := MkEntry f' d q]} [LEGACY_SIGNER_HINT] (depth f'), Ok u)
  | (_, Err rej) => enqueue_signer b LEGACY_SIGNER_HINT r pf ms mb = (b, Err rej)
  end.
Proof.
  intros -> Hmb. unfold RequestFifo_push, enqueue_signer. simpl. rewrite lookup_singleton_eq. simpl.
  unfold RequestFifo_depth. case_decide as Hfull.
  - by rewrite bool_decide_eq_true_2.
  - rewrite bool_decide_eq_false_2 by done. rewrite decide_False by lia. eexists.
    unfold enqueue_leaf, enqueue_routed. simpl. rewrite lookup_singleton_eq. simpl.
    unfold RequestFifo_push. rewrite decide_False by done.
    rewrite insert_singleton_eq. do 2 f_equal. rewrite length_app. simpl. lia.
Qed.

Lemma legacy_fresh r pf ms mb :
  1 ≤ ms → pf ≤ mb →
  match RequestFifo_push RequestFifo_new r pf with
  | (f', Ok _) =>
      ∃ u, enqueue_signer Tier_new LEGACY_SIGNER_HINT r pf ms mb =
        (MkTier {[LEGACY_SIGNER_HINT := MkEntry f' 0 QUANTUM]} [LEGACY_SIGNER_HINT] (depth f'), Ok u)
  | (_, Err rej) => 1 ≤ pf → False
  end.
Proof.
  intros Hms Hmb. unfold RequestFifo_push, enqueue_signer. simpl. rewrite lookup_empty. simpl.
  case_decide; [lia|]. rewrite decide_False by lia.
  unfold enqueue_leaf, enqueue_routed. simpl. rewrite lookup_empty, map_size_empty.
  rewrite decide_False by lia. unfold RequestFifo_push. simpl.
  rewrite decide_False by done. eexists. done.
Qed.

Lemma legacy_sim_size o t : legacy_sim o t → size (flows o) = size (flows t).
Proof.
  intros Hs. rewrite <- !size_dom. f_equal. apply set_eq. intros c.
  rewrite !elem_of_dom. destruct (ls_flows o t Hs c); split; intros [??]; simplify_eq; by eexists.
Qed.

Lemma legacy_sim_insert o t c e e' a n :
  legacy_sim o t → legacy_entry e e' →
  legacy_sim (MkTier (<[c := e]> (flows o)) a n) (MkTier (<[c := e']> (flows t)) a n).
Proof.
  intros Hs He. split; simpl; [done..|]. intros c'. destruct (decide (c' = c)) as [->|].
  - rewrite !lookup_insert_eq. by constructor.
  - rewrite !lookup_insert_ne by done. apply (ls_flows o t Hs).
Qed.

(** The one-tier scheduler with the same caps: [enqueue_leaf] keyed by
    connection behind the global cap, and [pick]. *)
Definition rung0_step (cp : Caps) (t : Tier ConnId RequestFifo) (o : op)
    : run (Tier ConnId RequestFifo * event) :=
  match o with
  | Enq c g r =>
      if decide (global cp ≤ total_depth t) then Done (t, Refused c g r) else
      match enqueue_leaf t c r (per_flow cp) (max_flows cp) MaxFlows with
      | (t', Ok _) => Done (t', Accepted c g r)
      | (t', Err rej) => Done (t', Refused c g (rej_req rej))
      end
  | Pick =>
      let! (served, t') := pick t in
      Done (t', match served with Some r => Served r | None => Idle end)
  end.

Fixpoint rung0_exec (cp : Caps) (t : Tier ConnId RequestFifo) (ops : list op)
    : run (Tier ConnId RequestFifo * list event) :=
  match ops with
  | [] => Done (t, [])
  | o :: ops =>
      let! (t1, ev) := rung0_step cp t o in
      let! (t2, evs) := rung0_exec cp t1 ops in
      Done (t2, ev :: evs)
  end.

Definition legacy_op (o : op) : Prop :=
  match o with Enq _ g _ => g = LEGACY_SIGNER_HINT | Pick => True end.

(** The caps under which one hint per connection loses nothing: a leaf fits
    in the aggregate cap of its connection, and one hint is allowed. *)
Definition legacy_caps (cp : Caps) : Prop :=
  1 ≤ per_flow cp ∧ per_flow cp ≤ max_conn_backlog cp ∧ 1 ≤ max_signers cp.

Lemma legacy_enqueue s t c r :
  legacy_caps (caps s) → legacy_sim (outer s) t →
  ∃ s' t' ev, step s (Enq c LEGACY_SIGNER_HINT r) = Done (s', ev) ∧
    rung0_step (caps s) t (Enq c LEGACY_SIGNER_HINT r) = Done (t', ev) ∧
    legacy_sim (outer s') t' ∧ caps s' = caps s.
Proof.
  intros (Hpf & Hmb & Hms) Hsim. simpl. unfold DrrState_enqueue.
  rewrite (ls_depth _ _ Hsim). case_decide; [eauto 10|].
  unfold enqueue_leaf, enqueue_routed. rewrite (legacy_sim_size _ _ Hsim).
  pose proof (ls_flows _ _ Hsim c) as Hc.
  destruct (flows t !! c) as [e'|] eqn:He'; inversion Hc as [e ? (d & q & Hst) Ho|Ho]; subst.
  - pose proof (legacy_push (store e) (store e') d q r (per_flow (caps s)) (max_signers (caps s))
      (max_conn_backlog (caps s)) Hst Hmb) as Hpush.
    destruct (RequestFifo_push (store e') r (per_flow (caps s))) as [f' [u|rej]] eqn:Hf.
    + destruct Hpush as [v ->]. eexists _, _, _. split_and!; [done..| |done]. simpl.
      rewrite (ls_active _ _ Hsim), (ls_depth _ _ Hsim).
      apply legacy_sim_insert; [done|]. by exists d, q.
    + rewrite Hpush. simpl. eexists _, _, _. split_and!; [done..| |done]. simpl.
      unfold RequestFifo_push in Hf. case_decide; simplify_eq.
      rewrite (ls_active _ _ Hsim), (ls_depth _ _ Hsim).
      apply legacy_sim_insert; [done|]. by exists d, q.
  - case_decide; [by eauto 10|].
    pose proof (legacy_fresh r (per_flow (caps s)) (max_signers (caps s))
      (max_conn_backlog (caps s)) Hms Hmb) as Hpush.
    destruct (RequestFifo_push RequestFifo_new r (per_flow (caps s))) as [f' [u|rej]] eqn:Hf;
      [|by destruct (Hpush Hpf)].
    destruct Hpush as [v ->]. eexists _, _, _. split_and!; [done..| |done]. simpl.
    rewrite (ls_active _ _ Hsim), (ls_depth _ _ Hsim).
    apply legacy_sim_insert; [done|]. by exists 0, QUANTUM.
Qed.

Lemma legacy_serve f d q r rs :
  deque f = r :: rs → d = 0 → q = QUANTUM →
  pick (MkTier {[LEGACY_SIGNER_HINT := MkEntry f d q]} [LEGACY_SIGNER_HINT] (depth f)
          : ConnBucket) =
  Done (Some r,
    if is_empty (MkFifo rs) then MkTier ∅ [] (depth (MkFifo rs))
    else MkTier {[LEGACY_SIGNER_HINT := MkEntry (MkFifo rs) 0 QUANTUM]} [LEGACY_SIGNER_HINT]
           (depth (MkFifo rs))).
Proof.
  intros Hf -> ->. unfold pick. cbn [active flows]. rewrite lookup_singleton_eq.
  cbn [deficit quantum store]. change (saturating_add 64 0 QUANTUM) with 1.
  rewrite (decide_False (P := 1 < COST)) by (unfold COST; lia).
  simpl. unfold RequestFifo_serve, RequestFifo_depth. rewrite Hf. simpl.
  replace (Z.of_nat (S (length rs)) - 1) with (Z.of_nat (length rs)) by lia.
  destruct (is_empty (MkFifo rs)).
  - by rewrite delete_singleton_eq.
  - by rewrite insert_singleton_eq.
Qed.

(** What the inner tier of a legacy connection keeps of the store [f]. *)
Definition legacy_bucket (b : ConnBucket) (f : RequestFifo) : Prop :=
  if is_empty f then b = MkTier ∅ [] (depth f)
  else b = MkTier {[LEGACY_SIGNER_HINT := MkEntry f 0 QUANTUM]} [LEGACY_SIGNER_HINT] (depth f).

Lemma legacy_sim_after o t c rest b f :
  legacy_sim o t → legacy_bucket b f →
  legacy_sim (after_serve o c rest b) (after_serve t c rest f).
Proof.
  intros Hsim Hb. assert (Hemp : is_empty b = is_empty f).
  { unfold legacy_bucket in Hb. by destruct (is_empty f) eqn:Hf; subst. }
  unfold after_serve. rewrite Hemp, (ls_depth _ _ Hsim). unfold legacy_bucket in Hb.
  destruct (is_empty f).
  - split; simpl; [done..|]. intros c'. destruct (decide (c' = c)) as [->|].
    + rewrite !lookup_delete_eq. constructor.
    + rewrite !lookup_delete_ne by done. apply (ls_flows _ _ Hsim).
  - apply legacy_sim_insert; [done|]. by exists 0, QUANTUM.
Qed.

Lemma legacy_pick o t :
  legacy_sim o t → tier_inv o → tier_inv t →
  ∃ x o' t', pick o = Done (x, o') ∧ pick t = Done (x, t') ∧ legacy_sim o' t'.
Proof.
  intros Hsim Hio Hit. destruct (active t) as [|c rest] eqn:Ha.
  { exists None, o, t. rewrite !pick_nil; [done..|]. by rewrite (ls_active _ _ Hsim). }
  assert (Hao : active o = c :: rest) by (by rewrite (ls_active _ _ Hsim)).
  destruct (pick_cons o c rest Hio Hao) as (e & r & b & He & Hserve & Hb & _ & Hpick).
  destruct (pick_cons t c rest Hit Ha) as (e' & r' & f & He' & Hserve' & _ & _ & Hpick').
  pose proof (ls_flows _ _ Hsim c) as Hc. rewrite He, He' in Hc.
  inversion Hc as [? ? (d & q & Hst)|]; subst.
  destruct (ti_flow o Hio c e He) as (Hinv & _).
  destruct (ti_flow _ Hinv LEGACY_SIGNER_HINT (MkEntry (store e') d q)) as (_ & Hne & Hd & Hq).
  { rewrite Hst. simpl. by rewrite lookup_singleton_eq. }
  destruct (deque (store e')) as [|x rs] eqn:Hdq; [done|].
  change (serve (store e')) with (RequestFifo_serve (store e')) in Hserve'.
  unfold RequestFifo_serve in Hserve'. rewrite Hdq in Hserve'. injection Hserve' as <- <-.
  change (serve (store e)) with (pick (store e)) in Hserve.
  rewrite Hst, (legacy_serve (store e') d q x rs) in Hserve by done. injection Hserve as <- <-.
  eexists (Some x), _, _. split_and!; [exact Hpick|exact Hpick'|].
  apply legacy_sim_after; [done|]. unfold legacy_bucket. destruct (is_empty (MkFifo rs)); eauto.
Qed.

Lemma rung0_step_inv cp t o t' ev :
  tier_inv t → rung0_step cp t o = Done (t', ev) → tier_inv t'.
Proof.
  intros Ht Hs. destruct o as [c g r|]; simpl in Hs.
  - case_decide; [by simplify_eq|].
    pose proof (enqueue_leaf_ok t c r (per_flow cp) (max_flows cp) MaxFlows Ht) as Hok.
    destruct (enqueue_leaf t c r _ _ _) as [t1 [u|rej]]; simplify_eq; naive_solver.
  - destruct (active t) as [|k rest] eqn:Ha.
    + rewrite pick_nil in Hs by done. simpl in Hs. by simplify_eq.
    + destruct (pick_cons t k rest Ht Ha) as (e & r & s' & He & _ & Hs' & Hperm & Hpick).
      rewrite Hpick in Hs. simpl in Hs. simplify_eq. by eapply after_serve_inv.
Qed.

Lemma legacy_step s t o :
  legacy_caps (caps s) → legacy_op o → legacy_sim (outer s) t → drr_inv s → tier_inv t →
  ∃ s' t' ev, step s o = Done (s', ev) ∧ rung0_step (caps s) t o = Done (t', ev) ∧
    legacy_sim (outer s') t' ∧ caps s' = caps s.
Proof.
  intros Hcp Hop Hsim Hinv Ht. destruct o as [c g r|]; simpl in Hop.
  - subst g. by apply legacy_enqueue.
  - destruct (legacy_pick (outer s) t Hsim Hinv Ht) as (x & o' & t' & Ho & Hp & Hsim').
    unfold step, DrrState_pick, rung0_step. rewrite Ho, Hp. cbn [run_bind].
    destruct x; eauto 10.
Qed.

Lemma legacy_exec ops s t :
  legacy_caps (caps s) → Forall legacy_op ops → legacy_sim (outer s) t →
  drr_inv s → within_caps s → tier_inv t →
  ∃ s' t' evs, exec s ops = Done (s', evs) ∧ rung0_exec (caps s) t ops = Done (t', evs) ∧
    legacy_sim (outer s') t'.
Proof.
  revert s t. induction ops as [|o ops IH]; intros s t Hcp Hops Hsim Hinv Hw Ht.
  { by exists s, t, []. }
  apply Forall_cons in Hops as [Ho Hops].
  destruct (legacy_step s t o Hcp Ho Hsim Hinv Ht) as (s1 & t1 & ev & Hs & Hr & Hsim1 & Hc1).
  destruct (step_ok s o Hinv Hw) as (s1' & ev' & Hs' & Hinv1 & Hw1 & _).
  rewrite Hs in Hs'. simplify_eq.
  destruct (IH s1' t1) as (s2 & t2 & evs & He & Hr2 & Hsim2); rewrite ?Hc1; try done.
  { by eapply rung0_step_inv. }
  exists s2, t2, (ev' :: evs). rewrite Hc1 in Hr2. cbn [exec rung0_exec].
  rewrite Hs, Hr. cbn [run_bind]. by rewrite He, Hr2.
Qed.

Lemma legacy_sim_new : legacy_sim Tier_new Tier_new.
Proof. split; simpl; [done..|]. intros c. rewrite !lookup_empty. constructor. Qed.

Lemma spec_run_exec ops s s' evs :
  drr_inv s → within_caps s → exec s ops = Done (s', evs) →
  spec_run (leaf s) ops evs (leaf s').
Proof.
  revert s evs. induction ops as [|o ops IH]; intros s evs Hinv Hw He; cbn [exec] in He.
  { simplify_eq. constructor. }
  destruct (step_ok s o Hinv Hw) as (s1 & ev & Hs & Hinv1 & Hw1 & _).
  rewrite Hs in He. cbn [run_bind] in He.
  destruct (exec s1 ops) as [[s2 evs2]|] eqn:He2; simpl in He; simplify_eq.
  econstructor; [by eapply step_refines|]. by apply IH.
Qed.

(** ** Properties *)

(** C21: whatever sequence of enqueues and picks is run on a fresh scheduler,
    no operation panics (the [expect]s of [pick] never fire), the structural
    invariants hold at the end, and every buffer is within its cap: the total
    depth, the number of connections, and per connection the number of signer
    hints, the aggregate backlog and each flow's backlog.  The caps are the
    clamped ones, so the hard ceilings bound the state whatever was configured. *)
Theorem exec_safe c ops :
  caps_nonneg c →
  ∃ s evs, exec (DrrState_new c) ops = Done (s, evs) ∧ drr_inv s ∧ within_caps s ∧
    caps s = caps (DrrState_new c) ∧
    total_depth (outer s) ≤ HARD_MAX_QUEUE_DEPTH ∧ active_len (outer s) ≤ HARD_MAX_FLOWS.
Proof.
  intros Hc. destruct (DrrState_new_ok c Hc) as [Hi Hw].
  destruct (exec_ok ops (DrrState_new c) Hi Hw) as (s & evs & He & Hinv & Hws & Hcaps & _).
  exists s, evs. split_and!; [done..| |].
  - pose proof (wc_global s Hws). rewrite Hcaps in *. simpl in *. lia.
  - pose proof (wc_flows s Hws). unfold active_len. rewrite (active_size (outer s) Hinv).
    rewrite Hcaps in *. simpl in *. lia.
Qed.

(** Nothing is dropped or duplicated: over any run, the requests the
    scheduler accepted are exactly those it dispatched together with those it
    still buffers. *)
Theorem exec_conserves c ops s evs :
  caps_nonneg c → exec (DrrState_new c) ops = Done (s, evs) →
  accepted evs ≡ₚ served evs ++ tier_contents (outer s).
Proof.
  intros Hc He. by apply (reachable_ok c ops s evs).
Qed.

(** C25: the scheduler refines the abstract system of one first-in-first-out
    queue per (connection, signer): an accepted request joins the end of its
    own queue, a refused one changes no queue, a turn serves the oldest
    request of some queue, and a turn is idle only if every queue is empty. *)
Theorem exec_refines c ops s evs :
  caps_nonneg c → exec (DrrState_new c) ops = Done (s, evs) →
  spec_run (λ _ _, []) ops evs (leaf s).
Proof.
  intros Hc He. destruct (DrrState_new_ok c Hc) as [Hi Hw].
  apply (spec_run_exec ops (DrrState_new c) s evs Hi Hw) in He.
  inversion He; subst; [constructor|]. econstructor; [|done].
  match goal with H : spec_step _ _ _ _ |- _ => destruct H; [by constructor|by constructor|..] end.
  - by econstructor.
  - by constructor.
Qed.

(** C12: no request starves.  A request buffered in any reachable state is
    dispatched before [per_flow * max_signers * max_flows] further turns,
    whatever is enqueued in between and whatever the other connections and
    signers do. *)
Theorem request_not_starved cp ops0 s evs0 c g r d ops :
  caps_nonneg cp → exec (DrrState_new cp) ops0 = Done (s, evs0) →
  leaf s c g !! d = Some r →
  per_flow (caps s) * max_signers (caps s) * max_flows (caps s) ≤ Z.of_nat (picks ops) →
  ∃ ops1 ops2 s1 evs1 s2, ops = ops1 ++ Pick :: ops2 ∧
    Z.of_nat (picks ops1) < per_flow (caps s) * max_signers (caps s) * max_flows (caps s) ∧
    exec s ops1 = Done (s1, evs1) ∧ DrrState_pick s1 = Done (Some r, s2).
Proof.
  intros Hc He Hl Hn. destruct (reachable_ok cp ops0 s evs0 Hc He) as (Hinv & Hws & _).
  destruct (leaf_waiting s c g r d Hinv Hws Hl) as (j & i & Hwt & Hlt).
  destruct (waiting_served ops s c g r d j i Hinv Hws Hwt ltac:(lia))
    as (ops1 & ops2 & s1 & evs1 & s2 & ? & ? & ? & ?).
  exists ops1, ops2, s1, evs1, s2. split_and!; (done || lia).
Qed.

(** A round is fair.  From any reachable state with [n] active
    connections, the next [n] turns dispatch exactly one request of each, in
    the order of the round, however many signer hints a connection uses: the
    i-th dispatch is the oldest request of the front signer of the i-th
    connection. *)
Theorem round_is_fair cp ops0 s evs0 :
  caps_nonneg cp → exec (DrrState_new cp) ops0 = Done (s, evs0) →
  ∃ s' evs, exec s (replicate (length (active (outer s))) Pick) = Done (s', evs) ∧
    NoDup (active (outer s)) ∧
    Forall2 (λ c ev, ∃ r, ev = Served r ∧ front s c r) (active (outer s)) evs.
Proof.
  intros Hc He. destruct (reachable_ok cp ops0 s evs0 Hc He) as (Hinv & _).
  destruct (round_share (active (outer s)) s [] Hinv) as (s1 & evs & Hex & _ & Hall).
  { by rewrite app_nil_r. }
  exists s1, evs. split_and!; [done|apply (ti_nodup _ Hinv)|done].
Qed.

(** Backward compatibility of the two-tier scheduler.  When every
    connection uses only the legacy hint, a run of the two-tier scheduler and
    the same run of the one-tier scheduler keyed by connection produce the
    same events: the same requests accepted, refused and dispatched, in the
    same order. *)
Theorem legacy_collapse cp ops :
  caps_nonneg cp → legacy_caps (caps (DrrState_new cp)) → Forall legacy_op ops →
  ∃ s t evs, exec (DrrState_new cp) ops = Done (s, evs) ∧
    rung0_exec (caps (DrrState_new cp)) Tier_new ops = Done (t, evs).
Proof.
  intros Hc Hl Hops. destruct (DrrState_new_ok cp Hc) as [Hi Hw].
  destruct (legacy_exec ops (DrrState_new cp) Tier_new Hl Hops legacy_sim_new Hi Hw Tier_new_inv)
    as (s & t & evs & He & Hr & _).
  by exists s, t, evs.
Qed.

(** A refused enqueue hands back the very request, leaves both tiers as
    they were, and adds one to exactly one rejection counter (saturating): the
    global one when the scheduler is full, otherwise the counter of the first
    cap that is exceeded. *)
Theorem enqueue_refused s c g r s' r' :
  drr_inv s → DrrState_enqueue s c g r = (s', Err r') →
  r' = r ∧
  ((global (caps s) ≤ total_depth (outer s) ∧ s' = tally_global s) ∨
   (total_depth (outer s) < global (caps s) ∧ s' = tally s MaxFlows ∧
      flows (outer s) !! c = None ∧ max_flows (caps s) ≤ Z.of_nat (size (flows (outer s)))) ∨
   (total_depth (outer s) < global (caps s) ∧ s' = tally s PerFlow ∧
      per_flow (caps s) ≤ Z.of_nat (length (leaf s c g))) ∨
   (total_depth (outer s) < global (caps s) ∧ s' = tally s ConnBacklog ∧
      max_conn_backlog (caps s) ≤ total_depth (bucket s c)) ∨
   (total_depth (outer s) < global (caps s) ∧ s' = tally s MaxSigners ∧
      flows (bucket s c) !! g = None ∧
      max_signers (caps s) ≤ Z.of_nat (size (flows (bucket s c))))).
Proof.
  intros Hinv He. apply drr_enqueue_Err in He as Hx; [|done]. destruct Hx as (-> & _).
  split; [done|]. unfold DrrState_enqueue in He. case_decide; [simplify_eq; by left|right].
  destruct (enqueue_routed _ _ _ _ _ _ _) as [o' [u|rej]] eqn:Hr; [done|]. simplify_eq.
  eapply enqueue_routed_Err in Hr as (-> & Hrej & Hcase);
    [|done|apply Tier_new_inv|apply enqueue_signer_ok].
  assert (Hset : set_outer s (outer s) = s) by (by destruct s). rewrite Hset.
  destruct Hcase as [(e & b' & Hc & Hp)|[(Hc & Hsz & ->)|(b' & Hc & _ & Hp)]];
    [right|left; split_and!; (done || lia)|right].
  - apply enqueue_signer_Err in Hp as Hcases.
    + replace (store e) with (bucket s c) in Hcases
        by (unfold bucket, flow_store; by rewrite Hc).
      rewrite leaf_bucket.
      destruct Hcases as [(-> & ?)|[(-> & ?)|(-> & ? & ?)]];
        [left|right; left|right; right]; split_and!; (done || lia).
    + by destruct (ti_flow (outer s) Hinv c e Hc).
  - apply enqueue_signer_Err in Hp as Hcases; [|apply Tier_new_inv].
    replace Tier_new with (bucket s c) in Hcases
      by (unfold bucket, flow_store; by rewrite Hc).
    rewrite leaf_bucket.
    destruct Hcases as [(-> & ?)|[(-> & ?)|(-> & ? & ?)]];
        [left|right; left|right; right]; split_and!; (done || lia).
Qed.

(** ** Witnesses

    Two connections, the first with two signer hints, under caps small enough
    for the bounds to bite. *)

Definition demo_req (n : Z) : QueuedRequest := MkRequest [byte_of n] n.
Definition demo_caps : Caps := MkCaps 2 2 2 3 8.
Definition demo_ops : list op :=
  [Enq 7 1 (demo_req 1); Enq 7 1 (demo_req 2); Enq 7 1 (demo_req 3); Enq 7 2 (demo_req 4);
   Enq 7 2 (demo_req 5); Enq 9 0 (demo_req 6); Enq 5 0 (demo_req 7)].
Definition demo_run : DrrState * list event :=
  match exec (DrrState_new demo_caps) demo_ops with
  | Done x => x
  | Panicked => (DrrState_new demo_caps, [])
  end.

Lemma demo_caps_nonneg : caps_nonneg demo_caps.
Proof. unfold caps_nonneg. simpl. lia. Qed.

Definition demo_state : DrrState := demo_run.1.
Definition demo_events : list event := demo_run.2.

Lemma demo_exec : exec (DrrState_new demo_caps) demo_ops = Done (demo_state, demo_events).
Proof. vm_compute. reflexivity. Qed.

Lemma demo_inv : drr_inv demo_state.
Proof. apply (reachable_ok demo_caps demo_ops _ _ demo_caps_nonneg demo_exec). Qed.

Lemma demo_refused :
  DrrState_enqueue demo_state 5 0 (demo_req 7) = (tally demo_state MaxFlows, Err (demo_req 7)).
Proof. vm_compute. reflexivity. Qed.

Lemma exec_safe_witness :
  caps_nonneg demo_caps ∧
  ∃ s evs, exec (DrrState_new demo_caps) demo_ops = Done (s, evs) ∧ within_caps s.
Proof.
  split; [apply demo_caps_nonneg|].
  destruct (exec_safe demo_caps demo_ops demo_caps_nonneg) as (s & evs & He & _ & Hw & _).
  exists s, evs. split; [exact He|exact Hw].
Defined.

Lemma exec_conserves_witness :
  accepted demo_events = [demo_req 1; demo_req 2; demo_req 4; demo_req 6] ∧
  accepted demo_events ≡ₚ served demo_events ++ tier_contents (outer demo_state).
Proof.
  split; [vm_compute; reflexivity|].
  apply (exec_conserves demo_caps demo_ops demo_state demo_events); [apply demo_caps_nonneg|apply demo_exec].
Defined.

Lemma exec_refines_witness :
  leaf demo_state 7 1 = [demo_req 1; demo_req 2] ∧
  spec_run (λ _ _, []) demo_ops demo_events (leaf demo_state).
Proof.
  split; [vm_compute; reflexivity|].
  apply (exec_refines demo_caps demo_ops demo_state demo_events); [apply demo_caps_nonneg|apply demo_exec].
Defined.

Lemma request_not_starved_witness :
  ∃ ops1 ops2 s1 evs1 s2,
    replicate 8 Pick = ops1 ++ Pick :: ops2 ∧
    Z.of_nat (picks ops1) < per_flow (caps demo_state) * max_signers (caps demo_state) *
      max_flows (caps demo_state) ∧
    exec demo_state ops1 = Done (s1, evs1) ∧ DrrState_pick s1 = Done (Some (demo_req 2), s2).
Proof.
  apply (request_not_starved demo_caps demo_ops demo_state demo_events 7 1 (demo_req 2) 1);
    [apply demo_caps_nonneg|apply demo_exec|vm_compute; reflexivity|vm_compute; discriminate].
Defined.

Lemma round_is_fair_witness :
  active (outer demo_state) = [7; 9] ∧
  ∃ s' evs, exec demo_state (replicate (length (active (outer demo_state))) Pick) = Done (s', evs) ∧
    NoDup (active (outer demo_state)) ∧
    Forall2 (λ c ev, ∃ r, ev = Served r ∧ front demo_state c r) (active (outer demo_state)) evs.
Proof.
  split; [vm_compute; reflexivity|].
  apply (round_is_fair demo_caps demo_ops demo_state demo_events);
    [apply demo_caps_nonneg|apply demo_exec].
Defined.

Definition demo_legacy_ops : list op :=
  [Enq 7 0 (demo_req 1); Enq 9 0 (demo_req 2); Enq 7 0 (demo_req 3); Enq 7 0 (demo_req 4);
   Pick; Pick; Pick; Pick].

Lemma legacy_collapse_witness :
  ∃ s t evs, exec (DrrState_new demo_caps) demo_legacy_ops = Done (s, evs) ∧
    rung0_exec (caps (DrrState_new demo_caps)) Tier_new demo_legacy_ops = Done (t, evs).
Proof.
  apply (legacy_collapse demo_caps demo_legacy_ops).
  - apply demo_caps_nonneg.
  - unfold legacy_caps. vm_compute. repeat split; discriminate.
  - repeat constructor.
Defined.

Lemma enqueue_refused_witness :
  DrrState_enqueue demo_state 5 0 (demo_req 7) = (tally demo_state MaxFlows, Err (demo_req 7)) ∧
  max_flows (caps demo_state) ≤ Z.of_nat (size (flows (outer demo_state))).
Proof.
  split; [exact demo_refused|].
  destruct (enqueue_refused demo_state 5 0 (demo_req 7) (tally demo_state MaxFlows) (demo_req 7)
              demo_inv demo_refused)
    as [_ [(_ & H)|[(_ & _ & _ & H)|[(_ & H & _)|[(_ & H & _)|(_ & H & _)]]]]];
    [|exact H|..]; exfalso; apply (f_equal rejected_max_flows) in H; vm_compute in H;
    discriminate.
Defined.
