(* ===== verification/Amount.v ===== *)
(** * The 256-bit accounting scalar

    Models [src/runtime/knomosis-amount/src/lib.rs].  The crate wraps the
    third-party [crypto_bigint::U256]; that engine is the parameter [U256]
    below, and what the crate relies on is the class [U256Ok] of its documented
    laws, stated on the value a big-endian encoding denotes.  [U256_Z] is an
    instance that satisfies the laws.

    The other files represent an [Amount] by its value, a [Z] in [in_u256], and
    its arithmetic by [checked_add 256], [checked_sub] and [checked_mul 256] of
    the prelude: [amount_ops_exact] is what justifies it. *)

From Stdlib Require Import ZArith Lia.
From stdpp Require Import base numbers list.
From S2P Require Import Prelude.

Local Open Scope Z_scope.

(** ** The engine *)

(** The operations of [crypto_bigint::U256] the crate calls. *)
Class U256 (U : Type) := {
  u_ZERO : U;
  u_ONE : U;
  u_MAX : U;
  u_from_u128 : Z → U;
  u_from_u64 : Z → U;
  u_checked_add : U → U → option U;
  u_checked_sub : U → U → option U;
  u_checked_mul : U → U → option U;
  u_div_rem : U → U → U * U;
  u_to_be_bytes : U → list u8;
  u_from_be_bytes : list u8 → U;
  u_to_le_bytes : U → list u8;
  u_from_le_bytes : list u8 → U;
  u_cmp : U → U → comparison;
  u_eq : U → U → bool;
}.
#[global] Hint Mode U256 ! : typeclass_instances.

Definition AMOUNT_BYTES : Z := 32.
Definition AMOUNT_MAX_DECIMAL_DIGITS : nat := 78.

(** The number an engine value stands for. *)
Definition val {U} `{U256 U} (x : U) : Z := from_be_bytes (u_to_be_bytes x).
Arguments val : simpl never.

(** The documented behaviour of the engine. *)
Class U256Ok (U : Type) `{U256 U} : Prop := {
  u_ZERO_val : val (u_ZERO : U) = 0;
  u_ONE_val : val (u_ONE : U) = 1;
  u_MAX_val : val (u_MAX : U) = 2 ^ 256 - 1;
  u_from_u128_val x : in_u128 x → val (u_from_u128 x : U) = x;
  u_from_u64_val x : in_u64 x → val (u_from_u64 x : U) = x;
  u_checked_add_val (a b : U) : val <$> u_checked_add a b = checked_add 256 (val a) (val b);
  u_checked_sub_val (a b : U) : val <$> u_checked_sub a b = checked_sub (val a) (val b);
  u_checked_mul_val (a b : U) : val <$> u_checked_mul a b = checked_mul 256 (val a) (val b);
  u_div_rem_val (a b : U) : val b ≠ 0 →
    val (fst (u_div_rem a b)) = val a / val b ∧ val (snd (u_div_rem a b)) = val a mod val b;
  u_to_be_bytes_length (a : U) : length (u_to_be_bytes a) = 32%nat;
  u_from_be_bytes_val bs : length bs = 32%nat → val (u_from_be_bytes bs : U) = from_be_bytes bs;
  u_to_le_bytes_rev (a : U) : u_to_le_bytes a = reverse (u_to_be_bytes a);
  u_from_le_bytes_val bs : length bs = 32%nat → val (u_from_le_bytes bs : U) = from_le_bytes bs;
  u_cmp_val (a b : U) : u_cmp a b = (val a ?= val b);
  u_eq_val (a b : U) : u_eq a b = (val a =? val b);
}.

(** An instance: [Z] read modulo [2^256]. *)
#[export] Instance U256_Z : U256 Z := {|
  u_ZERO := 0; u_ONE := 1; u_MAX := 2 ^ 256 - 1;
  u_from_u128 x := x; u_from_u64 x := x;
  u_checked_add a b := checked_add 256 (a mod 2 ^ 256) (b mod 2 ^ 256);
  u_checked_sub a b := checked_sub (a mod 2 ^ 256) (b mod 2 ^ 256);
  u_checked_mul a b := checked_mul 256 (a mod 2 ^ 256) (b mod 2 ^ 256);
  u_div_rem a b := ((a mod 2 ^ 256) / (b mod 2 ^ 256), (a mod 2 ^ 256) mod (b mod 2 ^ 256));
  u_to_be_bytes a := to_be_bytes 32 (a mod 2 ^ 256);
  u_from_be_bytes := from_be_bytes;
  u_to_le_bytes a := to_le_bytes 32 (a mod 2 ^ 256);
  u_from_le_bytes := from_le_bytes;
  u_cmp a b := (a mod 2 ^ 256 ?= b mod 2 ^ 256);
  u_eq a b := (a mod 2 ^ 256 =? b mod 2 ^ 256);
|}.

Lemma val_Z (x : Z) : val x = x mod 2 ^ 256.
Proof.
  unfold val. cbn -[to_be_bytes Z.pow Z.modulo]. apply from_to_be_bytes.
  apply Z.mod_pos_bound. lia.
Qed.

Lemma val_Z_small (x : Z) : in_u256 x → val x = x.
Proof. intros Hx. rewrite val_Z. by apply Z.mod_small. Qed.

Lemma fmap_val_Z (o : option Z) :
  (∀ x, o = Some x → in_u256 x) → val <$> o = o.
Proof. destruct o as [x|]; intros Hx; [|done]. cbn. by rewrite val_Z_small by auto. Qed.

#[export] Instance U256_Z_ok : U256Ok Z.
Proof.
  assert (Hm : ∀ x, in_u256 (x mod 2 ^ 256)).
  { intros. apply Z.mod_pos_bound. lia. }
  split; intros; rewrite ?val_Z;
    cbn -[Z.pow Z.modulo Z.div to_be_bytes to_le_bytes from_be_bytes from_le_bytes];
    try done.
  - apply Z.mod_small. eapply in_width_mono; [|done]. lia.
  - apply Z.mod_small. eapply in_width_mono; [|done]. lia.
  - apply fmap_val_Z. intros x (-> & ?)%checked_add_Some.
    destruct (Hm a), (Hm b). split; lia.
  - apply fmap_val_Z. intros x (-> & ?)%checked_sub_Some.
    destruct (Hm a), (Hm b). split; lia.
  - apply fmap_val_Z. intros x (-> & ?)%checked_mul_Some.
    destruct (Hm a), (Hm b). split; nia.
  - rewrite val_Z in *. destruct (Hm a), (Hm b). split; apply Z.mod_small.
    + split; [apply Z.div_pos; lia|]. apply Z.div_lt_upper_bound; nia.
    + pose proof (Z.mod_pos_bound (a mod 2 ^ 256) (b mod 2 ^ 256)). lia.
  - apply Z.mod_small. pose proof (from_be_bytes_bound bs) as Hb.
    rewrite H in Hb. exact Hb.
  - apply Z.mod_small. pose proof (from_le_bytes_bound bs) as Hb.
    rewrite H in Hb. exact Hb.
Qed.

(** ** The scalar *)

Inductive AmountError : Type :=
| WrongLength (got : Z)
| Empty
| NonDigit (offset : Z)
| Overflow.

Section Amount.
Context {U : Type} `{U256 U}.

(** The newtype [Amount(U256)] is transparent here. *)
Definition to_u128 (self : U) : option Z :=
  let bytes := u_to_be_bytes self in
  if existsb (fun b => negb (byte_val b =? 0)) (take 16 bytes) then None
  else Some (from_be_bytes (drop 16 bytes)).

Definition is_zero (self : U) : bool := u_eq self u_ZERO.

Definition amount_checked_add (self rhs : U) : option U := u_checked_add self rhs.
Definition amount_checked_sub (self rhs : U) : option U := u_checked_sub self rhs.
Definition amount_checked_mul (self rhs : U) : option U := u_checked_mul self rhs.

Definition amount_saturating_add (self rhs : U) : U :=
  default u_MAX (amount_checked_add self rhs).
Definition amount_saturating_sub (self rhs : U) : U :=
  default u_ZERO (amount_checked_sub self rhs).

Definition from_be_slice (bytes : list u8) : result U AmountError :=
  if Z.of_nat (length bytes) =? AMOUNT_BYTES then Ok (u_from_be_bytes bytes)
  else Err (WrongLength (Z.of_nat (length bytes))).

Definition cmp (self other : U) : comparison := u_cmp self other.

Definition u128_try_from (value : U) : result Z AmountError :=
  ok_or (to_u128 value) Overflow.

(** *** Decimal text *)

(** [u8::is_ascii_digit]. *)
Definition is_ascii_digit (b : u8) : bool := (48 <=? byte_val b) && (byte_val b <=? 57).

(** The [while n != 0] loop of [Display::fmt]; [used] is an index into the
    fixed buffer, and an index past its end panics.  One step more of fuel than
    the buffer has cells is enough, since a full buffer panics. *)
Fixpoint display_loop (fuel : nat) (digits : list u8) (used : nat) (n : U)
  : run (list u8 * nat) :=
  match fuel with
  | O => Panicked
  | S fuel =>
      if u_eq n u_ZERO then Done (digits, used)
      else
        let '(quotient, remainder) := u_div_rem n (u_from_u64 10) in
        match u_to_be_bytes remainder !! 31%nat, digits !! used with
        | Some digit, Some _ =>
            match checked_add 8 48 (byte_val digit) with
            | Some d => display_loop fuel (<[used := byte_of d]> digits) (S used) quotient
            | None => Panicked
            end
        | _, _ => Panicked
        end
  end.

(** [Display::fmt]; the [from_utf8] of the buffer succeeds on digits. *)
Definition display (self : U) : run (list u8) :=
  if is_zero self then Done [byte_of 48]
  else
    let! (digits, used) :=
      display_loop (S AMOUNT_MAX_DECIMAL_DIGITS)
        (replicate AMOUNT_MAX_DECIMAL_DIGITS (byte_of 0)) 0 self in
    let text := reverse (take used digits) in
    if forallb is_ascii_digit text then Done text else Panicked.

(** The loop of [FromStr::from_str]. *)
Fixpoint from_str_loop (s : list u8) (offset : Z) (acc : U) : result U AmountError :=
  match s with
  | [] => Ok acc
  | byte :: s =>
      if negb (is_ascii_digit byte) then Err (NonDigit offset)
      else
        let digit := u_from_u64 (byte_val byte - 48) in
        let? scaled := ok_or (u_checked_mul acc (u_from_u64 10)) Overflow in
        let? acc := ok_or (u_checked_add scaled digit) Overflow in
        from_str_loop s (offset + 1) acc
  end.

Definition from_str (s : list u8) : result U AmountError :=
  match s with
  | [] => Err Empty
  | _ => from_str_loop s 0 u_ZERO
  end.

(** *** The [serde] visitor: a decimal string or a bare JSON integer *)

Inductive json_scalar : Type :=
| JsonStr (s : list u8)
| JsonU64 (x : Z)
| JsonU128 (x : Z)
| JsonI64 (x : Z).

(** The rejection of a negative integer is an error of its own. *)
Definition visit (v : json_scalar) : result U (option AmountError) :=
  match v with
  | JsonStr s => match from_str s with Ok a => Ok a | Err e => Err (Some e) end
  | JsonU64 x => Ok (u_from_u64 x)
  | JsonU128 x => Ok (u_from_u128 x)
  | JsonI64 x => if decide (0 ≤ x) then Ok (u_from_u64 x) else Err None
  end.

Definition serialize (self : U) : run json_scalar :=
  let! s := display self in Done (JsonStr s).

End Amount.

(** ** Decimal notation *)

(** What a string of digits denotes, after a prefix that denotes [acc]. *)
Definition dec_from (acc : Z) (s : list u8) : Z :=
  fold_left (fun acc b => acc * 10 + (byte_val b - 48)) s acc.
Definition dec_val (s : list u8) : Z := dec_from 0 s.

(** The same, least significant digit first. *)
Fixpoint dec_le (s : list u8) : Z :=
  match s with
  | [] => 0
  | b :: s => (byte_val b - 48) + 10 * dec_le s
  end.

(** [memcmp], the order of a byte-string key. *)
Fixpoint bytes_cmp (a b : list u8) : comparison :=
  match a, b with
  | [], [] => Eq
  | [], _ => Lt
  | _, [] => Gt
  | x :: a, y :: b =>
      match byte_val x ?= byte_val y with Eq => bytes_cmp a b | c => c end
  end.

Abbreviation digits_only := (Forall (fun b => is_ascii_digit b = true)).

Lemma dec_from_app acc s1 s2 : dec_from acc (s1 ++ s2) = dec_from (dec_from acc s1) s2.
Proof. apply fold_left_app. Qed.

Lemma digit_bound b : is_ascii_digit b = true → 0 ≤ byte_val b - 48 < 10.
Proof. unfold is_ascii_digit. rewrite andb_true_iff, !Z.leb_le. lia. Qed.

Lemma digits_only_forallb s : digits_only s → forallb is_ascii_digit s = true.
Proof. induction 1 as [|b s Hb _ IH]; [done|]. cbn. by rewrite Hb, IH. Qed.

(** Reading on never makes the accumulated value smaller, so an overflow of a
    prefix is an overflow of the whole. *)
Lemma dec_from_ge acc s : 0 ≤ acc → digits_only s → acc ≤ dec_from acc s.
Proof.
  intros Hacc Hs. revert acc Hacc. induction Hs as [|b s Hb Hs IH]; intros acc Hacc.
  - done.
  - apply digit_bound in Hb. unfold dec_from. cbn [fold_left].
    specialize (IH (acc * 10 + (byte_val b - 48))). unfold dec_from in IH. lia.
Qed.

Lemma dec_val_reverse s : dec_val (reverse s) = dec_le s.
Proof.
  induction s as [|b s IH]; [done|]. unfold dec_val in *.
  rewrite reverse_cons, dec_from_app, IH. cbn. lia.
Qed.

Lemma bytes_cmp_app a1 a2 b1 b2 :
  length a1 = length b1 →
  bytes_cmp (a1 ++ a2) (b1 ++ b2) =
  match bytes_cmp a1 b1 with Eq => bytes_cmp a2 b2 | c => c end.
Proof.
  revert b1. induction a1 as [|x a1 IH]; intros [|y b1] [=]; [done|]. cbn.
  destruct (byte_val x ?= byte_val y); auto.
Qed.

(** The comparison of numbers with a common radix: high part first. *)
Lemma compare_radix x y p q :
  0 ≤ x < 256 → 0 ≤ y < 256 →
  (x + 256 * p ?= y + 256 * q) = match p ?= q with Eq => x ?= y | c => c end.
Proof.
  intros Hx Hy. destruct (Z.compare_spec p q) as [->|Hlt|Hgt].
  - destruct (Z.compare_spec x y) as [->|?|?].
    + apply Z.compare_refl.
    + apply Z.compare_lt_iff. lia.
    + apply Z.compare_gt_iff. lia.
  - apply Z.compare_lt_iff. lia.
  - apply Z.compare_gt_iff. lia.
Qed.

Lemma bytes_cmp_be a b :
  length a = length b → bytes_cmp a b = (from_be_bytes a ?= from_be_bytes b).
Proof.
  unfold from_be_bytes. revert b. induction a as [|x a IH] using rev_ind; intros b Hlen.
  - by destruct b.
  - destruct b as [|y b _] using rev_ind; rewrite !length_app in Hlen; cbn in Hlen; [lia|].
    rewrite !reverse_snoc, bytes_cmp_app by lia. cbn [from_le_bytes].
    rewrite compare_radix by apply byte_val_bound. rewrite (IH b) by lia.
    cbn. by destruct (byte_val x ?= byte_val y).
Qed.

(** ** The scalar's operations, on values *)

Section AmountOk.
Context {U : Type} `{U256Ok U}.

Lemma val_bound (a : U) : in_u256 (val a).
Proof.
  pose proof (from_be_bytes_bound (u_to_be_bytes a)) as Hb.
  rewrite u_to_be_bytes_length in Hb. exact Hb.
Qed.

Lemma ten_val : val (u_from_u64 10 : U) = 10.
Proof. apply u_from_u64_val. done. Qed.

Lemma is_zero_val (a : U) : is_zero a = (val a =? 0).
Proof. unfold is_zero. by rewrite u_eq_val, u_ZERO_val. Qed.

(** The low byte of a remainder modulo ten is the remainder. *)
Lemma low_byte (r : U) : val r < 256 →
  ∃ b, u_to_be_bytes r !! 31%nat = Some b ∧ byte_val b = val r.
Proof.
  intros Hr. pose proof (u_to_be_bytes_length r) as Hlen.
  unfold val in *.
  destruct (u_to_be_bytes r) as [|b l _] using rev_ind; [done|].
  rewrite length_app in Hlen. cbn in Hlen. exists b. split.
  - rewrite lookup_app_r by lia. by replace (31 - length l)%nat with 0%nat by lia.
  - rewrite from_be_bytes_app in *. change (from_be_bytes [b]) with (byte_val b + 256 * 0) in *.
    change (2 ^ (8 * Z.of_nat (length [b]))) with 256 in *.
    pose proof (from_be_bytes_bound l) as [? _]. pose proof (byte_val_bound b). nia.
Qed.

(** One turn of the division loop stores the low digit. *)
Lemma display_step fuel digits used (n : U) :
  (used < length digits)%nat → val n ≠ 0 →
  ∃ c (q : U), display_loop (S fuel) digits used n =
           display_loop fuel (<[used := c]> digits) (S used) q ∧
         byte_val c = 48 + val n mod 10 ∧ val q = val n / 10.
Proof.
  intros Hu Hz. cbn [display_loop]. rewrite u_eq_val, u_ZERO_val.
  destruct (Z.eqb_spec (val n) 0) as [?|_]; [done|].
  destruct (u_div_rem n (u_from_u64 10)) as [q r] eqn:Hqr.
  destruct (u_div_rem_val n (u_from_u64 10)) as [Hq Hr]; [by rewrite ten_val|].
  rewrite Hqr, ten_val in Hq, Hr. cbn [fst snd] in Hq, Hr.
  pose proof (Z.mod_pos_bound (val n) 10 ltac:(lia)).
  destruct (low_byte r) as (d & Hd & Hdv); [lia|]. rewrite Hd.
  destruct (lookup_lt_is_Some_2 digits used Hu) as [x Hx]. rewrite Hx.
  assert (checked_add 8 48 (byte_val d) = Some (48 + val r)) as ->.
  { apply checked_add_Some. lia. }
  exists (byte_of (48 + val r)), q. split_and!; [done| |done].
  rewrite byte_val_of, Z.mod_small; lia.
Qed.

(** The division loop: the digits it appends denote [n], without a leading
    zero, and it never leaves the buffer when [n] has no more digits than cells
    are left. *)
Lemma display_loop_spec fuel digits used (n : U) :
  length digits = 78%nat → (78 - used < fuel)%nat → (used ≤ 78)%nat →
  val n < 10 ^ Z.of_nat (78 - used) →
  ∃ digits' used' ds,
    display_loop fuel digits used n = Done (digits', used') ∧
    take used' digits' = take used digits ++ ds ∧
    digits_only ds ∧ dec_le ds = val n ∧ (length ds ≤ 78 - used)%nat ∧
    (val n = 0 → ds = []) ∧
    (val n ≠ 0 → ∃ b, last ds = Some b ∧ byte_val b ≠ 48).
Proof.
  revert digits used n. induction fuel as [|fuel IH]; intros digits used n Hlen Hf Hu Hn; [lia|].
  pose proof (val_bound n) as [Hn0 _].
  destruct (decide (val n = 0)) as [Hz|Hz].
  { exists digits, used, []. cbn [display_loop]. rewrite u_eq_val, u_ZERO_val, Hz.
    rewrite app_nil_r. cbn. split_and!; try done. lia. }
  assert (used < 78)%nat as Hu'.
  { destruct (decide (used = 78%nat)) as [->|]; [|lia]. cbn in Hn. lia. }
  destruct (display_step fuel digits used n) as (c & q & -> & Hc & Hq); [lia|done|].
  pose proof (Z.div_mod (val n) 10). pose proof (Z.mod_pos_bound (val n) 10 ltac:(lia)).
  destruct (IH (<[used:=c]> digits) (S used) q)
    as (digits' & used' & ds & Hl & Ht & Hds & Hv & Hle & Hnil & Hlast);
    [by rewrite length_insert|lia|lia| |].
  { rewrite Hq. apply Z.div_lt_upper_bound; [lia|].
    replace (78 - used)%nat with (S (78 - S used)) in Hn by lia.
    rewrite Nat2Z.inj_succ, Z.pow_succ_r in Hn; lia. }
  exists digits', used', (c :: ds). split_and!; [done| | | | | done|].
  - rewrite Ht. erewrite take_S_r by (apply list_lookup_insert_eq; lia).
    rewrite take_insert_ge by lia. by rewrite <- app_assoc.
  - constructor; [|done]. unfold is_ascii_digit. rewrite andb_true_iff, !Z.leb_le. lia.
  - cbn [dec_le]. lia.
  - cbn. lia.
  - intros _. destruct (decide (val q = 0)) as [Hq0|Hq0].
    + exists c. rewrite (Hnil Hq0). split; [done|]. lia.
    + destruct (Hlast Hq0) as (b & Hb & ?). exists b. by rewrite last_cons, Hb.
Qed.

(** Rendering succeeds, on the canonical decimal notation of the value. *)
Lemma display_spec (a : U) :
  ∃ s, display a = Done s ∧ digits_only s ∧ dec_val s = val a ∧
    (0 < length s ≤ 78)%nat ∧ (val a ≠ 0 → ∃ b, head s = Some b ∧ byte_val b ≠ 48) ∧
    (val a = 0 → s = [byte_of 48]).
Proof.
  unfold display. rewrite is_zero_val. destruct (Z.eqb_spec (val a) 0) as [Hz|Hz].
  { exists [byte_of 48]. rewrite Hz. split_and!; try done; [by repeat constructor|cbn; lia..]. }
  destruct (display_loop_spec (S AMOUNT_MAX_DECIMAL_DIGITS)
    (replicate AMOUNT_MAX_DECIMAL_DIGITS (byte_of 0)) 0 a)
    as (digits & used & ds & -> & Ht & Hds & Hv & Hle & _ & Hlast);
    [done|unfold AMOUNT_MAX_DECIMAL_DIGITS; lia|lia| |].
  { pose proof (val_bound a) as [_ Hb]. eapply Z.lt_trans; [exact Hb|]. done. }
  cbn [run_bind]. rewrite Ht. cbn [take app]. destruct (Hlast Hz) as (b & Hb & Hb0).
  exists (reverse ds). rewrite digits_only_forallb by by apply Forall_reverse.
  split_and!; [done|by apply Forall_reverse|by rewrite dec_val_reverse| | | |done].
  - rewrite length_reverse. destruct ds; [done|cbn; lia].
  - rewrite length_reverse. lia.
  - intros _. exists b. split; [|done]. by rewrite <- last_reverse, reverse_involutive.
Qed.

(** The parser, on the rest of a string whose prefix denotes [acc]. *)
Lemma from_str_loop_spec s off (acc : U) :
  match from_str_loop s off acc with
  | Ok a => digits_only s ∧ val a = dec_from (val acc) s
  | Err (NonDigit o) => ∃ p b rest, s = p ++ b :: rest ∧ o = off + Z.of_nat (length p) ∧
      digits_only p ∧ is_ascii_digit b = false
  | Err Overflow => ∃ p rest, s = p ++ rest ∧ digits_only p ∧ 2 ^ 256 ≤ dec_from (val acc) p
  | Err _ => False
  end.
Proof.
  revert off acc. induction s as [|b s IH]; intros off acc; [by cbn|]. cbn [from_str_loop].
  destruct (is_ascii_digit b) eqn:Hb; cbn [negb].
  2: { exists [], b, s. split_and!; [done|cbn; lia|done|done]. }
  pose proof (digit_bound b Hb) as Hd. pose proof (val_bound acc) as [Ha _].
  assert (Hdv : val (u_from_u64 (byte_val b - 48) : U) = byte_val b - 48).
  { apply u_from_u64_val. split; [lia|]. eapply Z.lt_trans; [apply Hd|done]. }
  pose proof (u_checked_mul_val acc (u_from_u64 10)) as Hm. rewrite ten_val in Hm.
  destruct (u_checked_mul acc (u_from_u64 10)) as [sc|]; cbn [ok_or result_bind].
  - symmetry in Hm. apply checked_mul_Some in Hm as [Hsc _].
    pose proof (u_checked_add_val sc (u_from_u64 (byte_val b - 48))) as Hs. rewrite Hdv in Hs.
    destruct (u_checked_add sc _) as [acc'|]; cbn [ok_or result_bind].
    + symmetry in Hs. apply checked_add_Some in Hs as [Hacc' _].
      assert (Hcons : ∀ t, dec_from (val acc) (b :: t) = dec_from (val acc') t).
      { intros t. unfold dec_from. cbn [fold_left]. f_equal. lia. }
      specialize (IH (off + 1) acc'). destruct (from_str_loop s (off + 1) acc') as [a|[]].
      * destruct IH as [? ->]. by rewrite Hcons; auto.
      * done.
      * done.
      * destruct IH as (p & c & rest & -> & -> & Hp & Hc). exists (b :: p), c, rest.
        split_and!; [done|cbn; lia|by constructor|done].
      * destruct IH as (p & rest & -> & Hp & Hov). exists (b :: p), rest.
        rewrite Hcons. auto.
    + symmetry in Hs. apply checked_add_None in Hs. exists [b], s.
      split_and!; [done|by repeat constructor|]. cbn. lia.
  - symmetry in Hm. apply checked_mul_None in Hm. exists [b], s.
    split_and!; [done|by repeat constructor|]. cbn. lia.
Qed.

Lemma to_u128_val (a : U) :
  to_u128 a = if decide (val a < 2 ^ 128) then Some (val a) else None.
Proof.
  unfold to_u128. pose proof (u_to_be_bytes_length a) as Hlen.
  pose proof (from_be_bytes_app (take 16 (u_to_be_bytes a)) (drop 16 (u_to_be_bytes a))) as Hv.
  rewrite take_drop, length_drop, Hlen in Hv. change (8 * Z.of_nat (32 - 16)) with 128 in Hv.
  pose proof (from_be_bytes_bound (drop 16 (u_to_be_bytes a))) as Hlo.
  rewrite length_drop, Hlen in Hlo. change (8 * Z.of_nat (32 - 16)) with 128 in Hlo.
  pose proof (from_be_bytes_bound (take 16 (u_to_be_bytes a))) as [Hhi _].
  unfold in_width in Hlo. fold (val a) in Hv.
  destruct (existsb _ _) eqn:He.
  - case_decide; [|done]. apply not_false_iff_true in He. rewrite from_be_bytes_zero in He. nia.
  - apply from_be_bytes_zero in He. rewrite He in Hv. rewrite decide_True by lia. f_equal. lia.
Qed.

End AmountOk.

(** ** Correctness *)

(** The decimal rendering of an amount never leaves its 78-cell buffer; it
    is non-empty, has no leading zero (["0"] for zero), and the parser reads it
    back to the same value.  The [serde] form round trips with it. *)
Theorem display_from_str {U : Type} `{U256Ok U} (a : U) :
  ∃ s (a' : U), display a = Done s ∧ from_str s = Ok a' ∧ val a' = val a ∧
    (0 < length s ≤ AMOUNT_MAX_DECIMAL_DIGITS)%nat ∧
    (val a ≠ 0 → ∃ b, head s = Some b ∧ byte_val b ≠ 48) ∧
    (val a = 0 → s = [byte_of 48]) ∧
    serialize a = Done (JsonStr s) ∧ visit (JsonStr s) = Ok a'.
Proof.
  destruct (display_spec a) as (s & Hs & Hd & Hv & Hlen & Hhead & Hzero).
  assert (∃ a' : U, from_str s = Ok a' ∧ val a' = val a) as (a' & Ha' & Hval).
  { pose proof (from_str_loop_spec s 0 (u_ZERO : U)) as Hp. rewrite u_ZERO_val in Hp.
    assert (from_str s = from_str_loop s 0 (u_ZERO : U)) as -> by (destruct s; [cbn in Hlen; lia|done]).
    destruct (from_str_loop s 0 u_ZERO) as [a'|[]]; try done.
    - exists a'. split; [done|]. unfold dec_val in Hv. lia.
    - destruct Hp as (p & b & rest & -> & _ & _ & Hb). apply Forall_app in Hd as [_ Hd].
      apply Forall_cons in Hd as [Hd _]. congruence.
    - destruct Hp as (p & rest & -> & Hp & Hov). unfold dec_val in Hv.
      apply Forall_app in Hd as [_ Hd]. rewrite dec_from_app in Hv.
      pose proof (dec_from_ge (dec_from 0 p) rest ltac:(lia) Hd).
      pose proof (val_bound a) as [_ ?]. lia. }
  exists s, a'. unfold serialize, visit. rewrite Hs, Ha'. cbn. naive_solver.
Qed.

(** The parser, on every branch.  It accepts exactly the non-empty digit
    strings that denote a value below [2^256], with that value, and the error
    it gives names the first thing that is wrong: the empty string, the offset
    of the first non-digit, or a digit prefix that already exceeds the range. *)
Theorem from_str_correct {U : Type} `{U256Ok U} (s : list u8) :
  (∀ a : U, from_str s = Ok a → s ≠ [] ∧ digits_only s ∧ val a = dec_val s) ∧
  (s ≠ [] → digits_only s → dec_val s < 2 ^ 256 → ∃ a : U, from_str s = Ok a) ∧
  (∀ e, from_str (U := U) s = Err e →
    match e with
    | Empty => s = []
    | NonDigit o => ∃ p b rest, s = p ++ b :: rest ∧ o = Z.of_nat (length p) ∧
        digits_only p ∧ is_ascii_digit b = false
    | Overflow => ∃ p rest, s = p ++ rest ∧ digits_only p ∧ 2 ^ 256 ≤ dec_val p
    | WrongLength _ => False
    end).
Proof.
  destruct (decide (s = [])) as [->|Hne]; [split_and!; naive_solver|].
  assert (from_str s = from_str_loop s 0 (u_ZERO : U)) as -> by by destruct s.
  pose proof (from_str_loop_spec s 0 (u_ZERO : U)) as Hp. rewrite u_ZERO_val in Hp.
  destruct (from_str_loop s 0 u_ZERO) as [a|e].
  { split_and!; naive_solver. }
  split_and!; [done| |by intros ? [= <-]; destruct e].
  intros _ Hd Hv. exfalso. destruct e; try done.
  - destruct Hp as (p & c & rest & Heq & _ & _ & Hc). rewrite Heq in Hd.
    apply Forall_app in Hd as [_ Hd]. apply Forall_cons in Hd as [Hd _]. congruence.
  - destruct Hp as (p & rest & Heq & Hp & Hov). unfold dec_val in Hv. rewrite Heq in Hd, Hv.
    apply Forall_app in Hd as [_ Hd]. rewrite dec_from_app in Hv.
    pose proof (dec_from_ge (dec_from 0 p) rest ltac:(lia) Hd). lia.
Qed.

(** On values the operations are exact.  Addition, subtraction and
    multiplication give [None] exactly outside [0 .. 2^256 - 1], the narrowing
    gives [None] exactly from [2^128] on and never truncates, the big-endian
    codec round trips and rejects every other length, and comparing the stored
    big-endian keys byte by byte is comparing the amounts. *)
Theorem amount_ops_exact {U : Type} `{U256Ok U} (a b : U) :
  val <$> amount_checked_add a b = checked_add 256 (val a) (val b) ∧
  val <$> amount_checked_sub a b = checked_sub (val a) (val b) ∧
  val <$> amount_checked_mul a b = checked_mul 256 (val a) (val b) ∧
  val (amount_saturating_add a b) = saturating_add 256 (val a) (val b) ∧
  val (amount_saturating_sub a b) = saturating_sub (val a) (val b) ∧
  u128_try_from a = (if decide (val a < 2 ^ 128) then Ok (val a) else Err Overflow) ∧
  (∃ a' : U, from_be_slice (u_to_be_bytes a) = Ok a' ∧ val a' = val a) ∧
  (∀ bs, length bs ≠ 32%nat →
    from_be_slice (U := U) bs = Err (WrongLength (Z.of_nat (length bs)))) ∧
  cmp a b = bytes_cmp (u_to_be_bytes a) (u_to_be_bytes b).
Proof.
  pose proof (val_bound a) as [? ?]. pose proof (val_bound b) as [? ?].
  unfold amount_checked_add, amount_checked_sub, amount_checked_mul,
    amount_saturating_add, amount_saturating_sub, from_be_slice, AMOUNT_BYTES.
  split_and!.
  - apply u_checked_add_val.
  - apply u_checked_sub_val.
  - apply u_checked_mul_val.
  - unfold amount_checked_add. pose proof (u_checked_add_val a b) as Hs.
    unfold saturating_add. destruct (u_checked_add a b); cbn; symmetry in Hs.
    + apply checked_add_Some in Hs as [-> ?]. lia.
    + apply checked_add_None in Hs. rewrite u_MAX_val. lia.
  - unfold amount_checked_sub. pose proof (u_checked_sub_val a b) as Hs.
    unfold saturating_sub. destruct (u_checked_sub a b); cbn; symmetry in Hs.
    + apply checked_sub_Some in Hs as [-> ?]. lia.
    + apply checked_sub_None in Hs. rewrite u_ZERO_val. lia.
  - unfold u128_try_from. rewrite to_u128_val. by case_decide.
  - rewrite u_to_be_bytes_length. eexists. split; [done|].
    by rewrite u_from_be_bytes_val by apply u_to_be_bytes_length.
  - intros bs Hbs. destruct (Z.eqb_spec (Z.of_nat (length bs)) 32); [lia|done].
  - unfold cmp. rewrite u_cmp_val, bytes_cmp_be; [done|]. by rewrite !u_to_be_bytes_length.
Qed.

(** ** Witnesses: the engine [U256_Z] *)

Lemma display_from_str_witness :
  ∃ s (a' : Z), display (12345 : Z) = Done s ∧ from_str s = Ok a' ∧ val a' = 12345.
Proof.
  destruct (display_from_str (12345 : Z)) as (s & a' & Hs & Ha & Hv & _).
  exists s, a'. split_and!; [exact Hs|exact Ha|]. rewrite Hv. vm_compute. reflexivity.
Defined.

(** ["99"] followed by [":"]. *)
Lemma from_str_correct_witness :
  from_str (U := Z) [byte_of 57; byte_of 57] = Ok 99 ∧
  digits_only [byte_of 57; byte_of 57] ∧
  from_str (U := Z) [byte_of 57; byte_of 57; byte_of 58] = Err (NonDigit 2).
Proof.
  split; [vm_compute; reflexivity|]. split; [|vm_compute; reflexivity].
  destruct (from_str_correct (U := Z) [byte_of 57; byte_of 57]) as [Hok _].
  destruct (Hok 99) as (_ & Hd & _); [vm_compute; reflexivity|exact Hd].
Defined.

Lemma amount_ops_exact_witness :
  amount_checked_mul (2 ^ 64 - 1 : Z) (2 ^ 193) = None ∧
  cmp (255 : Z) 256 = bytes_cmp (u_to_be_bytes (255 : Z)) (u_to_be_bytes (256 : Z)).
Proof.
  split; [vm_compute; reflexivity|].
  destruct (amount_ops_exact (255 : Z) 256) as (_ & _ & _ & _ & _ & _ & _ & _ & Hcmp).
  exact Hcmp.
Defined.
