(* ===== verification/Encoding.v ===== *)
(** * The action codec

    Models [src/runtime/knomosis-l1-ingest/src/action.rs] (the actions and their
    frozen constructor tags) and [encoding.rs] (the CBE encoder, the signing
    input and the signed action).

    An [Amount] is represented by its value.  Encoders that push onto a [Vec]
    return the bytes they append. *)

From Stdlib Require Import ZArith Lia.
From Stdlib Require Strings.String.
From stdpp Require Import base numbers list.
From S2P Require Import Prelude.
Import String.StringSyntax.
Delimit Scope string_scope with string.

Local Open Scope Z_scope.

(** ** Actions *)

Abbreviation ActorId := Z (only parsing).
Abbreviation ResourceId := Z (only parsing).
Abbreviation LogIndex := Z (only parsing).
Abbreviation DepositId := Z (only parsing).
Abbreviation EthAddress := (list u8) (only parsing).
Abbreviation PublicKey := (list u8) (only parsing).

(** [EthAddress::from_bytes]. *)
Definition EthAddress_from_bytes (bytes : list u8) : option EthAddress :=
  if Z.of_nat (length bytes) =? 20 then Some bytes else None.

Inductive Action : Type :=
| Transfer (r : ResourceId) (sender receiver : ActorId) (amount : Z)
| Mint (r : ResourceId) (to : ActorId) (amount : Z)
| Burn (r : ResourceId) (from_actor : ActorId) (amount : Z)
| FreezeResource (r : ResourceId)
| ReplaceKey (actor : ActorId) (new_key : PublicKey)
| Reward (r : ResourceId) (to : ActorId) (amount : Z)
| DistributeOthers (r : ResourceId) (excluded : ActorId) (amount : Z)
| ProportionalDilute (r : ResourceId) (excluded : ActorId) (total_reward : Z)
| DisputeWithdraw (idx : LogIndex)
| Rollback (target_idx : LogIndex)
| RegisterIdentity (actor : ActorId) (pk : PublicKey)
| Deposit (r : ResourceId) (recipient : ActorId) (amount : Z) (deposit_id : DepositId)
| Withdraw (r : ResourceId) (sender : ActorId) (amount : Z) (recipient_l1 : EthAddress)
| RevokeLocalPolicy
| FaultProofChallenge (binding_hash : list u8) (disputed_start_idx disputed_end_idx : LogIndex)
    (challenger_commit : list u8)
| FaultProofResolution (binding_hash : list u8) (game_id : Z) (winner : ActorId)
    (revert_from_idx : LogIndex)
| DepositWithFee (r : ResourceId) (recipient pool_actor : ActorId)
    (user_amount pool_amount : Z) (budget_grant : Z) (deposit_id : DepositId) (seed_amount : Z)
| TopUpActionBudget (gas_resource : ResourceId) (gas_amount budget_increment : Z)
    (pool_actor : ActorId)
| TopUpActionBudgetFor (recipient : ActorId) (gas_resource : ResourceId)
    (gas_amount budget_increment : Z) (pool_actor : ActorId)
| ClaimBudgetRefund (gas_resource : ResourceId) (budget_units wei_per_budget_unit : Z)
    (pool_actor : ActorId)
| ReclaimAmmReserves (r : ResourceId) (amount : Z) (reserve_actor pool_actor : ActorId)
| ReserveSwap (from_resource to_resource : ResourceId) (user : ActorId)
    (amount_in min_amount_out : Z) (reserve_actor : ActorId).

Definition tag (self : Action) : Z :=
  match self with
  | Transfer _ _ _ _ => 0
  | Mint _ _ _ => 1
  | Burn _ _ _ => 2
  | FreezeResource _ => 3
  | ReplaceKey _ _ => 4
  | Reward _ _ _ => 5
  | DistributeOthers _ _ _ => 6
  | ProportionalDilute _ _ _ => 7
  | DisputeWithdraw _ => 9
  | Rollback _ => 11
  | RegisterIdentity _ _ => 12
  | Deposit _ _ _ _ => 13
  | Withdraw _ _ _ _ => 14
  | RevokeLocalPolicy => 16
  | FaultProofChallenge _ _ _ _ => 17
  | FaultProofResolution _ _ _ _ => 18
  | DepositWithFee _ _ _ _ _ _ _ _ => 19
  | TopUpActionBudget _ _ _ _ => 20
  | TopUpActionBudgetFor _ _ _ _ _ => 21
  | ClaimBudgetRefund _ _ _ _ => 22
  | ReclaimAmmReserves _ _ _ _ => 24
  | ReserveSwap _ _ _ _ _ _ => 25
  end.

(** ** The encoder *)

Definition CBE_TAG_UINT : u8 := byte_of 0.
Definition CBE_TAG_BYTES : u8 := byte_of 2.
Definition CBE_TAG_AMOUNT : u8 := byte_of 6.
Definition AMOUNT_HEAD_LEN : Z := 33.
Definition HEAD_LEN : Z := 9.

Definition SIGNED_ACTION_DOMAIN : list u8 :=
  String.list_byte_of_string "legalkernel/v1/signedaction"%string.

Definition write_u64_le (n : Z) : list u8 := to_le_bytes 8 n.
Definition write_head (tag : u8) (n : Z) : list u8 := tag :: write_u64_le n.
Definition write_amount_head (n : Z) : list u8 := CBE_TAG_AMOUNT :: to_le_bytes 32 n.

Definition encode_amount (value : Z) : list u8 := write_amount_head value.
Definition encode_u64 (value : Z) : list u8 := write_head CBE_TAG_UINT value.

Definition encode_u128_checked (value : Z) : option (list u8) :=
  if decide (2 ^ 64 ≤ value) then None else Some (encode_u64 value).

(** [u64::try_from] of the length is the bound. *)
Definition encode_bytes_checked (bytes : list u8) : option (list u8) :=
  let len := Z.of_nat (length bytes) in
  if decide (len < 2 ^ 64) then Some (write_head CBE_TAG_BYTES len ++ bytes) else None.

Inductive EncodeError : Type :=
| FieldExceedsBound (value : Z)
| LengthExceedsBound (len : Z).

Definition encode_nonce (nonce : Z) : result (list u8) EncodeError :=
  ok_or (encode_u128_checked nonce) (FieldExceedsBound nonce).

Definition encode_byte_string (bytes : list u8) : result (list u8) EncodeError :=
  ok_or (encode_bytes_checked bytes) (LengthExceedsBound (Z.of_nat (length bytes))).

Definition encode_action (action : Action) : result (list u8) EncodeError :=
  let out := encode_u64 (tag action) in
  match action with
  | Transfer r sender receiver amount =>
      Ok (out ++ encode_u64 r ++ encode_u64 sender ++ encode_u64 receiver ++ encode_amount amount)
  | Mint r to amount | Reward r to amount =>
      Ok (out ++ encode_u64 r ++ encode_u64 to ++ encode_amount amount)
  | Burn r from_actor amount =>
      Ok (out ++ encode_u64 r ++ encode_u64 from_actor ++ encode_amount amount)
  | FreezeResource r => Ok (out ++ encode_u64 r)
  | ReplaceKey actor new_key =>
      let? k := encode_byte_string new_key in
      Ok (out ++ encode_u64 actor ++ k)
  | DistributeOthers r excluded amount =>
      Ok (out ++ encode_u64 r ++ encode_u64 excluded ++ encode_amount amount)
  | ProportionalDilute r excluded total_reward =>
      Ok (out ++ encode_u64 r ++ encode_u64 excluded ++ encode_amount total_reward)
  | DisputeWithdraw idx => Ok (out ++ encode_u64 idx)
  | Rollback target_idx => Ok (out ++ encode_u64 target_idx)
  | RegisterIdentity actor pk =>
      let? k := encode_byte_string pk in
      Ok (out ++ encode_u64 actor ++ k)
  | Deposit r recipient amount deposit_id =>
      Ok (out ++ encode_u64 r ++ encode_u64 recipient ++ encode_amount amount ++
          encode_u64 deposit_id)
  | Withdraw r sender amount recipient_l1 =>
      let? a := encode_byte_string recipient_l1 in
      Ok (out ++ encode_u64 r ++ encode_u64 sender ++ encode_amount amount ++ a)
  | RevokeLocalPolicy => Ok out
  | FaultProofChallenge binding_hash disputed_start_idx disputed_end_idx challenger_commit =>
      let? h := encode_byte_string binding_hash in
      let? c := encode_byte_string challenger_commit in
      Ok (out ++ h ++ encode_u64 disputed_start_idx ++ encode_u64 disputed_end_idx ++ c)
  | FaultProofResolution binding_hash game_id winner revert_from_idx =>
      let? h := encode_byte_string binding_hash in
      let? g := ok_or (encode_u128_checked game_id) (FieldExceedsBound game_id) in
      Ok (out ++ h ++ g ++ encode_u64 winner ++ encode_u64 revert_from_idx)
  | DepositWithFee r recipient pool_actor user_amount pool_amount budget_grant deposit_id
      seed_amount =>
      Ok (out ++ encode_u64 r ++ encode_u64 recipient ++ encode_u64 pool_actor ++
          encode_amount user_amount ++ encode_amount pool_amount ++ encode_u64 budget_grant ++
          encode_u64 deposit_id ++ encode_amount seed_amount)
  | TopUpActionBudget gas_resource gas_amount budget_increment pool_actor =>
      Ok (out ++ encode_u64 gas_resource ++ encode_amount gas_amount ++
          encode_u64 budget_increment ++ encode_u64 pool_actor)
  | TopUpActionBudgetFor recipient gas_resource gas_amount budget_increment pool_actor =>
      Ok (out ++ encode_u64 recipient ++ encode_u64 gas_resource ++ encode_amount gas_amount ++
          encode_u64 budget_increment ++ encode_u64 pool_actor)
  | ClaimBudgetRefund gas_resource budget_units wei_per_budget_unit pool_actor =>
      Ok (out ++ encode_u64 gas_resource ++ encode_u64 budget_units ++
          encode_amount wei_per_budget_unit ++ encode_u64 pool_actor)
  | ReclaimAmmReserves r amount reserve_actor pool_actor =>
      Ok (out ++ encode_u64 r ++ encode_amount amount ++ encode_u64 reserve_actor ++
          encode_u64 pool_actor)
  | ReserveSwap from_resource to_resource user amount_in min_amount_out reserve_actor =>
      Ok (out ++ encode_u64 from_resource ++ encode_u64 to_resource ++ encode_u64 user ++
          encode_amount amount_in ++ encode_amount min_amount_out ++ encode_u64 reserve_actor)
  end.

Definition signing_input (action : Action) (signer nonce : Z) (deployment_id : list u8)
  : result (list u8) EncodeError :=
  let? d := encode_byte_string SIGNED_ACTION_DOMAIN in
  let? i := encode_byte_string deployment_id in
  let? a := encode_action action in
  let? n := encode_nonce nonce in
  Ok (d ++ i ++ a ++ encode_u64 signer ++ n).

Definition encode_signed_action (action : Action) (signer nonce : Z) (sig : list u8)
  : result (list u8) EncodeError :=
  let? a := encode_action action in
  let? n := encode_nonce nonce in
  let? s := encode_byte_string sig in
  Ok (a ++ encode_u64 signer ++ n ++ s).

Arguments encode_u64 : simpl never.
Arguments encode_amount : simpl never.
Arguments write_head : simpl never.

(** The [expect] panics on [None]. *)
Definition encode_eth_address (addr : EthAddress) : run (list u8) :=
  match encode_bytes_checked addr with Some bs => Done bs | None => Panicked end.

(** The ranges of the Rust types of an action's fields. *)
Definition action_typed (a : Action) : Prop :=
  match a with
  | Transfer r s t x => in_u64 r ∧ in_u64 s ∧ in_u64 t ∧ in_u256 x
  | Mint r t x | Reward r t x | Burn r t x | DistributeOthers r t x
  | ProportionalDilute r t x => in_u64 r ∧ in_u64 t ∧ in_u256 x
  | FreezeResource r => in_u64 r
  | ReplaceKey a k | RegisterIdentity a k => in_u64 a ∧ in_u64 (Z.of_nat (length k))
  | DisputeWithdraw i | Rollback i => in_u64 i
  | Deposit r t x d => in_u64 r ∧ in_u64 t ∧ in_u256 x ∧ in_u64 d
  | Withdraw r s x l => in_u64 r ∧ in_u64 s ∧ in_u256 x ∧ length l = 20%nat
  | RevokeLocalPolicy => True
  | FaultProofChallenge h s e c =>
      in_u64 (Z.of_nat (length h)) ∧ in_u64 s ∧ in_u64 e ∧ in_u64 (Z.of_nat (length c))
  | FaultProofResolution h g w i =>
      in_u64 (Z.of_nat (length h)) ∧ in_u128 g ∧ in_u64 w ∧ in_u64 i
  | DepositWithFee r t p u q b d s =>
      in_u64 r ∧ in_u64 t ∧ in_u64 p ∧ in_u256 u ∧ in_u256 q ∧ in_u64 b ∧ in_u64 d ∧ in_u256 s
  | TopUpActionBudget r x b p => in_u64 r ∧ in_u256 x ∧ in_u64 b ∧ in_u64 p
  | TopUpActionBudgetFor t r x b p => in_u64 t ∧ in_u64 r ∧ in_u256 x ∧ in_u64 b ∧ in_u64 p
  | ClaimBudgetRefund r b x p => in_u64 r ∧ in_u64 b ∧ in_u256 x ∧ in_u64 p
  | ReclaimAmmReserves r x s p => in_u64 r ∧ in_u256 x ∧ in_u64 s ∧ in_u64 p
  | ReserveSwap f t u x y s =>
      in_u64 f ∧ in_u64 t ∧ in_u64 u ∧ in_u256 x ∧ in_u256 y ∧ in_u64 s
  end.

(** ** An action as a sequence of self-delimiting fields *)

Inductive field : Type :=
| FUint (x : Z)
| FAmount (x : Z)
| FBytes (bs : list u8).

Definition enc_field (f : field) : list u8 :=
  match f with
  | FUint x => encode_u64 x
  | FAmount x => encode_amount x
  | FBytes bs => write_head CBE_TAG_BYTES (Z.of_nat (length bs)) ++ bs
  end.

Definition field_ok (f : field) : Prop :=
  match f with
  | FUint x => in_u64 x
  | FAmount x => in_u256 x
  | FBytes bs => in_u64 (Z.of_nat (length bs))
  end.

Definition enc_fields (fs : list field) : list u8 := fs ≫= enc_field.

Definition fields (a : Action) : list field :=
  FUint (tag a) ::
  match a with
  | Transfer r s t x => [FUint r; FUint s; FUint t; FAmount x]
  | Mint r t x | Reward r t x | Burn r t x | DistributeOthers r t x
  | ProportionalDilute r t x => [FUint r; FUint t; FAmount x]
  | FreezeResource r => [FUint r]
  | ReplaceKey a k | RegisterIdentity a k => [FUint a; FBytes k]
  | DisputeWithdraw i | Rollback i => [FUint i]
  | Deposit r t x d => [FUint r; FUint t; FAmount x; FUint d]
  | Withdraw r s x l => [FUint r; FUint s; FAmount x; FBytes l]
  | RevokeLocalPolicy => []
  | FaultProofChallenge h s e c => [FBytes h; FUint s; FUint e; FBytes c]
  | FaultProofResolution h g w i => [FBytes h; FUint g; FUint w; FUint i]
  | DepositWithFee r t p u q b d s =>
      [FUint r; FUint t; FUint p; FAmount u; FAmount q; FUint b; FUint d; FAmount s]
  | TopUpActionBudget r x b p => [FUint r; FAmount x; FUint b; FUint p]
  | TopUpActionBudgetFor t r x b p => [FUint t; FUint r; FAmount x; FUint b; FUint p]
  | ClaimBudgetRefund r b x p => [FUint r; FUint b; FAmount x; FUint p]
  | ReclaimAmmReserves r x s p => [FUint r; FAmount x; FUint s; FUint p]
  | ReserveSwap f t u x y s => [FUint f; FUint t; FUint u; FAmount x; FAmount y; FUint s]
  end.

(** The only bound an action's Rust types do not already give. *)
Definition game_id_fits (a : Action) : Prop :=
  match a with FaultProofResolution _ g _ _ => in_u64 g | _ => True end.

(** Two encodings that open with heads of the same width. *)
Lemma le_bytes_app_inj n x y r1 r2 :
  in_width (8 * Z.of_nat n) x → in_width (8 * Z.of_nat n) y →
  to_le_bytes n x ++ r1 = to_le_bytes n y ++ r2 → x = y ∧ r1 = r2.
Proof.
  intros Hx Hy Heq. apply app_inj_1 in Heq as [Hb Hr]; [|by rewrite !to_le_bytes_length].
  split; [|done]. by eapply to_le_bytes_inj.
Qed.

Lemma head_app_inj (t1 t2 : u8) n1 n2 x y r1 r2 :
  (t1 = t2 → n1 = n2) →
  in_width (8 * Z.of_nat n1) x → in_width (8 * Z.of_nat n2) y →
  (t1 :: to_le_bytes n1 x) ++ r1 = (t2 :: to_le_bytes n2 y) ++ r2 →
  t1 = t2 ∧ x = y ∧ r1 = r2.
Proof.
  intros Hn Hx Hy [= Ht Heq]. specialize (Hn Ht) as ->.
  split; [done|]. by eapply le_bytes_app_inj.
Qed.

Lemma enc_field_inj f1 f2 r1 r2 :
  field_ok f1 → field_ok f2 → enc_field f1 ++ r1 = enc_field f2 ++ r2 → f1 = f2 ∧ r1 = r2.
Proof.
  intros H1 H2 Heq. destruct f1 as [x|x|b1], f2 as [y|y|b2];
    cbn [field_ok enc_field] in *; rewrite <- ?app_assoc in Heq;
    apply head_app_inj in Heq as (Ht & Hx & Hr); try done.
  all: try (exfalso; discriminate Ht).
  1,2: by subst.
  apply Nat2Z.inj in Hx. apply app_inj_1 in Hr as [-> ->]; done.
Qed.

Lemma enc_fields_inj fs1 fs2 r1 r2 :
  length fs1 = length fs2 → Forall field_ok fs1 → Forall field_ok fs2 →
  enc_fields fs1 ++ r1 = enc_fields fs2 ++ r2 → fs1 = fs2 ∧ r1 = r2.
Proof.
  revert fs2. induction fs1 as [|f1 fs1 IH]; intros [|f2 fs2] Hlen H1 H2 Heq; try done.
  injection Hlen as Hlen.
  inversion_clear H1. inversion_clear H2. unfold enc_fields in Heq. cbn in Heq.
  rewrite <- !app_assoc in Heq. apply enc_field_inj in Heq as [-> Heq]; [|done..].
  by destruct (IH fs2 Hlen) as [-> ->].
Qed.

Lemma fields_inj a1 a2 : fields a1 = fields a2 → a1 = a2.
Proof. destruct a1, a2; cbn; intros Heq; simplify_eq; try done; discriminate. Qed.

Lemma fields_length a1 a2 : tag a1 = tag a2 → length (fields a1) = length (fields a2).
Proof. destruct a1, a2; cbn; done. Qed.

Lemma tag_u64 a : in_u64 (tag a).
Proof. destruct a; cbn; done. Qed.

Lemma encode_byte_string_Ok bs :
  in_u64 (Z.of_nat (length bs)) → encode_byte_string bs = Ok (enc_field (FBytes bs)).
Proof.
  intros [_ Hb]. unfold encode_byte_string, encode_bytes_checked. by rewrite decide_True.
Qed.

Lemma encode_byte_string_inv bs out :
  encode_byte_string bs = Ok out →
  out = enc_field (FBytes bs) ∧ field_ok (FBytes bs).
Proof.
  unfold encode_byte_string, encode_bytes_checked. case_decide; cbn; [|done].
  intros [= <-]. split; [done|]. cbn. unfold in_width. lia.
Qed.

Lemma encode_u128_checked_Ok x (e : EncodeError) :
  in_u64 x → ok_or (encode_u128_checked x) e = Ok (enc_field (FUint x)).
Proof. intros [_ Hx]. unfold encode_u128_checked. by rewrite decide_False by lia. Qed.

Lemma encode_u128_checked_Err x (e : EncodeError) :
  2 ^ 64 ≤ x → ok_or (encode_u128_checked x) e = Err e.
Proof. intros Hx. unfold encode_u128_checked. by rewrite decide_True. Qed.

Lemma eth_address_u64 (l : list u8) : length l = 20%nat → in_u64 (Z.of_nat (length l)).
Proof. by intros ->. Qed.

Lemma fields_ok a : action_typed a → game_id_fits a → Forall field_ok (fields a).
Proof.
  intros Ht Hg. constructor; [apply tag_u64|].
  destruct a; cbn in *; destruct_and?; rewrite ?Forall_cons, ?Forall_nil; cbn;
    split_and?; auto using eth_address_u64.
Qed.

Lemma encode_action_fields a :
  Forall field_ok (fields a) → encode_action a = Ok (enc_fields (fields a)).
Proof.
  intros Hf. unfold fields in Hf. destruct a; cbn [encode_action];
    repeat match goal with
    | H : Forall _ (_ :: _) |- _ => apply Forall_cons in H as [? H]
    end; cbn [field_ok] in *;
    rewrite ?encode_byte_string_Ok, ?encode_u128_checked_Ok by done.
  all: unfold enc_fields; cbn; by rewrite ?app_nil_r.
Qed.

Lemma encode_action_Ok a :
  action_typed a → game_id_fits a → encode_action a = Ok (enc_fields (fields a)).
Proof. auto using encode_action_fields, fields_ok. Qed.

Lemma encode_action_inv a out :
  action_typed a → encode_action a = Ok out →
  out = enc_fields (fields a) ∧ Forall field_ok (fields a) ∧ game_id_fits a.
Proof.
  intros Ht He. assert (Hg : game_id_fits a).
  { destruct a; try done. cbn in *. destruct_and?. inv_binds.
    unfold encode_u128_checked in *. case_decide; [done|]. unfold in_width in *. lia. }
  rewrite encode_action_Ok in He by done. injection He as <-.
  auto using fields_ok.
Qed.

Lemma enc_fields_app fs1 fs2 : enc_fields (fs1 ++ fs2) = enc_fields fs1 ++ enc_fields fs2.
Proof. apply bind_app. Qed.

(** The encodings of two actions that agree up to what follows them. *)
Lemma fields_prefix_free a1 a2 r1 r2 :
  Forall field_ok (fields a1) → Forall field_ok (fields a2) →
  enc_fields (fields a1) ++ r1 = enc_fields (fields a2) ++ r2 → a1 = a2 ∧ r1 = r2.
Proof.
  intros H1 H2 Heq.
  assert (Htag : tag a1 = tag a2).
  { unfold enc_fields, fields in Heq. cbn [mbind list_bind] in Heq.
    rewrite <- !app_assoc in Heq.
    apply enc_field_inj in Heq as [[= Htag] _]; [done|apply tag_u64..]. }
  apply enc_fields_inj in Heq as [Hf ->]; [|by apply fields_length|done..].
  split; [by apply fields_inj|done].
Qed.

Lemma encode_nonce_inv n out :
  in_u128 n → encode_nonce n = Ok out → out = enc_field (FUint n) ∧ in_u64 n.
Proof.
  intros [? _]. unfold encode_nonce, encode_u128_checked. case_decide; cbn; [done|].
  intros [= <-]. split; [done|]. unfold in_width. lia.
Qed.

(** ** Correctness *)

(** The encoding of actions is injective and self-delimiting: if the
    encodings of two actions agree up to any suffixes, the actions are equal and
    so are the suffixes.  No action's bytes are a prefix of another's. *)
Theorem encode_action_prefix_free a1 a2 o1 o2 r1 r2 :
  action_typed a1 → action_typed a2 →
  encode_action a1 = Ok o1 → encode_action a2 = Ok o2 →
  o1 ++ r1 = o2 ++ r2 → a1 = a2 ∧ r1 = r2.
Proof.
  intros T1 T2 (-> & F1 & _)%encode_action_inv (-> & F2 & _)%encode_action_inv; [|done..].
  by apply fields_prefix_free.
Qed.

(** C22: the bytes a signature is taken over determine the deployment, the
    action, the signer and the nonce: no signature can be replayed for another
    action, signer, nonce or deployment. *)
Theorem signing_input_injective a1 a2 s1 s2 n1 n2 d1 d2 o :
  action_typed a1 → action_typed a2 → in_u64 s1 → in_u64 s2 → in_u128 n1 → in_u128 n2 →
  signing_input a1 s1 n1 d1 = Ok o → signing_input a2 s2 n2 d2 = Ok o →
  a1 = a2 ∧ s1 = s2 ∧ n1 = n2 ∧ d1 = d2.
Proof.
  intros T1 T2 S1 S2 N1 N2 E1 E2. unfold signing_input in *. inv_binds.
  repeat match goal with
  | H : encode_byte_string _ = Ok _ |- _ => apply encode_byte_string_inv in H as [-> ?]
  | H : encode_action _ = Ok _ |- _ => apply encode_action_inv in H as (-> & ? & _); [|done]
  | H : encode_nonce _ = Ok _ |- _ => apply encode_nonce_inv in H as [-> ?]; [|done]
  end.
  match goal with H : _ ++ _ = _ ++ _ |- _ => rename H into Heq end.
  apply app_inv_head in Heq.
  apply enc_field_inj in Heq as [[= ->] Heq]; [|done..].
  apply fields_prefix_free in Heq as [-> Heq]; [|done..].
  change (enc_field (FUint s1) ++ enc_field (FUint n1) =
          enc_field (FUint s2) ++ enc_field (FUint n2)) in Heq.
  apply enc_field_inj in Heq as [[= ->] Heq]; [|done..].
  rewrite <- (app_nil_r (enc_field (FUint n1))), <- (app_nil_r (enc_field (FUint n2))) in Heq.
  apply enc_field_inj in Heq as [[= ->] _]; done.
Qed.

(** The encoder is total on typed actions but for one field.  It fails
    exactly on a fault-proof resolution whose game id does not fit 64 bits, with
    that id in the error, and no field is ever truncated; otherwise the output
    is the tag and the fields in declaration order, each on its own head. *)
Theorem encode_action_complete a :
  action_typed a →
  (game_id_fits a → encode_action a = Ok (enc_fields (fields a))) ∧
  (∀ e, encode_action a = Err e →
    ∃ h g w i, a = FaultProofResolution h g w i ∧ 2 ^ 64 ≤ g ∧ e = FieldExceedsBound g) ∧
  (∀ h g w i, a = FaultProofResolution h g w i → 2 ^ 64 ≤ g →
    encode_action a = Err (FieldExceedsBound g)).
Proof.
  intros Ht. split_and!; [by apply encode_action_Ok| |].
  - intros e He. destruct a as [| | | | | | | | | | | | | | |h g w i| | | | | |];
      try (rewrite encode_action_Ok in He by done; discriminate He).
    destruct (decide (2 ^ 64 ≤ g)) as [Hg|Hg].
    + exists h, g, w, i. split_and!; [done..|]. cbn in He, Ht.
      rewrite encode_byte_string_Ok in He by apply Ht. cbn [result_bind] in He.
      rewrite encode_u128_checked_Err in He by done. by injection He.
    + rewrite encode_action_Ok in He; [done..|]. cbn in *.
      destruct Ht as (_ & [? _] & _). unfold in_width. lia.
  - intros h g w i -> Hg. cbn in Ht |- *. rewrite encode_byte_string_Ok by apply Ht.
    cbn [result_bind]. by rewrite encode_u128_checked_Err.
Qed.

(** ** Witnesses *)

Definition demo_key : PublicKey := replicate 33 (byte_of 7).

Lemma encode_action_prefix_free_witness :
  ∃ o, encode_action (RegisterIdentity 5 demo_key) = Ok o ∧
    (∀ a r1 r2, action_typed a → encode_action a = Ok o → o ++ r1 = o ++ r2 →
      RegisterIdentity 5 demo_key = a ∧ r1 = r2).
Proof.
  eexists. split; [vm_compute; reflexivity|]. intros a r1 r2 Ht He Heq.
  apply (encode_action_prefix_free (RegisterIdentity 5 demo_key) a _ _ r1 r2 ltac:(done) Ht
    ltac:(vm_compute; reflexivity) He Heq).
Defined.

Lemma signing_input_injective_witness :
  signing_input (Transfer 0 1 2 100) 1 7 [] ≠ signing_input (Transfer 0 1 2 100) 1 8 [].
Proof.
  intros Heq. destruct (signing_input (Transfer 0 1 2 100) 1 7 []) as [o|] eqn:H1;
    [|vm_compute in H1; discriminate H1].
  destruct (signing_input_injective (Transfer 0 1 2 100) (Transfer 0 1 2 100) 1 1 7 8 [] [] o
    ltac:(done) ltac:(done) ltac:(done) ltac:(done) ltac:(done) ltac:(done) H1 (eq_sym Heq))
    as (_ & _ & Hn & _).
  discriminate Hn.
Defined.

Lemma encode_action_complete_witness :
  encode_action (FaultProofResolution [] (2 ^ 64) 1 2) = Err (FieldExceedsBound (2 ^ 64)).
Proof.
  destruct (encode_action_complete (FaultProofResolution [] (2 ^ 64) 1 2)) as (_ & _ & H).
  - done.
  - apply (H [] (2 ^ 64) 1 2 eq_refl). done.
Defined.
