(* ===== verification/BudgetCodec.v ===== *)
(** * The budget gate's data and codecs

    Models the first part of [src/runtime/knomosis-host/src/budget.rs]: the CBE
    cursor, the policy, the per-actor cells, the ledger and the projection of a
    signed action that the gate consults, each with its encoder and decoder.

    A [BTreeMap] is a [gmap] with [btree_iter] as its iteration order.  A
    function on [&mut CbeCursor] that returns a [Result] is a [stateful]
    computation; [usize] is 64 bits wide. *)

From Stdlib Require Import ZArith Lia Sorted.
From Stdlib Require Strings.String.
From stdpp Require Import base numbers list gmap.
From S2P Require Import Prelude.
Import String.StringSyntax.
Delimit Scope string_scope with string.

Local Open Scope Z_scope.

Definition BRIDGE_ACTOR : Z := 0.
Definition GAS_POOL_ACTOR : Z := 1.
Definition MAX_TOPUP_BUDGET_PER_ACTION : Z := 1000000.

Definition CBE_TAG_UINT : u8 := byte_of 0.
Definition CBE_TAG_AMOUNT : u8 := byte_of 6.
Definition CBE_TAG_BYTES : u8 := byte_of 2.
Definition CBE_TAG_MAP : u8 := byte_of 5.
Definition HEAD_LEN : Z := 9.
Definition AMOUNT_HEAD_LEN : Z := 33.

(** The bytes [push_cbe_uint] appends. *)
Definition push_cbe_uint (value : Z) : list u8 := CBE_TAG_UINT :: to_le_bytes 8 value.
Arguments push_cbe_uint : simpl never.

Inductive BudgetDecodeError : Type :=
| UnexpectedEnd
| ExpectedUint (offset : Z) (found : u8)
| ExpectedAmount (offset : Z) (found : u8)
| ExpectedBytes (offset : Z) (found : u8)
| UnsupportedActionTag (tag : Z)
| UnknownActionTag (tag : Z)
| ExpectedMap (offset : Z) (found : u8)
| NonCanonical (reason : String.string)
| TrailingBytes (trailing : Z).

(** ** The cursor *)

Record CbeCursor : Type := { bytes : list u8; pos : Z }.

Definition CbeCursor_new (bs : list u8) : CbeCursor := {| bytes := bs; pos := 0 |}.

Definition is_at_end (self : CbeCursor) : bool := Z.of_nat (length (bytes self)) <=? pos self.

Abbreviation reader := (stateful CbeCursor BudgetDecodeError).

(** The steps the four readers share: the bounds of a head of [len] bytes, its
    slice, and the check of its first byte. *)
Definition read_head (tag : u8) (len : Z) (mismatch : Z → u8 → BudgetDecodeError)
  : reader (list u8) := fun self =>
  let? e := ok_or (checked_add 64 (pos self) len) UnexpectedEnd in
  let? head := ok_or (slice (bytes self) (pos self) e) UnexpectedEnd in
  match head with
  | [] => Err UnexpectedEnd
  | t :: body =>
      if decide (t = tag) then Ok (body, {| bytes := bytes self; pos := e |})
      else Err (mismatch (pos self) t)
  end.

Definition read_map_head : reader Z :=
  le ← read_head CBE_TAG_MAP HEAD_LEN ExpectedMap;
  mret (from_le_bytes le).

Definition read_uint : reader Z :=
  le ← read_head CBE_TAG_UINT HEAD_LEN ExpectedUint;
  mret (from_le_bytes le).

Definition skip_uint : reader () := _ ← read_uint; mret ().

Definition read_amount : reader Z :=
  le ← read_head CBE_TAG_AMOUNT AMOUNT_HEAD_LEN ExpectedAmount;
  mret (from_le_bytes le).

Definition skip_amount : reader () := _ ← read_amount; mret ().

(** The payload check of [skip_bytes], after its head. *)
Definition skip_payload (len : Z) : reader () := fun self =>
  let? payload_end := ok_or (checked_add 64 (pos self) len) UnexpectedEnd in
  if decide (Z.of_nat (length (bytes self)) < payload_end) then Err UnexpectedEnd
  else Ok (tt, {| bytes := bytes self; pos := payload_end |}).

Definition skip_bytes : reader () :=
  le ← read_head CBE_TAG_BYTES HEAD_LEN ExpectedBytes;
  skip_payload (from_le_bytes le).

(** The whole-buffer decoders: decode, then require the end of the buffer. *)
Definition decode_all {A} (decode_at : reader A) (bs : list u8) : result A BudgetDecodeError :=
  let? (a, cur) := decode_at (CbeCursor_new bs) in
  if is_at_end cur then Ok a
  else Err (TrailingBytes (Z.of_nat (length bs) - pos cur)).

(** ** The policy *)

Inductive BudgetPolicy : Type :=
| Bounded (free_tier action_cost current_epoch : Z).

Definition mk_bounded (free_tier action_cost current_epoch : Z) : BudgetPolicy :=
  Bounded free_tier (Z.max action_cost 1) current_epoch.

Definition free_tier (self : BudgetPolicy) : Z := let 'Bounded f _ _ := self in f.
Definition action_cost (self : BudgetPolicy) : Z := let 'Bounded _ c _ := self in c.
Definition current_epoch (self : BudgetPolicy) : Z := let 'Bounded _ _ e := self in e.

Definition BudgetPolicy_encode (self : BudgetPolicy) : list u8 :=
  let 'Bounded free_tier action_cost current_epoch := self in
  push_cbe_uint 0 ++ push_cbe_uint free_tier ++ push_cbe_uint action_cost ++
  push_cbe_uint current_epoch.

Definition BudgetPolicy_decode_at : reader BudgetPolicy :=
  tag ← read_uint;
  if decide (tag ≠ 0) then fail (NonCanonical "budgetPolicy tag must be 0"%string) else
  free_tier ← read_uint;
  action_cost ← read_uint;
  if decide (action_cost = 0)
  then fail (NonCanonical "budgetPolicy actionCost must be >= 1"%string) else
  current_epoch ← read_uint;
  mret (Bounded free_tier action_cost current_epoch).

Definition BudgetPolicy_decode (bs : list u8) : result BudgetPolicy BudgetDecodeError :=
  decode_all BudgetPolicy_decode_at bs.

(** ** The cells *)

Record ActorBudget : Type := { last_seen_epoch : Z; budget_balance : Z }.

Definition ActorBudget_empty : ActorBudget := {| last_seen_epoch := 0; budget_balance := 0 |}.

Definition normalise (self : ActorBudget) (now free_tier : Z) : ActorBudget :=
  if decide (last_seen_epoch self < now)
  then {| last_seen_epoch := now; budget_balance := Z.max (budget_balance self) free_tier |}
  else self.

Definition consume (self : ActorBudget) (now free_tier cost : Z) : option ActorBudget :=
  let normalised := normalise self now free_tier in
  if decide (cost ≤ budget_balance normalised)
  then Some {| last_seen_epoch := last_seen_epoch normalised;
               budget_balance := budget_balance normalised - cost |}
  else None.

Definition top_up (self : ActorBudget) (now free_tier amount : Z) : ActorBudget :=
  let normalised := normalise self now free_tier in
  {| last_seen_epoch := last_seen_epoch normalised;
     budget_balance := saturating_add 64 (budget_balance normalised) amount |}.

Definition ActorBudget_encode (self : ActorBudget) : list u8 :=
  push_cbe_uint (last_seen_epoch self) ++ push_cbe_uint (budget_balance self).

Definition ActorBudget_decode_at : reader ActorBudget :=
  last_seen_epoch ← read_uint;
  budget_balance ← read_uint;
  mret {| last_seen_epoch := last_seen_epoch; budget_balance := budget_balance |}.

Definition ActorBudget_decode (bs : list u8) : result ActorBudget BudgetDecodeError :=
  decode_all ActorBudget_decode_at bs.

(** ** The ledger *)

Abbreviation EpochBudgetState := (gmap Z ActorBudget).

Definition cell (self : EpochBudgetState) (actor : Z) : option ActorBudget := self !! actor.

(** [get(&actor).copied().unwrap_or_default()]. *)
Definition cell_or_default (self : EpochBudgetState) (actor : Z) : ActorBudget :=
  default ActorBudget_empty (cell self actor).

Definition ledger_current_budget (self : EpochBudgetState) (actor now free_tier : Z) : Z :=
  budget_balance (normalise (cell_or_default self actor) now free_tier).

Definition consume_in_place (self : EpochBudgetState) (actor now free_tier cost : Z)
  : bool * EpochBudgetState :=
  match consume (cell_or_default self actor) now free_tier cost with
  | Some updated => (true, <[actor := updated]> self)
  | None => (false, self)
  end.

Definition top_up_in_place (self : EpochBudgetState) (actor now free_tier amount : Z)
  : EpochBudgetState :=
  <[actor := top_up (cell_or_default self actor) now free_tier amount]> self.

Definition encode_pair (p : Z * ActorBudget) : list u8 :=
  push_cbe_uint p.1 ++ ActorBudget_encode p.2.

Definition EpochBudgetState_encode (self : EpochBudgetState) : list u8 :=
  CBE_TAG_MAP :: to_le_bytes 8 (Z.min (Z.of_nat (size self)) u64_max) ++
  (btree_iter self ≫= encode_pair).

Definition not_ascending (prev_key : option Z) (key : Z) : bool :=
  match prev_key with Some p => key <=? p | None => false end.

(** The loop over [0..count].  Every turn reads at least one head, so a buffer
    of [fuel] bytes never needs more turns than that. *)
Fixpoint decode_pairs (fuel : nat) (count : Z) (prev_key : option Z) (map : EpochBudgetState)
  : reader EpochBudgetState :=
  if decide (count ≤ 0) then mret map
  else
    match fuel with
    | O => fail UnexpectedEnd
    | S fuel =>
        key ← read_uint;
        if not_ascending prev_key key
        then fail (NonCanonical "epochBudgets keys must be strictly ascending"%string) else
        cell ← ActorBudget_decode_at;
        decode_pairs fuel (count - 1) (Some key) (<[key := cell]> map)
    end.

Definition EpochBudgetState_decode_at : reader EpochBudgetState := fun cur =>
  (count ← read_map_head;
   decode_pairs (length (bytes cur)) count None ∅) cur.

Definition EpochBudgetState_decode (bs : list u8) : result EpochBudgetState BudgetDecodeError :=
  decode_all EpochBudgetState_decode_at bs.

(** ** The projection of a signed action *)

Module Kind.
Inductive ActionBudgetKind : Type :=
| Ordinary
| DepositWithFee (recipient budget_grant : Z)
| TopUpActionBudget (gas_resource pool_actor gas_amount budget_increment : Z)
| TopUpActionBudgetFor (recipient gas_resource pool_actor gas_amount budget_increment : Z)
| ClaimBudgetRefund (gas_resource pool_actor budget_units wei_per_budget_unit : Z).
End Kind.
Abbreviation ActionBudgetKind := Kind.ActionBudgetKind.

Record SignedActionBudgetView : Type := { signer : Z; kind : ActionBudgetKind }.

(** The body of an action, read by its constructor tag. *)
Definition decode_kind (tag : Z) : reader ActionBudgetKind :=
  if decide (tag = 0) then
    skip_uint;; skip_uint;; skip_uint;; skip_amount;; mret Kind.Ordinary
  else if decide (tag = 13) then
    skip_uint;; skip_uint;; skip_amount;; skip_uint;; mret Kind.Ordinary
  else if decide (tag ∈ [1; 2; 5; 6; 7]) then
    skip_uint;; skip_uint;; skip_amount;; mret Kind.Ordinary
  else if decide (tag ∈ [3; 9; 11]) then
    skip_uint;; mret Kind.Ordinary
  else if decide (tag ∈ [4; 12]) then
    skip_uint;; skip_bytes;; mret Kind.Ordinary
  else if decide (tag = 14) then
    skip_uint;; skip_uint;; skip_amount;; skip_bytes;; mret Kind.Ordinary
  else if decide (tag = 16) then mret Kind.Ordinary
  else if decide (tag = 17) then
    skip_bytes;; skip_uint;; skip_uint;; skip_bytes;; mret Kind.Ordinary
  else if decide (tag = 18) then
    skip_bytes;; skip_uint;; skip_uint;; skip_uint;; mret Kind.Ordinary
  else if decide (tag = 19) then
    skip_uint;;
    recipient ← read_uint;
    skip_uint;; skip_amount;; skip_amount;;
    budget_grant ← read_uint;
    skip_uint;; skip_amount;;
    mret (Kind.DepositWithFee recipient budget_grant)
  else if decide (tag = 20) then
    gas_resource ← read_uint;
    gas_amount ← read_amount;
    budget_increment ← read_uint;
    pool_actor ← read_uint;
    mret (Kind.TopUpActionBudget gas_resource pool_actor gas_amount budget_increment)
  else if decide (tag = 21) then
    recipient ← read_uint;
    gas_resource ← read_uint;
    gas_amount ← read_amount;
    budget_increment ← read_uint;
    pool_actor ← read_uint;
    mret (Kind.TopUpActionBudgetFor recipient gas_resource pool_actor gas_amount
            budget_increment)
  else if decide (tag = 22) then
    gas_resource ← read_uint;
    budget_units ← read_uint;
    wei_per_budget_unit ← read_amount;
    pool_actor ← read_uint;
    mret (Kind.ClaimBudgetRefund gas_resource pool_actor budget_units wei_per_budget_unit)
  else if decide (tag = 24) then
    skip_uint;; skip_amount;; skip_uint;; skip_uint;; mret Kind.Ordinary
  else if decide (tag = 25) then
    skip_uint;; skip_uint;; skip_uint;; skip_amount;; skip_amount;; skip_uint;;
    mret Kind.Ordinary
  else if decide (tag ∈ [8; 10; 15]) then fail (UnsupportedActionTag tag)
  else fail (UnknownActionTag tag).

Definition decode_view_at : reader SignedActionBudgetView :=
  tag ← read_uint;
  kind ← decode_kind tag;
  signer ← read_uint;
  skip_uint;;
  skip_bytes;;
  mret {| signer := signer; kind := kind |}.

Definition decode_budget_view (bs : list u8)
  : result SignedActionBudgetView BudgetDecodeError :=
  decode_all decode_view_at bs.

(** ** What a reader accepts

    [cur_at cur rest]: the cursor stands before [rest], in a buffer no longer
    than a Rust slice can be ([isize::MAX] bytes).  [accepts p L]: reading with
    [p] succeeds with [a] exactly when what follows opens with a string [e] in
    [L a], and leaves the cursor behind it. *)

Definition cur_at (cur : CbeCursor) (rest : list u8) : Prop :=
  Z.of_nat (length (bytes cur)) < 2 ^ 63 ∧
  ∃ pre, bytes cur = pre ++ rest ∧ pos cur = Z.of_nat (length pre).

Record accepts {A} (p : reader A) (L : A → list u8 → Prop) : Prop := {
  accepts_sound cur rest a cur' :
    cur_at cur rest → p cur = Ok (a, cur') →
    ∃ e rest', rest = e ++ rest' ∧ L a e ∧ cur_at cur' rest' ∧ bytes cur' = bytes cur;
  accepts_complete cur e rest a :
    cur_at cur (e ++ rest) → L a e →
    ∃ cur', p cur = Ok (a, cur') ∧ cur_at cur' rest ∧ bytes cur' = bytes cur;
}.

Lemma cur_at_new bs : Z.of_nat (length bs) < 2 ^ 63 → cur_at (CbeCursor_new bs) bs.
Proof. intros ?. split; [done|]. by exists []. Qed.

Lemma cur_at_end cur rest : cur_at cur rest → is_at_end cur = true ↔ rest = [].
Proof.
  intros (_ & pre & Hb & Hp). unfold is_at_end. rewrite Hb, Hp, length_app, Z.leb_le.
  split; [|intros ->; cbn; lia]. destruct rest; [done|]. cbn. lia.
Qed.

Lemma decode_all_iff {A} (p : reader A) L bs a :
  accepts p L → Z.of_nat (length bs) < 2 ^ 63 → decode_all p bs = Ok a ↔ L a bs.
Proof.
  intros Hp Hlen. pose proof (cur_at_new bs Hlen) as Hc. unfold decode_all. split.
  - intros H. inv_binds. destruct x as [a' cur]. destruct (is_at_end cur) eqn:He; simplify_eq.
    destruct (accepts_sound _ _ Hp _ _ _ _ Hc H) as (e & rest' & -> & HL & Hc' & _).
    apply (cur_at_end _ _ Hc') in He as ->. by rewrite app_nil_r.
  - intros HL. rewrite <- (app_nil_r bs) in Hc at 2.
    destruct (accepts_complete _ _ Hp _ _ _ _ Hc HL) as (cur & -> & Hc' & _).
    cbn. by rewrite (proj2 (cur_at_end _ _ Hc') eq_refl).
Qed.

Lemma accepts_ext {A} (p : reader A) L L' :
  (∀ a e, L a e ↔ L' a e) → accepts p L → accepts p L'.
Proof.
  intros HL [Hs Hc]. split.
  - intros. edestruct Hs as (e & rest' & ? & ? & ?); [done..|]. exists e, rest'. naive_solver.
  - intros. eapply Hc; [done|]. by apply HL.
Qed.

Lemma accepts_ret {A} (a0 : A) : accepts (mret a0) (fun a e => a = a0 ∧ e = []).
Proof.
  split.
  - intros cur rest a cur' Hc [= <- <-]. by exists [], rest.
  - intros cur e rest a Hc [-> ->]. by exists cur.
Qed.

Lemma accepts_bind {A B} (p : reader A) (k : A → reader B) L M :
  accepts p L → (∀ a, accepts (k a) (M a)) →
  accepts (p ≫= k) (fun b e => ∃ a e1 e2, e = e1 ++ e2 ∧ L a e1 ∧ M a b e2).
Proof.
  intros [Ps Pc] Hk. split.
  - intros cur rest b cur'' Hc (a & cur' & H1 & H2)%stateful_bind_Ok.
    destruct (Ps _ _ _ _ Hc H1) as (e1 & rest1 & -> & HL & Hc1 & Hb1).
    destruct (accepts_sound _ _ (Hk a) _ _ _ _ Hc1 H2) as (e2 & rest2 & -> & HM & Hc2 & Hb2).
    exists (e1 ++ e2), rest2. rewrite app_assoc. split_and!; try done; [naive_solver|congruence].
  - intros cur e rest b Hc (a & e1 & e2 & -> & HL & HM). rewrite <- app_assoc in Hc.
    destruct (Pc _ _ _ _ Hc HL) as (cur1 & H1 & Hc1 & Hb1).
    destruct (accepts_complete _ _ (Hk a) _ _ _ _ Hc1 HM) as (cur2 & H2 & Hc2 & Hb2).
    exists cur2. rewrite (stateful_bind_step _ _ _ _ _ H1). split_and!; try done. congruence.
Qed.

Lemma accepts_fail {A} err : accepts (fail err : reader A) (fun _ _ => False).
Proof. by split. Qed.

Lemma accepts_decide {A} P `{Decision P} (p q : reader A) L M :
  accepts p L → accepts q M →
  accepts (if decide P then p else q) (fun a e => if decide P then L a e else M a e).
Proof. intros. by case_decide. Qed.

Lemma accepts_if {A} (b : bool) (p q : reader A) L M :
  accepts p L → accepts q M →
  accepts (if b then p else q) (fun a e => if b then L a e else M a e).
Proof. intros. by destruct b. Qed.

(** *** The four heads *)

Lemma accepts_head tag len err :
  1 ≤ len → len < 2 ^ 62 →
  accepts (read_head tag len err)
    (fun body e => e = tag :: body ∧ Z.of_nat (length body) = len - 1).
Proof.
  intros Hlen Hmax. split.
  - intros cur rest body cur' (Hb & pre & Hpre & Hpos) Hr. unfold read_head in Hr.
    apply result_bind_Ok in Hr as (e & He & Hr). apply result_bind_Ok in Hr as (h & Hh & Hr).
    unfold ok_or in He, Hh. destruct (checked_add _ _ _) as [e'|] eqn:Hadd; simplify_eq.
    destruct (slice _ _ _) as [h'|] eqn:Hs; simplify_eq.
    apply checked_add_Some in Hadd as [-> _]. apply slice_Some in Hs as (_ & Hle & Hl & Ht).
    rewrite Hpre, Hpos, Nat2Z.id, drop_app_length in Ht.
    destruct h as [|t body']; [done|]. case_decide; simplify_eq.
    match type of Ht with _ = take ?n _ => set (k := n) in Ht end.
    assert (Hsplit : rest = (tag :: body) ++ drop k rest) by (by rewrite Ht, take_drop).
    cbn in Hl. exists (tag :: body), (drop k rest). split_and!; [done|done|lia| |done].
    split; [done|]. exists (pre ++ tag :: body). cbn [bytes pos].
    rewrite <- app_assoc, <- Hsplit, length_app. cbn. split; [done|]. lia.
  - intros cur e rest body (Hb & pre & Hpre & Hpos) [-> Hl]. unfold read_head.
    rewrite Hpre, !length_app in Hb. cbn [length] in Hb.
    assert (checked_add 64 (pos cur) len = Some (pos cur + len)) as ->.
    { apply checked_add_Some. split; [done|]. lia. }
    cbn [ok_or result_bind]. rewrite Hpre, (slice_app pre (tag :: body) rest) by (cbn; lia).
    cbn [ok_or result_bind]. rewrite decide_True by done. eexists. split; [done|].
    split; [|done]. split; cbn [bytes pos]; [rewrite !length_app; cbn [length]; lia|].
    exists (pre ++ tag :: body). rewrite length_app, <- app_assoc. cbn [length app].
    split; [done|]. lia.
Qed.

(** A fixed-width little-endian head: the value and its bytes determine each
    other. *)
Lemma accepts_le_head tag n err :
  (n < 100)%nat →
  accepts (le ← read_head tag (1 + Z.of_nat n) err; mret (from_le_bytes le))
    (fun x e => e = tag :: to_le_bytes n x ∧ in_width (8 * Z.of_nat n) x).
Proof.
  intros Hn. eapply accepts_ext; [|apply accepts_bind; [apply accepts_head; lia|intros; apply accepts_ret]].
  intros x e. cbn. split.
  - intros (body & e1 & e2 & -> & [-> Hl] & -> & ->). rewrite app_nil_r.
    assert (length body = n) as <- by lia.
    by rewrite to_from_le_bytes; split; [|apply from_le_bytes_bound].
  - intros [-> Hx]. exists (to_le_bytes n x), (tag :: to_le_bytes n x), [].
    rewrite app_nil_r, to_le_bytes_length, from_to_le_bytes by done.
    split_and!; try done; lia.
Qed.

Definition uint_lang (x : Z) (e : list u8) : Prop := e = push_cbe_uint x ∧ in_u64 x.
Definition amount_lang (x : Z) (e : list u8) : Prop :=
  e = CBE_TAG_AMOUNT :: to_le_bytes 32 x ∧ in_u256 x.
Definition bytes_lang (bs e : list u8) : Prop :=
  e = CBE_TAG_BYTES :: to_le_bytes 8 (Z.of_nat (length bs)) ++ bs ∧
  in_u64 (Z.of_nat (length bs)).

Lemma accepts_read_uint : accepts read_uint uint_lang.
Proof. apply (accepts_le_head CBE_TAG_UINT 8). lia. Qed.

Lemma accepts_read_map_head :
  accepts read_map_head (fun x e => e = CBE_TAG_MAP :: to_le_bytes 8 x ∧ in_u64 x).
Proof. apply (accepts_le_head CBE_TAG_MAP 8). lia. Qed.

Lemma accepts_read_amount : accepts read_amount amount_lang.
Proof. apply (accepts_le_head CBE_TAG_AMOUNT 32). lia. Qed.

Lemma accepts_skip {A} (p : reader A) L :
  accepts p L → accepts (_ ← p; mret ()) (fun _ e => ∃ x, L x e).
Proof.
  intros Hp. eapply accepts_ext; [|apply accepts_bind; [exact Hp|intros; apply accepts_ret]].
  intros [] e. cbn. split.
  - intros (x & e1 & e2 & -> & HL & _ & ->). rewrite app_nil_r. eauto.
  - intros [x HL]. exists x, e, []. by rewrite app_nil_r.
Qed.

Lemma accepts_skip_uint : accepts skip_uint (fun _ e => ∃ x, uint_lang x e).
Proof. apply accepts_skip, accepts_read_uint. Qed.

Lemma accepts_skip_amount : accepts skip_amount (fun _ e => ∃ x, amount_lang x e).
Proof. apply accepts_skip, accepts_read_amount. Qed.

Lemma accepts_payload len :
  in_u64 len → accepts (skip_payload len) (fun _ e => Z.of_nat (length e) = len).
Proof.
  intros [Hlen _]. split.
  - intros cur rest [] cur' (Hb & pre & Hpre & Hpos) Hr. unfold skip_payload in Hr.
    apply result_bind_Ok in Hr as (e & He & Hr). unfold ok_or in He.
    destruct (checked_add _ _ _) as [e'|] eqn:Hadd; simplify_eq.
    apply checked_add_Some in Hadd as [-> _]. case_decide as Hd; simplify_eq.
    rewrite Hpre, length_app in Hd. exists (take (Z.to_nat len) rest), (drop (Z.to_nat len) rest).
    rewrite take_drop, length_take. split_and!; [done|lia| |done].
    split; [done|]. exists (pre ++ take (Z.to_nat len) rest). cbn [bytes pos].
    rewrite <- app_assoc, take_drop, length_app, length_take. split; [done|lia].
  - intros cur e rest [] (Hb & pre & Hpre & Hpos) Hl. unfold skip_payload.
    pose proof Hb as Hb'. rewrite Hpre, !length_app in Hb.
    assert (checked_add 64 (pos cur) len = Some (pos cur + len)) as ->.
    { apply checked_add_Some. split; [done|]. lia. }
    cbn [ok_or result_bind]. rewrite decide_False by (rewrite Hpre, !length_app; lia).
    eexists. split; [done|]. split; [|done]. split; [done|]. exists (pre ++ e). cbn [bytes pos].
    rewrite length_app, <- app_assoc. split; [done|lia].
Qed.

Lemma accepts_skip_bytes : accepts skip_bytes (fun _ e => ∃ bs, bytes_lang bs e).
Proof.
  unfold skip_bytes. split.
  - intros cur rest [] cur'' Hc (le & cur' & H1 & H2)%stateful_bind_Ok.
    destruct (accepts_sound _ _ (accepts_head CBE_TAG_BYTES HEAD_LEN ExpectedBytes
      ltac:(done) ltac:(done)) _ _ _ _ Hc H1)
      as (e1 & rest1 & -> & [-> Hl] & Hc1 & Hb1).
    unfold HEAD_LEN in Hl. assert (Hw : in_u64 (from_le_bytes le)).
    { pose proof (from_le_bytes_bound le) as Hw. by replace (length le) with 8%nat in Hw by lia. }
    destruct (accepts_sound _ _ (accepts_payload _ Hw) _ _ _ _ Hc1 H2)
      as (bs & rest2 & -> & Hbs & Hc2 & Hb2).
    exists ((CBE_TAG_BYTES :: le) ++ bs), rest2. rewrite app_assoc.
    split_and!; [done| |done|congruence]. exists bs. unfold bytes_lang. rewrite Hbs.
    replace 8%nat with (length le) by lia. by rewrite to_from_le_bytes.
  - intros cur e rest [] Hc [bs [-> Hw]].
    rewrite app_comm_cons, <- app_assoc in Hc.
    destruct (accepts_complete _ _
      (accepts_head CBE_TAG_BYTES HEAD_LEN ExpectedBytes ltac:(done) ltac:(done)) _ _ _
      (to_le_bytes 8 (Z.of_nat (length bs))) Hc) as (cur1 & H1 & Hc1 & Hb1).
    { by rewrite to_le_bytes_length. }
    destruct (accepts_complete _ _ (accepts_payload _ Hw) _ bs rest tt Hc1 eq_refl)
      as (cur2 & H2 & Hc2 & Hb2).
    exists cur2. rewrite (stateful_bind_step _ _ _ _ _ H1), from_to_le_bytes by done.
    split_and!; [done..|congruence].
Qed.

(** Compose the language of a reader along its definition. *)
Ltac accepts_tac :=
  lazymatch goal with
  | |- accepts (mret _) _ => apply accepts_ret
  | |- accepts (fail _) _ => apply accepts_fail
  | |- accepts (_ ≫= _) _ => eapply accepts_bind; [accepts_tac|intros ?; accepts_tac]
  | |- accepts (if decide _ then _ else _) _ => eapply accepts_decide; accepts_tac
  | |- accepts (if _ then _ else _) _ => eapply accepts_if; accepts_tac
  | |- _ => solve [eauto with accepts]
  end.

Create HintDb accepts.
#[export] Hint Resolve accepts_read_uint accepts_read_amount
  accepts_skip_uint accepts_skip_amount accepts_skip_bytes accepts_read_map_head : accepts.

(** Open every existential and conjunction of a composed language. *)
Ltac open_lang :=
  repeat match goal with
  | H : ∃ _, _ |- _ => destruct H as [? H]
  | H : _ ∧ _ |- _ => destruct H as [? ?]
  | H : uint_lang _ _ |- _ => unfold uint_lang in H
  | H : amount_lang _ _ |- _ => unfold amount_lang in H
  | H : False |- _ => destruct H
  end; simplify_eq.

(** Give the parts of a composed language, left to right. *)
Ltac give_lang :=
  repeat match goal with
  | |- ∃ _, _ => eexists
  | |- _ ∧ _ => split
  | |- uint_lang _ _ => split
  | |- amount_lang _ _ => split
  end.

(** *** The cell *)

Definition cell_typed (c : ActorBudget) : Prop :=
  in_u64 (last_seen_epoch c) ∧ in_u64 (budget_balance c).

Lemma accepts_cell :
  accepts ActorBudget_decode_at (fun c e => e = ActorBudget_encode c ∧ cell_typed c).
Proof.
  eapply accepts_ext; [|unfold ActorBudget_decode_at; accepts_tac].
  intros [l b] e. unfold ActorBudget_encode, cell_typed. cbn. split.
  - intros. open_lang. by rewrite app_nil_r.
  - intros [-> [? ?]]. give_lang; try done. by rewrite app_nil_r.
Qed.

(** *** The policy *)

Definition policy_ok (p : BudgetPolicy) : Prop :=
  in_u64 (free_tier p) ∧ in_u64 (action_cost p) ∧ in_u64 (current_epoch p) ∧
  1 ≤ action_cost p.

Lemma accepts_policy :
  accepts BudgetPolicy_decode_at (fun p e => e = BudgetPolicy_encode p ∧ policy_ok p).
Proof.
  eapply accepts_ext; [|unfold BudgetPolicy_decode_at; accepts_tac].
  intros [f c ep] e. unfold BudgetPolicy_encode, policy_ok. cbn. split.
  - intros. open_lang. case_decide; [done|]. open_lang. case_decide; [done|]. open_lang.
    rewrite !app_nil_r. unfold in_width in *.
    split_and!; try done; lia.
  - intros (-> & ? & ? & ? & ?). exists 0. eexists _, _.
    split; [done|]. split; [done|]. rewrite decide_False by lia.
    give_lang; try done. rewrite decide_False by lia. give_lang; try done.
    by rewrite app_nil_r.
Qed.

(** *** The ledger *)

Definition pair_typed (p : Z * ActorBudget) : Prop := in_u64 p.1 ∧ cell_typed p.2.

Definition ascending_from (prev : option Z) (l : list (Z * ActorBudget)) : Prop :=
  StronglySorted key_lt l ∧ ∀ p q, prev = Some p → q ∈ l → p < q.1.

Definition insert_all (m : EpochBudgetState) (l : list (Z * ActorBudget)) : EpochBudgetState :=
  foldl (fun m p => <[p.1 := p.2]> m) m l.

Definition pairs_lang (fuel : nat) (count : Z) (prev : option Z) (m m' : EpochBudgetState)
    (e : list u8) : Prop :=
  ∃ l, e = l ≫= encode_pair ∧ Z.of_nat (length l) = Z.max 0 count ∧ (length l ≤ fuel)%nat ∧
    ascending_from prev l ∧ Forall pair_typed l ∧ m' = insert_all m l.

Lemma encode_pairs_cons k c (l : list (Z * ActorBudget)) :
  ((k, c) :: l) ≫= encode_pair =
  push_cbe_uint k ++ ActorBudget_encode c ++ (l ≫= encode_pair).
Proof. by rewrite app_assoc. Qed.

Lemma not_ascending_false prev key :
  not_ascending prev key = false ↔ ∀ p, prev = Some p → p < key.
Proof.
  destruct prev as [p|]; cbn; [|naive_solver].
  rewrite Z.leb_gt. naive_solver.
Qed.

Lemma ascending_from_cons prev k c l :
  ascending_from prev ((k, c) :: l) ↔
  not_ascending prev k = false ∧ ascending_from (Some k) l.
Proof.
  rewrite not_ascending_false. unfold ascending_from. split.
  - intros [Hs Hp]. apply StronglySorted_inv in Hs as [Hs Hk]. rewrite Forall_forall in Hk.
    split_and!; [|done|].
    + intros p ->. apply (Hp p (k, c)); [done|]. by left.
    + intros p q [= <-] Hq. apply (Hk q Hq).
  - intros (Hp & Hs & Hk). split.
    + constructor; [done|]. rewrite Forall_forall. intros q Hq. by apply (Hk k q).
    + intros p q -> [->|Hq]%elem_of_cons; [by apply Hp|].
      specialize (Hp p eq_refl). specialize (Hk k q eq_refl Hq). lia.
Qed.

Lemma accepts_pairs fuel count prev m :
  accepts (decode_pairs fuel count prev m) (pairs_lang fuel count prev m).
Proof.
  revert count prev m. induction fuel as [|fuel IH]; intros count prev m.
  - eapply accepts_ext; [|cbn; accepts_tac]. intros m' e. cbn. case_decide as Hc; split.
    + intros [-> ->]. exists []. split_and!; [done|cbn; lia|done| |done..].
      split; [constructor|set_solver].
    + intros (l & -> & Hl & Hf & _ & _ & ->). destruct l; [done|cbn in Hf; lia].
    + done.
    + intros (l & -> & Hl & Hf & _). destruct l; cbn in *; lia.
  - pose proof (fun k c => IH (count - 1) (Some k) (<[k:=c]> m)) as IHm.
    eapply accepts_ext; [|cbn [decode_pairs]; eapply accepts_decide; [accepts_tac|];
      eapply accepts_bind; [accepts_tac|intros k]; eapply accepts_if; [accepts_tac|];
      eapply accepts_bind; [apply accepts_cell|intros c; apply IHm]].
    intros m' e. cbn. case_decide as Hc; split.
    + intros [-> ->]. exists []. split_and!; [done|cbn; lia|cbn; lia| |done..].
      split; [constructor|set_solver].
    + intros (l & -> & Hl & Hf & _ & _ & ->). destruct l; [done|cbn in Hl; lia].
    + intros (k & e1 & e2 & -> & [-> Hk] & H). destruct (not_ascending prev k) eqn:Ha; [done|].
      destruct H as (c & e3 & e4 & -> & [-> Hct] & l & -> & Hl & Hf & Has & Hty & ->).
      exists ((k, c) :: l). rewrite encode_pairs_cons. cbn [length]. split_and!; [done|lia|lia|by apply ascending_from_cons|by constructor|done].
    + intros (l & -> & Hl & Hf & Has & Hty & ->). destruct l as [|[k c] l]; [cbn in Hl; lia|].
      apply ascending_from_cons in Has as [Hna Has]. apply Forall_cons in Hty as [[Hk Hct] Hty].
      cbn [length] in Hl, Hf. exists k, (push_cbe_uint k), (ActorBudget_encode c ++ (l ≫= encode_pair)).
      rewrite Hna. split; [apply encode_pairs_cons|]. split; [done|].
      exists c, (ActorBudget_encode c), (l ≫= encode_pair). split_and!; [done..|].
      exists l. split_and!; try done; lia.
Qed.

Lemma insert_all_union (l : list (Z * ActorBudget)) m :
  NoDup l.*1 → insert_all m l = list_to_map l ∪ m.
Proof.
  revert m. induction l as [|[k c] l IH]; intros m Hnd; cbn in *.
  - by rewrite map_empty_union.
  - apply NoDup_cons in Hnd as [Hk Hnd]. unfold insert_all in *. cbn.
    rewrite IH by done. rewrite <- insert_union_r, insert_union_l; [done|].
    by apply not_elem_of_list_to_map_1.
Qed.

Lemma insert_all_sorted (l : list (Z * ActorBudget)) :
  StronglySorted key_lt l → insert_all ∅ l = list_to_map l.
Proof. intros Hl. by rewrite insert_all_union, map_union_empty by by apply key_lt_NoDup. Qed.

Definition ledger_typed (m : EpochBudgetState) : Prop :=
  map_Forall (fun k c => in_u64 k ∧ cell_typed c) m.

Lemma ledger_typed_iter m : ledger_typed m ↔ Forall pair_typed (btree_iter m).
Proof.
  rewrite btree_iter_perm. unfold ledger_typed. rewrite map_Forall_to_list.
  apply Forall_iff. by intros [k c].
Qed.

Lemma encode_pairs_length (l : list (Z * ActorBudget)) :
  length (l ≫= encode_pair) = (27 * length l)%nat.
Proof.
  induction l as [|[k c] l IH]; [done|]. rewrite encode_pairs_cons.
  unfold ActorBudget_encode. rewrite !length_app, IH. unfold push_cbe_uint. cbn. lia.
Qed.

Definition ledger_lang (fuel : nat) (m : EpochBudgetState) (e : list u8) : Prop :=
  e = EpochBudgetState_encode m ∧ ledger_typed m ∧ (size m ≤ fuel)%nat ∧
  in_u64 (Z.of_nat (size m)).

(** The map head and the loop together. *)
Lemma accepts_ledger fuel :
  accepts (count ← read_map_head; decode_pairs fuel count None ∅) (ledger_lang fuel).
Proof.
  eapply accepts_ext; [|eapply accepts_bind; [apply accepts_read_map_head|intros; apply accepts_pairs]].
  intros m e. cbn. unfold ledger_lang, EpochBudgetState_encode. split.
  - intros (n & e1 & e2 & -> & [-> Hn] & l & -> & Hl & Hf & [Hs _] & Hty & ->).
    rewrite insert_all_sorted by done.
    rewrite ledger_typed_iter, <- btree_iter_length, btree_iter_unique by done.
    unfold in_width in *. rewrite Z.min_l by lia.
    replace (Z.of_nat (length l)) with n by lia. done.
  - intros (-> & Hty & Hf & Hn). rewrite ledger_typed_iter in Hty.
    exists (Z.of_nat (size m)). eexists _, _. unfold in_width in Hn. rewrite Z.min_l by lia.
    split; [by rewrite app_comm_cons|]. split; [by unfold in_width|].
    exists (btree_iter m). rewrite btree_iter_length. pose proof (btree_iter_sorted m) as Hs.
    split_and!; [done|lia|done| |done|by rewrite insert_all_sorted, btree_iter_map].
    split; [done|]. by intros ? ? [=].
Qed.

(** ** Correctness *)

(** The ledger, cell and policy codecs are canonical in both directions.  A
    buffer decodes to a value exactly when it is that value's encoding and the
    value is in range (a policy's cost being at least one): decoding inverts
    encoding, no two byte strings denote the same value, and unsorted,
    truncated, or over-long buffers are all refused. *)
Theorem budget_codecs_canonical (bs : list u8) :
  Z.of_nat (length bs) < 2 ^ 63 →
  (∀ m, EpochBudgetState_decode bs = Ok m ↔ bs = EpochBudgetState_encode m ∧ ledger_typed m) ∧
  (∀ c, ActorBudget_decode bs = Ok c ↔ bs = ActorBudget_encode c ∧ cell_typed c) ∧
  (∀ p, BudgetPolicy_decode bs = Ok p ↔ bs = BudgetPolicy_encode p ∧ policy_ok p).
Proof.
  intros Hlen. split_and!; intros x.
  - unfold EpochBudgetState_decode.
    pose proof (decode_all_iff _ _ bs x (accepts_ledger (length bs)) Hlen) as Hiff.
    unfold decode_all, EpochBudgetState_decode_at in *. cbn [bytes CbeCursor_new].
    rewrite Hiff. unfold ledger_lang. split; [tauto|]. intros [Heq Hty].
    assert (Hsz : (27 * size x ≤ length bs)%nat).
    { rewrite Heq. unfold EpochBudgetState_encode. cbn [length].
      rewrite length_app, encode_pairs_length, btree_iter_length. lia. }
    unfold in_width. split_and!; [done|done|lia|lia|lia].
  - by rewrite (decode_all_iff _ _ bs x accepts_cell Hlen).
  - by rewrite (decode_all_iff _ _ bs x accepts_policy Hlen).
Qed.

Definition demo_ledger : EpochBudgetState :=
  <[7 := {| last_seen_epoch := 2; budget_balance := 40 |}]>
  (<[3 := {| last_seen_epoch := 1; budget_balance := 9 |}]> ∅).

Lemma budget_codecs_canonical_witness :
  EpochBudgetState_decode (EpochBudgetState_encode demo_ledger) = Ok demo_ledger ∧
  EpochBudgetState_decode (EpochBudgetState_encode demo_ledger ++ [byte_of 0]) =
    Err (TrailingBytes 1).
Proof.
  split; [|vm_compute; reflexivity].
  destruct (budget_codecs_canonical (EpochBudgetState_encode demo_ledger)) as [H _].
  - vm_compute. reflexivity.
  - apply H. split; [reflexivity|]. unfold ledger_typed, demo_ledger.
    repeat (apply map_Forall_insert_2; [done|]). apply map_Forall_empty.
Defined.
