(* ===== verification/BudgetView.v ===== *)
(** * The wire between the ingestor and the host

    The two ends of one format, from two crates: [encode_signed_action] of
    [src/runtime/knomosis-l1-ingest/src/encoding.rs] writes a signed action, and
    [decode_budget_view] of [src/runtime/knomosis-host/src/budget.rs] reads back
    the part the budget gate consults.  The theorem says on which byte strings they
    agree, and which one form the host reads and the ingestor never writes. *)

From Stdlib Require Import ZArith Lia.
From stdpp Require Import base numbers list gmap.
From S2P Require Import Prelude Encoding BudgetCodec.

Local Open Scope Z_scope.

(** What the gate should see of an action. *)
Definition kind_of (a : Action) : ActionBudgetKind :=
  match a with
  | DepositWithFee _ recipient _ _ _ budget_grant _ _ =>
      Kind.DepositWithFee recipient budget_grant
  | TopUpActionBudget gas_resource gas_amount budget_increment pool_actor =>
      Kind.TopUpActionBudget gas_resource pool_actor gas_amount budget_increment
  | TopUpActionBudgetFor recipient gas_resource gas_amount budget_increment pool_actor =>
      Kind.TopUpActionBudgetFor recipient gas_resource pool_actor gas_amount budget_increment
  | ClaimBudgetRefund gas_resource budget_units wei_per_budget_unit pool_actor =>
      Kind.ClaimBudgetRefund gas_resource pool_actor budget_units wei_per_budget_unit
  | _ => Kind.Ordinary
  end.

(** ** Readers of field sequences *)

Definition fields_lang {A} (S : A → list field → Prop) (a : A) (e : list u8) : Prop :=
  ∃ fs, S a fs ∧ Forall field_ok fs ∧ e = enc_fields fs.

Definition freads {A} (p : reader A) (S : A → list field → Prop) : Prop :=
  accepts p (fields_lang S).

Lemma freads_ext {A} (p : reader A) S S' :
  (∀ a fs, S a fs ↔ S' a fs) → freads p S → freads p S'.
Proof. intros HS. apply accepts_ext. intros a e. unfold fields_lang. naive_solver. Qed.

Lemma freads_ret {A} (a0 : A) : freads (mret a0) (fun a fs => a = a0 ∧ fs = []).
Proof.
  eapply accepts_ext; [|apply accepts_ret]. intros a e. unfold fields_lang. split.
  - intros [-> ->]. by exists [].
  - by intros (? & [-> ->] & _ & ->).
Qed.

Lemma freads_bind {A B} (p : reader A) (k : A → reader B) S T :
  freads p S → (∀ a, freads (k a) (T a)) →
  freads (p ≫= k) (fun b fs => ∃ a fs1 fs2, S a fs1 ∧ T a b fs2 ∧ fs = fs1 ++ fs2).
Proof.
  intros Hp Hk. eapply accepts_ext; [|apply accepts_bind; [exact Hp|exact Hk]].
  intros b e. cbn. unfold fields_lang. split.
  - intros (a & e1 & e2 & -> & (fs1 & HS & Hf1 & ->) & fs2 & HT & Hf2 & ->).
    exists (fs1 ++ fs2). rewrite enc_fields_app, Forall_app. naive_solver.
  - intros (fs & (a & fs1 & fs2 & HS & HT & ->) & [Hf1 Hf2]%Forall_app & ->).
    exists a, (enc_fields fs1), (enc_fields fs2). rewrite enc_fields_app. naive_solver.
Qed.

Lemma freads_fail {A} err : freads (fail err : reader A) (fun _ _ => False).
Proof. eapply accepts_ext; [|apply accepts_fail]. unfold fields_lang. naive_solver. Qed.

(** One field. *)
Lemma freads_field {A} (p : reader A) (f : A → field) :
  accepts p (fun a e => e = enc_field (f a) ∧ field_ok (f a)) →
  freads p (fun a fs => fs = [f a]).
Proof.
  apply accepts_ext. intros a e. unfold fields_lang, enc_fields. split.
  - intros [-> Hok]. exists [f a]. cbn. rewrite app_nil_r. auto.
  - intros (? & -> & [Hok _]%Forall_cons & ->). cbn. by rewrite app_nil_r.
Qed.

Lemma freads_skip {A B} (p : reader A) (f : B → field) :
  accepts p (fun a e => ∃ b, e = enc_field (f b) ∧ field_ok (f b)) →
  freads p (fun _ fs => ∃ b, fs = [f b]).
Proof.
  apply accepts_ext. intros a e. unfold fields_lang, enc_fields. split.
  - intros (b & -> & Hok). exists [f b]. cbn. rewrite app_nil_r. eauto.
  - intros (? & [b ->] & [Hok _]%Forall_cons & ->). exists b. cbn. by rewrite app_nil_r.
Qed.

Lemma freads_read_uint : freads read_uint (fun x fs => fs = [FUint x]).
Proof. apply (freads_field _ FUint), accepts_read_uint. Qed.
Lemma freads_read_amount : freads read_amount (fun x fs => fs = [FAmount x]).
Proof. apply (freads_field _ FAmount), accepts_read_amount. Qed.
Lemma freads_skip_uint : freads skip_uint (fun _ fs => ∃ x, fs = [FUint x]).
Proof. apply (freads_skip _ FUint), accepts_skip_uint. Qed.
Lemma freads_skip_amount : freads skip_amount (fun _ fs => ∃ x, fs = [FAmount x]).
Proof. apply (freads_skip _ FAmount), accepts_skip_amount. Qed.
Lemma freads_skip_bytes : freads skip_bytes (fun _ fs => ∃ bs, fs = [FBytes bs]).
Proof. apply (freads_skip _ FBytes), accepts_skip_bytes. Qed.

Create HintDb freads.
#[export] Hint Resolve freads_read_uint freads_read_amount freads_skip_uint
  freads_skip_amount freads_skip_bytes : freads.

Ltac freads_tac :=
  lazymatch goal with
  | |- freads (mret _) _ => apply freads_ret
  | |- freads (fail _) _ => apply freads_fail
  | |- freads (_ ≫= _) _ => eapply freads_bind; [freads_tac|intros ?; freads_tac]
  | |- _ => solve [eauto with freads]
  end.

(** ** The body of an action *)

Definition body_of (t : Z) (k : ActionBudgetKind) (fs : list field) : Prop :=
  ∃ a, tag a = t ∧ kind_of a = k ∧ fields a = FUint t :: fs.

(** The fields of an action with a given tag, from its reader. *)
Ltac body_tac :=
  eapply freads_ext; [|freads_tac]; intros k fs; split;
  [ intros; repeat match goal with
    | H : ∃ _, _ |- _ => destruct H as [? H]
    | H : _ ∧ _ |- _ => destruct H as [? ?]
    end; subst; unfold body_of; cbn
  | intros ([] & Ht & <- & Hf); try discriminate Ht; unfold fields in Hf; simplify_eq; cbn;
    repeat match goal with |- ∃ _, _ => eexists | |- _ ∧ _ => split end; reflexivity ].

Lemma freads_kind t : freads (decode_kind t) (body_of t).
Proof.
  unfold decode_kind. repeat case_decide; try subst t.
  - body_tac. eexists (Transfer _ _ _ _). done.
  - body_tac. eexists (Deposit _ _ _ _). done.
  - assert (t = 1 ∨ t = 2 ∨ t = 5 ∨ t = 6 ∨ t = 7) as [->|[->|[->|[->| ->]]]] by set_solver.
    + body_tac. eexists (Mint _ _ _). done.
    + body_tac. eexists (Burn _ _ _). done.
    + body_tac. eexists (Reward _ _ _). done.
    + body_tac. eexists (DistributeOthers _ _ _). done.
    + body_tac. eexists (ProportionalDilute _ _ _). done.
  - assert (t = 3 ∨ t = 9 ∨ t = 11) as [->|[->| ->]] by set_solver.
    + body_tac. eexists (FreezeResource _). done.
    + body_tac. eexists (DisputeWithdraw _). done.
    + body_tac. eexists (Rollback _). done.
  - assert (t = 4 ∨ t = 12) as [->| ->] by set_solver.
    + body_tac. eexists (ReplaceKey _ _). done.
    + body_tac. eexists (RegisterIdentity _ _). done.
  - body_tac. eexists (Withdraw _ _ _ _). done.
  - body_tac. eexists RevokeLocalPolicy. done.
  - body_tac. eexists (FaultProofChallenge _ _ _ _). done.
  - body_tac. eexists (FaultProofResolution _ _ _ _). done.
  - body_tac. eexists (DepositWithFee _ _ _ _ _ _ _ _). done.
  - body_tac. eexists (TopUpActionBudget _ _ _ _). done.
  - body_tac. eexists (TopUpActionBudgetFor _ _ _ _ _). done.
  - body_tac. eexists (ClaimBudgetRefund _ _ _ _). done.
  - body_tac. eexists (ReclaimAmmReserves _ _ _ _). done.
  - body_tac. eexists (ReserveSwap _ _ _ _ _ _). done.
  - eapply freads_ext; [|apply freads_fail]. intros k fs. split; [done|].
    intros ([] & Ht & _); cbn in Ht; subst t; set_solver.
  - eapply freads_ext; [|apply freads_fail]. intros k fs. split; [done|].
    intros ([] & Ht & _); cbn in Ht; subst t; set_solver.
Qed.

(** ** The whole message *)

Definition view_of (v : SignedActionBudgetView) (fs : list field) : Prop :=
  ∃ a nonce sig, kind_of a = kind v ∧
    fs = fields a ++ [FUint (signer v); FUint nonce; FBytes sig].

Lemma fields_head a : ∃ fs, fields a = FUint (tag a) :: fs.
Proof. unfold fields. eauto. Qed.

Lemma freads_view : freads decode_view_at view_of.
Proof.
  eapply freads_ext; [|unfold decode_view_at; eapply freads_bind; [freads_tac|intros t];
    eapply freads_bind; [apply freads_kind|intros k; freads_tac]].
  intros v fs. unfold view_of, body_of. split.
  - intros (t & fs1 & fs2 & -> & (k & fs3 & fs4 & (a & Ha & Hk & Hf) & H & ->) & ->).
    destruct H as (s & fs5 & fs6 & -> & ([] & fs7 & fs8 & [n ->] & H & ->) & ->).
    destruct H as ([] & fs9 & fs10 & [sig ->] & [-> ->] & ->).
    exists a, n, sig. split; [done|]. rewrite Hf. done.
  - intros (a & n & sig & Hk & ->). destruct (fields_head a) as [fs Hfs]. destruct v as [s k].
    exists (tag a), [FUint (tag a)], (fs ++ [FUint s; FUint n; FBytes sig]).
    split; [done|]. split; [|by rewrite Hfs]. exists k, fs, [FUint s; FUint n; FBytes sig].
    split; [by exists a|]. split; [|done]. exists s, [FUint s], [FUint n; FBytes sig].
    split; [done|]. split; [|done]. exists (), [FUint n], [FBytes sig].
    split; [by exists n|]. split; [|done]. exists (), [FBytes sig], [].
    split; [by exists sig|]. done.
Qed.

Lemma encode_signed_action_Ok a s n sig :
  Forall field_ok (fields a ++ [FUint s; FUint n; FBytes sig]) →
  encode_signed_action a s n sig =
    Ok (enc_fields (fields a ++ [FUint s; FUint n; FBytes sig])).
Proof.
  intros [Ha Hr]%Forall_app. rewrite !Forall_cons in Hr. destruct Hr as (Hs & Hn & Hb & _).
  unfold encode_signed_action. rewrite encode_action_fields by done. cbn [result_bind].
  unfold encode_nonce. rewrite encode_u128_checked_Ok by done. cbn [result_bind].
  rewrite encode_byte_string_Ok by done. cbn [result_bind].
  rewrite enc_fields_app. do 2 f_equal. unfold enc_fields. cbn. by rewrite app_nil_r.
Qed.

Lemma encode_signed_action_fits a s n sig bs :
  action_typed a → encode_signed_action a s n sig = Ok bs → game_id_fits a.
Proof.
  intros Ht H. unfold encode_signed_action in H. apply result_bind_Ok in H as (o & Ho & _).
  by apply encode_action_inv in Ho as (_ & _ & ?).
Qed.

Lemma encode_signed_action_bytes a s n sig bs :
  encode_signed_action a s n sig = Ok bs → in_u64 (Z.of_nat (length sig)).
Proof.
  unfold encode_signed_action. intros H. inv_binds.
  by match goal with H : encode_byte_string _ = Ok _ |- _ => apply encode_byte_string_inv in H as [_ ?] end.
Qed.

(** A [Withdraw] whose recipient is not an address: the reader skips the recipient
    as a byte string of any length. *)
Definition misfit_withdraw (s : Z) (fs : list field) : Prop :=
  ∃ r from x recipient nonce sig, length recipient ≠ 20%nat ∧
    fs = [FUint 14; FUint r; FUint from; FAmount x; FBytes recipient; FUint s; FUint nonce; FBytes sig].

(** The ranges of an action's fields are those of its types, addresses apart. *)
Lemma fields_typed a :
  Forall field_ok (fields a) →
  action_typed a ∧ game_id_fits a ∨ ∃ r s x l, a = Withdraw r s x l ∧ length l ≠ 20%nat.
Proof.
  intros Hf. unfold fields in Hf. destruct a; cbn [tag] in Hf; rewrite ?Forall_cons in Hf; cbn [field_ok] in Hf;
    destruct_and?; try (left; split; cbn; done).
  - destruct (decide (length recipient_l1 = 20%nat)); [left; by cbn|right; by repeat eexists].
  - left. split; cbn; [|done]. unfold in_width in *. split_and!; lia.
Qed.

(** No action of the Rust types is written as a misfit. *)
Lemma misfit_not_encoded a s n sig t fs :
  action_typed a → in_u64 s → in_u64 n → misfit_withdraw t fs → Forall field_ok fs →
  encode_signed_action a s n sig ≠ Ok (enc_fields fs).
Proof.
  intros Hty Hs Hn (r & f & x & l & n' & sig' & Hl & ->) Hok He.
  pose proof (encode_signed_action_bytes _ _ _ _ _ He) as Hb.
  assert (Hf : Forall field_ok (fields a ++ [FUint s; FUint n; FBytes sig])).
  { rewrite Forall_app, !Forall_cons, Forall_nil. split; [|done]. apply fields_ok; [done|]. by eapply encode_signed_action_fits. }
  rewrite encode_signed_action_Ok in He by done.
  match type of He with Ok ?x = Ok ?y => assert (He' : x = y) by congruence end. clear He.
  assert (Hw : [FUint 14; FUint r; FUint f; FAmount x; FBytes l; FUint t; FUint n'; FBytes sig'] =
    fields (Withdraw r f x l) ++ [FUint t; FUint n'; FBytes sig']) by done.
  rewrite Hw in He', Hok. clear Hw. apply Forall_app in Hf as [Ha _], Hok as [Hw _]. rewrite !enc_fields_app in He'.
  apply fields_prefix_free in He' as [-> _]; [|done..]. cbn in Hty. tauto.
Qed.

(** ** Correctness *)

(** C11: the host reads what the ingestor writes, and where it reads more.
    [decode_budget_view] succeeds with a view if and only if the buffer is what the
    ingestor's encoder writes for some action of the Rust types, with the view's
    signer and the projection of that action, or it is a [Withdraw] whose recipient
    is a byte string of another length than an address has, which no action encodes
    to.  So the cursor never drifts onto a wrong field, and truncated, padded or
    mistagged buffers are refused. *)
Theorem decode_budget_view_exact bs v :
  Z.of_nat (length bs) < 2 ^ 63 →
  (decode_budget_view bs = Ok v ↔
    (∃ a nonce sig, action_typed a ∧ in_u64 (signer v) ∧ in_u64 nonce ∧
       encode_signed_action a (signer v) nonce sig = Ok bs ∧ kind_of a = kind v) ∨
    (kind v = Kind.Ordinary ∧ ∃ fs, misfit_withdraw (signer v) fs ∧ Forall field_ok fs ∧ bs = enc_fields fs)) ∧
  (∀ fs a s nonce sig, misfit_withdraw (signer v) fs → Forall field_ok fs → action_typed a → in_u64 s → in_u64 nonce →
    encode_signed_action a s nonce sig ≠ Ok (enc_fields fs)).
Proof.
  intros Hlen. split; [|intros; by eapply misfit_not_encoded]. unfold decode_budget_view.
  rewrite (decode_all_iff _ _ bs v freads_view Hlen). unfold fields_lang, view_of. split.
  - intros (fs & (a & n & sig & Hk & ->) & Hf & ->). pose proof Hf as [Ha Hr]%Forall_app.
    destruct (fields_typed a Ha) as [[Hty _]|(r & s & x & l & -> & Hl)].
    + left. exists a, n, sig. rewrite encode_signed_action_Ok by done. rewrite !Forall_cons in Hr. tauto.
    + right. split; [done|]. eexists. split; [by exists r, s, x, l, n, sig|]. done.
  - intros [(a & n & sig & Hty & Hs & Hn & He & Hk)|(Hk & fs & (r & f & x & l & n & sig & _ & ->) & Hf & ->)].
    + pose proof (encode_signed_action_bytes _ _ _ _ _ He) as Hb.
      assert (Hf : Forall field_ok (fields a ++ [FUint (signer v); FUint n; FBytes sig])).
      { rewrite Forall_app, !Forall_cons, Forall_nil. split; [|done].
        apply fields_ok; [done|]. by eapply encode_signed_action_fits. }
      rewrite encode_signed_action_Ok in He by done. injection He as <-.
      eexists. split; [by exists a, n, sig|done].
    + eexists. split; [|split; [exact Hf|done]]. by exists (Withdraw r f x l), n, sig.
Qed.

(** A buffer that opens with a tag the gate does not model is refused with
    an error that names the tag, whatever follows: the nested-body tags 8, 10
    and 15 as unsupported, and the retired tag 23 and everything above 25 as
    unknown. *)
Theorem decode_budget_view_refuses t rest :
  in_u64 t → Z.of_nat (length (push_cbe_uint t ++ rest)) < 2 ^ 63 →
  (t ∈ [8; 10; 15] → decode_budget_view (push_cbe_uint t ++ rest) = Err (UnsupportedActionTag t)) ∧
  (t = 23 ∨ 25 < t → decode_budget_view (push_cbe_uint t ++ rest) = Err (UnknownActionTag t)).
Proof.
  intros Ht Hlen. pose proof (cur_at_new _ Hlen) as Hc.
  destruct (accepts_complete _ _ accepts_read_uint _ _ _ t Hc) as (cur & Hr & _); [done|].
  assert (Hd : decode_budget_view (push_cbe_uint t ++ rest) =
    match decode_kind t cur with Err e => Err e | Ok _ => decode_budget_view (push_cbe_uint t ++ rest) end).
  { unfold decode_budget_view, decode_all, decode_view_at.
    rewrite (stateful_bind_step _ _ _ _ _ Hr).
    destruct (decode_kind t cur) as [[k c]|e] eqn:Hk; [done|].
    unfold mbind at 1, stateful_bind at 1. by rewrite Hk. }
  split; intros Hcase; rewrite Hd; unfold decode_kind;
    repeat (rewrite decide_False by (rewrite ?elem_of_cons, ?elem_of_nil in *; lia)).
  - by rewrite decide_True.
  - done.
Qed.

(** ** Witnesses *)

Definition demo_action : Action := TopUpActionBudgetFor 9 0 (2 ^ 200) 50 1.
Definition demo_bytes : list u8 :=
  match encode_signed_action demo_action 4 17 (replicate 64 (byte_of 3)) with
  | Ok bs => bs
  | Err _ => []
  end.
Definition demo_view : SignedActionBudgetView :=
  {| signer := 4; kind := Kind.TopUpActionBudgetFor 9 0 1 (2 ^ 200) 50 |}.

Lemma decode_budget_view_exact_witness : decode_budget_view demo_bytes = Ok demo_view.
Proof.
  destruct (decode_budget_view_exact demo_bytes demo_view) as [H _].
  - vm_compute. reflexivity.
  - apply H. left. exists demo_action, 17, (replicate 64 (byte_of 3)).
    split; [done|]. split; [done|]. split; [done|]. split; [vm_compute; reflexivity|reflexivity].
Defined.

Lemma decode_budget_view_refuses_witness :
  decode_budget_view (push_cbe_uint 23 ++ [byte_of 1]) = Err (UnknownActionTag 23).
Proof.
  destruct (decode_budget_view_refuses 23 [byte_of 1]) as [_ H].
  - done.
  - vm_compute. reflexivity.
  - apply H. left. reflexivity.
Defined.
