(* ===== verification/BudgetGate.v ===== *)
(** * The budget-admission gate

    Models the second part of [src/runtime/knomosis-host/src/budget.rs]: the
    rejections, the gate's state, [evaluate] and [admit].

    [evaluate] is one Rust function; here its safety checks, its debit and its
    grant are the definitions [checks], [refund_extra] and [apply_grant], in the
    order the function runs them.  A [&mut self] method returns the gate it
    leaves behind. *)

From Stdlib Require Import ZArith Lia.
From Stdlib Require Strings.String.
From stdpp Require Import base numbers list gmap.
From S2P Require Import Prelude BudgetCodec.
Import String.StringSyntax.
Delimit Scope string_scope with string.

Local Open Scope Z_scope.

Inductive GateRejection : Type :=
| InsufficientBudget
| BridgeActorTopUp
| SelfPoolTopUp
| ZeroGasTopUp
| SelfRecipientDelegatedTopUp
| TopUpNonCanonicalPool
| TopUpNonCanonicalResource
| TopUpBudgetCeilingExceeded
| NonBridgeDepositWithFee
| InsufficientGas
| DelegationNotAuthorized
| RefundByBridgeActor
| RefundToSelfPool
| RefundRateDisabled
| RefundZeroUnits
| RefundNonCanonicalResource
| RefundInsufficientPool.

Definition reason (self : GateRejection) : String.string :=
  match self with
  | InsufficientBudget => "InsufficientBudget"
  | BridgeActorTopUp => "BudgetGateBridgeActorTopUp"
  | SelfPoolTopUp => "BudgetGateSelfPoolTopUp"
  | ZeroGasTopUp => "BudgetGateZeroGasTopUp"
  | SelfRecipientDelegatedTopUp => "BudgetGateSelfRecipientDelegatedTopUp"
  | TopUpNonCanonicalPool => "BudgetGateTopUpNonCanonicalPool"
  | TopUpNonCanonicalResource => "BudgetGateTopUpNonCanonicalResource"
  | TopUpBudgetCeilingExceeded => "BudgetGateTopUpBudgetCeilingExceeded"
  | NonBridgeDepositWithFee => "BudgetGateNonBridgeDepositWithFee"
  | InsufficientGas => "BudgetGateInsufficientGas"
  | DelegationNotAuthorized => "BudgetGateDelegationNotAuthorized"
  | RefundByBridgeActor => "BudgetGateRefundByBridgeActor"
  | RefundToSelfPool => "BudgetGateRefundToSelfPool"
  | RefundRateDisabled => "BudgetGateRefundRateDisabled"
  | RefundZeroUnits => "BudgetGateRefundZeroUnits"
  | RefundNonCanonicalResource => "BudgetGateRefundNonCanonicalResource"
  | RefundInsufficientPool => "BudgetGateRefundInsufficientPool"
  end%string.

Record BudgetGate : Type := {
  policy : BudgetPolicy;
  ledger : EpochBudgetState;
  strict : bool;
  balances : gmap (Z * Z) Z;
  consent : gset (Z * Z);
  epoch_length : Z;
  admitted : Z;
}.

Definition with_ledger (policy : BudgetPolicy) (ledger : EpochBudgetState) : BudgetGate :=
  {| policy := policy; ledger := ledger; strict := false; balances := ∅; consent := ∅;
     epoch_length := 0; admitted := 0 |}.

Definition BudgetGate_new (policy : BudgetPolicy) : BudgetGate := with_ledger policy ∅.

Definition with_strict_checks (self : BudgetGate) : BudgetGate :=
  {| policy := policy self; ledger := ledger self; strict := true; balances := balances self;
     consent := consent self; epoch_length := epoch_length self; admitted := admitted self |}.

Definition with_epoch_length (self : BudgetGate) (epoch_length : Z) : BudgetGate :=
  {| policy := policy self; ledger := ledger self; strict := strict self;
     balances := balances self; consent := consent self; epoch_length := epoch_length;
     admitted := admitted self |}.

Definition effective_epoch (self : BudgetGate) : Z :=
  saturating_add 64 (current_epoch (policy self))
    (default 0 (checked_div (admitted self) (epoch_length self))).

Definition set_balance (self : BudgetGate) (gas_resource actor balance : Z) : BudgetGate :=
  {| policy := policy self; ledger := ledger self; strict := strict self;
     balances := <[(gas_resource, actor) := balance]> (balances self);
     consent := consent self; epoch_length := epoch_length self; admitted := admitted self |}.

Definition allow_delegate (self : BudgetGate) (recipient signer : Z) : BudgetGate :=
  {| policy := policy self; ledger := ledger self; strict := strict self;
     balances := balances self; consent := {[(recipient, signer)]} ∪ consent self;
     epoch_length := epoch_length self; admitted := admitted self |}.

Definition current_budget (self : BudgetGate) (actor : Z) : Z :=
  ledger_current_budget (ledger self) actor (effective_epoch self) (free_tier (policy self)).

Definition balance_of (self : BudgetGate) (gas_resource actor : Z) : Z :=
  default 0 (balances self !! (gas_resource, actor)).

(** The signer-correlation checks, and the oracle checks of strict mode. *)
Definition checks (self : BudgetGate) (view : SignedActionBudgetView)
  : result () GateRejection :=
  let signer := signer view in
  match kind view with
  | Kind.TopUpActionBudget gas_resource pool_actor gas_amount budget_increment =>
      if decide (signer = BRIDGE_ACTOR) then Err BridgeActorTopUp else
      if decide (signer = pool_actor) then Err SelfPoolTopUp else
      if decide (pool_actor ≠ GAS_POOL_ACTOR) then Err TopUpNonCanonicalPool else
      if decide (gas_resource ≠ 0 ∧ gas_resource ≠ 1) then Err TopUpNonCanonicalResource else
      if decide (MAX_TOPUP_BUDGET_PER_ACTION < budget_increment)
      then Err TopUpBudgetCeilingExceeded else
      if decide (gas_amount = 0) then Err ZeroGasTopUp else
      if decide (strict self = true ∧ balance_of self gas_resource signer < gas_amount)
      then Err InsufficientGas else Ok ()
  | Kind.TopUpActionBudgetFor recipient gas_resource pool_actor gas_amount budget_increment =>
      if decide (signer = BRIDGE_ACTOR) then Err BridgeActorTopUp else
      if decide (signer = pool_actor) then Err SelfPoolTopUp else
      if decide (recipient = signer) then Err SelfRecipientDelegatedTopUp else
      if decide (pool_actor ≠ GAS_POOL_ACTOR) then Err TopUpNonCanonicalPool else
      if decide (gas_resource ≠ 0 ∧ gas_resource ≠ 1) then Err TopUpNonCanonicalResource else
      if decide (MAX_TOPUP_BUDGET_PER_ACTION < budget_increment)
      then Err TopUpBudgetCeilingExceeded else
      if decide (gas_amount = 0) then Err ZeroGasTopUp else
      if strict self then
        if decide (balance_of self gas_resource signer < gas_amount)
        then Err InsufficientGas else
        if decide ((recipient, signer) ∉ consent self) then Err DelegationNotAuthorized
        else Ok ()
      else Ok ()
  | Kind.DepositWithFee _ _ =>
      if decide (signer ≠ BRIDGE_ACTOR) then Err NonBridgeDepositWithFee else Ok ()
  | Kind.ClaimBudgetRefund gas_resource pool_actor budget_units wei_per_budget_unit =>
      if decide (signer = BRIDGE_ACTOR) then Err RefundByBridgeActor else
      if decide (signer = pool_actor) then Err RefundToSelfPool else
      if decide (gas_resource ≠ 0 ∧ gas_resource ≠ 1) then Err RefundNonCanonicalResource else
      if decide (wei_per_budget_unit = 0) then Err RefundRateDisabled else
      if decide (budget_units = 0) then Err RefundZeroUnits else
      if strict self then
        match checked_mul 256 budget_units wei_per_budget_unit with
        | None => Err RefundInsufficientPool
        | Some refund_amount =>
            if decide (balance_of self gas_resource pool_actor < refund_amount)
            then Err RefundInsufficientPool else Ok ()
        end
      else Ok ()
  | Kind.Ordinary => Ok ()
  end.

Definition refund_extra (view : SignedActionBudgetView) : Z :=
  match kind view with Kind.ClaimBudgetRefund _ _ budget_units _ => budget_units | _ => 0 end.

(** The grant, on the ledger after the debit. *)
Definition apply_grant (view : SignedActionBudgetView) (now free_tier : Z)
    (ledger : EpochBudgetState) : EpochBudgetState :=
  match kind view with
  | Kind.DepositWithFee recipient budget_grant =>
      top_up_in_place ledger recipient now free_tier budget_grant
  | Kind.TopUpActionBudget _ _ _ budget_increment =>
      top_up_in_place ledger (signer view) now free_tier budget_increment
  | Kind.TopUpActionBudgetFor recipient _ _ _ budget_increment =>
      top_up_in_place ledger recipient now free_tier budget_increment
  | Kind.ClaimBudgetRefund _ _ _ _ | Kind.Ordinary => ledger
  end.

Definition evaluate (self : BudgetGate) (view : SignedActionBudgetView)
  : result EpochBudgetState GateRejection :=
  let now := effective_epoch self in
  let free_tier := free_tier (policy self) in
  let action_cost := action_cost (policy self) in
  let signer := signer view in
  let? _ := checks self view in
  let? ledger :=
    if decide (signer = BRIDGE_ACTOR) then Ok (ledger self)
    else
      match consume_in_place (ledger self) signer now free_tier
              (saturating_add 64 action_cost (refund_extra view)) with
      | (true, ledger) => Ok ledger
      | (false, _) => Err InsufficientBudget
      end in
  Ok (apply_grant view now free_tier ledger).

Definition admit_view (self : BudgetGate) (view : SignedActionBudgetView)
  : result () GateRejection * BudgetGate :=
  match evaluate self view with
  | Err e => (Err e, self)
  | Ok next =>
      (Ok (),
       {| policy := policy self; ledger := next; strict := strict self;
          balances := balances self; consent := consent self;
          epoch_length := epoch_length self;
          admitted := saturating_add 64 (admitted self) 1 |})
  end.

(** ** Cells and ledgers at an epoch *)

Lemma normalise_last c now ft : now ≤ last_seen_epoch (normalise c now ft).
Proof. unfold normalise. case_decide; cbn; lia. Qed.

Lemma normalise_current c now ft : now ≤ last_seen_epoch c → normalise c now ft = c.
Proof. intros. unfold normalise. by rewrite decide_False by lia. Qed.

(** A budget never shrinks when the epoch advances, and grows by at most the
    free tier. *)
Lemma normalise_later c now now' ft :
  now ≤ now' → 0 ≤ budget_balance c → 0 ≤ ft →
  budget_balance (normalise c now ft) ≤ budget_balance (normalise c now' ft) ≤
  budget_balance (normalise c now ft) + (if decide (now = now') then 0 else ft).
Proof. intros. unfold normalise. split_guards; cbn; lia. Qed.

Lemma current_insert l a c now ft :
  now ≤ last_seen_epoch c → ledger_current_budget (<[a:=c]> l) a now ft = budget_balance c.
Proof.
  intros Hc. unfold ledger_current_budget, cell_or_default, cell. simplify_map_eq.
  by rewrite normalise_current.
Qed.

Lemma current_insert_ne l a b c now ft :
  a ≠ b → ledger_current_budget (<[a:=c]> l) b now ft = ledger_current_budget l b now ft.
Proof. intros Hab. unfold ledger_current_budget, cell_or_default, cell. by simplify_map_eq. Qed.

Lemma consume_in_place_spec l a now ft cost :
  consume_in_place l a now ft cost =
  if decide (cost ≤ ledger_current_budget l a now ft)
  then (true, <[a := {| last_seen_epoch := last_seen_epoch (normalise (cell_or_default l a) now ft);
                        budget_balance := ledger_current_budget l a now ft - cost |}]> l)
  else (false, l).
Proof.
  unfold consume_in_place, consume, ledger_current_budget. by case_decide.
Qed.

Lemma current_top_up l a x now ft amount :
  ledger_current_budget (top_up_in_place l a now ft amount) x now ft =
  if decide (x = a) then saturating_add 64 (ledger_current_budget l a now ft) amount
  else ledger_current_budget l x now ft.
Proof.
  unfold top_up_in_place. case_decide as Hx; [subst|by apply current_insert_ne].
  rewrite current_insert; [done|]. apply normalise_last.
Qed.

(** ** The abstract gate *)

(** The conditions under which the safety checks pass. *)
Definition top_up_ok (g : BudgetGate) (s gas_resource pool_actor gas_amount budget_increment : Z)
  : Prop :=
  s ≠ BRIDGE_ACTOR ∧ s ≠ GAS_POOL_ACTOR ∧ pool_actor = GAS_POOL_ACTOR ∧
  (gas_resource = 0 ∨ gas_resource = 1) ∧
  budget_increment ≤ MAX_TOPUP_BUDGET_PER_ACTION ∧ gas_amount ≠ 0 ∧
  (strict g = true → gas_amount ≤ balance_of g gas_resource s).

Definition checks_ok (g : BudgetGate) (v : SignedActionBudgetView) : Prop :=
  let s := signer v in
  match kind v with
  | Kind.Ordinary => True
  | Kind.DepositWithFee _ _ => s = BRIDGE_ACTOR
  | Kind.TopUpActionBudget gr p ga bi => top_up_ok g s gr p ga bi
  | Kind.TopUpActionBudgetFor r gr p ga bi =>
      top_up_ok g s gr p ga bi ∧ r ≠ s ∧ (strict g = true → (r, s) ∈ consent g)
  | Kind.ClaimBudgetRefund gr p u w =>
      s ≠ BRIDGE_ACTOR ∧ s ≠ p ∧ (gr = 0 ∨ gr = 1) ∧ w ≠ 0 ∧ u ≠ 0 ∧
      (strict g = true → u * w < 2 ^ 256 ∧ u * w ≤ balance_of g gr p)
  end.

Definition grant (v : SignedActionBudgetView) : option (Z * Z) :=
  match kind v with
  | Kind.DepositWithFee r b => Some (r, b)
  | Kind.TopUpActionBudget _ _ _ b => Some (signer v, b)
  | Kind.TopUpActionBudgetFor r _ _ _ b => Some (r, b)
  | _ => None
  end.

(** What a view costs an actor, as an unbounded integer; what is taken, which is no
    more than fits 64 bits; and what the view gives. *)
Definition price_of (g : BudgetGate) (v : SignedActionBudgetView) (x : Z) : Z :=
  if decide (x = signer v ∧ x ≠ BRIDGE_ACTOR) then action_cost (policy g) + refund_extra v else 0.

Definition debit_of (g : BudgetGate) (v : SignedActionBudgetView) (x : Z) : Z := Z.min (price_of g v x) u64_max.

Definition grant_to (v : SignedActionBudgetView) (x : Z) : Z :=
  match grant v with Some (r, b) => if decide (x = r) then b else 0 | None => 0 end.

(** The signer covers the price; a full budget passes for any price above it. *)
Definition can_pay (g : BudgetGate) (v : SignedActionBudgetView) : Prop :=
  price_of g v (signer v) ≤ current_budget g (signer v) ∨
  current_budget g (signer v) = u64_max ∧ u64_max < price_of g v (signer v).

Definition view_typed (v : SignedActionBudgetView) : Prop :=
  in_u64 (signer v) ∧ in_u64 (refund_extra v) ∧
  ∀ r b, grant v = Some (r, b) → in_u64 r ∧ in_u64 b.

Definition gate_typed (g : BudgetGate) : Prop :=
  policy_ok (policy g) ∧ ledger_typed (ledger g) ∧ in_u64 (admitted g) ∧ 0 ≤ epoch_length g.

Lemma checks_iff g v : checks g v = Ok () ↔ checks_ok g v.
Proof.
  assert (HT : (Ok () : result () GateRejection) = Ok () ↔ True) by done.
  assert (HF : ∀ e, (Err e : result () GateRejection) = Ok () ↔ False) by done.
  unfold checks, checks_ok, top_up_ok, BRIDGE_ACTOR, GAS_POOL_ACTOR.
  destruct (kind v) as [| | |r|gr p u w].
  - done.
  - rewrite guard_Ok, HT. lia.
  - rewrite !guard_Ok, HT. destruct (strict g); lia.
  - destruct (strict g); rewrite !guard_Ok, HT; [|lia].
    destruct (decide ((r, signer v) ∈ consent g)); intuition lia.
  - destruct (strict g); rewrite !guard_Ok, ?HT; [|lia].
    destruct (checked_mul _ _ _) eqn:Hm; [apply checked_mul_Some in Hm as [-> ?]|
        apply checked_mul_None in Hm]; rewrite ?guard_Ok, ?HT, ?HF; lia.
Qed.

Lemma ledger_budget_typed l x now ft :
  ledger_typed l → in_u64 ft → in_u64 (ledger_current_budget l x now ft).
Proof.
  intros Hl [Hf0 Hf1]. unfold ledger_current_budget, cell_or_default, cell.
  assert (Hc : in_u64 (budget_balance (default ActorBudget_empty (l !! x)))).
  { destruct (l !! x) as [c|] eqn:Hx; [|done]. apply (Hl x c Hx). }
  unfold normalise. case_decide; [|done]. cbn. unfold in_width in *. lia.
Qed.

Lemma debit_signer g v :
  debit_of g v (signer v) =
  if decide (signer v = BRIDGE_ACTOR) then 0 else saturating_add 64 (action_cost (policy g)) (refund_extra v).
Proof. unfold debit_of, price_of, saturating_add. repeat case_decide; try tauto; done. Qed.

Lemma debit_other g v x : x ≠ signer v ∨ x = BRIDGE_ACTOR → debit_of g v x = 0.
Proof. intros Hx. unfold debit_of, price_of. by rewrite decide_False by tauto. Qed.

(** The ledger after the debit of an affordable view. *)
Definition debited (g : BudgetGate) (v : SignedActionBudgetView) : EpochBudgetState :=
  let now := effective_epoch g in
  let ft := free_tier (policy g) in
  if decide (signer v = BRIDGE_ACTOR) then ledger g
  else <[signer v :=
         {| last_seen_epoch := last_seen_epoch (normalise (cell_or_default (ledger g) (signer v)) now ft);
            budget_balance := current_budget g (signer v) - debit_of g v (signer v) |}]> (ledger g).

Lemma debited_budget g v x :
  ledger_current_budget (debited g v) x (effective_epoch g) (free_tier (policy g)) =
  current_budget g x - debit_of g v x.
Proof.
  unfold debited. case_decide as Hb.
  - rewrite debit_other; [unfold current_budget; lia|]. destruct (decide (x = signer v)); [right; congruence|by left].
  - destruct (decide (x = signer v)) as [->|Hx].
    + rewrite current_insert; [done|]. apply normalise_last.
    + rewrite current_insert_ne, debit_other by auto. unfold current_budget. lia.
Qed.

Lemma apply_grant_budget v now ft l x :
  ledger_current_budget l x now ft ≤ u64_max →
  ledger_current_budget (apply_grant v now ft l) x now ft =
  Z.min (ledger_current_budget l x now ft + grant_to v x) u64_max.
Proof.
  intros Hb. unfold apply_grant, grant_to, grant.
  destruct (kind v); rewrite ?current_top_up; unfold saturating_add;
    repeat case_decide; subst; lia.
Qed.

Lemma apply_grant_lookup v now ft l x :
  (∀ b, grant v ≠ Some (x, b)) → apply_grant v now ft l !! x = l !! x.
Proof.
  intros Hx. unfold apply_grant, grant, top_up_in_place in *.
  destruct (kind v); try done; apply lookup_insert_ne; naive_solver.
Qed.

Lemma can_pay_iff g v :
  gate_typed g → can_pay g v ↔ debit_of g v (signer v) ≤ current_budget g (signer v).
Proof.
  intros (Hp & Hl & _). unfold can_pay, debit_of.
  pose proof (ledger_budget_typed (ledger g) (signer v) (effective_epoch g)
    (free_tier (policy g)) Hl (proj1 Hp)) as [Hb0 Hb1].
  fold (current_budget g (signer v)) in Hb0, Hb1. unfold u64_max. lia.
Qed.

(** [evaluate] as a condition and a result. *)
Lemma evaluate_iff g v l :
  gate_typed g →
  evaluate g v = Ok l ↔
  checks_ok g v ∧ debit_of g v (signer v) ≤ current_budget g (signer v) ∧
  l = apply_grant v (effective_epoch g) (free_tier (policy g)) (debited g v).
Proof.
  intros (Hp & Hl & _). rewrite <- checks_iff. unfold evaluate.
  rewrite result_bind_Ok. setoid_rewrite result_bind_Ok.
  pose proof (ledger_budget_typed (ledger g) (signer v) (effective_epoch g)
    (free_tier (policy g)) Hl (proj1 Hp)) as [Hb0 _].
  fold (current_budget g (signer v)) in Hb0. unfold debited. rewrite !debit_signer.
  destruct (decide (signer v = BRIDGE_ACTOR)) as [Hs|Hs].
  - split; [intros ([] & ? & ? & [= <-] & [= <-]); auto|].
    intros (Hc & _ & ->). exists (). eauto.
  - rewrite consume_in_place_spec. fold (current_budget g (signer v)).
    split.
    + intros ([] & ? & ? & He & [= <-]). case_decide; simplify_eq. auto.
    + intros (Hc & Hle & ->). exists (). rewrite decide_True by done. eauto.
Qed.

Lemma saturating_cost_bound g v :
  policy_ok (policy g) → 0 ≤ refund_extra v →
  action_cost (policy g) ≤ saturating_add 64 (action_cost (policy g)) (refund_extra v).
Proof. intros (_ & Hc & _) ?. by apply saturating_add_ge_l. Qed.

Lemma debit_nonneg g v x : gate_typed g → view_typed v → 0 ≤ debit_of g v x.
Proof.
  intros ((_ & Hc & _ & Hc0) & _) (_ & [Hr _] & _). unfold debit_of, price_of, u64_max. case_decide; lia.
Qed.

(** The budgets an evaluation leaves. *)
Lemma evaluate_budget g v l x :
  gate_typed g → view_typed v → evaluate g v = Ok l →
  ledger_current_budget l x (effective_epoch g) (free_tier (policy g)) =
  Z.min (current_budget g x - debit_of g v x + grant_to v x) u64_max.
Proof.
  intros Hg Hv (_ & _ & ->)%evaluate_iff; [|done].
  pose proof (debit_nonneg g v x Hg Hv). destruct Hg as (Hp & Hl & _).
  pose proof (ledger_budget_typed (ledger g) x (effective_epoch g) (free_tier (policy g))
    Hl (proj1 Hp)) as [_ Hb]. fold (current_budget g x) in Hb.
  rewrite apply_grant_budget; rewrite debited_budget; [done|lia].
Qed.

(** ** Sequences of admissions *)

(** The state after a sequence of requests, with the views that were admitted. *)
Fixpoint admit_all (g : BudgetGate) (vs : list SignedActionBudgetView)
  : list SignedActionBudgetView * BudgetGate :=
  match vs with
  | [] => ([], g)
  | v :: vs =>
      match admit_view g v with
      | (Ok _, g') => let '(done, g'') := admit_all g' vs in (v :: done, g'')
      | (Err _, g') => admit_all g' vs
      end
  end.

Definition signed_by (x : Z) (vs : list SignedActionBudgetView) : Z :=
  Z.of_nat (length (filter (fun v => signer v = x) vs)).

Definition granted_to (x : Z) (vs : list SignedActionBudgetView) : Z :=
  foldr (fun v n => grant_to v x + n) 0 vs.

Lemma normalise_typed c now ft :
  cell_typed c → in_u64 now → in_u64 ft → cell_typed (normalise c now ft).
Proof.
  intros [? ?] ? ?. unfold normalise. case_decide; [|done]. split; cbn; [done|].
  unfold in_width in *. lia.
Qed.

Lemma cell_or_default_typed l x : ledger_typed l → cell_typed (cell_or_default l x).
Proof.
  intros Hl. unfold cell_or_default, cell. destruct (l !! x) as [c|] eqn:Hx; [|done].
  apply (Hl x c Hx).
Qed.

Lemma ledger_typed_insert l x c :
  ledger_typed l → in_u64 x → cell_typed c → ledger_typed (<[x:=c]> l).
Proof. intros. by apply map_Forall_insert_2. Qed.

Lemma top_up_typed l x now ft b :
  ledger_typed l → in_u64 x → in_u64 now → in_u64 ft → in_u64 b →
  ledger_typed (top_up_in_place l x now ft b).
Proof.
  intros Hl Hx Hn Hf Hb. apply ledger_typed_insert; [done..|].
  destruct (normalise_typed _ now ft (cell_or_default_typed l x Hl) Hn Hf) as [? ?].
  split; cbn; [done|]. by apply saturating_add_in_width.
Qed.

Lemma effective_epoch_typed g : gate_typed g → in_u64 (effective_epoch g).
Proof.
  intros ((_ & _ & He & _) & _ & [Ha _] & Hn). unfold effective_epoch, checked_div.
  unfold in_width, saturating_add in *.
  case_decide; cbn; [lia|]. pose proof (Z.div_pos (admitted g) (epoch_length g)). lia.
Qed.

Lemma debited_typed g v :
  gate_typed g → view_typed v → debit_of g v (signer v) ≤ current_budget g (signer v) →
  ledger_typed (debited g v).
Proof.
  intros Hg Hv Hle. pose proof (effective_epoch_typed g Hg) as He.
  pose proof (debit_nonneg g v (signer v) Hg Hv). destruct Hv as (Hs & _).
  destruct Hg as (Hp & Hl & _). unfold debited. case_decide; [done|].
  apply ledger_typed_insert; [done..|]. split; cbn.
  - apply (normalise_typed _ _ _ (cell_or_default_typed _ _ Hl) He (proj1 Hp)).
  - pose proof (ledger_budget_typed (ledger g) (signer v) (effective_epoch g)
      (free_tier (policy g)) Hl (proj1 Hp)) as Hb. fold (current_budget g (signer v)) in Hb.
    unfold in_width in *. lia.
Qed.

Lemma evaluate_typed g v l :
  gate_typed g → view_typed v → evaluate g v = Ok l → ledger_typed l.
Proof.
  intros Hg Hv (_ & Hle & ->)%evaluate_iff; [|done].
  pose proof (debited_typed g v Hg Hv Hle) as Hd.
  pose proof (effective_epoch_typed g Hg) as He. destruct Hg as ((Hf & _) & _).
  destruct Hv as (Hs & _ & Hgr). unfold apply_grant, grant in *.
  destruct (kind v) as [|r b|gr p ga bi|r gr p ga bi|]; try done;
    destruct (Hgr _ _ eq_refl); by apply top_up_typed.
Qed.

(** The gate an admission leaves. *)
Definition after_admit (g : BudgetGate) (l : EpochBudgetState) : BudgetGate :=
  {| policy := policy g; ledger := l; strict := strict g; balances := balances g;
     consent := consent g; epoch_length := epoch_length g;
     admitted := saturating_add 64 (admitted g) 1 |}.

Lemma after_admit_typed g v l :
  gate_typed g → view_typed v → evaluate g v = Ok l → gate_typed (after_admit g l).
Proof.
  intros Hg Hv He. pose proof (evaluate_typed g v l Hg Hv He).
  destruct Hg as (Hp & _ & Ha & Hn). split_and!; try done; try apply Hp.
  apply saturating_add_in_width; [done|]. done.
Qed.

Lemma after_admit_epoch g l :
  gate_typed g → effective_epoch g ≤ effective_epoch (after_admit g l).
Proof.
  intros (_ & _ & [Ha0 Ha1] & Hn). unfold effective_epoch, checked_div. cbn.
  case_decide; cbn; [lia|].
  assert (admitted g / epoch_length g ≤ saturating_add 64 (admitted g) 1 / epoch_length g).
  { apply Z.div_le_mono; [lia|]. apply saturating_add_ge_l; [by split|lia]. }
  unfold saturating_add in *. lia.
Qed.

(** One admission: what is spent and what is left, against what was there, what
    was granted and what the epochs crossed replenish. *)
Lemma admit_step g v l x :
  gate_typed g → view_typed v → evaluate g v = Ok l →
  debit_of g v x + current_budget (after_admit g l) x ≤
  current_budget g x + grant_to v x +
  free_tier (policy g) * (effective_epoch (after_admit g l) - effective_epoch g).
Proof.
  intros Hg Hv He. pose proof (evaluate_budget g v l x Hg Hv He) as Hb.
  pose proof (after_admit_epoch g l Hg) as Hep.
  pose proof (evaluate_typed g v l Hg Hv He) as Hl. destruct Hg as ((Hft & _) & _).
  unfold current_budget at 1. cbn [ledger policy after_admit].
  unfold ledger_current_budget in *. fold (after_admit g l).
  destruct (cell_or_default_typed l x Hl) as [_ [Hc _]]. destruct Hft as [Hft _].
  pose proof (normalise_later (cell_or_default l x) (effective_epoch g)
    (effective_epoch (after_admit g l)) (free_tier (policy g)) Hep Hc Hft) as [_ Hle].
  case_decide; nia.
Qed.

Lemma debit_ge_cost g v x :
  gate_typed g → view_typed v → x ≠ BRIDGE_ACTOR →
  (if decide (signer v = x) then action_cost (policy g) else 0) ≤ debit_of g v x.
Proof.
  intros Hg Hv Hx. pose proof (debit_nonneg g v x Hg Hv). destruct Hg as (Hp & _).
  destruct Hv as (_ & [Hr _] & _).
  destruct (decide (signer v = x)) as [<-|]; [|done]. rewrite debit_signer, decide_False by done.
  by apply saturating_cost_bound.
Qed.

Lemma signed_by_cons x v vs :
  signed_by x (v :: vs) = (if decide (signer v = x) then 1 else 0) + signed_by x vs.
Proof. unfold signed_by. rewrite filter_cons. case_decide; cbn [length]; lia. Qed.

Lemma admit_all_cons g v vs adm g' :
  admit_all g (v :: vs) = (adm, g') →
  (∃ l adm', evaluate g v = Ok l ∧ adm = v :: adm' ∧ admit_all (after_admit g l) vs = (adm', g')) ∨
  (∃ e, evaluate g v = Err e ∧ admit_all g vs = (adm, g')).
Proof.
  cbn [admit_all]. unfold admit_view. destruct (evaluate g v) as [l|e]; [|by eauto].
  fold (after_admit g l). destruct (admit_all (after_admit g l) vs) as [adm' g''] eqn:Hr.
  intros [= <- <-]. left. eauto.
Qed.

(** ** Correctness *)

(** C15: [evaluate] admits a view exactly when its safety conditions hold and the
    signer can pay: its budget covers the action's cost plus the units a refund
    retires, or that sum does not fit 64 bits and its budget is the largest there
    is.  It then takes the sum, cut at 64 bits, from the signer (never from the
    bridge actor), grants the recipient what the action grants, saturating at 64
    bits, and leaves every other actor's cell as it was; a signer who cannot pay is
    refused with [InsufficientBudget]. *)
Theorem evaluate_exact g v :
  gate_typed g → view_typed v →
  (∀ l, evaluate g v = Ok l →
    checks_ok g v ∧ can_pay g v ∧
    (∀ x, ledger_current_budget l x (effective_epoch g) (free_tier (policy g)) =
          Z.min (current_budget g x - Z.min (price_of g v x) u64_max + grant_to v x) u64_max) ∧
    (∀ x, x ≠ signer v → (∀ b, grant v ≠ Some (x, b)) → l !! x = ledger g !! x)) ∧
  (checks_ok g v → can_pay g v → ∃ l, evaluate g v = Ok l) ∧
  (checks_ok g v → ¬ can_pay g v → evaluate g v = Err InsufficientBudget).
Proof.
  intros Hg Hv. split_and!.
  - intros l He. pose proof (evaluate_budget g v l) as Hb. pose proof He as He'.
    apply evaluate_iff in He as (Hc & Hle & ->); [|done]. split_and!; auto; [by apply can_pay_iff|].
    intros x Hx Hgr. rewrite apply_grant_lookup by done. unfold debited.
    case_decide; [done|]. by apply lookup_insert_ne.
  - intros Hc Hle%can_pay_iff; [|done]. eexists. by apply evaluate_iff.
  - intros Hc%checks_iff Hlt. rewrite can_pay_iff in Hlt by done. unfold evaluate. rewrite Hc. cbn [result_bind]. rewrite debit_signer in Hlt.
    destruct (decide (signer v = BRIDGE_ACTOR)) as [Hs|Hs].
    + pose proof (ledger_budget_typed (ledger g) (signer v) (effective_epoch g)
        (free_tier (policy g)) (proj1 (proj2 Hg)) (proj1 (proj1 Hg))) as [Hb0 _].
      fold (current_budget g (signer v)) in Hb0. lia.
    + rewrite consume_in_place_spec. fold (current_budget g (signer v)). by rewrite decide_False by lia.
Qed.

(** The rate limit.  Over any sequence of requests, the actions an actor
    other than the bridge gets admitted, at the policy's cost each, and the
    budget left at the end are together no more than the budget at the start,
    the budget granted on the way, and one free tier for each epoch crossed. *)
Theorem rate_limit g vs adm g' x :
  gate_typed g → Forall view_typed vs → x ≠ BRIDGE_ACTOR →
  admit_all g vs = (adm, g') →
  signed_by x adm * action_cost (policy g) + current_budget g' x ≤
  current_budget g x + granted_to x adm +
  free_tier (policy g) * (effective_epoch g' - effective_epoch g).
Proof.
  intros Hg Hvs Hx. revert g adm Hg. induction Hvs as [|v vs Hv Hvs IH]; intros g adm Hg Hrun.
  - injection Hrun as <- <-. unfold signed_by, granted_to. cbn. lia.
  - apply admit_all_cons in Hrun as [(l & adm' & He & -> & Hrun)|(e & _ & Hrun)]; [|by auto].
    specialize (IH _ _ (after_admit_typed g v l Hg Hv He) Hrun). cbn [policy after_admit] in IH.
    fold (after_admit g l) in IH.
    pose proof (admit_step g v l x Hg Hv He). pose proof (debit_ge_cost g v x Hg Hv Hx).
    rewrite signed_by_cons. unfold granted_to in *. cbn [foldr] in *.
    case_decide; lia.
Qed.

(** A refund admitted in strict mode is covered.  The exact product of the
    units and the rate, an unbounded integer, is at most the pool's balance: the
    comparison never sees a wrapped product, and a product that does not fit 256
    bits is refused as an insolvent pool. *)
Theorem refund_solvent g v gas_resource pool_actor units wei :
  strict g = true → kind v = Kind.ClaimBudgetRefund gas_resource pool_actor units wei →
  (∀ l, evaluate g v = Ok l → units * wei ≤ balance_of g gas_resource pool_actor) ∧
  (signer v ≠ BRIDGE_ACTOR → signer v ≠ pool_actor → gas_resource = 0 ∨ gas_resource = 1 →
   wei ≠ 0 → units ≠ 0 → balance_of g gas_resource pool_actor < units * wei →
   evaluate g v = Err RefundInsufficientPool).
Proof.
  intros Hs Hk. split.
  - intros l He. unfold evaluate in He. apply result_bind_Ok in He as ([] & Hc & _).
    apply checks_iff in Hc. unfold checks_ok in Hc. rewrite Hk in Hc. tauto.
  - intros ? ? ? ? ? Hlt. unfold evaluate, checks. rewrite Hk, Hs.
    repeat (rewrite decide_False by tauto).
    destruct (checked_mul _ _ _) as [p|] eqn:Hm; [|done].
    apply checked_mul_Some in Hm as [-> _]. by rewrite decide_True.
Qed.

(** The debit of a refund saturates at 64 bits, so it can fall short of the
    cost it stands for: at a full budget a refund of the maximal unit count is
    admitted although its cost and units together exceed the budget. *)
Theorem refund_debit_saturates :
  ∃ g v l, gate_typed g ∧ view_typed v ∧ evaluate g v = Ok l ∧
    current_budget g (signer v) < action_cost (policy g) + refund_extra v.
Proof.
  exists (with_ledger (Bounded 0 1 0) {[5 := {| last_seen_epoch := 0; budget_balance := u64_max |}]}).
  exists {| signer := 5; kind := Kind.ClaimBudgetRefund 0 1 u64_max 1 |}.
  eexists. split; [|split; [|split; [vm_compute; reflexivity|vm_compute; reflexivity]]].
  - split; [done|]. split; [by apply map_Forall_singleton|]. done.
  - split; [done|]. split; [done|]. by intros ? ? [=].
Qed.

(** ** Witnesses *)

Definition demo_gate : BudgetGate :=
  with_epoch_length (with_ledger (mk_bounded 3 2 1)
    (<[9 := {| last_seen_epoch := 0; budget_balance := 10 |}]> ∅)) 2.
Definition demo_views : list SignedActionBudgetView :=
  [ {| signer := 9; kind := Kind.Ordinary |};
    {| signer := 9; kind := Kind.TopUpActionBudget 0 1 5 7 |};
    {| signer := 4; kind := Kind.Ordinary |} ].

Lemma demo_gate_typed : gate_typed demo_gate.
Proof.
  split; [done|]. split; [|done]. unfold ledger_typed. cbn.
  apply map_Forall_insert_2; [done|apply map_Forall_empty].
Qed.

Lemma demo_views_typed : Forall view_typed demo_views.
Proof.
  repeat (apply Forall_cons; split); [..|done]; (split; [done|]; split; [done|]);
    intros ? ? [=]; subst; done.
Qed.

Lemma evaluate_exact_witness :
  ∃ l, evaluate demo_gate {| signer := 9; kind := Kind.TopUpActionBudget 0 1 5 7 |} = Ok l ∧
    ledger_current_budget l 9 1 3 = 15.
Proof.
  destruct (evaluate_exact demo_gate {| signer := 9; kind := Kind.TopUpActionBudget 0 1 5 7 |}
    demo_gate_typed (Forall_inv (Forall_inv_tail demo_views_typed))) as (H1 & H2 & _).
  destruct H2 as [l Hl].
  - cbn. unfold top_up_ok. split_and!; try done. by left.
  - left. vm_compute. intros [=].
  - exists l. split; [exact Hl|]. destruct (H1 l Hl) as (_ & _ & Hb & _).
    specialize (Hb 9). etransitivity; [exact Hb|]. vm_compute. reflexivity.
Defined.

Lemma rate_limit_witness :
  let '(adm, g') := admit_all demo_gate demo_views in
  signed_by 9 adm * 2 + current_budget g' 9 ≤
    current_budget demo_gate 9 + granted_to 9 adm +
    3 * (effective_epoch g' - effective_epoch demo_gate).
Proof.
  destruct (admit_all demo_gate demo_views) as [adm g'] eqn:Hrun.
  exact (rate_limit demo_gate demo_views adm g' 9 demo_gate_typed demo_views_typed
    ltac:(done) Hrun).
Defined.

(** The operands of this refund are in range and their product is not. *)
Lemma refund_solvent_witness :
  in_u64 (2 ^ 64 - 1) ∧ in_u256 (2 ^ 193) ∧
  evaluate (with_strict_checks demo_gate)
    {| signer := 9; kind := Kind.ClaimBudgetRefund 0 1 (2 ^ 64 - 1) (2 ^ 193) |} =
    Err RefundInsufficientPool.
Proof.
  split; [done|]. split; [done|].
  destruct (refund_solvent (with_strict_checks demo_gate)
    {| signer := 9; kind := Kind.ClaimBudgetRefund 0 1 (2 ^ 64 - 1) (2 ^ 193) |}
    0 1 (2 ^ 64 - 1) (2 ^ 193) eq_refl eq_refl) as [_ H].
  apply H; try done. by left.
Defined.
