(* ===== verification/Frame.v ===== *)
(** * The wire framing

    Models [src/runtime/knomosis-host/src/frame.rs]: the length-prefixed frames,
    the one-time negotiation of the hinted protocol, the per-connection reader
    and the encoders.

    A [Read] is a script of what its successive reads deliver, each with the
    instant of the deadline check before it: a chunk of bytes (of which a read
    takes what its buffer holds), or an I/O error.  An exhausted script reads
    zero bytes for ever.  The bytes of a conversation can thus arrive in any
    chunks, at any times. *)

From Stdlib Require Import ZArith Lia.
From Stdlib Require Strings.String.
From stdpp Require Import base numbers list.
From S2P Require Import Prelude Drr.
Import String.StringSyntax.
Delimit Scope string_scope with string.

Local Open Scope Z_scope.

Definition DEFAULT_MAX_FRAME_SIZE : Z := 1024 * 1024.
Definition HARD_MAX_FRAME_SIZE : Z := 16 * 1024 * 1024.
Definition HEADER_LEN : nat := 4.
Definition KNH2_PREAMBLE : list u8 := String.list_byte_of_string "KNH2"%string.
Definition KNH2_MAGIC : Z := from_be_bytes KNH2_PREAMBLE.
Definition SIGNER_HINT_LEN : nat := 8.

Inductive FrameError : Type :=
| Io (code : Z)
| EofBeforeHeader
| TruncatedHeader (bytes_read : Z)
| TruncatedHint (bytes_read : Z)
| TruncatedHintedFrame (header_bytes_read : Z)
| TruncatedPayload (bytes_read declared_length : Z)
| OversizeFrame (declared_length max : Z)
| ZeroLengthFrame
| DeadlineExceeded.

(** ** The reader *)

Inductive delivery : Type :=
| Chunk (bs : list u8)
| Failed (code : Z).

Record event : Type := { at_time : Z; what : delivery }.

Record stream : Type := { events : list event; end_time : Z }.

(** A computation that reads and may fail; what was read stays read. *)
Definition reading (A : Type) : Type := stream → result A FrameError * stream.

#[global] Instance reading_ret : MRet reading := fun A a s => (Ok a, s).
#[global] Instance reading_bind : MBind reading := fun A B k m s =>
  match m s with
  | (Ok a, s') => k a s'
  | (Err e, s') => (Err e, s')
  end.

Definition stop {A} (e : FrameError) : reading A := fun s => (Err e, s).

(** [check_deadline] at the instant [now]. *)
Definition check_deadline (deadline : option Z) (now : Z) : result () FrameError :=
  match deadline with
  | Some d => if decide (d ≤ now) then Err DeadlineExceeded else Ok ()
  | None => Ok ()
  end.

(** The loop [while filled < len { check; read; ... }] that the four readers
    share; [eof] is the error of a read of zero bytes, given the bytes filled so
    far.  It recurses on the script. *)
Fixpoint fill (evs : list event) (end_time : Z) (need : nat) (filled : list u8)
    (deadline : option Z) (eof : Z → FrameError) : result (list u8) FrameError * list event :=
  if decide (need = 0%nat) then (Ok filled, evs)
  else
    match evs with
    | [] =>
        match check_deadline deadline end_time with
        | Err e => (Err e, [])
        | Ok _ => (Err (eof (Z.of_nat (length filled))), [])
        end
    | ev :: evs' =>
        match check_deadline deadline (at_time ev) with
        | Err e => (Err e, evs)
        | Ok _ =>
            match what ev with
            | Failed code => (Err (Io code), evs')
            | Chunk [] => (Err (eof (Z.of_nat (length filled))), evs')
            | Chunk bs =>
                if decide (length bs ≤ need)%nat
                then fill evs' end_time (need - length bs) (filled ++ bs) deadline eof
                else (Ok (filled ++ take need bs),
                      {| at_time := at_time ev; what := Chunk (drop need bs) |} :: evs')
            end
        end
    end.

Definition fill_buf (len : nat) (deadline : option Z) (eof : Z → FrameError)
  : reading (list u8) := fun s =>
  let '(r, evs) := fill (events s) (end_time s) len [] deadline eof in
  (r, {| events := evs; end_time := end_time s |}).

Definition read_header_bytes (deadline : option Z) : reading (list u8) :=
  fill_buf HEADER_LEN deadline
    (fun n => if decide (n = 0) then EofBeforeHeader else TruncatedHeader n).

Definition read_payload (declared max_frame_size : Z) (deadline : option Z)
  : reading (list u8) :=
  if decide (declared = 0) then stop ZeroLengthFrame
  else if decide (max_frame_size < declared) then stop (OversizeFrame declared max_frame_size)
  else fill_buf (Z.to_nat declared) deadline (fun n => TruncatedPayload n declared).

Definition read_frame_bounded (max_frame_size : Z) (deadline : option Z) : reading (list u8) :=
  let max_frame_size := Z.min max_frame_size HARD_MAX_FRAME_SIZE in
  header ← read_header_bytes deadline;
  read_payload (from_be_bytes header) max_frame_size deadline.

Definition read_frame (max_frame_size : Z) : reading (list u8) :=
  read_frame_bounded max_frame_size None.

Definition read_frame_with_deadline (max_frame_size deadline : Z) : reading (list u8) :=
  read_frame_bounded max_frame_size (Some deadline).

Definition read_frame_with_prefix_bounded (prefix : list u8) (max_frame_size : Z)
    (deadline : option Z) : reading (list u8) :=
  let max_frame_size := Z.min max_frame_size HARD_MAX_FRAME_SIZE in
  read_payload (from_be_bytes prefix) max_frame_size deadline.

Definition read_frame_with_prefix (prefix : list u8) (max_frame_size : Z) : reading (list u8) :=
  read_frame_with_prefix_bounded prefix max_frame_size None.

Definition read_hinted_frame_bounded (max_frame_size : Z) (deadline : option Z)
  : reading (Z * list u8) :=
  let max_frame_size := Z.min max_frame_size HARD_MAX_FRAME_SIZE in
  hint ← fill_buf SIGNER_HINT_LEN deadline
    (fun n => if decide (n = 0) then EofBeforeHeader else TruncatedHint n);
  let signer := from_be_bytes hint in
  header ← fill_buf HEADER_LEN deadline TruncatedHintedFrame;
  payload ← read_payload (from_be_bytes header) max_frame_size deadline;
  mret (signer, payload).

Definition read_hinted_frame (max_frame_size : Z) : reading (Z * list u8) :=
  read_hinted_frame_bounded max_frame_size None.

Inductive Negotiation : Type :=
| Hinted
| Legacy (prefix : list u8).

Definition negotiate_connection_bounded (deadline : option Z) : reading Negotiation :=
  head ← read_header_bytes deadline;
  mret (if decide (head = KNH2_PREAMBLE) then Hinted else Legacy head).

Definition negotiate_connection : reading Negotiation := negotiate_connection_bounded None.

Record ConnReader : Type := { hinted : option bool }.

Definition ConnReader_new : ConnReader := {| hinted := None |}.

(** [read_next_bounded] also updates the reader's classification. *)
Definition read_next_bounded (self : ConnReader) (max_frame_size : Z) (deadline : option Z)
    (s : stream) : result (Z * list u8) FrameError * ConnReader * stream :=
  match hinted self with
  | None =>
      match negotiate_connection_bounded deadline s with
      | (Err e, s) => (Err e, self, s)
      | (Ok Hinted, s) =>
          let '(r, s) := read_hinted_frame_bounded max_frame_size deadline s in
          (r, {| hinted := Some true |}, s)
      | (Ok (Legacy prefix), s) =>
          let '(r, s) :=
            (payload ← read_frame_with_prefix_bounded prefix max_frame_size deadline;
             mret (LEGACY_SIGNER_HINT, payload)) s in
          (r, {| hinted := Some false |}, s)
      end
  | Some true =>
      let '(r, s) := read_hinted_frame_bounded max_frame_size deadline s in (r, self, s)
  | Some false =>
      let '(r, s) :=
        (payload ← read_frame_bounded max_frame_size deadline;
         mret (LEGACY_SIGNER_HINT, payload)) s in
      (r, self, s)
  end.

Definition read_next (self : ConnReader) (max_frame_size : Z) (s : stream) :=
  read_next_bounded self max_frame_size None s.

Definition read_next_with_deadline (self : ConnReader) (max_frame_size deadline : Z) (s : stream) :=
  read_next_bounded self max_frame_size (Some deadline) s.

Definition read_request (max_frame_size : Z) (s : stream) :=
  let '(r, _, s) := read_next ConnReader_new max_frame_size s in (r, s).

Definition read_request_with_deadline (max_frame_size deadline : Z) (s : stream) :=
  let '(r, _, s) := read_next_with_deadline ConnReader_new max_frame_size deadline s in (r, s).

(** ** The encoders *)

Inductive WriteFrameError : Type := PayloadTooLarge (len : Z).

Definition encode_frame (payload : list u8) : result (list u8) WriteFrameError :=
  let len := Z.of_nat (length payload) in
  if decide (len < 2 ^ 32) then Ok (to_be_bytes 4 len ++ payload) else Err (PayloadTooLarge len).

Definition encode_hinted_frame (signer : Z) (payload : list u8)
  : result (list u8) WriteFrameError :=
  let len := Z.of_nat (length payload) in
  if decide (len < 2 ^ 32) then Ok (to_be_bytes 8 signer ++ to_be_bytes 4 len ++ payload)
  else Err (PayloadTooLarge len).

(** ** Streams as byte strings *)

Definition chunk_bytes (ev : event) : list u8 :=
  match what ev with Chunk bs => bs | Failed _ => [] end.

Definition content (s : stream) : list u8 := events s ≫= chunk_bytes.

Definition in_time (deadline : option Z) (t : Z) : Prop :=
  match deadline with Some d => t < d | None => True end.

(** A stream that delivers its content before the deadline, in non-empty chunks
    and without errors. *)
Definition clean_event (deadline : option Z) (ev : event) : Prop :=
  in_time deadline (at_time ev) ∧ ∃ bs, what ev = Chunk bs ∧ bs ≠ [].

Definition clean (deadline : option Z) (s : stream) : Prop :=
  Forall (clean_event deadline) (events s) ∧ in_time deadline (end_time s).

Lemma check_deadline_Ok deadline t : check_deadline deadline t = Ok () ↔ in_time deadline t.
Proof.
  destruct deadline as [d|]; cbn; [|done]. case_decide; split; try done; lia.
Qed.

Lemma content_cons ev evs bs :
  what ev = Chunk bs → (ev :: evs) ≫= chunk_bytes = bs ++ (evs ≫= chunk_bytes).
Proof. intros Hw. cbn. unfold chunk_bytes at 1. by rewrite Hw. Qed.

(** What a loop of reads makes of a clean stream. *)
Lemma fill_clean evs et need filled dl eof r evs' :
  clean dl {| events := evs; end_time := et |} →
  fill evs et need filled dl eof = (r, evs') →
  let c := evs ≫= chunk_bytes in
  r = (if decide (need ≤ length c)%nat then Ok (filled ++ take need c)
       else Err (eof (Z.of_nat (length filled + length c)))) ∧
  evs' ≫= chunk_bytes = drop need c ∧
  clean dl {| events := evs'; end_time := et |}.
Proof.
  intros [Hev Het]. cbn [events end_time] in *. revert need filled.
  induction Hev as [|ev evs [Ht (bs & Hw & Hne)] Hev IH]; intros need filled; cbn [fill];
    case_decide as Hn.
  - subst need. intros [= <- <-]. cbn. by rewrite app_nil_r.
  - rewrite (proj2 (check_deadline_Ok dl et) Het). intros [= <- <-]. cbn.
    rewrite decide_False by lia. rewrite drop_nil. by rewrite Nat.add_0_r.
  - subst need. intros [= <- <-]. cbn [length]. rewrite decide_True by lia.
    rewrite take_0, app_nil_r, drop_0. split; [done|]. split; [done|]. split; [|done].
    constructor; [|done]. split; eauto.
  - rewrite (proj2 (check_deadline_Ok dl _) Ht), Hw, (content_cons ev evs bs Hw).
    destruct bs as [|b bs]; [done|]. set (cs := b :: bs) in *.
    case_decide as Hle.
    + intros Hf. apply IH in Hf as (-> & Hc & Hcl). rewrite drop_app_ge, take_app_ge, !length_app by done.
      rewrite Hc. split; [|by split].
      repeat case_decide; try lia; [by rewrite app_assoc|]. do 2 f_equal. lia.
    + intros [= <- <-]. rewrite length_app, drop_app_le, take_app_le by lia.
      rewrite decide_True by lia. split; [done|]. split; [done|]. split; [|done].
      constructor; [|done].
      split; [done|]. exists (drop need cs). split; [done|].
      intros Hd%(f_equal length). rewrite length_drop in Hd. cbn [length] in Hd. lia.
Qed.

(** Whatever the stream, what was read was there. *)
Lemma fill_sound evs et need filled dl eof bs evs' :
  fill evs et need filled dl eof = (Ok bs, evs') →
  ∃ t, bs = filled ++ t ∧ length t = need ∧ evs ≫= chunk_bytes = t ++ (evs' ≫= chunk_bytes).
Proof.
  revert need filled. induction evs as [|ev evs IH]; intros need filled; cbn [fill];
    case_decide as Hn.
  - intros [= <- <-]. exists []. by rewrite app_nil_r.
  - by destruct (check_deadline _ _).
  - intros [= <- <-]. exists []. by rewrite app_nil_r.
  - destruct (check_deadline _ _); [|done]. destruct (what ev) as [[|b cs]|] eqn:Hw; [done| |done].
    case_decide as Hle.
    + intros (t & -> & Hl & Hc)%IH. exists ((b :: cs) ++ t). rewrite !app_assoc, length_app.
      split_and!; [done|lia|]. by rewrite (content_cons _ _ _ Hw), Hc, app_assoc.
    + intros [= <- <-]. exists (take need (b :: cs)). rewrite length_take.
      split_and!; [done|lia|]. rewrite (content_cons _ _ _ Hw).
      rewrite (content_cons _ evs (drop need (b :: cs))) by done. by rewrite app_assoc, take_drop.
Qed.

(** ** The flat parser

    The same protocol over a byte string, with the errors it gives when the
    string ends early. *)

Definition flat (A : Type) : Type := list u8 → result A FrameError * list u8.

#[global] Instance flat_ret : MRet flat := fun A a c => (Ok a, c).
#[global] Instance flat_bind : MBind flat := fun A B k m c =>
  match m c with
  | (Ok a, c') => k a c'
  | (Err e, c') => (Err e, c')
  end.

Definition flat_take (n : nat) (eof : Z → FrameError) : flat (list u8) := fun c =>
  (if decide (n ≤ length c)%nat then Ok (take n c) else Err (eof (Z.of_nat (length c))),
   drop n c).

Definition flat_stop {A} (e : FrameError) : flat A := fun c => (Err e, c).

(** A reader whose behaviour on clean streams depends on their content alone. *)
Definition reads_as {A} (dl : option Z) (m : reading A) (f : flat A) : Prop :=
  ∀ s r s', clean dl s → m s = (r, s') → (r, content s') = f (content s) ∧ clean dl s'.

Lemma reads_as_ret {A} dl (a : A) : reads_as dl (mret a) (mret a).
Proof. by intros s r s' Hs [= <- <-]. Qed.

Lemma reads_as_stop {A} dl e : reads_as dl (stop e : reading A) (flat_stop e).
Proof. by intros s r s' Hs [= <- <-]. Qed.

Lemma reads_as_bind {A B} dl (m : reading A) (k : A → reading B) f h :
  reads_as dl m f → (∀ a, reads_as dl (k a) (h a)) → reads_as dl (m ≫= k) (f ≫= h).
Proof.
  intros Hm Hk s r s' Hs Hr. unfold mbind, reading_bind, flat_bind in *.
  destruct (m s) as [[a|e] s1] eqn:Hms; destruct (Hm _ _ _ Hs Hms) as [Hf Hs1]; rewrite <- Hf.
  - by apply (Hk a).
  - by injection Hr as <- <-.
Qed.

Lemma reads_as_decide {A} dl P `{Decision P} (m1 m2 : reading A) f1 f2 :
  reads_as dl m1 f1 → reads_as dl m2 f2 →
  reads_as dl (if decide P then m1 else m2) (if decide P then f1 else f2).
Proof. intros. by case_decide. Qed.

Lemma reads_as_fill dl n eof : reads_as dl (fill_buf n dl eof) (flat_take n eof).
Proof.
  intros [evs et] r s' Hs. unfold fill_buf, flat_take, content. cbn [events end_time].
  destruct (fill evs et n [] dl eof) as [r' evs'] eqn:Hf. intros [= <- <-].
  destruct (fill_clean _ _ _ _ _ _ _ _ Hs Hf) as (-> & Hc & Hcl). cbn [events].
  rewrite Hc. split; [|done]. f_equal.
Qed.

Definition flat_payload (declared max : Z) : flat (list u8) :=
  if decide (declared = 0) then flat_stop ZeroLengthFrame
  else if decide (max < declared) then flat_stop (OversizeFrame declared max)
  else flat_take (Z.to_nat declared) (fun n => TruncatedPayload n declared).

Definition flat_header : flat (list u8) :=
  flat_take HEADER_LEN (fun n => if decide (n = 0) then EofBeforeHeader else TruncatedHeader n).

Definition flat_frame (max : Z) : flat (list u8) :=
  header ← flat_header;
  flat_payload (from_be_bytes header) (Z.min max HARD_MAX_FRAME_SIZE).

Definition flat_hinted (max : Z) : flat (Z * list u8) :=
  hint ← flat_take SIGNER_HINT_LEN
    (fun n => if decide (n = 0) then EofBeforeHeader else TruncatedHint n);
  header ← flat_take HEADER_LEN TruncatedHintedFrame;
  payload ← flat_payload (from_be_bytes header) (Z.min max HARD_MAX_FRAME_SIZE);
  mret (from_be_bytes hint, payload).

Definition flat_next (self : ConnReader) (max : Z) (c : list u8)
  : result (Z * list u8) FrameError * ConnReader * list u8 :=
  match hinted self with
  | None =>
      match flat_header c with
      | (Err e, c) => (Err e, self, c)
      | (Ok head, c) =>
          if decide (head = KNH2_PREAMBLE)
          then let '(r, c) := flat_hinted max c in (r, {| hinted := Some true |}, c)
          else
            let '(r, c) :=
              (payload ← flat_payload (from_be_bytes head) (Z.min max HARD_MAX_FRAME_SIZE);
               mret (LEGACY_SIGNER_HINT, payload)) c in
            (r, {| hinted := Some false |}, c)
      end
  | Some true => let '(r, c) := flat_hinted max c in (r, self, c)
  | Some false =>
      let '(r, c) := (payload ← flat_frame max; mret (LEGACY_SIGNER_HINT, payload)) c in
      (r, self, c)
  end.

Create HintDb reads_as.
#[export] Hint Resolve reads_as_ret reads_as_stop reads_as_bind reads_as_decide reads_as_fill
  : reads_as.

Lemma reads_as_payload dl declared max :
  reads_as dl (read_payload declared max dl) (flat_payload declared max).
Proof. unfold read_payload, flat_payload. auto with reads_as. Qed.
#[export] Hint Resolve reads_as_payload : reads_as.

Lemma reads_as_header dl : reads_as dl (read_header_bytes dl) flat_header.
Proof. apply reads_as_fill. Qed.

Lemma reads_as_frame dl max : reads_as dl (read_frame_bounded max dl) (flat_frame max).
Proof. apply reads_as_bind; [apply reads_as_header|auto with reads_as]. Qed.

Lemma reads_as_hinted dl max : reads_as dl (read_hinted_frame_bounded max dl) (flat_hinted max).
Proof. unfold read_hinted_frame_bounded, flat_hinted. auto 10 with reads_as. Qed.

Lemma reads_as_legacy dl (m : reading (list u8)) f :
  reads_as dl m f →
  reads_as dl (payload ← m; mret (LEGACY_SIGNER_HINT, payload))
    (payload ← f; mret (LEGACY_SIGNER_HINT, payload)).
Proof. auto with reads_as. Qed.

(** The connection reader on a clean stream is the flat parser on its content. *)
Lemma read_next_flat self max dl s :
  clean dl s →
  let '(r, self', s') := read_next_bounded self max dl s in
  (r, self', content s') = flat_next self max (content s) ∧ clean dl s'.
Proof.
  intros Hs. unfold read_next_bounded, flat_next. destruct (hinted self) as [[]|].
  - destruct (read_hinted_frame_bounded max dl s) as [r s'] eqn:Hr.
    by destruct (reads_as_hinted dl max _ _ _ Hs Hr) as [<- ?].
  - destruct ((payload ← read_frame_bounded max dl; _) s) as [r s'] eqn:Hr.
    by destruct (reads_as_legacy _ _ _ (reads_as_frame dl max) _ _ _ Hs Hr) as [<- ?].
  - unfold negotiate_connection_bounded.
    destruct (read_header_bytes dl s) as [[head|e] s1] eqn:Hh;
      destruct (reads_as_header dl _ _ _ Hs Hh) as [<- Hs1];
      unfold mbind at 1, reading_bind at 1; rewrite Hh; [|done].
    unfold mret at 1, reading_ret at 1. case_decide as Hp.
    + destruct (read_hinted_frame_bounded max dl s1) as [r s'] eqn:Hr.
      by destruct (reads_as_hinted dl max _ _ _ Hs1 Hr) as [<- ?].
    + unfold read_frame_with_prefix_bounded.
      destruct ((payload ← read_payload _ _ dl; _) s1) as [r s'] eqn:Hr.
      by destruct (reads_as_legacy _ _ _ (reads_as_payload dl _ _) _ _ _ Hs1 Hr) as [<- ?].
Qed.

(** ** Conversations *)

(** Requests read from one connection until the first error. *)
Fixpoint conversation (fuel : nat) (self : ConnReader) (max : Z) (s : stream)
  : list (Z * list u8) * option FrameError :=
  match fuel with
  | O => ([], None)
  | S fuel =>
      match read_next self max s with
      | (Ok m, self, s) => let '(ms, e) := conversation fuel self max s in (m :: ms, e)
      | (Err e, _, _) => ([], Some e)
      end
  end.

(** What a client of either protocol sends. *)
Definition frame_wire (p : list u8) : list u8 :=
  to_be_bytes 4 (Z.of_nat (length p)) ++ p.
Definition hinted_wire (m : Z * list u8) : list u8 := to_be_bytes 8 m.1 ++ frame_wire m.2.

Definition wire (h : bool) (ms : list (Z * list u8)) : list u8 :=
  if h then KNH2_PREAMBLE ++ (ms ≫= hinted_wire) else ms ≫= (fun m => frame_wire m.2).

Definition payload_ok (max : Z) (p : list u8) : Prop :=
  1 ≤ Z.of_nat (length p) ≤ Z.min max HARD_MAX_FRAME_SIZE.

Definition request_ok (h : bool) (max : Z) (m : Z * list u8) : Prop :=
  payload_ok max m.2 ∧ if h then in_u64 m.1 else m.1 = LEGACY_SIGNER_HINT.

Lemma encode_frame_wire max p : payload_ok max p → encode_frame p = Ok (frame_wire p).
Proof.
  unfold payload_ok, HARD_MAX_FRAME_SIZE, encode_frame. intros. by rewrite decide_True by lia.
Qed.

Lemma encode_hinted_frame_wire max h p :
  payload_ok max p → encode_hinted_frame h p = Ok (hinted_wire (h, p)).
Proof.
  unfold payload_ok, HARD_MAX_FRAME_SIZE, encode_hinted_frame. intros.
  by rewrite decide_True by lia.
Qed.

Lemma flat_take_app n eof a c : length a = n → flat_take n eof (a ++ c) = (Ok a, c).
Proof.
  intros <-. unfold flat_take. rewrite length_app, decide_True by lia.
  by rewrite take_app_length, drop_app_length.
Qed.

Lemma flat_bind_Ok {A B} (m : flat A) (k : A → flat B) c a c' :
  m c = (Ok a, c') → (m ≫= k) c = k a c'.
Proof. intros Hm. unfold mbind, flat_bind. by rewrite Hm. Qed.

Lemma payload_len max p : payload_ok max p → in_u32 (Z.of_nat (length p)).
Proof. unfold payload_ok, HARD_MAX_FRAME_SIZE, in_width. lia. Qed.

Lemma flat_payload_app max p c :
  payload_ok max p →
  flat_payload (Z.of_nat (length p)) (Z.min max HARD_MAX_FRAME_SIZE) (p ++ c) = (Ok p, c).
Proof.
  unfold payload_ok, flat_payload. intros Hp. rewrite decide_False, decide_False by lia.
  apply flat_take_app. lia.
Qed.

Lemma flat_frame_app max p c :
  payload_ok max p → flat_frame max (frame_wire p ++ c) = (Ok p, c).
Proof.
  intros Hp. unfold flat_frame, flat_header, HEADER_LEN, frame_wire. rewrite <- app_assoc.
  rewrite (flat_bind_Ok _ _ _ _ _ (flat_take_app _ _ _ _ (to_be_bytes_length 4 _))).
  rewrite from_to_be_bytes by by eapply payload_len. by apply flat_payload_app.
Qed.

Lemma flat_hinted_app max m c :
  request_ok true max m → flat_hinted max (hinted_wire m ++ c) = (Ok m, c).
Proof.
  intros [Hp Hh]. destruct m as [h p]. unfold flat_hinted, SIGNER_HINT_LEN, HEADER_LEN, hinted_wire, frame_wire.
  cbn [fst snd] in *.
  rewrite <- !app_assoc.
  rewrite (flat_bind_Ok _ _ _ _ _ (flat_take_app _ _ _ _ (to_be_bytes_length 8 _))).
  rewrite (flat_bind_Ok _ _ _ _ _ (flat_take_app _ _ _ _ (to_be_bytes_length 4 _))).
  rewrite !from_to_be_bytes by (done || by eapply payload_len).
  by rewrite (flat_bind_Ok _ _ _ _ _ (flat_payload_app max p c Hp)).
Qed.

(** No valid legacy header is the preamble. *)
Lemma legacy_header_not_preamble max p :
  payload_ok max p → to_be_bytes 4 (Z.of_nat (length p)) ≠ KNH2_PREAMBLE.
Proof.
  intros Hp Heq. apply (f_equal from_be_bytes) in Heq.
  rewrite from_to_be_bytes in Heq by by eapply payload_len.
  assert (Hmagic : HARD_MAX_FRAME_SIZE < from_be_bytes KNH2_PREAMBLE) by (vm_compute; reflexivity).
  unfold payload_ok in Hp. lia.
Qed.

Lemma flat_next_hinted self max m c :
  hinted self = Some true → request_ok true max m →
  flat_next self max (hinted_wire m ++ c) = (Ok m, self, c).
Proof. intros Hs Hm. unfold flat_next. by rewrite Hs, flat_hinted_app. Qed.

Lemma flat_next_legacy self max m c :
  hinted self = Some false → request_ok false max m →
  flat_next self max (frame_wire m.2 ++ c) = (Ok m, self, c).
Proof.
  intros Hs [Hp Hh]. destruct m as [h p]. cbn in *. subst h. unfold flat_next. rewrite Hs.
  by rewrite (flat_bind_Ok _ _ _ _ _ (flat_frame_app max p c Hp)).
Qed.

Lemma flat_next_first_hinted max m c :
  request_ok true max m →
  flat_next ConnReader_new max (KNH2_PREAMBLE ++ hinted_wire m ++ c) =
  (Ok m, {| hinted := Some true |}, c).
Proof.
  intros Hm. unfold flat_next. cbn [hinted ConnReader_new]. unfold flat_header.
  rewrite flat_take_app by done. rewrite decide_True by done. by rewrite flat_hinted_app.
Qed.

Lemma flat_next_first_legacy max m c :
  request_ok false max m →
  flat_next ConnReader_new max (frame_wire m.2 ++ c) = (Ok m, {| hinted := Some false |}, c).
Proof.
  intros [Hp Hh]. destruct m as [h p]. cbn [fst snd] in *. subst h. unfold flat_next, frame_wire.
  cbn [hinted ConnReader_new]. unfold flat_header. rewrite <- app_assoc.
  rewrite flat_take_app by apply to_be_bytes_length.
  rewrite decide_False by by eapply legacy_header_not_preamble.
  rewrite from_to_be_bytes by by eapply payload_len.
  by rewrite (flat_bind_Ok _ _ _ _ _ (flat_payload_app max p c Hp)).
Qed.

Lemma flat_next_eof self max : (flat_next self max []).1.1 = Err EofBeforeHeader.
Proof. by destruct self as [[[]|]]. Qed.

(** One read of a conversation, through the flat parser. *)
Lemma conversation_Ok fuel self max s m self' c' :
  clean None s → flat_next self max (content s) = (Ok m, self', c') →
  ∃ s', clean None s' ∧ content s' = c' ∧
    conversation (S fuel) self max s =
    (m :: (conversation fuel self' max s').1, (conversation fuel self' max s').2).
Proof.
  intros Hs Hf. pose proof (read_next_flat self max None s Hs) as Hr. cbn [conversation].
  unfold read_next. destruct (read_next_bounded self max None s) as [[r self''] s'].
  destruct Hr as [Hr Hs']. rewrite Hf in Hr. injection Hr as -> -> Hc. exists s'.
  split; [done|]. split; [done|]. by destruct (conversation fuel self' max s').
Qed.

Lemma conversation_Err fuel self max s e :
  clean None s → (flat_next self max (content s)).1.1 = Err e →
  conversation (S fuel) self max s = ([], Some e).
Proof.
  intros Hs Hf. pose proof (read_next_flat self max None s Hs) as Hr. cbn [conversation].
  unfold read_next. destruct (read_next_bounded self max None s) as [[r self'] s'].
  destruct Hr as [Hr _]. rewrite <- Hr in Hf. cbn in Hf. by subst r.
Qed.

Definition body (h : bool) (m : Z * list u8) : list u8 :=
  if h then hinted_wire m else frame_wire m.2.

Lemma flat_next_body h self max m c :
  hinted self = Some h → request_ok h max m →
  flat_next self max (body h m ++ c) = (Ok m, self, c).
Proof. destruct h; [apply flat_next_hinted|apply flat_next_legacy]. Qed.

Lemma conversation_steady h self max ms s :
  hinted self = Some h → clean None s → content s = ms ≫= body h →
  Forall (request_ok h max) ms →
  conversation (S (length ms)) self max s = (ms, Some EofBeforeHeader).
Proof.
  intros Hh Hs Hc Hms. revert s Hs Hc. induction Hms as [|m ms Hm Hms IH]; intros s Hs Hc.
  - apply conversation_Err; [done|]. rewrite Hc. apply flat_next_eof.
  - destruct (conversation_Ok (length (m :: ms)) self max s m self (ms ≫= body h))
      as (s' & Hs' & Hc' & ->); [done| |].
    + rewrite Hc. by apply flat_next_body.
    + cbn [length]. by rewrite (IH s').
Qed.

(** ** What a reader consumed *)

Definition yields {A} (m : reading A) (L : A → list u8 → Prop) : Prop :=
  ∀ s a s', m s = (Ok a, s') → ∃ e, content s = e ++ content s' ∧ L a e.

Lemma yields_ret {A} (a : A) : yields (mret a) (fun b e => b = a ∧ e = []).
Proof. intros s b s' [= <- <-]. by exists []. Qed.

Lemma yields_stop {A} err L : yields (stop err : reading A) L.
Proof. by intros s b s' [=]. Qed.

Lemma yields_bind {A B} (m : reading A) (k : A → reading B) L M :
  yields m L → (∀ a, yields (k a) (M a)) →
  yields (m ≫= k) (fun b e => ∃ a e1 e2, e = e1 ++ e2 ∧ L a e1 ∧ M a b e2).
Proof.
  intros Hm Hk s b s'' Hr. unfold mbind, reading_bind in Hr.
  destruct (m s) as [[a|?] s'] eqn:Hms; [|done].
  destruct (Hm _ _ _ Hms) as (e1 & Hc1 & HL). destruct (Hk a _ _ _ Hr) as (e2 & Hc2 & HM).
  exists (e1 ++ e2). rewrite <- app_assoc, <- Hc2. split; [done|]. eauto 10.
Qed.

Lemma yields_fill n dl eof : yields (fill_buf n dl eof) (fun bs e => bs = e ∧ length e = n).
Proof.
  intros s bs s'. unfold fill_buf, content.
  destruct (fill (events s) (end_time s) n [] dl eof) as [r evs] eqn:Hf. intros [= -> <-].
  apply fill_sound in Hf as (t & -> & Hl & Hc). exists t. by rewrite Hc.
Qed.

Lemma yields_payload declared max dl :
  0 ≤ declared →
  yields (read_payload declared max dl)
    (fun p e => p = e ∧ Z.of_nat (length p) = declared ∧ 1 ≤ declared ≤ max).
Proof.
  intros Hd. unfold read_payload. case_decide; [apply yields_stop|].
  case_decide; [apply yields_stop|].
  intros s p s' (e & Hc & -> & Hl)%yields_fill. exists e. split_and!; [done|done|lia..].
Qed.

Lemma header_bytes (header : list u8) p :
  length header = 4%nat → Z.of_nat (length p) = from_be_bytes header →
  header ++ p = frame_wire p.
Proof.
  intros Hl Hp. unfold frame_wire. rewrite Hp. by rewrite <- Hl, to_from_be_bytes.
Qed.

Lemma yields_frame max dl :
  yields (read_frame_bounded max dl) (fun p e => e = frame_wire p ∧ payload_ok max p).
Proof.
  intros s p s' Hr. apply (yields_bind _ _ _ _ (yields_fill _ _ _)
    (fun h => yields_payload _ _ _ (proj1 (from_be_bytes_bound h)))) in Hr
    as (e & Hc & h & e1 & e2 & -> & [-> Hl] & -> & Hp & Hb).
  exists (e1 ++ e2). rewrite (header_bytes e1 e2) in * by done.
  split; [done|]. split; [done|]. unfold payload_ok. lia.
Qed.

Lemma yields_hinted max dl :
  yields (read_hinted_frame_bounded max dl)
    (fun m e => e = hinted_wire m ∧ request_ok true max m).
Proof.
  intros s [hint p] s' Hr. apply (yields_bind _ _ _ _ (yields_fill _ _ _)
    (fun h => yields_bind _ _ _ _ (yields_fill _ _ _)
    (fun h' => yields_bind _ _ _ _ (yields_payload _ _ _ (proj1 (from_be_bytes_bound h')))
    (fun p => yields_ret _)))) in Hr as (e & Hc & h & e1 & e2 & -> & [-> Hl] & Hr).
  destruct Hr as (h' & e3 & e4 & -> & [-> Hl'] & p' & e5 & e6 & -> & (-> & Hp & Hb) & [= -> ->] & ->).
  exists (hinted_wire (from_be_bytes e1, e5)). unfold hinted_wire. cbn [fst snd].
  pose proof (from_be_bytes_bound e1) as Hw. pose proof (to_from_be_bytes e1) as Heq.
  rewrite Hl in Hw, Heq. unfold SIGNER_HINT_LEN in Hw, Heq. rewrite Heq.
  rewrite app_nil_r, (header_bytes e3 e5) in Hc by done.
  split; [done|]. split; [done|]. split; [unfold payload_ok; cbn; lia|done].
Qed.

(** ** Deadlines *)

(** What arrives at or after the deadline is never read and never matters. *)
Definition deadline_local {A} (d : Z) (m : reading A) : Prop :=
  ∀ early late et, Forall (fun ev => d ≤ at_time ev) late → d ≤ et →
  ∃ r x, m {| events := early; end_time := et |} = (r, {| events := x; end_time := et |}) ∧
         m {| events := early ++ late; end_time := et |} =
           (r, {| events := x ++ late; end_time := et |}).

Lemma local_ret {A} d (a : A) : deadline_local d (mret a).
Proof. intros early late et _ _. by exists (Ok a), early. Qed.

Lemma local_stop {A} d e : deadline_local d (stop e : reading A).
Proof. intros early late et _ _. by exists (Err e), early. Qed.

Lemma local_bind {A B} d (m : reading A) (k : A → reading B) :
  deadline_local d m → (∀ a, deadline_local d (k a)) → deadline_local d (m ≫= k).
Proof.
  intros Hm Hk early late et Hl Het. destruct (Hm early late et Hl Het) as (r & x & H1 & H2).
  unfold mbind, reading_bind. rewrite H1, H2. destruct r as [a|e]; [|by exists (Err e), x].
  by apply (Hk a).
Qed.

Lemma fill_local early late et d need filled eof :
  Forall (fun ev => d ≤ at_time ev) late → d ≤ et →
  ∃ r x, fill early et need filled (Some d) eof = (r, x) ∧
         fill (early ++ late) et need filled (Some d) eof = (r, x ++ late).
Proof.
  intros Hl Het. revert need filled. induction early as [|ev early IH]; intros need filled.
  - destruct (decide (need = 0%nat)) as [->|Hn].
    + exists (Ok filled), []. by destruct late.
    + exists (Err DeadlineExceeded), []. split.
      * cbn. rewrite decide_False, decide_True by done. done.
      * destruct Hl as [|ev late Hev Hl]; cbn; by rewrite decide_False, decide_True by done.
  - cbn [fill app]. case_decide; [by eauto|].
    destruct (check_deadline _ _); [|by eauto].
    destruct (what ev) as [[|b bs]|]; [by eauto| |by eauto].
    case_decide; [apply IH|by eauto].
Qed.

Lemma local_fill d n eof : deadline_local d (fill_buf n (Some d) eof).
Proof.
  intros early late et Hl Het. unfold fill_buf. cbn [events end_time].
  destruct (fill_local early late et d n [] eof Hl Het) as (r & x & -> & ->).
  by exists r, x.
Qed.

Lemma local_decide {A} d P `{Decision P} (m1 m2 : reading A) :
  deadline_local d m1 → deadline_local d m2 → deadline_local d (if decide P then m1 else m2).
Proof. intros. by case_decide. Qed.

Create HintDb deadline.
#[export] Hint Resolve local_ret local_stop local_bind local_fill local_decide : deadline.

Lemma local_payload d declared max : deadline_local d (read_payload declared max (Some d)).
Proof. unfold read_payload. auto with deadline. Qed.
#[export] Hint Resolve local_payload : deadline.

Lemma local_hinted d max : deadline_local d (read_hinted_frame_bounded max (Some d)).
Proof. unfold read_hinted_frame_bounded. auto 10 with deadline. Qed.

Lemma local_negotiate d : deadline_local d (negotiate_connection_bounded (Some d)).
Proof. unfold negotiate_connection_bounded, read_header_bytes. auto with deadline. Qed.

Lemma local_frame d max : deadline_local d (read_frame_bounded max (Some d)).
Proof. unfold read_frame_bounded, read_header_bytes. auto with deadline. Qed.

Lemma local_legacy d (m : reading (list u8)) :
  deadline_local d m → deadline_local d (payload ← m; mret (LEGACY_SIGNER_HINT, payload)).
Proof. auto with deadline. Qed.

(** ** Correctness *)

(** What a connection reader returns depends on the bytes of the connection
    and not on how they arrive.  On any two streams that deliver the same
    content in non-empty chunks, without I/O errors and in time, it returns the
    same request or the same error, ends in the same classification and leaves
    the same bytes unread. *)
Theorem read_next_chunking self max dl1 dl2 s1 s2 :
  clean dl1 s1 → clean dl2 s2 → content s1 = content s2 →
  let '(r1, self1, t1) := read_next_bounded self max dl1 s1 in
  let '(r2, self2, t2) := read_next_bounded self max dl2 s2 in
  r1 = r2 ∧ self1 = self2 ∧ content t1 = content t2.
Proof.
  intros H1 H2 Hc. pose proof (read_next_flat self max dl1 s1 H1) as F1.
  pose proof (read_next_flat self max dl2 s2 H2) as F2.
  destruct (read_next_bounded self max dl1 s1) as [[r1 self1] t1].
  destruct (read_next_bounded self max dl2 s2) as [[r2 self2] t2].
  destruct F1 as [F1 _], F2 as [F2 _]. rewrite Hc, <- F2 in F1. by simplify_eq.
Qed.

(** C23: conversations round trip under both protocols.  Whatever valid requests
    a client sends, hinted after the preamble or as plain legacy frames, and
    however the network chunks them, the connection reader returns exactly these
    requests in order, classifies the connection once (no legacy header is taken
    for the preamble), and then reports the clean close. *)
Theorem conversation_roundtrip h max ms s :
  Forall (request_ok h max) ms → clean None s → content s = wire h ms →
  conversation (S (length ms)) ConnReader_new max s = (ms, Some EofBeforeHeader).
Proof.
  intros Hms Hs Hc. destruct Hms as [|m ms Hm Hms].
  { apply conversation_Err; [done|]. rewrite Hc. by destruct h. }
  assert (Hf : flat_next ConnReader_new max (content s) =
    (Ok m, {| hinted := Some h |}, ms ≫= body h)).
  { rewrite Hc. destruct h; cbn [wire].
    - apply (flat_next_first_hinted max m). done.
    - apply (flat_next_first_legacy max m). done. }
  destruct (conversation_Ok (length (m :: ms)) _ _ _ _ _ _ Hs Hf) as (s' & Hs' & Hc' & ->).
  cbn [length]. by rewrite (conversation_steady h {| hinted := Some h |} max ms s').
Qed.

(** On any stream whatsoever, a request that is returned was on the wire: the
    bytes consumed are exactly its encoding (after the preamble when the
    connection was just classified as hinted), the payload is non-empty and no
    longer than the configured and the hard maximum, and a legacy connection
    yields the legacy hint. *)
Theorem read_next_sound self max dl s m self' s' :
  read_next_bounded self max dl s = (Ok m, self', s') →
  ∃ h, hinted self' = Some h ∧ (hinted self = None ∨ hinted self = Some h) ∧
    request_ok h max m ∧
    content s = (if h then match hinted self with None => KNH2_PREAMBLE | _ => [] end else []) ++
                body h m ++ content s'.
Proof.
  unfold read_next_bounded. destruct (hinted self) as [[]|] eqn:Hself.
  - destruct (read_hinted_frame_bounded max dl s) as [r t] eqn:Hr. intros [= -> <- <-].
    apply yields_hinted in Hr as (e & Hc & -> & Hm). exists true. auto.
  - destruct ((payload ← read_frame_bounded max dl; _) s) as [r t] eqn:Hr. intros [= -> <- <-].
    apply (yields_bind _ _ _ _ (yields_frame max dl) (fun p => yields_ret _)) in Hr
      as (e & Hc & p & e1 & e2 & -> & [-> Hp] & -> & ->).
    rewrite app_nil_r in Hc. exists false.
    split; [done|]. split; [auto|]. split; [by split|done].
  - destruct (negotiate_connection_bounded dl s) as [[n|] t] eqn:Hn; [|done].
    apply (yields_bind _ _ _ _ (yields_fill _ _ _) (fun head => yields_ret _)) in Hn
      as (e & Hc & head & e1 & e2 & -> & [-> Hl] & -> & ->). rewrite app_nil_r in Hc.
    case_decide as Hp.
    + destruct (read_hinted_frame_bounded max dl t) as [r t'] eqn:Hr. intros [= -> <- <-].
      apply yields_hinted in Hr as (e & Hc' & -> & Hm). exists true. rewrite Hc, Hc', Hp. auto.
    + destruct ((payload ← read_frame_with_prefix_bounded e1 max dl; _) t) as [r t'] eqn:Hr.
      intros [= -> <- <-].
      apply (yields_bind _ _ _ _ (yields_payload _ _ dl (proj1 (from_be_bytes_bound e1)))
        (fun p => yields_ret _)) in Hr as (e & Hc' & p & e3 & e4 & -> & (-> & Hpl & Hb) & -> & ->).
      rewrite app_nil_r in Hc'. exists false. rewrite Hc, Hc', app_assoc, (header_bytes e1 e3) by done.
      split; [done|]. split; [auto|]. split; [|done]. split; [unfold payload_ok; cbn; lia|done].
Qed.

(** A deadline cuts the request off.  Everything a peer sends at or after
    the deadline is left unread and has no influence on the result: it is the
    result of the stream that stops at the deadline, so a peer that trickles
    bytes cannot hold the reader past it. *)
Theorem deadline_cuts_off self max d early late et :
  Forall (fun ev => d ≤ at_time ev) late → d ≤ et →
  ∃ r self' x,
    read_next_with_deadline self max d {| events := early; end_time := et |} =
      (r, self', {| events := x; end_time := et |}) ∧
    read_next_with_deadline self max d {| events := early ++ late; end_time := et |} =
      (r, self', {| events := x ++ late; end_time := et |}).
Proof.
  intros Hl Het. unfold read_next_with_deadline, read_next_bounded.
  destruct (hinted self) as [[]|].
  - destruct (local_hinted d max early late et Hl Het) as (r & x & -> & ->). by eexists _, _, _.
  - destruct (local_legacy d _ (local_frame d max) early late et Hl Het) as (r & x & -> & ->).
    by eexists _, _, _.
  - destruct (local_negotiate d early late et Hl Het) as (r & x & -> & ->).
    destruct r as [[|prefix]|e]; [| |by eexists _, _, _].
    + destruct (local_hinted d max x late et Hl Het) as (r & y & -> & ->). by eexists _, _, _.
    + destruct (local_legacy d _ (local_payload d (from_be_bytes prefix)
        (Z.min max HARD_MAX_FRAME_SIZE)) x late et Hl Het) as (r & y & H1 & H2).
      unfold read_frame_with_prefix_bounded. rewrite H1, H2. by eexists _, _, _.
Qed.

(** ** Witnesses *)

(** A hinted request and the bytes of a legacy one, in awkward chunks. *)
Definition demo_request : Z * list u8 := (7, [byte_of 1; byte_of 2; byte_of 3]).
Definition demo_wire : list u8 := wire true [demo_request; demo_request].
Definition demo_stream (n : nat) : stream :=
  {| events := [ {| at_time := 1; what := Chunk (take n demo_wire) |};
                 {| at_time := 5; what := Chunk (drop n demo_wire) |} ];
     end_time := 9 |}.

Lemma demo_clean dl n :
  in_time dl 1 → in_time dl 5 → in_time dl 9 → take n demo_wire ≠ [] → drop n demo_wire ≠ [] →
  clean dl (demo_stream n).
Proof.
  intros. split; [|done]. repeat constructor; cbn; eauto.
Qed.

Lemma demo_content n : content (demo_stream n) = demo_wire.
Proof. unfold content, demo_stream. cbn -[demo_wire]. by rewrite app_nil_r, take_drop. Qed.

Lemma read_next_chunking_witness :
  let '(r1, _, t1) := read_next_bounded ConnReader_new 100 None (demo_stream 3) in
  let '(r2, _, t2) := read_next_bounded ConnReader_new 100 (Some 20) (demo_stream 11) in
  r1 = r2 ∧ content t1 = content t2.
Proof.
  pose proof (read_next_chunking ConnReader_new 100 None (Some 20) (demo_stream 3) (demo_stream 11)
    ltac:(apply demo_clean; done) ltac:(apply demo_clean; done)
    ltac:(rewrite !demo_content; reflexivity)) as H.
  destruct (read_next_bounded ConnReader_new 100 None (demo_stream 3)) as [[r1 s1] t1].
  destruct (read_next_bounded ConnReader_new 100 (Some 20) (demo_stream 11)) as [[r2 s2] t2].
  destruct H as (H1 & _ & H2). split; [exact H1|exact H2].
Defined.

Lemma conversation_roundtrip_witness :
  conversation 3 ConnReader_new 100 (demo_stream 13) =
    ([demo_request; demo_request], Some EofBeforeHeader).
Proof.
  apply (conversation_roundtrip true 100 [demo_request; demo_request] (demo_stream 13)).
  - repeat constructor; cbn; done.
  - apply demo_clean; done.
  - apply demo_content.
Defined.

Lemma read_next_sound_witness :
  ∃ s', read_next ConnReader_new 100 (demo_stream 4) = (Ok demo_request, {| hinted := Some true |}, s') ∧
    content (demo_stream 4) = KNH2_PREAMBLE ++ body true demo_request ++ content s'.
Proof.
  eexists. split; [vm_compute; reflexivity|].
  destruct (read_next_sound ConnReader_new 100 None (demo_stream 4) demo_request
    {| hinted := Some true |}
    (snd (read_next ConnReader_new 100 (demo_stream 4))) ltac:(vm_compute; reflexivity))
    as (h & Hh & _ & _ & Hc).
  injection Hh as <-. exact Hc.
Defined.

Lemma deadline_cuts_off_witness :
  ∃ x, read_request_with_deadline 100 5 (demo_stream 3) = (Err DeadlineExceeded, x) ∧
    events x = [ {| at_time := 5; what := Chunk (drop 3 demo_wire) |} ].
Proof.
  destruct (deadline_cuts_off ConnReader_new 100 5
    [ {| at_time := 1; what := Chunk (take 3 demo_wire) |} ]
    [ {| at_time := 5; what := Chunk (drop 3 demo_wire) |} ] 9
    ltac:(repeat constructor; done) ltac:(done)) as (r & self' & x & H1 & H2).
  vm_compute in H1. injection H1 as <- <- <-.
  unfold read_request_with_deadline. cbn [app] in H2.
  change (demo_stream 3) with {| events :=
    [ {| at_time := 1; what := Chunk (take 3 demo_wire) |};
      {| at_time := 5; what := Chunk (drop 3 demo_wire) |} ]; end_time := 9 |}.
  rewrite H2. eexists. split; reflexivity.
Defined.
