(* ===== verification/Events.v ===== *)
(** * L1 logs and events

    Models [src/runtime/knomosis-l1-ingest/src/events.rs]: the pinned topics, the
    ABI decoder and the typed events.  A [u8; N] is a list of [N] bytes; the
    ranges are [raw_log_typed].  The locations of address errors are the labels
    the code gives. *)

From Stdlib Require Import ZArith Lia.
From Stdlib Require Strings.String.
From stdpp Require Import base numbers list.
From S2P Require Import Prelude Encoding.
Import String.StringSyntax.
Delimit Scope string_scope with string.

Local Open Scope Z_scope.

Abbreviation TopicHash := (list u8) (only parsing).

Definition REGISTERED_ECDSA_TOPIC : TopicHash := map byte_of
  [0xce; 0x31; 0xc5; 0x0c; 0x89; 0x2e; 0x89; 0x43; 0x2f; 0x74; 0x80; 0x0e; 0x82; 0x6e; 0x0b; 0xb0;
   0x76; 0xfe; 0x2a; 0x8b; 0x7d; 0xc9; 0x4c; 0xdc; 0xb4; 0x00; 0x48; 0x03; 0xab; 0x13; 0x71; 0x91].
Definition REGISTERED_EIP1271_TOPIC : TopicHash := map byte_of
  [0x29; 0xd3; 0x16; 0xd1; 0xee; 0xe1; 0x86; 0x06; 0x1e; 0x97; 0x88; 0x0a; 0xfb; 0xfe; 0xb6; 0xc0;
   0xbc; 0x62; 0x7f; 0x65; 0x15; 0x8f; 0xea; 0x15; 0x61; 0x80; 0x3e; 0x2a; 0xf9; 0xbd; 0xe7; 0x06].
Definition REVOKED_TOPIC : TopicHash := map byte_of
  [0xb6; 0xfa; 0x8b; 0x8b; 0xd5; 0xea; 0xb6; 0x0f; 0x29; 0x2e; 0xca; 0x87; 0x6e; 0x3e; 0xf9; 0x07;
   0x22; 0x27; 0x5b; 0x78; 0x53; 0x09; 0xd8; 0x4b; 0x1d; 0xe1; 0x13; 0xce; 0x0b; 0x8c; 0x4e; 0x74].
Definition DEPOSIT_INITIATED_TOPIC : TopicHash := map byte_of
  [0x54; 0x2e; 0xae; 0x02; 0xf9; 0x02; 0xaf; 0xae; 0xe0; 0x5e; 0x2d; 0x3c; 0xdf; 0x00; 0x47; 0x79;
   0x6b; 0xba; 0xee; 0x70; 0xb5; 0x15; 0xc2; 0x23; 0x06; 0x8b; 0x38; 0x59; 0xa4; 0x15; 0x85; 0xe9].
Definition DEPOSIT_WITH_FEE_INITIATED_TOPIC : TopicHash := map byte_of
  [0xdf; 0xfb; 0x20; 0x55; 0xd2; 0x79; 0x87; 0x3f; 0xcf; 0x95; 0x36; 0x0d; 0x6f; 0x94; 0xb9; 0x25;
   0x76; 0x4a; 0xc7; 0x8f; 0x9a; 0xe2; 0xa0; 0xef; 0xbb; 0x6f; 0x3c; 0xfa; 0xe0; 0xe4; 0xc8; 0xf5].
Definition AMM_DISABLED_TOPIC : TopicHash := map byte_of
  [0xdd; 0xbc; 0x5c; 0xd6; 0x90; 0x78; 0xde; 0x41; 0xf6; 0xb8; 0xac; 0x3a; 0x31; 0x9e; 0x19; 0x2a;
   0x1a; 0x8c; 0xf7; 0xf0; 0xe0; 0xc7; 0x34; 0x23; 0xb6; 0x47; 0xab; 0x54; 0x80; 0x99; 0xb9; 0xfb].

Record RawLog : Type := {
  log_address : EthAddress;
  topics : list TopicHash;
  data : list u8;
  log_block_number : Z;
  log_tx_hash : TopicHash;
  raw_log_index : Z;
}.

Module Topic.
Inductive EventTopic : Type :=
| RegisteredEcdsa
| RegisteredEip1271
| Revoked
| DepositInitiated
| DepositWithFeeInitiated
| AmmDisabled.
End Topic.
Abbreviation EventTopic := Topic.EventTopic.

Definition hash (self : EventTopic) : TopicHash :=
  match self with
  | Topic.RegisteredEcdsa => REGISTERED_ECDSA_TOPIC
  | Topic.RegisteredEip1271 => REGISTERED_EIP1271_TOPIC
  | Topic.Revoked => REVOKED_TOPIC
  | Topic.DepositInitiated => DEPOSIT_INITIATED_TOPIC
  | Topic.DepositWithFeeInitiated => DEPOSIT_WITH_FEE_INITIATED_TOPIC
  | Topic.AmmDisabled => AMM_DISABLED_TOPIC
  end.

Definition from_hash (h : TopicHash) : option EventTopic :=
  List.find (fun variant => bool_decide (hash variant = h))
    [Topic.RegisteredEcdsa; Topic.RegisteredEip1271; Topic.Revoked; Topic.DepositInitiated;
     Topic.DepositWithFeeInitiated; Topic.AmmDisabled].

(** The origin every event carries. *)
Record Origin : Type := { block_number : Z; tx_hash : TopicHash; log_index : Z }.

Inductive IngestedEvent : Type :=
| RegisteredEcdsa (actor : EthAddress) (pubkey : list u8) (o : Origin)
| RegisteredEip1271 (actor contract_signer : EthAddress) (o : Origin)
| Revoked (actor : EthAddress) (o : Origin)
| DepositInitiated (depositor : EthAddress) (resource_id : Z) (token : EthAddress)
    (amount : list u8) (depositor_nonce : Z) (receipt_hash : TopicHash) (o : Origin)
| DepositWithFeeInitiated (sender : EthAddress) (resource_id : Z) (token : EthAddress)
    (user_amount pool_amount amm_seed_amount : list u8) (budget_grant depositor_nonce : Z)
    (receipt_hash : TopicHash) (o : Origin)
| AmmDisabled (timestamp : list u8) (o : Origin).

Definition origin_key (self : IngestedEvent) : Z * TopicHash * Z :=
  match self with
  | RegisteredEcdsa _ _ o | RegisteredEip1271 _ _ o | Revoked _ o
  | DepositInitiated _ _ _ _ _ _ o | DepositWithFeeInitiated _ _ _ _ _ _ _ _ _ o
  | AmmDisabled _ o => (block_number o, tx_hash o, log_index o)
  end.

Inductive DecodeError : Type :=
| NoTopics
| InvalidAddress (location : String.string)
| TopicCountMismatch (event : String.string) (expected actual : Z)
| OffsetOutOfRange (offset data_len : Z)
| LengthOverflow (len offset : Z)
| UnexpectedEnd (offset needed : Z)
| Uint64Overflow (offset : Z).

Definition any_nonzero (bs : list u8) : bool := existsb (fun b => negb (byte_val b =? 0)) bs.

Definition decode_abi_u64 (slot : list u8) (offset : Z) : result Z DecodeError :=
  if any_nonzero (take 24 slot) then Err (Uint64Overflow offset)
  else Ok (from_be_bytes (drop 24 slot)).

Definition decode_abi_address (slot : list u8) (location : String.string)
  : result EthAddress DecodeError :=
  if any_nonzero (take 12 slot) then Err (InvalidAddress location) else Ok (drop 12 slot).

Definition read_slot (data : list u8) (offset : Z) : result (list u8) DecodeError :=
  let? e := ok_or (checked_add 64 offset 32) (LengthOverflow 32 offset) in
  if decide (Z.of_nat (length data) < e) then Err (UnexpectedEnd offset (e - Z.of_nat (length data)))
  else Ok (take 32 (drop (Z.to_nat offset) data)).

Definition slot_to_u64 (slot : list u8) (offset : Z) : result Z DecodeError :=
  decode_abi_u64 slot offset.

Definition decode_abi_bytes (data : list u8) (offset_pos : Z) : result (list u8) DecodeError :=
  let data_len := Z.of_nat (length data) in
  let? header := read_slot data offset_pos in
  if any_nonzero (take 24 header) then Err (OffsetOutOfRange u64_max data_len) else
  let tail_offset := from_be_bytes (drop 24 header) in
  if decide (data_len < tail_offset) then Err (OffsetOutOfRange tail_offset data_len) else
  let? length_slot := read_slot data tail_offset in
  if any_nonzero (take 24 length_slot) then Err (LengthOverflow u64_max tail_offset) else
  let len := from_be_bytes (drop 24 length_slot) in
  let? payload_start := ok_or (checked_add 64 tail_offset 32) (LengthOverflow len tail_offset) in
  let? payload_end := ok_or (checked_add 64 payload_start len) (LengthOverflow len payload_start) in
  if decide (data_len < payload_end) then Err (UnexpectedEnd payload_start (payload_end - data_len))
  else Ok (take (Z.to_nat len) (drop (Z.to_nat payload_start) data)).

(** The origin of a log. *)
Definition origin_of (log : RawLog) : Origin :=
  {| block_number := log_block_number log; tx_hash := log_tx_hash log;
     log_index := raw_log_index log |}.

(** [log.topics[i]] after the count was checked. *)
Definition topic (log : RawLog) (i : nat) : list u8 := nth i (topics log) [].

Definition topic_count (log : RawLog) (event : String.string) (expected : Z)
  : result () DecodeError :=
  let actual := Z.of_nat (length (topics log)) in
  if decide (actual ≠ expected) then Err (TopicCountMismatch event expected actual) else Ok ().

Definition decode_known (log : RawLog) (event : EventTopic) : result IngestedEvent DecodeError :=
  match event with
  | Topic.RegisteredEcdsa =>
      let? _ := topic_count log "RegisteredECDSA"%string 2 in
      let? actor := decode_abi_address (topic log 1) "topic 1"%string in
      let? pubkey := decode_abi_bytes (data log) 0 in
      Ok (RegisteredEcdsa actor pubkey (origin_of log))
  | Topic.RegisteredEip1271 =>
      let? _ := topic_count log "RegisteredEIP1271"%string 2 in
      let? actor := decode_abi_address (topic log 1) "topic 1"%string in
      let? slot := read_slot (data log) 0 in
      let? contract_signer := decode_abi_address slot "data offset 0"%string in
      Ok (RegisteredEip1271 actor contract_signer (origin_of log))
  | Topic.Revoked =>
      let? _ := topic_count log "Revoked"%string 2 in
      let? actor := decode_abi_address (topic log 1) "topic 1"%string in
      Ok (Revoked actor (origin_of log))
  | Topic.DepositInitiated =>
      let? _ := topic_count log "DepositInitiated"%string 3 in
      let? depositor := decode_abi_address (topic log 1) "topic 1"%string in
      let? resource_id := slot_to_u64 (topic log 2) 0 in
      let? token_slot := read_slot (data log) 0 in
      let? token := decode_abi_address token_slot "data offset 0 (token)"%string in
      let? amount := read_slot (data log) 32 in
      let? nonce_slot := read_slot (data log) 64 in
      let? depositor_nonce := decode_abi_u64 nonce_slot 64 in
      let? receipt_hash := read_slot (data log) 96 in
      Ok (DepositInitiated depositor resource_id token amount depositor_nonce receipt_hash
            (origin_of log))
  | Topic.DepositWithFeeInitiated =>
      let? _ := topic_count log "DepositWithFeeInitiated"%string 4 in
      let? sender := decode_abi_address (topic log 1) "topic 1"%string in
      let? resource_id := slot_to_u64 (topic log 2) 0 in
      let? token := decode_abi_address (topic log 3) "topic 3 (token)"%string in
      let? user_amount := read_slot (data log) 0 in
      let? pool_amount := read_slot (data log) 32 in
      let? amm_seed_amount := read_slot (data log) 64 in
      let? budget_grant_slot := read_slot (data log) 96 in
      let? budget_grant := decode_abi_u64 budget_grant_slot 96 in
      let? nonce_slot := read_slot (data log) 128 in
      let? depositor_nonce := decode_abi_u64 nonce_slot 128 in
      let? receipt_hash := read_slot (data log) 160 in
      Ok (DepositWithFeeInitiated sender resource_id token user_amount pool_amount
            amm_seed_amount budget_grant depositor_nonce receipt_hash (origin_of log))
  | Topic.AmmDisabled =>
      let? _ := topic_count log "AmmDisabled"%string 1 in
      let? timestamp := read_slot (data log) 0 in
      Ok (AmmDisabled timestamp (origin_of log))
  end.

Definition decode_event (log : RawLog) : result (option IngestedEvent) DecodeError :=
  match topics log with
  | [] => Err NoTopics
  | topic0 :: _ =>
      match from_hash topic0 with
      | None => Ok None
      | Some event => let? e := decode_known log event in Ok (Some e)
      end
  end.

(** ** The ABI as the contracts encode it *)

Definition zeros (n : nat) : list u8 := replicate n (byte_of 0).
Definition abi_u64 (x : Z) : list u8 := zeros 24 ++ to_be_bytes 8 x.
Definition abi_address (a : EthAddress) : list u8 := zeros 12 ++ a.
(** A single dynamic [bytes] parameter: offset, length, payload, and the padding
    to a whole number of slots. *)
Definition abi_bytes (bs : list u8) : list u8 :=
  abi_u64 32 ++ abi_u64 (Z.of_nat (length bs)) ++ bs ++ zeros ((32 - length bs mod 32) mod 32).

Definition event_origin (e : IngestedEvent) : Origin :=
  match e with
  | RegisteredEcdsa _ _ o | RegisteredEip1271 _ _ o | Revoked _ o
  | DepositInitiated _ _ _ _ _ _ o | DepositWithFeeInitiated _ _ _ _ _ _ _ _ _ o
  | AmmDisabled _ o => o
  end.

Definition event_topics (e : IngestedEvent) : list TopicHash :=
  match e with
  | RegisteredEcdsa actor _ _ => [REGISTERED_ECDSA_TOPIC; abi_address actor]
  | RegisteredEip1271 actor _ _ => [REGISTERED_EIP1271_TOPIC; abi_address actor]
  | Revoked actor _ => [REVOKED_TOPIC; abi_address actor]
  | DepositInitiated d r _ _ _ _ _ => [DEPOSIT_INITIATED_TOPIC; abi_address d; abi_u64 r]
  | DepositWithFeeInitiated s r t _ _ _ _ _ _ _ =>
      [DEPOSIT_WITH_FEE_INITIATED_TOPIC; abi_address s; abi_u64 r; abi_address t]
  | AmmDisabled _ _ => [AMM_DISABLED_TOPIC]
  end.

Definition event_data (e : IngestedEvent) : list u8 :=
  match e with
  | RegisteredEcdsa _ pk _ => abi_bytes pk
  | RegisteredEip1271 _ c _ => abi_address c
  | Revoked _ _ => []
  | DepositInitiated _ _ t a n h _ => abi_address t ++ a ++ abi_u64 n ++ h
  | DepositWithFeeInitiated _ _ _ u p s g n h _ => u ++ p ++ s ++ abi_u64 g ++ abi_u64 n ++ h
  | AmmDisabled ts _ => ts
  end.

(** The log a contract emits for an event. *)
Definition emit_log (contract : EthAddress) (e : IngestedEvent) : RawLog :=
  {| log_address := contract; topics := event_topics e; data := event_data e;
     log_block_number := block_number (event_origin e); log_tx_hash := tx_hash (event_origin e);
     raw_log_index := log_index (event_origin e) |}.

Abbreviation word bs := (length bs = 32%nat) (only parsing).
Abbreviation is_address bs := (length bs = 20%nat) (only parsing).

(** The ranges of the Rust types of an event's fields; a key is at most the size
    of a slice. *)
Definition event_typed (e : IngestedEvent) : Prop :=
  match e with
  | RegisteredEcdsa a pk _ => is_address a ∧ Z.of_nat (length pk) < 2 ^ 63
  | RegisteredEip1271 a c _ => is_address a ∧ is_address c
  | Revoked a _ => is_address a
  | DepositInitiated d r t a n h _ =>
      is_address d ∧ in_u64 r ∧ is_address t ∧ word a ∧ in_u64 n ∧ word h
  | DepositWithFeeInitiated s r t u p m g n h _ =>
      is_address s ∧ in_u64 r ∧ is_address t ∧ word u ∧ word p ∧ word m ∧ in_u64 g ∧
      in_u64 n ∧ word h
  | AmmDisabled ts _ => word ts
  end.

Definition raw_log_typed (log : RawLog) : Prop :=
  Forall (fun t => word t) (topics log) ∧ Z.of_nat (length (data log)) < 2 ^ 63.

Lemma zeros_zero n : any_nonzero (zeros n) = false.
Proof. induction n as [|n IH]; [done|exact IH]. Qed.

Lemma zeros_length n : length (zeros n) = n.
Proof. apply length_replicate. Qed.

Lemma abi_u64_length x : length (abi_u64 x) = 32%nat.
Proof. unfold abi_u64. by rewrite length_app, zeros_length, to_be_bytes_length. Qed.

Lemma abi_address_length a : is_address a → length (abi_address a) = 32%nat.
Proof. intros Ha. unfold abi_address. by rewrite length_app, zeros_length, Ha. Qed.

Lemma abi_u64_high x : any_nonzero (take 24 (abi_u64 x)) = false.
Proof. unfold abi_u64. rewrite take_app_le, take_ge; rewrite ?zeros_length; auto using zeros_zero. Qed.

Lemma abi_u64_low x : in_u64 x → from_be_bytes (drop 24 (abi_u64 x)) = x.
Proof.
  intros Hx. unfold abi_u64. rewrite drop_app_length' by done. by apply from_to_be_bytes.
Qed.

Lemma decode_u64_abi x off : in_u64 x → decode_abi_u64 (abi_u64 x) off = Ok x.
Proof. intros Hx. unfold decode_abi_u64. by rewrite abi_u64_high, abi_u64_low. Qed.

Lemma decode_address_abi a loc : decode_abi_address (abi_address a) loc = Ok a.
Proof.
  unfold decode_abi_address, abi_address. rewrite take_app_length', zeros_zero by done.
  by rewrite drop_app_length'.
Qed.

(** A slot behind a prefix of known length. *)
Lemma read_slot_app pre w post off :
  off = Z.of_nat (length pre) → word w → off < 2 ^ 63 →
  read_slot (pre ++ w ++ post) off = Ok w.
Proof.
  intros -> Hw Hoff. unfold read_slot.
  assert (checked_add 64 (Z.of_nat (length pre)) 32 = Some (Z.of_nat (length pre) + 32)) as ->.
  { apply checked_add_Some. lia. }
  cbn [ok_or result_bind]. rewrite !length_app, decide_False by lia.
  by rewrite Nat2Z.id, drop_app_length, take_app_length'.
Qed.

Lemma words_length (ws : list (list u8)) :
  Forall (fun t => word t) ws → length (mjoin ws) = (32 * length ws)%nat.
Proof.
  induction 1 as [|t ts Ht Hts IH]; [done|]. change (mjoin (t :: ts)) with (t ++ mjoin ts).
  rewrite length_app, IH, Ht. cbn. lia.
Qed.

(** A data section of static words. *)
Lemma read_slot_words (ws : list (list u8)) (i : nat) w off :
  Forall (fun t => word t) ws → ws !! i = Some w → off = 32 * Z.of_nat i → (i < 100)%nat →
  read_slot (mjoin ws) off = Ok w.
Proof.
  intros Hws Hi -> Hlt. rewrite <- (take_drop_middle ws i w Hi).
  rewrite join_app. cbn [mjoin list_join]. apply read_slot_app.
  - apply lookup_lt_Some in Hi. rewrite words_length, length_take by by apply Forall_take. lia.
  - by eapply (Forall_lookup_1 _ _ _ _ Hws).
  - lia.
Qed.

Lemma read_slot_typed d off w : 0 ≤ off → read_slot d off = Ok w → word w.
Proof.
  unfold read_slot. intros Hoff He. apply result_bind_Ok in He as (e & He & Hw). unfold ok_or in He.
  destruct (checked_add _ _ _) eqn:Hadd; simplify_eq. apply checked_add_Some in Hadd as [-> _].
  case_decide; simplify_eq. rewrite length_take, length_drop. lia.
Qed.

Lemma decode_address_typed s loc a : word s → decode_abi_address s loc = Ok a → is_address a.
Proof.
  unfold decode_abi_address. intros Hs. destruct (any_nonzero _); [done|].
  intros [= <-]. rewrite length_drop. lia.
Qed.

Lemma decode_u64_typed s off x : word s → decode_abi_u64 s off = Ok x → in_u64 x.
Proof.
  unfold decode_abi_u64. intros Hs. destruct (any_nonzero _); [done|]. intros [= <-].
  pose proof (from_be_bytes_bound (drop 24 s)) as Hb. by rewrite length_drop, Hs in Hb.
Qed.

Lemma decode_bytes_abi bs :
  Z.of_nat (length bs) < 2 ^ 63 → decode_abi_bytes (abi_bytes bs) 0 = Ok bs.
Proof.
  intros Hb. unfold decode_abi_bytes.
  set (d := abi_bytes bs). set (n := Z.of_nat (length d)).
  assert (Hn : 64 + Z.of_nat (length bs) ≤ n).
  { unfold n, d, abi_bytes. rewrite !length_app, !abi_u64_length. lia. }
  assert (read_slot d 0 = Ok (abi_u64 32)) as ->.
  { apply (read_slot_app [] (abi_u64 32)); [done|apply abi_u64_length|done]. }
  cbn [result_bind]. rewrite abi_u64_high, abi_u64_low by done. rewrite decide_False by lia.
  assert (read_slot d 32 = Ok (abi_u64 (Z.of_nat (length bs)))) as ->.
  { apply (read_slot_app (abi_u64 32)); [by rewrite abi_u64_length|apply abi_u64_length|done]. }
  cbn [result_bind]. rewrite abi_u64_high, abi_u64_low by (unfold in_width; lia).
  change (checked_add 64 32 32) with (Some 64). cbn [ok_or result_bind].
  assert (checked_add 64 64 (Z.of_nat (length bs)) = Some (64 + Z.of_nat (length bs))) as ->.
  { apply checked_add_Some. split; [done|]. lia. }
  cbn [ok_or result_bind]. rewrite decide_False by lia. rewrite Nat2Z.id. f_equal.
  unfold d, abi_bytes. rewrite app_assoc, drop_app_length'.
  - by apply take_app_length'.
  - by rewrite length_app, !abi_u64_length.
Qed.

Lemma decode_bytes_typed d off bs :
  decode_abi_bytes d off = Ok bs → (length bs ≤ length d)%nat.
Proof.
  unfold decode_abi_bytes. intros He. inv_binds. destruct (any_nonzero _); [done|].
  case_decide; [done|]. inv_binds. destruct (any_nonzero _); [done|]. inv_binds.
  case_decide; [done|]. simplify_eq. rewrite length_take, length_drop. lia.
Qed.

Lemma from_hash_hash t : from_hash (hash t) = Some t.
Proof. by destruct t; vm_compute. Qed.

Lemma topic_typed log i :
  Forall (fun t => word t) (topics log) → (i < length (topics log))%nat → word (topic log i).
Proof.
  intros Ht Hi. unfold topic. rewrite Forall_forall in Ht. apply Ht, list_elem_of_In, nth_In. done.
Qed.

Lemma topic_count_Ok log ev n : topic_count log ev n = Ok () → Z.of_nat (length (topics log)) = n.
Proof. unfold topic_count. case_decide; [done|]. intros _. lia. Qed.

Lemma topic_count_eq log ev n :
  Z.of_nat (length (topics log)) = n → topic_count log ev n = Ok ().
Proof. intros <-. unfold topic_count. by rewrite decide_False by tauto. Qed.

Ltac slot_step i :=
  erewrite (read_slot_words _ i) by
    (first [reflexivity | lia | repeat constructor; auto using abi_u64_length, abi_address_length]).

(** Run the decoder on a log, reading its data as the given words. *)
Ltac decode_step :=
  first
  [ rewrite topic_count_eq by done
  | rewrite decode_address_abi
  | rewrite decode_u64_abi by done
  | rewrite decode_bytes_abi by done
  | slot_step 0%nat | slot_step 1%nat | slot_step 2%nat | slot_step 3%nat | slot_step 4%nat
  | slot_step 5%nat ];
  cbn [result_bind].

Ltac decode_words ws :=
  match goal with |- context [data ?l] =>
    assert (Hd : data l = mjoin ws) by (cbn; by rewrite ?app_nil_r); rewrite Hd; clear Hd
  end.

Lemma decode_known_emit contract e :
  event_typed e →
  ∃ t rest, topics (emit_log contract e) = hash t :: rest ∧
            decode_known (emit_log contract e) t = Ok e.
Proof.
  intros He. destruct e as [a pk o|a c o|a o|d r t a n h o|s r t u p m g n h o|ts o]; cbn in He;
    destruct o; destruct_and?.
  - exists Topic.RegisteredEcdsa. eexists. split; [done|].
    unfold decode_known, topic, slot_to_u64. cbn [nth topics emit_log event_topics].
    do 2 decode_step. cbn [data emit_log event_data]. by decode_step.
  - exists Topic.RegisteredEip1271. eexists. split; [done|].
    unfold decode_known, topic. cbn [nth topics emit_log event_topics].
    decode_words [abi_address c]. by repeat decode_step.
  - exists Topic.Revoked. eexists. split; [done|].
    unfold decode_known, topic. cbn [nth topics emit_log event_topics]. by repeat decode_step.
  - exists Topic.DepositInitiated. eexists. split; [done|].
    unfold decode_known, topic, slot_to_u64. cbn [nth topics emit_log event_topics].
    decode_words [abi_address t; a; abi_u64 n; h]. by repeat decode_step.
  - exists Topic.DepositWithFeeInitiated. eexists. split; [done|].
    unfold decode_known, topic, slot_to_u64. cbn [nth topics emit_log event_topics].
    decode_words [u; p; m; abi_u64 g; abi_u64 n; h]. by repeat decode_step.
  - exists Topic.AmmDisabled. eexists. split; [done|].
    unfold decode_known, topic. cbn [nth topics emit_log event_topics].
    decode_words [ts]. by repeat decode_step.
Qed.

Lemma decode_known_typed log ev e :
  raw_log_typed log → decode_known log ev = Ok e →
  event_typed e ∧ event_origin e = origin_of log.
Proof.
  intros [Ht Hd]. destruct ev; cbn [decode_known]; intros H; inv_binds;
    repeat match goal with
    | H : topic_count _ _ _ = Ok ?u |- _ => destruct u; apply topic_count_Ok in H
    | H : read_slot _ _ = Ok _ |- _ => apply read_slot_typed in H; [|done]
    | H : decode_abi_bytes _ _ = Ok _ |- _ => apply decode_bytes_typed in H
    | H : slot_to_u64 _ _ = Ok _ |- _ =>
        apply decode_u64_typed in H; [|apply topic_typed; [done|lia]]
    | H : decode_abi_u64 _ _ = Ok _ |- _ => apply decode_u64_typed in H; [|done]
    | H : decode_abi_address (topic _ _) _ = Ok _ |- _ =>
        apply decode_address_typed in H; [|apply topic_typed; [done|lia]]
    | H : decode_abi_address _ _ = Ok _ |- _ => apply decode_address_typed in H; [|done]
    end; cbn; split; try done; split_and?; try done; lia.
Qed.

(** ** Correctness *)

(** The decoder inverts the contracts' encoding.  A log that a contract emits
    for an event, its static words, its left-padded addresses and integers and
    its dynamic bytes laid out by the ABI, decodes to exactly that event. *)
Theorem decode_event_roundtrip contract e :
  event_typed e → decode_event (emit_log contract e) = Ok (Some e).
Proof.
  intros He. destruct (decode_known_emit contract e He) as (t & rest & Ht & Hd).
  unfold decode_event. by rewrite Ht, from_hash_hash, Hd.
Qed.

(** On any log, with topics of 32 bytes, an event that is decoded is in range:
    its addresses have 20 bytes, its words 32, and its integers fit 64 bits with
    no high bits dropped, and it carries the log's origin.  A log is skipped
    exactly when its first topic is none of the pinned ones. *)
Theorem decode_event_in_range log :
  raw_log_typed log →
  (∀ e, decode_event log = Ok (Some e) → event_typed e ∧ event_origin e = origin_of log) ∧
  (decode_event log = Ok None ↔
    ∃ t rest, topics log = t :: rest ∧ ∀ ev, t ≠ hash ev).
Proof.
  intros Hlog. unfold decode_event. destruct (topics log) as [|t0 rest] eqn:Htop.
  { split; [done|]. split; [done|]. by intros (t & r & ? & _). }
  destruct (from_hash t0) as [ev|] eqn:Hf; split.
  - intros e He. apply result_bind_Ok in He as (e' & He' & [= <-]).
    by apply (decode_known_typed log ev).
  - split.
    + intros He. by apply result_bind_Ok in He as (e' & _ & [=]).
    + intros (t & r & [= <- <-] & Hne). unfold from_hash in Hf.
      apply List.find_some in Hf as [_ Hf]. apply bool_decide_eq_true in Hf. by destruct (Hne ev).
  - done.
  - split; [|done]. intros _. exists t0, rest. split; [done|].
    intros ev ->. by rewrite from_hash_hash in Hf.
Qed.

(** ** Witnesses *)

Definition demo_origin : Origin :=
  {| block_number := 12; tx_hash := replicate 32 (byte_of 9); log_index := 3 |}.
Definition demo_deposit : IngestedEvent :=
  DepositInitiated (replicate 20 (byte_of 1)) 1 (replicate 20 (byte_of 0))
    (to_be_bytes 32 (2 ^ 200)) 5 (replicate 32 (byte_of 8)) demo_origin.

Lemma decode_event_roundtrip_witness :
  decode_event (emit_log (replicate 20 (byte_of 2)) demo_deposit) = Ok (Some demo_deposit).
Proof. apply (decode_event_roundtrip (replicate 20 (byte_of 2)) demo_deposit). done. Defined.

Lemma decode_event_in_range_witness :
  decode_event (emit_log (replicate 20 (byte_of 2)) demo_deposit) = Ok (Some demo_deposit) ∧
  event_typed demo_deposit.
Proof.
  split; [vm_compute; reflexivity|].
  destruct (decode_event_in_range (emit_log (replicate 20 (byte_of 2)) demo_deposit)) as [H _].
  - split; [|done]. repeat constructor; done.
  - apply (H demo_deposit). vm_compute. reflexivity.
Defined.
