(* ===== verification/Ingest.v ===== *)
(** * The address book and the translation of events

    Models [src/runtime/knomosis-l1-ingest/src/address_book.rs] and
    [translation.rs]: the assignment of actor ids to L1 addresses, and the
    unsigned bridge actions the events translate to. *)

From Stdlib Require Import ZArith Lia.
From stdpp Require Import base numbers list gmap.
From S2P Require Import Prelude Encoding Events.

Local Open Scope Z_scope.

(** ** The address book *)

Definition BRIDGE_ACTOR_ID : ActorId := 0.
Definition GAS_POOL_ACTOR_ID : ActorId := 1.
Definition SEQUENCER_ACTOR_ID : ActorId := 2.
Definition AMM_RESERVE_ACTOR_ID : ActorId := 3.
Definition INITIAL_NEXT_ACTOR_ID : ActorId := 4.

Record AddressBook : Type := {
  forward : gmap EthAddress ActorId;
  reverse : gmap ActorId EthAddress;
  next_actor_id : ActorId;
}.

Inductive AssignError : Type := AssignOverflow.

Definition AddressBook_new : AddressBook :=
  {| forward := ∅; reverse := ∅; next_actor_id := INITIAL_NEXT_ACTOR_ID |}.

Definition lookup_addr (self : AddressBook) (addr : EthAddress) : option ActorId :=
  forward self !! addr.

Definition lookup_reverse (self : AddressBook) (id : ActorId) : option EthAddress :=
  reverse self !! id.

(** The returned book is the argument itself when the assignment fails. *)
Definition try_assign (self : AddressBook) (addr : EthAddress)
  : result (ActorId * bool) AssignError * AddressBook :=
  match forward self !! addr with
  | Some existing => (Ok (existing, false), self)
  | None =>
      let fresh := next_actor_id self in
      match checked_add 64 fresh 1 with
      | None => (Err AssignOverflow, self)
      | Some next =>
          (Ok (fresh, true),
           {| forward := <[addr := fresh]> (forward self);
              reverse := <[fresh := addr]> (reverse self);
              next_actor_id := next |})
      end
  end.

(** [assign] panics where [try_assign] fails. *)
Definition assign (self : AddressBook) (addr : EthAddress) : run ((ActorId * bool) * AddressBook) :=
  match try_assign self addr with
  | (Ok r, self) => Done (r, self)
  | (Err _, _) => Panicked
  end.

(** ** Translation *)

Record UnsignedAction : Type := { action : Action; signer : ActorId; nonce : Z }.

Definition SIGNER : ActorId := BRIDGE_ACTOR_ID.

Inductive Translated : Type :=
| NoAction
| Emit (u : UnsignedAction)
| EmitWithAssignment (u : UnsignedAction) (address : EthAddress) (new_actor_id : ActorId).

Definition unsigned (a : Action) (current_nonce : Z) : UnsignedAction :=
  {| action := a; signer := SIGNER; nonce := current_nonce |}.

Definition preview_registration (book : AddressBook) (actor_address : EthAddress)
    (pk : PublicKey) (current_nonce : Z) : Translated :=
  match lookup_addr book actor_address with
  | None =>
      let fresh_id := next_actor_id book in
      EmitWithAssignment (unsigned (RegisterIdentity fresh_id pk) current_nonce)
        actor_address fresh_id
  | Some existing_id => Emit (unsigned (ReplaceKey existing_id pk) current_nonce)
  end.

Definition preview_ingest (book : AddressBook) (event : IngestedEvent) (current_nonce : Z)
  : Translated :=
  match event with
  | RegisteredEcdsa actor pubkey _ => preview_registration book actor pubkey current_nonce
  | RegisteredEip1271 actor contract_signer _ =>
      preview_registration book actor contract_signer current_nonce
  | Revoked _ _ | DepositInitiated _ _ _ _ _ _ _ | DepositWithFeeInitiated _ _ _ _ _ _ _ _ _ _
  | AmmDisabled _ _ => NoAction
  end.

Definition deposit_id_from_receipt (receipt_hash : TopicHash) : DepositId :=
  from_be_bytes (take 8 receipt_hash).

Definition amount_from_be_bytes (bytes : list u8) : Z := from_be_bytes bytes.

Definition materialise_deposit_for (book : AddressBook) (depositor : EthAddress)
    (current_nonce : Z) (build : ActorId → Action) : Translated :=
  match lookup_addr book depositor with
  | Some existing_id => Emit (unsigned (build existing_id) current_nonce)
  | None =>
      let fresh_id := next_actor_id book in
      EmitWithAssignment (unsigned (build fresh_id) current_nonce) depositor fresh_id
  end.

(** [MaterialiseError] has no variant, so the translation is total. *)
Definition preview_ingest_materialising (book : AddressBook) (event : IngestedEvent)
    (current_nonce : Z) : Translated :=
  match event with
  | DepositInitiated depositor resource_id _ amount _ receipt_hash _ =>
      let amount := amount_from_be_bytes amount in
      let deposit_id := deposit_id_from_receipt receipt_hash in
      materialise_deposit_for book depositor current_nonce
        (fun recipient => Deposit resource_id recipient amount deposit_id)
  | DepositWithFeeInitiated sender resource_id _ user_amount pool_amount amm_seed_amount
      budget_grant _ receipt_hash _ =>
      let user_amount := amount_from_be_bytes user_amount in
      let pool_amount := amount_from_be_bytes pool_amount in
      let seed_amount := amount_from_be_bytes amm_seed_amount in
      let deposit_id := deposit_id_from_receipt receipt_hash in
      materialise_deposit_for book sender current_nonce
        (fun recipient => DepositWithFee resource_id recipient GAS_POOL_ACTOR_ID user_amount
           pool_amount budget_grant deposit_id seed_amount)
  | other => preview_ingest book other current_nonce
  end.

Inductive CommitError : Type :=
| CommitOverflow
| ExpectedIdMismatch (expected actual : ActorId).

Definition commit_assignment (book : AddressBook) (address : EthAddress) (expected_id : ActorId)
  : result ActorId CommitError * AddressBook :=
  match try_assign book address with
  | (Err AssignOverflow, book) => (Err CommitOverflow, book)
  | (Ok (assigned, _), book) =>
      if decide (assigned ≠ expected_id)
      then (Err (ExpectedIdMismatch expected_id assigned), book)
      else (Ok assigned, book)
  end.

(** The [expect] of a failed commit panics. *)
Definition ingest (book : AddressBook) (event : IngestedEvent) (current_nonce : Z)
  : run (option UnsignedAction * AddressBook) :=
  match preview_ingest book event current_nonce with
  | NoAction => Done (None, book)
  | Emit u => Done (Some u, book)
  | EmitWithAssignment u address new_actor_id =>
      match commit_assignment book address new_actor_id with
      | (Ok _, book) => Done (Some u, book)
      | (Err _, _) => Panicked
      end
  end.

(** ** The invariant of the book

    The two maps are inverse to each other, and the ids issued are exactly those
    from the first unreserved one up to the counter. *)

Record book_ok (b : AddressBook) : Prop := {
  book_inverse a i : forward b !! a = Some i ↔ reverse b !! i = Some a;
  book_issued i : is_Some (reverse b !! i) ↔ INITIAL_NEXT_ACTOR_ID ≤ i < next_actor_id b;
  book_next : INITIAL_NEXT_ACTOR_ID ≤ next_actor_id b < 2 ^ 64;
}.

Lemma AddressBook_new_ok : book_ok AddressBook_new.
Proof.
  split; cbn.
  - intros. by rewrite !lookup_empty.
  - intros i. rewrite lookup_empty. unfold INITIAL_NEXT_ACTOR_ID.
    split; [by intros [??]|lia].
  - done.
Qed.

Lemma book_fresh b : book_ok b → reverse b !! next_actor_id b = None.
Proof.
  intros Hb. apply eq_None_not_Some. intros H. apply (book_issued b Hb) in H. lia.
Qed.

(** The book after a fresh assignment. *)
Definition assigned_book (b : AddressBook) (a : EthAddress) : AddressBook :=
  {| forward := <[a := next_actor_id b]> (forward b);
     reverse := <[next_actor_id b := a]> (reverse b);
     next_actor_id := next_actor_id b + 1 |}.

Lemma assigned_book_ok b a :
  book_ok b → forward b !! a = None → next_actor_id b + 1 < 2 ^ 64 → book_ok (assigned_book b a).
Proof.
  intros Hb Ha Hlt. pose proof (book_fresh b Hb) as Hf.
  pose proof (book_next b Hb) as Hn. split; cbn.
  - intros a' i. destruct (decide (a' = a)) as [->|Hne], (decide (i = next_actor_id b)) as [->|Hi];
      simplify_map_eq; try done.
    + split; [naive_solver|]. intros Hr. by rewrite <- (book_inverse b Hb), Ha in Hr.
    + split; [|naive_solver]. intros Hr. by rewrite (book_inverse b Hb), Hf in Hr.
    + apply (book_inverse b Hb).
  - intros i. destruct (decide (i = next_actor_id b)) as [->|Hi]; simplify_map_eq.
    + split; [lia|eauto].
    + rewrite (book_issued b Hb). lia.
  - lia.
Qed.

(** The three outcomes of an assignment. *)
Lemma try_assign_cases b a :
  book_ok b →
  (∃ i, forward b !! a = Some i ∧ try_assign b a = (Ok (i, false), b)) ∨
  (forward b !! a = None ∧ next_actor_id b = u64_max ∧ try_assign b a = (Err AssignOverflow, b)) ∨
  (forward b !! a = None ∧ next_actor_id b < u64_max ∧
   try_assign b a = (Ok (next_actor_id b, true), assigned_book b a)).
Proof.
  intros Hb. pose proof (book_next b Hb). unfold try_assign.
  destruct (forward b !! a) as [i|]; [by eauto|]. right.
  destruct (checked_add 64 (next_actor_id b) 1) as [n|] eqn:Hc.
  - apply checked_add_Some in Hc as [-> ?]. right. split_and!; [done|lia|done].
  - apply checked_add_None in Hc. left. split_and!; [done|lia|done].
Qed.

Lemma try_assign_ok b a : book_ok b → book_ok (try_assign b a).2.
Proof.
  intros Hb. destruct (try_assign_cases b a Hb) as [(i & _ & ->)|[(_ & _ & ->)|(Ha & Hn & ->)]];
    [done..|]. cbn [snd]. apply assigned_book_ok; [done..|]. lia.
Qed.

(** An assignment never changes an id that was issued. *)
Lemma try_assign_stable b a a' i :
  book_ok b → lookup_addr b a' = Some i → lookup_addr (try_assign b a).2 a' = Some i.
Proof.
  intros Hb Hl. destruct (try_assign_cases b a Hb) as [(j & _ & ->)|[(_ & _ & ->)|(Ha & Hn & ->)]];
    [done..|]. unfold lookup_addr in *. cbn. rewrite lookup_insert_ne; [done|].
  intros ->. congruence.
Qed.

(** The book after a sequence of assignments; one that overflows changes nothing. *)
Definition assign_all (b : AddressBook) (l : list EthAddress) : AddressBook :=
  foldl (fun b a => (try_assign b a).2) b l.

Lemma assign_all_ok b l : book_ok b → book_ok (assign_all b l).
Proof. revert b. induction l as [|a l IH]; intros b Hb; [done|]. apply IH, try_assign_ok, Hb. Qed.

Lemma assign_all_stable b l a i :
  book_ok b → lookup_addr b a = Some i → lookup_addr (assign_all b l) a = Some i.
Proof.
  revert b. induction l as [|a' l IH]; intros b Hb Hl; [done|].
  apply IH; [by apply try_assign_ok|by apply try_assign_stable].
Qed.

(** ** Translation against a book *)

(** The translation the watcher uses, by its [materialise_deposits] flag. *)
Definition translate (materialise : bool) (b : AddressBook) (e : IngestedEvent) (n : Z)
  : Translated :=
  if materialise then preview_ingest_materialising b e n else preview_ingest b e n.

(** The L1 address an event speaks for. *)
Definition subject (e : IngestedEvent) : option EthAddress :=
  match e with
  | RegisteredEcdsa a _ _ | RegisteredEip1271 a _ _ => Some a
  | DepositInitiated a _ _ _ _ _ _ | DepositWithFeeInitiated a _ _ _ _ _ _ _ _ _ => Some a
  | Revoked _ _ | AmmDisabled _ _ => None
  end.

(** The action an event calls for, when the actor of its address is [i]: an
    identity is registered for a fresh actor only, and the key of one that exists
    is replaced; a deposit is credited with the amounts and the receipt of the
    event, when deposits are materialised. *)
Definition due (materialise fresh : bool) (e : IngestedEvent) (i : ActorId) : option Action :=
  match e with
  | RegisteredEcdsa _ pk _ | RegisteredEip1271 _ pk _ => Some (if fresh then RegisterIdentity i pk else ReplaceKey i pk)
  | DepositInitiated _ r _ amount _ receipt _ =>
      if materialise then Some (Deposit r i (from_be_bytes amount) (from_be_bytes (take 8 receipt))) else None
  | DepositWithFeeInitiated _ r _ user pool seed grant _ receipt _ =>
      if materialise
      then Some (DepositWithFee r i GAS_POOL_ACTOR_ID (from_be_bytes user) (from_be_bytes pool) grant
                   (from_be_bytes (take 8 receipt)) (from_be_bytes seed))
      else None
  | Revoked _ _ | AmmDisabled _ _ => None
  end.

Definition emitted (t : Translated) : option UnsignedAction :=
  match t with NoAction => None | Emit u | EmitWithAssignment u _ _ => Some u end.

(** A translation for the address [a]: a known address is used as it is, and an
    unknown one is given the next id, with the assignment left to commit. *)
Definition resolves (m : bool) (b : AddressBook) (a : EthAddress) (e : IngestedEvent) (n : Z) (t : Translated) : Prop :=
  match lookup_addr b a with
  | Some i => ∃ act, due m false e i = Some act ∧ t = Emit (unsigned act n)
  | None => ∃ act, due m true e (next_actor_id b) = Some act ∧
      t = EmitWithAssignment (unsigned act n) a (next_actor_id b)
  end.

Lemma translate_resolves m b e n :
  (translate m b e n = NoAction ∧ ∀ fresh i, due m fresh e i = None) ∨
  ∃ a, subject e = Some a ∧ resolves m b a e n (translate m b e n).
Proof.
  destruct m, e; cbn; auto; right; eexists; (split; [done|]);
    unfold resolves, preview_registration, materialise_deposit_for;
    destruct (lookup_addr b _); by eexists.
Qed.

Lemma book_id_u64 b a i : book_ok b → lookup_addr b a = Some i → in_u64 i.
Proof.
  intros Hb Hl%(book_inverse b Hb). pose proof (book_next b Hb).
  destruct (proj1 (book_issued b Hb i)); [by eauto|]. unfold in_width, INITIAL_NEXT_ACTOR_ID in *.
  lia.
Qed.

Lemma word_u256 bs : word bs → in_u256 (from_be_bytes bs).
Proof. intros Hw. pose proof (from_be_bytes_bound bs) as Hb. by rewrite Hw in Hb. Qed.

Lemma deposit_id_u64 h : word h → in_u64 (deposit_id_from_receipt h).
Proof.
  intros Hw. unfold deposit_id_from_receipt. pose proof (from_be_bytes_bound (take 8 h)) as Hb.
  by rewrite length_take, Hw in Hb.
Qed.

(** What is emitted can be encoded: every field is in range. *)
Lemma translate_typed m b e n u :
  book_ok b → event_typed e → emitted (translate m b e n) = Some u →
  action_typed (action u) ∧ game_id_fits (action u).
Proof.
  intros Hb He. pose proof (book_next b Hb) as Hn.
  assert (in_u64 (next_actor_id b)) as Hnext by (unfold in_width, INITIAL_NEXT_ACTOR_ID in *; lia).
  assert (Hreg : ∀ a pk, Z.of_nat (length pk) < 2 ^ 63 →
    emitted (preview_registration b a pk n) = Some u → action_typed (action u) ∧ game_id_fits (action u)).
  { intros a pk Hpk. unfold preview_registration. destruct (lookup_addr b a) as [i|] eqn:Hl;
      intros [= <-]; cbn; unfold in_width in *; [apply book_id_u64 in Hl; [|done]|]; split; auto;
      unfold in_width in *; lia. }
  assert (Hdep : ∀ a build, (∀ i, in_u64 i → action_typed (build i) ∧ game_id_fits (build i)) →
    emitted (materialise_deposit_for b a n build) = Some u →
    action_typed (action u) ∧ game_id_fits (action u)).
  { intros a build Hbd. unfold materialise_deposit_for.
    destruct (lookup_addr b a) as [i|] eqn:Hl; intros [= <-]; cbn; apply Hbd; [|done].
    by eapply book_id_u64. }
  destruct m, e; cbn in He |- *; try done; destruct_and?.
  1,5: apply Hreg; done.
  1,4: apply Hreg; lia.
  all: apply Hdep; intros i Hi; split; [|done]; cbn;
    split_and!; auto using word_u256, deposit_id_u64; done.
Qed.

(** ** Correctness *)

(** An address book stays a bijection.  After any sequence of assignments to
    an empty book, the forward and reverse maps are inverse to each other, the
    ids issued are exactly those from 4 up to the counter (so never one of the
    reserved actors), two addresses never share an id, and no later assignment
    changes the id of an address. *)
Theorem book_bijection l1 l2 :
  let b1 := assign_all AddressBook_new l1 in
  let b2 := assign_all AddressBook_new (l1 ++ l2) in
  book_ok b2 ∧
  (∀ a i, lookup_addr b1 a = Some i → lookup_addr b2 a = Some i) ∧
  (∀ a i, lookup_addr b2 a = Some i ↔ lookup_reverse b2 i = Some a) ∧
  (∀ a1 a2 i, lookup_addr b2 a1 = Some i → lookup_addr b2 a2 = Some i → a1 = a2) ∧
  (∀ a i, lookup_addr b2 a = Some i →
    i ∉ [BRIDGE_ACTOR_ID; GAS_POOL_ACTOR_ID; SEQUENCER_ACTOR_ID; AMM_RESERVE_ACTOR_ID]).
Proof.
  cbn zeta. pose proof (assign_all_ok _ (l1 ++ l2) AddressBook_new_ok) as Hb.
  pose proof (book_inverse _ Hb) as Hinv. split; [done|]. split; [|split; [done|split]].
  - intros a i Hl. unfold assign_all. rewrite foldl_app.
    by apply assign_all_stable; [apply assign_all_ok, AddressBook_new_ok|].
  - intros a1 a2 i H1%Hinv H2%Hinv. congruence.
  - intros a i Hl%Hinv. destruct (proj1 (book_issued _ Hb i)) as [Hge _]; [by eauto|].
    unfold INITIAL_NEXT_ACTOR_ID in Hge. rewrite !elem_of_cons, elem_of_nil.
    unfold BRIDGE_ACTOR_ID, GAS_POOL_ACTOR_ID, SEQUENCER_ACTOR_ID, AMM_RESERVE_ACTOR_ID. lia.
Qed.

(** C34: previewing and committing agree.  Whatever an event translates to under
    either mode is signed by the bridge with the current nonce, can be encoded, and
    is the action the event calls for.  Nothing is emitted only when the event calls
    for no action.  A known address is used as the book has it, and its identity is
    not registered again: its key is replaced.  For an unknown address the previewed
    id is the one the commit assigns (it fails only when the counter is exhausted);
    the committed book is consistent, knows the address, and translating the event
    again then gives the action for the same actor as one that exists. *)
Theorem translate_commit m b e n :
  book_ok b → event_typed e →
  (∀ u, emitted (translate m b e n) = Some u →
    signer u = BRIDGE_ACTOR_ID ∧ nonce u = n ∧ (∃ o, encode_action (action u) = Ok o)) ∧
  (translate m b e n = NoAction ↔ ∀ fresh i, due m fresh e i = None) ∧
  (∀ u, translate m b e n = Emit u →
    ∃ a i, subject e = Some a ∧ lookup_addr b a = Some i ∧ due m false e i = Some (action u)) ∧
  (∀ u a i, translate m b e n = EmitWithAssignment u a i →
    subject e = Some a ∧ lookup_addr b a = None ∧ due m true e i = Some (action u) ∧
    (next_actor_id b = u64_max → commit_assignment b a i = (Err CommitOverflow, b)) ∧
    (next_actor_id b < u64_max →
      commit_assignment b a i = (Ok i, assigned_book b a) ∧ book_ok (assigned_book b a) ∧
      lookup_addr (assigned_book b a) a = Some i ∧
      ∃ u', translate m (assigned_book b a) e (n + 1) = Emit u' ∧ due m false e i = Some (action u'))).
Proof.
  intros Hb He. pose proof (book_next b Hb) as Hnext.
  destruct (translate_resolves m b e n) as [[Ht Hd]|(a & Hs & Hr)]; [by rewrite Ht|].
  split; [|split; [|split]].
  - intros u Hu. destruct (translate_typed m b e n u Hb He Hu) as [Hty Hg].
    rewrite (encode_action_Ok _ Hty Hg). unfold resolves in Hr.
    destruct (lookup_addr b a); destruct Hr as (act & _ & Hr); rewrite Hr in Hu;
      injection Hu as <-; eauto.
  - unfold resolves in Hr. destruct (lookup_addr b a) as [i|]; destruct Hr as (act & Hdue & ->);
      split; try done; intros Hno; by rewrite Hno in Hdue.
  - intros u Hu. unfold resolves in Hr. destruct (lookup_addr b a) as [i|] eqn:Hl;
      destruct Hr as (act & Hben & Hr); rewrite Hr in Hu; [|done]. injection Hu as <-. eauto.
  - intros u a' i Hu. unfold resolves in Hr. destruct (lookup_addr b a) as [j|] eqn:Hl;
      destruct Hr as (act & Hben & Hr); rewrite Hr in Hu; [done|]. injection Hu as <- <- <-.
    split; [done|]. split; [done|]. split; [done|].
    unfold commit_assignment.
    destruct (try_assign_cases b a Hb) as [(j & Hj & _)|[(_ & Hmax & ->)|(_ & Hlt & ->)]].
    { unfold lookup_addr in Hl. congruence. }
    { split; [done|]. intros. lia. }
    split; [lia|]. intros _. rewrite decide_False by tauto. split; [done|].
    split; [apply assigned_book_ok; [done..|lia]|].
    assert (Hl' : lookup_addr (assigned_book b a) a = Some (next_actor_id b)).
    { unfold lookup_addr. cbn. by simplify_map_eq. }
    split; [done|].
    destruct (translate_resolves m (assigned_book b a) e (n + 1)) as [[_ Hno]|(a' & Hs' & Hr')].
    { by rewrite Hno in Hben. }
    rewrite Hs in Hs'. injection Hs' as <-. unfold resolves in Hr'. rewrite Hl' in Hr'.
    destruct Hr' as (act' & Hben' & Hr'). eauto.
Qed.

(** ** Witnesses *)

Definition demo_address (x : Z) : EthAddress := replicate 20 (byte_of x).

Lemma translate_commit_witness :
  let e := RegisteredEcdsa (demo_address 1) demo_key demo_origin in
  translate false AddressBook_new e 0 =
    EmitWithAssignment (unsigned (RegisterIdentity 4 demo_key) 0) (demo_address 1) 4 ∧
  ∃ u', translate false (assigned_book AddressBook_new (demo_address 1)) e 1 = Emit u' ∧
    Some (ReplaceKey 4 demo_key) = Some (action u').
Proof.
  cbn zeta. split; [vm_compute; reflexivity|].
  destruct (translate_commit false AddressBook_new
    (RegisteredEcdsa (demo_address 1) demo_key demo_origin) 0 AddressBook_new_ok ltac:(done))
    as (_ & _ & _ & H).
  destruct (H (unsigned (RegisterIdentity 4 demo_key) 0) (demo_address 1) 4
    ltac:(vm_compute; reflexivity)) as (_ & _ & _ & _ & Hlt).
  destruct (Hlt ltac:(done)) as (_ & _ & _ & Hu). exact Hu.
Defined.
