(* ===== verification/Reorg.v ===== *)
(** The sliding window of block headers that detects L1 re-organisations
    ([src/runtime/knomosis-l1-ingest/src/reorg.rs]).

    [advance] is translated branch by branch.  Its [number + 1] additions are those of
    a release build, which wrap: the profile of [src/runtime/Cargo.toml] leaves the
    overflow checks off.  The theorem gives the outcome and the next window as a
    function of the block heights and hashes. *)

From Stdlib Require Import ZArith Lia.
From stdpp Require Import base numbers list.
From S2P Require Import Prelude Events.

Local Open Scope Z_scope.

(** ** The window *)

Record BlockHeader : Type := { number : Z; header_hash : TopicHash; parent_hash : TopicHash }.

Inductive ReorgError : Type :=
| DeepReorg (incoming_number window_floor : Z)
| OrphanedParent (incoming_number : Z)
| NonMonotone (incoming_number last_seen : Z).

Inductive AdvanceOutcome : Type :=
| Advanced
| Reorged (dropped_count dropped_from_number : Z).

Record ReorgWindow : Type := { capacity : nat; buffer : list BlockHeader }.

(** The [assert!] on the capacity panics. *)
Definition ReorgWindow_new (capacity : nat) : run ReorgWindow :=
  if decide (0 < capacity)%nat then Done {| capacity := capacity; buffer := [] |} else Panicked.

Definition window_is_empty (self : ReorgWindow) : bool :=
  match buffer self with [] => true | _ => false end.

Definition clear (self : ReorgWindow) : ReorgWindow :=
  {| capacity := capacity self; buffer := [] |}.

(** [pop_front] of a full deque, then [push_back]. *)
Definition push_bounded (self : ReorgWindow) (h : BlockHeader) : ReorgWindow :=
  let kept := if decide (length (buffer self) = capacity self) then tail (buffer self)
              else buffer self in
  {| capacity := capacity self; buffer := kept ++ [h] |}.

Definition seed (self : ReorgWindow) (headers : list BlockHeader) : ReorgWindow :=
  foldl push_bounded (clear self) headers.

Definition window_head (self : ReorgWindow) : option BlockHeader := last (buffer self).
Definition window_tail (self : ReorgWindow) : option BlockHeader := head (buffer self).

Definition contains_hash (self : ReorgWindow) (h : TopicHash) : bool :=
  existsb (fun b => bool_decide (header_hash b = h)) (buffer self).

(** [n + 1] at [u64]. *)
Definition succ_u64 (n : Z) : Z := (n + 1) mod 2 ^ 64.

(** The walk back, over the indexed headers in reverse order. *)
Fixpoint find_parent (l : list (nat * BlockHeader)) (incoming : BlockHeader) : option nat :=
  match l with
  | [] => None
  | (i, h) :: l =>
      if decide (header_hash h = parent_hash incoming ∧ succ_u64 (number h) = number incoming) then Some i
      else find_parent l incoming
  end.

(** The walk back and the truncation, as both re-org branches have them. *)
Definition walk_back (self : ReorgWindow) (incoming : BlockHeader)
  : result AdvanceOutcome ReorgError * ReorgWindow :=
  match find_parent (reverse (imap pair (buffer self))) incoming with
  | None => (Err (OrphanedParent (number incoming)), self)
  | Some i =>
      let dropped_count := saturating_sub (Z.of_nat (length (buffer self))) (Z.of_nat i + 1) in
      let dropped_from_number :=
        match buffer self !! S i with Some h => number h | None => number incoming end in
      (Ok (Reorged dropped_count dropped_from_number),
       {| capacity := capacity self; buffer := take (S i) (buffer self) ++ [incoming] |})
  end.

Definition advance (self : ReorgWindow) (incoming : BlockHeader)
  : result AdvanceOutcome ReorgError * ReorgWindow :=
  match window_head self with
  | None => (Ok Advanced, {| capacity := capacity self; buffer := buffer self ++ [incoming] |})
  | Some last =>
      let window_floor := match window_tail self with Some h => number h | None => number last end in
      if decide (number incoming ≤ window_floor) then
        (Err (DeepReorg (number incoming) window_floor), self)
      else if decide (number incoming = succ_u64 (number last) ∧ parent_hash incoming = header_hash last) then
        (Ok Advanced, push_bounded self incoming)
      else if decide (number incoming ≤ number last) then walk_back self incoming
      else if decide (succ_u64 (number last) < number incoming) then
        (Err (NonMonotone (number incoming) (number last)), self)
      else walk_back self incoming
  end.

(** ** The invariant *)

(** Adjacent headers are consecutive and linked by their hashes. *)
Definition linked (l : list BlockHeader) : Prop :=
  ∀ i a b, l !! i = Some a → l !! S i = Some b →
    number b = number a + 1 ∧ parent_hash b = header_hash a.

Record window_ok (w : ReorgWindow) : Prop := {
  window_cap : (0 < capacity w)%nat;
  window_len : (length (buffer w) ≤ capacity w)%nat;
  window_linked : linked (buffer w);
}.

Lemma ReorgWindow_new_ok c : (0 < c)%nat → ∃ w, ReorgWindow_new c = Done w ∧ window_ok w.
Proof.
  intros Hc. unfold ReorgWindow_new. rewrite decide_True by done. eexists. split; [done|].
  split; cbn; [done|lia|]. intros i a b Hi. by rewrite lookup_nil in Hi.
Qed.

Lemma linked_tail l : linked l → linked (tail l).
Proof. destruct l as [|x l]; [done|]. intros Hl i a b Ha Hb. by apply (Hl (S i)). Qed.

Lemma linked_take n l : linked l → linked (take n l).
Proof.
  intros Hl i a b [Ha _]%lookup_take_Some [Hb _]%lookup_take_Some. by apply (Hl i).
Qed.

Lemma linked_snoc l h :
  linked l → (∀ a, last l = Some a → number h = number a + 1 ∧ parent_hash h = header_hash a) →
  linked (l ++ [h]).
Proof.
  intros Hl Hh i a b Ha Hb. apply lookup_app_Some in Hb as [Hb|[Hlen Hb]].
  - apply (Hl i); [|done]. rewrite lookup_app_l in Ha; [done|].
    apply lookup_lt_Some in Hb. lia.
  - apply list_lookup_singleton_Some in Hb as [Hi <-]. apply Hh. rewrite last_lookup.
    replace (pred (length l)) with i by lia. rewrite lookup_app_l in Ha by lia. done.
Qed.

(** The height of a header is the floor's plus its index. *)
Lemma linked_number l t i a :
  linked l → head l = Some t → l !! i = Some a → number a = number t + Z.of_nat i.
Proof.
  intros Hl Ht. revert a. induction i as [|i IH]; intros a Ha.
  - rewrite head_lookup in Ht. simplify_eq. lia.
  - destruct (lookup_lt_is_Some_2 l i) as [a' Ha'].
    { apply lookup_lt_Some in Ha. lia. }
    destruct (Hl i a' a Ha' Ha) as [-> _]. rewrite (IH a' Ha'). lia.
Qed.

Lemma linked_last l t h :
  linked l → head l = Some t → last l = Some h → number h = number t + Z.of_nat (length l) - 1.
Proof.
  intros Hl Ht Hh. rewrite last_lookup in Hh. rewrite (linked_number l t _ h Hl Ht Hh).
  apply lookup_lt_Some in Hh. lia.
Qed.

(** ** Reference definition

    The block below the incoming one has to be in the window, as its parent. *)

Definition advance_spec (w : ReorgWindow) (inc : BlockHeader) : result AdvanceOutcome ReorgError :=
  match window_tail w, window_head w with
  | Some t, Some l =>
      let n := number inc in
      if decide (n ≤ number t) then Err (DeepReorg n (number t))
      else if decide (number l + 1 < n) then Err (NonMonotone n (number l))
      else match buffer w !! Z.to_nat (n - 1 - number t) with
      | Some p =>
          if decide (header_hash p = parent_hash inc) then
            Ok (if decide (n = number l + 1) then Advanced else Reorged (number l + 1 - n) n)
          else Err (OrphanedParent n)
      | None => Err (OrphanedParent n)
      end
  | _, _ => Ok Advanced
  end.

(** The headers of the window below the incoming block, then that block, of
    which the most recent ones are kept. *)
Definition advanced_window (w : ReorgWindow) (inc : BlockHeader) : ReorgWindow :=
  let below := match window_tail w with
               | Some t => take (Z.to_nat (number inc - number t)) (buffer w)
               | None => [] end in
  let all := below ++ [inc] in
  {| capacity := capacity w; buffer := drop (length all - capacity w) all |}.

(** ** The walk back *)

(** Heights that have a successor. *)
Definition heights_ok (w : ReorgWindow) : Prop := Forall (fun h => 0 ≤ number h < u64_max) (buffer w).

Lemma succ_u64_below n : 0 ≤ n < u64_max → succ_u64 n = n + 1.
Proof. intros Hn. unfold succ_u64, u64_max in *. apply Z.mod_small. lia. Qed.

Lemma find_parent_cases rl inc :
  (∀ i h, (i, h) ∈ rl → 0 ≤ number h < u64_max) →
  (∃ i h, (i, h) ∈ rl ∧ header_hash h = parent_hash inc ∧ number h + 1 = number inc ∧
    find_parent rl inc = Some i) ∨
  ((∀ i h, (i, h) ∈ rl → header_hash h = parent_hash inc → number h + 1 ≠ number inc) ∧
    find_parent rl inc = None).
Proof.
  induction rl as [|[i h] rl IH]; intros Hb.
  { right. split; [|done]. intros i h H. by apply elem_of_nil in H. }
  cbn [find_parent]. rewrite succ_u64_below by (apply (Hb i h); left). case_decide as Hh.
  { left. exists i, h. by destruct Hh; repeat split; [left|..]. }
  destruct IH as [(j & g & Hin & Hp & Hn & Hf)|[Hno Hf]]; [intros j g Hin; apply (Hb j g); by right| |].
  - left. exists j, g. by repeat split; [right|..].
  - right. split; [|done]. intros j g [[= -> ->]|Hin]%elem_of_cons; [intros ??; by apply Hh|eauto].
Qed.

Lemma elem_of_indexed (l : list BlockHeader) i h :
  (i, h) ∈ reverse (imap pair l) ↔ l !! i = Some h.
Proof.
  rewrite elem_of_reverse, list_elem_of_lookup. setoid_rewrite list_lookup_imap_Some.
  split; [by intros (j & x & ? & [= -> ->])|eauto].
Qed.

(** In a linked window the walk back is a lookup by height. *)
Lemma walk_back_linked w t l inc :
  window_ok w → heights_ok w → window_tail w = Some t → window_head w = Some l →
  number t < number inc ≤ number l + 1 →
  (number inc = number l + 1 → parent_hash inc ≠ header_hash l) →
  walk_back w inc = (advance_spec w inc,
    match advance_spec w inc with Ok _ => advanced_window w inc | Err _ => w end).
Proof.
  intros Hw Hmax Ht Hl Hn Hnl. pose proof (window_linked w Hw) as Hlk.
  assert (Hnum : ∀ i h, buffer w !! i = Some h → number h = number t + Z.of_nat i)
    by (intros; by eapply linked_number).
  pose proof (linked_last _ _ _ Hlk Ht Hl) as Hlast.
  unfold advance_spec, walk_back. rewrite Ht, Hl. cbn zeta. rewrite !decide_False by lia.
  destruct (lookup_lt_is_Some_2 (buffer w) (Z.to_nat (number inc - 1 - number t)))
    as [p Hp]; [lia|]. rewrite Hp.
  destruct (find_parent_cases (reverse (imap pair (buffer w))) inc)
    as [(i & h & Hin%elem_of_indexed & Hph & Hi & ->)|[Hno ->]].
  { intros i h Hin%elem_of_indexed. apply list_elem_of_lookup_2 in Hin. by eapply Forall_forall in Hmax. }
  - pose proof (Hnum i h Hin) as Hhi. replace (Z.to_nat (number inc - 1 - number t)) with i in Hp by lia.
    rewrite Hin in Hp. injection Hp as <-. rewrite decide_True by done.
    assert (number inc ≠ number l + 1) as Hne.
    { intros Heq. apply (Hnl Heq). rewrite <- Hph. f_equal. unfold window_head in Hl.
      rewrite last_lookup in Hl. replace (pred (length (buffer w))) with i in Hl by lia. congruence. }
    rewrite decide_False by done.
    destruct (lookup_lt_is_Some_2 (buffer w) (S i)) as [h' Hh']; [lia|]. rewrite Hh'.
    rewrite (Hnum _ _ Hh'). unfold advanced_window, saturating_sub. rewrite Ht.
    pose proof (window_len w Hw). rewrite length_app, length_take. cbn [length].
    replace (Z.to_nat (number inc - number t)) with (S i) by lia.
    replace (S i `min` length (buffer w) + 1 - capacity w)%nat with 0%nat by lia.
    rewrite drop_0. repeat f_equal; lia.
  - rewrite decide_False; [done|]. intros Heq.
    apply (Hno _ p (proj2 (elem_of_indexed _ _ _) Hp) Heq). rewrite (Hnum _ _ Hp). lia.
Qed.

Lemma advance_exact w inc :
  window_ok w → heights_ok w →
  advance w inc = (advance_spec w inc,
    match advance_spec w inc with Ok _ => advanced_window w inc | Err _ => w end).
Proof.
  intros Hw Hmax. unfold advance. destruct (window_head w) as [l|] eqn:Hl.
  2: { unfold window_head in Hl. apply last_None in Hl. unfold advance_spec, advanced_window,
       window_tail, window_head. rewrite Hl. cbn. pose proof (window_cap w Hw).
       by replace (1 - capacity w)%nat with 0%nat by lia. }
  destruct (window_tail w) as [t|] eqn:Ht.
  2: { unfold window_tail in Ht. apply head_None in Ht. unfold window_head in Hl. by rewrite Ht in Hl. }
  pose proof (window_linked w Hw) as Hlk.
  assert (Hls : succ_u64 (number l) = number l + 1).
  { apply succ_u64_below. unfold window_head in Hl. apply last_Some_elem_of in Hl. by eapply Forall_forall in Hmax. }
  pose proof (linked_last _ _ _ Hlk Ht Hl) as Hlast.
  case_decide as Hfl. { unfold advance_spec. by rewrite Ht, Hl, decide_True. }
  rewrite Hls. case_decide as Hext.
  { destruct Hext as [Hn Hp]. unfold advance_spec. rewrite Ht, Hl. cbn zeta.
    rewrite !decide_False by lia. unfold window_head in Hl. rewrite last_lookup in Hl.
    replace (Z.to_nat (number inc - 1 - number t)) with (pred (length (buffer w))) by lia.
    rewrite Hl, decide_True by done. rewrite decide_True by done.
    unfold advanced_window, push_bounded. rewrite Ht. pose proof (window_len w Hw).
    pose proof (lookup_lt_Some _ _ _ Hl).
    rewrite take_ge by lia. rewrite length_app. cbn [length]. case_decide as Hc.
    - replace (length (buffer w) + 1 - capacity w)%nat with 1%nat by lia.
      destruct (buffer w); [cbn in *; lia|]. done.
    - by replace (length (buffer w) + 1 - capacity w)%nat with 0%nat by lia. }
  repeat case_decide; try lia.
  - eapply walk_back_linked; [done..|lia|lia].
  - unfold advance_spec. rewrite Ht, Hl. cbn zeta. by rewrite decide_False, decide_True by lia.
  - eapply walk_back_linked; [done..|lia|]. intros Heq Hp. by apply Hext.
Qed.

Lemma linked_drop n l : linked l → linked (drop n l).
Proof.
  intros Hl i a b. rewrite !lookup_drop, Nat.add_succ_r. apply Hl.
Qed.

Lemma advanced_window_ok w inc o :
  window_ok w → advance_spec w inc = Ok o →
  window_ok (advanced_window w inc) ∧ window_head (advanced_window w inc) = Some inc.
Proof.
  intros Hw Ho. pose proof (window_cap w Hw) as Hc.
  assert (Hlk : linked ((match window_tail w with
    | Some t => take (Z.to_nat (number inc - number t)) (buffer w) | None => [] end) ++ [inc])).
  { destruct (window_tail w) as [t|] eqn:Ht; [|apply linked_snoc; [intros i a b Hi; by rewrite lookup_nil in Hi|done]].
    apply linked_snoc; [by apply linked_take, window_linked|].
    intros a Ha. unfold advance_spec in Ho. rewrite Ht in Ho.
    destruct (window_head w) as [l|] eqn:Hl.
    2: { apply last_None in Hl. unfold window_tail in Ht. by rewrite Hl in Ht. }
    pose proof (linked_last _ _ _ (window_linked w Hw) Ht Hl) as Hlast.
    do 2 (case_decide; [done|]). rewrite last_lookup, length_take in Ha.
    apply lookup_take_Some in Ha as [Ha Hlt].
    replace (pred _) with (Z.to_nat (number inc - 1 - number t)) in Ha by lia.
    rewrite Ha in Ho. case_decide; [|done].
    rewrite (linked_number _ _ _ _ (window_linked w Hw) Ht Ha). split; [lia|done]. }
  unfold advanced_window. cbn zeta. set (all := _ ++ [inc]) in *. split.
  - split; cbn; [done|rewrite length_drop; lia|by apply linked_drop].
  - assert (0 < length all)%nat by (unfold all; rewrite length_app; cbn; lia).
    unfold window_head. cbn [buffer]. rewrite last_lookup, length_drop, lookup_drop.
    replace (_ + _)%nat with (pred (length all)) by lia. rewrite <- last_lookup. apply last_snoc.
Qed.

(** ** Correctness *)

(** The re-org window, on every branch.  On a window whose headers are
    linked and below the last representable height, feeding a block is a lookup by
    height: below or at the floor, and beyond the next height, the
    block is refused; otherwise it is accepted exactly when the header one below
    it is its parent, the headers from its height on being dropped and counted.
    An error changes nothing; an accepted block is the new head of a window that
    is linked again and within its capacity. *)
Theorem advance_correct w inc :
  window_ok w → heights_ok w →
  ∃ w', advance w inc = (advance_spec w inc, w') ∧ window_ok w' ∧
  match advance_spec w inc with
  | Ok _ => w' = advanced_window w inc ∧ window_head w' = Some inc
  | Err _ => w' = w
  end.
Proof.
  intros Hw Hmax. eexists. split; [by apply advance_exact|].
  destruct (advance_spec w inc) as [o|e] eqn:Ho; [|done].
  destruct (advanced_window_ok w inc o Hw Ho). done.
Qed.

(** A fork at the next height is never absorbed.  When the block after the
    head does not name the head as its parent, no header of the window can be the
    parent, so the walk back fails and the window is left as it is. *)
Theorem advance_fork_at_tip w l inc :
  window_ok w → heights_ok w → window_head w = Some l →
  number inc = number l + 1 → parent_hash inc ≠ header_hash l →
  advance w inc = (Err (OrphanedParent (number inc)), w).
Proof.
  intros Hw Hmax Hl Hn Hp. rewrite advance_exact by done.
  destruct (window_tail w) as [t|] eqn:Ht.
  2: { unfold window_tail in Ht. apply head_None in Ht. unfold window_head in Hl. by rewrite Ht in Hl. }
  pose proof (linked_last _ _ _ (window_linked w Hw) Ht Hl) as Hlast.
  assert (0 < length (buffer w))%nat.
  { unfold window_tail in Ht. destruct (buffer w); [done|cbn; lia]. }
  assert (Hs : advance_spec w inc = Err (OrphanedParent (number inc))); [|by rewrite Hs].
  unfold advance_spec. rewrite Ht, Hl. cbn zeta. rewrite !decide_False by lia.
  unfold window_head in Hl. rewrite last_lookup in Hl.
  replace (Z.to_nat _) with (pred (length (buffer w))) by lia. rewrite Hl.
  by rewrite decide_False by done.
Qed.

(** ** Witnesses *)

Definition demo_header (n h p : Z) : BlockHeader :=
  {| number := n; header_hash := replicate 32 (byte_of h); parent_hash := replicate 32 (byte_of p) |}.

Definition demo_window : ReorgWindow :=
  {| capacity := 3; buffer := [demo_header 5 5 4; demo_header 6 6 5; demo_header 7 7 6] |}.

Lemma demo_window_ok : window_ok demo_window.
Proof.
  split; cbn; [lia..|]. intros [|[|[|i]]] a b; cbn; intros; simplify_eq; done.
Qed.

Lemma demo_heights_ok : heights_ok demo_window.
Proof. by repeat constructor. Qed.

Lemma advance_correct_witness :
  ∃ w', advance demo_window (demo_header 7 17 6) = (Ok (Reorged 1 7), w') ∧ window_ok w' ∧
    w' = advanced_window demo_window (demo_header 7 17 6) ∧
    window_head w' = Some (demo_header 7 17 6).
Proof.
  exact (advance_correct demo_window (demo_header 7 17 6) demo_window_ok demo_heights_ok).
Defined.

Lemma advance_fork_at_tip_witness :
  advance demo_window (demo_header 8 8 17) = (Err (OrphanedParent 8), demo_window).
Proof.
  apply (advance_fork_at_tip demo_window (demo_header 7 7 6) (demo_header 8 8 17) demo_window_ok
    demo_heights_ok); done.
Defined.
