(* ===== verification/Source.v ===== *)
(** The L1 source ([src/runtime/knomosis-l1-ingest/src/source.rs]): its errors,
    the trait [L1Source] the two watchers are written against, and the order in
    which both take the logs of a block. *)

From Stdlib Require Import ZArith Lia.
From Stdlib Require Strings.String.
From stdpp Require Import base numbers list sets.
From S2P Require Import Prelude Encoding Events Reorg.

Local Open Scope Z_scope.

Inductive SourceError : Type :=
| SourceTransport (message : String.string)
| SourceMalformed (message : String.string)
| BlockNotFound (number : Z).

(** The trait: calls on a state of the chain and the network that may change at
    every call. *)
Class L1Source (W : Type) : Type := {
  latest_block_number : W → result Z SourceError * W;
  block_header_by_number : Z → W → result BlockHeader SourceError * W;
  logs_in_block_by_hash : TopicHash → EthAddress → W → result (list RawLog) SourceError * W;
}.

(** [sort_by_key], which is stable. *)
Fixpoint insert_log (x : RawLog) (l : list RawLog) : list RawLog :=
  match l with
  | [] => [x]
  | y :: l => if decide (raw_log_index x ≤ raw_log_index y) then x :: y :: l else y :: insert_log x l
  end.

Definition sort_logs (l : list RawLog) : list RawLog := foldr insert_log [] l.

Lemma elem_of_insert_log x y l : y ∈ insert_log x l ↔ y = x ∨ y ∈ l.
Proof.
  induction l as [|z l IH]; cbn; [set_solver|]. case_decide; set_solver.
Qed.

Lemma sort_logs_Forall (P : RawLog → Prop) l : Forall P l → Forall P (sort_logs l).
Proof.
  rewrite !Forall_forall. intros Hl x Hx. apply Hl. revert x Hx. clear Hl.
  induction l as [|y l IH]; cbn; intros x; [done|]. rewrite elem_of_insert_log. set_solver.
Qed.
