(* ===== verification/State.v ===== *)
(** The watcher's persistent state
    ([src/runtime/knomosis-l1-ingest/src/state.rs]).

    The state file is a byte list: one line of JSON per record, read back line by
    line as [BufRead::lines] splits it.  The JSON text of a record is written and
    read by [serde_json], the class [StateJson]; the hexadecimal form of its byte
    fields is the repository's own and is modelled. *)

From Stdlib Require Import ZArith Lia.
From stdpp Require Import base numbers list gmap sorting.
From S2P Require Import Prelude Encoding Events Ingest.

Local Open Scope Z_scope.

(** ** Hexadecimal byte strings *)

Definition hex_char (n : Z) : u8 :=
  if decide (0 ≤ n ≤ 9) then byte_of (48 + n)
  else if decide (10 ≤ n ≤ 15) then byte_of (97 + (n - 10))
  else byte_of 63.

Definition hex_value (c : u8) : option Z :=
  let c := byte_val c in
  if decide (48 ≤ c ≤ 57) then Some (c - 48)
  else if decide (97 ≤ c ≤ 102) then Some (10 + c - 97)
  else if decide (65 ≤ c ≤ 70) then Some (10 + c - 65)
  else None.

Definition hex_prefix : list u8 := [byte_of 48; byte_of 120].

Definition HexBytes_serialize (self : list u8) : list u8 :=
  hex_prefix ++
  (self ≫= fun b => [hex_char (Z.shiftr (byte_val b) 4); hex_char (Z.land (byte_val b) 15)]).

Inductive HexError : Type :=
| ExpectedPrefix
| OddLength
| InvalidHexChar (c : u8).

(** The loop over [chunks(2)] of an even-length string. *)
Fixpoint hex_chunks (s : list u8) : result (list u8) HexError :=
  match s with
  | c0 :: c1 :: s =>
      let? hi := ok_or (hex_value c0) (InvalidHexChar c0) in
      let? lo := ok_or (hex_value c1) (InvalidHexChar c1) in
      let? out := hex_chunks s in
      Ok (byte_of (Z.lor (Z.shiftl hi 4) lo) :: out)
  | _ => Ok []
  end.

Definition HexBytes_deserialize (s : list u8) : result (list u8) HexError :=
  if decide (take 2 s = hex_prefix) then
    let stripped := drop 2 s in
    if decide (Nat.odd (length stripped)) then Err OddLength else hex_chunks stripped
  else Err ExpectedPrefix.

(** ** Records *)

Record AddressAssignment : Type := { address : list u8; actor_id : ActorId }.

Inductive StateRecord : Type :=
| Forwarded (block_hash tx_hash : list u8) (log_index : Z)
| Confirmed (block_number : Z)
| AddressAssigned (a : AddressAssignment)
| NonceProgressed (next_nonce : Z)
| Submitted (block_hash tx_hash : list u8) (log_index next_nonce : Z)
    (assigned : option AddressAssignment).

(** [serde_json] on records: [to_string], and [from_str] on a line. *)
Class StateJson : Type := {
  json_to_string : StateRecord → option (list u8);
  json_from_str : list u8 → option StateRecord;
}.

(** Why a state file is refused. *)
Inductive MalformedReason : Type :=
| JsonParse
| BlockHashLength
| TxHashLength
| AddressLength
| AssignedAddressLength
| ConflictingActor (id : ActorId) (prior addr : EthAddress)
| ReservedActor (id : ActorId)
| ReplayOverflow (id : ActorId)
| ReplayMismatch (id assigned_id : ActorId).

Inductive StateError : Type :=
| StateIo
| Malformed (line_number : Z) (message : MalformedReason).

(** ** The state in memory *)

Record ForwardedKey : Type := {
  key_block_hash : TopicHash;
  key_tx_hash : TopicHash;
  key_log_index : Z;
}.

#[global] Instance ForwardedKey_eq_dec : EqDecision ForwardedKey.
Proof. solve_decision. Defined.

#[global] Instance ForwardedKey_countable : Countable ForwardedKey :=
  inj_countable'
    (fun k => (key_block_hash k, key_tx_hash k, key_log_index k))
    (fun '(b, t, l) => {| key_block_hash := b; key_tx_hash := t; key_log_index := l |})
    ltac:(by intros []).

Record WatcherState : Type := {
  last_confirmed_block : option Z;
  forwarded : gset ForwardedKey;
  address_book : AddressBook;
  next_nonce : Z;
}.

Definition WatcherState_default : WatcherState :=
  {| last_confirmed_block := None; forwarded := ∅; address_book := AddressBook_new;
     next_nonce := 0 |}.

(** ** Lines *)

Definition newline : u8 := byte_of 10.
Definition carriage_return : u8 := byte_of 13.

(** A line that ended in a newline loses a carriage return before it. *)
Definition strip_cr (line : list u8) : list u8 :=
  match last line with
  | Some c => if decide (c = carriage_return) then removelast line else line
  | None => line
  end.

(** [BufRead::lines]; [cur] is the line read so far. *)
Fixpoint lines_from (cur : list u8) (bs : list u8) : list (list u8) :=
  match bs with
  | [] => match cur with [] => [] | _ => [cur] end
  | b :: bs => if decide (b = newline) then strip_cr cur :: lines_from [] bs
               else lines_from (cur ++ [b]) bs
  end.

Definition lines (bs : list u8) : list (list u8) := lines_from [] bs.

Definition continuation (b : u8) : bool := (128 <=? byte_val b) && (byte_val b <=? 191).

(** The scalar values of a UTF-8 string; [None] where it is not valid UTF-8. *)
Fixpoint utf8_decode (bs : list u8) : option (list Z) :=
  match bs with
  | [] => Some []
  | b :: bs1 =>
      let x := byte_val b in
      if x <? 128 then cons x <$> utf8_decode bs1
      else match bs1 with
      | [] => None
      | b1 :: bs2 =>
          let y := byte_val b1 mod 64 in
          if (194 <=? x) && (x <=? 223) && continuation b1 then
            cons ((x - 192) * 64 + y) <$> utf8_decode bs2
          else match bs2 with
          | [] => None
          | b2 :: bs3 =>
              let z := byte_val b2 mod 64 in
              let c := ((x - 224) * 64 + y) * 64 + z in
              if (224 <=? x) && (x <=? 239) && continuation b1 && continuation b2
                 && (2048 <=? c) && negb ((55296 <=? c) && (c <=? 57343)) then
                cons c <$> utf8_decode bs3
              else match bs3 with
              | [] => None
              | b3 :: bs4 =>
                  let c := (((x - 240) * 64 + y) * 64 + z) * 64 + byte_val b3 mod 64 in
                  if (240 <=? x) && (x <=? 244) && continuation b1 && continuation b2
                     && continuation b3 && (65536 <=? c) && (c <=? 1114111) then
                    cons c <$> utf8_decode bs4
                  else None
              end
          end
      end
  end.

(** [char::is_whitespace]. *)
Definition is_whitespace (c : Z) : bool :=
  ((9 <=? c) && (c <=? 13)) || (c =? 32) || (c =? 133) || (c =? 160) || (c =? 5760)
  || ((8192 <=? c) && (c <=? 8202)) || (c =? 8232) || (c =? 8233) || (c =? 8239)
  || (c =? 8287) || (c =? 12288).

(** ** Replay *)

Section Replay.
Context `{StateJson}.

(** What the replay loop carries: the state, and the assignments by actor id. *)
Definition replaying : Type := WatcherState * gmap Z EthAddress.

(** [bytes.try_into()] at an array of length [n]. *)
Definition try_into (n : nat) (bytes : list u8) (e : StateError) : result (list u8) StateError :=
  if decide (length bytes = n) then Ok bytes else Err e.

Definition insert_forwarded (st : WatcherState) (key : ForwardedKey) : WatcherState :=
  {| last_confirmed_block := last_confirmed_block st;
     forwarded := {[ key ]} ∪ forwarded st;
     address_book := address_book st;
     next_nonce := next_nonce st |}.

Definition raise_nonce (st : WatcherState) (n : Z) : WatcherState :=
  {| last_confirmed_block := last_confirmed_block st;
     forwarded := forwarded st;
     address_book := address_book st;
     next_nonce := if decide (next_nonce st < n) then n else next_nonce st |}.

Definition set_confirmed (st : WatcherState) (block_number : Z) : WatcherState :=
  {| last_confirmed_block := Some block_number;
     forwarded := forwarded st;
     address_book := address_book st;
     next_nonce := next_nonce st |}.

(** The dedup key of a record, its hashes checked for their length. *)
Definition replay_key (line_number : Z) (block_hash tx_hash : list u8) (log_index : Z)
  : result ForwardedKey StateError :=
  let? bh := try_into 32 block_hash (Malformed line_number BlockHashLength) in
  let? th := try_into 32 tx_hash (Malformed line_number TxHashLength) in
  Ok {| key_block_hash := bh; key_tx_hash := th; key_log_index := log_index |}.

(** The assignment of a record, refused when the id has another address. *)
Definition replay_assignment (line_number : Z) (reason : MalformedReason)
    (pending : gmap Z EthAddress) (a : AddressAssignment) : result (gmap Z EthAddress) StateError :=
  let? addr := try_into 20 (address a) (Malformed line_number reason) in
  match pending !! actor_id a with
  | Some prior =>
      if decide (prior ≠ addr) then
        Err (Malformed line_number (ConflictingActor (actor_id a) prior addr))
      else Ok (<[actor_id a := addr]> pending)
  | None => Ok (<[actor_id a := addr]> pending)
  end.

Definition apply_record (line_number : Z) (acc : replaying) (record : StateRecord)
  : result replaying StateError :=
  let '(st, pending) := acc in
  match record with
  | Forwarded block_hash tx_hash log_index =>
      let? key := replay_key line_number block_hash tx_hash log_index in
      Ok (insert_forwarded st key, pending)
  | Confirmed block_number => Ok (set_confirmed st block_number, pending)
  | AddressAssigned a =>
      let? pending := replay_assignment line_number AddressLength pending a in
      Ok (st, pending)
  | NonceProgressed n => Ok (raise_nonce st n, pending)
  | Submitted block_hash tx_hash log_index n assigned =>
      let? key := replay_key line_number block_hash tx_hash log_index in
      let st := raise_nonce (insert_forwarded st key) n in
      match assigned with
      | Some a =>
          let? pending := replay_assignment line_number AssignedAddressLength pending a in
          Ok (st, pending)
      | None => Ok (st, pending)
      end
  end.

(** One line: unreadable text is an I/O error, a blank line is skipped. *)
Definition replay_line (line_number : Z) (acc : replaying) (line : list u8)
  : result replaying StateError :=
  match utf8_decode line with
  | None => Err StateIo
  | Some text =>
      if forallb is_whitespace text then Ok acc
      else
        let? record := ok_or (json_from_str line) (Malformed line_number JsonParse) in
        apply_record line_number acc record
  end.

Fixpoint replay_lines (line_number : Z) (acc : replaying) (ls : list (list u8))
  : result replaying StateError :=
  match ls with
  | [] => Ok acc
  | l :: ls =>
      let? acc := replay_line line_number acc l in
      replay_lines (line_number + 1) acc ls
  end.

(** The address book from the assignments in actor-id order. *)
Fixpoint rebuild (pending : list (Z * EthAddress)) (book : AddressBook)
  : result AddressBook StateError :=
  match pending with
  | [] => Ok book
  | (id, addr) :: pending =>
      if decide (id < INITIAL_NEXT_ACTOR_ID) then Err (Malformed 0 (ReservedActor id))
      else match try_assign book addr with
      | (Err AssignOverflow, _) => Err (Malformed 0 (ReplayOverflow id))
      | (Ok (assigned_id, _), book) =>
          if decide (assigned_id ≠ id) then Err (Malformed 0 (ReplayMismatch id assigned_id))
          else rebuild pending book
      end
  end.

Definition with_book (st : WatcherState) (book : AddressBook) : WatcherState :=
  {| last_confirmed_block := last_confirmed_block st; forwarded := forwarded st;
     address_book := book; next_nonce := next_nonce st |}.

Definition finish (acc : replaying) : result WatcherState StateError :=
  let '(st, pending) := acc in
  let? book := rebuild (btree_iter pending) (address_book st) in
  Ok (with_book st book).

Definition replay (file : list u8) : result WatcherState StateError :=
  let? acc := replay_lines 1 (WatcherState_default, ∅) (lines file) in
  finish acc.

(** ** The store

    [file] is [None] before the file exists. *)

Definition StateStore_open (file : option (list u8)) : result (list u8 * WatcherState) StateError :=
  match file with
  | Some bytes => let? st := replay bytes in Ok (bytes, st)
  | None => Ok ([], WatcherState_default)
  end.

(** How writing and flushing a line ends: complete, or failed with only some
    bytes in the file. *)
Inductive write_outcome : Type :=
| Wrote
| Tore (k : nat).

Definition append (file : list u8) (record : StateRecord) (io : write_outcome)
  : result () StateError * list u8 :=
  match json_to_string record with
  | None => (Err StateIo, file)
  | Some line =>
      match io with
      | Wrote => (Ok (), file ++ line ++ [newline])
      | Tore k => (Err StateIo, file ++ take k (line ++ [newline]))
      end
  end.

End Replay.

(** ** What the store relies on of [serde_json]

    A record is written on one line of printable ASCII without spaces (the
    compact form; all its strings are hexadecimal or decimal) that parses back
    to it; a line that is cut short, or has text after the record, does not
    parse; and what is parsed is in the range of its integer types. *)

Definition record_typed (r : StateRecord) : Prop :=
  match r with
  | Forwarded _ _ i => in_u64 i
  | Confirmed n => in_u64 n
  | AddressAssigned a => in_u64 (actor_id a)
  | NonceProgressed n => in_u128 n
  | Submitted _ _ i n a =>
      in_u64 i ∧ in_u128 n ∧ match a with Some a => in_u64 (actor_id a) | None => True end
  end.

#[global] Instance record_typed_dec r : Decision (record_typed r).
Proof. destruct r as [| | | |? ? ? ? []]; cbn; apply _. Defined.

Definition printable (b : u8) : Prop := 32 < byte_val b < 127.

Class StateJsonOk `{StateJson} : Prop := {
  json_line r : record_typed r →
    ∃ line, json_to_string r = Some line ∧ json_from_str line = Some r ∧
      line ≠ [] ∧ Forall printable line;
  json_truncated r line p : record_typed r → json_to_string r = Some line →
    p `prefix_of` line → p ≠ line → p ≠ [] → json_from_str p = None;
  json_trailing r line x : record_typed r → json_to_string r = Some line →
    Forall printable x → x ≠ [] → json_from_str (line ++ x) = None;
  json_typed l r : json_from_str l = Some r → record_typed r;
}.

(** ** Lines of a log *)

Lemma utf8_printable l : Forall printable l → utf8_decode l = Some (byte_val <$> l).
Proof.
  induction 1 as [|b l [Hb1 Hb2] Hl IH]; [done|]. cbn.
  rewrite (proj2 (Z.ltb_lt (byte_val b) 128)) by lia. by rewrite IH.
Qed.

Lemma printable_not_blank l :
  l ≠ [] → Forall printable l → forallb is_whitespace (byte_val <$> l) = false.
Proof.
  destruct l as [|b l]; [done|]. intros _ [[Hb1 Hb2] _]%Forall_cons. cbn.
  assert (is_whitespace (byte_val b) = false) as ->; [|done].
  unfold is_whitespace. apply not_true_is_false.
  rewrite !orb_true_iff, !andb_true_iff, !Z.leb_le, !Z.eqb_eq. lia.
Qed.

Lemma replay_line_printable `{StateJson} n acc l :
  l ≠ [] → Forall printable l →
  replay_line n acc l =
    let? r := ok_or (json_from_str l) (Malformed n JsonParse) in apply_record n acc r.
Proof.
  intros Hne Hl. unfold replay_line. by rewrite utf8_printable, printable_not_blank by done.
Qed.

Lemma printable_newline b : printable b → b ≠ newline.
Proof. intros [Hb _] ->. by vm_compute in Hb. Qed.

Lemma printable_strip l : Forall printable l → strip_cr l = l.
Proof.
  intros Hl. unfold strip_cr. destruct (last l) as [c|] eqn:Hc; [|done].
  rewrite decide_False; [done|]. intros ->. apply last_Some_elem_of in Hc.
  rewrite Forall_forall in Hl. destruct (Hl _ Hc) as [Hb _]. by vm_compute in Hb.
Qed.

Lemma lines_from_cons cur b bs :
  lines_from cur (b :: bs) = if decide (b = newline) then strip_cr cur :: lines_from [] bs
                             else lines_from (cur ++ [b]) bs.
Proof. done. Qed.

Lemma lines_from_text cur l bs :
  Forall printable l → lines_from cur (l ++ bs) = lines_from (cur ++ l) bs.
Proof.
  intros Hl. revert cur. induction Hl as [|b l Hb Hl IH]; intros cur.
  - by rewrite app_nil_r.
  - cbn. rewrite decide_False by by apply printable_newline. by rewrite IH, <- app_assoc.
Qed.

(** A file of complete lines. *)
Definition whole (file : list u8) : Prop := file = [] ∨ last file = Some newline.

Lemma lines_whole_app file bs : whole file → lines (file ++ bs) = lines file ++ lines bs.
Proof.
  intros [->|Hl]; [done|]. unfold lines. generalize (@nil u8) at 1 2 as cur.
  induction file as [|b file IH]; intros cur; [done|]. rewrite <- app_comm_cons, !lines_from_cons.
  destruct file as [|b' file].
  - cbn in Hl. injection Hl as ->. by rewrite !decide_True.
  - case_decide; [|by apply IH].
    trans (strip_cr cur :: (lines_from [] (b' :: file) ++ lines_from [] bs)); [|done].
    f_equal. by apply IH.
Qed.

Lemma whole_line file l : whole (file ++ l ++ [newline]).
Proof. right. by rewrite app_assoc, last_snoc. Qed.

Lemma lines_line l : Forall printable l → lines (l ++ [newline]) = [l].
Proof.
  intros Hl. unfold lines. rewrite lines_from_text by done. cbn. by rewrite printable_strip.
Qed.

Lemma lines_text l : l ≠ [] → Forall printable l → lines l = [l].
Proof.
  intros Hne Hl. unfold lines. rewrite <- (app_nil_r l) at 1. rewrite lines_from_text by done.
  by destruct l.
Qed.

Lemma replay_lines_app `{StateJson} n acc l1 l2 :
  replay_lines n acc (l1 ++ l2) =
    let? acc := replay_lines n acc l1 in replay_lines (n + Z.of_nat (length l1)) acc l2.
Proof.
  revert n acc. induction l1 as [|l l1 IH]; intros n acc; cbn [app replay_lines length].
  - cbn. by rewrite Z.add_0_r.
  - destruct (replay_line n acc l); cbn; [|done]. rewrite IH.
    by replace (n + 1 + Z.of_nat (length l1)) with (n + Z.of_nat (S (length l1))) by lia.
Qed.

(** ** Appending and replaying *)

(** The loop state that replaying a file ends in. *)
Definition replayed `{StateJson} (file : list u8) : result replaying StateError :=
  replay_lines 1 (WatcherState_default, ∅) (lines file).

Definition next_line (file : list u8) : Z := 1 + Z.of_nat (length (lines file)).

Section Appending.
Context `{StateJsonOk}.

Lemma replayed_app file bs acc :
  whole file → replayed file = Ok acc →
  replayed (file ++ bs) = replay_lines (next_line file) acc (lines bs).
Proof.
  intros Hw Hr. unfold replayed in *. by rewrite lines_whole_app, replay_lines_app, Hr by done.
Qed.

(** One more printable line. *)
Lemma replayed_text file l acc :
  whole file → replayed file = Ok acc → l ≠ [] → Forall printable l →
  let r := let? r := ok_or (json_from_str l) (Malformed (next_line file) JsonParse) in
           apply_record (next_line file) acc r in
  replayed (file ++ l ++ [newline]) = r ∧ replayed (file ++ l) = r.
Proof.
  intros Hw Hr Hne Hl. cbn zeta. rewrite !(replayed_app file _ acc) by done.
  rewrite lines_line, lines_text by done. cbn [replay_lines].
  rewrite replay_line_printable by done.
  destruct (ok_or _ _) as [r|e]; cbn; [|done]. by destruct (apply_record _ _ _).
Qed.

Lemma replayed_record file r acc :
  whole file → replayed file = Ok acc → record_typed r →
  ∃ line, json_to_string r = Some line ∧ append file r Wrote = (Ok (), file ++ line ++ [newline]) ∧
    whole (file ++ line ++ [newline]) ∧
    replayed (file ++ line ++ [newline]) = apply_record (next_line file) acc r.
Proof.
  intros Hw Hr Ht. destruct (json_line r Ht) as (line & Hto & Hfrom & Hne & Hp).
  exists line. split; [done|]. split; [unfold append; by rewrite Hto|].
  split; [apply whole_line|]. destruct (replayed_text file line acc Hw Hr Hne Hp) as [-> _].
  by rewrite Hfrom.
Qed.

(** A write that tears: nothing of the line is in the file, all of it is but
    perhaps its newline, or a part that does not parse. *)
(** A part of a line, behind a whole file: nothing of it is nothing, all of it is the
    record, with its newline or without, and anything between is refused. *)
Lemma replayed_part file r line part acc :
  whole file → replayed file = Ok acc → record_typed r → json_to_string r = Some line →
  part `prefix_of` line ++ [newline] →
  (part = [] → replayed (file ++ part) = Ok acc) ∧
  (line `prefix_of` part → replayed (file ++ part) = apply_record (next_line file) acc r) ∧
  (part ≠ [] → ¬ line `prefix_of` part → replayed (file ++ part) = Err (Malformed (next_line file) JsonParse)).
Proof.
  intros Hw Hr Ht Hline Hpart. destruct (json_line r Ht) as (line' & Hto & Hfrom & Hne & Hp).
  rewrite Hline in Hto. injection Hto as <-. split; [intros ->; by rewrite app_nil_r|].
  assert (Hcase : part = line ++ [newline] ∨ part `prefix_of` line).
  { destruct Hpart as [k Hk]. destruct k as [|b k] using rev_ind; [left; by rewrite app_nil_r in Hk|].
    rewrite app_assoc in Hk. apply app_inj_tail in Hk as [-> _]. right. by eexists. }
  split.
  - intros Hl. destruct Hcase as [->|Hpl].
    + destruct (replayed_text file line acc Hw Hr Hne Hp) as [-> _]. by rewrite Hfrom.
    + assert (part = line) as -> by (apply (anti_symm prefix); done).
      destruct (replayed_text file line acc Hw Hr Hne Hp) as [_ ->]. by rewrite Hfrom.
  - intros Hk Hn. destruct Hcase as [->|Hpl]; [destruct Hn; by apply prefix_app_r|].
    destruct (replayed_text file part acc Hw Hr Hk) as [_ ->].
    { destruct Hpl as [k ->]. by apply Forall_app in Hp as [? _]. }
    rewrite (json_truncated r line part); try done. by intros ->.
Qed.

Lemma replayed_torn file r acc k :
  whole file → replayed file = Ok acc → record_typed r →
  ∃ file', append file r (Tore k) = (Err StateIo, file') ∧
   (replayed file' = Ok acc ∨
    replayed file' = apply_record (next_line file) acc r ∨
    replayed file' = Err (Malformed (next_line file) JsonParse)).
Proof.
  intros Hw Hr Ht. destruct (json_line r Ht) as (line & Hto & _). unfold append. rewrite Hto. eexists. split; [done|].
  destruct (replayed_part file r line (take k (line ++ [newline])) acc Hw Hr Ht Hto (prefix_take _ _)) as (H1 & H2 & H3).
  destruct (decide (take k (line ++ [newline]) = [])); [by left; apply H1|].
  destruct (decide (line `prefix_of` take k (line ++ [newline]))); [by right; left; apply H2|by right; right; apply H3].
Qed.

End Appending.

(** ** The rebuilt book

    On success the assignments are exactly the reverse map of the book. *)

Lemma rebuild_app l1 l2 b :
  rebuild (l1 ++ l2) b = let? b := rebuild l1 b in rebuild l2 b.
Proof.
  revert b. induction l1 as [|[id addr] l1 IH]; intros b; [done|]. cbn.
  case_decide; [done|]. destruct (try_assign b addr) as [[[i fresh]|[]] b']; [|done].
  case_decide; [done|]. apply IH.
Qed.

(** Starting from a good book, with ascending ids from the counter on, every
    entry is a fresh assignment of the counter. *)
Lemma rebuild_fresh id addr l b b' :
  book_ok b → next_actor_id b ≤ id → rebuild ((id, addr) :: l) b = Ok b' →
  id = next_actor_id b ∧ book_ok (assigned_book b addr) ∧ rebuild l (assigned_book b addr) = Ok b'.
Proof.
  intros Hb Hid. cbn. case_decide; [done|].
  destruct (try_assign_cases b addr Hb) as [(i & Hi & ->)|[(_ & _ & ->)|(Hn & Hlt & ->)]]; [|done|].
  - case_decide as Hne; [done|]. subst i. apply (book_inverse b Hb) in Hi.
    destruct (proj1 (book_issued b Hb id)); [by eauto|lia].
  - case_decide as Hne; [done|]. subst id. intros Hr.
    split; [done|]. split; [apply assigned_book_ok; [done..|lia]|done].
Qed.

Lemma rebuild_ok l b b' :
  book_ok b → StronglySorted key_lt l → Forall (fun p => next_actor_id b ≤ p.1) l →
  rebuild l b = Ok b' → book_ok b' ∧ reverse b' = list_to_map (list.reverse l) ∪ reverse b.
Proof.
  revert b. induction l as [|[id addr] l IH]; intros b Hb Hs Hge Hr.
  - injection Hr as <-. split; [done|]. cbn. by rewrite (left_id_L ∅ (∪)).
  - apply Forall_cons in Hge as [Hid Hge]. apply StronglySorted_inv in Hs as [Hs Hlt].
    destruct (rebuild_fresh id addr l b b' Hb Hid Hr) as (-> & Hb' & Hr').
    destruct (IH _ Hb' Hs) as [Hok Hrev]; [|done|].
    { eapply Forall_impl; [exact Hlt|]. unfold key_lt. cbn. lia. }
    split; [done|]. rewrite Hrev, reverse_cons, list_to_map_app, <- map_union_assoc. f_equal.
    cbn. by rewrite <- insert_union_l, (left_id_L ∅ (∪)).
Qed.

Lemma rebuild_unreserved l b b' :
  rebuild l b = Ok b' → Forall (fun p => INITIAL_NEXT_ACTOR_ID ≤ p.1) l.
Proof.
  revert b. induction l as [|[id addr] l IH]; intros b; [constructor|]. cbn.
  case_decide; [done|]. destruct (try_assign b addr) as [[[i fresh]|[]] b'']; [|done].
  case_decide; [done|]. intros Hr. constructor; [cbn; lia|eauto].
Qed.

Lemma rebuild_book pending b :
  rebuild (btree_iter pending) AddressBook_new = Ok b → book_ok b ∧ reverse b = pending.
Proof.
  intros Hr. pose proof (btree_iter_sorted pending) as Hs.
  destruct (rebuild_ok _ _ b AddressBook_new_ok Hs (rebuild_unreserved _ _ _ Hr) Hr) as [Hb Hrev].
  split; [done|]. rewrite Hrev. cbn. rewrite (right_id_L ∅ (∪)).
  rewrite <- (btree_iter_map pending) at 2. apply list_to_map_proper.
  - rewrite fmap_reverse, reverse_Permutation. by apply key_lt_NoDup.
  - apply reverse_Permutation.
Qed.

(** The book without its last assignment. *)
Lemma book_pred b :
  book_ok b → INITIAL_NEXT_ACTOR_ID < next_actor_id b →
  ∃ b' a, book_ok b' ∧ b = assigned_book b' a ∧ next_actor_id b = next_actor_id b' + 1 ∧
    forward b' !! a = None.
Proof.
  intros Hb Hn. pose proof (book_next b Hb) as Hnext. set (n := next_actor_id b - 1).
  destruct (proj2 (book_issued b Hb n)) as [a Ha]; [lia|].
  pose proof (proj2 (book_inverse b Hb a n) Ha) as Hfa.
  exists {| forward := delete a (forward b); reverse := delete n (reverse b); next_actor_id := n |}, a.
  split; [|split; [|split; [cbn; lia|apply lookup_delete_eq]]].
  - split; cbn.
    + intros a' i. rewrite !lookup_delete_Some, (book_inverse b Hb a' i).
      split; intros [Hne Hi]; (split; [|done]); intros Heq; apply Hne.
      * rewrite <- Heq in Hi. congruence.
      * apply (book_inverse b Hb) in Hi. rewrite <- Heq in Hi. congruence.
    + intros i. split.
      * intros [x [Hne Hi]%lookup_delete_Some].
        destruct (proj1 (book_issued b Hb i)); [by eauto|]. lia.
      * intros Hi. destruct (proj2 (book_issued b Hb i)) as [x Hx]; [lia|]. exists x.
        apply lookup_delete_Some. split; [lia|done].
    + lia.
  - unfold assigned_book. destruct b as [f r nx]. cbn in *. f_equal.
    + by rewrite insert_delete_id.
    + by rewrite insert_delete_id.
    + lia.
Qed.

Lemma btree_iter_assigned b a :
  book_ok b → btree_iter (reverse (assigned_book b a)) = btree_iter (reverse b) ++ [(next_actor_id b, a)].
Proof.
  intros Hb. rewrite <- (btree_iter_unique (btree_iter (reverse b) ++ _)).
  - f_equal. rewrite list_to_map_snoc, btree_iter_map; [done|].
    rewrite btree_iter_perm.
    intros ([i x] & Hi & Hin%elem_of_map_to_list)%list_elem_of_fmap. cbn in Hi. subst i.
    by rewrite (book_fresh b Hb) in Hin.
  - apply StronglySorted_app_2; [|apply btree_iter_sorted|repeat constructor].
    intros [i x] [j y] Hin ->%list_elem_of_singleton. unfold key_lt. cbn.
    rewrite btree_iter_perm in Hin. apply elem_of_map_to_list in Hin.
    destruct (proj1 (book_issued b Hb i)); [by eauto|]. lia.
Qed.

(** A good book is rebuilt from its reverse map. *)
Lemma rebuild_reverse b :
  book_ok b → rebuild (btree_iter (reverse b)) AddressBook_new = Ok b.
Proof.
  intros Hb. remember (Z.to_nat (next_actor_id b - INITIAL_NEXT_ACTOR_ID)) as k eqn:Hk.
  revert b Hb Hk. induction k as [|k IH]; intros b Hb Hk; pose proof (book_next b Hb) as Hn.
  - assert (b = AddressBook_new) as ->; [|by vm_compute].
    assert (Hr : reverse b = ∅).
    { apply map_empty. intros i. apply eq_None_not_Some. intros H.
      apply (book_issued b Hb) in H. lia. }
    assert (Hf : forward b = ∅).
    { apply map_empty. intros a. apply eq_None_not_Some. intros [i Hi].
      apply (book_inverse b Hb) in Hi. by rewrite Hr in Hi. }
    destruct b as [f r nx]. cbn in *. unfold AddressBook_new. f_equal; [done..|lia].
  - destruct (book_pred b Hb) as (b' & a & Hb' & -> & Hnx & Hfr); [lia|].
    rewrite btree_iter_assigned, rebuild_app, (IH b' Hb') by first [done|lia].
    cbn. pose proof (book_next b' Hb') as Hn'. rewrite decide_False by lia.
    destruct (try_assign_cases b' a Hb') as [(i & Hi & _)|[(_ & Hm & _)|(_ & _ & ->)]];
      [congruence|lia|]. by rewrite decide_False by tauto.
Qed.

(** ** The hexadecimal form *)

(** An upper-case hexadecimal digit in lower case. *)
Definition lower_hex (c : u8) : u8 :=
  if decide (65 ≤ byte_val c ≤ 70) then byte_of (byte_val c + 32) else c.

Definition hex_body (bs : list u8) : list u8 :=
  bs ≫= fun b => [hex_char (Z.shiftr (byte_val b) 4); hex_char (Z.land (byte_val b) 15)].

Lemma byte_of_eq x b : 0 ≤ x < 256 → byte_of x = b ↔ x = byte_val b.
Proof.
  intros Hx. split; [intros <-; rewrite byte_val_of; by rewrite Z.mod_small|].
  intros ->. apply byte_of_val.
Qed.

Lemma hex_char_val n : 0 ≤ n ≤ 15 → byte_val (hex_char n) = if decide (n ≤ 9) then 48 + n else 87 + n.
Proof.
  intros Hn. unfold hex_char. repeat case_decide; try lia; rewrite byte_val_of, Z.mod_small; lia.
Qed.

(** A digit's value is the nibble whose digit it is, up to case. *)
Lemma hex_value_Some c n : hex_value c = Some n ↔ 0 ≤ n ≤ 15 ∧ lower_hex c = hex_char n.
Proof.
  pose proof (byte_val_bound c) as Hc. unfold hex_value, lower_hex. split.
  - intros Hv. assert (Hn : 0 ≤ n ≤ 15) by (repeat case_decide; simplify_eq; lia).
    split; [done|]. apply byte_val_inj. rewrite hex_char_val by done.
    repeat case_decide; simplify_eq; try lia; rewrite byte_val_of, Z.mod_small; lia.
  - intros [Hn Heq]. apply (f_equal byte_val) in Heq. rewrite hex_char_val in Heq by done.
    destruct (decide (65 ≤ byte_val c ≤ 70)) as [Hup|Hup].
    + rewrite byte_val_of, Z.mod_small in Heq by lia.
      repeat case_decide; simplify_eq; try lia; f_equal; lia.
    + repeat case_decide; simplify_eq; try lia; f_equal; lia.
Qed.

Lemma nibbles b : Z.shiftr (byte_val b) 4 = byte_val b / 16 ∧ Z.land (byte_val b) 15 = byte_val b mod 16.
Proof.
  split; [by rewrite Z.shiftr_div_pow2 by lia|]. change 15 with (Z.ones 4).
  by rewrite Z.land_ones by lia.
Qed.

Lemma join_nibbles hi lo :
  0 ≤ hi ≤ 15 → 0 ≤ lo ≤ 15 → Z.lor (Z.shiftl hi 4) lo = 16 * hi + lo.
Proof.
  intros Hhi Hlo.
  assert (Hall : Forall (fun h => Forall (fun l => Z.lor (Z.shiftl h 4) l = 16 * h + l) (seqZ 0 16))
    (seqZ 0 16)) by (apply (bool_decide_unpack _); by vm_compute).
  rewrite Forall_forall in Hall. specialize (Hall hi ltac:(apply elem_of_seqZ; lia)).
  rewrite Forall_forall in Hall. apply Hall, elem_of_seqZ. lia.
Qed.

Lemma hex_chunks_Ok d bs :
  Nat.even (length d) → hex_chunks d = Ok bs ↔ lower_hex <$> d = hex_body bs.
Proof.
  revert d. induction bs as [|b bs IH]; intros d Hev.
  - destruct d as [|c0 [|c1 d]]; [done|done|]. cbn. split; [|done]. intros Hd. inv_binds.
  - destruct d as [|c0 [|c1 d]]; [done|done|]. specialize (IH d Hev).
    pose proof (byte_val_bound b) as Hb. destruct (nibbles b) as [Hhi Hlo].
    cbn -[byte_of Z.lor Z.shiftl]. unfold hex_body in IH. rewrite Hhi, Hlo. split.
    + intros Hd. inv_binds. unfold ok_or in *. repeat case_match; simplify_eq.
      repeat match goal with H : hex_value _ = Some _ |- _ => apply hex_value_Some in H as [? ?] end.
      match goal with H : hex_chunks _ = Ok _ |- _ => apply IH in H as <- end.
      rewrite join_nibbles, byte_val_of, Z.mod_small by lia.
      rewrite Z.add_comm, Z.mul_comm, Z.div_add, Z.mod_add by lia.
      rewrite Z.div_small, Z.mod_small by lia. by repeat f_equal.
    + intros [= H0 H1 Hd]. apply IH in Hd.
      assert (hex_value c0 = Some (byte_val b / 16)) as ->.
      { apply hex_value_Some. split; [|done]. split; [apply Z.div_pos; lia|].
        apply Z.lt_succ_r, Z.div_lt_upper_bound; lia. }
      assert (hex_value c1 = Some (byte_val b mod 16)) as ->.
      { apply hex_value_Some. split; [|done]. pose proof (Z.mod_pos_bound (byte_val b) 16). lia. }
      cbn -[byte_of Z.lor Z.shiftl]. rewrite Hd. cbn -[byte_of Z.lor Z.shiftl].
      pose proof (Z.mod_pos_bound (byte_val b) 16). pose proof (Z.div_mod (byte_val b) 16).
      rewrite join_nibbles by lia. do 2 f_equal. apply byte_of_eq; lia.
Qed.

(** ** The book of a replayed state *)

Lemma apply_record_book n acc r acc' :
  apply_record n acc r = Ok acc' → address_book acc'.1 = address_book acc.1.
Proof.
  destruct acc as [st p], r as [| | | |bh th i nn [a|]]; cbn; intros Hr; inv_binds; done.
Qed.

Lemma replay_lines_book `{StateJson} n acc ls acc' :
  replay_lines n acc ls = Ok acc' → address_book acc'.1 = address_book acc.1.
Proof.
  revert n acc. induction ls as [|l ls IH]; intros n acc; cbn; [by intros [= <-]|].
  intros (acc1 & Hl & Hr)%result_bind_Ok. rewrite (IH _ _ Hr). unfold replay_line in Hl.
  case_match; [|done]. case_match; [by simplify_eq|]. inv_binds. by eapply apply_record_book.
Qed.

Lemma finish_replayed `{StateJson} file st pending :
  replayed file = Ok (st, pending) →
  replay file = let? book := rebuild (btree_iter pending) AddressBook_new in Ok (with_book st book).
Proof.
  intros Hr. unfold replay. unfold replayed in Hr. rewrite Hr.
  apply replay_lines_book in Hr. cbn in *. by rewrite Hr.
Qed.

(** ** Correctness *)

(** Torn writes.  After a file of complete lines that replays, appending a
    record gives a file of complete lines whose replay has the record's effect.
    If the write fails or the process dies with any number of bytes of the line
    in the file, a restart finds the state without the record, the state with
    it, or a malformed last line that it refuses: never anything else. *)
Theorem replay_after_append `{StateJsonOk} file acc r :
  whole file → replayed file = Ok acc → record_typed r →
  (∃ file', append file r Wrote = (Ok (), file') ∧ whole file' ∧
    replay file' = let? acc' := apply_record (next_line file) acc r in finish acc') ∧
  (∀ k, ∃ file', append file r (Tore k) = (Err StateIo, file') ∧
    (replay file' = replay file ∨
     replay file' = (let? acc' := apply_record (next_line file) acc r in finish acc') ∨
     replay file' = Err (Malformed (next_line file) JsonParse))).
Proof.
  intros Hw Hr Ht. split.
  - destruct (replayed_record file r acc Hw Hr Ht) as (line & _ & Ha & Hw' & Hr').
    eexists. split; [exact Ha|]. split; [done|]. unfold replay. by rewrite <- Hr'.
  - intros k. destruct (replayed_torn file r acc k Hw Hr Ht) as (file' & Ha & Hcases).
    exists file'. split; [done|]. unfold replay. fold (replayed file') (replayed file).
    rewrite Hr. destruct Hcases as [->|[->| ->]]; auto.
Qed.

(** The replayed address book.  When every line of a file applies, replay
    accepts it exactly when the assignments it records, id by id, are the
    reverse map of a valid book (no gap, no address twice, no reserved id), and
    the book it gives is then that one. *)
Theorem replay_book_exact `{StateJson} file st0 pending :
  replayed file = Ok (st0, pending) →
  (∀ st, replay file = Ok st →
    book_ok (address_book st) ∧ reverse (address_book st) = pending) ∧
  (∀ b, book_ok b → reverse b = pending → replay file = Ok (with_book st0 b)).
Proof.
  intros Hr. rewrite (finish_replayed _ _ _ Hr). split.
  - intros st (b & Hb & [= <-])%result_bind_Ok. cbn. by apply rebuild_book.
  - intros b Hb <-. by rewrite rebuild_reverse.
Qed.

(** The hexadecimal form of byte fields.  Reading accepts exactly the
    strings that are, up to the case of their digits, the written form of the
    bytes it returns; in particular reading inverts writing. *)
Theorem hex_exact s bs :
  HexBytes_deserialize s = Ok bs ↔
  ∃ d, s = hex_prefix ++ d ∧ hex_prefix ++ (lower_hex <$> d) = HexBytes_serialize bs.
Proof.
  assert (Hlen : ∀ d, lower_hex <$> d = hex_body bs → Nat.even (length d)).
  { intros d Hd. apply (f_equal length) in Hd. rewrite length_fmap in Hd. rewrite Hd.
    clear. induction bs as [|b bs IH]; [done|]. exact IH. }
  unfold HexBytes_deserialize, HexBytes_serialize. fold (hex_body bs). split.
  - case_decide as Hp; [|done]. case_decide as Ho; [done|]. intros Hc.
    exists (drop 2 s). rewrite <- Hp, take_drop. split; [done|]. f_equal. apply hex_chunks_Ok; [|done].
    rewrite <- Nat.negb_odd. by destruct (Nat.odd _).
  - intros (d & -> & Hd%app_inv_head). pose proof (Hlen d Hd) as Hev. cbn.
    rewrite decide_True by done. rewrite <- Nat.negb_even. rewrite decide_False.
    + rewrite drop_0. by apply hex_chunks_Ok.
    + rewrite drop_0. revert Hev. destruct (Nat.even (length d)); cbn; tauto.
Qed.

(** A write torn just before its newline poisons the file.  The restarted
    daemon accepts the record, and its next append, although complete, lands on
    the same line: the file then no longer replays. *)
Theorem torn_newline_poisons `{StateJsonOk} file acc r1 line1 r2 line2 :
  whole file → replayed file = Ok acc → record_typed r1 → record_typed r2 →
  json_to_string r1 = Some line1 → json_to_string r2 = Some line2 →
  ∃ f1, append file r1 (Tore (length line1)) = (Err StateIo, f1) ∧
    replayed f1 = apply_record (next_line file) acc r1 ∧
    ∃ f2, append f1 r2 Wrote = (Ok (), f2) ∧
      replay f2 = Err (Malformed (next_line file) JsonParse).
Proof.
  intros Hw Hr Ht1 Ht2 Hl1 Hl2.
  destruct (json_line r1 Ht1) as (? & Hto1 & Hfrom1 & Hne1 & Hp1).
  destruct (json_line r2 Ht2) as (? & Hto2 & Hfrom2 & Hne2 & Hp2).
  rewrite Hl1 in Hto1. rewrite Hl2 in Hto2. injection Hto1 as <-. injection Hto2 as <-.
  unfold append at 1. rewrite Hl1, take_app_length. eexists. split; [done|]. split.
  { destruct (replayed_text file line1 acc Hw Hr Hne1 Hp1) as [_ ->]. by rewrite Hfrom1. }
  eexists. split; [unfold append; by rewrite Hl2|].
  unfold replay. fold (replayed ((file ++ line1) ++ line2 ++ [newline])).
  rewrite <- app_assoc, (app_assoc line1).
  destruct (replayed_text file (line1 ++ line2) acc Hw Hr) as [-> _].
  - by destruct line1.
  - by apply Forall_app.
  - by rewrite (json_trailing r1 line1 line2).
Qed.

(** ** Witnesses

    A codec with the properties above: a record as the binary digits of its
    code, between braces. *)

#[global] Instance AddressAssignment_eq_dec : EqDecision AddressAssignment.
Proof. solve_decision. Defined.

#[global] Instance AddressAssignment_countable : Countable AddressAssignment :=
  inj_countable' (fun a => (address a, actor_id a))
    (fun '(a, i) => {| address := a; actor_id := i |}) ltac:(by intros []).

#[global] Instance StateRecord_eq_dec : EqDecision StateRecord.
Proof. solve_decision. Defined.

Definition record_code (r : StateRecord)
  : (list u8 * list u8 * Z) + (Z + (AddressAssignment + (Z +
      (list u8 * list u8 * Z * Z * option AddressAssignment)))) :=
  match r with
  | Forwarded b t i => inl (b, t, i)
  | Confirmed n => inr (inl n)
  | AddressAssigned a => inr (inr (inl a))
  | NonceProgressed n => inr (inr (inr (inl n)))
  | Submitted b t i n a => inr (inr (inr (inr (b, t, i, n, a))))
  end.

Definition record_of_code (c : (list u8 * list u8 * Z) + (Z + (AddressAssignment + (Z +
      (list u8 * list u8 * Z * Z * option AddressAssignment))))) : StateRecord :=
  match c with
  | inl (b, t, i) => Forwarded b t i
  | inr (inl n) => Confirmed n
  | inr (inr (inl a)) => AddressAssigned a
  | inr (inr (inr (inl n))) => NonceProgressed n
  | inr (inr (inr (inr (b, t, i, n, a)))) => Submitted b t i n a
  end.

#[global] Instance StateRecord_countable : Countable StateRecord :=
  inj_countable' record_code record_of_code ltac:(by intros []).

Definition brace_open : u8 := byte_of 123.
Definition brace_close : u8 := byte_of 125.

Fixpoint digits_of (p : positive) : list u8 :=
  match p with
  | xH => []
  | xO p => byte_of 48 :: digits_of p
  | xI p => byte_of 49 :: digits_of p
  end.

Fixpoint of_digits (l : list u8) : option positive :=
  match l with
  | [] => None
  | b :: l =>
      if decide (b = brace_close) then match l with [] => Some xH | _ => None end
      else if decide (b = byte_of 48) then xO <$> of_digits l
      else if decide (b = byte_of 49) then xI <$> of_digits l
      else None
  end.

#[local] Instance demo_json : StateJson := {|
  json_to_string r := Some (brace_open :: digits_of (encode r) ++ [brace_close]);
  json_from_str l :=
    match l with
    | b :: l => r ← of_digits l ≫= decode; if decide (record_typed r) then Some r else None
    | [] => None
    end;
|}.

Lemma of_digits_digits p : of_digits (digits_of p ++ [brace_close]) = Some p.
Proof. induction p as [p IH|p IH|]; cbn -[byte_of]; [by rewrite IH..|done]. Qed.

(** Text that is a proper prefix of the digits and the brace, or longer than
    them, is no code. *)
Lemma of_digits_prefix p q : q `prefix_of` digits_of p ++ [brace_close] →
  q ≠ digits_of p ++ [brace_close] → of_digits q = None.
Proof.
  revert q. induction p as [p IH|p IH|]; intros [|b q] Hq Hne; try done; cbn -[byte_of] in *.
  - apply prefix_cons_inv_1 in Hq as Hb. apply prefix_cons_inv_2 in Hq. subst b.
    cbn. rewrite (IH q Hq); [done|congruence].
  - apply prefix_cons_inv_1 in Hq as Hb. apply prefix_cons_inv_2 in Hq. subst b.
    cbn. rewrite (IH q Hq); [done|congruence].
  - apply prefix_cons_inv_1 in Hq as Hb. apply prefix_cons_inv_2 in Hq. subst b.
    apply prefix_nil_inv in Hq as ->. done.
Qed.

Lemma of_digits_trailing p x : x ≠ [] → of_digits ((digits_of p ++ [brace_close]) ++ x) = None.
Proof.
  intros Hx. induction p as [p IH|p IH|]; cbn -[byte_of]; [by rewrite IH..|]. by destruct x.
Qed.

Lemma digits_printable p : Forall printable (digits_of p).
Proof. induction p; cbn -[byte_of]; constructor; try done; by vm_compute. Qed.

#[local] Instance demo_json_ok : StateJsonOk.
Proof.
  split.
  - intros r Ht. eexists. split; [done|]. split; [|split; [done|]].
    + cbn. rewrite of_digits_digits. cbn. rewrite decode_encode. cbn. by rewrite decide_True.
    + constructor; [by vm_compute|]. apply Forall_app_2; [apply digits_printable|].
      constructor; [by vm_compute|done].
  - intros r line p _ [= <-] Hp Hne Hne'. destruct p as [|b p]; [done|].
    apply prefix_cons_inv_1 in Hp as Hb. apply prefix_cons_inv_2 in Hp. subst b.
    cbn. rewrite (of_digits_prefix _ _ Hp); [done|congruence].
  - intros r line x _ [= <-] _ Hx. cbn. by rewrite of_digits_trailing.
  - intros [|b l] r; [done|]. cbn. destruct (of_digits l ≫= decode); [|done]. cbn.
    by case_decide; [intros [= <-]|].
Qed.

Definition demo_submitted : StateRecord :=
  Submitted (replicate 32 (byte_of 1)) (replicate 32 (byte_of 2)) 0 1
    (Some {| address := replicate 20 (byte_of 9); actor_id := 4 |}).

Definition demo_file : list u8 := (append [] demo_submitted Wrote).2.

Definition demo_acc : replaying :=
  (raise_nonce (insert_forwarded WatcherState_default
     {| key_block_hash := replicate 32 (byte_of 1); key_tx_hash := replicate 32 (byte_of 2);
        key_log_index := 0 |}) 1,
   {[ 4 := replicate 20 (byte_of 9) ]}).

Lemma demo_file_replayed : replayed demo_file = Ok demo_acc.
Proof.
  destruct (replayed_record [] demo_submitted (WatcherState_default, ∅)) as (line & _ & Ha & _ & Hr);
    [by left|done|done|].
  unfold demo_file. rewrite Ha. cbn [snd]. rewrite Hr. reflexivity.
Qed.

Lemma replay_book_exact_witness :
  replay demo_file = Ok (with_book demo_acc.1 (assigned_book AddressBook_new (replicate 20 (byte_of 9)))).
Proof.
  apply (proj2 (replay_book_exact demo_file demo_acc.1 demo_acc.2 demo_file_replayed)).
  - apply assigned_book_ok; [apply AddressBook_new_ok|done|done].
  - done.
Defined.

Lemma replay_after_append_witness :
  ∃ file', append [] demo_submitted Wrote = (Ok (), file') ∧ whole file' ∧
    replay file' = let? acc' := apply_record 1 (WatcherState_default, ∅) demo_submitted in finish acc'.
Proof.
  apply (proj1 (replay_after_append [] (WatcherState_default, ∅) demo_submitted
    (or_introl eq_refl) eq_refl ltac:(done))).
Defined.

Lemma torn_newline_poisons_witness :
  ∃ (line : list u8) f1, append [] (Confirmed 7) (Tore (length line)) = (Err StateIo, f1) ∧
    replayed f1 = apply_record 1 (WatcherState_default, ∅) (Confirmed 7) ∧
    ∃ f2, append f1 (Confirmed 8) Wrote = (Ok (), f2) ∧ replay f2 = Err (Malformed 1 JsonParse).
Proof.
  eexists. apply (torn_newline_poisons [] (WatcherState_default, ∅) (Confirmed 7) _ (Confirmed 8) _
    (or_introl eq_refl) eq_refl ltac:(done) ltac:(done) eq_refl eq_refl).
Defined.
