(* ===== verification/Key.v ===== *)
(** The bridge actor's key ([src/runtime/knomosis-l1-ingest/src/key.rs]).

    The curve arithmetic is [k256]'s, the class [K256]; what the signer relies on
    of it is the class [K256Ok].  Loading the key from a file is I/O and is not
    modelled. *)

From Stdlib Require Import ZArith Lia.
From stdpp Require Import base numbers list.
From S2P Require Import Prelude.

Local Open Scope Z_scope.

Definition PRIVATE_KEY_LEN : nat := 32.
Definition COMPRESSED_PUBKEY_LEN : nat := 33.
Definition SIGNATURE_LEN : nat := 65.
Definition PREHASH_LEN : nat := 32.

(** [k256::ecdsa::RecoveryId]: [new(is_y_odd, is_x_reduced)] and [to_byte]. *)
Record RecoveryId : Type := { is_y_odd : bool; is_x_reduced : bool }.

Definition RecoveryId_to_byte (r : RecoveryId) : Z :=
  (if is_x_reduced r then 2 else 0) + (if is_y_odd r then 1 else 0).

(** The operations of [k256] that are called. *)
Class K256 : Type := {
  SigningKey : Type;
  Signature : Type;
  from_slice : list u8 → option SigningKey;
  to_encoded_point : SigningKey → list u8;
  sign_prehash_recoverable : SigningKey → list u8 → option (Signature * RecoveryId);
  normalize_s : Signature → option Signature;
  signature_to_bytes : Signature → list u8;
}.

Inductive KeyError : Type :=
| InvalidLength (got expected : Z)
| InvalidScalar.

Section Key.
Context `{K256}.

Record BridgeActorKey : Type := { private_bytes : list u8; public_key : list u8 }.

Definition from_private_bytes (bytes : list u8) : result BridgeActorKey KeyError :=
  if decide (length bytes ≠ PRIVATE_KEY_LEN) then
    Err (InvalidLength (Z.of_nat (length bytes)) (Z.of_nat PRIVATE_KEY_LEN))
  else
  let? signing_key := ok_or (from_slice bytes) InvalidScalar in
  let pk_bytes := to_encoded_point signing_key in
  if decide (length pk_bytes ≠ COMPRESSED_PUBKEY_LEN) then Err InvalidScalar
  else Ok {| private_bytes := bytes; public_key := pk_bytes |}.

Definition sign_prehash (self : BridgeActorKey) (prehash : list u8) : result (list u8) KeyError :=
  if decide (length prehash ≠ PREHASH_LEN) then
    Err (InvalidLength (Z.of_nat (length prehash)) (Z.of_nat PREHASH_LEN))
  else
  let? signing_key := ok_or (from_slice (private_bytes self)) InvalidScalar in
  let? (sig, recid) := ok_or (sign_prehash_recoverable signing_key prehash) InvalidScalar in
  let '(normalised, recid) :=
    match normalize_s sig with
    | Some low_s =>
        (low_s, {| is_y_odd := negb (is_y_odd recid); is_x_reduced := is_x_reduced recid |})
    | None => (sig, recid)
    end in
  let bytes := signature_to_bytes normalised in
  if decide (length bytes ≠ (SIGNATURE_LEN - 1)%nat) then Err InvalidScalar
  else if is_x_reduced recid then Err InvalidScalar
  else Ok (bytes ++ [byte_of (27 + RecoveryId_to_byte recid)]).

Definition sign_keccak256 (keccak256 : list u8 → list u8) (self : BridgeActorKey)
    (message : list u8) : result (list u8) KeyError :=
  sign_prehash self (keccak256 message).

End Key.

(** What the signer relies on: public key recovery, and that negating [s] swaps
    the two candidate points.  [recover] gives the compressed public key. *)
Class K256Ok `{K256} : Type := {
  recover : list u8 → Signature → RecoveryId → option (list u8);
  low_s : Signature → Prop;
  sign_recovers k h sig rid :
    sign_prehash_recoverable k h = Some (sig, rid) → recover h sig rid = Some (to_encoded_point k);
  normalize_low sig sig' : normalize_s sig = Some sig' → low_s sig';
  normalize_id sig : normalize_s sig = None → low_s sig;
  normalize_flips sig sig' h rid :
    normalize_s sig = Some sig' →
    recover h sig' {| is_y_odd := negb (is_y_odd rid); is_x_reduced := is_x_reduced rid |} =
    recover h sig rid;
}.

(** ** Correctness *)

(** Every signature the bridge key makes is 65 bytes [r || s || v] with a low
    [s] and [v] 27 or 28, and recovering from it gives the key's own public key:
    the parity in [v] is flipped together with [s]. *)
Theorem sign_prehash_recovers `{K256Ok} bytes key prehash out :
  from_private_bytes bytes = Ok key → sign_prehash key prehash = Ok out →
  length out = SIGNATURE_LEN ∧
  ∃ (sig : Signature) (y : bool), out = signature_to_bytes sig ++ [byte_of (if y then 28 else 27)] ∧ low_s sig ∧
    recover prehash sig {| is_y_odd := y; is_x_reduced := false |} = Some (public_key key).
Proof.
  unfold from_private_bytes, sign_prehash. rewrite guard_Ok. intros [_ Hk].
  apply result_bind_Ok in Hk as (k & Hk & Hkey). rewrite guard_Ok in Hkey.
  destruct Hkey as [_ [= <-]]. cbn. rewrite guard_Ok. intros [_ Hs].
  rewrite Hk in Hs. cbn in Hs. apply result_bind_Ok in Hs as ([sig rid] & Hsig & Hs).
  destruct (from_slice bytes) as [k'|] eqn:Hfs; [|done]. injection Hk as ->.
  destruct (sign_prehash_recoverable k prehash) as [p|] eqn:Hp; [|done]. injection Hsig as ->.
  apply sign_recovers in Hp. destruct (normalize_s sig) as [sig'|] eqn:Hn.
  - rewrite guard_Ok in Hs. destruct Hs as [Hlen Hs]. apply dec_stable in Hlen. cbn in Hs.
    rewrite <- (normalize_flips sig sig' prehash rid Hn) in Hp.
    destruct (is_x_reduced rid); [done|]. injection Hs as <-.
    split; [by rewrite length_app, Hlen|]. exists sig', (negb (is_y_odd rid)).
    split; [by destruct (is_y_odd rid)|]. split; [by eapply normalize_low|done].
  - rewrite guard_Ok in Hs. destruct Hs as [Hlen Hs]. apply dec_stable in Hlen.
    destruct rid as [y []]; cbn in Hs; [done|]. injection Hs as <-.
    split; [by rewrite length_app, Hlen|]. exists sig, y.
    split; [by destruct y|]. split; [by apply normalize_id|done].
Qed.

(** ** Witness

    A scheme whose signatures carry the key: a flag for a high [s], the parity of
    the point the signature stands for, and the key. *)

#[local] Instance demo_k256 : K256 := {|
  SigningKey := list u8;
  Signature := bool * bool * list u8;
  from_slice bs := Some bs;
  to_encoded_point k := byte_of 2 :: k;
  sign_prehash_recoverable k h := Some ((true, true, k), {| is_y_odd := true; is_x_reduced := false |});
  normalize_s '(high, y, k) := if high then Some (false, negb y, k) else None;
  signature_to_bytes '(_, _, k) := k ++ k;
|}.

#[local] Program Instance demo_k256_ok : K256Ok := {|
  recover h '(_, y, k) rid := if Bool.eqb y (is_y_odd rid) then Some (byte_of 2 :: k) else None;
  low_s '(high, _, _) := high = false;
|}.
Next Obligation. by intros k h sig rid [= <- <-]. Qed.
Next Obligation. by intros [[[] y] k] sig'; cbn; [intros [= <-]|]. Qed.
Next Obligation. by intros [[[] y] k]. Qed.
Next Obligation. by intros [[[] []] k] sig' h [[] x]; cbn; [intros [= <-]..| | | |]. Qed.

Definition demo_private : list u8 := replicate 32 (byte_of 7).

Lemma sign_prehash_recovers_witness :
  ∃ (sig : Signature) (y : bool), demo_private ++ demo_private ++ [byte_of 27] =
      signature_to_bytes sig ++ [byte_of (if y then 28 else 27)] ∧ low_s sig ∧
    recover (replicate 32 (byte_of 1)) sig {| is_y_odd := y; is_x_reduced := false |} =
      Some (byte_of 2 :: demo_private).
Proof.
  exact (proj2 (sign_prehash_recovers demo_private
    {| private_bytes := demo_private; public_key := byte_of 2 :: demo_private |}
    (replicate 32 (byte_of 1)) (demo_private ++ demo_private ++ [byte_of 27])
    eq_refl eq_refl)).
Defined.
