(* ===== verification/Watcher.v ===== *)
(** The L1 watcher ([src/runtime/knomosis-l1-ingest/src/watcher.rs], with the
    verdicts and errors of [submitter.rs] and [source.rs]).

    The loop is translated call by call.  Its surroundings are the class [World]:
    the L1 source and the submitter (traits with several implementations), the
    outcome of each file write and the stop flag, as functions on a state of the
    world that may change at every call.  A run also returns what it did to the
    world, in order: the submissions, the appended records and the sleeps. *)

From Stdlib Require Import ZArith Lia.
From Stdlib Require Strings.String.
From stdpp Require Import base numbers list gmap.
From S2P Require Import Prelude Encoding Events Ingest Reorg Source State Key.
Import String.StringSyntax.
Delimit Scope string_scope with string.

Local Open Scope Z_scope.

(** ** The submitter and the source *)

Inductive Verdict : Type :=
| VerdictOk
| VerdictNotAdmissible
| VerdictParseError
| VerdictBusy.

Definition Verdict_from_byte (b : u8) : option Verdict :=
  let b := byte_val b in
  if decide (b = 0) then Some VerdictOk
  else if decide (b = 1) then Some VerdictNotAdmissible
  else if decide (b = 2) then Some VerdictParseError
  else if decide (b = 3) then Some VerdictBusy
  else None.

Definition Verdict_to_byte (self : Verdict) : u8 :=
  match self with
  | VerdictOk => byte_of 0
  | VerdictNotAdmissible => byte_of 1
  | VerdictParseError => byte_of 2
  | VerdictBusy => byte_of 3
  end.

Inductive SubmitError : Type :=
| SubmitEncode (e : EncodeError)
| UnknownVerdict (b : u8)
| SubmitNotAdmissible
| SubmitParseError
| SubmitTransport (message : String.string).

Record SignedActionForSubmit : Type := { unsigned_action : UnsignedAction; signature : list u8 }.

Definition SignedActionForSubmit_encode (self : SignedActionForSubmit) : result (list u8) EncodeError :=
  encode_signed_action (action (unsigned_action self)) (signer (unsigned_action self))
    (nonce (unsigned_action self)) (signature self).

(** The traits [L1Source] and [Submitter], the file system and the stop flag. *)
Class World (W : Type) : Type := {
  #[global] world_source :: L1Source W;
  submit : SignedActionForSubmit → W → result Verdict SubmitError * W;
  write : W → write_outcome * W;
  stop_flag : W → bool * W;
}.

(** ** The watcher *)

Inductive WatcherError : Type :=
| WatcherSource (e : SourceError)
| WatcherReorg (e : ReorgError)
| WatcherDecode (e : DecodeError)
| WatcherStore (e : StateError)
| WatcherEncode (e : EncodeError)
| WatcherKey (e : KeyError)
| WatcherSubmit (e : SubmitError)
| WatcherCommit (e : CommitError)
| WatcherZeroCapacity.

Record WatcherConfig : Type := {
  bridge_contract : EthAddress;
  identity_registry_contract : EthAddress;
  confirmation_depth : Z;
  reorg_window_capacity : nat;
  poll_interval : Z;
  deployment_id : list u8;
  blocks_per_iteration : Z;
  materialise_deposits : bool;
}.

Definition DEFAULT_L1_CONFIRMATION_DEPTH : Z := 12.

(** The poll interval is in milliseconds. *)
Definition WatcherConfig_new (bridge_contract identity_registry_contract : EthAddress)
    (deployment_id : list u8) : WatcherConfig :=
  {| bridge_contract := bridge_contract;
     identity_registry_contract := identity_registry_contract;
     confirmation_depth := DEFAULT_L1_CONFIRMATION_DEPTH;
     reorg_window_capacity := Z.to_nat DEFAULT_L1_CONFIRMATION_DEPTH + 4;
     poll_interval := 12 * 1000;
     deployment_id := deployment_id;
     blocks_per_iteration := 64;
     materialise_deposits := false |}.

(** The watcher's own state.  The book, the forwarded set, the nonce and the last
    confirmed block are the fields of the [WatcherState] it was opened with;
    [state_store] is the content of the state file. *)
Record WatcherLoop : Type := {
  config : WatcherConfig;
  state_store : list u8;
  state : WatcherState;
  reorg_window : ReorgWindow;
}.

(** What a run does to its surroundings. *)
Inductive effect : Type :=
| Submit (signed : SignedActionForSubmit) (verdict : result Verdict SubmitError)
| Append (record : StateRecord) (io : write_outcome)
| Sleep (ms : Z).

(** How a run ends before its end: an error that is returned, or, for the outer
    loop, the bound on the number of rounds that are looked at. *)
Inductive halt : Type :=
| Error (e : WatcherError)
| StillRunning.

Section Watcher.
Context {W : Type} `{World W} `{StateJson} `{K256}.
Variable keccak256 : list u8 → list u8.
Variable key : BridgeActorKey.

Definition watching (A : Type) : Type :=
  WatcherLoop → W → result A halt * WatcherLoop * W * list effect.

#[global] Instance watching_ret : MRet watching := fun A a l w => (Ok a, l, w, []).
#[global] Instance watching_bind : MBind watching := fun A B k m l w =>
  let '(r, l1, w1, t1) := m l w in
  match r with
  | Ok a => let '(r2, l2, w2, t2) := k a l1 w1 in (r2, l2, w2, t1 ++ t2)
  | Err e => (Err e, l1, w1, t1)
  end.

Definition raise {A} (e : WatcherError) : watching A := fun l w => (Err (Error e), l, w, []).

(** The [?] on a result that touches neither the watcher nor the world. *)
Definition lift {A E} (r : result A E) (wrap : E → WatcherError) : watching A :=
  match r with Ok a => mret a | Err e => raise (wrap e) end.

Definition self : watching WatcherLoop := fun l w => (Ok l, l, w, []).

Definition set_state (f : WatcherState → WatcherState) : watching () := fun l w =>
  (Ok (), {| config := config l; state_store := state_store l; state := f (state l);
             reorg_window := reorg_window l |}, w, []).

Definition set_window (window : ReorgWindow) : watching () := fun l w =>
  (Ok (), {| config := config l; state_store := state_store l; state := state l;
             reorg_window := window |}, w, []).

Definition sleep (ms : Z) : watching () := fun l w => (Ok (), l, w, [Sleep ms]).

(** A call of the source. *)
Definition ask {A} (call : W → result A SourceError * W) : watching A := fun l w =>
  let '(r, w) := call w in
  (match r with Ok a => Ok a | Err e => Err (Error (WatcherSource e)) end, l, w, []).

Definition submit_action (signed : SignedActionForSubmit)
  : watching (result Verdict SubmitError) := fun l w =>
  let '(r, w) := submit signed w in (Ok r, l, w, [Submit signed r]).

(** [self.state_store.append(record)?]. *)
Definition append_record (record : StateRecord) : watching () := fun l w =>
  let '(io, w) := write w in
  let '(r, file) := append (state_store l) record io in
  (match r with Ok u => Ok u | Err e => Err (Error (WatcherStore e)) end,
   {| config := config l; state_store := file; state := state l; reorg_window := reorg_window l |},
   w, [Append record io]).

Definition sign (cfg : WatcherConfig) (u : UnsignedAction)
  : result SignedActionForSubmit WatcherError :=
  match signing_input (action u) (signer u) (nonce u) (deployment_id cfg) with
  | Err e => Err (WatcherEncode e)
  | Ok signing_bytes =>
      match sign_prehash key (keccak256 signing_bytes) with
      | Err e => Err (WatcherKey e)
      | Ok signature => Ok {| unsigned_action := u; signature := signature |}
      end
  end.

Definition max_retries : nat := 16.

Definition saturating_mul (w a b : Z) : Z := Z.min (a * b) (2 ^ w - 1).

(** The submission loop; [remaining] is [max_retries - retries]. *)
Fixpoint submit_loop (remaining : nat) (backoff_ms : Z) (signed : SignedActionForSubmit)
  : watching () :=
  verdict ← submit_action signed;
  match verdict with
  | Ok VerdictOk => mret ()
  | Ok VerdictBusy =>
      match remaining with
      | O => raise (WatcherSubmit (SubmitTransport "exceeded retry budget on Busy verdict"%string))
      | S remaining =>
          sleep backoff_ms;;
          submit_loop remaining (Z.min (saturating_mul 64 backoff_ms 2) 60000) signed
      end
  | Ok VerdictNotAdmissible => raise (WatcherSubmit SubmitNotAdmissible)
  | Ok VerdictParseError => raise (WatcherSubmit SubmitParseError)
  | Err e => raise (WatcherSubmit e)
  end.

Definition set_nonce (n : Z) (st : WatcherState) : WatcherState :=
  {| last_confirmed_block := last_confirmed_block st; forwarded := forwarded st;
     address_book := address_book st; next_nonce := n |}.

(** [commit_assignment] on the watcher's book. *)
Definition commit (a : EthAddress) (new_actor_id : ActorId) : watching () :=
  l ← self;
  let '(r, book) := commit_assignment (address_book (state l)) a new_actor_id in
  set_state (fun st => with_book st book);;
  _ ← lift r WatcherCommit;
  mret ().

(** Signing, submitting and recording one translated event. *)
Definition submit_event (k : ForwardedKey) (u : UnsignedAction)
    (pending_assignment : option (EthAddress * ActorId)) : watching () :=
  l ← self;
  signed ← lift (sign (config l) u) (fun e => e);
  submit_loop max_retries 100 signed;;
  let new_next_nonce := saturating_add 128 (next_nonce (state l)) 1 in
  let assigned := (fun '(a, i) => {| address := a; actor_id := i |}) <$> pending_assignment in
  append_record (Submitted (key_block_hash k) (key_tx_hash k) (key_log_index k)
                   new_next_nonce assigned);;
  match pending_assignment with
  | Some (a, new_actor_id) => commit a new_actor_id
  | None => mret ()
  end;;
  set_state (set_nonce new_next_nonce);;
  set_state (fun st => insert_forwarded st k).

Definition process_event (event : IngestedEvent) (block_hash : TopicHash) : watching () :=
  let '(_, tx_hash, log_index) := origin_key event in
  let k := {| key_block_hash := block_hash; key_tx_hash := tx_hash; key_log_index := log_index |} in
  l ← self;
  if decide (k ∈ forwarded (state l)) then mret ()
  else
    match (if materialise_deposits (config l)
           then preview_ingest_materialising (address_book (state l)) event (next_nonce (state l))
           else preview_ingest (address_book (state l)) event (next_nonce (state l))) with
    | NoAction =>
        set_state (fun st => insert_forwarded st k);;
        append_record (Forwarded block_hash tx_hash log_index)
    | Emit u => submit_event k u None
    | EmitWithAssignment u a new_actor_id => submit_event k u (Some (a, new_actor_id))
    end.

(** ** Blocks and iterations *)

Fixpoint process_logs (logs : list RawLog) (block_hash : TopicHash) : watching () :=
  match logs with
  | [] => mret ()
  | log :: logs =>
      match decode_event log with
      | Ok (Some e) => process_event e block_hash;; process_logs logs block_hash
      | Ok None => process_logs logs block_hash
      | Err e => raise (WatcherDecode e)
      end
  end.

(** The header against the window: the first one seeds it. *)
Definition advance_window (header : BlockHeader) : watching () :=
  l ← self;
  if window_is_empty (reorg_window l) then set_window (seed (reorg_window l) [header])
  else
    let '(r, window) := advance (reorg_window l) header in
    set_window window;; _ ← lift r WatcherReorg; mret ().

Definition process_block (block_number : Z) : watching () :=
  l ← self;
  header ← ask (block_header_by_number block_number);
  advance_window header;;
  bridge_logs ← ask (logs_in_block_by_hash (header_hash header) (bridge_contract (config l)));
  all_logs ←
    (if decide (bridge_contract (config l) ≠ identity_registry_contract (config l)) then
       more ← ask (logs_in_block_by_hash (header_hash header) (identity_registry_contract (config l)));
       mret (bridge_logs ++ more)
     else mret bridge_logs);
  process_logs (sort_logs all_logs) (header_hash header).

(** The [for] loop over [count] block numbers from [block_number] on. *)
Fixpoint process_blocks (count : nat) (block_number processed : Z) : watching Z :=
  match count with
  | O => mret processed
  | S count =>
      process_block block_number;;
      append_record (Confirmed block_number);;
      set_state (fun st => set_confirmed st block_number);;
      process_blocks count (block_number + 1) (processed + 1)
  end.

Definition start_block (st : WatcherState) : Z :=
  match last_confirmed_block st with None => 0 | Some b => saturating_add 64 b 1 end.

Definition run_iteration : watching Z :=
  chain_head ← ask latest_block_number;
  l ← self;
  let depth := confirmation_depth (config l) in
  if decide (chain_head < depth) then mret 0
  else
    let confirmed_head := chain_head - depth in
    let start := start_block (state l) in
    if decide (confirmed_head < start) then mret 0
    else
      let available_blocks := saturating_add 64 (confirmed_head - start) 1 in
      let configured_batch := blocks_per_iteration (config l) in
      if decide (configured_batch = 0) then mret 0
      else
        let blocks_to_process := Z.min available_blocks configured_batch in
        process_blocks (Z.to_nat blocks_to_process) start 0.

Definition poll_stop : watching bool := fun l w =>
  let '(b, w) := stop_flag w in (Ok b, l, w, []).

(** The outer loop, for at most [rounds] rounds. *)
Fixpoint run_until (rounds : nat) (until_block total : Z) : watching Z :=
  match rounds with
  | O => fun l w => (Err StillRunning, l, w, [])
  | S rounds =>
      stopped ← poll_stop;
      if stopped : bool then mret total
      else
        l ← self;
        if (match last_confirmed_block (state l) with Some b => bool_decide (until_block ≤ b) | None => false end)
        then mret total
        else
          processed ← run_iteration;
          (if decide (processed = 0) then sleep (poll_interval (config l)) else mret ());;
          run_until rounds until_block (saturating_add 64 total processed)
  end.

End Watcher.

(** [WatcherLoop::new]: the state file is opened and replayed. *)
Definition WatcherLoop_new `{StateJson} (cfg : WatcherConfig) (file : option (list u8))
  : result WatcherLoop WatcherError :=
  if decide (reorg_window_capacity cfg = 0%nat) then Err WatcherZeroCapacity
  else
    match StateStore_open file with
    | Err e => Err (WatcherStore e)
    | Ok (bytes, st) =>
        Ok {| config := cfg; state_store := bytes; state := st;
              reorg_window := {| capacity := reorg_window_capacity cfg; buffer := [] |} |}
    end.
