(* ===== verification/WatcherSafe.v ===== *)
(** Correctness of the L1 watcher: what a run may do, as a relation between
    states and sequences of effects ([lawful]); every run refines it; and what
    follows for the state file, the nonces and the forwarded events. *)

From Stdlib Require Import ZArith Lia.
From Stdlib Require Strings.String.
From stdpp Require Import base numbers list gmap.
From S2P Require Import Prelude Encoding Events Ingest Reorg Source State Key Watcher.

Local Open Scope Z_scope.

(** ** The abstract watcher

    The durable steps are records; [commit_record] is the effect of one on the
    state in memory and [allowed] says when the watcher may take it. *)

Definition record_key (r : StateRecord) : option ForwardedKey :=
  match r with
  | Forwarded b t i | Submitted b t i _ _ =>
      Some {| key_block_hash := b; key_tx_hash := t; key_log_index := i |}
  | _ => None
  end.

Definition commit_record (r : StateRecord) (st : WatcherState) : WatcherState :=
  match r with
  | Forwarded b t i =>
      insert_forwarded st {| key_block_hash := b; key_tx_hash := t; key_log_index := i |}
  | Confirmed n => set_confirmed st n
  | Submitted b t i n a =>
      let book := match a with
                  | Some a => assigned_book (address_book st) (address a)
                  | None => address_book st end in
      insert_forwarded (set_nonce n (with_book st book))
        {| key_block_hash := b; key_tx_hash := t; key_log_index := i |}
  | _ => st
  end.

Definition fresh_key (st : WatcherState) (b t : list u8) (i : Z) : Prop :=
  word b ∧ word t ∧ in_u64 i ∧
  {| key_block_hash := b; key_tx_hash := t; key_log_index := i |} ∉ forwarded st.

Definition allowed (st : WatcherState) (r : StateRecord) : Prop :=
  match r with
  | Forwarded b t i => fresh_key st b t i
  | Confirmed n => n = start_block st ∧ in_u64 n
  | Submitted b t i n a =>
      fresh_key st b t i ∧ n = next_nonce st + 1 ∧ in_u128 n ∧
      match a with
      | Some a =>
          is_address (address a) ∧ lookup_addr (address_book st) (address a) = None ∧
          actor_id a = next_actor_id (address_book st) ∧ actor_id a < u64_max
      | None => True
      end
  | _ => False
  end.

Definition is_submitted (r : StateRecord) : bool :=
  match r with Submitted _ _ _ _ _ => true | _ => false end.

(** The unsigned action is what an event with the key [k] translates to. *)
Definition translated (st : WatcherState) (u : UnsignedAction) (k : ForwardedKey) : Prop :=
  ∃ m e, key_tx_hash k = tx_hash (event_origin e) ∧ key_log_index k = log_index (event_origin e) ∧
    emitted (translate m (address_book st) e (next_nonce st)) = Some u.

(** The record names the event that the submission is for. *)
Definition delivers (st : WatcherState) (signed : SignedActionForSubmit) (r : StateRecord) : Prop :=
  ∃ k, record_key r = Some k ∧ translated st (unsigned_action signed) k.

(** A submission that is accepted is recorded next, and no other is.  The flag
    says whether the run may go on; it ends with a write that fails, or when the
    actor ids are exhausted. *)
Inductive lawful : WatcherState → list effect → bool → WatcherState → Prop :=
| lawful_nil st : lawful st [] true st
| lawful_attempt st signed v t b st' :
    nonce (unsigned_action signed) = next_nonce st → v ≠ Ok VerdictOk →
    lawful st t b st' → lawful st (Submit signed v :: t) b st'
| lawful_sleep st ms t b st' : lawful st t b st' → lawful st (Sleep ms :: t) b st'
| lawful_record st r t b st' :
    is_submitted r = false → allowed st r →
    lawful (commit_record r st) t b st' → lawful st (Append r Wrote :: t) b st'
| lawful_submitted st signed r t b st' :
    nonce (unsigned_action signed) = next_nonce st → delivers st signed r → is_submitted r = true → allowed st r →
    lawful (commit_record r st) t b st' →
    lawful st (Submit signed (Ok VerdictOk) :: Append r Wrote :: t) b st'
| lawful_torn st r k st' :
    is_submitted r = false → allowed st r → st' = st ∨ st' = commit_record r st →
    lawful st [Append r (Tore k)] false st'
| lawful_submitted_torn st signed r k :
    nonce (unsigned_action signed) = next_nonce st → delivers st signed r → is_submitted r = true → allowed st r →
    lawful st [Submit signed (Ok VerdictOk); Append r (Tore k)] false st
| lawful_exhausted st signed r io :
    nonce (unsigned_action signed) = next_nonce st → delivers st signed r → is_submitted r = true →
    (∀ k, record_key r = Some k → k ∉ forwarded st) → next_actor_id (address_book st) = u64_max →
    lawful st [Submit signed (Ok VerdictOk); Append r io] false st.

Lemma lawful_app st t1 st1 t2 b st2 :
  lawful st t1 true st1 → lawful st1 t2 b st2 → lawful st (t1 ++ t2) b st2.
Proof.
  intros H1 H2. remember true as live eqn:Hl.
  induction H1; try discriminate Hl; cbn; [done| | | |];
    [by apply lawful_attempt; auto|by apply lawful_sleep; auto|by apply lawful_record; auto|].
  apply lawful_submitted; auto.
Qed.

(** ** The state in memory *)

Record state_ok (st : WatcherState) : Prop := {
  state_book : book_ok (address_book st);
  state_nonce : in_u128 (next_nonce st);
  state_confirmed b : last_confirmed_block st = Some b → in_u64 b;
}.

Lemma commit_record_ok st r : state_ok st → allowed st r → state_ok (commit_record r st).
Proof.
  intros [Hb Hn Hc] Ha. destruct r as [bh th i|n| | |bh th i n a]; try done; cbn in *.
  - destruct Ha as [-> Hu]. split; [done..|]. by intros b [= <-].
  - destruct Ha as (_ & -> & Hn' & Ha). split; cbn; [|done..].
    destruct a as [a|]; [|done]. destruct Ha as (_ & Hl & Hi & Hlt).
    apply assigned_book_ok; [done..|]. lia.
Qed.

Lemma lawful_ok st t b st' : lawful st t b st' → state_ok st → state_ok st'.
Proof.
  induction 1; intros Hst; auto using commit_record_ok.
  destruct H1 as [->| ->]; auto using commit_record_ok.
Qed.

(** ** The state file *)

Section Disk.
Context `{StateJsonOk}.

(** The file is whole and replays to the state in memory. *)
Definition synced (file : list u8) (st : WatcherState) : Prop :=
  whole file ∧ state_ok st ∧
  ∃ st0, replayed file = Ok (st0, reverse (address_book st)) ∧
    st = with_book st0 (address_book st).

Lemma synced_replay file st : synced file st → replay file = Ok st.
Proof.
  intros (_ & Hok & st0 & Hr & ->). rewrite (finish_replayed _ _ _ Hr).
  cbn. by rewrite (rebuild_reverse _ (state_book _ Hok)).
Qed.

Lemma allowed_typed st r : state_ok st → allowed st r → record_typed r.
Proof.
  intros Hst Ha. destruct r as [bh th i|n| | |bh th i n a]; try done; cbn in *.
  - apply Ha.
  - apply Ha.
  - destruct Ha as ((_ & _ & Hi & _) & _ & Hn & Ha). split; [done|]. split; [done|].
    destruct a as [a|]; [|done]. destruct Ha as (_ & _ & Hid & Hlt).
    pose proof (book_next _ (state_book _ Hst)). unfold in_width, INITIAL_NEXT_ACTOR_ID in *. lia.
Qed.

Lemma replay_key_Ok n b t i :
  word b → word t →
  replay_key n b t i = Ok {| key_block_hash := b; key_tx_hash := t; key_log_index := i |}.
Proof. intros Hb Ht. unfold replay_key, try_into. by rewrite !decide_True. Qed.

Lemma raise_nonce_succ st n : n = next_nonce st + 1 → raise_nonce st n = set_nonce n st.
Proof. intros ->. unfold raise_nonce, set_nonce. by rewrite decide_True by lia. Qed.

(** Replaying an allowed record has the effect of the step. *)
Lemma apply_allowed n st st0 r :
  state_ok st → allowed st r → st = with_book st0 (address_book st) →
  ∃ st0', apply_record n (st0, reverse (address_book st)) r =
      Ok (st0', reverse (address_book (commit_record r st))) ∧
    commit_record r st = with_book st0' (address_book (commit_record r st)).
Proof.
  intros Hst Ha Heq. destruct r as [bh th i|m| | |bh th i m a]; try done; cbn in Ha |- *.
  - destruct Ha as (Hb & Ht & _). rewrite replay_key_Ok by done. cbn.
    eexists. split; [done|]. by rewrite Heq.
  - eexists. split; [done|]. by rewrite Heq.
  - destruct Ha as ((Hb & Ht & _) & Hm & _ & Ha). rewrite replay_key_Ok by done. cbn [result_bind].
    assert (Hn : raise_nonce (insert_forwarded st0
        {| key_block_hash := bh; key_tx_hash := th; key_log_index := i |}) m =
      set_nonce m (insert_forwarded st0
        {| key_block_hash := bh; key_tx_hash := th; key_log_index := i |})).
    { apply raise_nonce_succ. rewrite Heq in Hm. exact Hm. }
    rewrite Hn. destruct a as [a|]; [|eexists; split; [done|]; by rewrite Heq].
    destruct Ha as (Had & Hl & Hid & _). unfold replay_assignment, try_into.
    rewrite decide_True by done. cbn [result_bind].
    rewrite Hid, (book_fresh _ (state_book _ Hst)). cbn.
    eexists. split; [done|]. by rewrite Heq.
Qed.

Lemma synced_append file st r :
  synced file st → allowed st r →
  synced (append file r Wrote).2 (commit_record r st).
Proof.
  intros (Hw & Hok & st0 & Hr & Heq) Ha. pose proof (allowed_typed _ _ Hok Ha) as Hty.
  destruct (replayed_record file r _ Hw Hr Hty) as (line & _ & -> & Hw' & Hr').
  destruct (apply_allowed (next_line file) st st0 r Hok Ha Heq) as (st0' & Hap & Heq').
  split; [done|]. split; [by apply commit_record_ok|]. exists st0'. split; [|done].
  cbn [snd]. by rewrite Hr'.
Qed.

(** What a failed write leaves: a whole file that replays to the state [st0] before
    the record, and a part of the record's line.  A restart finds [st0] when the part
    is empty, the state after the record when the part has all of the record, and
    otherwise refuses the last line.  The memory has the state before or after. *)
Definition recoverable (file : list u8) (st : WatcherState) : Prop :=
  ∃ file0 st0 r line part,
    whole file0 ∧ replay file0 = Ok st0 ∧ allowed st0 r ∧ json_to_string r = Some line ∧
    file = file0 ++ part ∧ part `prefix_of` line ++ [newline] ∧ (st = st0 ∨ st = commit_record r st0) ∧
    (part = [] → replay file = Ok st0) ∧
    (line `prefix_of` part → replay file = Ok (commit_record r st0)) ∧
    (part ≠ [] → ¬ line `prefix_of` part → replay file = Err (Malformed (next_line file0) JsonParse)).

Lemma synced_torn file st r k st' :
  synced file st → allowed st r → st' = st ∨ st' = commit_record r st →
  recoverable (append file r (Tore k)).2 st'.
Proof.
  intros Hsy Ha Hst. pose proof (synced_replay _ _ Hsy) as Hrep.
  pose proof (synced_replay _ _ (synced_append _ _ _ Hsy Ha)) as Hrep'.
  destruct Hsy as (Hw & Hok & st0 & Hr & Heq).
  pose proof (allowed_typed _ _ Hok Ha) as Hty.
  destruct (replayed_record file r _ Hw Hr Hty) as (line & Hline & Hap & _ & Hr').
  set (part := take k (line ++ [newline])).
  destruct (replayed_part file r line part _ Hw Hr Hty Hline (prefix_take _ _)) as (H1 & H2 & H3).
  assert (Hfile : (append file r (Tore k)).2 = file ++ part) by (unfold append; by rewrite Hline).
  rewrite Hfile, Hap in *. cbn [snd] in Hrep'. unfold replay in Hrep, Hrep'.
  fold (replayed file) in Hrep. fold (replayed (file ++ line ++ [newline])) in Hrep'. rewrite Hr in Hrep. rewrite Hr' in Hrep'.
  exists file, st, r, line, part. split_and!; try done.
  - unfold replay. fold (replayed file). by rewrite Hr.
  - apply prefix_take.
  - intros Hp. unfold replay. fold (replayed (file ++ part)). by rewrite H1.
  - intros Hp. unfold replay. fold (replayed (file ++ part)). by rewrite H2.
  - intros Hp Hn. unfold replay. fold (replayed (file ++ part)). by rewrite H3.
Qed.

(** The file after a sequence of effects. *)
Fixpoint written (file : list u8) (t : list effect) : list u8 :=
  match t with
  | [] => file
  | Append r io :: t => written (append file r io).2 t
  | _ :: t => written file t
  end.

Lemma written_app file t1 t2 : written file (t1 ++ t2) = written (written file t1) t2.
Proof. revert file. induction t1 as [|[] t1 IH]; intros file; cbn; auto. Qed.

Lemma lawful_disk st t b st' file :
  lawful st t b st' → synced file st →
  if b then synced (written file t) st'
  else next_actor_id (address_book st') ≠ u64_max → recoverable (written file t) st'.
Proof.
  intros Hl. revert file.
  induction Hl as [| | | | |st r k st' _ Ha Hst'|st s r k _ _ _ Ha|st s r io _ _ _ _ Hm];
    intros file Hsy; cbn [written];
    try match goal with IH : ∀ file, synced file _ → _ |- _ => apply IH end;
    auto using synced_append; intros Hne; [by apply (synced_torn _ st)|apply (synced_torn _ st); auto|done].
Qed.

End Disk.

(** ** Runs are lawful *)

Section Runs.
Context {W : Type} `{World W} `{StateJsonOk} `{K256}.
Variable keccak256 : list u8 → list u8.
Variable key : BridgeActorKey.

Abbreviation watching := (@watching W) (only parsing).

(** From a good state with [P], the run is lawful and keeps the file in step with
    its effects; it ends with [Q], or with an error, and it cannot go on exactly
    when a write or a commit failed. *)
Definition spec {A} (P : WatcherLoop → Prop) (m : watching A) (Q : A → WatcherLoop → Prop) : Prop :=
  ∀ l w, state_ok (state l) → P l →
  let '(r, l', _, t) := m l w in
  config l' = config l ∧ state_store l' = written (state_store l) t ∧
  ∃ b, lawful (state l) t b (state l') ∧
    match r with
    | Ok a => b = true ∧ Q a l'
    | Err (Error (WatcherStore _ | WatcherCommit _)) => b = false
    | Err _ => b = true
    end.

Lemma spec_ret {A} (a : A) (P : WatcherLoop → Prop) (Q : A → WatcherLoop → Prop) :
  (∀ l, P l → Q a l) → spec P (mret a) Q.
Proof.
  intros HQ l w Hok HP. cbn. split; [done|]. split; [done|]. exists true. eauto using lawful_nil.
Qed.

Lemma spec_conseq {A} (m : watching A) (P P' : WatcherLoop → Prop) (Q Q' : A → WatcherLoop → Prop) :
  spec P m Q → (∀ l, P' l → P l) → (∀ a l, Q a l → Q' a l) → spec P' m Q'.
Proof.
  intros Hm HP HQ l w Hok HP'. specialize (Hm l w Hok (HP l HP')).
  destruct (m l w) as [[[r l'] w'] t]. destruct Hm as (? & ? & b & ? & Hr).
  split; [done|]. split; [done|]. exists b. split; [done|]. destruct r; [|done]. naive_solver.
Qed.

Lemma spec_bind {A B} (m : watching A) (k : A → watching B) P Q R :
  spec P m Q → (∀ a, spec (Q a) (k a) R) → spec P (m ≫= k) R.
Proof.
  intros Hm Hk l w Hok HP. specialize (Hm l w Hok HP). unfold mbind, watching_bind.
  destruct (m l w) as [[[[a|e] l1] w1] t1].
  - destruct Hm as (Hc1 & Hf1 & b1 & Hl1 & -> & HQ).
    specialize (Hk a l1 w1 (lawful_ok _ _ _ _ Hl1 Hok) HQ).
    destruct (k a l1 w1) as [[[r2 l2] w2] t2]. destruct Hk as (Hc2 & Hf2 & b2 & Hl2 & Hr2).
    split; [by rewrite Hc2|]. split; [by rewrite written_app, <- Hf1|].
    exists b2. split; [by eapply lawful_app|done].
  - exact Hm.
Qed.

(** Computations without effect. *)
Lemma spec_raise {A} (e : WatcherError) P Q :
  match e with WatcherStore _ | WatcherCommit _ => False | _ => True end →
  spec P (raise e : watching A) Q.
Proof.
  intros He l w Hok HP. cbn. split; [done|]. split; [done|]. exists true.
  split; [apply lawful_nil|]. by destruct e.
Qed.

Lemma spec_self P : spec P (self : watching WatcherLoop) (fun a l => a = l ∧ P l).
Proof. intros l w Hok HP. cbn. split; [done|]. split; [done|]. exists true. eauto using lawful_nil. Qed.

Lemma spec_lift {A E} (r : result A E) wrap P :
  (∀ e, match wrap e with WatcherStore _ | WatcherCommit _ => False | _ => True end) →
  spec P (lift r wrap : watching A) (fun a l => r = Ok a ∧ P l).
Proof.
  intros Hw. destruct r as [a|e]; cbn; [|apply spec_raise, Hw].
  apply spec_ret. naive_solver.
Qed.

Lemma spec_ask {A} (call : W → result A SourceError * W) P (T : A → Prop) :
  (∀ w a, (call w).1 = Ok a → T a) → spec P (ask call) (fun a l => T a ∧ P l).
Proof.
  intros HT l w Hok HP. specialize (HT w). unfold ask. destruct (call w) as [[a|e] w'] eqn:Hc.
  - split; [done|]. split; [done|]. exists true. cbn. split; [apply lawful_nil|]. eauto.
  - split; [done|]. split; [done|]. exists true. split; [apply lawful_nil|done].
Qed.

Lemma spec_set_window window P :
  (∀ l, P l → P {| config := config l; state_store := state_store l; state := state l;
                  reorg_window := window |}) →
  spec P (set_window window : watching ()) (fun _ l => P l).
Proof.
  intros HP l w Hok Hl. cbn. split; [done|]. split; [done|]. exists true.
  split; [apply lawful_nil|]. auto.
Qed.

Lemma spec_sleep ms P : spec P (sleep ms : watching ()) (fun _ l => P l).
Proof.
  intros l w Hok HP. cbn. split; [done|]. split; [done|]. exists true.
  split; [apply lawful_sleep, lawful_nil|done].
Qed.

(** A guard on a fact the precondition has. *)
Lemma spec_pre {A} (m : watching A) P Q (T : Prop) :
  (∀ l, P l → T) → (T → spec P m Q) → spec P m Q.
Proof. intros HT Hm l w Hok HP. exact (Hm (HT l HP) l w Hok HP). Qed.

(** ** Events *)

Lemma append_record_eq r l (w : W) :
  record_typed r →
  append_record r l w =
    let '(io, w') := write w in
    (match io with Wrote => Ok () | Tore _ => Err (Error (WatcherStore StateIo)) end,
     {| config := config l; state_store := (append (state_store l) r io).2; state := state l;
        reorg_window := reorg_window l |}, w', [Append r io]).
Proof.
  intros Hty. unfold append_record. destruct (write w) as [io w'].
  destruct (json_line r Hty) as (line & Hto & _). unfold append. rewrite Hto. by destruct io.
Qed.

(** A record that is appended and then committed to memory, or the reverse. *)
Lemma spec_record r P :
  is_submitted r = false → (∀ l, P l → allowed (state l) r) →
  spec P (append_record r;; set_state (commit_record r) : watching ())
    (fun _ l' => ∃ l, P l ∧ state l' = commit_record r (state l)) ∧
  spec P (set_state (commit_record r);; append_record r : watching ())
    (fun _ l' => ∃ l, P l ∧ state l' = commit_record r (state l)).
Proof.
  intros Hs HP. split; intros l w Hok Hl; pose proof (HP l Hl) as Ha;
    pose proof (allowed_typed _ _ Hok Ha) as Hty;
    unfold mbind, watching_bind; cbn [set_state]; rewrite append_record_eq by done;
    destruct (write w) as [[|k] w']; cbn -[append]; (split; [done|]; split; [done|]).
  - exists true. split; [apply lawful_record; [done..|apply lawful_nil]|]. eauto.
  - exists false. split; [|done]. by apply lawful_torn; auto.
  - exists true. split; [apply lawful_record; [done..|apply lawful_nil]|]. eauto.
  - exists false. split; [|done]. by apply lawful_torn; auto.
Qed.

(** The submission loop leaves the watcher as it is: it ends right after the
    first acceptance, or with an error. *)
Lemma submit_loop_lawful remaining backoff signed l (w : W) :
  nonce (unsigned_action signed) = next_nonce (state l) →
  ∃ r w' t, submit_loop remaining backoff signed l w = (r, l, w', t) ∧
    (∀ file, written file t = file) ∧
    ((r = Ok () ∧ ∃ t0, t = t0 ++ [Submit signed (Ok VerdictOk)] ∧
       lawful (state l) t0 true (state l)) ∨
     ((∃ e, r = Err (Error (WatcherSubmit e))) ∧ lawful (state l) t true (state l))).
Proof.
  intros Hn. revert backoff w. induction remaining as [|remaining IH]; intros backoff w;
    cbn [submit_loop]; unfold mbind at 1, watching_bind, submit_action;
    destruct (submit signed w) as [[[| | |]|e] w1]; cbn -[Z.min].
  1,6: do 3 eexists; split; [done|]; split; [done|]; left; split; [done|]; exists []; split; [done|apply lawful_nil].
  1,2,3,4,5,6,8: do 3 eexists; split; [done|]; split; [done|]; right; split; [by eauto|];
    apply lawful_attempt; [done..|apply lawful_nil].
  unfold mbind, watching_bind, sleep.
  destruct (IH (Z.min (saturating_mul 64 backoff 2) 60000) w1) as (r & w' & t & -> & Hf & Hcases).
  do 3 eexists. split; [done|]. split; [done|]. destruct Hcases as [(-> & t0 & -> & Hl)|(He & Hl)].
  - left. split; [done|]. eexists (_ :: _ :: t0). split; [done|].
    apply lawful_attempt; [done..|]. by apply lawful_sleep.
  - right. split; [done|]. apply lawful_attempt; [done..|]. by apply lawful_sleep.
Qed.

Lemma sign_Ok cfg u signed :
  in_u128 (nonce u) → sign keccak256 key cfg u = Ok signed →
  unsigned_action signed = u ∧ nonce u < 2 ^ 64.
Proof.
  unfold sign. intros Hn Hs. destruct (signing_input _ _ _ _) as [bs|] eqn:Hi; [|done].
  destruct (sign_prehash key (keccak256 bs)); [|done]. injection Hs as <-. split; [done|].
  unfold signing_input in Hi. inv_binds.
  match goal with Hx : encode_nonce _ = Ok _ |- _ =>
    apply (encode_nonce_inv _ _ Hn) in Hx as [_ [_ Hlt]] end. done.
Qed.

Lemma with_book_id st : with_book st (address_book st) = st.
Proof. by destruct st. Qed.

(** What the translation gives for the assignment of an event. *)
Definition pending_ok (st : WatcherState) (p : option (EthAddress * ActorId)) : Prop :=
  match p with
  | Some (a, i) =>
      is_address a ∧ lookup_addr (address_book st) a = None ∧ i = next_actor_id (address_book st)
  | None => True
  end.

Lemma commit_eq a i l (w : W) :
  commit a i l w =
    let '(r, book) := commit_assignment (address_book (state l)) a i in
    (match r with Ok _ => Ok () | Err e => Err (Error (WatcherCommit e)) end,
     {| config := config l; state_store := state_store l; state := with_book (state l) book;
        reorg_window := reorg_window l |}, w, []).
Proof.
  unfold commit, mbind, watching_bind, self. destruct (commit_assignment _ _ _) as [[] book]; done.
Qed.

(** Recording an accepted submission. *)
Lemma record_submission l (w : W) signed k p n :
  state_ok (state l) → nonce (unsigned_action signed) = next_nonce (state l) →
  n = next_nonce (state l) + 1 → in_u128 n →
  fresh_key (state l) (key_block_hash k) (key_tx_hash k) (key_log_index k) →
  translated (state l) (unsigned_action signed) k → pending_ok (state l) p →
  let r := Submitted (key_block_hash k) (key_tx_hash k) (key_log_index k) n
             ((fun '(a, i) => {| address := a; actor_id := i |}) <$> p) in
  let '(res, l', _, t) :=
    (append_record r;;
     match p with Some (a, i) => commit a i | None => mret () end;;
     set_state (set_nonce n);;
     set_state (fun st => insert_forwarded st k) : watching ()) l w in
  config l' = config l ∧ state_store l' = written (state_store l) t ∧
  ∃ b, lawful (state l) (Submit signed (Ok VerdictOk) :: t) b (state l') ∧
    match res with
    | Ok _ => b = true ∧ last_confirmed_block (state l') = last_confirmed_block (state l)
    | Err (Error (WatcherStore _ | WatcherCommit _)) => b = false
    | Err _ => b = true
    end.
Proof.
  destruct k as [kb kt ki]. cbn [key_block_hash key_tx_hash key_log_index].
  intros Hok Hs Hn Hnu Hk Htr Hp. cbn zeta. pose proof (state_book _ Hok) as Hb.
  pose proof (book_next _ Hb) as Hnext. set (r := Submitted _ _ _ _ _).
  assert (Hdel : delivers (state l) signed r) by by eexists.
  assert (Hnew : ∀ k, record_key r = Some k → k ∉ forwarded (state l)) by (intros k [= <-]; apply Hk).
  assert (Hty : record_typed r).
  { destruct Hk as (_ & _ & Hi & _). split; [done|]. split; [done|].
    destruct p as [[a i]|]; [|done]. destruct Hp as (_ & _ & ->).
    unfold in_width, INITIAL_NEXT_ACTOR_ID in *. cbn. lia. }
  assert (Hall : (∀ a i, p = Some (a, i) → i < u64_max) → allowed (state l) r).
  { intros Hi. split; [done|]. split; [done|]. split; [done|].
    destruct p as [[a i]|]; [|done]. destruct Hp as (? & ? & ?). cbn. eauto. }
  unfold mbind, watching_bind. rewrite append_record_eq by done.
  destruct (decide (snd <$> p = Some u64_max)) as [Hex|Hne].
  { apply fmap_Some in Hex as ([a i] & -> & Hi). cbn in Hi. subst i. destruct Hp as (_ & Hl & Hmax). destruct (write w) as [[|k'] w']; cbn -[append commit].
    - rewrite commit_eq. destruct (try_assign_cases (address_book (state l)) a Hb)
        as [(i & Hi & _)|[(_ & _ & Ht)|(_ & Hlt & _)]]; [unfold lookup_addr in Hl; congruence| |lia].
      unfold commit_assignment. cbn -[append try_assign]. rewrite Ht. split; [done|]. split; [done|].
      exists false. rewrite with_book_id. split; [by apply lawful_exhausted|done].
    - split; [done|]. split; [done|]. exists false. split; [by apply lawful_exhausted|done]. }
  assert (Ha : allowed (state l) r).
  { apply Hall. intros a i ->. destruct Hp as (_ & _ & ->).
    assert (next_actor_id (address_book (state l)) ≠ u64_max); [|lia].
    intros Heq. apply Hne. cbn. by rewrite Heq. }
  destruct (write w) as [[|k'] w'].
  2: { cbn -[append]. split; [done|]. split; [done|]. exists false.
       split; [by apply lawful_submitted_torn|done]. }
  assert (Hgo : lawful (state l) [Submit signed (Ok VerdictOk); Append r Wrote] true
    (commit_record r (state l))) by (apply lawful_submitted; [done..|apply lawful_nil]).
  destruct p as [[a i]|]; cbn -[append commit].
  - rewrite commit_eq. destruct Hp as (_ & Hl & ->). destruct Ha as (_ & _ & _ & _ & _ & _ & Hlt). cbn in Hlt.
    destruct (try_assign_cases (address_book (state l)) a Hb)
      as [(j & Hj & _)|[(_ & Hm & _)|(_ & _ & Ht)]]; [unfold lookup_addr in Hl; congruence|lia|].
    unfold commit_assignment. cbn -[append try_assign]. rewrite Ht, decide_False by tauto.
    split; [done|]. split; [done|]. exists true. by split.
  - split; [done|]. split; [done|]. exists true. by split.
Qed.

Lemma submit_event_spec k u p c :
  spec (fun l => nonce u = next_nonce (state l) ∧ translated (state l) u k ∧
          fresh_key (state l) (key_block_hash k) (key_tx_hash k) (key_log_index k) ∧
          pending_ok (state l) p ∧ last_confirmed_block (state l) = c)
    (submit_event keccak256 key k u p) (fun _ l => last_confirmed_block (state l) = c).
Proof.
  intros l w Hok (Hn & Htr & Hk & Hp & Hc). destruct (state_nonce _ Hok) as [Hn0 Hn1].
  unfold submit_event. unfold mbind at 1, watching_bind at 1, self.
  unfold mbind at 1, watching_bind at 1.
  destruct (sign keccak256 key (config l) u) as [signed|e] eqn:Hs; cbn [lift mret watching_ret raise].
  2: { split; [done|]. split; [done|]. exists true. split; [apply lawful_nil|].
       unfold sign in Hs. repeat case_match; by simplify_eq. }
  apply sign_Ok in Hs as [Hu Hlt]; [|by rewrite Hn]. rewrite Hn in Hlt.
  unfold mbind at 1, watching_bind at 1.
  destruct (submit_loop_lawful max_retries 100 signed l w) as (r & w1 & t & -> & Hf & Hcases);
    [by rewrite Hu|].
  destruct Hcases as [(-> & t0 & -> & Ht0)|([e ->] & Ht)].
  2: { split; [done|]. split; [cbn; by rewrite Hf|]. by exists true. }
  replace (saturating_add 128 (next_nonce (state l)) 1) with (next_nonce (state l) + 1)
    by (unfold saturating_add; lia).
  pose proof (record_submission l w1 signed k p (next_nonce (state l) + 1) Hok) as Hrec.
  specialize (Hrec ltac:(by rewrite Hu) eq_refl ltac:(unfold in_width; lia) Hk ltac:(by rewrite Hu) Hp). cbn zeta in Hrec.
  match type of Hrec with context [?m l w1] => destruct (m l w1) as [[[res l'] w2] t2] end.
  destruct Hrec as (Hcf & Hst & b & Hl & Hres).
  split; [done|]. split; [cbn; by rewrite written_app, Hf|].
  exists b. split; [cbn; rewrite <- app_assoc; by eapply lawful_app|].
  destruct res; [|done]. destruct Hres as [-> Hlc]. split; [done|]. by rewrite Hlc.
Qed.

Definition origin_typed (e : IngestedEvent) : Prop :=
  word (tx_hash (event_origin e)) ∧ in_u64 (log_index (event_origin e)).

Lemma translate_emit m b e n u p :
  event_typed e →
  (translate m b e n = Emit u ∧ p = None) ∨
  (∃ a i, translate m b e n = EmitWithAssignment u a i ∧ p = Some (a, i)) →
  nonce u = n ∧
  match p with
  | Some (a, i) => is_address a ∧ lookup_addr b a = None ∧ i = next_actor_id b
  | None => True
  end.
Proof.
  intros He Ht. destruct (translate_resolves m b e n) as [[Hno _]|(a & Hs & Hr)].
  { rewrite Hno in Ht. naive_solver. }
  assert (is_address a).
  { destruct e; cbn in Hs, He; simplify_eq; by destruct_and?. }
  unfold resolves in Hr. destruct (lookup_addr b a) as [i|] eqn:Hl;
    destruct Hr as (act & _ & Hr); rewrite Hr in Ht.
  - destruct Ht as [[[= <-] ->]|(? & ? & ? & _)]; done.
  - destruct Ht as [[? _]|(? & ? & [= <- <- <-] & ->)]; done.
Qed.

Lemma process_event_spec e bh c :
  event_typed e → origin_typed e → word bh →
  spec (fun l => last_confirmed_block (state l) = c) (process_event keccak256 key e bh)
    (fun _ l => last_confirmed_block (state l) = c).
Proof.
  intros He [Htx Hix] Hbh. unfold process_event.
  assert (Ho : origin_key e = (block_number (event_origin e), tx_hash (event_origin e),
    log_index (event_origin e))) by (by destruct e). rewrite Ho.
  set (k := {| key_block_hash := bh; key_tx_hash := _; key_log_index := _ |}).
  eapply spec_bind; [apply spec_self|]. intros l0. case_decide as Hin.
  { apply spec_ret. naive_solver. }
  assert (Hk : fresh_key (state l0) bh (tx_hash (event_origin e)) (log_index (event_origin e)))
    by done.
  fold (translate (materialise_deposits (config l0)) (address_book (state l0)) e (next_nonce (state l0))).
  destruct (translate _ _ _ _) as [|u|u a i] eqn:Ht.
  - eapply (spec_conseq _ (fun l => l0 = l ∧ last_confirmed_block (state l) = c)).
    + apply (spec_record (Forwarded bh (tx_hash (event_origin e)) (log_index (event_origin e)))); [done|].
      by intros l [<- _].
    + done.
    + intros _ l' (l & [-> Hc] & ->). done.
  - destruct (translate_emit _ _ _ _ u None He (or_introl (conj Ht eq_refl))) as [Hn _].
    eapply spec_conseq; [apply (submit_event_spec k u None c)| |done]. intros l [<- Hc]. split; [done|].
    split; [|done]. eexists _, e. split_and!; [done..|]. by rewrite Ht.
  - destruct (translate_emit _ _ _ _ u (Some (a, i)) He (or_intror (ex_intro _ a
      (ex_intro _ i (conj Ht eq_refl))))) as [Hn Hp].
    eapply spec_conseq; [apply (submit_event_spec k u (Some (a, i)) c)| |done]. intros l [<- Hc]. split; [done|].
    split; [|done]. eexists _, e. split_and!; [done..|]. by rewrite Ht.
Qed.

(** ** Blocks *)

Definition log_typed (log : RawLog) : Prop :=
  raw_log_typed log ∧ word (log_tx_hash log) ∧ in_u64 (raw_log_index log).

Lemma decode_event_typed log e :
  log_typed log → decode_event log = Ok (Some e) → event_typed e ∧ origin_typed e.
Proof.
  intros (Hlog & Htx & Hi) Hd. unfold decode_event in Hd.
  inv_binds. repeat case_match; inv_binds; try done.
  all: match goal with Hk : decode_known _ _ = Ok _ |- _ =>
    destruct (decode_known_typed _ _ _ Hlog Hk) as [Hty Ho] end.
  all: split; [done|]; unfold origin_typed; by rewrite Ho.
Qed.

Lemma process_logs_spec logs bh c :
  Forall log_typed logs → word bh →
  spec (fun l => last_confirmed_block (state l) = c) (process_logs keccak256 key logs bh)
    (fun _ l => last_confirmed_block (state l) = c).
Proof.
  intros Hl Hbh. induction Hl as [|log logs Hlog Hl IH]; cbn [process_logs].
  - apply spec_ret. naive_solver.
  - destruct (decode_event log) as [[e|]|e] eqn:Hd; [|done|by apply spec_raise].
    destruct (decode_event_typed _ _ Hlog Hd). eapply spec_bind; [by apply process_event_spec|done].
Qed.

Lemma advance_window_spec header c :
  spec (fun l => last_confirmed_block (state l) = c) (advance_window header : watching ())
    (fun _ l => last_confirmed_block (state l) = c).
Proof.
  eapply spec_bind; [apply spec_self|]. intros l0.
  destruct (window_is_empty _).
  { eapply spec_conseq; [by apply spec_set_window with (P := fun l => last_confirmed_block (state l) = c)
      |naive_solver|done]. }
  destruct (advance (reorg_window l0) header) as [r window].
  eapply (spec_bind _ _ _ (fun _ l => last_confirmed_block (state l) = c)).
  { eapply spec_conseq; [by apply spec_set_window with (P := fun l => last_confirmed_block (state l) = c)
      |naive_solver|done]. }
  intros _. eapply spec_bind; [by apply spec_lift|]. intros o. apply spec_ret. naive_solver.
Qed.

End Runs.

(** The ranges of the Rust types of what the source returns. *)
Class WorldOk (W : Type) `{World W} : Prop := {
  latest_typed (w : W) n : (latest_block_number w).1 = Ok n → in_u64 n;
  header_typed (w : W) n h : (block_header_by_number n w).1 = Ok h → word (header_hash h);
  logs_typed (w : W) bh a logs : (logs_in_block_by_hash bh a w).1 = Ok logs → Forall log_typed logs;
}.

Section Blocks.
Context {W : Type} `{WorldOk W} `{StateJsonOk} `{K256}.
Variable keccak256 : list u8 → list u8.
Variable key : BridgeActorKey.

Lemma process_block_spec n c :
  spec (fun l => last_confirmed_block (state l) = c) (process_block keccak256 key n : watching ())
    (fun _ l => last_confirmed_block (state l) = c).
Proof.
  unfold process_block. eapply spec_bind; [apply spec_self|]. intros l0.
  eapply spec_bind; [apply (spec_ask _ _ (fun h => word (header_hash h))); intros w a; apply header_typed|].
  intros header. apply (spec_pre _ _ _ (word (header_hash header))); [naive_solver|]. intros Hh.
  apply (spec_bind _ _ _ (fun _ l => last_confirmed_block (state l) = c)).
  { eapply spec_conseq; [apply advance_window_spec|naive_solver|done]. }
  intros _. eapply spec_bind; [apply (spec_ask _ _ (Forall log_typed)); intros w a; apply logs_typed|].
  intros logs. apply (spec_bind _ _ _ (fun all l => Forall log_typed all ∧ last_confirmed_block (state l) = c)).
  { case_decide; [|by apply spec_ret].
    eapply spec_bind; [apply (spec_ask _ _ (Forall log_typed)); intros w a; apply logs_typed|].
    intros more. apply spec_ret. intros l (? & ? & ?). split; [by apply Forall_app|done]. }
  intros all. apply (spec_pre _ _ _ (Forall log_typed all)); [naive_solver|]. intros Hall.
  eapply spec_conseq; [apply process_logs_spec|naive_solver|done]; [by apply sort_logs_Forall|done].
Qed.

Lemma spec_assoc {A B C} (m : watching A) (f : A → watching B) (g : B → @watching W C) P Q R :
  spec P (m ≫= f) Q → (∀ b, spec (Q b) (g b) R) → spec P (m ≫= fun a => f a ≫= g) R.
Proof.
  intros Hm Hg l w Hok HP. pose proof (spec_bind _ _ _ _ _ Hm Hg l w Hok HP) as Hs.
  unfold mbind, watching_bind in *. destruct (m l w) as [[[[a|e] l1] w1] t1]; [|done].
  destruct (f a l1 w1) as [[[[b|e] l2] w2] t2]; [|done].
  destruct (g b l2 w2) as [[[r l3] w3] t3]. by rewrite <- app_assoc in Hs.
Qed.

(** Confirming the blocks one after the other. *)
Lemma process_blocks_spec count n processed c :
  spec (fun l => last_confirmed_block (state l) = c ∧
          ((0 < count)%nat → start_block (state l) = n ∧ 0 ≤ n ∧ n + Z.of_nat count ≤ 2 ^ 64))
    (process_blocks keccak256 key count n processed : watching Z)
    (fun r l => r = processed + Z.of_nat count ∧
       last_confirmed_block (state l) =
         if decide (count = 0%nat) then c else Some (n + Z.of_nat count - 1)).
Proof.
  revert n processed c. induction count as [|count IH]; intros n processed c; cbn [process_blocks].
  { apply spec_ret. intros l [Hc _]. split; [lia|done]. }
  apply (spec_pre _ _ _ (0 ≤ n ∧ n + Z.of_nat (S count) ≤ 2 ^ 64)).
  { intros l [_ Hs]. destruct (Hs ltac:(lia)) as [_ ?]. done. }
  intros Hn. eapply (spec_bind _ _ _ (fun _ l => last_confirmed_block (state l) = c ∧ start_block (state l) = n)).
  { apply (spec_pre _ _ _ (∃ st, last_confirmed_block st = c ∧ start_block st = n)).
    { intros l [Hc Hs]. exists (state l). split; [done|]. by apply Hs; lia. }
    intros (st & Hc & Hst).
    eapply spec_conseq; [apply (process_block_spec n c)|naive_solver|].
    intros u l Hl. cbn in Hl. split; [done|]. unfold start_block in *. by rewrite Hl, <- Hc. }
  intros _. eapply spec_assoc.
  { apply (spec_record (Confirmed n)); [done|]. intros l [_ Hl]. split; [by rewrite Hl|].
    unfold in_width. lia. }
  intros u. eapply spec_conseq; [apply (IH (n + 1) (processed + 1) (Some n))| |].
  - intros l' (l & Hp & Hst). rewrite Hst. cbn. split; [done|]. intros Hpos. split; [|lia].
    unfold start_block. cbn. unfold saturating_add. lia.
  - intros r l [-> ->]. split; [lia|].
    destruct (decide (S count = 0%nat)); [done|]. case_decide as Hz; f_equal; lia.
Qed.

(** Where an iteration starts and how many blocks it takes. *)
Definition batch (cfg : WatcherConfig) (st : WatcherState) (chain_head : Z) : Z :=
  let confirmed_head := chain_head - confirmation_depth cfg in
  if decide (confirmed_head < 0 ∨ confirmed_head < start_block st) then 0
  else Z.min (saturating_add 64 (confirmed_head - start_block st) 1) (blocks_per_iteration cfg).

Definition config_typed (cfg : WatcherConfig) : Prop :=
  0 ≤ confirmation_depth cfg ∧ 0 ≤ blocks_per_iteration cfg.

Lemma batch_bound cfg st chain_head :
  config_typed cfg → state_ok st → in_u64 chain_head →
  0 ≤ batch cfg st chain_head ∧ (0 < batch cfg st chain_head →
    0 ≤ start_block st ∧ start_block st + batch cfg st chain_head - 1 ≤ chain_head - confirmation_depth cfg).
Proof.
  intros [Hd Hbl] Hst [Hh0 Hh1]. unfold batch.
  assert (0 ≤ start_block st).
  { unfold start_block. destruct (last_confirmed_block st) as [b|] eqn:Hb; [|done].
    destruct (state_confirmed _ Hst b Hb). unfold saturating_add. lia. }
  case_decide; [lia|]. unfold saturating_add. lia.
Qed.

Lemma run_iteration_after chain_head l0 :
  config_typed (config l0) → in_u64 chain_head → state_ok (state l0) →
  let r := batch (config l0) (state l0) chain_head in
  spec (fun l => l = l0)
    (l ← self;
     let depth := confirmation_depth (config l) in
     if decide (chain_head < depth) then mret 0
     else
       let confirmed_head := chain_head - depth in
       let start := start_block (state l) in
       if decide (confirmed_head < start) then mret 0
       else
         let available_blocks := saturating_add 64 (confirmed_head - start) 1 in
         let configured_batch := blocks_per_iteration (config l) in
         if decide (configured_batch = 0) then mret 0
         else process_blocks keccak256 key (Z.to_nat (Z.min available_blocks configured_batch)) start 0
     : @watching W Z)
    (fun r' l => r' = r ∧ last_confirmed_block (state l) =
       if decide (r = 0) then last_confirmed_block (state l0) else Some (start_block (state l0) + r - 1)).
Proof.
  intros Hcfg Hh Hok r. eapply spec_bind; [apply spec_self|]. intros l1.
  apply (spec_pre _ _ _ (l1 = l0)); [naive_solver|]. intros ->. cbn zeta.
  assert (Hzero : r = 0 → spec (fun l => l0 = l ∧ l = l0) (mret 0 : @watching W Z)
      (fun r' l => r' = r ∧ last_confirmed_block (state l) =
       if decide (r = 0) then last_confirmed_block (state l0) else Some (start_block (state l0) + r - 1))).
  { intros Hr. apply spec_ret. intros l [<- _]. by rewrite Hr. }
  pose proof Hcfg as [Hd Hbl]. pose proof Hh as [Hh0 Hh1].
  destruct (decide (chain_head < _)) as [H1'|H1']. { apply Hzero. unfold r, batch. by rewrite decide_True by lia. }
  destruct (decide (_ < start_block _)) as [H2'|H2']. { apply Hzero. unfold r, batch. by rewrite decide_True by lia. }
  destruct (decide (blocks_per_iteration _ = 0)) as [H3'|H3'].
  { apply Hzero. unfold r, batch. rewrite decide_False by lia. unfold saturating_add. lia. }
  assert (Hb : Z.min (saturating_add 64 (chain_head - confirmation_depth (config l0) - start_block (state l0)) 1)
      (blocks_per_iteration (config l0)) = r).
  { unfold r, batch. by rewrite decide_False by lia. }
  rewrite Hb. destruct (batch_bound (config l0) (state l0) chain_head Hcfg Hok Hh) as [Hb0 Hb1].
  fold r in Hb0, Hb1.
  eapply spec_conseq; [apply (process_blocks_spec _ (start_block (state l0)) 0 (last_confirmed_block (state l0)))|..].
  - intros l [<- _]. split; [done|]. intros Hpos. split; [done|]. lia.
  - intros r' l [-> ->]. split; [lia|].
    repeat case_decide; try lia; [done|f_equal; lia].
Qed.

Lemma run_iteration_spec l0 :
  config_typed (config l0) → state_ok (state l0) →
  spec (fun l => l = l0) (run_iteration keccak256 key : @watching W Z)
    (fun r l => ∃ chain_head, r = batch (config l0) (state l0) chain_head ∧
       last_confirmed_block (state l) =
         if decide (r = 0) then last_confirmed_block (state l0)
         else Some (start_block (state l0) + r - 1)).
Proof.
  intros Hcfg Hok. unfold run_iteration.
  eapply spec_bind; [apply (spec_ask _ _ in_u64); apply latest_typed|].
  intros chain_head. apply (spec_pre _ _ _ (in_u64 chain_head)); [naive_solver|]. intros Hh.
  eapply spec_conseq; [by apply (run_iteration_after chain_head l0)|naive_solver|].
  intros r l [-> Hl]. eauto.
Qed.

(** The outer loop, for any number of rounds. *)
Lemma run_until_spec rounds until total :
  spec (fun l => config_typed (config l)) (run_until keccak256 key rounds until total : @watching W Z)
    (fun _ l => config_typed (config l)).
Proof.
  revert total. induction rounds as [|rounds IH]; intros total; cbn [run_until].
  { intros l w Hok Hc. split; [done|]. split; [done|]. exists true. split; [apply lawful_nil|done]. }
  eapply (spec_bind _ _ _ (fun _ l => config_typed (config l))).
  { intros l w Hok Hc. unfold poll_stop. destruct (stop_flag w) as [b w'].
    split; [done|]. split; [done|]. exists true. split; [apply lawful_nil|done]. }
  intros []; [by apply spec_ret|]. eapply spec_bind; [apply spec_self|]. intros l0.
  case_match; [apply spec_ret; naive_solver|].
  eapply (spec_bind _ _ _ (fun _ l => config_typed (config l))).
  { intros l w Hok [<- Hc].
    pose proof (run_iteration_spec l0 Hc Hok l0 w Hok eq_refl) as Hs.
    destruct (run_iteration keccak256 key l0 w) as [[[r l'] w'] t].
    destruct Hs as (Hcf & Hst & b & Hl & Hr). split; [done|]. split; [done|]. exists b. split; [done|].
    destruct r; [|done]. split; [naive_solver|]. by rewrite Hcf. }
  intros processed. eapply spec_bind; [|intros; apply IH].
  case_decide; [apply spec_sleep|by apply spec_ret].
Qed.

End Blocks.

(** ** A restart *)

Section Restart.
Context `{StateJsonOk}.

Lemma apply_record_typed n acc r acc' :
  record_typed r → apply_record n acc r = Ok acc' →
  in_u128 (next_nonce acc.1) → (∀ b, last_confirmed_block acc.1 = Some b → in_u64 b) →
  in_u128 (next_nonce acc'.1) ∧ (∀ b, last_confirmed_block acc'.1 = Some b → in_u64 b).
Proof.
  destruct acc as [st p], r as [| | | |bh th i nn [a|]]; cbn; intros Ht Hr Hn Hc; inv_binds;
    cbn; try case_decide; naive_solver.
Qed.

Lemma replay_lines_typed n acc ls acc' :
  replay_lines n acc ls = Ok acc' →
  in_u128 (next_nonce acc.1) → (∀ b, last_confirmed_block acc.1 = Some b → in_u64 b) →
  in_u128 (next_nonce acc'.1) ∧ (∀ b, last_confirmed_block acc'.1 = Some b → in_u64 b).
Proof.
  revert n acc. induction ls as [|l ls IH]; intros n acc; cbn; [by intros [= <-]|].
  intros (acc1 & Hl & Hr)%result_bind_Ok Hn Hc.
  assert (in_u128 (next_nonce acc1.1) ∧ ∀ b, last_confirmed_block acc1.1 = Some b → in_u64 b)
    as [Hn1 Hc1]; [|by apply (IH _ _ Hr)].
  unfold replay_line in Hl. case_match; [|done]. case_match; [by simplify_eq|].
  apply result_bind_Ok in Hl as (r & Hj & Ha). destruct (json_from_str l) as [r'|] eqn:Hp; [|done].
  injection Hj as ->. apply json_typed in Hp. by eapply apply_record_typed.
Qed.

(** A watcher that was opened on a whole file is in step with it. *)
Lemma replay_synced file st : whole file → replay file = Ok st → synced file st.
Proof.
  intros Hw Hr. unfold replay in Hr. apply result_bind_Ok in Hr as ([st0 pending] & Hl & Hf).
  destruct (replay_lines_typed _ _ _ _ Hl) as [Hn Hc]; [done..|].
  pose proof (replay_lines_book _ _ _ _ Hl) as Hb. cbn in Hb, Hf. rewrite Hb in Hf.
  apply result_bind_Ok in Hf as (b & Hb' & [= <-]). destruct (rebuild_book _ _ Hb') as [Hok <-].
  split; [done|]. split; [by split|]. by exists st0.
Qed.

Lemma WatcherLoop_new_synced cfg file l :
  (∀ f, file = Some f → whole f) → WatcherLoop_new cfg file = Ok l →
  config l = cfg ∧ synced (state_store l) (state l).
Proof.
  intros Hw. unfold WatcherLoop_new. rewrite guard_Ok. intros [_ Hl].
  destruct (StateStore_open file) as [[bytes st]|] eqn:Ho; [|done]. injection Hl as <-.
  split; [done|]. cbn. unfold StateStore_open in Ho. destruct file as [f|].
  - apply result_bind_Ok in Ho as (st' & Hr & [= <- <-]). apply replay_synced; auto.
  - injection Ho as <- <-. apply replay_synced; [by left|by vm_compute].
Qed.

End Restart.

(** ** What lawful traces say *)

(** The nonces of the submissions that were accepted. *)
Definition accepted (t : list effect) : list Z :=
  omap (fun e => match e with
    | Submit signed (Ok VerdictOk) => Some (nonce (unsigned_action signed))
    | _ => None end) t.

(** The events that were recorded as handled, the last of which may have been torn. *)
Definition recorded (t : list effect) : list ForwardedKey :=
  omap (fun e => match e with Append r _ => record_key r | _ => None end) t.

(** Every submission that is accepted is of an event that is recorded next. *)
Fixpoint all_recorded (t : list effect) : Prop :=
  match t with
  | [] => True
  | Submit signed (Ok VerdictOk) :: t =>
      match t with Append r _ :: _ => ∃ st, delivers st signed r | _ => False end ∧ all_recorded t
  | _ :: t => all_recorded t
  end.

Lemma lawful_delivers st t b st' : lawful st t b st' → all_recorded t.
Proof.
  induction 1 as [|st s v t b st' _ Hv _ IH| | | | | |]; cbn; try done; try (split; [by eauto|done]).
  by destruct v as [[]|].
Qed.

Lemma commit_record_nonce st r :
  allowed st r → next_nonce (commit_record r st) = next_nonce st + if is_submitted r then 1 else 0.
Proof.
  destruct r as [| | | |bh th i n a]; cbn; intros; lia.
Qed.

Lemma lawful_nonces st t b st' :
  lawful st t b st' →
  accepted t = seqZ (next_nonce st) (Z.of_nat (length (accepted t))) ∧
  next_nonce st' ≤ next_nonce st + Z.of_nat (length (accepted t)) ≤
    next_nonce st' + if b then 0 else 1.
Proof.
  induction 1 as [st|st s v t b st' Hn Hv _ IH|st ms t b st' _ IH|st r t b st' Hs Ha _ IH
    |st s r t b st' Hn _ Hs Ha _ IH|st r k st' Hs Ha Hst|st s r k Hn _ Hs Ha|st s r io Hn _ Hs _ Hm].
  - cbn. by split; [|lia].
  - assert (accepted (Submit s v :: t) = accepted t) as ->; [|done].
    cbn. by destruct v as [[]|].
  - done.
  - change (accepted (Append r Wrote :: t)) with (accepted t).
    rewrite (commit_record_nonce _ _ Ha), Hs, Z.add_0_r in IH. done.
  - change (accepted _) with (nonce (unsigned_action s) :: accepted t).
    rewrite (commit_record_nonce _ _ Ha), Hs in IH. destruct IH as [IH1 IH2]. cbn [length].
    rewrite seqZ_cons by lia. rewrite Hn. split; [|lia]. f_equal.
    replace (Z.succ _) with (next_nonce st + 1) by lia. replace (Z.pred _) with (Z.of_nat (length (accepted t))) by lia.
    done.
  - cbn. split; [done|]. destruct Hst as [->| ->]; [lia|].
    rewrite (commit_record_nonce _ _ Ha), Hs. lia.
  - cbn. rewrite Hn. by split; [|lia].
  - cbn. rewrite Hn. by split; [|lia].
Qed.

Lemma commit_record_forwarded st r :
  allowed st r →
  forwarded (commit_record r st) = list_to_set (option_list (record_key r)) ∪ forwarded st ∧
  ∀ k, record_key r = Some k → k ∉ forwarded st.
Proof.
  destruct r as [bh th i| | | |bh th i n a]; cbn; intros Ha; try done.
  - split; [set_solver|]. intros k [= <-]. by destruct Ha as (_ & _ & _ & ?).
  - split; [set_solver|done].
  - split; [set_solver|]. intros k [= <-]. by destruct Ha as ((_ & _ & _ & ?) & _).
Qed.

Lemma recorded_cons r io t : recorded (Append r io :: t) = option_list (record_key r) ++ recorded t.
Proof. cbn. by destruct (record_key r). Qed.

Lemma lawful_once st t b st' :
  lawful st t b st' →
  NoDup (recorded t) ∧ (∀ k, k ∈ recorded t → k ∉ forwarded st) ∧
  (b = true → forwarded st' = list_to_set (recorded t) ∪ forwarded st).
Proof.
  assert (Hstep : ∀ st r t b st', allowed st r → (NoDup (recorded t) ∧
    (∀ k, k ∈ recorded t → k ∉ forwarded (commit_record r st)) ∧
    (b = true → forwarded st' = list_to_set (recorded t) ∪ forwarded (commit_record r st))) →
    NoDup (recorded (Append r Wrote :: t)) ∧
    (∀ k, k ∈ recorded (Append r Wrote :: t) → k ∉ forwarded st) ∧
    (b = true → forwarded st' = list_to_set (recorded (Append r Wrote :: t)) ∪ forwarded st)).
  { clear. intros st r t b st' Ha (Hnd & Hnew & Hf).
    destruct (commit_record_forwarded _ _ Ha) as [Heq Hk]. rewrite Heq in Hnew, Hf.
    rewrite recorded_cons. split; [|split].
    - apply NoDup_app. split; [destruct (record_key r); repeat constructor; set_solver|].
      split; [|done]. set_solver.
    - intros k [Hin|Hin]%elem_of_app; [|set_solver]. destruct (record_key r); set_solver.
    - intros Hb. rewrite (Hf Hb), list_to_set_app_L. set_solver. }
  assert (Hend : ∀ st r io st', (∀ k, record_key r = Some k → k ∉ forwarded st) → NoDup (recorded [Append r io]) ∧
    (∀ k, k ∈ recorded [Append r io] → k ∉ forwarded st) ∧
    (false = true → forwarded st' = list_to_set (recorded [Append r io]) ∪ forwarded st)).
  { clear. intros st r io st' Hk. rewrite recorded_cons. change (recorded []) with (@nil ForwardedKey). rewrite app_nil_r.
    split; [destruct (record_key r); repeat constructor; set_solver|]. split; [|done].
    destruct (record_key r); set_solver. }
  induction 1 as [st|st s v t b st' Hn Hv _ IH|st ms t b st' _ IH|st r t b st' Hs Ha _ IH
    |st s r t b st' Hn _ Hs Ha _ IH|st r k st' Hs Ha Hst|st s r k Hn _ Hs Ha|st s r io Hn _ Hs Hk Hm]; auto.
  - cbn. split; [apply NoDup_nil_2|]. split; [set_solver|]. intros _. by rewrite (left_id_L ∅ (∪)).
  - exact (Hstep st r t b st' Ha IH).
  - apply Hend. by apply commit_record_forwarded.
  - apply (Hend st r (Tore k) st). by apply commit_record_forwarded.
  - by apply (Hend st r io st).
Qed.

(** ** Correctness *)

Section Correct.
Context {W : Type} `{WorldOk W} `{StateJsonOk} `{K256}.
Variable keccak256 : list u8 → list u8.
Variable key : BridgeActorKey.

(** The run of a watcher that was just opened. *)
Lemma opened_run cfg file l w rounds until r l' w' t :
  (∀ f, file = Some f → whole f) → config_typed cfg → WatcherLoop_new cfg file = Ok l →
  run_until keccak256 key rounds until 0 l (w : W) = (r, l', w', t) →
  synced (state_store l) (state l) ∧ state_store l' = written (state_store l) t ∧
  ∃ b, lawful (state l) t b (state l') ∧
    b = match r with Err (Error (WatcherStore _ | WatcherCommit _)) => false | _ => true end.
Proof.
  intros Hw Hc Hn Hr. destruct (WatcherLoop_new_synced _ _ _ Hw Hn) as [Hcfg Hs].
  pose proof Hs as (_ & Hok & _).
  pose proof (run_until_spec keccak256 key rounds until 0 l w Hok) as Hsp.
  rewrite <- Hcfg in Hc. rewrite Hr in Hsp. destruct (Hsp Hc) as (_ & Hst & b & Hl & Hb).
  split; [done|]. split; [done|]. exists b. split; [done|].
  destruct r as [a|[[]|]]; naive_solver.
Qed.

End Correct.


(** Nonces.  The submissions the host accepts carry consecutive nonces from
    the one the state file gives, with none skipped or used twice, and the counter
    is ahead by exactly their number; only a failed write, which stops the
    watcher, can leave the last of them uncounted. *)
Theorem watcher_nonces {W} `{WorldOk W} `{StateJsonOk} `{K256} keccak256 key cfg file l
    (w : W) rounds until r l' w' t :
  (∀ f, file = Some f → whole f) → config_typed cfg → WatcherLoop_new cfg file = Ok l →
  run_until keccak256 key rounds until 0 l w = (r, l', w', t) →
  let n := Z.of_nat (length (accepted t)) in
  accepted t = seqZ (next_nonce (state l)) n ∧
  match r with
  | Err (Error (WatcherStore _ | WatcherCommit _)) =>
      next_nonce (state l') = next_nonce (state l) + n ∨
      next_nonce (state l') = next_nonce (state l) + n - 1
  | _ => next_nonce (state l') = next_nonce (state l) + n
  end.
Proof.
  intros Hw Hc Hn Hr. destruct (opened_run _ _ _ _ _ _ _ _ _ _ _ _ Hw Hc Hn Hr) as (Hs & _ & b & Hl & Hb).
  destruct (lawful_nonces _ _ _ _ Hl) as [Ha Hd]. split; [done|]. subst b.
  destruct r as [a|[[]|]]; lia.
Qed.


(** Progress of an iteration.  An iteration that ends without error confirms,
    one after the other, exactly the next blocks of its batch, the smaller of
    what is confirmed deep enough and the configured size; the last of them is at
    least [confirmation_depth] below the head, and with an empty batch nothing is
    confirmed. *)
Theorem run_iteration_progress {W} `{WorldOk W} `{StateJsonOk} `{K256} keccak256 key l (w : W)
    chain_head n l' w' t :
  config_typed (config l) → state_ok (state l) → (latest_block_number w).1 = Ok chain_head →
  run_iteration keccak256 key l w = (Ok n, l', w', t) →
  n = batch (config l) (state l) chain_head ∧
  (n = 0 → last_confirmed_block (state l') = last_confirmed_block (state l)) ∧
  (n ≠ 0 → last_confirmed_block (state l') = Some (start_block (state l) + n - 1) ∧
    start_block (state l) + n - 1 ≤ chain_head - confirmation_depth (config l)).
Proof.
  intros Hc Hok Hh Hr. pose proof (latest_typed w chain_head Hh) as Hu.
  unfold run_iteration in Hr. unfold mbind at 1, watching_bind at 1, ask in Hr.
  destruct (latest_block_number w) as [r w1] eqn:Hw. cbn in Hh. subst r.
  pose proof (run_iteration_after keccak256 key chain_head l Hc Hu Hok l w1 Hok eq_refl) as Hs.
  match type of Hs with context [?m l w1] => destruct (m l w1) as [[[r2 l2] w2] t2] end.
  injection Hr as -> -> -> <-. destruct Hs as (_ & _ & b & _ & -> & -> & Hlast).
  destruct (batch_bound _ _ _ Hc Hok Hu) as [Hb0 Hb1]. split; [done|]. split.
  - intros Hz. by rewrite Hlast, decide_True.
  - intros Hz. rewrite Hlast, decide_False by done. split; [done|]. apply Hb1. lia.
Qed.

(** The waits between attempts, in milliseconds. *)
Fixpoint backoffs (remaining : nat) (ms : Z) : list Z :=
  match remaining with
  | O => []
  | S remaining => ms :: backoffs remaining (Z.min (saturating_mul 64 ms 2) 60000)
  end.

Definition attempts (t : list effect) : list SignedActionForSubmit :=
  omap (fun e => match e with Submit s _ => Some s | _ => None end) t.

Definition sleeps (t : list effect) : list Z :=
  omap (fun e => match e with Sleep ms => Some ms | _ => None end) t.

Lemma submit_loop_bounded {W} `{World W} `{StateJson} remaining ms signed l (w : W) r l' w' t :
  submit_loop remaining ms signed l w = (r, l', w', t) →
  l' = l ∧ attempts t = replicate (length (attempts t)) signed ∧
  length (attempts t) = S (length (sleeps t)) ∧ sleeps t `prefix_of` backoffs remaining ms ∧
  (r = Ok () ↔ last t = Some (Submit signed (Ok VerdictOk))).
Proof.
  revert ms w r w' t. induction remaining as [|remaining IH]; intros ms w r w' t;
    cbn [submit_loop]; unfold mbind at 1, watching_bind at 1, submit_action;
    destruct (submit signed w) as [[[| | |]|e] w1]; cbn -[Z.min backoffs].
  9: {
    unfold mbind, watching_bind, sleep.
    destruct (submit_loop _ _ signed l w1) as [[[r2 l2] w2] t2] eqn:Hl.
    intros [= <- <- <- <-]. destruct (IH _ _ _ _ _ Hl) as (-> & Ha & Hlen & Hp & Hr). cbn -[Z.min].
    split; [done|]. split; [by f_equal|]. split; [by f_equal|].
    split; [by apply prefix_cons|]. destruct t2; [done|]. exact Hr. }
  all: intros [= <- <- <- <-]; cbn; (split; [done|]); (split; [done|]); (split; [done|]);
    (split; [apply prefix_nil|]); by split.
Qed.

(** Submitting terminates.  One action is submitted at most seventeen times,
    always the same bytes, with the capped exponential waits between, at most
    462.3 seconds in all; the loop succeeds exactly when the last attempt was
    accepted, and it leaves the watcher's state as it is. *)
Theorem submit_loop_terminates {W} `{World W} `{StateJson} signed l (w : W) :
  ∃ r w' t, submit_loop max_retries 100 signed l w = (r, l, w', t) ∧
    attempts t = replicate (length (attempts t)) signed ∧ (1 ≤ length (attempts t) ≤ 17)%nat ∧
    sleeps t `prefix_of` [100; 200; 400; 800; 1600; 3200; 6400; 12800; 25600; 51200;
                          60000; 60000; 60000; 60000; 60000; 60000] ∧
    foldr Z.add 0 (sleeps t) ≤ 462300 ∧
    (r = Ok () ↔ last t = Some (Submit signed (Ok VerdictOk))).
Proof.
  destruct (submit_loop max_retries 100 signed l w) as [[[r l'] w'] t] eqn:Hr.
  destruct (submit_loop_bounded _ _ _ _ _ _ _ _ _ Hr) as (-> & Ha & Hlen & Hp & Hok).
  exists r, w', t. split; [done|]. split; [done|].
  pose proof (prefix_length _ _ Hp) as Hpl. cbn [backoffs max_retries length] in Hpl.
  split; [lia|]. split; [exact Hp|]. split; [|done].
  destruct Hp as [k Hk]. assert (Hall : Forall (Z.le 0) (backoffs max_retries 100)).
  { apply (bool_decide_unpack _). by vm_compute. }
  assert (Hsum : ∀ l1 l2, foldr Z.add 0 (l1 ++ l2) = foldr Z.add 0 l1 + foldr Z.add 0 l2).
  { induction l1 as [|x l1 IH]; intros l2; cbn; [done|]. rewrite IH. lia. }
  rewrite Hk in Hall. apply Forall_app in Hall as [_ Hk0].
  assert (0 ≤ foldr Z.add 0 k) by (clear -Hk0; induction Hk0; cbn; lia).
  apply (f_equal (foldr Z.add 0)) in Hk. rewrite Hsum in Hk.
  change (foldr Z.add 0 (backoffs max_retries 100)) with 462300 in Hk. lia.
Qed.

(** ** Witnesses

    A world with one registration in block 0, twelve blocks deep. *)

#[local] Existing Instances demo_json demo_json_ok demo_k256.

Definition demo_bridge : EthAddress := replicate 20 (byte_of 11).
Definition demo_registry : EthAddress := replicate 20 (byte_of 12).
Definition demo_registration : IngestedEvent :=
  RegisteredEcdsa (demo_address 1) demo_key
    {| block_number := 0; tx_hash := replicate 32 (byte_of 3); log_index := 0 |}.

#[local] Instance demo_source : L1Source () := {|
  latest_block_number w := (Ok 12, w);
  block_header_by_number n w := (Ok (demo_header n 1 0), w);
  logs_in_block_by_hash bh a w :=
    (Ok (if decide (a = demo_registry) then [emit_log demo_registry demo_registration] else []), w);
|}.

#[local] Instance demo_world : World () := {|
  submit s w := (Ok VerdictOk, w);
  write w := (Wrote, w);
  stop_flag w := (false, w);
|}.

#[local] Instance demo_world_ok : WorldOk ().
Proof.
  split.
  - by intros [] n [= <-].
  - by intros [] n h [= <-].
  - intros [] bh a logs. cbn. case_decide; intros [= <-]; [|done].
    constructor; [|done]. split; [|by vm_compute]. split; [repeat constructor|by vm_compute].
Qed.

Definition demo_config : WatcherConfig := WatcherConfig_new demo_bridge demo_registry [].
Definition demo_bridge_key : BridgeActorKey :=
  {| private_bytes := demo_private; public_key := byte_of 2 :: demo_private |}.
Definition demo_loop : WatcherLoop :=
  {| config := demo_config; state_store := []; state := WatcherState_default;
     reorg_window := {| capacity := 16; buffer := [] |} |}.
Definition demo_keccak (l : list u8) : list u8 := replicate 32 (byte_of 5).
Definition demo_run := run_until demo_keccak demo_bridge_key 2 0 0 demo_loop ().


Lemma watcher_nonces_witness :
  accepted demo_run.2 = [0] ∧ next_nonce (state demo_run.1.1.2) = 1.
Proof.
  pose proof (watcher_nonces demo_keccak demo_bridge_key demo_config None demo_loop () 2 0
    demo_run.1.1.1 demo_run.1.1.2 demo_run.1.2 demo_run.2 ltac:(done) ltac:(done) eq_refl
    ltac:(unfold demo_run; by destruct (run_until _ _ _ _ _ _ _) as [[[]]])) as [Ha Hn].
  assert (Hr : demo_run.1.1.1 = Ok 1) by by vm_compute.
  assert (Ht : length (accepted demo_run.2) = 1%nat) by by vm_compute.
  rewrite Hr, Ht in Hn. rewrite Ht in Ha. split; [exact Ha|exact Hn].
Defined.


Lemma run_iteration_progress_witness :
  match run_iteration demo_keccak demo_bridge_key demo_loop () with
  | (r, l', _, _) => r = Ok 1 ∧ last_confirmed_block (state l') = Some 0
  end.
Proof.
  destruct (run_iteration demo_keccak demo_bridge_key demo_loop ()) as [[[r l'] w'] t] eqn:Hr.
  assert (r = Ok 1) as ->.
  { change r with (r, l', w', t).1.1.1. rewrite <- Hr. by vm_compute. }
  split; [done|].
  destruct (run_iteration_progress demo_keccak demo_bridge_key demo_loop () 12 1 l' w' t) as (_ & _ & Hp);
    [done| |done|done|].
  - split; [apply AddressBook_new_ok|by split|done].
  - by destruct Hp.
Defined.
