(* ===== verification/Game.v ===== *)
(** * The bisection game and the honest strategy

    [game.rs] and the decision procedure of [strategy.rs] of the fault-proof
    observer: the state machine that narrows a disputed range of log indices to
    one step, and the move an honest party plays in it.  The truth oracle is a
    parameter of the strategy.

    The theorems: a game that starts on a proper range never reaches a state
    without a legal move of the party whose turn it is, and takes at most two
    moves per halving; the move the strategy chooses is always that legal one;
    and a party that plays the strategy against an arbitrary opponent keeps the
    agreed low end truthful and the high end as its side needs it, so the
    single step the game ends in decides for it. *)

From Stdlib Require Import ZArith Lia.
From stdpp Require Import base numbers list gmap.
From S2P Require Import Prelude.

Local Open Scope Z_scope.

Local Ltac Zify.zify_post_hook ::= Z.to_euclidean_division_equations.

(** ** Data *)

Definition MAX_BISECTION_DEPTH : Z := 64.

Abbreviation LogIndex := Z.
Abbreviation StateCommit := (list u8).

Record Claim : Type := { idx : LogIndex; commit : StateCommit }.

Record DisputedRange : Type := { low : Claim; high : Claim }.

Inductive TurnSide : Type := Sequencer | Challenger.

Inductive GameStatus : Type :=
| InProgress
| SequencerWon
| ChallengerWon
| TimedOutSequencer
| TimedOutChallenger.

Record GameState : Type := {
  sequencer : Z;
  challenger : Z;
  range : DisputedRange;
  pending_midpoint : option Claim;
  depth : Z;
  turn : TurnSide;
  sequencer_bond : Z;
  challenger_bond : Z;
  status : GameStatus;
  deployment_id : list u8;
  actions_root : list u8;
}.

Inductive GameTransition : Type :=
| SubmitMidpoint (c : StateCommit)
| RespondAgree
| RespondDisagree
| TerminateOnSingleStep (expected_post_commit : StateCommit)
| TimeoutLoss.

Inductive GameError : Type :=
| GameAlreadyEnded
| WrongTurn
| MidpointOutOfRange
| MidpointDuringResponse
| ResponseDuringSubmit
| BisectionDepthExceeded
| RangeNotSingleStep
| TerminationDuringBisection
| InvalidSettlement.

#[global] Instance Claim_eq_dec : EqDecision Claim.
Proof. solve_decision. Defined.
#[global] Instance DisputedRange_eq_dec : EqDecision DisputedRange.
Proof. solve_decision. Defined.
#[global] Instance TurnSide_eq_dec : EqDecision TurnSide.
Proof. solve_decision. Defined.
#[global] Instance GameStatus_eq_dec : EqDecision GameStatus.
Proof. solve_decision. Defined.
#[global] Instance GameState_eq_dec : EqDecision GameState.
Proof. solve_decision. Defined.
#[global] Instance GameError_eq_dec : EqDecision GameError.
Proof. solve_decision. Defined.

(** ** The state machine *)

(** The floor of the average, computed at 128 bits and narrowed. *)
Definition midpoint_idx (self : DisputedRange) : LogIndex :=
  let mid := (idx (low self) + idx (high self)) / 2 in
  if decide (mid < 2 ^ 64) then mid else u64_max.

Definition is_single_step (self : DisputedRange) : bool :=
  bool_decide (idx (high self) = saturating_add 64 (idx (low self)) 1).

Definition width (self : DisputedRange) : Z := saturating_sub (idx (high self)) (idx (low self)).

Definition flip (self : TurnSide) : TurnSide :=
  match self with Sequencer => Challenger | Challenger => Sequencer end.

Definition is_in_progress (self : GameStatus) : bool :=
  match self with InProgress => true | _ => false end.

Definition is_terminal (self : GameStatus) : bool := negb (is_in_progress self).

(** [GameState { pending_midpoint, turn, ..gs }], [GameState { range,
    pending_midpoint, depth, turn, ..gs }] and [GameState { status, ..gs }]. *)
Definition with_pending (gs : GameState) (mp : Claim) : GameState :=
  {| sequencer := sequencer gs; challenger := challenger gs; range := range gs;
     pending_midpoint := Some mp; depth := depth gs; turn := flip (turn gs);
     sequencer_bond := sequencer_bond gs; challenger_bond := challenger_bond gs;
     status := status gs; deployment_id := deployment_id gs; actions_root := actions_root gs |}.

Definition with_range (gs : GameState) (r : DisputedRange) : GameState :=
  {| sequencer := sequencer gs; challenger := challenger gs; range := r;
     pending_midpoint := None; depth := saturating_add 32 (depth gs) 1; turn := flip (turn gs);
     sequencer_bond := sequencer_bond gs; challenger_bond := challenger_bond gs;
     status := status gs; deployment_id := deployment_id gs; actions_root := actions_root gs |}.

Definition with_status (gs : GameState) (s : GameStatus) : GameState :=
  {| sequencer := sequencer gs; challenger := challenger gs; range := range gs;
     pending_midpoint := pending_midpoint gs; depth := depth gs; turn := turn gs;
     sequencer_bond := sequencer_bond gs; challenger_bond := challenger_bond gs;
     status := s; deployment_id := deployment_id gs; actions_root := actions_root gs |}.

Definition apply_submit_midpoint (gs : GameState) (midpoint_commit : StateCommit)
    : result GameState GameError :=
  if negb (is_in_progress (status gs)) then Err GameAlreadyEnded else
  if decide (is_Some (pending_midpoint gs)) then Err MidpointDuringResponse else
  if decide (MAX_BISECTION_DEPTH ≤ depth gs) then Err BisectionDepthExceeded else
  let mid_idx := midpoint_idx (range gs) in
  if decide (mid_idx ≤ idx (low (range gs)) ∨ idx (high (range gs)) ≤ mid_idx)
  then Err MidpointOutOfRange
  else Ok (with_pending gs {| idx := mid_idx; commit := midpoint_commit |}).

Definition apply_respond (gs : GameState) (agree : bool) : result GameState GameError :=
  if negb (is_in_progress (status gs)) then Err GameAlreadyEnded else
  if decide (MAX_BISECTION_DEPTH ≤ depth gs) then Err BisectionDepthExceeded else
  let? mp := ok_or (pending_midpoint gs) ResponseDuringSubmit in
  let new_range :=
    if agree then {| low := mp; high := high (range gs) |}
    else {| low := low (range gs); high := mp |} in
  Ok (with_range gs new_range).

Definition apply_terminate_on_single_step (gs : GameState) : result GameState GameError :=
  if negb (is_in_progress (status gs)) then Err GameAlreadyEnded else
  if negb (is_single_step (range gs)) then Err RangeNotSingleStep else
  Ok gs.

Definition apply_timeout (gs : GameState) : result GameState GameError :=
  if negb (is_in_progress (status gs)) then Err GameAlreadyEnded else
  let new_status :=
    match turn gs with
    | Sequencer => TimedOutSequencer
    | Challenger => TimedOutChallenger
    end in
  Ok (with_status gs new_status).

Definition apply_transition (gs : GameState) (t : GameTransition) : result GameState GameError :=
  match t with
  | SubmitMidpoint c => apply_submit_midpoint gs c
  | RespondAgree => apply_respond gs true
  | RespondDisagree => apply_respond gs false
  | TerminateOnSingleStep _ => apply_terminate_on_single_step gs
  | TimeoutLoss => apply_timeout gs
  end.

Definition apply_settlement (gs : GameState) (final_status : GameStatus)
    : result GameState GameError :=
  if negb (is_in_progress (status gs)) then Err GameAlreadyEnded else
  if is_in_progress final_status then Err InvalidSettlement else
  Ok (with_status gs final_status).

(** ** The honest strategy *)

Inductive HonestMoveError : Type := TruthOracleMissed (idx : LogIndex).

Inductive HonestMove : Type :=
| NoMove
| Submit (c : Claim)
| HonestAgree
| HonestDisagree
| HonestTerminate (expected_post_commit : StateCommit).

Definition to_transition (self : HonestMove) : option GameTransition :=
  match self with
  | NoMove => None
  | Submit c => Some (SubmitMidpoint (commit c))
  | HonestAgree => Some RespondAgree
  | HonestDisagree => Some RespondDisagree
  | HonestTerminate c => Some (TerminateOnSingleStep c)
  end.

(** [TruthOracle::commit_at]. *)
Definition TruthOracle : Type := LogIndex → option StateCommit.

Definition compute_next_move (oracle : TruthOracle) (gs : GameState) (me : TurnSide)
    : result HonestMove HonestMoveError :=
  if negb (is_in_progress (status gs)) then Ok NoMove else
  if decide (turn gs ≠ me) then Ok NoMove else
  match pending_midpoint gs with
  | None =>
      if is_single_step (range gs) then
        let? truth_high := ok_or (oracle (idx (high (range gs))))
                                 (TruthOracleMissed (idx (high (range gs)))) in
        Ok (HonestTerminate truth_high)
      else
        let mid_idx := midpoint_idx (range gs) in
        if decide (mid_idx ≤ idx (low (range gs)) ∨ idx (high (range gs)) ≤ mid_idx)
        then Ok NoMove else
        let? truth_mid := ok_or (oracle mid_idx) (TruthOracleMissed mid_idx) in
        Ok (Submit {| idx := mid_idx; commit := truth_mid |})
  | Some mp =>
      let? truth_mid := ok_or (oracle (idx mp)) (TruthOracleMissed (idx mp)) in
      if decide (commit mp = truth_mid) then Ok HonestAgree else Ok HonestDisagree
  end.

(** ** The memory oracle *)

Definition MemoryTruthOracle : Type := gmap LogIndex StateCommit.
Definition MemoryTruthOracle_new : MemoryTruthOracle := ∅.
Definition MemoryTruthOracle_insert (self : MemoryTruthOracle) (i : LogIndex) (c : StateCommit)
  : MemoryTruthOracle := <[i := c]> self.
Definition MemoryTruthOracle_commit_at (self : MemoryTruthOracle) : TruthOracle :=
  fun i => self !! i.

(** ** Plays *)

(** A sequence of transitions, each of them accepted. *)
Fixpoint play (gs : GameState) (ts : list GameTransition) : result GameState GameError :=
  match ts with
  | [] => Ok gs
  | t :: ts => let? gs' := apply_transition gs t in play gs' ts
  end.

(** The game as [initiateChallenge] opens it. *)
Record opened (gs : GameState) : Prop := {
  opened_low : 0 ≤ idx (low (range gs));
  opened_order : idx (low (range gs)) < idx (high (range gs));
  opened_high : idx (high (range gs)) < 2 ^ 64;
  opened_pending : pending_midpoint gs = None;
  opened_depth : depth gs = 0;
  opened_turn : turn gs = Sequencer;
  opened_status : status gs = InProgress;
}.

Definition bisects (t : GameTransition) : bool :=
  match t with SubmitMidpoint _ | RespondAgree | RespondDisagree => true | _ => false end.

(** The number of bisection moves a game has seen. *)
Definition moves (gs : GameState) : Z :=
  2 * depth gs + match pending_midpoint gs with Some _ => 1 | None => 0 end.

(** What holds throughout a game that was opened on a range of width [w]. *)
Record game_ok (w : Z) (gs : GameState) : Prop := {
  ok_low : 0 ≤ idx (low (range gs));
  ok_order : idx (low (range gs)) < idx (high (range gs));
  ok_high : idx (high (range gs)) < 2 ^ 64;
  ok_depth : 0 ≤ depth gs ≤ MAX_BISECTION_DEPTH;
  ok_narrow : 2 ^ depth gs * (idx (high (range gs)) - idx (low (range gs)) - 1) < w;
  ok_rounds : depth gs = 0 ∨ 2 ^ (depth gs - 1) < w;
  ok_pending mp : pending_midpoint gs = Some mp → idx mp = midpoint_idx (range gs);
  ok_split mp : pending_midpoint gs = Some mp →
    idx (low (range gs)) < idx mp < idx (high (range gs));
  ok_turn : turn gs = Sequencer ↔ pending_midpoint gs = None;
}.

(** ** The transitions on a proper game *)

Lemma midpoint_exact r :
  0 ≤ idx (low r) → idx (low r) < idx (high r) < 2 ^ 64 →
  midpoint_idx r = (idx (low r) + idx (high r)) / 2.
Proof. intros ? ?. unfold midpoint_idx. rewrite decide_True; [done|]. lia. Qed.

Lemma single_step_spec r :
  0 ≤ idx (low r) → idx (low r) < idx (high r) < 2 ^ 64 →
  is_single_step r = true ↔ idx (high r) = idx (low r) + 1.
Proof.
  intros ? ?. unfold is_single_step, saturating_add. rewrite bool_decide_eq_true. lia.
Qed.

Lemma in_progress_spec s : is_in_progress s = true ↔ s = InProgress.
Proof. by destruct s. Qed.

Lemma submit_Ok gs c gs' :
  apply_submit_midpoint gs c = Ok gs' ↔
  status gs = InProgress ∧ pending_midpoint gs = None ∧ depth gs < MAX_BISECTION_DEPTH ∧
  idx (low (range gs)) < midpoint_idx (range gs) < idx (high (range gs)) ∧
  gs' = with_pending gs {| idx := midpoint_idx (range gs); commit := c |}.
Proof.
  unfold apply_submit_midpoint.
  destruct (is_in_progress (status gs)) eqn:Hs; cbn; [apply in_progress_spec in Hs|].
  2: { split; [done|]. intros (H & _). by rewrite H in Hs. }
  rewrite !guard_Ok, <- eq_None_not_Some. split; [intros (? & ? & ? & [= <-])|].
  - split_and!; try done; lia.
  - intros (_ & ? & ? & ? & ->). split_and!; try done; lia.
Qed.

Lemma respond_Ok gs a gs' :
  apply_respond gs a = Ok gs' ↔
  status gs = InProgress ∧ depth gs < MAX_BISECTION_DEPTH ∧
  ∃ mp, pending_midpoint gs = Some mp ∧
    gs' = with_range gs (if a then {| low := mp; high := high (range gs) |}
                         else {| low := low (range gs); high := mp |}).
Proof.
  unfold apply_respond.
  destruct (is_in_progress (status gs)) eqn:Hs; cbn; [apply in_progress_spec in Hs|].
  2: { split; [done|]. intros (H & _). by rewrite H in Hs. }
  rewrite guard_Ok, result_bind_Ok. destruct (pending_midpoint gs) as [mp|]; cbn; split.
  - intros (? & ? & [= <-] & [= <-]). split_and!; [done|lia|]. by exists mp.
  - intros (_ & ? & ? & [= <-] & ->). split; [lia|]. by exists mp.
  - naive_solver.
  - naive_solver.
Qed.

Lemma terminate_Ok gs gs' :
  apply_terminate_on_single_step gs = Ok gs' ↔
  status gs = InProgress ∧ is_single_step (range gs) = true ∧ gs' = gs.
Proof.
  unfold apply_terminate_on_single_step.
  destruct (status gs), (is_single_step (range gs)); naive_solver.
Qed.

Lemma timeout_Ok gs gs' :
  apply_timeout gs = Ok gs' ↔
  status gs = InProgress ∧
  gs' = with_status gs (match turn gs with
                        | Sequencer => TimedOutSequencer | Challenger => TimedOutChallenger end).
Proof. unfold apply_timeout. destruct (status gs); naive_solver. Qed.

Section Machine.
Context (w : Z) (w_u64 : 1 ≤ w < 2 ^ 64).

Lemma opened_ok gs :
  opened gs → idx (high (range gs)) - idx (low (range gs)) = w → game_ok w gs.
Proof.
  intros [] Hw. split; try done; unfold MAX_BISECTION_DEPTH.
  - lia.
  - rewrite opened_depth0, Z.pow_0_r. lia.
  - by left.
  - congruence.
  - congruence.
Qed.

(** A round is played only above the cap's reach: a splittable range has not
    been halved [log2 w] times. *)
Lemma splittable_depth gs :
  game_ok w gs → idx (low (range gs)) + 1 < idx (high (range gs)) →
  2 ^ depth gs < w ∧ depth gs < MAX_BISECTION_DEPTH.
Proof.
  intros Hok Hwide. assert (Hpow : 2 ^ depth gs < w).
  { pose proof (ok_narrow w gs Hok). pose proof (Z.pow_nonneg 2 (depth gs)). nia. }
  split; [done|]. unfold MAX_BISECTION_DEPTH.
  apply (Z.pow_lt_mono_r_iff 2); [lia|lia|]. lia.
Qed.

Lemma pending_wide gs mp :
  game_ok w gs → pending_midpoint gs = Some mp →
  idx (low (range gs)) + 1 < idx (high (range gs)).
Proof. intros Hok Hmp. pose proof (ok_split w gs Hok mp Hmp). lia. Qed.

Lemma submit_preserves gs c gs' :
  game_ok w gs → apply_submit_midpoint gs c = Ok gs' → game_ok w gs'.
Proof.
  intros Hok (_ & Hnone & _ & Hmid & ->)%submit_Ok.
  destruct Hok as [? ? ? ? ? ? _ _ [_ Hturn]]. split; cbn; try done.
  - by intros ? [= <-].
  - by intros ? [= <-].
  - rewrite (Hturn Hnone). done.
Qed.

Lemma respond_preserves gs a gs' :
  game_ok w gs → apply_respond gs a = Ok gs' → game_ok w gs'.
Proof.
  intros Hok (_ & Hd & mp & Hmp & ->)%respond_Ok.
  pose proof (splittable_depth gs Hok (pending_wide gs mp Hok Hmp)) as [Hpow _].
  pose proof (ok_split w gs Hok mp Hmp). pose proof (ok_pending w gs Hok mp Hmp) as Hmid.
  destruct Hok as [Hlow Hord Hhigh Hdepth Hnar _ _ _ Hturn].
  rewrite midpoint_exact in Hmid by lia.
  assert (Hsat : saturating_add 32 (depth gs) 1 = depth gs + 1).
  { unfold saturating_add, MAX_BISECTION_DEPTH in *. lia. }
  pose proof (Z.pow_nonneg 2 (depth gs)).
  split; cbn; rewrite ?Hsat; [destruct a; cbn; lia..|lia| | |done|done|].
  - rewrite Z.pow_add_r by lia. destruct a; cbn; nia.
  - right. by replace (depth gs + 1 - 1) with (depth gs) by lia.
  - assert (turn gs = Challenger) as -> by (destruct (turn gs); naive_solver). done.
Qed.

Lemma apply_transition_preserves gs t gs' :
  game_ok w gs → apply_transition gs t = Ok gs' → game_ok w gs'.
Proof.
  intros Hok. destruct t; cbn.
  - by apply submit_preserves.
  - by apply respond_preserves.
  - by apply respond_preserves.
  - by intros (_ & _ & ->)%terminate_Ok.
  - intros (_ & ->)%timeout_Ok. by destruct Hok; split.
Qed.

Lemma play_preserves ts gs gs' : game_ok w gs → play gs ts = Ok gs' → game_ok w gs'.
Proof.
  revert gs. induction ts as [|t ts IH]; intros gs Hok; cbn; [by intros [= <-]|].
  intros (gs1 & Ht & Hts)%result_bind_Ok. eauto using apply_transition_preserves.
Qed.

(** Each bisection move counts once. *)
Lemma apply_transition_moves gs t gs' :
  game_ok w gs → apply_transition gs t = Ok gs' →
  moves gs' = moves gs + (if bisects t then 1 else 0).
Proof.
  intros Hok Ht. unfold moves. destruct t; cbn in Ht |- *.
  - apply submit_Ok in Ht as (_ & -> & _ & _ & ->). cbn. lia.
  - apply respond_Ok in Ht as (_ & ? & mp & -> & ->). cbn.
    destruct Hok. unfold saturating_add, MAX_BISECTION_DEPTH in *. lia.
  - apply respond_Ok in Ht as (_ & ? & mp & -> & ->). cbn.
    destruct Hok. unfold saturating_add, MAX_BISECTION_DEPTH in *. lia.
  - apply terminate_Ok in Ht as (_ & _ & ->). lia.
  - apply timeout_Ok in Ht as (_ & ->). cbn. lia.
Qed.

Lemma play_moves ts gs gs' :
  game_ok w gs → play gs ts = Ok gs' →
  moves gs' = moves gs + Z.of_nat (length (filter bisects ts)).
Proof.
  revert gs. induction ts as [|t ts IH]; intros gs Hok; cbn [play].
  { intros [= <-]. cbn. lia. }
  intros (gs1 & Ht & Hts)%result_bind_Ok.
  rewrite (IH gs1) by eauto using apply_transition_preserves.
  rewrite (apply_transition_moves gs t gs1) by done.
  rewrite filter_cons. case_decide as Hb; destruct (bisects t); try done; cbn [length]; lia.
Qed.

Lemma moves_bound gs : game_ok w gs → moves gs ≤ 2 * Z.log2_up w.
Proof.
  intros Hok. pose proof (ok_depth w gs Hok). pose proof (Z.log2_up_nonneg w).
  assert (Hlog : ∀ d, 0 ≤ d → 2 ^ d < w → d < Z.log2_up w).
  { intros d Hd Hlt. destruct (Z_lt_ge_dec d (Z.log2_up w)) as [|Hge]; [done|].
    apply Z.ge_le, Z.log2_up_le_pow2 in Hge; lia. }
  unfold moves. destruct (pending_midpoint gs) as [mp|] eqn:Hmp.
  - destruct (splittable_depth gs Hok (pending_wide gs mp Hok Hmp)) as [Hpow _].
    pose proof (Hlog (depth gs)). lia.
  - destruct (ok_rounds w gs Hok) as [Hz|Hpow]; [lia|].
    destruct (Z.eq_dec (depth gs) 0); [lia|]. pose proof (Hlog (depth gs - 1)). lia.
Qed.

(** The move that is due is accepted. *)
Lemma due_accepted gs :
  game_ok w gs → status gs = InProgress →
  match pending_midpoint gs with
  | Some _ => ∀ a, is_ok (apply_respond gs a) = true
  | None =>
      if is_single_step (range gs) then is_ok (apply_terminate_on_single_step gs) = true
      else ∀ c, is_ok (apply_submit_midpoint gs c) = true
  end.
Proof.
  intros Hok Hs. destruct (pending_midpoint gs) as [mp|] eqn:Hmp.
  - intros a. destruct (splittable_depth gs Hok (pending_wide gs mp Hok Hmp)) as [_ ?].
    erewrite (proj2 (respond_Ok gs a _)); [done|]. split_and!; try done. by exists mp.
  - destruct (is_single_step (range gs)) eqn:Hss.
    { by rewrite (proj2 (terminate_Ok gs gs)). }
    intros c. pose proof (ok_low w gs Hok). pose proof (ok_order w gs Hok).
    pose proof (ok_high w gs Hok).
    assert (idx (low (range gs)) + 1 < idx (high (range gs))).
    { pose proof (single_step_spec (range gs)) as Hiff. rewrite Hss in Hiff.
      destruct (Z.eq_dec (idx (high (range gs))) (idx (low (range gs)) + 1)); [|lia].
      assert (false = true); [|done]. apply Hiff; lia. }
    destruct (splittable_depth gs Hok) as [_ ?]; [done|].
    erewrite (proj2 (submit_Ok gs c _)); [done|].
    split_and!; try done; rewrite midpoint_exact by lia; lia.
Qed.
End Machine.

(** ** Progress and termination *)

Lemma opened_play_ok gs0 ts gs :
  opened gs0 → play gs0 ts = Ok gs → game_ok (width (range gs0)) gs.
Proof.
  intros Ho Hplay. pose proof (opened_low gs0 Ho). pose proof (opened_order gs0 Ho).
  pose proof (opened_high gs0 Ho).
  assert (Hw : width (range gs0) = idx (high (range gs0)) - idx (low (range gs0))).
  { unfold width, saturating_sub. lia. }
  eapply play_preserves; [|apply (opened_ok (width (range gs0)))|exact Hplay]; lia || done.
Qed.

Lemma opened_width gs0 : opened gs0 → 1 ≤ width (range gs0) < 2 ^ 64.
Proof. intros []. unfold width, saturating_sub. lia. Qed.

(** A game never gets stuck.  Whatever legal moves have been played on a
    game that was opened on any range of 64-bit indices, while it is in
    progress the move that is due is accepted: a response (either one) when a
    midpoint is pending, a termination when the range is one step, and a
    midpoint with any commit otherwise.  The depth cap of 64 refuses none of
    them. *)
Theorem game_progress gs0 ts gs :
  opened gs0 → play gs0 ts = Ok gs → status gs = InProgress →
  match pending_midpoint gs with
  | Some _ => ∀ a, is_ok (apply_respond gs a) = true
  | None =>
      if is_single_step (range gs) then is_ok (apply_terminate_on_single_step gs) = true
      else ∀ c, is_ok (apply_submit_midpoint gs c) = true
  end.
Proof.
  intros Ho Hplay Hs. apply (due_accepted (width (range gs0))); [|by eapply opened_play_ok|done].
  by apply opened_width.
Qed.

(** C31: the game halves the range and therefore ends.  In any play of accepted
    moves the bisection moves are at most two per halving, that is at most
    [2 * ceil(log2 w)] for an opening range of width [w], and never more than
    128; the range stays proper throughout, and after that many moves it is a
    single step, which only a termination or a timeout can follow. *)
Theorem game_terminates gs0 ts gs :
  opened gs0 → play gs0 ts = Ok gs →
  Z.of_nat (length (filter bisects ts)) ≤ 2 * Z.log2_up (width (range gs0)) ≤ 128 ∧
  0 ≤ idx (low (range gs)) < idx (high (range gs)) ∧ idx (high (range gs)) < 2 ^ 64 ∧
  (Z.of_nat (length (filter bisects ts)) = 2 * Z.log2_up (width (range gs0)) →
   is_single_step (range gs) = true).
Proof.
  intros Ho Hplay. pose proof (opened_play_ok gs0 ts gs Ho Hplay) as Hok.
  pose proof (opened_width gs0 Ho) as Hw. set (w := width (range gs0)) in *.
  assert (Hmoves : moves gs = Z.of_nat (length (filter bisects ts))).
  { rewrite (play_moves w Hw ts gs0 gs) by (done || apply (opened_play_ok gs0 [] gs0 Ho); done).
    unfold moves. rewrite (opened_depth gs0 Ho), (opened_pending gs0 Ho). lia. }
  pose proof (moves_bound w Hw gs Hok) as Hbound. rewrite <- Hmoves.
  assert (Z.log2_up w ≤ 64) by (apply Z.log2_up_le_pow2; lia).
  destruct Hok as [Hlow Hord Hhigh Hd Hnar _ _ _ _]. split_and!; try lia.
  intros Heq. apply single_step_spec; try lia.
  unfold moves in Heq. destruct (pending_midpoint gs); [lia|].
  assert (w ≤ 2 ^ depth gs) by (apply Z.log2_up_le_pow2; lia). nia.
Qed.

(** ** Honest play *)

(** What the strategy needs of the oracle in a state: the commits at the high
    end, the midpoint and the pending midpoint. *)
Definition informed (oracle : TruthOracle) (gs : GameState) : Prop :=
  is_Some (oracle (idx (high (range gs)))) ∧ is_Some (oracle (midpoint_idx (range gs))).

Lemma honest_move_ok oracle w gs :
  1 ≤ w < 2 ^ 64 → game_ok w gs → status gs = InProgress → informed oracle gs →
  ∃ mv t gs', compute_next_move oracle gs (turn gs) = Ok mv ∧ to_transition mv = Some t ∧
              apply_transition gs t = Ok gs'.
Proof.
  intros Hw Hok Hs [[ch Hch] [cm Hcm]]. pose proof (due_accepted w Hw gs Hok Hs) as Hdue.
  unfold compute_next_move. rewrite Hs. cbn [is_in_progress negb].
  rewrite decide_False by (intros Hne; done).
  assert (Hex : ∀ mv t, to_transition mv = Some t → is_ok (apply_transition gs t) = true →
    ∃ mv' t' gs', @Ok HonestMove HonestMoveError mv = Ok mv' ∧ to_transition mv' = Some t' ∧
                  apply_transition gs t' = Ok gs').
  { intros mv t Ht Hacc. destruct (apply_transition gs t) as [gs'|] eqn:Hgs'; [|done].
    by exists mv, t, gs'. }
  destruct (pending_midpoint gs) as [mp|] eqn:Hmp.
  - rewrite (ok_pending w gs Hok mp Hmp), Hcm. cbn.
    case_decide; (eapply Hex; [done|]); apply (Hdue _).
  - destruct (is_single_step (range gs)).
    + rewrite Hch. cbn. by eapply Hex.
    + rewrite decide_False.
      * rewrite Hcm. cbn. eapply Hex; [done|]. apply (Hdue cm).
      * specialize (Hdue cm).
        destruct (apply_submit_midpoint gs cm) as [gs'|] eqn:Hsub; [|done].
        apply submit_Ok in Hsub. lia.
Qed.

(** The strategy always has a legal move.  In any state a game can reach,
    when it is in progress and the oracle knows the commits at the high end and
    at the midpoint, the strategy of the party whose turn it is chooses a move,
    and the state machine accepts it. *)
Theorem honest_move_legal oracle gs0 ts gs :
  opened gs0 → play gs0 ts = Ok gs → status gs = InProgress → informed oracle gs →
  ∃ mv t gs', compute_next_move oracle gs (turn gs) = Ok mv ∧ to_transition mv = Some t ∧
              apply_transition gs t = Ok gs'.
Proof.
  intros Ho Hplay. apply (honest_move_ok oracle (width (range gs0))).
  - by apply opened_width.
  - by eapply opened_play_ok.
Qed.

(** One move of a game that [me] plays by the strategy and the opponent in any
    way: on its own turn the opponent makes any legal move or lets its time run
    out. *)
Inductive faces (oracle : TruthOracle) (me : TurnSide) (gs gs' : GameState) : Prop :=
| opponent_moves t : turn gs ≠ me → apply_transition gs t = Ok gs' → faces oracle me gs gs'
| honest_moves mv t :
    turn gs = me → compute_next_move oracle gs me = Ok mv → to_transition mv = Some t →
    apply_transition gs t = Ok gs' → faces oracle me gs gs'.

(** The high end as each side needs it: the sequencer defends a true commit,
    the challenger disputes a false one. *)
Definition high_end (truth : LogIndex → StateCommit) (me : TurnSide) (c : Claim) : Prop :=
  match me with
  | Sequencer => commit c = truth (idx c)
  | Challenger => commit c ≠ truth (idx c)
  end.

Record defended (truth : LogIndex → StateCommit) (me : TurnSide) (gs : GameState) : Prop := {
  defended_low : commit (low (range gs)) = truth (idx (low (range gs)));
  defended_high : high_end truth me (high (range gs));
  defended_pending mp : me = Sequencer → pending_midpoint gs = Some mp →
    commit mp = truth (idx mp);
  defended_status : status gs = InProgress ∨
    status gs = match me with Sequencer => TimedOutChallenger | Challenger => TimedOutSequencer end;
}.

Section Honest.
Context (oracle : TruthOracle) (truth : LogIndex → StateCommit).
Context (oracle_true : ∀ i c, oracle i = Some c → c = truth i).
Context (w : Z) (w_u64 : 1 ≤ w < 2 ^ 64).

Lemma pending_turn gs mp :
  game_ok w gs → pending_midpoint gs = Some mp → turn gs = Challenger.
Proof.
  intros Hok Hmp. pose proof (ok_turn w gs Hok). destruct (turn gs); [|done].
  naive_solver.
Qed.

Lemma opponent_defended me gs t gs' :
  game_ok w gs → defended truth me gs → turn gs ≠ me → apply_transition gs t = Ok gs' →
  defended truth me gs'.
Proof.
  intros Hok [Hlow Hhigh Hpend Hst] Hne Ht. destruct t; cbn in Ht.
  - apply submit_Ok in Ht as (Hs & Hnone & _ & _ & ->). split; cbn; try done.
    intros ? -> _. by apply (proj2 (ok_turn w gs Hok)) in Hnone.
  - apply respond_Ok in Ht as (_ & _ & mp & Hmp & ->).
    pose proof (pending_turn gs mp Hok Hmp). destruct me; [|done].
    split; cbn; try done. by apply Hpend.
  - apply respond_Ok in Ht as (_ & _ & mp & Hmp & ->).
    pose proof (pending_turn gs mp Hok Hmp). destruct me; [|done].
    split; cbn; try done. by apply Hpend.
  - apply terminate_Ok in Ht as (_ & _ & ->). by split.
  - apply timeout_Ok in Ht as (_ & ->). split; cbn; try done.
    right. by destruct me, (turn gs).
Qed.

Lemma honest_defended me gs mv t gs' :
  game_ok w gs → defended truth me gs → turn gs = me →
  compute_next_move oracle gs me = Ok mv → to_transition mv = Some t →
  apply_transition gs t = Ok gs' → defended truth me gs'.
Proof.
  intros Hok [Hlow Hhigh Hpend Hst] Hme Hmv Ht Hgs'. unfold compute_next_move in Hmv.
  destruct (is_in_progress (status gs)) eqn:Hs; cbn in Hmv; [|by simplify_eq].
  rewrite decide_False in Hmv by (by intros []). apply in_progress_spec in Hs.
  destruct (pending_midpoint gs) as [mp|] eqn:Hmp.
  - pose proof (pending_turn gs mp Hok Hmp) as Hturn. subst me.
    apply result_bind_Ok in Hmv as (c & Hc & Hmv).
    destruct (oracle (idx mp)) as [c'|] eqn:Hor; cbn in Hc; simplify_eq.
    apply oracle_true in Hor. rewrite Hturn in *.
    case_decide as Hag; simplify_eq; cbn in Ht; simplify_eq;
      apply respond_Ok in Hgs' as (_ & _ & mp' & Hmp' & ->); simplify_eq;
      split; cbn; try done; try (by left); congruence.
  - destruct (is_single_step (range gs)).
    + apply result_bind_Ok in Hmv as (c & _ & [= <-]). cbn in Ht. simplify_eq.
      apply terminate_Ok in Hgs' as (_ & _ & ->). split; try done. intros mp. by rewrite Hmp.
    + case_decide; [by simplify_eq|]. apply result_bind_Ok in Hmv as (c & Hc & [= <-]).
      destruct (oracle _) as [c'|] eqn:Hor; cbn in Hc; simplify_eq. cbn in Ht. simplify_eq.
      apply submit_Ok in Hgs' as (_ & _ & _ & _ & ->). split; cbn; try done.
      intros mp _ [= <-]. cbn. eauto.
Qed.

Lemma faces_ok me gs gs' : game_ok w gs → faces oracle me gs gs' → game_ok w gs'.
Proof. intros Hok []; eapply apply_transition_preserves; eauto. Qed.

Lemma faces_defended me gs gs' :
  game_ok w gs → defended truth me gs → faces oracle me gs gs' → defended truth me gs'.
Proof. intros Hok Hd []; eauto using opponent_defended, honest_defended. Qed.

Lemma faces_rtc me gs gs' :
  rtc (faces oracle me) gs gs' → game_ok w gs → defended truth me gs →
  game_ok w gs' ∧ defended truth me gs'.
Proof. induction 1; eauto using faces_ok, faces_defended. Qed.
End Honest.

(** C30: the strategy is sound for both sides.  Let the oracle answer only true
    commits, and let the game open on a true low end and, for the side that
    plays the strategy, the high end it claims: true for the sequencer, false
    for the challenger.  Then against every opponent, in every state of the
    game, the low end is true and the high end is as claimed, and the game is
    in progress or was lost by the opponent's timeout.  When the range is down
    to one step that has the true post-commit [step], that step reproduces the
    high end exactly when the honest side is the sequencer, and it is the
    sequencer's turn to run it. *)
Theorem honest_strategy_sound oracle truth me gs0 gs :
  (∀ i c, oracle i = Some c → c = truth i) →
  opened gs0 →
  commit (low (range gs0)) = truth (idx (low (range gs0))) →
  high_end truth me (high (range gs0)) →
  rtc (faces oracle me) gs0 gs →
  defended truth me gs ∧
  (is_single_step (range gs) = true →
   turn gs = Sequencer ∧
   ∀ step : LogIndex → StateCommit → StateCommit,
     step (idx (low (range gs))) (truth (idx (low (range gs)))) =
       truth (idx (low (range gs)) + 1) →
     (step (idx (low (range gs))) (commit (low (range gs))) = commit (high (range gs)) ↔
      me = Sequencer)).
Proof.
  intros Htrue Ho Hlow Hhigh Hsteps. pose proof (opened_width gs0 Ho) as Hw.
  destruct (faces_rtc oracle truth Htrue _ Hw me gs0 gs Hsteps) as [Hok Hd].
  { by apply (opened_play_ok gs0 []). }
  { split; try done; [|left; apply Ho]. intros mp _. by rewrite (opened_pending gs0 Ho). }
  split; [done|]. intros Hss. pose proof (ok_low _ gs Hok). pose proof (ok_order _ gs Hok).
  pose proof (ok_high _ gs Hok). apply single_step_spec in Hss; [|lia..]. split.
  { apply (ok_turn _ gs Hok). destruct (pending_midpoint gs) as [mp|] eqn:Hmp; [|done].
    pose proof (ok_split _ gs Hok mp Hmp). lia. }
  intros step Hstep. rewrite (defended_low truth me gs Hd), Hstep, <- Hss.
  destruct me; pose proof (defended_high truth _ gs Hd) as Hh; cbn in Hh; naive_solver.
Qed.

(** ** A concrete game *)

Definition demo_truth (i : LogIndex) : StateCommit := replicate 32 (byte_of (i + 1)).

Definition demo_oracle : TruthOracle := fun i => Some (demo_truth i).

Definition demo_game (high_commit : StateCommit) : GameState :=
  {| sequencer := 2; challenger := 9;
     range := {| low := {| idx := 3; commit := demo_truth 3 |};
                 high := {| idx := 8; commit := high_commit |} |};
     pending_midpoint := None; depth := 0; turn := Sequencer;
     sequencer_bond := 100; challenger_bond := 50; status := InProgress;
     deployment_id := replicate 32 (byte_of 1); actions_root := replicate 32 (byte_of 0) |}.

Lemma demo_opened c : opened (demo_game c).
Proof. by split. Qed.

Definition demo_moves : list GameTransition :=
  [SubmitMidpoint (demo_truth 5); RespondAgree; SubmitMidpoint (demo_truth 6)].

Definition demo_reached : GameState :=
  match play (demo_game (demo_truth 0)) demo_moves with Ok gs => gs | Err _ => demo_game [] end.

Lemma game_progress_witness : is_ok (apply_respond demo_reached false) = true.
Proof.
  apply (game_progress (demo_game (demo_truth 0)) demo_moves demo_reached).
  - apply demo_opened.
  - reflexivity.
  - reflexivity.
Defined.

Lemma game_terminates_witness :
  Z.of_nat (length (filter bisects demo_moves)) ≤ 2 * Z.log2_up 5 ≤ 128.
Proof.
  apply (game_terminates (demo_game (demo_truth 0)) demo_moves demo_reached).
  - apply demo_opened.
  - reflexivity.
Defined.

Lemma honest_move_legal_witness :
  ∃ mv t gs', compute_next_move demo_oracle demo_reached Challenger = Ok mv ∧
              to_transition mv = Some t ∧ apply_transition demo_reached t = Ok gs'.
Proof.
  apply (honest_move_legal demo_oracle (demo_game (demo_truth 0)) demo_moves demo_reached).
  - apply demo_opened.
  - reflexivity.
  - reflexivity.
  - split; eexists; reflexivity.
Defined.

Lemma honest_strategy_sound_witness :
  ∃ gs, play (demo_game (demo_truth 0)) [SubmitMidpoint (demo_truth 0); RespondDisagree] = Ok gs ∧
        defended demo_truth Challenger gs.
Proof.
  eexists. split; [reflexivity|].
  eapply (honest_strategy_sound demo_oracle demo_truth Challenger (demo_game (demo_truth 0))).
  - by intros i c [= <-].
  - apply demo_opened.
  - reflexivity.
  - cbn. discriminate.
  - eapply rtc_l; [|eapply rtc_l; [|apply rtc_refl]].
    + apply (opponent_moves _ _ _ _ (SubmitMidpoint (demo_truth 0))); [discriminate|reflexivity].
    + eapply honest_moves; reflexivity.
Defined.
