(* ===== verification/Evm.v ===== *)
(** * Contract calls

    What the Solidity contracts under [src/solidity] use of the language: the
    transaction environment, checked arithmetic at the width of the type,
    narrowing casts, storage mappings (total, zero by default) and reverts.  A
    call that reverts leaves no effect, so a contract function is a function
    from a storage to the new storage and result, or a revert. *)

From Stdlib Require Import ZArith Lia.
From stdpp Require Import base numbers list gmap.
From S2P Require Import Prelude.

Local Open Scope Z_scope.

Abbreviation address := Z.
Abbreviation bytes32 := (list u8).

(** [bytes32(0)]. *)
Definition zero32 : bytes32 := replicate 32 (byte_of 0).

(** [msg.sender], [msg.value], [block.number], and whether an address accepts
    a transfer of an amount (the success flag of [addr.call{value: v}("")]). *)
Record Tx : Type := {
  msg_sender : address;
  msg_value : Z;
  block_number : Z;
  accepts : address → Z → bool;
}.

(** A revert carries the contract's error, or is a panic of the checked
    arithmetic. *)
Inductive revert (E : Type) : Type :=
| Revert (e : E)
| Panic.
Arguments Revert {E} e.
Arguments Panic {E}.

Definition reverts {A E} (e : E) : result A (revert E) := Err (Revert e).

(** [a + b] and [a * b] at an unsigned width, [a - b]. *)
Definition add_at {E} (w a b : Z) : result Z (revert E) := ok_or (checked_add w a b) Panic.
Definition mul_at {E} (w a b : Z) : result Z (revert E) := ok_or (checked_mul w a b) Panic.
Definition sub_at {E} (a b : Z) : result Z (revert E) := ok_or (checked_sub a b) Panic.

(** [uint64(x)], [uint128(x)]. *)
Definition uint64 (x : Z) : Z := x mod 2 ^ 64.
Definition uint128 (x : Z) : Z := x mod 2 ^ 128.

Arguments uint64 : simpl never.
Arguments uint128 : simpl never.

Lemma add_at_Ok {E} w a b (c : Z) :
  add_at (E := E) w a b = Ok c ↔ c = a + b ∧ a + b < 2 ^ w.
Proof.
  unfold add_at. pose proof (checked_add_Some w a b) as Hadd.
  destruct (checked_add w a b) as [d|]; cbn; split.
  - intros [= <-]. by apply Hadd.
  - intros Hc. f_equal. apply Hadd in Hc. congruence.
  - done.
  - intros Hc. apply Hadd in Hc. congruence.
Qed.

Lemma add_at_fits {E} w a b : a + b < 2 ^ w → add_at (E := E) w a b = Ok (a + b).
Proof. intros. by apply add_at_Ok. Qed.

Lemma mul_at_Ok {E} w a b (c : Z) :
  mul_at (E := E) w a b = Ok c ↔ c = a * b ∧ a * b < 2 ^ w.
Proof.
  unfold mul_at. pose proof (checked_mul_Some w a b) as Hmul.
  destruct (checked_mul w a b) as [d|]; cbn; split.
  - intros [= <-]. by apply Hmul.
  - intros Hc. f_equal. apply Hmul in Hc. congruence.
  - done.
  - intros Hc. apply Hmul in Hc. congruence.
Qed.

Lemma sub_at_Ok {E} a b (c : Z) : sub_at (E := E) a b = Ok c ↔ c = a - b ∧ b ≤ a.
Proof.
  unfold sub_at. pose proof (checked_sub_Some a b) as Hsub.
  destruct (checked_sub a b) as [d|]; cbn; split.
  - intros [= <-]. by apply Hsub.
  - intros Hc. f_equal. apply Hsub in Hc. congruence.
  - done.
  - intros Hc. apply Hsub in Hc. congruence.
Qed.

Lemma uint64_id x : in_u64 x → uint64 x = x.
Proof. intros Hx. apply Z.mod_small. exact Hx. Qed.

Lemma uint64_in x : in_u64 (uint64 x).
Proof. apply Z.mod_pos_bound. lia. Qed.

Lemma uint128_id x : in_u128 x → uint128 x = x.
Proof. intros Hx. apply Z.mod_small. exact Hx. Qed.

(** A conditional revert. *)
Lemma require_Ok {A E} (P : Prop) `{Decision P} (e : E) (k : result A (revert E)) a :
  (if decide P then reverts e else k) = Ok a ↔ ¬ P ∧ k = Ok a.
Proof. apply guard_Ok. Qed.

Lemma require_bool_Ok {A E} (b : bool) (e : E) (k : result A (revert E)) a :
  (if b then reverts e else k) = Ok a ↔ b = false ∧ k = Ok a.
Proof. destruct b; cbn; naive_solver. Qed.

(** ** Storage mappings *)

Definition get {V} (zero : V) (m : gmap Z V) (k : Z) : V := default zero (m !! k).

Lemma get_insert {V} (zero : V) m k v : get zero (<[k := v]> m) k = v.
Proof. unfold get. by rewrite lookup_insert_eq. Qed.

Lemma get_insert_ne {V} (zero : V) m k k' v :
  k ≠ k' → get zero (<[k := v]> m) k' = get zero m k'.
Proof. intros. unfold get. by rewrite lookup_insert_ne. Qed.

#[export] Hint Rewrite @get_insert : knomosis.

(** The sum of a measure over a mapping. *)
Definition map_sum {V} (f : V → Z) (m : gmap Z V) : Z :=
  map_fold (fun _ v acc => f v + acc) 0 m.

Lemma map_sum_empty {V} (f : V → Z) : map_sum f ∅ = 0.
Proof. apply map_fold_empty. Qed.

Lemma map_sum_insert_fresh {V} (f : V → Z) m k v :
  m !! k = None → map_sum f (<[k := v]> m) = f v + map_sum f m.
Proof.
  intros Hk. unfold map_sum. rewrite map_fold_insert_L; [done| |done].
  intros. lia.
Qed.

(** Writing a slot changes the sum by the change of the slot. *)
Lemma map_sum_insert {V} (f : V → Z) (zero : V) m k v :
  f zero = 0 → map_sum f (<[k := v]> m) = map_sum f m - f (get zero m k) + f v.
Proof.
  intros Hz. unfold get. destruct (m !! k) as [u|] eqn:Hk; cbn.
  - rewrite <- (insert_delete_eq m k v).
    rewrite map_sum_insert_fresh by apply lookup_delete_eq.
    rewrite <- (insert_delete_id m k u) at 2 by done.
    rewrite map_sum_insert_fresh by apply lookup_delete_eq. lia.
  - rewrite map_sum_insert_fresh by done. lia.
Qed.

Lemma map_sum_nonneg {V} (f : V → Z) m :
  (∀ k v, m !! k = Some v → 0 ≤ f v) → 0 ≤ map_sum f m.
Proof.
  induction m as [|k v m Hk IH] using map_ind; intros Hf.
  { by rewrite map_sum_empty. }
  rewrite map_sum_insert_fresh by done.
  assert (0 ≤ f v) by (apply (Hf k); apply lookup_insert_eq).
  assert (0 ≤ map_sum f m); [|lia].
  apply IH. intros k' v' Hk'. apply (Hf k'). rewrite lookup_insert_ne; [done|]. congruence.
Qed.

Lemma map_sum_ge {V} (f : V → Z) (zero : V) m k :
  f zero = 0 → (∀ k v, m !! k = Some v → 0 ≤ f v) → f (get zero m k) ≤ map_sum f m.
Proof.
  intros Hz Hf. unfold get. destruct (m !! k) as [u|] eqn:Hk; cbn.
  - rewrite <- (insert_delete_id m k u) by done.
    rewrite map_sum_insert_fresh by apply lookup_delete_eq.
    pose proof (map_sum_nonneg f (delete k m)) as Hn.
    assert (0 ≤ map_sum f (delete k m)); [|lia].
    apply Hn. intros k' v' Hk'%lookup_delete_Some. naive_solver.
  - rewrite Hz. by apply map_sum_nonneg.
Qed.

Definition zsum (l : list Z) : Z := foldr Z.add 0 l.

Lemma zsum_app l k : zsum (l ++ k) = zsum l + zsum k.
Proof. induction l as [|x l IH]; cbn; [done|]. change (foldr Z.add 0) with zsum. lia. Qed.
