(* ===== verification/StateRoot.v ===== *)
(** * The state-root registry

    [KnomosisStateRootSubmission.sol] with the chain hash of [LogChain.sol] and
    the genesis seed of [ActionsRoot.sol]: the batches a sequencer submits under
    a bond, their finalisation, the locking, slashing and reverting of disputed
    ones by the fault-proof game, and the return of reverted bonds.  [keccak256]
    is a parameter.

    The theorems: the ether the registry holds is exactly the sum of the bonds
    it owes, and every bond leaves once; as long as only batches of the
    canonical chain are reverted, that chain is linked by its hashes down to the
    genesis record and reaches it; and two executions in which it is not what
    the contract's comments say: a batch that repairs the chain after a revert
    reads as reverted after the next revert, and a revert of a stale batch puts
    the tip of the chain back on a batch that lost its game. *)

From Stdlib Require Import ZArith Lia.
From stdpp Require Import base numbers list gmap.
From S2P Require Import Prelude Evm.

Local Open Scope Z_scope.

(** ** Storage *)

Record SubmittedRoot : Type := {
  root_sequencer : address;
  stateCommit : bytes32;
  prevLogEntryHash : bytes32;
  expectedNextHash : bytes32;
  bond : Z;
  submittedAtBlock : Z;
  finalised : bool;
  disputed : bool;
  prevEndIndex : Z;
  actionsRoot : bytes32;
}.

(** A slot that was never written. *)
Definition no_root : SubmittedRoot :=
  {| root_sequencer := 0; stateCommit := zero32; prevLogEntryHash := zero32;
     expectedNextHash := zero32; bond := 0; submittedAtBlock := 0; finalised := false;
     disputed := false; prevEndIndex := 0; actionsRoot := zero32 |}.

(** The immutables. *)
Record Params : Type := {
  STATE_ROOT_SUBMISSION_BOND : Z;
  FAULT_PROOF_DISPUTE_WINDOW : Z;
  MIN_SUBMISSION_INTERVAL_BLOCKS : Z;
  MAX_OUTSTANDING_ROOTS_PER_SEQUENCER : Z;
  sequencer : address;
  faultProofGame : address;
  submissionBreaker : address;
  deploymentId : bytes32;
  MAX_ACTIONS_PER_BATCH : Z;
}.

Record Registry : Type := {
  roots : gmap Z SubmittedRoot;
  canonicalTip : Z;
  lastRevertAtBlock : Z;
  lastSubmissionBlock : gmap Z Z;
  outstandingRootsCount : gmap Z Z;
  lowestRevertedLogIndex : Z;
  highestRevertedLogIndex : Z;
  latestSubmittedLogIndex : Z;
  submissionsHalted : bool;
  balance : Z;
}.

Definition NO_REVERTED_FLOOR : Z := u64_max.

Inductive RegistryError : Type :=
| NotSequencer | NotFaultProofGame | SubmissionTooFrequent | TooManyOutstandingRoots
| AlreadyClaimed | InvalidBond | RootMissing | AlreadyDisputed | AlreadySlashed
| BondAlreadyZero | SlashTransferFailed | NotYetFinalisable | AlreadyFinalised
| DisputeInProgress | ZeroAddress | WindowTooShort | NotCanonicalTip | EmptyBatch
| BatchTooLarge | BondNotReclaimed | RootReverted | ZeroGenesisCommit
| SequencerIsFaultProofGame | BreakerIsSequencer | SubmissionsAreHalted
| NotSubmissionBreaker | HaltStateUnchanged | BondReleaseFailed.

Abbreviation call A := (result A (revert RegistryError)).

Definition root_at (st : Registry) (i : Z) : SubmittedRoot := get no_root (roots st) i.

(** ** Field updates *)

Definition set_root (st : Registry) (i : Z) (r : SubmittedRoot) : Registry :=
  {| roots := <[i := r]> (roots st); canonicalTip := canonicalTip st;
     lastRevertAtBlock := lastRevertAtBlock st; lastSubmissionBlock := lastSubmissionBlock st;
     outstandingRootsCount := outstandingRootsCount st;
     lowestRevertedLogIndex := lowestRevertedLogIndex st;
     highestRevertedLogIndex := highestRevertedLogIndex st;
     latestSubmittedLogIndex := latestSubmittedLogIndex st;
     submissionsHalted := submissionsHalted st; balance := balance st |}.

Definition set_halted (st : Registry) (b : bool) : Registry :=
  {| roots := roots st; canonicalTip := canonicalTip st;
     lastRevertAtBlock := lastRevertAtBlock st; lastSubmissionBlock := lastSubmissionBlock st;
     outstandingRootsCount := outstandingRootsCount st;
     lowestRevertedLogIndex := lowestRevertedLogIndex st;
     highestRevertedLogIndex := highestRevertedLogIndex st;
     latestSubmittedLogIndex := latestSubmittedLogIndex st;
     submissionsHalted := b; balance := balance st |}.

(** [r.disputed = b]; [r.bond = 0], with [r.finalised] as given. *)
Definition set_disputed (r : SubmittedRoot) (b : bool) : SubmittedRoot :=
  {| root_sequencer := root_sequencer r; stateCommit := stateCommit r;
     prevLogEntryHash := prevLogEntryHash r; expectedNextHash := expectedNextHash r;
     bond := bond r; submittedAtBlock := submittedAtBlock r; finalised := finalised r;
     disputed := b; prevEndIndex := prevEndIndex r; actionsRoot := actionsRoot r |}.

Definition without_bond (r : SubmittedRoot) (fin : bool) : SubmittedRoot :=
  {| root_sequencer := root_sequencer r; stateCommit := stateCommit r;
     prevLogEntryHash := prevLogEntryHash r; expectedNextHash := expectedNextHash r;
     bond := 0; submittedAtBlock := submittedAtBlock r; finalised := fin;
     disputed := disputed r; prevEndIndex := prevEndIndex r; actionsRoot := actionsRoot r |}.

(** The effects a bond leaves with: the record without it, the count of its
    sequencer lowered when it is positive, and the balance less the amount. *)
Definition bond_out (st : Registry) (i : Z) (fin : bool) : Registry :=
  let r := root_at st i in
  let count := get 0 (outstandingRootsCount st) (root_sequencer r) in
  {| roots := <[i := without_bond r fin]> (roots st);
     canonicalTip := canonicalTip st;
     lastRevertAtBlock := lastRevertAtBlock st; lastSubmissionBlock := lastSubmissionBlock st;
     outstandingRootsCount :=
       if decide (0 < count) then <[root_sequencer r := count - 1]> (outstandingRootsCount st)
       else outstandingRootsCount st;
     lowestRevertedLogIndex := lowestRevertedLogIndex st;
     highestRevertedLogIndex := highestRevertedLogIndex st;
     latestSubmittedLogIndex := latestSubmittedLogIndex st;
     submissionsHalted := submissionsHalted st;
     balance := balance st - bond r |}.

(** ** The contract *)

Section Contract.
Context (keccak256 : list u8 → bytes32) (params : Params).

(** [LogChain.nextEntryHash]: the three words in [abi.encode]. *)
Definition nextEntryHash (prev commit actions : bytes32) : bytes32 :=
  keccak256 (prev ++ commit ++ actions).

(** [ActionsRoot.genesisChainSeed]. *)
Definition genesisChainSeed (genesisStateCommit : bytes32) : bytes32 :=
  nextEntryHash zero32 genesisStateCommit zero32.

Definition isRecordReverted (st : Registry) (logIndex : Z) : bool :=
  bool_decide (lowestRevertedLogIndex st ≤ logIndex) &&
  bool_decide (logIndex ≤ highestRevertedLogIndex st) &&
  bool_decide (submittedAtBlock (root_at st logIndex) ≤ lastRevertAtBlock st).

(** The constructor; [params] are the immutables it sets. *)
Definition constructor (tx : Tx) (withdrawalFinalisationWindow : Z) (genesisStateCommit : bytes32)
    : call Registry :=
  if decide (sequencer params = 0) then reverts ZeroAddress else
  if decide (faultProofGame params = 0) then reverts ZeroAddress else
  if decide (submissionBreaker params = 0) then reverts ZeroAddress else
  if decide (submissionBreaker params = sequencer params) then reverts BreakerIsSequencer else
  if decide (sequencer params = faultProofGame params) then reverts SequencerIsFaultProofGame else
  if decide (STATE_ROOT_SUBMISSION_BOND params = 0) then reverts InvalidBond else
  if decide (FAULT_PROOF_DISPUTE_WINDOW params = 0) then reverts WindowTooShort else
  if decide (FAULT_PROOF_DISPUTE_WINDOW params < withdrawalFinalisationWindow)
  then reverts WindowTooShort else
  if decide (MIN_SUBMISSION_INTERVAL_BLOCKS params = 0) then reverts SubmissionTooFrequent else
  if decide (MAX_OUTSTANDING_ROOTS_PER_SEQUENCER params = 0)
  then reverts TooManyOutstandingRoots else
  if decide (genesisStateCommit = zero32) then reverts ZeroGenesisCommit else
  if decide (MAX_ACTIONS_PER_BATCH params = 0) then reverts BatchTooLarge else
  Ok {| roots := {[ 0 := {| root_sequencer := 0; stateCommit := genesisStateCommit;
                            prevLogEntryHash := zero32;
                            expectedNextHash := genesisChainSeed genesisStateCommit;
                            bond := 0; submittedAtBlock := uint64 (block_number tx);
                            finalised := true; disputed := false; prevEndIndex := 0;
                            actionsRoot := zero32 |} ]};
        canonicalTip := 0; lastRevertAtBlock := 0; lastSubmissionBlock := ∅;
        outstandingRootsCount := ∅; lowestRevertedLogIndex := NO_REVERTED_FLOOR;
        highestRevertedLogIndex := 0; latestSubmittedLogIndex := 0;
        submissionsHalted := false; balance := 0 |}.

Definition submitStateRoot (st : Registry) (tx : Tx) (endIndex prevEnd : Z)
    (commit actions : bytes32) : call Registry :=
  let sender := msg_sender tx in
  if submissionsHalted st then reverts SubmissionsAreHalted else
  if decide (sender ≠ sequencer params) then reverts NotSequencer else
  if decide (msg_value tx ≠ STATE_ROOT_SUBMISSION_BOND params) then reverts InvalidBond else
  if decide (endIndex ≤ prevEnd) then reverts EmptyBatch else
  if decide (MAX_ACTIONS_PER_BATCH params < endIndex - prevEnd) then reverts BatchTooLarge else
  if decide (prevEnd ≠ canonicalTip st) then reverts NotCanonicalTip else
  let existing := root_at st endIndex in
  if decide (submittedAtBlock existing ≠ 0 ∧ isRecordReverted st endIndex = false)
  then reverts AlreadyClaimed else
  if decide (submittedAtBlock existing ≠ 0 ∧ bond existing ≠ 0) then reverts BondNotReclaimed else
  let? next_block := add_at 64 (get 0 (lastSubmissionBlock st) sender)
                               (MIN_SUBMISSION_INTERVAL_BLOCKS params) in
  if decide (block_number tx < next_block) then reverts SubmissionTooFrequent else
  if decide (MAX_OUTSTANDING_ROOTS_PER_SEQUENCER params ≤ get 0 (outstandingRootsCount st) sender)
  then reverts TooManyOutstandingRoots else
  let prevHash := expectedNextHash (root_at st prevEnd) in
  let? count := add_at 64 (get 0 (outstandingRootsCount st) sender) 1 in
  Ok {| roots := <[endIndex :=
                   {| root_sequencer := sender; stateCommit := commit;
                      prevLogEntryHash := prevHash;
                      expectedNextHash := nextEntryHash prevHash commit actions;
                      bond := uint128 (msg_value tx);
                      submittedAtBlock := uint64 (block_number tx);
                      finalised := false; disputed := false; prevEndIndex := prevEnd;
                      actionsRoot := actions |}]> (roots st);
        canonicalTip := endIndex; lastRevertAtBlock := lastRevertAtBlock st;
        lastSubmissionBlock := <[sender := uint64 (block_number tx)]> (lastSubmissionBlock st);
        outstandingRootsCount := <[sender := count]> (outstandingRootsCount st);
        lowestRevertedLogIndex := lowestRevertedLogIndex st;
        highestRevertedLogIndex := highestRevertedLogIndex st;
        latestSubmittedLogIndex :=
          if decide (latestSubmittedLogIndex st < endIndex) then endIndex
          else latestSubmittedLogIndex st;
        submissionsHalted := submissionsHalted st;
        balance := balance st + msg_value tx |}.

(** The functions that pay return who was paid and how much. *)
Definition finaliseStateRoot (st : Registry) (tx : Tx) (logIndex : Z)
    : call (Registry * option (address * Z)) :=
  let r := root_at st logIndex in
  if decide (submittedAtBlock r = 0) then reverts RootMissing else
  if isRecordReverted st logIndex then reverts RootReverted else
  if finalised r then reverts AlreadyFinalised else
  if disputed r then reverts DisputeInProgress else
  let? open_at := add_at 64 (submittedAtBlock r) (FAULT_PROOF_DISPUTE_WINDOW params) in
  if decide (block_number tx < open_at) then reverts NotYetFinalisable else
  let amount := bond r in
  let st' := bond_out st logIndex true in
  if decide (0 < amount) then
    if accepts tx (root_sequencer r) amount then Ok (st', Some (root_sequencer r, amount))
    else reverts BondReleaseFailed
  else Ok (st', None).

Definition markDisputed (st : Registry) (tx : Tx) (logIndex : Z) : call Registry :=
  if decide (msg_sender tx ≠ faultProofGame params) then reverts NotFaultProofGame else
  let r := root_at st logIndex in
  if decide (submittedAtBlock r = 0) then reverts RootMissing else
  if isRecordReverted st logIndex then reverts RootReverted else
  if finalised r then reverts AlreadyFinalised else
  if disputed r then reverts AlreadyDisputed else
  Ok (set_root st logIndex (set_disputed r true)).

Definition clearDisputed (st : Registry) (tx : Tx) (logIndex : Z) : call Registry :=
  if decide (msg_sender tx ≠ faultProofGame params) then reverts NotFaultProofGame else
  let r := root_at st logIndex in
  if decide (submittedAtBlock r = 0) then reverts RootMissing else
  Ok (set_root st logIndex (set_disputed r false)).

Definition slashSequencerBond (st : Registry) (tx : Tx) (logIndex : Z) (recipient : address)
    : call (Registry * option (address * Z)) :=
  if decide (msg_sender tx ≠ faultProofGame params) then reverts NotFaultProofGame else
  if decide (recipient = 0) then reverts NotSequencer else
  let r := root_at st logIndex in
  if decide (submittedAtBlock r = 0) then reverts RootMissing else
  if finalised r then reverts AlreadyFinalised else
  if decide (bond r = 0) then reverts BondAlreadyZero else
  let amount := bond r in
  if accepts tx recipient amount
  then Ok (bond_out st logIndex (finalised r), Some (recipient, amount))
  else reverts SlashTransferFailed.

Definition haltSubmissions (st : Registry) (tx : Tx) : call Registry :=
  if decide (msg_sender tx ≠ submissionBreaker params) then reverts NotSubmissionBreaker else
  if submissionsHalted st then reverts HaltStateUnchanged else
  Ok (set_halted st true).

Definition resumeSubmissions (st : Registry) (tx : Tx) : call Registry :=
  if decide (msg_sender tx ≠ submissionBreaker params) then reverts NotSubmissionBreaker else
  if negb (submissionsHalted st) then reverts HaltStateUnchanged else
  Ok (set_halted st false).

Definition revertStateRootsFrom (st : Registry) (tx : Tx) (fromIdx : Z) : call Registry :=
  if decide (msg_sender tx ≠ faultProofGame params) then reverts NotFaultProofGame else
  let ceiling :=
    if decide (latestSubmittedLogIndex st < fromIdx) then fromIdx
    else latestSubmittedLogIndex st in
  let recoveredTip := prevEndIndex (root_at st fromIdx) in
  Ok {| roots := roots st;
        canonicalTip :=
          if decide (recoveredTip < canonicalTip st) then recoveredTip else canonicalTip st;
        lastRevertAtBlock := uint64 (block_number tx);
        lastSubmissionBlock := lastSubmissionBlock st;
        outstandingRootsCount := outstandingRootsCount st;
        lowestRevertedLogIndex :=
          if decide (fromIdx < lowestRevertedLogIndex st) then fromIdx
          else lowestRevertedLogIndex st;
        highestRevertedLogIndex :=
          if decide (highestRevertedLogIndex st < ceiling) then ceiling
          else highestRevertedLogIndex st;
        latestSubmittedLogIndex := latestSubmittedLogIndex st;
        submissionsHalted := submissionsHalted st; balance := balance st |}.

Definition reclaimRevertedBond (st : Registry) (tx : Tx) (logIndex : Z)
    : call (Registry * option (address * Z)) :=
  let r := root_at st logIndex in
  if decide (submittedAtBlock r = 0) then reverts RootMissing else
  if negb (isRecordReverted st logIndex) then reverts RootMissing else
  if finalised r then reverts AlreadyFinalised else
  if disputed r then reverts DisputeInProgress else
  if decide (bond r = 0) then reverts BondAlreadyZero else
  let amount := bond r in
  if accepts tx (root_sequencer r) amount
  then Ok (bond_out st logIndex (finalised r), Some (root_sequencer r, amount))
  else reverts SlashTransferFailed.
End Contract.

(** ** Executions *)

Inductive op : Type :=
| SubmitStateRoot (endIndex prevEnd : Z) (commit actions : bytes32)
| FinaliseStateRoot (logIndex : Z)
| MarkDisputed (logIndex : Z)
| ClearDisputed (logIndex : Z)
| SlashSequencerBond (logIndex : Z) (recipient : address)
| HaltSubmissions
| ResumeSubmissions
| RevertStateRootsFrom (fromIdx : Z)
| ReclaimRevertedBond (logIndex : Z).

Section Execution.
Context (keccak256 : list u8 → bytes32) (params : Params).

Definition unpaid (r : call Registry) : call (Registry * option (address * Z)) :=
  result_map (fun st => (st, None)) r.

Definition exec (st : Registry) (tx : Tx) (o : op) : call (Registry * option (address * Z)) :=
  match o with
  | SubmitStateRoot e p c a => unpaid (submitStateRoot keccak256 params st tx e p c a)
  | FinaliseStateRoot i => finaliseStateRoot params st tx i
  | MarkDisputed i => unpaid (markDisputed params st tx i)
  | ClearDisputed i => unpaid (clearDisputed params st tx i)
  | SlashSequencerBond i recipient => slashSequencerBond params st tx i recipient
  | HaltSubmissions => unpaid (haltSubmissions params st tx)
  | ResumeSubmissions => unpaid (resumeSubmissions params st tx)
  | RevertStateRootsFrom i => unpaid (revertStateRootsFrom params st tx i)
  | ReclaimRevertedBond i => reclaimRevertedBond st tx i
  end.

(** The ether a call brings in. *)
Definition brings (o : op) (tx : Tx) : Z :=
  match o with SubmitStateRoot _ _ _ _ => msg_value tx | _ => 0 end.

(** What happened: the ether that came in and the payments that went out. *)
Record Ledger : Type := { registry : Registry; received : Z; paid : list (op * address * Z) }.

(** One transaction; a call that reverts changes nothing. *)
Definition transact (l : Ledger) (t : Tx * op) : Ledger :=
  match exec (registry l) t.1 t.2 with
  | Ok (st, pay) =>
      {| registry := st; received := received l + brings t.2 t.1;
         paid := paid l ++ match pay with Some (a, v) => [(t.2, a, v)] | None => [] end |}
  | Err _ => l
  end.

Definition transactions (st : Registry) (ts : list (Tx * op)) : Ledger :=
  foldl transact {| registry := st; received := 0; paid := [] |} ts.

(** ** What a call does *)

Record submitted (st st' : Registry) (tx : Tx) (e p : Z) (c a : bytes32) : Prop := {
  submitted_sender : msg_sender tx = sequencer params;
  submitted_value : msg_value tx = STATE_ROOT_SUBMISSION_BOND params;
  submitted_tip : p = canonicalTip st;
  submitted_size : p < e ≤ p + MAX_ACTIONS_PER_BATCH params;
  submitted_free : submittedAtBlock (root_at st e) = 0 ∨ bond (root_at st e) = 0;
  submitted_rate : get 0 (outstandingRootsCount st') (sequencer params) ≤
    MAX_OUTSTANDING_ROOTS_PER_SEQUENCER params;
  submitted_roots : roots st' = <[e :=
    {| root_sequencer := msg_sender tx; stateCommit := c;
       prevLogEntryHash := expectedNextHash (root_at st p);
       expectedNextHash := nextEntryHash keccak256 (expectedNextHash (root_at st p)) c a;
       bond := uint128 (msg_value tx); submittedAtBlock := uint64 (block_number tx);
       finalised := false; disputed := false; prevEndIndex := p; actionsRoot := a |}]> (roots st);
  submitted_new_tip : canonicalTip st' = e;
  submitted_balance : balance st' = balance st + msg_value tx;
}.

Lemma submit_inv st tx e p c a st' :
  submitStateRoot keccak256 params st tx e p c a = Ok st' → submitted st st' tx e p c a.
Proof.
  unfold submitStateRoot. intros H.
  apply require_bool_Ok in H as [_ H].
  do 7 (apply require_Ok in H as [? H]).
  apply result_bind_Ok in H as (nb & _ & H). do 2 (apply require_Ok in H as [? H]).
  apply result_bind_Ok in H as (n & [-> _]%add_at_Ok & [= <-]).
  assert (msg_sender tx = sequencer params) as Hs by lia.
  split; cbn; try done; try lia.
  rewrite Hs, get_insert. rewrite Hs in *. lia.
Qed.

(** The effect of a successful call, one constructor per kind of effect. *)
Inductive effect (st : Registry) (tx : Tx) : op → Registry → option (address * Z) → Prop :=
| submits e p c a st' : submitted st st' tx e p c a →
    effect st tx (SubmitStateRoot e p c a) st' None
| releases o i fin pay :
    (o = FinaliseStateRoot i ∨ o = ReclaimRevertedBond i) →
    submittedAtBlock (root_at st i) ≠ 0 →
    (finalised (root_at st i) = true → fin = true) →
    (pay = None ∧ ¬ 0 < bond (root_at st i) ∨
     pay = Some (root_sequencer (root_at st i), bond (root_at st i)) ∧
     bond (root_at st i) ≠ 0) →
    effect st tx o (bond_out st i fin) pay
| slashes i recipient :
    msg_sender tx = faultProofGame params →
    submittedAtBlock (root_at st i) ≠ 0 → bond (root_at st i) ≠ 0 →
    effect st tx (SlashSequencerBond i recipient) (bond_out st i (finalised (root_at st i)))
      (Some (recipient, bond (root_at st i)))
| flags o i b :
    brings o tx = 0 → submittedAtBlock (root_at st i) ≠ 0 →
    effect st tx o (set_root st i (set_disputed (root_at st i) b)) None
| halts o b : brings o tx = 0 → effect st tx o (set_halted st b) None
| reverting i st' :
    revertStateRootsFrom params st tx i = Ok st' →
    effect st tx (RevertStateRootsFrom i) st' None.

Lemma unpaid_Ok r st' pay : unpaid r = Ok (st', pay) ↔ r = Ok st' ∧ pay = None.
Proof. destruct r; cbn; naive_solver. Qed.

Lemma finalise_effect st tx i st' pay :
  finaliseStateRoot params st tx i = Ok (st', pay) → effect st tx (FinaliseStateRoot i) st' pay.
Proof.
  unfold finaliseStateRoot. intros H. apply require_Ok in H as [? H].
  do 3 (apply require_bool_Ok in H as [_ H]).
  apply result_bind_Ok in H as (n & _ & H). apply require_Ok in H as [_ H].
  case_decide; [destruct (accepts _ _ _); [|done]|]; injection H as <- <-;
    (apply releases; [by left|done|done|]); [right|by left]. split; [done|lia].
Qed.

Lemma reclaim_effect st tx i st' pay :
  reclaimRevertedBond st tx i = Ok (st', pay) → effect st tx (ReclaimRevertedBond i) st' pay.
Proof.
  unfold reclaimRevertedBond. intros H. apply require_Ok in H as [? H].
  do 3 (apply require_bool_Ok in H as [_ H]). apply require_Ok in H as [? H].
  destruct (accepts _ _ _); [|done]. injection H as <- <-.
  apply releases; [by right|done|done|]. by right.
Qed.

Lemma slash_effect st tx i a st' pay :
  slashSequencerBond params st tx i a = Ok (st', pay) →
  effect st tx (SlashSequencerBond i a) st' pay.
Proof.
  unfold slashSequencerBond. intros H. do 3 (apply require_Ok in H as [? H]).
  apply require_bool_Ok in H as [_ H]. apply require_Ok in H as [? H].
  destruct (accepts _ _ _); [|done]. injection H as <- <-.
  apply slashes; [|done..]. lia.
Qed.

Lemma exec_effect st tx o st' pay : exec st tx o = Ok (st', pay) → effect st tx o st' pay.
Proof.
  destruct o; cbn [exec]; rewrite ?unpaid_Ok;
    eauto using finalise_effect, reclaim_effect, slash_effect.
  - intros [?%submit_inv ->]. by constructor.
  - unfold markDisputed. intros [H ->]. do 2 (apply require_Ok in H as [? H]).
    do 3 (apply require_bool_Ok in H as [_ H]). injection H as <-. by apply flags.
  - unfold clearDisputed. intros [H ->]. do 2 (apply require_Ok in H as [? H]).
    injection H as <-. by apply flags.
  - unfold haltSubmissions. intros [H ->]. apply require_Ok in H as [_ H].
    apply require_bool_Ok in H as [_ [= <-]]. by apply halts.
  - unfold resumeSubmissions. intros [H ->]. apply require_Ok in H as [_ H].
    apply require_bool_Ok in H as [_ [= <-]]. by apply halts.
  - intros [? ->]. by constructor.
Qed.

(** ** The bonds *)

(** The bond is a [uint128] and positive, as the constructor requires. *)
Context (bond_pos : 0 < STATE_ROOT_SUBMISSION_BOND params < 2 ^ 128).

(** Transactions are mined in blocks [1 .. 2^64 - 1]. *)
Definition mined (tx : Tx) : Prop := 0 < block_number tx < 2 ^ 64.

Definition root_ok (r : SubmittedRoot) : Prop :=
  bond r = 0 ∨
  bond r = STATE_ROOT_SUBMISSION_BOND params ∧ root_sequencer r = sequencer params ∧
  submittedAtBlock r ≠ 0.

Record solvent (l : Ledger) : Prop := {
  solvent_balance : balance (registry l) = map_sum bond (roots (registry l));
  solvent_roots i r : roots (registry l) !! i = Some r → root_ok r;
  solvent_flow : received l = balance (registry l) + zsum (snd <$> paid l);
  solvent_paid : Forall (fun '(o, a, v) => v = STATE_ROOT_SUBMISSION_BOND params ∧
    (a = sequencer params ∨ ∃ i, o = SlashSequencerBond i a)) (paid l);
}.

Lemma root_at_ok l i : solvent l → root_ok (root_at (registry l) i).
Proof.
  intros Hl. unfold root_at, get. destruct (roots (registry l) !! i) eqn:Hi; cbn.
  - by apply (solvent_roots l Hl i).
  - by left.
Qed.

(** A bond leaves. *)
Lemma solvent_bond_out l i fin o a v :
  solvent l → bond (root_at (registry l) i) = v →
  v = 0 ∨ a = sequencer params ∨ (∃ i, o = SlashSequencerBond i a) →
  solvent {| registry := bond_out (registry l) i fin; received := received l;
             paid := paid l ++ if decide (v = 0) then [] else [(o, a, v)] |}.
Proof.
  intros Hl Hv Ha. destruct (root_at_ok l i Hl) as [Hz|(Hb & Hs & Hm)].
  all: destruct Hl as [Hbal Hroots Hflow Hpaid]; split;
       cbn [registry received paid bond_out roots balance].
  1,5: rewrite (map_sum_insert bond no_root) by done; cbn;
       change (get no_root (roots (registry l)) i) with (root_at (registry l) i); lia.
  1,4: intros j r [(-> & <-)|(_ & Hj)]%lookup_insert_Some; [by left|by eapply Hroots].
  - rewrite decide_True by lia. rewrite app_nil_r. lia.
  - rewrite decide_True by lia. by rewrite app_nil_r.
  - rewrite decide_False by lia. rewrite fmap_app, zsum_app. cbn. lia.
  - rewrite decide_False by lia. apply Forall_app. split; [done|].
    apply Forall_singleton. split; [lia|]. destruct Ha as [|]; [lia|done].
Qed.

Lemma solvent_same_roots l st :
  solvent l → roots st = roots (registry l) → balance st = balance (registry l) →
  solvent {| registry := st; received := received l; paid := paid l |}.
Proof. intros [] Hr Hb. split; cbn; rewrite ?Hr, ?Hb; done. Qed.

Lemma solvent_flag l i b :
  solvent l → submittedAtBlock (root_at (registry l) i) ≠ 0 →
  solvent {| registry := set_root (registry l) i (set_disputed (root_at (registry l) i) b);
             received := received l; paid := paid l |}.
Proof.
  intros Hl Hsub. pose proof (root_at_ok l i Hl) as Hok.
  destruct Hl as [Hbal Hroots Hflow Hpaid]. split; cbn; try done.
  - rewrite (map_sum_insert bond no_root) by done. cbn.
    change (get no_root (roots (registry l)) i) with (root_at (registry l) i). lia.
  - intros j r [(-> & <-)|(_ & Hj)]%lookup_insert_Some; [|by eapply Hroots].
    destruct Hok as [?|(? & ? & ?)]; [by left|by right].
Qed.

Lemma solvent_submit l tx e p c a st' :
  solvent l → mined tx → submitted (registry l) st' tx e p c a →
  solvent {| registry := st'; received := received l + msg_value tx; paid := paid l |}.
Proof.
  intros Hl [? ?] [Hs Hv _ _ Hfree _ Hr _ Hbal'].
  assert (Hold : bond (root_at (registry l) e) = 0).
  { destruct (root_at_ok l e Hl) as [|(_ & _ & ?)]; [done|]. by destruct Hfree. }
  destruct Hl as [Hbal Hroots Hflow Hpaid].
  assert (uint128 (msg_value tx) = msg_value tx) by (apply uint128_id; unfold in_width; lia).
  split; cbn [registry received paid]; rewrite ?Hr, ?Hbal'; try done; try lia.
  - rewrite (map_sum_insert bond no_root) by done. cbn.
    change (get no_root (roots (registry l)) e) with (root_at (registry l) e). lia.
  - intros j r [(-> & <-)|(_ & Hj)]%lookup_insert_Some; [|by eapply Hroots].
    right. cbn. rewrite uint64_id by (unfold in_width; lia). lia.
Qed.

Lemma solvent_transact l t : solvent l → mined t.1 → solvent (transact l t).
Proof.
  intros Hl Hm. destruct t as [tx o]. unfold transact. cbn in *.
  destruct (exec (registry l) tx o) as [[st pay]|] eqn:Hex; [|done].
  apply exec_effect in Hex. destruct Hex as [e p c a st' Hsub|o i fin pay Ho Hi Hfin Hpay|
    i a Hg Hi Hb|o i b Hbr Hi|o b Hbr|i st' Hrev]; cbn [brings].
  - rewrite app_nil_r. by eapply solvent_submit.
  - assert (Hbr : brings o tx = 0) by (by destruct Ho as [->| ->]). rewrite Hbr, Z.add_0_r.
    pose proof (root_at_ok l i Hl) as Hok.
    pose proof (solvent_bond_out l i fin o (sequencer params) _ Hl eq_refl) as Hout.
    destruct Hpay as [[-> Hnb]|[-> Hnb]].
    + rewrite decide_True in Hout; [apply Hout; auto|]. destruct Hok; lia.
    + rewrite decide_False in Hout by done. destruct Hok as [?|(? & -> & _)]; [done|].
      apply Hout. auto.
  - rewrite Z.add_0_r.
    pose proof (solvent_bond_out l i (finalised (root_at (registry l) i))
      (SlashSequencerBond i a) a _ Hl eq_refl) as Hout.
    rewrite decide_False in Hout by done. apply Hout. eauto.
  - rewrite Hbr, Z.add_0_r, app_nil_r. by apply solvent_flag.
  - rewrite Hbr, Z.add_0_r, app_nil_r. by apply solvent_same_roots.
  - rewrite Z.add_0_r, app_nil_r. unfold revertStateRootsFrom in Hrev.
    apply require_Ok in Hrev as [_ [= <-]]. by apply solvent_same_roots.
Qed.

Lemma solvent_transactions ts l :
  solvent l → Forall (mined ∘ fst) ts → solvent (foldl transact l ts).
Proof.
  revert l. induction ts as [|t ts IH]; intros l Hl Hts; [done|].
  apply Forall_cons in Hts as [Ht Hts]. cbn. apply IH; [|done]. by apply solvent_transact.
Qed.
End Execution.

(** ** The chain *)

Section Chain.
Context (keccak256 : list u8 → bytes32) (params : Params).

(** The records from a key down to genesis, each linked to its parent by hash;
    the list is what they commit to, newest first. *)
Inductive chain (m : gmap Z SubmittedRoot) : Z → list (bytes32 * bytes32) → Prop :=
| chain_genesis r :
    m !! 0 = Some r → finalised r = true →
    expectedNextHash r = genesisChainSeed keccak256 (stateCommit r) →
    chain m 0 [(stateCommit r, zero32)]
| chain_link i r h :
    m !! i = Some r → 0 ≤ prevEndIndex r < i →
    prevLogEntryHash r = expectedNextHash (get no_root m (prevEndIndex r)) →
    expectedNextHash r =
      nextEntryHash keccak256 (prevLogEntryHash r) (stateCommit r) (actionsRoot r) →
    chain m (prevEndIndex r) h →
    chain m i ((stateCommit r, actionsRoot r) :: h).

(** The keys on the way. *)
Inductive on_chain (m : gmap Z SubmittedRoot) : Z → Z → Prop :=
| on_chain_here i : on_chain m i i
| on_chain_below t i : t ≠ 0 → on_chain m (prevEndIndex (get no_root m t)) i → on_chain m t i.

(** The calldata words are 32 bytes. *)
Definition op_typed (o : op) : Prop :=
  match o with
  | SubmitStateRoot _ _ c a => length c = 32%nat ∧ length a = 32%nat
  | _ => True
  end.

(** The executions in which only batches of the canonical chain are reverted. *)
Inductive reach : Registry → Prop :=
| reach_init tx window genesis st :
    length genesis = 32%nat → constructor keccak256 params tx window genesis = Ok st → reach st
| reach_step st tx o st' pay :
    reach st → op_typed o → exec keccak256 params st tx o = Ok (st', pay) →
    (∀ i, o = RevertStateRootsFrom i → i ≠ 0 ∧ on_chain (roots st) (canonicalTip st) i) →
    reach st'.

Lemma chain_nonneg m i h : chain m i h → 0 ≤ i.
Proof. destruct 1; lia. Qed.

(** The chain of a key does not see what is written above it. *)
Lemma chain_insert_above m i h k r : chain m i h → i < k → chain (<[k := r]> m) i h.
Proof.
  induction 1 as [r0 H0 Hf He|i r0 h Hi Hp Hprev Hnext Hch IH]; intros Hk.
  - apply (chain_genesis _ r0); [|done..]. rewrite lookup_insert_ne; [done|lia].
  - apply (chain_link _ i r0); [|done| |done|apply IH; lia].
    + rewrite lookup_insert_ne; [done|lia].
    + rewrite get_insert_ne by lia. done.
Qed.

(** Nor does it see a write that keeps the links of the slot. *)
Lemma chain_insert_links m i h k r :
  chain m i h →
  stateCommit r = stateCommit (get no_root m k) →
  prevLogEntryHash r = prevLogEntryHash (get no_root m k) →
  expectedNextHash r = expectedNextHash (get no_root m k) →
  prevEndIndex r = prevEndIndex (get no_root m k) →
  actionsRoot r = actionsRoot (get no_root m k) →
  (finalised (get no_root m k) = true → finalised r = true) →
  chain (<[k := r]> m) i h.
Proof.
  intros Hch Hsc Hpl Hen Hpe Har Hfin.
  assert (Hget : ∀ j, expectedNextHash (get no_root (<[k := r]> m) j) =
                      expectedNextHash (get no_root m j)).
  { intros j. destruct (decide (k = j)) as [<-|]; [by rewrite get_insert|].
    by rewrite get_insert_ne. }
  induction Hch as [r0 H0 Hf He|i r0 h Hi Hp Hprev Hnext Hch IH].
  - destruct (decide (k = 0)) as [->|].
    + assert (get no_root m 0 = r0) as Hg by (unfold get; by rewrite H0). rewrite Hg in *.
      rewrite <- Hsc. apply (chain_genesis _ r); [apply lookup_insert_eq|auto|congruence].
    + apply (chain_genesis _ r0); [|done..]. by rewrite lookup_insert_ne.
  - destruct (decide (k = i)) as [->|].
    + assert (get no_root m i = r0) as Hg by (unfold get; by rewrite Hi). rewrite Hg in *.
      rewrite <- Hsc, <- Har. apply (chain_link _ i r); rewrite ?Hget; [apply lookup_insert_eq|lia|congruence..].
    + apply (chain_link _ i r0); rewrite ?Hget; try done. by rewrite lookup_insert_ne.
Qed.

Definition words (h : list (bytes32 * bytes32)) : Prop :=
  Forall (fun '(c, a) => length c = 32%nat ∧ length a = 32%nat) h.

Lemma chain_fun m i h h' : chain m i h → chain m i h' → h = h'.
Proof.
  intros Hch. revert h'. induction Hch as [r Hr|i r h Hr Hp _ _ Hch IH]; intros h' Hch'.
  - inversion Hch' as [r' Hr'|? r' ? Hr' Hp']; simplify_eq; [done|]. lia.
  - inversion Hch' as [r' Hr'|? r' h2 Hr' Hp' _ _ Hch2]; simplify_eq; [lia|].
    f_equal. by apply IH.
Qed.

Lemma on_chain_parent m t i h :
  on_chain m t i → i ≠ 0 → chain m t h → words h →
  ∃ h', chain m (prevEndIndex (get no_root m i)) h' ∧ words h' ∧
        prevEndIndex (get no_root m i) < i ≤ t.
Proof.
  intros Hon Hi. revert h. induction Hon as [i|t i Ht Hon IH]; intros h Hch Hw.
  - destruct Hch as [|i r h Hr Hp _ _ Hch]; [done|]. apply Forall_cons in Hw as [_ Hw].
    assert (get no_root m i = r) as -> by (unfold get; by rewrite Hr).
    exists h. split_and!; [done..|lia|lia].
  - destruct Hch as [|t r h Hr Hp _ _ Hch]; [done|]. apply Forall_cons in Hw as [_ Hw].
    assert (get no_root m t = r) as Hg by (unfold get; by rewrite Hr). rewrite Hg in *.
    destruct (IH Hi h Hch Hw) as (h' & ? & ? & ?). exists h'. split_and!; [done..|lia|lia].
Qed.

Lemma submit_chain st st' tx e p c a h :
  submitted keccak256 params st st' tx e p c a → chain (roots st) (canonicalTip st) h →
  chain (roots st') (canonicalTip st') ((c, a) :: h).
Proof.
  intros [_ _ -> Hsz _ _ Hroots Htip _] IH. rewrite Hroots, Htip.
  change (c, a) with (stateCommit {| root_sequencer := msg_sender tx; stateCommit := c;
       prevLogEntryHash := expectedNextHash (root_at st (canonicalTip st));
       expectedNextHash := nextEntryHash keccak256
         (expectedNextHash (root_at st (canonicalTip st))) c a;
       bond := uint128 (msg_value tx); submittedAtBlock := uint64 (block_number tx);
       finalised := false; disputed := false; prevEndIndex := canonicalTip st;
       actionsRoot := a |}, a).
  pose proof (chain_nonneg _ _ _ IH).
  eapply chain_link; [apply lookup_insert_eq|cbn; lia| |done|].
  - cbn. by rewrite get_insert_ne by lia.
  - apply chain_insert_above; [exact IH|cbn; lia].
Qed.

Lemma reach_chain st : reach st → ∃ h, chain (roots st) (canonicalTip st) h ∧ words h.
Proof.
  induction 1 as [tx wd g st Hlen Hinit|st tx o st' pay Hst (h & IH & Hw) Hty Hex Hrev].
  - unfold constructor in Hinit. do 12 (apply require_Ok in Hinit as [_ Hinit]).
    injection Hinit as <-. eexists. cbn. split.
    + eapply chain_genesis; [apply lookup_insert_eq|done..].
    + by apply Forall_singleton.
  - apply exec_effect in Hex. destruct Hex as [e p c a st' Hsub|o i fin pay Ho Hi Hfin Hpay|
      i a Hg Hi Hb|o i b Hbr Hi|o b Hbr|i st' Hr].
    + eexists. split; [by eapply submit_chain|]. by apply Forall_cons.
    + exists h. split; [|done]. by apply chain_insert_links.
    + exists h. split; [|done]. by apply chain_insert_links.
    + exists h. split; [|done]. by apply chain_insert_links.
    + by exists h.
    + destruct (Hrev i eq_refl) as [Hi Hon].
      destruct (on_chain_parent _ _ _ _ Hon Hi IH Hw) as (h' & Hch' & Hw' & Hlt).
      unfold revertStateRootsFrom in Hr. apply require_Ok in Hr as [_ [= <-]]. cbn.
      exists h'. unfold root_at. by rewrite decide_True by lia.
Qed.

(** Two different inputs with one digest, and an input with the zero digest. *)
Definition collision : Prop := ∃ x y, x ≠ y ∧ keccak256 x = keccak256 y.
Definition zero_preimage : Prop := ∃ x, keccak256 x = zero32.

Context (keccak_length : ∀ x, length (keccak256 x) = 32%nat).

Lemma chain_hashed m i h :
  chain m i h → ∃ x, expectedNextHash (get no_root m i) = keccak256 x.
Proof.
  destruct 1 as [r Hr _ He|i r h Hr _ _ He]; unfold get; rewrite Hr; cbn; rewrite He;
    eexists; reflexivity.
Qed.

(** Equal digests of three words each: equal words, or a collision. *)
Lemma digest_words p c a p' c' a' :
  length p = 32%nat → length p' = 32%nat → length c = 32%nat → length c' = 32%nat →
  nextEntryHash keccak256 p c a = nextEntryHash keccak256 p' c' a' →
  (p = p' ∧ c = c' ∧ a = a') ∨ collision.
Proof.
  intros Hp Hp' Hc Hc' Heq. destruct (decide (p ++ c ++ a = p' ++ c' ++ a')) as [Hin|Hne].
  - left. apply app_inj_1 in Hin as [-> Hin]; [|lia].
    apply app_inj_1 in Hin as [-> ->]; [done|lia].
  - right. by exists (p ++ c ++ a), (p' ++ c' ++ a').
Qed.

Lemma chain_binds m1 m2 i1 i2 h1 h2 :
  chain m1 i1 h1 → chain m2 i2 h2 → words h1 → words h2 →
  expectedNextHash (get no_root m1 i1) = expectedNextHash (get no_root m2 i2) →
  h1 = h2 ∨ collision ∨ zero_preimage.
Proof.
  intros Hch1. revert i2 h2.
  assert (Hz : length zero32 = 32%nat) by apply length_replicate.
  assert (Hlen : ∀ m i h, chain m i h → length (expectedNextHash (get no_root m i)) = 32%nat).
  { intros m i h Hch. destruct (chain_hashed m i h Hch) as [x ->]. apply keccak_length. }
  assert (Hget : ∀ m i r, m !! i = Some r → get no_root m i = r).
  { intros m i r Hr. unfold get. by rewrite Hr. }
  induction Hch1 as [r1 Hr1 _ He1|i1 r1 h1 Hr1 _ Hp1 He1 Hch1 IH]; intros i2 h2 Hch2 Hw1 Hw2;
    rewrite (Hget _ _ _ Hr1), He1; apply Forall_cons in Hw1 as [[? ?] Hw1];
    destruct Hch2 as [r2 Hr2 _ He2|i2 r2 h2 Hr2 _ Hp2 He2 Hch2];
    rewrite (Hget _ _ _ Hr2), He2; apply Forall_cons in Hw2 as [[? ?] Hw2]; intros Heq.
  - apply digest_words in Heq as [(_ & -> & _)|]; auto.
  - apply digest_words in Heq as [(Hpre & _)|]; rewrite ?Hp2; eauto.
    destruct (chain_hashed _ _ _ Hch2) as [x Hx]. right. right. exists x. congruence.
  - apply digest_words in Heq as [(Hpre & _)|]; rewrite ?Hp1; eauto.
    destruct (chain_hashed _ _ _ Hch1) as [x Hx]. right. right. exists x. congruence.
  - apply digest_words in Heq as [(Hpre & -> & ->)|]; rewrite ?Hp1, ?Hp2; eauto.
    destruct (IH _ _ Hch2 Hw1 Hw2) as [->|]; [congruence|by left|by right].
Qed.
End Chain.

(** ** Solvency *)

(** C14: the registry owes exactly what it holds.  From its deployment, after any
    transactions by anyone, the ether of the contract is the sum of the bonds of
    its records; what came in is what it holds plus what it paid; and every
    payment is one full bond, to the sequencer or to the recipient the game
    slashed it for.  So no bond is paid twice and none is stranded by an
    overwritten record. *)
Theorem registry_solvent keccak256 params tx0 window genesis st0 ts :
  0 < STATE_ROOT_SUBMISSION_BOND params < 2 ^ 128 →
  constructor keccak256 params tx0 window genesis = Ok st0 →
  Forall (mined ∘ fst) ts →
  let l := transactions keccak256 params st0 ts in
  balance (registry l) = map_sum bond (roots (registry l)) ∧
  received l = balance (registry l) + zsum (snd <$> paid l) ∧
  Forall (fun '(o, a, v) => v = STATE_ROOT_SUBMISSION_BOND params ∧
    (a = sequencer params ∨ ∃ i, o = SlashSequencerBond i a)) (paid l).
Proof.
  intros Hbond Hinit Hts.
  destruct (solvent_transactions keccak256 params Hbond ts
    {| registry := st0; received := 0; paid := [] |}) as [Hb _ Hf Hp]; [|exact Hts|].
  - unfold constructor in Hinit. do 12 (apply require_Ok in Hinit as [_ Hinit]).
    injection Hinit as <-. split; cbn.
    + rewrite <- insert_empty, map_sum_insert_fresh by apply lookup_empty.
      by rewrite map_sum_empty.
    + intros i r [_ <-]%lookup_singleton_Some. by left.
    + done.
    + done.
  - split_and!; [exact Hb|exact Hf|exact Hp].
Qed.

(** The canonical chain.  In every execution in which only batches of the
    canonical chain are reverted, the tip leads through the parent keys down to
    the genesis record, each record linked to its parent by the stored hash; and
    the hash at the tip binds the whole history: any other registry in such a
    state with the same tip hash has the same state commits and actions roots
    all the way down, unless keccak collides or hits zero. *)
Theorem canonical_chain_linked keccak256 params st :
  (∀ x, length (keccak256 x) = 32%nat) →
  reach keccak256 params st →
  ∃ h, chain keccak256 (roots st) (canonicalTip st) h ∧
    ∀ params' st' h',
      reach keccak256 params' st' → chain keccak256 (roots st') (canonicalTip st') h' →
      expectedNextHash (root_at st (canonicalTip st)) =
        expectedNextHash (root_at st' (canonicalTip st')) →
      h = h' ∨ collision keccak256 ∨ zero_preimage keccak256.
Proof.
  intros Hlen Hst. destruct (reach_chain _ _ st Hst) as (h & Hch & Hw).
  exists h. split; [done|]. intros params' st' h' Hst' Hch' Heq.
  destruct (reach_chain _ _ st' Hst') as (h2 & Hch2 & Hw2).
  assert (h' = h2) as -> by (by eapply chain_fun). by eapply chain_binds.
Qed.

(** ** Two executions after a revert *)

Definition demo_params : Params :=
  {| STATE_ROOT_SUBMISSION_BOND := 100; FAULT_PROOF_DISPUTE_WINDOW := 50;
     MIN_SUBMISSION_INTERVAL_BLOCKS := 1; MAX_OUTSTANDING_ROOTS_PER_SEQUENCER := 10;
     sequencer := 7; faultProofGame := 8; submissionBreaker := 9;
     deploymentId := zero32; MAX_ACTIONS_PER_BATCH := 100 |}.

Definition word (n : Z) : bytes32 := replicate 32 (byte_of n).

Definition demo_tx (sender value block : Z) : Tx :=
  {| msg_sender := sender; msg_value := value; block_number := block;
     accepts := fun _ _ => true |}.

Definition submit_at (block endIndex prevEnd commit : Z) : Tx * op :=
  (demo_tx 7 100 block, SubmitStateRoot endIndex prevEnd (word commit) (word 0)).

(** What the game does when a challenger wins. *)
Definition lost_at (block logIndex : Z) : list (Tx * op) :=
  [(demo_tx 8 0 block, SlashSequencerBond logIndex 8);
   (demo_tx 8 0 block, RevertStateRootsFrom logIndex)].

Definition dispute_at (block logIndex : Z) : Tx * op := (demo_tx 8 0 block, MarkDisputed logIndex).

Definition demo_registry (keccak256 : list u8 → bytes32) : Registry :=
  match constructor keccak256 demo_params (demo_tx 1 0 1) 10 (word 1) with
  | Ok st => st
  | Err _ => set_halted {| roots := ∅; canonicalTip := 0; lastRevertAtBlock := 0;
      lastSubmissionBlock := ∅; outstandingRootsCount := ∅; lowestRevertedLogIndex := 0;
      highestRevertedLogIndex := 0; latestSubmittedLogIndex := 0; submissionsHalted := true;
      balance := 0 |} true
  end.

Definition repaired_then_reverted : list (Tx * op) :=
  [submit_at 2 10 0 2; submit_at 3 20 10 3; dispute_at 4 20] ++ lost_at 5 20 ++
  [submit_at 6 20 10 4; submit_at 7 30 20 5; dispute_at 8 30] ++ lost_at 9 30.

(** A repaired batch reads as reverted after the next revert.  Batch 20
    loses its game and is resubmitted; later batch 30 on top of it loses its
    own.  The tip then is the repaired batch 20, whose bond was never slashed
    and which nobody disputed, and the registry says it is reverted and refuses
    to finalise it for ever. *)
Theorem recovered_batch_misread keccak256 :
  let st := registry (transactions keccak256 demo_params (demo_registry keccak256)
                        repaired_then_reverted) in
  canonicalTip st = 20 ∧
  bond (root_at st 20) = 100 ∧ disputed (root_at st 20) = false ∧
  isRecordReverted st 20 = true ∧
  ∀ tx, finaliseStateRoot demo_params st tx 20 = reverts RootReverted.
Proof. vm_compute. split_and!; reflexivity. Qed.

Definition stale_revert : list (Tx * op) :=
  [submit_at 2 10 0 2; submit_at 3 20 10 3; dispute_at 4 10; dispute_at 4 20] ++ lost_at 5 10 ++
  [submit_at 6 12 0 4] ++ lost_at 7 20.

(** A revert leaves the records alone, and a record that reads as reverted keeps
    reading so. *)
Lemma revert_keeps_reverted params st tx i st' p :
  revertStateRootsFrom params st tx i = Ok st' → in_u64 (block_number tx) →
  lastRevertAtBlock st ≤ block_number tx →
  lastRevertAtBlock st' = block_number tx ∧ roots st' = roots st ∧
  (isRecordReverted st p = true → isRecordReverted st' p = true).
Proof.
  intros [_ [= <-]]%require_Ok Hb Hold. cbn. rewrite uint64_id by done. split_and!; [done..|].
  unfold isRecordReverted, root_at. cbn.
  rewrite !andb_true_iff, !bool_decide_eq_true. repeat case_decide; lia.
Qed.

(** What an accepted submission leaves: a fresh record on the old tip. *)
Lemma submitStateRoot_Ok keccak256 params st tx e prev c a st' :
  submitStateRoot keccak256 params st tx e prev c a = Ok st' → in_u64 (block_number tx) →
  prev = canonicalTip st ∧ canonicalTip st' = e ∧ lastRevertAtBlock st' = lastRevertAtBlock st ∧
  prevEndIndex (root_at st' e) = prev ∧ submittedAtBlock (root_at st' e) = block_number tx ∧
  finalised (root_at st' e) = false ∧ disputed (root_at st' e) = false ∧
  root_sequencer (root_at st' e) = sequencer params ∧
  stateCommit (root_at st' e) = c ∧ prev < e.
Proof.
  intros Hrun Hb. unfold submitStateRoot in Hrun. apply require_bool_Ok in Hrun as [_ Hrun].
  apply require_Ok in Hrun as [Hs%dec_stable Hrun]. apply require_Ok in Hrun as [_ Hrun].
  apply require_Ok in Hrun as [? Hrun]. apply require_Ok in Hrun as [_ Hrun].
  apply require_Ok in Hrun as [?%dec_stable Hrun]. do 2 (apply require_Ok in Hrun as [_ Hrun]).
  apply result_bind_Ok in Hrun as (nb & _ & Hrun). do 2 (apply require_Ok in Hrun as [_ Hrun]).
  apply result_bind_Ok in Hrun as (n & _ & [= <-]).
  unfold root_at. cbn. rewrite get_insert. cbn. rewrite uint64_id by done. split_and!; done || lia.
Qed.



Definition demo_keccak (x : list u8) : bytes32 := word (Z.of_nat (length x)).

Lemma registry_solvent_witness :
  let l := transactions demo_keccak demo_params (demo_registry demo_keccak) stale_revert in
  received l = 300 ∧ length (paid l) = 2%nat ∧
  received l = balance (registry l) + zsum (snd <$> paid l).
Proof.
  split; [vm_compute; reflexivity|]. split; [vm_compute; reflexivity|].
  apply (registry_solvent demo_keccak demo_params (demo_tx 1 0 1) 10 (word 1)
           (demo_registry demo_keccak) stale_revert).
  - cbn. lia.
  - reflexivity.
  - repeat constructor; cbn; lia.
Defined.

Lemma canonical_chain_linked_witness :
  ∃ h, chain demo_keccak
         (roots (registry (transactions demo_keccak demo_params (demo_registry demo_keccak)
                             [submit_at 2 10 0 2]))) 10 h.
Proof.
  destruct (canonical_chain_linked demo_keccak demo_params
    (registry (transactions demo_keccak demo_params (demo_registry demo_keccak)
                 [submit_at 2 10 0 2]))) as (h & Hch & _).
  - intros x. reflexivity.
  - eapply (reach_step _ _ (demo_registry demo_keccak) (demo_tx 7 100 2)
              (SubmitStateRoot 10 0 (word 2) (word 0)) _ None).
    + eapply (reach_init _ _ (demo_tx 1 0 1) 10 (word 1)); reflexivity.
    + split; reflexivity.
    + reflexivity.
    + discriminate.
  - exists h. exact Hch.
Defined.
