(* ===== verification/FaultGame.v ===== *)
(** * The fault-proof game contract

    [KnomosisFaultProofGame.sol]: opening a challenge, the two bisection moves,
    the terminal step, the timeout, settlement with its bond redistribution and
    the pull payments.  The contracts it calls are interfaces, as they are in
    the source: [IStateRootSubmission], discharged by the registry of
    [StateRoot], [IDisputeVerifierV2], the step VM, and the libraries that
    authenticate the disputed action and its signature.

    The invariants are here too: the ledger of the contract, the refinement to
    the observer's machine, and the standing of an honest party against an L2
    ([Kernel]) that executes the log the batches commit to. *)

From Stdlib Require Import ZArith Lia.
From stdpp Require Import base numbers list gmap.
From S2P Require Import Prelude Evm StateRoot Game.

Local Open Scope Z_scope.

(** ** The contracts and libraries it calls *)

(** A call of another contract that reverts is [None]; [slashSequencerBond]
    also gives the ether that arrives at the recipient. *)
Class IStateRootSubmission (R : Type) : Type := {
  get_root : R → Z → SubmittedRoot;
  is_reverted : R → Z → bool;
  deployment_of : R → bytes32;
  mark_disputed : R → Tx → Z → option R;
  clear_disputed : R → Tx → Z → option R;
  slash_bond : R → Tx → Z → address → option (R * Z);
  revert_from : R → Tx → Z → option R;
}.

Class IDisputeVerifierV2 (R : Type) : Type := {
  finaliseFromFaultProof : R → Tx → Z → Z → option R;
}.

Record OpenedCell : Type := { cellKind : Z; keyA : Z; keyB : Z; preValue : list u8 }.

(** The calldata of [terminateOnSingleStep]. *)
Record TerminateArgs : Type := {
  actionKind : Z;
  actionFields : list u8;
  signer : Z;
  actionSig : list u8;
  actionProof : list u8;
  opened_cells : list OpenedCell;
  gapMask : list u8;
  siblings : list u8;
  registryValue : list u8;
  registryProof : list u8;
}.

(** The step VM and the cryptographic libraries. *)
Class Adjudication : Type := {
  keccak : list u8 → bytes32;
  verifyActionInclusion : bytes32 → Z → bytes32 → list u8 → bool;
  executeStepToRootMulti :
    bytes32 → Z → list u8 → Z → Z → list OpenedCell → list u8 → list u8 → option bytes32;
  deriveCellSmtKey : Z → Z → Z → bytes32;
  cellLeafHash : bool → list u8 → bytes32;
  recomputeRootFromLeaf : bytes32 → bytes32 → list u8 → bytes32;
  tryToAddress : list u8 → option address;
  signingDigest : Z → list u8 → Z → Z → bytes32 → bytes32;
  ecrecover : bytes32 → Z → Z → Z → address;
}.

(** ** Storage *)

Record L1Game : Type := {
  g_sequencer : address;
  g_challenger : address;
  g_low : Claim;
  g_high : Claim;
  g_hasPendingMidpoint : bool;
  g_pendingMidpoint : Claim;
  g_depth : Z;
  g_turn : TurnSide;
  g_turnDeadline : Z;
  g_sequencerBond : Z;
  g_challengerBond : Z;
  g_status : GameStatus;
  g_deploymentId : bytes32;
  g_lastStepBlock : Z;
  g_disputedLogIndex : Z;
}.

Definition no_claim : Claim := {| idx := 0; commit := zero32 |}.

Definition no_game : L1Game :=
  {| g_sequencer := 0; g_challenger := 0; g_low := no_claim; g_high := no_claim;
     g_hasPendingMidpoint := false; g_pendingMidpoint := no_claim; g_depth := 0;
     g_turn := Sequencer; g_turnDeadline := 0; g_sequencerBond := 0; g_challengerBond := 0;
     g_status := InProgress; g_deploymentId := zero32; g_lastStepBlock := 0;
     g_disputedLogIndex := 0 |}.

Record GameParams : Type := {
  BISECTION_RESPONSE_TIMEOUT : Z;
  MIN_CHALLENGE_BOND : Z;
  MIN_BISECTION_STEP_INTERVAL_BLOCKS : Z;
  treasury : address;
  disputeVerifier : address;
  self_address : address;
}.

Inductive FaultGameError : Type :=
| InsufficientBond | TurnDeadlineExpired | NoPendingMidpoint | MidpointAlreadyPending
| L1MidpointOutOfRange | L1RangeNotSingleStep | L1GameAlreadyEnded | NotResponsible
| BondTransferFailed | BisectionStepTooFast | GameAlreadyExists | DepthCapExceeded
| LowRootNotSubmitted | LowCommitMismatch | InvalidTimeoutConfig | NothingToWithdraw
| ActionNotInBatch | LowNotBatchStart | DisputedRootReverted | InvalidBondConfig
| L1ZeroAddress | ActionSigWrongLength | RegistryOpeningInvalid
| OutsideReverted.

Abbreviation game_call A := (result A (revert FaultGameError)).

Record Storage (R : Type) : Type := {
  games : gmap Z L1Game;
  nextGameId : Z;
  activeGameForLogIndex : gmap Z Z;
  pendingWithdrawals : gmap Z Z;
  ether : Z;
  outside : R;
}.
Arguments games {R} _.
Arguments nextGameId {R} _.
Arguments activeGameForLogIndex {R} _.
Arguments pendingWithdrawals {R} _.
Arguments ether {R} _.
Arguments outside {R} _.

Definition game_at {R} (st : Storage R) (gameId : Z) : L1Game := get no_game (games st) gameId.

Definition put_game {R} (st : Storage R) (gameId : Z) (g : L1Game) : Storage R :=
  {| games := <[gameId := g]> (games st); nextGameId := nextGameId st;
     activeGameForLogIndex := activeGameForLogIndex st;
     pendingWithdrawals := pendingWithdrawals st; ether := ether st; outside := outside st |}.

Definition l1_responsible (g : L1Game) : address :=
  match g_turn g with Sequencer => g_sequencer g | Challenger => g_challenger g end.

(** ** The contract *)

Section Contract.
Context {R : Type} `{IStateRootSubmission R, IDisputeVerifierV2 R, Adjudication}.
Context (params : GameParams).

(** The transaction as a contract this one calls sees it; the contract's own
    [receive] accepts. *)
Definition as_game (tx : Tx) : Tx :=
  {| msg_sender := self_address params; msg_value := 0; block_number := block_number tx;
     accepts := fun a v => if decide (a = self_address params) then true else accepts tx a v |}.

Definition game_constructor (stepVM_code registry_code : bool) (stepVM registry : address)
    (deployed : R) : game_call (Storage R) :=
  if decide (treasury params = 0) then reverts L1ZeroAddress else
  if decide (stepVM = 0) then reverts L1ZeroAddress else
  if decide (registry = 0) then reverts L1ZeroAddress else
  if negb registry_code then reverts L1ZeroAddress else
  if negb stepVM_code then reverts L1ZeroAddress else
  if decide (BISECTION_RESPONSE_TIMEOUT params ≤ MIN_BISECTION_STEP_INTERVAL_BLOCKS params)
  then reverts InvalidTimeoutConfig else
  if decide (MIN_CHALLENGE_BOND params = 0) then reverts InvalidBondConfig else
  Ok {| games := ∅; nextGameId := 0; activeGameForLogIndex := ∅; pendingWithdrawals := ∅;
        ether := 0; outside := deployed |}.

Definition initiateChallenge (st : Storage R) (tx : Tx) (disputedLogIndex : Z)
    (challengerCommit lowCommit : bytes32) (lowLogIndex : Z) : game_call (Storage R * Z) :=
  if decide (msg_value tx ≠ MIN_CHALLENGE_BOND params) then reverts InsufficientBond else
  if decide (get 0 (activeGameForLogIndex st) disputedLogIndex ≠ 0)
  then reverts GameAlreadyExists else
  if decide (disputedLogIndex ≤ lowLogIndex) then reverts L1MidpointOutOfRange else
  let root := get_root (outside st) disputedLogIndex in
  if decide (submittedAtBlock root = 0) then reverts L1ZeroAddress else
  if finalised root then reverts L1GameAlreadyEnded else
  if is_reverted (outside st) disputedLogIndex then reverts DisputedRootReverted else
  if decide (challengerCommit = stateCommit root) then reverts L1MidpointOutOfRange else
  if decide (lowLogIndex ≠ prevEndIndex root) then reverts LowNotBatchStart else
  let low_root := get_root (outside st) lowLogIndex in
  if decide (submittedAtBlock low_root = 0) then reverts LowRootNotSubmitted else
  if decide (lowCommit ≠ stateCommit low_root) then reverts LowCommitMismatch else
  let? gameId := add_at 256 (nextGameId st) 1 in
  let? deadline := add_at 64 (uint64 (block_number tx)) (BISECTION_RESPONSE_TIMEOUT params) in
  let g :=
    {| g_sequencer := root_sequencer root; g_challenger := msg_sender tx;
       g_low := {| idx := lowLogIndex; commit := lowCommit |};
       g_high := {| idx := disputedLogIndex; commit := stateCommit root |};
       g_hasPendingMidpoint := false;
       g_pendingMidpoint := g_pendingMidpoint (game_at st gameId); g_depth := 0;
       g_turn := Sequencer; g_turnDeadline := deadline; g_sequencerBond := 0;
       g_challengerBond := uint128 (msg_value tx); g_status := InProgress;
       g_deploymentId := deployment_of (outside st);
       g_lastStepBlock := uint64 (block_number tx); g_disputedLogIndex := disputedLogIndex |} in
  let? outside' := ok_or (mark_disputed (outside st) (as_game tx) disputedLogIndex)
                         (Revert OutsideReverted) in
  Ok ({| games := <[gameId := g]> (games st); nextGameId := gameId;
         activeGameForLogIndex := <[disputedLogIndex := gameId]> (activeGameForLogIndex st);
         pendingWithdrawals := pendingWithdrawals st; ether := ether st + msg_value tx;
         outside := outside' |}, gameId).

(** The guards the two bisection moves share after their own. *)
Definition step_allowed (g : L1Game) (tx : Tx) : game_call () :=
  let? earliest := add_at 64 (g_lastStepBlock g) (MIN_BISECTION_STEP_INTERVAL_BLOCKS params) in
  if decide (block_number tx < earliest) then reverts BisectionStepTooFast else
  if decide (msg_sender tx ≠ l1_responsible g) then reverts NotResponsible else
  Ok ().

Definition submitMidpoint (st : Storage R) (tx : Tx) (gameId : Z) (midpointCommit : bytes32)
    : game_call (Storage R) :=
  let g := game_at st gameId in
  if decide (g_status g ≠ InProgress) then reverts L1GameAlreadyEnded else
  if decide (g_turnDeadline g < block_number tx) then reverts TurnDeadlineExpired else
  if g_hasPendingMidpoint g then reverts MidpointAlreadyPending else
  if decide (MAX_BISECTION_DEPTH ≤ g_depth g) then reverts DepthCapExceeded else
  let? _ := step_allowed g tx in
  let? sum := add_at 64 (idx (g_low g)) (idx (g_high g)) in
  let mpIdx := sum / 2 in
  if decide (mpIdx ≤ idx (g_low g) ∨ idx (g_high g) ≤ mpIdx) then reverts L1MidpointOutOfRange else
  let? deadline := add_at 64 (uint64 (block_number tx)) (BISECTION_RESPONSE_TIMEOUT params) in
  Ok (put_game st gameId
    {| g_sequencer := g_sequencer g; g_challenger := g_challenger g; g_low := g_low g;
       g_high := g_high g; g_hasPendingMidpoint := true;
       g_pendingMidpoint := {| idx := mpIdx; commit := midpointCommit |};
       g_depth := g_depth g; g_turn := flip (g_turn g); g_turnDeadline := deadline;
       g_sequencerBond := g_sequencerBond g; g_challengerBond := g_challengerBond g;
       g_status := g_status g; g_deploymentId := g_deploymentId g;
       g_lastStepBlock := uint64 (block_number tx);
       g_disputedLogIndex := g_disputedLogIndex g |}).

Definition respondToMidpoint (st : Storage R) (tx : Tx) (gameId : Z) (agree : bool)
    : game_call (Storage R) :=
  let g := game_at st gameId in
  if decide (g_status g ≠ InProgress) then reverts L1GameAlreadyEnded else
  if decide (g_turnDeadline g < block_number tx) then reverts TurnDeadlineExpired else
  if negb (g_hasPendingMidpoint g) then reverts NoPendingMidpoint else
  let? _ := step_allowed g tx in
  let? depth := add_at 64 (g_depth g) 1 in
  if decide (MAX_BISECTION_DEPTH < depth) then reverts DepthCapExceeded else
  let? deadline := add_at 64 (uint64 (block_number tx)) (BISECTION_RESPONSE_TIMEOUT params) in
  Ok (put_game st gameId
    {| g_sequencer := g_sequencer g; g_challenger := g_challenger g;
       g_low := if agree then g_pendingMidpoint g else g_low g;
       g_high := if agree then g_high g else g_pendingMidpoint g;
       g_hasPendingMidpoint := false; g_pendingMidpoint := g_pendingMidpoint g;
       g_depth := depth; g_turn := flip (g_turn g); g_turnDeadline := deadline;
       g_sequencerBond := g_sequencerBond g; g_challengerBond := g_challengerBond g;
       g_status := g_status g; g_deploymentId := g_deploymentId g;
       g_lastStepBlock := uint64 (block_number tx);
       g_disputedLogIndex := g_disputedLogIndex g |}).

(** ** Settlement *)

(** [try ... catch {}]: a call that reverts changes nothing. *)
Definition attempt (r : R) (call : option R) : R := default r call.

Definition settled_game (g : L1Game) (finalStatus : GameStatus) (sequencerBond : Z) : L1Game :=
  {| g_sequencer := g_sequencer g; g_challenger := g_challenger g; g_low := g_low g;
     g_high := g_high g; g_hasPendingMidpoint := g_hasPendingMidpoint g;
     g_pendingMidpoint := g_pendingMidpoint g; g_depth := g_depth g; g_turn := g_turn g;
     g_turnDeadline := g_turnDeadline g; g_sequencerBond := sequencerBond;
     g_challengerBond := g_challengerBond g; g_status := finalStatus;
     g_deploymentId := g_deploymentId g; g_lastStepBlock := g_lastStepBlock g;
     g_disputedLogIndex := g_disputedLogIndex g |}.

Definition challenger_wins (finalStatus : GameStatus) : bool :=
  match finalStatus with SequencerWon | TimedOutChallenger => false | _ => true end.

Definition winner_of (g : L1Game) (finalStatus : GameStatus) : address :=
  if challenger_wins finalStatus then g_challenger g else g_sequencer g.

(** The calls to the other contracts when the challenger wins: the slash with
    the ether it brings, the revert of the range, and the bridge leg. *)
Definition slash_leg (r : R) (tx : Tx) (g : L1Game) : game_call (R * Z * Z) :=
  match slash_bond r (as_game tx) (g_disputedLogIndex g) (self_address params) with
  | Some (r', delta) =>
      let? sequencerBond := add_at 128 (g_sequencerBond g) (uint128 delta) in
      Ok (r', delta, sequencerBond)
  | None => Ok (r, 0, g_sequencerBond g)
  end.

Definition revert_legs (r : R) (tx : Tx) (gameId : Z) (g : L1Game) : R :=
  let r := attempt r (revert_from r (as_game tx) (g_disputedLogIndex g)) in
  if decide (disputeVerifier params ≠ 0)
  then attempt r (finaliseFromFaultProof r (as_game tx) gameId (g_disputedLogIndex g))
  else r.

Definition clear_leg (r : R) (tx : Tx) (g : L1Game) : R :=
  attempt r (clear_disputed r (as_game tx) (g_disputedLogIndex g)).

(** [pendingWithdrawals[a] += v] when [v] is positive. *)
Definition credit (m : gmap Z Z) (a : address) (v : Z) : game_call (gmap Z Z) :=
  if decide (0 < v) then
    let? total := add_at 256 (get 0 m a) v in Ok (<[a := total]> m)
  else Ok m.

Definition settle (st : Storage R) (tx : Tx) (gameId : Z) (finalStatus : GameStatus)
    : game_call (Storage R) :=
  let g := game_at st gameId in
  let wins := challenger_wins finalStatus in
  let winner := winner_of g finalStatus in
  let? (outside', delta, sequencerBond) :=
    (if wins then
       let? (r, delta, bond) := slash_leg (outside st) tx g in
       Ok (revert_legs r tx gameId g, delta, bond)
     else Ok (clear_leg (outside st) tx g, 0, g_sequencerBond g)) in
  let? totalBonds := add_at 128 sequencerBond (g_challengerBond g) in
  let? scaled := mul_at 128 totalBonds 95 in
  let winnerPayout := scaled / 100 in
  let treasuryPayout := totalBonds - winnerPayout in
  let? credited := credit (pendingWithdrawals st) winner winnerPayout in
  let? credited := credit credited (treasury params) treasuryPayout in
  Ok {| games := <[gameId := settled_game g finalStatus sequencerBond]> (games st);
        nextGameId := nextGameId st;
        activeGameForLogIndex := <[g_disputedLogIndex g := 0]> (activeGameForLogIndex st);
        pendingWithdrawals := credited; ether := ether st + delta; outside := outside' |}.

Definition claimTimeout (st : Storage R) (tx : Tx) (gameId : Z) : game_call (Storage R) :=
  let g := game_at st gameId in
  if decide (g_status g ≠ InProgress) then reverts L1GameAlreadyEnded else
  if decide (block_number tx ≤ g_turnDeadline g) then reverts TurnDeadlineExpired else
  settle st tx gameId
    (match g_turn g with Sequencer => TimedOutSequencer | Challenger => TimedOutChallenger end).

Definition withdraw (st : Storage R) (tx : Tx) : game_call (Storage R * Z) :=
  let amount := get 0 (pendingWithdrawals st) (msg_sender tx) in
  if decide (amount = 0) then reverts NothingToWithdraw else
  if negb (accepts tx (msg_sender tx) amount) then reverts BondTransferFailed else
  Ok ({| games := games st; nextGameId := nextGameId st;
         activeGameForLogIndex := activeGameForLogIndex st;
         pendingWithdrawals := <[msg_sender tx := 0]> (pendingWithdrawals st);
         ether := ether st - amount; outside := outside st |}, amount).

(** [receive]: any ether sent to the contract is accepted. *)
Definition receive (st : Storage R) (tx : Tx) : Storage R :=
  {| games := games st; nextGameId := nextGameId st;
     activeGameForLogIndex := activeGameForLogIndex st;
     pendingWithdrawals := pendingWithdrawals st; ether := ether st + msg_value tx;
     outside := outside st |}.

(** ** The terminal step *)

Definition SIG_BYTES : nat := 65.

(** [ActionsRoot.actionLeafCommit]. *)
Definition actionLeafCommit (a : TerminateArgs) : game_call bytes32 :=
  if decide (length (actionSig a) ≠ SIG_BYTES) then reverts ActionSigWrongLength else
  Ok (keccak (to_be_bytes 1 (actionKind a) ++ to_be_bytes 8 (signer a) ++
              actionFields a ++ actionSig a)).

Definition requireActionInBatch (st : Storage R) (disputedEndIndex stepIndex : Z)
    (a : TerminateArgs) : game_call () :=
  let batchActionsRoot := actionsRoot (get_root (outside st) disputedEndIndex) in
  let? leaf := actionLeafCommit a in
  if verifyActionInclusion batchActionsRoot stepIndex leaf (actionProof a) then Ok ()
  else reverts ActionNotInBatch.

Definition CELL_REGISTRY : Z := 2.
Definition CELL_NONCE : Z := 1.

(** [CBEEncode.bytesValue]. *)
Definition cbe_bytes (payload : list u8) : list u8 :=
  byte_of 2 :: to_le_bytes 8 (Z.of_nat (length payload)) ++ payload.

Fixpoint frontierNonce (opened : list OpenedCell) (signer : Z) : option Z :=
  match opened with
  | [] => None
  | c :: rest =>
      if decide (cellKind c = CELL_NONCE ∧ keyA c = signer ∧ keyB c = 0) then
        match preValue c with
        | b :: payload =>
            if decide (length payload = 8%nat ∧ byte_val b = 0)
            then Some (from_le_bytes payload) else None
        | [] => None
        end
      else frontierNonce rest signer
  end.

(** [Secp256k1.N_HALF]. *)
Definition N_HALF : Z := 0x7FFFFFFFFFFFFFFFFFFFFFFFFFFFFFFF5D576E7357A4501DDFE92F46681B20A0.

(** The registered key of the signer: [None] when the cell is absent or does
    not hold a 33-byte key the library can interpret. *)
Definition registered_key (registryValue : list u8) : option address :=
  match registryValue with
  | tag :: rest =>
      if decide (byte_val tag = 2 ∧ (8 ≤ length rest)%nat) then
        let pk := drop 8 rest in
        if decide (from_le_bytes (take 8 rest) = Z.of_nat (length pk) ∧ length pk = 33%nat)
        then tryToAddress pk else None
      else None
  | [] => None
  end.

Definition signatureValid (preRoot deployment : bytes32) (a : TerminateArgs) : game_call bool :=
  let smtKey := deriveCellSmtKey CELL_REGISTRY (signer a) 0 in
  let isAbsent := bool_decide (registryValue a = []) in
  let leaf := cellLeafHash isAbsent
                (if isAbsent then [] else cbe_bytes smtKey ++ cbe_bytes (registryValue a)) in
  if decide (recomputeRootFromLeaf smtKey leaf (registryProof a) ≠ preRoot)
  then reverts RegistryOpeningInvalid else
  if isAbsent then Ok false else
  match registered_key (registryValue a) with
  | None => Ok false
  | Some keyAddr =>
      if decide (length (actionSig a) ≠ 65%nat) then Ok false else
      let v := from_be_bytes (drop 64 (actionSig a)) in
      if decide (v ≠ 27 ∧ v ≠ 28) then Ok false else
      let r := from_be_bytes (take 32 (actionSig a)) in
      let s := from_be_bytes (take 32 (drop 32 (actionSig a))) in
      if decide (N_HALF < s) then Ok false else
      match frontierNonce (opened_cells a) (signer a) with
      | None => Ok false
      | Some nonce =>
          let digest := signingDigest (actionKind a) (actionFields a) (signer a) nonce deployment in
          let recovered := ecrecover digest v r s in
          Ok (bool_decide (recovered ≠ 0 ∧ recovered = keyAddr))
      end
  end.

(** The state root the disputed step leads to. *)
Definition adjudicated (st : Storage R) (g : L1Game) (a : TerminateArgs) : game_call bytes32 :=
  let? _ := requireActionInBatch st (g_disputedLogIndex g) (idx (g_low g)) a in
  let? computed :=
    ok_or (executeStepToRootMulti (commit (g_low g)) (actionKind a) (actionFields a) (signer a)
             (idx (g_high g)) (opened_cells a) (gapMask a) (siblings a))
          (Revert OutsideReverted) in
  let? valid := signatureValid (commit (g_low g)) (g_deploymentId g) a in
  Ok (if valid then computed else commit (g_low g)).

Definition terminateOnSingleStep (st : Storage R) (tx : Tx) (gameId : Z) (a : TerminateArgs)
    : game_call (Storage R) :=
  let g := game_at st gameId in
  if decide (g_status g ≠ InProgress) then reverts L1GameAlreadyEnded else
  let? distance := sub_at (idx (g_high g)) (idx (g_low g)) in
  if decide (distance ≠ 1) then reverts L1RangeNotSingleStep else
  if g_hasPendingMidpoint g then reverts MidpointAlreadyPending else
  if decide (msg_sender tx ≠ l1_responsible g) then reverts NotResponsible else
  let? post := adjudicated st g a in
  settle st tx gameId
    (if decide (post = commit (g_high g))
     then match g_turn g with Sequencer => SequencerWon | Challenger => ChallengerWon end
     else match g_turn g with Sequencer => ChallengerWon | Challenger => SequencerWon end).
End Contract.

(** ** Executions *)

Inductive game_op : Type :=
| InitiateChallenge (disputedLogIndex : Z) (challengerCommit lowCommit : bytes32) (lowLogIndex : Z)
| SubmitMidpointCall (gameId : Z) (midpointCommit : bytes32)
| RespondToMidpoint (gameId : Z) (agree : bool)
| TerminateOnSingleStepCall (gameId : Z) (a : TerminateArgs)
| ClaimTimeout (gameId : Z)
| Withdraw
| Receive.

(** What the game relies on: in the states of the contracts around it, which
    its own calls do not leave, the amount of a slash is a [uint128]. *)
Class OutsideOk (R : Type) `{IStateRootSubmission R, IDisputeVerifierV2 R} : Type := {
  outside_ok : R → Prop;
  slash_u128 r tx i a r' v : outside_ok r → slash_bond r tx i a = Some (r', v) → in_u128 v;
  slash_keeps r tx i a r' v : outside_ok r → slash_bond r tx i a = Some (r', v) → outside_ok r';
  mark_keeps r tx i r' : outside_ok r → mark_disputed r tx i = Some r' → outside_ok r';
  clear_keeps r tx i r' : outside_ok r → clear_disputed r tx i = Some r' → outside_ok r';
  revert_keeps r tx i r' : outside_ok r → revert_from r tx i = Some r' → outside_ok r';
  verifier_keeps r tx id_ i r' :
    outside_ok r → finaliseFromFaultProof r tx id_ i = Some r' → outside_ok r';
}.

Section Execution.
Context {R : Type} `{OutsideOk R, Adjudication}.
Context (params : GameParams).

Definition game_exec (st : Storage R) (tx : Tx) (o : game_op) : game_call (Storage R) :=
  match o with
  | InitiateChallenge d c l i => result_map fst (initiateChallenge params st tx d c l i)
  | SubmitMidpointCall id c => submitMidpoint params st tx id c
  | RespondToMidpoint id b => respondToMidpoint params st tx id b
  | TerminateOnSingleStepCall id a => terminateOnSingleStep params st tx id a
  | ClaimTimeout id => claimTimeout params st tx id
  | Withdraw => result_map fst (withdraw st tx)
  | Receive => Ok (receive st tx)
  end.

(** The ether a call leaves with the contract for nobody. *)
Definition gift (tx : Tx) (o : game_op) : Z := match o with Receive => msg_value tx | _ => 0 end.

(** What a game in progress has at stake. *)
Definition stake (g : L1Game) : Z :=
  match g_status g with InProgress => g_sequencerBond g + g_challengerBond g | _ => 0 end.

(** ** What settlement does *)

Lemma credit_Ok m a v m' :
  credit m a v = Ok m' → 0 ≤ v →
  map_sum id m' = map_sum id m + v ∧ get 0 m' a = get 0 m a + v ∧
  ∀ b, b ≠ a → get 0 m' b = get 0 m b.
Proof.
  unfold credit. case_decide; intros Hc Hv.
  - apply result_bind_Ok in Hc as (t & [-> _]%add_at_Ok & [= <-]).
    rewrite (map_sum_insert id 0) by done. cbn. rewrite get_insert.
    split_and!; [lia|done|]. intros b Hb. by apply get_insert_ne.
  - injection Hc as <-. split_and!; [lia|lia|done].
Qed.

(** The ledger after a settlement: the pool of the game moves to the winner and
    the treasury, 95 to 5, and what the slash brought is in it. *)
Record settled (st st' : Storage R) (id_ : Z) (s : GameStatus) (pool : Z) : Prop := {
  settled_games : ∃ sb, games st' = <[id_ := settled_game (game_at st id_) s sb]> (games st);
  settled_next : nextGameId st' = nextGameId st;
  settled_lock : activeGameForLogIndex st' =
    <[g_disputedLogIndex (game_at st id_) := 0]> (activeGameForLogIndex st);
  settled_pool : g_sequencerBond (game_at st id_) + g_challengerBond (game_at st id_) ≤ pool;
  settled_ether : ether st' = ether st + pool -
    (g_sequencerBond (game_at st id_) + g_challengerBond (game_at st id_));
  settled_credits : map_sum id (pendingWithdrawals st') = map_sum id (pendingWithdrawals st) + pool;
  settled_payout :
    get 0 (pendingWithdrawals st) (winner_of (game_at st id_) s) + pool * 95 / 100 ≤
    get 0 (pendingWithdrawals st') (winner_of (game_at st id_) s);
  settled_outside : outside_ok (outside st');
  settled_monotone b : get 0 (pendingWithdrawals st) b ≤ get 0 (pendingWithdrawals st') b;
}.

Lemma slash_leg_Ok r tx g r' d sb :
  outside_ok r → slash_leg params r tx g = Ok (r', d, sb) →
  0 ≤ d ∧ sb = g_sequencerBond g + d ∧ outside_ok r'.
Proof.
  intros Hr. unfold slash_leg. destruct (slash_bond _ _ _ _) as [[r1 d1]|] eqn:Hs.
  - pose proof (slash_u128 _ _ _ _ _ _ Hr Hs) as Hu.
    pose proof (slash_keeps _ _ _ _ _ _ Hr Hs). intros (b & [-> _]%add_at_Ok & [= <- <- <-])%result_bind_Ok.
    rewrite uint128_id by done. split_and!; [apply Hu|done|done].
  - intros [= <- <- <-]. split_and!; [lia|lia|done].
Qed.

Lemma revert_legs_keeps r tx id_ g : outside_ok r → outside_ok (revert_legs params r tx id_ g).
Proof.
  intros Hr. unfold revert_legs, attempt.
  destruct (revert_from _ _ _) as [r1|] eqn:Hrev; cbn;
    [apply revert_keeps in Hrev; [|done]|]; (case_decide; [|done]);
    destruct (finaliseFromFaultProof _ _ _ _) as [r2|] eqn:Hver; cbn; try done;
    by eapply verifier_keeps in Hver.
Qed.

Lemma clear_leg_keeps r tx g : outside_ok r → outside_ok (clear_leg params r tx g).
Proof.
  intros Hr. unfold clear_leg, attempt. destruct (clear_disputed _ _ _) eqn:Hc; cbn; [|done].
  by eapply clear_keeps in Hc.
Qed.

Lemma settle_Ok st tx id_ s st' :
  outside_ok (outside st) →
  0 ≤ g_sequencerBond (game_at st id_) → 0 ≤ g_challengerBond (game_at st id_) →
  settle params st tx id_ s = Ok st' → ∃ pool, settled st st' id_ s pool.
Proof.
  intros Hout Hs0 Hc0. unfold settle. set (g := game_at st id_) in *.
  intros ([[r d] sb] & Hlegs & Hrun)%result_bind_Ok.
  assert (Hd : 0 ≤ d ∧ sb = g_sequencerBond g + d ∧ outside_ok r).
  { destruct (challenger_wins s).
    - apply result_bind_Ok in Hlegs as ([[r1 d1] b1] & Hleg & [= <- <- <-]).
      apply slash_leg_Ok in Hleg as (? & ? & ?); [|done].
      split_and!; [done..|]. by apply revert_legs_keeps.
    - injection Hlegs as <- <- <-. split_and!; [lia|lia|]. by apply clear_leg_keeps. }
  clear Hlegs. destruct Hd as (Hd & -> & Hr').
  apply result_bind_Ok in Hrun as (total & [-> _]%add_at_Ok & Hrun).
  apply result_bind_Ok in Hrun as (scaled & [-> _]%mul_at_Ok & Hrun).
  set (pool := g_sequencerBond g + d + g_challengerBond g) in *.
  set (winner := winner_of g s) in *.
  assert (0 ≤ pool * 95 / 100 ≤ pool).
  { split; [apply Z.div_pos; lia|]. apply Z.div_le_upper_bound; lia. }
  apply result_bind_Ok in Hrun as (m1 & Hm1 & Hrun). apply result_bind_Ok in Hrun as (m2 & Hm2 & [= <-]).
  apply credit_Ok in Hm1 as (Hsum1 & Hw1 & Ho1); [|lia].
  apply credit_Ok in Hm2 as (Hsum2 & Hw2 & Ho2); [|lia].
  assert (Hmono : ∀ b, get 0 (pendingWithdrawals st) b ≤ get 0 m1 b ∧ get 0 m1 b ≤ get 0 m2 b).
  { intros b. split.
    - destruct (decide (b = winner)) as [->|]; [lia|]. rewrite Ho1 by done. lia.
    - destruct (decide (b = treasury params)) as [->|]; [lia|]. rewrite Ho2 by done. lia. }
  exists pool. split; cbn; fold g; fold winner; try done; try lia.
  - by eexists.
  - pose proof (Hmono winner). lia.
  - intros b. pose proof (Hmono b). lia.
Qed.

(** ** The ledger of the contract *)

Context (bond_pos : 0 < MIN_CHALLENGE_BOND params < 2 ^ 128).

Record ledger (gifts : Z) (st : Storage R) : Prop := {
  ledger_ether : ether st = map_sum id (pendingWithdrawals st) + map_sum stake (games st) + gifts;
  ledger_gifts : 0 ≤ gifts;
  ledger_bonds id_ g : games st !! id_ = Some g → g_status g = InProgress →
    g_sequencerBond g = 0 ∧ g_challengerBond g = MIN_CHALLENGE_BOND params;
  ledger_locked id_ g : games st !! id_ = Some g → g_status g = InProgress →
    1 ≤ id_ ≤ nextGameId st ∧ 0 < g_disputedLogIndex g ∧
    get 0 (activeGameForLogIndex st) (g_disputedLogIndex g) = id_;
  ledger_active i : get 0 (activeGameForLogIndex st) i ≠ 0 →
    ∃ g, games st !! get 0 (activeGameForLogIndex st) i = Some g ∧ g_status g = InProgress ∧
         g_disputedLogIndex g = i;
  ledger_next : 0 ≤ nextGameId st;
  ledger_credit b : 0 ≤ get 0 (pendingWithdrawals st) b;
  ledger_outside : outside_ok (outside st);
}.

Lemma game_at_bonds gifts st id_ :
  ledger gifts st → g_status (game_at st id_) = InProgress →
  0 ≤ g_sequencerBond (game_at st id_) ∧ 0 ≤ g_challengerBond (game_at st id_) ∧
  stake (game_at st id_) = g_sequencerBond (game_at st id_) + g_challengerBond (game_at st id_).
Proof.
  intros Hl Hs. unfold stake. rewrite Hs. unfold game_at, get in *.
  destruct (games st !! id_) as [g|] eqn:Hg; cbn in *; [|lia].
  destruct (ledger_bonds gifts st Hl id_ g Hg Hs). lia.
Qed.

(** A move rewrites a game without touching its money or its lock. *)
Lemma ledger_move gifts st id_ g' :
  ledger gifts st → g_status (game_at st id_) = InProgress → 0 < id_ → games st !! id_ ≠ None →
  g_status g' = InProgress → g_sequencerBond g' = g_sequencerBond (game_at st id_) →
  g_challengerBond g' = g_challengerBond (game_at st id_) →
  g_disputedLogIndex g' = g_disputedLogIndex (game_at st id_) →
  ledger gifts (put_game st id_ g').
Proof.
  intros Hl Hs Hpos Hex Hs' Hsb Hcb Hd. destruct (games st !! id_) as [g|] eqn:Hg; [|done].
  assert (Hat : game_at st id_ = g) by (unfold game_at, get; by rewrite Hg). rewrite Hat in *.
  destruct Hl as [He Hg0 Hb Hlk Ha Hn Hcr Ho]. split; cbn.
  - rewrite (map_sum_insert stake no_game) by done. fold (game_at st id_). rewrite Hat.
    assert (stake g' = stake g) by (unfold stake; rewrite Hs, Hs'; lia). lia.
  - done.
  - intros j h [(-> & <-)|(_ & Hj)]%lookup_insert_Some; [|by eauto].
    intros _. rewrite Hsb, Hcb. by eapply Hb.
  - intros j h [(-> & <-)|(_ & Hj)]%lookup_insert_Some; [|by eauto].
    intros _. rewrite Hd. by eapply Hlk.
  - intros i Hi. destruct (Ha i Hi) as (h & Hh & Hhs & Hhd).
    destruct (decide (get 0 (activeGameForLogIndex st) i = id_)) as [Heq|].
    + rewrite Heq in Hh |- *. exists g'. rewrite lookup_insert_eq. split_and!; [done..|]. congruence.
    + exists h. by rewrite lookup_insert_ne.
  - done.
  - done.
  - done.
Qed.

Lemma ledger_settled gifts st st' id_ s pool :
  ledger gifts st → g_status (game_at st id_) = InProgress → s ≠ InProgress →
  settled st st' id_ s pool → ledger gifts st'.
Proof.
  intros Hl Hs Hne [[sb Hg] Hn Hlk Hpool He Hc _ Hout Hmono].
  destruct (game_at_bonds gifts st id_ Hl Hs) as (_ & _ & Hst).
  assert (Hz : stake (settled_game (game_at st id_) s sb) = 0) by (unfold stake; by destruct s).
  assert (Hother : ∀ j h, games st' !! j = Some h → g_status h = InProgress →
    j ≠ id_ ∧ games st !! j = Some h).
  { rewrite Hg. intros j h [(<- & <-)|(Hj & Hh)]%lookup_insert_Some; cbn; [|by auto].
    by intros ->. }
  assert (Hzero : ∀ h, games st !! id_ = Some h →
    get 0 (activeGameForLogIndex st) (g_disputedLogIndex (game_at st id_)) = id_).
  { intros h Hh. unfold game_at, get in Hs |- *. rewrite Hh in *. cbn in *.
    by eapply (ledger_locked gifts st Hl). }
  split; rewrite ?Hn, ?Hlk.
  - rewrite He, Hc, Hg, (map_sum_insert stake no_game) by done. fold (game_at st id_).
    rewrite (ledger_ether gifts st Hl). lia.
  - apply (ledger_gifts gifts st Hl).
  - intros j h Hj Hjs. destruct (Hother j h Hj Hjs). by eapply (ledger_bonds gifts st Hl).
  - intros j h Hj Hjs. destruct (Hother j h Hj Hjs) as [Hji Hh].
    destruct (ledger_locked gifts st Hl j h Hh Hjs) as (? & Hpos & Hact). split_and!; try done; [lia..|].
    rewrite get_insert_ne; [done|]. intros Heq. rewrite <- Heq in Hact.
    destruct (games st !! id_) as [h'|] eqn:Hid; [by specialize (Hzero h' eq_refl); lia|].
    unfold game_at, get in Heq. rewrite Hid in Heq. cbn in Heq. lia.
  - intros i Hi. destruct (decide (i = g_disputedLogIndex (game_at st id_))) as [->|Hid].
    { by rewrite get_insert in Hi. }
    rewrite get_insert_ne in Hi |- * by done. destruct (ledger_active gifts st Hl i Hi) as (h & Hh & ? & ?).
    exists h. rewrite Hg, lookup_insert_ne; [done|]. intros Heq. rewrite <- Heq in *.
    apply Hid. unfold game_at, get. by rewrite Hh.
  - apply (ledger_next gifts st Hl).
  - intros b. pose proof (Hmono b). pose proof (ledger_credit gifts st Hl b). lia.
  - done.
Qed.

(** Every sender has a non-zero address; log indices and amounts are unsigned. *)
Definition tx_typed (tx : Tx) (o : game_op) : Prop :=
  0 < msg_sender tx ∧
  match o with InitiateChallenge d _ _ l => 0 ≤ l | Receive => 0 ≤ msg_value tx | _ => True end.

Lemma step_allowed_Ok g tx :
  step_allowed params g tx = Ok () →
  g_lastStepBlock g + MIN_BISECTION_STEP_INTERVAL_BLOCKS params ≤ block_number tx ∧
  msg_sender tx = l1_responsible g.
Proof.
  unfold step_allowed. intros (e & [-> _]%add_at_Ok & Hr)%result_bind_Ok.
  apply require_Ok in Hr as [? Hr]. apply require_Ok in Hr as [? _]. lia.
Qed.

(** Only the responsible party moves, so a game that was never opened, whose
    parties are the zero address, is not moved on. *)
Lemma responsible_opened gifts (st : Storage R) id_ :
  ledger gifts st → g_status (game_at st id_) = InProgress → 0 < l1_responsible (game_at st id_) →
  0 < id_ ∧ games st !! id_ ≠ None.
Proof.
  intros Hl Hs Hr. unfold game_at, get in *. destruct (games st !! id_) as [g|] eqn:Hg; cbn in *.
  - split; [|done]. destruct (ledger_locked gifts st Hl id_ g Hg Hs). lia.
  - cbn in Hr. lia.
Qed.

(** The guards of a bisection move, and what it writes. *)
Lemma submitMidpoint_Ok (st : Storage R) tx id_ c st' :
  submitMidpoint params st tx id_ c = Ok st' →
  let g := game_at st id_ in
  g_status g = InProgress ∧ block_number tx ≤ g_turnDeadline g ∧
  g_hasPendingMidpoint g = false ∧ g_depth g < MAX_BISECTION_DEPTH ∧
  msg_sender tx = l1_responsible g ∧
  idx (g_low g) + idx (g_high g) < 2 ^ 64 ∧
  idx (g_low g) < (idx (g_low g) + idx (g_high g)) / 2 < idx (g_high g) ∧
  st' = put_game st id_
    {| g_sequencer := g_sequencer g; g_challenger := g_challenger g; g_low := g_low g;
       g_high := g_high g; g_hasPendingMidpoint := true;
       g_pendingMidpoint := {| idx := (idx (g_low g) + idx (g_high g)) / 2; commit := c |};
       g_depth := g_depth g; g_turn := flip (g_turn g);
       g_turnDeadline := uint64 (block_number tx) + BISECTION_RESPONSE_TIMEOUT params;
       g_sequencerBond := g_sequencerBond g; g_challengerBond := g_challengerBond g;
       g_status := g_status g; g_deploymentId := g_deploymentId g;
       g_lastStepBlock := uint64 (block_number tx);
       g_disputedLogIndex := g_disputedLogIndex g |}.
Proof.
  unfold submitMidpoint. intros Hrun. apply require_Ok in Hrun as [Hs Hrun].
  apply dec_stable in Hs. apply require_Ok in Hrun as [? Hrun].
  apply require_bool_Ok in Hrun as [? Hrun]. apply require_Ok in Hrun as [? Hrun].
  apply result_bind_Ok in Hrun as ([] & [_ ?]%step_allowed_Ok & Hrun).
  apply result_bind_Ok in Hrun as (? & [-> ?]%add_at_Ok & Hrun).
  apply require_Ok in Hrun as [? Hrun].
  apply result_bind_Ok in Hrun as (? & [-> _]%add_at_Ok & [= <-]).
  split_and!; try done; lia.
Qed.

Lemma respondToMidpoint_Ok (st : Storage R) tx id_ a st' :
  respondToMidpoint params st tx id_ a = Ok st' →
  let g := game_at st id_ in
  g_status g = InProgress ∧ block_number tx ≤ g_turnDeadline g ∧
  g_hasPendingMidpoint g = true ∧ g_depth g < MAX_BISECTION_DEPTH ∧
  msg_sender tx = l1_responsible g ∧
  st' = put_game st id_
    {| g_sequencer := g_sequencer g; g_challenger := g_challenger g;
       g_low := if a then g_pendingMidpoint g else g_low g;
       g_high := if a then g_high g else g_pendingMidpoint g;
       g_hasPendingMidpoint := false; g_pendingMidpoint := g_pendingMidpoint g;
       g_depth := g_depth g + 1; g_turn := flip (g_turn g);
       g_turnDeadline := uint64 (block_number tx) + BISECTION_RESPONSE_TIMEOUT params;
       g_sequencerBond := g_sequencerBond g; g_challengerBond := g_challengerBond g;
       g_status := g_status g; g_deploymentId := g_deploymentId g;
       g_lastStepBlock := uint64 (block_number tx);
       g_disputedLogIndex := g_disputedLogIndex g |}.
Proof.
  unfold respondToMidpoint. intros Hrun. apply require_Ok in Hrun as [Hs Hrun].
  apply dec_stable in Hs. apply require_Ok in Hrun as [? Hrun].
  apply require_bool_Ok in Hrun as [? Hrun].
  apply result_bind_Ok in Hrun as ([] & [_ ?]%step_allowed_Ok & Hrun).
  apply result_bind_Ok in Hrun as (? & [-> ?]%add_at_Ok & Hrun).
  apply require_Ok in Hrun as [? Hrun].
  apply result_bind_Ok in Hrun as (? & [-> _]%add_at_Ok & [= <-]).
  split_and!; try done; try lia. by apply negb_false_iff.
Qed.

Lemma terminate_inv (st : Storage R) tx id_ a st' :
  terminateOnSingleStep params st tx id_ a = Ok st' →
  let g := game_at st id_ in
  g_status g = InProgress ∧ idx (g_high g) = idx (g_low g) + 1 ∧
  g_hasPendingMidpoint g = false ∧ msg_sender tx = l1_responsible g ∧
  ∃ post, adjudicated st g a = Ok post ∧
    settle params st tx id_
      (if decide (post = commit (g_high g))
       then match g_turn g with Sequencer => SequencerWon | Challenger => ChallengerWon end
       else match g_turn g with Sequencer => ChallengerWon | Challenger => SequencerWon end)
      = Ok st'.
Proof.
  unfold terminateOnSingleStep. intros Hrun. apply require_Ok in Hrun as [Hs Hrun].
  apply dec_stable in Hs. apply result_bind_Ok in Hrun as (? & [-> ?]%sub_at_Ok & Hrun).
  apply require_Ok in Hrun as [? Hrun]. apply require_bool_Ok in Hrun as [? Hrun].
  apply require_Ok in Hrun as [? Hrun]. apply result_bind_Ok in Hrun as (post & ? & Hrun).
  split_and!; try done; try lia. by exists post.
Qed.

Lemma claimTimeout_inv (st : Storage R) tx id_ st' :
  claimTimeout params st tx id_ = Ok st' →
  let g := game_at st id_ in
  g_status g = InProgress ∧ g_turnDeadline g < block_number tx ∧
  settle params st tx id_
    (match g_turn g with Sequencer => TimedOutSequencer | Challenger => TimedOutChallenger end)
    = Ok st'.
Proof.
  unfold claimTimeout. intros Hrun. apply require_Ok in Hrun as [Hs Hrun].
  apply dec_stable in Hs. apply require_Ok in Hrun as [? Hrun]. split_and!; [done|lia|done].
Qed.

Lemma ledger_settle gifts st tx id_ s st' :
  ledger gifts st → g_status (game_at st id_) = InProgress → s ≠ InProgress →
  settle params st tx id_ s = Ok st' → ledger gifts st'.
Proof.
  intros Hl Hs Hne Hrun. destruct (game_at_bonds gifts st id_ Hl Hs) as (? & ? & _).
  apply settle_Ok in Hrun as (pool & Hset); [|apply (ledger_outside gifts st Hl)|done..]. by eapply ledger_settled.
Qed.

Lemma ledger_initiate gifts st tx d c l i st' id_ :
  ledger gifts st → 0 ≤ i → initiateChallenge params st tx d c l i = Ok (st', id_) → ledger gifts st'.
Proof.
  intros Hl Hi Hrun. unfold initiateChallenge in Hrun.
  apply require_Ok in Hrun as [Hv Hrun]. apply dec_stable in Hv.
  apply require_Ok in Hrun as [Hfree Hrun]. apply dec_stable in Hfree.
  do 2 (apply require_Ok in Hrun as [? Hrun]). do 2 (apply require_bool_Ok in Hrun as [_ Hrun]).
  do 4 (apply require_Ok in Hrun as [_ Hrun]).
  apply result_bind_Ok in Hrun as (id' & [-> _]%add_at_Ok & Hrun).
  apply result_bind_Ok in Hrun as (dl & _ & Hrun).
  apply result_bind_Ok in Hrun as (r' & Hmark & [= <- <-]).
  assert (Hu : uint128 (msg_value tx) = MIN_CHALLENGE_BOND params).
  { rewrite Hv. apply uint128_id. unfold in_width. lia. }
  assert (Hold : stake (game_at st (nextGameId st + 1)) = 0).
  { unfold stake, game_at, get. destruct (games st !! (nextGameId st + 1)) as [g|] eqn:Hg; [|done].
    cbn. destruct (g_status g) eqn:Hs; try done.
    destruct (ledger_locked gifts st Hl _ g Hg Hs). lia. }
  pose proof (ledger_next gifts st Hl) as Hnext. split; cbn.
  - rewrite (map_sum_insert stake no_game) by done. fold (game_at st (nextGameId st + 1)).
    rewrite Hold. cbn. rewrite (ledger_ether gifts st Hl), Hu. lia.
  - apply (ledger_gifts gifts st Hl).
  - intros j h [(_ & <-)|(_ & Hj)]%lookup_insert_Some; [done|]. by apply (ledger_bonds gifts st Hl j).
  - intros j h [(<- & <-)|(Hji & Hj)]%lookup_insert_Some Hs; cbn.
    + rewrite get_insert. lia.
    + destruct (ledger_locked gifts st Hl j h Hj Hs) as (? & ? & Hact). split_and!; [lia..|].
      rewrite get_insert_ne; [done|]. intros ->. lia.
  - intros k Hk. destruct (decide (k = d)) as [->|].
    + rewrite get_insert. rewrite lookup_insert_eq. by eexists.
    + rewrite get_insert_ne in Hk |- * by done.
      destruct (ledger_active gifts st Hl k Hk) as (h & Hh & Hhs & Hhd). exists h.
      rewrite lookup_insert_ne; [done|]. intros Heq. rewrite <- Heq in Hh.
      destruct (ledger_locked gifts st Hl _ h Hh Hhs). lia.
  - lia.
  - apply (ledger_credit gifts st Hl).
  - destruct (mark_disputed _ _ _) eqn:Hm; cbn in Hmark; simplify_eq.
    eapply mark_keeps; [|exact Hm]. apply (ledger_outside gifts st Hl).
Qed.

Lemma ledger_withdraw gifts st tx st' amount :
  ledger gifts st → withdraw st tx = Ok (st', amount) → ledger gifts st'.
Proof.
  intros Hl. unfold withdraw. intros Hrun. apply require_Ok in Hrun as [_ Hrun].
  apply require_bool_Ok in Hrun as [_ [= <- <-]]. destruct Hl as [He ? ? ? ? ? Hcr ?]. split; cbn; try done.
  - rewrite (map_sum_insert id 0) by done. cbn. lia.
  - intros b. destruct (decide (msg_sender tx = b)) as [<-|]; [by rewrite get_insert|].
    by rewrite get_insert_ne.
Qed.

Lemma ledger_exec gifts st tx o st' :
  ledger gifts st → tx_typed tx o → game_exec st tx o = Ok st' → ledger (gifts + gift tx o) st'.
Proof.
  intros Hl [Hsender Hty]. destruct o; cbn [game_exec gift]; rewrite ?Z.add_0_r.
  - destruct (initiateChallenge _ _ _ _ _ _ _) as [[st1 id1]|] eqn:Hi; [|done].
    intros [= <-]. by eapply ledger_initiate.
  - intros (Hs & _ & _ & _ & Hr & _ & _ & ->)%submitMidpoint_Ok.
    destruct (responsible_opened gifts st gameId Hl Hs) as [? ?]; [lia|]. by apply ledger_move.
  - intros (Hs & _ & _ & _ & Hr & ->)%respondToMidpoint_Ok.
    destruct (responsible_opened gifts st gameId Hl Hs) as [? ?]; [lia|]. by apply ledger_move.
  - intros (Hs & _ & _ & _ & post & _ & Hset)%terminate_inv.
    eapply ledger_settle; [done..| |exact Hset]. by case_decide; destruct (g_turn _).
  - intros (Hs & _ & Hset)%claimTimeout_inv.
    eapply ledger_settle; [done..| |exact Hset]. by destruct (g_turn _).
  - destruct (withdraw st tx) as [[st1 v]|] eqn:Hw; [|done]. intros [= <-].
    by eapply ledger_withdraw.
  - intros [= <-]. destruct Hl as [He ? ? ? ? ? ? ?]. split; cbn in *; try done; lia.
Qed.

Definition with_outside (st : Storage R) (r : R) : Storage R :=
  {| games := games st; nextGameId := nextGameId st;
     activeGameForLogIndex := activeGameForLogIndex st;
     pendingWithdrawals := pendingWithdrawals st; ether := ether st; outside := r |}.

(** The states of the contract, with the ether it was given off-band: from its
    deployment, any calls by anyone, and any change of the contracts around it,
    within their good states, in between. *)
Inductive runs : Z → Storage R → Prop :=
| runs_deploy c1 c2 vm reg r st :
    outside_ok r → game_constructor params c1 c2 vm reg r = Ok st → runs 0 st
| runs_call gifts st tx o st' :
    runs gifts st → tx_typed tx o → game_exec st tx o = Ok st' → runs (gifts + gift tx o) st'
| runs_outside gifts st r : runs gifts st → outside_ok r → runs gifts (with_outside st r).

Lemma runs_ledger gifts st : runs gifts st → ledger gifts st.
Proof.
  induction 1 as [c1 c2 vm reg r st Hr Hc|gifts st tx o st' _ IH Hty Hex|gifts st r _ IH Hr].
  - unfold game_constructor in Hc. do 3 (apply require_Ok in Hc as [_ Hc]).
    do 2 (apply require_bool_Ok in Hc as [_ Hc]). do 2 (apply require_Ok in Hc as [_ Hc]).
    injection Hc as <-. split; cbn; try done.
  - by eapply ledger_exec.
  - by destruct IH; split.
Qed.
End Execution.

(** ** The contract and the observer's state machine *)

(** The state the observer keeps of a game on L1.  Bonds, deadlines and parties
    are not part of the machine. *)
Record views (g : L1Game) (gs : GameState) : Prop := {
  view_low : low (range gs) = g_low g;
  view_high : high (range gs) = g_high g;
  view_pending : pending_midpoint gs =
    if g_hasPendingMidpoint g then Some (g_pendingMidpoint g) else None;
  view_depth : depth gs = g_depth g;
  view_turn : turn gs = g_turn g;
  view_status : status gs = g_status g;
}.

(** A proper range. *)
Definition proper (g : L1Game) : Prop :=
  0 ≤ idx (g_low g) ∧ idx (g_low g) < idx (g_high g) < 2 ^ 64.

Section Refinement.
Context {R : Type} `{IStateRootSubmission R, IDisputeVerifierV2 R, Adjudication}.
Context (params : GameParams).

(** What the observer's machine does for a call it learns of. *)
Definition follows (o : game_op) (after : GameStatus) (gs gs' : GameState) : Prop :=
  match o with
  | SubmitMidpointCall _ c => apply_transition gs (SubmitMidpoint c) = Ok gs'
  | RespondToMidpoint _ a =>
      apply_transition gs (if a then RespondAgree else RespondDisagree) = Ok gs'
  | TerminateOnSingleStepCall _ _ =>
      (∀ c, apply_transition gs (TerminateOnSingleStep c) = Ok gs) ∧
      apply_settlement gs after = Ok gs'
  | ClaimTimeout _ => apply_transition gs TimeoutLoss = Ok gs'
  | InitiateChallenge _ _ _ _ | Withdraw | Receive => gs' = gs
  end.

Definition acts_on (o : game_op) (id_ : Z) : Prop :=
  match o with
  | SubmitMidpointCall i _ | RespondToMidpoint i _ | TerminateOnSingleStepCall i _
  | ClaimTimeout i => i = id_
  | InitiateChallenge _ _ _ _ | Withdraw | Receive => False
  end.

Lemma game_at_put (st : Storage R) id_ g : game_at (put_game st id_ g) id_ = g.
Proof. apply get_insert. Qed.

Lemma settle_status (st : Storage R) tx id_ s st' :
  settle params st tx id_ s = Ok st' →
  ∃ sb, game_at st' id_ = settled_game (game_at st id_) s sb.
Proof.
  unfold settle. intros ([[r d] sb] & _ & Hrun)%result_bind_Ok.
  apply result_bind_Ok in Hrun as (? & _ & Hrun). apply result_bind_Ok in Hrun as (? & _ & Hrun).
  apply result_bind_Ok in Hrun as (? & _ & Hrun).
  apply result_bind_Ok in Hrun as (? & _ & [= <-]).
  exists sb. unfold game_at. cbn. by rewrite get_insert.
Qed.

Lemma settled_views g gs s sb :
  views g gs → views (settled_game g s sb) (with_status gs s).
Proof. intros []. by split. Qed.

Lemma submit_follows (st : Storage R) tx id_ c st' gs :
  proper (game_at st id_) → views (game_at st id_) gs →
  submitMidpoint params st tx id_ c = Ok st' →
  ∃ gs', apply_submit_midpoint gs c = Ok gs' ∧ views (game_at st' id_) gs'.
Proof.
  intros [Hlow Hhigh] [Hl Hh Hp Hd Ht Hs] Hrun.
  apply submitMidpoint_Ok in Hrun as (Hst & _ & Hnp & Hdep & _ & _ & Hmid & ->).
  rewrite Hnp in Hp.
  assert (Hm : midpoint_idx (range gs) =
    (idx (g_low (game_at st id_)) + idx (g_high (game_at st id_))) / 2).
  { rewrite midpoint_exact; rewrite ?Hl, ?Hh; [done|lia|lia]. }
  eexists. split.
  - apply submit_Ok. split_and!; rewrite ?Hs, ?Hd, ?Hm, ?Hl, ?Hh; done || lia.
  - rewrite game_at_put. split; cbn; rewrite ?Hm, ?Ht; done.
Qed.

Lemma respond_follows (st : Storage R) tx id_ a st' gs :
  0 ≤ g_depth (game_at st id_) → views (game_at st id_) gs →
  respondToMidpoint params st tx id_ a = Ok st' →
  ∃ gs', apply_respond gs a = Ok gs' ∧ views (game_at st' id_) gs'.
Proof.
  intros Hd0 [Hl Hh Hp Hd Ht Hs] Hrun.
  apply respondToMidpoint_Ok in Hrun as (Hst & _ & Hnp & Hdep & _ & ->). rewrite Hnp in Hp.
  eexists. split.
  - apply respond_Ok. split_and!; rewrite ?Hs, ?Hd; [done|done|]. by exists (g_pendingMidpoint (game_at st id_)).
  - rewrite game_at_put. split; cbn; rewrite ?Hd, ?Ht; try done.
    + by destruct a.
    + by destruct a.
    + unfold saturating_add, MAX_BISECTION_DEPTH in *. lia.
Qed.

Lemma terminate_follows (st : Storage R) tx id_ a st' gs :
  proper (game_at st id_) → views (game_at st id_) gs →
  terminateOnSingleStep params st tx id_ a = Ok st' →
  ∃ gs', follows (TerminateOnSingleStepCall id_ a) (g_status (game_at st' id_)) gs gs' ∧
         views (game_at st' id_) gs'.
Proof.
  intros [Hlow Hhigh] Hv Hrun.
  apply terminate_inv in Hrun as (Hst & Hss & _ & _ & post & _ & Hset).
  apply settle_status in Hset as [sb Hat]. rewrite Hat. cbn [g_status settled_game follows].
  set (s := if decide _ then _ else _).
  assert (Hgs : status gs = InProgress) by (by rewrite (view_status _ _ Hv)).
  exists (with_status gs s). split; [split|].
  - intros c. apply terminate_Ok. split_and!; [done| |done].
    apply single_step_spec; rewrite ?(view_low _ _ Hv), ?(view_high _ _ Hv); lia.
  - unfold apply_settlement. rewrite Hgs. cbn.
    by destruct (decide _), (g_turn _); cbn.
  - by apply settled_views.
Qed.

Lemma timeout_follows (st : Storage R) tx id_ st' gs :
  views (game_at st id_) gs → claimTimeout params st tx id_ = Ok st' →
  ∃ gs', apply_timeout gs = Ok gs' ∧ views (game_at st' id_) gs'.
Proof.
  intros Hv Hrun. apply claimTimeout_inv in Hrun as (Hst & _ & Hset).
  apply settle_status in Hset as [sb Hat]. rewrite Hat. eexists. split.
  - apply timeout_Ok. split; [|done]. by rewrite (view_status _ _ Hv).
  - rewrite (view_turn _ _ Hv). by apply settled_views.
Qed.
End Refinement.

(** ** The log the batches commit to *)

Record SignedAction : Type :=
  { sa_kind : Z; sa_fields : list u8; sa_signer : Z; sa_sig : list u8 }.

(** What [abi.encodePacked] gives for the leaf of an action. *)
Definition leaf_bytes (x : SignedAction) : list u8 :=
  to_be_bytes 1 (sa_kind x) ++ to_be_bytes 8 (sa_signer x) ++ sa_fields x ++ sa_sig x.

Definition signed_typed (x : SignedAction) : Prop :=
  in_u8 (sa_kind x) ∧ in_u64 (sa_signer x) ∧ length (sa_sig x) = SIG_BYTES.

Definition submitted (a : TerminateArgs) : SignedAction :=
  {| sa_kind := actionKind a; sa_fields := actionFields a; sa_signer := signer a;
     sa_sig := actionSig a |}.

(** The fixed width of the signature makes the leaf determine the action. *)
Lemma leaf_bytes_inj x y :
  signed_typed x → signed_typed y → leaf_bytes x = leaf_bytes y → x = y.
Proof.
  intros (Hkx & Hsx & Hlx) (Hky & Hsy & Hly) Heq. unfold leaf_bytes in Heq.
  apply app_inj_1 in Heq as [Hk Heq]; [|by rewrite !to_be_bytes_length].
  apply app_inj_1 in Heq as [Hs Heq]; [|by rewrite !to_be_bytes_length].
  apply app_inj_2 in Heq as [Hf Hg]; [|congruence].
  apply (f_equal from_be_bytes) in Hk. rewrite !from_to_be_bytes in Hk by done.
  apply (f_equal from_be_bytes) in Hs. rewrite !from_to_be_bytes in Hs by done.
  destruct x, y; cbn in *. by subst.
Qed.

(** The L2 state: its root, the registry cell of an actor, empty when there is
    none, the nonce cell of an actor, and the state an action at a log index
    leads to. *)
Class Kernel (St : Type) : Type := {
  root_of : St → bytes32;
  registry_cell : St → Z → list u8;
  nonce_cell : St → Z → option Z;
  applied : St → Z → SignedAction → St;
}.

(** The signature of an action, against the registered key of its signer and the
    digest over the signer's nonce. *)
Definition authorised `{Adjudication, Kernel St} (deployment : bytes32) (s : St)
    (x : SignedAction) : bool :=
  let v := from_be_bytes (drop 64 (sa_sig x)) in
  match registered_key (registry_cell s (sa_signer x)), nonce_cell s (sa_signer x) with
  | Some keyAddr, Some nonce =>
      bool_decide (v = 27 ∨ v = 28) &&
      bool_decide (from_be_bytes (take 32 (drop 32 (sa_sig x))) ≤ N_HALF) &&
      (let recovered :=
         ecrecover (signingDigest (sa_kind x) (sa_fields x) (sa_signer x) nonce deployment) v
           (from_be_bytes (take 32 (sa_sig x))) (from_be_bytes (take 32 (drop 32 (sa_sig x)))) in
       bool_decide (recovered ≠ 0 ∧ recovered = keyAddr))
  | _, _ => false
  end.

(** The states of the L2: entry [i] leads from state [i] to state [i + 1], and an
    entry its signer did not authorise leaves the state as it is. *)
Definition executes `{Adjudication, Kernel St} (deployment : bytes32) (log : Z → SignedAction)
    (state : Z → St) : Prop :=
  ∀ i, 0 ≤ i →
    state (i + 1) =
      if authorised deployment (state i) (log i) then applied (state i) (i + 1) (log i) else state i.

(** The opening of the registry cell of the signer. *)
Definition registry_opening `{Adjudication} (a : TerminateArgs) : bytes32 :=
  let smtKey := deriveCellSmtKey CELL_REGISTRY (signer a) 0 in
  let isAbsent := bool_decide (registryValue a = []) in
  recomputeRootFromLeaf smtKey
    (cellLeafHash isAbsent
       (if isAbsent then [] else cbe_bytes smtKey ++ cbe_bytes (registryValue a)))
    (registryProof a).

(** What the game relies on in the step VM and the libraries, for the calldata
    anyone can produce ([feasible]: calldata without a hash collision in it).
    Inclusion: what verifies under the actions root of the batch at an index is
    the leaf of the log entry there, and the leaf determines its bytes.
    Openings: a registry cell that opens to the root of a state is that state's,
    and so is the nonce of a frontier the step VM accepted.  Step: the root the
    VM returns is that of the state the submitted action leads to. *)
Record vm_sound `{Adjudication, Kernel St} (log : Z → SignedAction) (state : Z → St)
    (batch_root : bytes32) (feasible : TerminateArgs → Prop) : Prop := {
  sound_inclusion i a :
    feasible a →
    verifyActionInclusion batch_root i (keccak (leaf_bytes (submitted a))) (actionProof a) = true →
    keccak (leaf_bytes (submitted a)) = keccak (leaf_bytes (log i));
  sound_keccak i a :
    feasible a → keccak (leaf_bytes (submitted a)) = keccak (leaf_bytes (log i)) →
    leaf_bytes (submitted a) = leaf_bytes (log i);
  sound_registry i a :
    feasible a → registry_opening a = root_of (state i) →
    registryValue a = registry_cell (state i) (signer a);
  sound_frontier i a n post :
    feasible a →
    executeStepToRootMulti (root_of (state i)) (actionKind a) (actionFields a) (signer a) n
      (opened_cells a) (gapMask a) (siblings a) = Some post →
    frontierNonce (opened_cells a) (signer a) = nonce_cell (state i) (signer a);
  sound_step i a n post :
    feasible a →
    executeStepToRootMulti (root_of (state i)) (actionKind a) (actionFields a) (signer a) n
      (opened_cells a) (gapMask a) (siblings a) = Some post →
    post = root_of (applied (state i) n (submitted a));
}.

Lemma signatureValid_opens `{Adjudication} root deployment a b :
  signatureValid root deployment a = Ok b → registry_opening a = root.
Proof. unfold signatureValid, registry_opening. intros [Hroot _]%require_Ok. by apply dec_stable. Qed.

(** The signature gate is the check of the L2, once the two cells it reads are
    those of the state. *)
Lemma signatureValid_authorised `{Adjudication, Kernel St} deployment (s : St) a b :
  length (actionSig a) = SIG_BYTES → registryValue a = registry_cell s (signer a) →
  frontierNonce (opened_cells a) (signer a) = nonce_cell s (signer a) →
  signatureValid (root_of s) deployment a = Ok b →
  b = authorised deployment s (submitted a).
Proof.
  intros Hlen Hreg Hnonce Hv. unfold signatureValid in Hv. apply require_Ok in Hv as [_ Hv].
  unfold authorised. cbn [sa_kind sa_fields sa_signer sa_sig submitted]. rewrite <- Hreg, <- Hnonce.
  destruct (registryValue a) as [|tag rest]; [by injection Hv as <-|].
  rewrite (bool_decide_eq_false_2 (tag :: rest = [])) in Hv by done.
  destruct (registered_key _) as [key|]; [|by injection Hv as <-].
  rewrite (decide_False (P := length (actionSig a) ≠ 65%nat)) in Hv by (by intros []).
  destruct (frontierNonce _ _) as [nonce|].
  - case_decide; [rewrite bool_decide_eq_false_2 by lia; by injection Hv as <-|].
    rewrite (bool_decide_eq_true_2 (_ ∨ _)) by lia.
    case_decide; [rewrite bool_decide_eq_false_2 by lia; by injection Hv as <-|].
    rewrite (bool_decide_eq_true_2 (_ ≤ N_HALF)) by lia. by injection Hv as <-.
  - repeat case_decide; by injection Hv as <-.
Qed.

(** ** Honest play on L1 *)

Definition view_of (g : L1Game) : GameState :=
  {| Game.sequencer := g_sequencer g; challenger := g_challenger g;
     range := {| low := g_low g; high := g_high g |};
     pending_midpoint := if g_hasPendingMidpoint g then Some (g_pendingMidpoint g) else None;
     depth := g_depth g; turn := g_turn g; sequencer_bond := g_sequencerBond g;
     challenger_bond := g_challengerBond g; status := g_status g;
     deployment_id := g_deploymentId g; actions_root := zero32 |}.

Lemma view_of_views g : views g (view_of g).
Proof. by split. Qed.

Lemma views_range g gs : views g gs → range gs = range (view_of g).
Proof. intros [Hl Hh _ _ _ _]. cbn. rewrite <- Hl, <- Hh. by destruct (range gs). Qed.

Lemma game_ok_views w g gs : views g gs → game_ok w gs → game_ok w (view_of g).
Proof.
  intros Hv Hok. pose proof (views_range g gs Hv) as Hr. destruct Hv as [_ _ Hp Hd Ht _].
  change (if g_hasPendingMidpoint g then _ else _) with (pending_midpoint (view_of g)) in Hp.
  change (g_depth g) with (depth (view_of g)) in Hd.
  change (g_turn g) with (turn (view_of g)) in Ht.
  destruct Hok. split; rewrite <- ?Hr, <- ?Hp, <- ?Hd, <- ?Ht; done.
Qed.

Lemma defended_views truth me g gs :
  views g gs → defended truth me gs → defended truth me (view_of g).
Proof.
  intros Hv Hok. pose proof (views_range g gs Hv) as Hr. destruct Hv as [_ _ Hp _ _ Hs].
  change (if g_hasPendingMidpoint g then _ else _) with (pending_midpoint (view_of g)) in Hp.
  change (g_status g) with (status (view_of g)) in Hs.
  destruct Hok. split; rewrite <- ?Hr, <- ?Hp, <- ?Hs; done.
Qed.

(** The call that plays an honest move. *)
Definition plays_move (mv : HonestMove) (id_ : Z) (o : game_op) : Prop :=
  match mv with
  | NoMove => False
  | Submit c => o = SubmitMidpointCall id_ (commit c)
  | HonestAgree => o = RespondToMidpoint id_ true
  | HonestDisagree => o = RespondToMidpoint id_ false
  | HonestTerminate _ => ∃ a, o = TerminateOnSingleStepCall id_ a
  end.

(** The winner's side of a final status. *)
Definition won_by (me : TurnSide) (s : GameStatus) : Prop :=
  match me with
  | Sequencer => s = SequencerWon ∨ s = TimedOutChallenger
  | Challenger => s = ChallengerWon ∨ s = TimedOutSequencer
  end.

(** What the game's own calls leave alone in the contracts around it: the
    actions roots of the records. *)
Class RecordsKept (R : Type) `{IStateRootSubmission R, IDisputeVerifierV2 R} : Prop := {
  mark_records r tx i r' d :
    mark_disputed r tx i = Some r' → actionsRoot (get_root r' d) = actionsRoot (get_root r d);
  clear_records r tx i r' d :
    clear_disputed r tx i = Some r' → actionsRoot (get_root r' d) = actionsRoot (get_root r d);
  slash_records r tx i a r' v d :
    slash_bond r tx i a = Some (r', v) → actionsRoot (get_root r' d) = actionsRoot (get_root r d);
  revert_records r tx i r' d :
    revert_from r tx i = Some r' → actionsRoot (get_root r' d) = actionsRoot (get_root r d);
  verifier_records r tx g i r' d :
    finaliseFromFaultProof r tx g i = Some r' →
    actionsRoot (get_root r' d) = actionsRoot (get_root r d);
}.

Section Honest.
Context {R : Type} `{RecordsKept R, Adjudication}.
Context (params : GameParams) (oracle : TruthOracle) (me : TurnSide) (id_ : Z).
Context (feasible : TerminateArgs → Prop).

(** The actions root of the batch the game disputes. *)
Definition batch_root (st : Storage R) : bytes32 :=
  actionsRoot (get_root (outside st) (g_disputedLogIndex (game_at st id_))).

(** Calldata of its types that somebody can produce. *)
Definition playable (o : game_op) : Prop :=
  match o with
  | TerminateOnSingleStepCall _ a => in_u8 (actionKind a) ∧ in_u64 (signer a) ∧ feasible a
  | _ => True
  end.

(** One step of the world around game [id_]: any call of anyone that is not a
    move of this game on my turn; my move, by the strategy and in time, on my
    turn; and any change of the contracts around, which keep the record of the
    disputed batch. *)
Inductive l1_step (st st' : Storage R) : Prop :=
| others_call tx o :
    (acts_on o id_ → g_turn (game_at st id_) ≠ me) → playable o →
    game_exec params st tx o = Ok st' → l1_step st st'
| my_call tx o mv :
    g_turn (game_at st id_) = me →
    compute_next_move oracle (view_of (game_at st id_)) me = Ok mv → plays_move mv id_ o →
    playable o → game_exec params st tx o = Ok st' → l1_step st st'
| around r : st' = with_outside st r → batch_root st' = batch_root st → l1_step st st'.

Context `{Kernel St} (deployment root : bytes32) (log : Z → SignedAction) (state : Z → St).
Context (log_typed : ∀ i, signed_typed (log i)) (state_executes : executes deployment log state).
Context (sound : vm_sound log state root feasible).

Definition truth (i : LogIndex) : StateCommit := root_of (state i).

Context (oracle_true : ∀ i c, oracle i = Some c → c = truth i).
Context (w : Z) (w_u64 : 1 ≤ w < 2 ^ 64).

(** The game is about this deployment and a batch of this log. *)
Definition anchored (st : Storage R) : Prop :=
  g_deploymentId (game_at st id_) = deployment ∧ batch_root st = root.

(** The terminal step of a true range end leads to the next true commit, on any
    calldata the contract accepts. *)
Lemma adjudicated_true (st : Storage R) a post :
  let g := game_at st id_ in
  anchored st → playable (TerminateOnSingleStepCall id_ a) → adjudicated st g a = Ok post →
  commit (g_low g) = truth (idx (g_low g)) → 0 ≤ idx (g_low g) →
  idx (g_high g) = idx (g_low g) + 1 → post = truth (idx (g_high g)).
Proof.
  intros g [Hdep Hroot] (Hk & Hs & Hf) Hadj Hlow Hi0 Hss. unfold adjudicated in Hadj.
  apply result_bind_Ok in Hadj as ([] & Hin & Hadj).
  apply result_bind_Ok in Hadj as (computed & Hvm & Hadj).
  apply result_bind_Ok in Hadj as (valid & Hsig & [= <-]).
  unfold requireActionInBatch, actionLeafCommit in Hin. unfold batch_root in Hroot. fold g in Hroot.
  apply result_bind_Ok in Hin as (leaf & Hleaf & Hin). rewrite Hroot in Hin.
  apply require_Ok in Hleaf as [Hlen%dec_stable [= <-]].
  set (i := idx (g_low g)) in *. destruct (verifyActionInclusion _ _ _ _) eqn:Hver; [|done].
  pose proof (sound_inclusion _ _ _ _ sound i a Hf Hver) as Hhash.
  pose proof (sound_keccak _ _ _ _ sound i a Hf Hhash) as Hbytes.
  assert (Hact : submitted a = log i) by (by apply leaf_bytes_inj).
  destruct (executeStepToRootMulti _ _ _ _ _ _ _ _) as [c|] eqn:Hstep; [|done].
  injection Hvm as <-. rewrite Hlow in Hstep, Hsig. fold g in Hdep. rewrite Hdep in Hsig.
  pose proof (sound_registry _ _ _ _ sound i a Hf (signatureValid_opens _ _ _ _ Hsig)) as Hreg.
  pose proof (sound_frontier _ _ _ _ sound i a _ _ Hf Hstep) as Hnonce.
  apply sound_step with (1 := sound) in Hstep as ->; [|done].
  apply (signatureValid_authorised deployment (state i)) in Hsig as ->; [|done..].
  rewrite Hact, Hss, Hlow. unfold truth. rewrite (state_executes i Hi0).
  by destruct (authorised _ _ _).
Qed.

Lemma settle_anchored (st : Storage R) tx i s st' :
  settle params st tx i s = Ok st' →
  g_deploymentId (game_at st' id_) = g_deploymentId (game_at st id_) ∧
  g_disputedLogIndex (game_at st' id_) = g_disputedLogIndex (game_at st id_) ∧
  ∀ d, actionsRoot (get_root (outside st') d) = actionsRoot (get_root (outside st) d).
Proof.
  unfold settle. intros ([[r dl] sb] & Hlegs & Hrun)%result_bind_Ok.
  do 3 (apply result_bind_Ok in Hrun as (? & _ & Hrun)).
  apply result_bind_Ok in Hrun as (? & _ & [= <-]).
  assert (Hg : g_deploymentId (get no_game (<[i:=settled_game (game_at st i) s sb]> (games st)) id_) =
      g_deploymentId (game_at st id_) ∧
    g_disputedLogIndex (get no_game (<[i:=settled_game (game_at st i) s sb]> (games st)) id_) =
      g_disputedLogIndex (game_at st id_)).
  { destruct (decide (i = id_)) as [->|]; [by rewrite get_insert|by rewrite get_insert_ne]. }
  split_and!; [apply Hg|apply Hg|]. intros d. cbn.
  destruct (challenger_wins s).
  - apply result_bind_Ok in Hlegs as ([[r1 d1] b1] & Hslash & [= <- _ _]).
    transitivity (actionsRoot (get_root r1 d)).
    + unfold revert_legs, attempt.
      destruct (revert_from _ _ _) as [r2|] eqn:Hrev; cbn;
        [apply (revert_records _ _ _ _ d) in Hrev as <-|]; (case_decide; [|done]);
        destruct (finaliseFromFaultProof _ _ _ _) as [r3|] eqn:Hver; cbn; try done;
        by apply (verifier_records _ _ _ _ _ d) in Hver.
    + unfold slash_leg in Hslash. destruct (slash_bond _ _ _ _) as [[r2 v]|] eqn:Hs; [|by injection Hslash as <-].
      apply result_bind_Ok in Hslash as (? & _ & [= <- _ _]). by apply (slash_records _ _ _ _ _ _ d) in Hs.
  - injection Hlegs as <- _ _. unfold clear_leg, attempt.
    destruct (clear_disputed _ _ _) eqn:Hc; cbn; [|done]. by apply (clear_records _ _ _ _ d) in Hc.
Qed.

Record standing (st : Storage R) : Prop := {
  standing_id : id_ ≤ nextGameId st;
  standing_play : g_status (game_at st id_) = InProgress →
    game_ok w (view_of (game_at st id_)) ∧ defended truth me (view_of (game_at st id_));
  standing_won : g_status (game_at st id_) ≠ InProgress → won_by me (g_status (game_at st id_));
}.

(** A call that does not act on the game leaves it. *)
Lemma untouched st tx o st' :
  id_ ≤ nextGameId st → ¬ acts_on o id_ → game_exec params st tx o = Ok st' →
  game_at st' id_ = game_at st id_ ∧ id_ ≤ nextGameId st'.
Proof.
  intros Hid Hno. assert (Hput : ∀ i g, i ≠ id_ →
    game_at (put_game st i g) id_ = game_at st id_) by (intros; by apply get_insert_ne).
  assert (Hset : ∀ i s, i ≠ id_ → settle params st tx i s = Ok st' →
    game_at st' id_ = game_at st id_ ∧ id_ ≤ nextGameId st').
  { unfold settle. intros i s Hi ([[r d] sb] & _ & Hrun)%result_bind_Ok.
    do 3 (apply result_bind_Ok in Hrun as (? & _ & Hrun)).
    apply result_bind_Ok in Hrun as (? & _ & [= <-]). split; [|done]. by apply get_insert_ne. }
  destruct o; cbn [game_exec acts_on] in *.
  - destruct (initiateChallenge _ _ _ _ _ _ _) as [[st1 j]|] eqn:Hi; [|done]. intros [= <-].
    unfold initiateChallenge in Hi. do 4 (apply require_Ok in Hi as [_ Hi]).
    do 2 (apply require_bool_Ok in Hi as [_ Hi]). do 4 (apply require_Ok in Hi as [_ Hi]).
    apply result_bind_Ok in Hi as (? & [-> _]%add_at_Ok & Hi).
    apply result_bind_Ok in Hi as (? & _ & Hi). apply result_bind_Ok in Hi as (? & _ & [= <- _]).
    cbn. split; [|lia]. apply get_insert_ne. lia.
  - intros (_ & _ & _ & _ & _ & _ & _ & ->)%submitMidpoint_Ok. by rewrite Hput.
  - intros (_ & _ & _ & _ & _ & ->)%respondToMidpoint_Ok. by rewrite Hput.
  - intros (_ & _ & _ & _ & post & _ & Hs)%terminate_inv. by apply Hset in Hs.
  - intros (_ & _ & Hs)%claimTimeout_inv. by apply Hset in Hs.
  - destruct (withdraw st tx) as [[st1 v]|] eqn:Hw; [|done]. intros [= <-].
    unfold withdraw in Hw. apply require_Ok in Hw as [_ Hw].
    by apply require_bool_Ok in Hw as [_ [= <- <-]].
  - by intros [= <-].
Qed.

(** Every call keeps the game's deployment and the batch it disputes. *)
Lemma exec_anchored st tx o st' :
  id_ ≤ nextGameId st → game_exec params st tx o = Ok st' → anchored st → anchored st'.
Proof.
  intros Hid Hrun [Hdep Hroot].
  assert (Hsame : ∀ g i, g_deploymentId g = g_deploymentId (game_at st i) →
    g_disputedLogIndex g = g_disputedLogIndex (game_at st i) → anchored (put_game st i g)).
  { intros g i Hd Hi. unfold anchored, batch_root, game_at in *. cbn.
    destruct (decide (i = id_)) as [->|]; [rewrite get_insert|by rewrite get_insert_ne].
    by rewrite Hd, Hi. }
  assert (Hset : ∀ i s, settle params st tx i s = Ok st' → anchored st').
  { intros i s (Hd & Hi & Hr)%settle_anchored. unfold anchored, batch_root. by rewrite Hd, Hi, Hr. }
  destruct o; cbn [game_exec] in Hrun.
  - destruct (initiateChallenge _ _ _ _ _ _ _) as [[st1 j]|] eqn:Hi; [|done]. injection Hrun as <-.
    unfold initiateChallenge in Hi. do 4 (apply require_Ok in Hi as [_ Hi]).
    do 2 (apply require_bool_Ok in Hi as [_ Hi]). do 4 (apply require_Ok in Hi as [_ Hi]).
    apply result_bind_Ok in Hi as (? & [-> _]%add_at_Ok & Hi).
    apply result_bind_Ok in Hi as (? & _ & Hi). apply result_bind_Ok in Hi as (r' & Hm & [= <- _]).
    destruct (mark_disputed _ _ _) eqn:Hmark; simplify_eq/=.
    unfold anchored, batch_root, game_at in *. cbn. rewrite get_insert_ne by lia.
    by rewrite (mark_records _ _ _ _ _ Hmark).
  - apply submitMidpoint_Ok in Hrun as (_ & _ & _ & _ & _ & _ & _ & ->). by apply Hsame.
  - apply respondToMidpoint_Ok in Hrun as (_ & _ & _ & _ & _ & ->). by apply Hsame.
  - apply terminate_inv in Hrun as (_ & _ & _ & _ & post & _ & Hs). by eapply Hset.
  - apply claimTimeout_inv in Hrun as (_ & _ & Hs). by eapply Hset.
  - destruct (withdraw st tx) as [[st1 v]|] eqn:Hw; [|done]. injection Hrun as <-.
    unfold withdraw in Hw. apply require_Ok in Hw as [_ Hw].
    by apply require_bool_Ok in Hw as [_ [= <- <-]].
  - by injection Hrun as <-.
Qed.

Lemma ok_proper (st : Storage R) :
  game_ok w (view_of (game_at st id_)) → proper (game_at st id_) ∧ 0 ≤ g_depth (game_at st id_).
Proof. intros [? ? ? ? _ _ _ _ _]; cbn in *. unfold proper. lia. Qed.

(** A bisection move, mine or the opponent's, keeps the standing. *)
Lemma standing_move st st' t gs' :
  standing st → g_status (game_at st id_) = InProgress →
  apply_transition (view_of (game_at st id_)) t = Ok gs' → bisects t = true →
  views (game_at st' id_) gs' → defended truth me gs' → nextGameId st' = nextGameId st →
  standing st'.
Proof.
  intros [Hid Hplay _] Hs Ht Hb Hv Hd Hn. destruct (Hplay Hs) as [Hok _].
  pose proof (apply_transition_preserves w w_u64 _ _ _ Hok Ht) as Hok'. split.
  - lia.
  - intros _. split; [by eapply game_ok_views|by eapply defended_views].
  - intros Hne. exfalso. apply Hne. rewrite <- (view_status _ _ Hv).
    destruct t; try done; cbn in Ht.
    + by apply submit_Ok in Ht as (? & _ & _ & _ & ->).
    + by apply respond_Ok in Ht as (? & _ & ? & _ & ->).
    + by apply respond_Ok in Ht as (? & _ & ? & _ & ->).
Qed.

Lemma standing_settled st st' tx s :
  standing st → settle params st tx id_ s = Ok st' → won_by me s → standing st'.
Proof.
  intros [Hid _ _] Hset Hwon. pose proof (settle_status params st tx id_ s st' Hset) as [sb Hat].
  assert (Hn : nextGameId st' = nextGameId st).
  { unfold settle in Hset. apply result_bind_Ok in Hset as ([[r d] b] & _ & Hset).
    do 3 (apply result_bind_Ok in Hset as (? & _ & Hset)).
    by apply result_bind_Ok in Hset as (? & _ & [= <-]). }
  split; rewrite ?Hn, ?Hat; cbn; try done.
  intros ->. by destruct me, Hwon.
Qed.

(** The terminal step decides for the honest side, whoever runs it. *)
Lemma standing_terminate st tx a st' :
  standing st → anchored st → playable (TerminateOnSingleStepCall id_ a) →
  terminateOnSingleStep params st tx id_ a = Ok st' → standing st'.
Proof.
  intros Hst Han Hplay Hrun. apply terminate_inv in Hrun as (Hs & Hss & Hnp & _ & post & Hadj & Hset).
  destruct (standing_play st Hst Hs) as [Hok Hd].
  assert (Hturn : g_turn (game_at st id_) = Sequencer).
  { apply (ok_turn w _ Hok). cbn. by rewrite Hnp. }
  pose proof (defended_low _ _ _ Hd) as Hlow. pose proof (defended_high _ _ _ Hd) as Hhigh.
  cbn in Hlow, Hhigh. destruct (ok_proper st Hok) as [[Hi0 _] _].
  pose proof (adjudicated_true st a post Han Hplay Hadj Hlow Hi0 Hss) as ->.
  rewrite Hturn in Hset. eapply standing_settled; [done|exact Hset|].
  unfold high_end, won_by in *. destruct me; case_decide; auto; congruence.
Qed.

Lemma standing_others st tx o st' :
  standing st → anchored st → (acts_on o id_ → g_turn (game_at st id_) ≠ me) → playable o →
  game_exec params st tx o = Ok st' → standing st'.
Proof.
  intros Hst Han Hno Hplay Hrun. assert (Hact : acts_on o id_ ∨ ¬ acts_on o id_) by (destruct o; cbn; lia).
  destruct Hact as [Hact|Hact].
  2: { destruct (untouched st tx o st' (standing_id st Hst) Hact Hrun) as [Hat ?].
       destruct Hst. by split; rewrite ?Hat. }
  specialize (Hno Hact).
  destruct o; cbn [acts_on game_exec] in Hact, Hrun; try done; subst gameId.
  - assert (Hs : g_status (game_at st id_) = InProgress) by (by apply submitMidpoint_Ok in Hrun as [? _]).
    destruct (standing_play st Hst Hs) as [Hok Hd]. destruct (ok_proper st Hok) as [Hp _].
    destruct (submit_follows params st tx id_ midpointCommit st' _ Hp (view_of_views _) Hrun)
      as (gs' & Ht & Hv).
    eapply (standing_move _ _ (SubmitMidpoint midpointCommit)); [done..| |].
    + eapply (opponent_defended truth w w_u64); [exact Hok|done|exact Hno|].
      by apply (Ht : apply_transition _ (SubmitMidpoint midpointCommit) = _).
    + by apply submitMidpoint_Ok in Hrun as (_ & _ & _ & _ & _ & _ & _ & ->).
  - assert (Hs : g_status (game_at st id_) = InProgress) by (by apply respondToMidpoint_Ok in Hrun as [? _]).
    destruct (standing_play st Hst Hs) as [Hok Hd]. destruct (ok_proper st Hok) as [_ Hp].
    destruct (respond_follows params st tx id_ agree st' _ Hp (view_of_views _) Hrun)
      as (gs' & Ht & Hv).
    assert (Ht' : apply_transition (view_of (game_at st id_))
      (if agree then RespondAgree else RespondDisagree) = Ok gs') by (by destruct agree).
    eapply standing_move; [done|done|exact Ht'|by destruct agree|done| |].
    + eapply (opponent_defended truth w w_u64); [exact Hok|done|exact Hno|exact Ht'].
    + by apply respondToMidpoint_Ok in Hrun as (_ & _ & _ & _ & _ & ->).
  - by eapply standing_terminate.
  - apply claimTimeout_inv in Hrun as (Hs & _ & Hset). eapply standing_settled; [done..|].
    unfold won_by. destruct me, (g_turn _); auto; done.
Qed.

Lemma standing_response st tx a mv st' :
  standing st → g_turn (game_at st id_) = me →
  compute_next_move oracle (view_of (game_at st id_)) me = Ok mv →
  to_transition mv = Some (if a : bool then RespondAgree else RespondDisagree) →
  respondToMidpoint params st tx id_ a = Ok st' → standing st'.
Proof.
  intros Hst Hturn Hmv Hto Hrun.
  assert (Hs : g_status (game_at st id_) = InProgress)
    by (by apply respondToMidpoint_Ok in Hrun as [? _]).
  destruct (standing_play st Hst Hs) as [Hok Hd]. destruct (ok_proper st Hok) as [_ Hp].
  destruct (respond_follows params st tx id_ a st' _ Hp (view_of_views _) Hrun) as (gs' & Ht & Hv).
  assert (Ht' : apply_transition (view_of (game_at st id_))
    (if a then RespondAgree else RespondDisagree) = Ok gs') by (by destruct a).
  eapply standing_move; [done|done|exact Ht'|by destruct a|done| |].
  - eapply (honest_defended oracle truth oracle_true w w_u64); [exact Hok|done..|exact Ht'].
  - by apply respondToMidpoint_Ok in Hrun as (_ & _ & _ & _ & _ & ->).
Qed.

Lemma standing_mine st tx o mv st' :
  standing st → anchored st → g_turn (game_at st id_) = me →
  compute_next_move oracle (view_of (game_at st id_)) me = Ok mv → plays_move mv id_ o →
  playable o → game_exec params st tx o = Ok st' → standing st'.
Proof.
  intros Hst Han Hturn Hmv Hplay Hpl Hrun.
  destruct mv as [|c| | |c]; cbn in Hplay; [done| | | |destruct Hplay as [a ->]];
    subst; cbn [game_exec] in Hrun.
  - assert (Hs : g_status (game_at st id_) = InProgress)
      by (by apply submitMidpoint_Ok in Hrun as [? _]).
    destruct (standing_play st Hst Hs) as [Hok Hd]. destruct (ok_proper st Hok) as [Hp _].
    destruct (submit_follows params st tx id_ (commit c) st' _ Hp (view_of_views _) Hrun)
      as (gs' & Ht & Hv).
    eapply (standing_move _ _ (SubmitMidpoint (commit c))); [done..| |].
    + eapply (honest_defended oracle truth oracle_true w w_u64); [exact Hok|done..|].
      by apply (Ht : apply_transition _ (SubmitMidpoint (commit c)) = _).
    + by apply submitMidpoint_Ok in Hrun as (_ & _ & _ & _ & _ & _ & _ & ->).
  - by eapply (standing_response st tx true HonestAgree).
  - by eapply (standing_response st tx false HonestDisagree).
  - by eapply standing_terminate.
Qed.

Lemma standing_step st st' : standing st → anchored st → l1_step st st' → standing st' ∧ anchored st'.
Proof.
  intros Hst Han [tx o Hno Hpl Hrun|tx o mv Hturn Hmv Hplay Hpl Hrun|r -> Hkept].
  - split; [by eapply standing_others|]. eapply exec_anchored; [|done..]. apply (standing_id st Hst).
  - split; [by eapply standing_mine|]. eapply exec_anchored; [|done..]. apply (standing_id st Hst).
  - split; [by destruct Hst|]. destruct Han as [Hdep Hroot]. split; [done|]. congruence.
Qed.
End Honest.
