(* ===== verification/FaultProof.v ===== *)
(** * The fault-proof contracts together

    The registry of [StateRoot] discharges the interface the game of [FaultGame]
    is written against, and the theorems about the two are stated here: the
    game contract's ledger, its refinement to the observer's state machine, the
    acceptance of honest moves, the outcome of an honestly played game, and what
    a timeout claim does on a game that was never opened. *)

From Stdlib Require Import ZArith Lia.
From stdpp Require Import base numbers list gmap.
From S2P Require Import Prelude Evm StateRoot Game FaultGame.

Local Open Scope Z_scope.

Local Ltac Zify.zify_post_hook ::= Z.to_euclidean_division_equations.

(** ** The registry behind the interface *)

Definition ok_of {A E} (r : result A E) : option A :=
  match r with Ok a => Some a | Err _ => None end.

Section Instance_.
Context (rp : Params).

#[export] Instance registry_interface : IStateRootSubmission Registry := {|
  get_root := root_at;
  is_reverted := isRecordReverted;
  deployment_of := fun _ => deploymentId rp;
  mark_disputed := fun r tx i => ok_of (markDisputed rp r tx i);
  clear_disputed := fun r tx i => ok_of (clearDisputed rp r tx i);
  slash_bond := fun r tx i a =>
    match slashSequencerBond rp r tx i a with
    | Ok (r', Some (_, v)) => Some (r', v)
    | Ok (r', None) => Some (r', 0)
    | Err _ => None
    end;
  revert_from := fun r tx i => ok_of (revertStateRootsFrom rp r tx i);
|}.

(** [KnomosisDisputeVerifierV2.finaliseFromFaultProof] forwards the revert to
    the bridge and leaves the registry alone. *)
#[export] Instance verifier_interface : IDisputeVerifierV2 Registry := {|
  finaliseFromFaultProof := fun r _ _ _ => Some r;
|}.

(** The bonds of the records are of their type. *)
Definition bonds_typed (st : Registry) : Prop :=
  ∀ i r, StateRoot.roots st !! i = Some r → in_u128 (bond r).

Lemma root_at_typed st i : bonds_typed st → in_u128 (bond (root_at st i)).
Proof.
  intros Hst. unfold root_at, get. destruct (StateRoot.roots st !! i) as [r|] eqn:Hi; cbn.
  - by eapply Hst.
  - by apply in_width_0.
Qed.

Lemma bond_out_typed st i fin : bonds_typed st → bonds_typed (bond_out st i fin).
Proof.
  intros Hst j r Hj. cbn in Hj. apply lookup_insert_Some in Hj as [(_ & <-)|(_ & Hj)]; [by apply in_width_0|by eapply Hst].
Qed.

Lemma set_root_typed st i b :
  bonds_typed st → bonds_typed (set_root st i (set_disputed (root_at st i) b)).
Proof.
  intros Hst j r Hj. cbn in Hj. apply lookup_insert_Some in Hj as [(_ & <-)|(_ & Hj)]; [by apply root_at_typed|by eapply Hst].
Qed.

Lemma slash_typed st tx i a st' pay :
  bonds_typed st → slashSequencerBond rp st tx i a = Ok (st', pay) →
  bonds_typed st' ∧ ∃ v, pay = Some (a, v) ∧ in_u128 v.
Proof.
  intros Hst Hs. unfold slashSequencerBond in Hs. do 3 (apply require_Ok in Hs as [_ Hs]).
  apply require_bool_Ok in Hs as [_ Hs]. apply require_Ok in Hs as [_ Hs].
  destruct (accepts _ _ _); [|done]. injection Hs as <- <-.
  split; [by apply bond_out_typed|]. eexists. split; [done|]. by apply root_at_typed.
Qed.

#[export] Instance registry_ok : OutsideOk Registry.
Proof.
  refine {| outside_ok := bonds_typed |}; cbn; unfold ok_of.
  - intros r tx i a r' v Hr Hs. destruct (slashSequencerBond _ _ _ _ _) as [[r1 p]|] eqn:Hsl; [|done].
    apply slash_typed in Hsl as (_ & v' & -> & ?); [|done]. by simplify_eq.
  - intros r tx i a r' v Hr Hs. destruct (slashSequencerBond _ _ _ _ _) as [[r1 p]|] eqn:Hsl; [|done].
    apply slash_typed in Hsl as (? & v' & -> & _); [|done]. by simplify_eq.
  - intros r tx i r' Hr Hm. destruct (markDisputed _ _ _ _) as [r1|] eqn:Hmd; simplify_eq.
    unfold markDisputed in Hmd. do 2 (apply require_Ok in Hmd as [_ Hmd]).
    do 3 (apply require_bool_Ok in Hmd as [_ Hmd]). injection Hmd as <-. by apply set_root_typed.
  - intros r tx i r' Hr Hm. destruct (clearDisputed _ _ _ _) as [r1|] eqn:Hmd; simplify_eq.
    unfold clearDisputed in Hmd. do 2 (apply require_Ok in Hmd as [_ Hmd]).
    injection Hmd as <-. by apply set_root_typed.
  - intros r tx i r' Hr Hm. destruct (revertStateRootsFrom _ _ _ _) as [r1|] eqn:Hmd; simplify_eq.
    unfold revertStateRootsFrom in Hmd. by apply require_Ok in Hmd as [_ [= <-]].
  - by intros r _ _ _ r' Hr [= <-].
Defined.

Lemma set_record_actions st i r d :
  actionsRoot r = actionsRoot (root_at st i) →
  actionsRoot (get no_root (<[i := r]> (StateRoot.roots st)) d) = actionsRoot (root_at st d).
Proof.
  intros Hr. destruct (decide (i = d)) as [->|]; [by rewrite get_insert|].
  by rewrite get_insert_ne.
Qed.

#[export] Instance registry_records : RecordsKept Registry.
Proof.
  split; cbn; unfold ok_of.
  - intros r tx i r' d Hm. destruct (markDisputed _ _ _ _) as [r1|] eqn:Hmd; simplify_eq.
    unfold markDisputed in Hmd. do 2 (apply require_Ok in Hmd as [_ Hmd]).
    do 3 (apply require_bool_Ok in Hmd as [_ Hmd]). injection Hmd as <-. by apply set_record_actions.
  - intros r tx i r' d Hm. destruct (clearDisputed _ _ _ _) as [r1|] eqn:Hmd; simplify_eq.
    unfold clearDisputed in Hmd. do 2 (apply require_Ok in Hmd as [_ Hmd]).
    injection Hmd as <-. by apply set_record_actions.
  - intros r tx i a r' v d Hs. destruct (slashSequencerBond _ _ _ _ _) as [[r1 p]|] eqn:Hsl; [|done].
    unfold slashSequencerBond in Hsl. do 3 (apply require_Ok in Hsl as [_ Hsl]).
    apply require_bool_Ok in Hsl as [_ Hsl]. apply require_Ok in Hsl as [_ Hsl].
    destruct (accepts _ _ _); [|done]. injection Hsl as <- <-. injection Hs as <- _.
    by apply set_record_actions.
  - intros r tx i r' d Hm. destruct (revertStateRootsFrom _ _ _ _) as [r1|] eqn:Hmd; simplify_eq.
    unfold revertStateRootsFrom in Hmd. by apply require_Ok in Hmd as [_ [= <-]].
  - by intros r _ _ _ r' d [= <-].
Qed.
End Instance_.

(** ** The ledger *)

(** C26: the game contract can always pay.  From its deployment, after any calls
    by anyone and whatever the contracts around it do, its ether is exactly the
    sum of the pull-payment credits, of the bonds of the games in progress, and
    of what was sent to its [receive] off-band, which nobody is credited for.
    So all credits together are covered and each of them can be withdrawn; and
    at most one game in progress disputes a given batch. *)
Theorem game_contract_solvent {R} `{OutsideOk R, Adjudication} (params : GameParams) gifts
    (st : Storage R) :
  0 < MIN_CHALLENGE_BOND params < 2 ^ 128 → runs params gifts st →
  ether st = map_sum id (pendingWithdrawals st) + map_sum stake (games st) + gifts ∧
  map_sum id (pendingWithdrawals st) + map_sum stake (games st) ≤ ether st ∧
  (∀ a, 0 ≤ get 0 (pendingWithdrawals st) a ≤ ether st) ∧
  (∀ i j g h, games st !! i = Some g → games st !! j = Some h →
     g_status g = InProgress → g_status h = InProgress →
     g_disputedLogIndex g = g_disputedLogIndex h → i = j).
Proof.
  intros Hb Hruns. pose proof (runs_ledger params Hb gifts st Hruns) as Hl.
  assert (Hcredit : ∀ k v, pendingWithdrawals st !! k = Some v → 0 ≤ v).
  { intros k v Hk. pose proof (ledger_credit params gifts st Hl k) as Hc.
    unfold get in Hc. by rewrite Hk in Hc. }
  assert (Hstake : 0 ≤ map_sum stake (games st)).
  { apply map_sum_nonneg. intros k g Hg. unfold stake. destruct (g_status g) eqn:Hs; try done.
    destruct (ledger_bonds params gifts st Hl k g Hg Hs). lia. }
  split_and!.
  - apply (ledger_ether params gifts st Hl).
  - rewrite (ledger_ether params gifts st Hl). pose proof (ledger_gifts params gifts st Hl). lia.
  - intros a. split; [apply (ledger_credit params gifts st Hl)|].
    rewrite (ledger_ether params gifts st Hl). pose proof (ledger_gifts params gifts st Hl).
    pose proof (map_sum_ge id 0 (pendingWithdrawals st) a eq_refl Hcredit). cbn in *. lia.
  - intros i j g h Hg Hh Hgs Hhs Heq.
    destruct (ledger_locked params gifts st Hl i g Hg Hgs) as (_ & _ & <-).
    destruct (ledger_locked params gifts st Hl j h Hh Hhs) as (_ & _ & <-). by rewrite Heq.
Qed.

(** ** The contract and the observer *)

(** C17: the observer's state machine follows the contract.  When the contract
    accepts a call on a game with a proper range, the observer's machine, on any
    state that shows that game, accepts the corresponding transition and its new
    state shows the game after the call: a midpoint, a response, a timeout, and
    for the terminal step the settlement with the status the contract gave. *)
Theorem l1_refines_game {R} `{IStateRootSubmission R, IDisputeVerifierV2 R, Adjudication}
    (params : GameParams) (st : Storage R) tx o st' id_ gs :
  acts_on o id_ → proper (game_at st id_) → 0 ≤ g_depth (game_at st id_) →
  views (game_at st id_) gs → game_exec params st tx o = Ok st' →
  ∃ gs', follows o (g_status (game_at st' id_)) gs gs' ∧ views (game_at st' id_) gs'.
Proof.
  intros Hact Hp Hd Hv Hrun. destruct o; cbn in Hact; try done; subst gameId; cbn [game_exec] in Hrun.
  - by eapply submit_follows.
  - destruct (respond_follows params st tx id_ agree st' gs Hd Hv Hrun) as (gs' & Hr & Hv').
    exists gs'. split; [|done]. by destruct agree.
  - by eapply terminate_follows.
  - by eapply timeout_follows.
Qed.

(** The window in which the contract takes a move of the responsible party. *)
Definition in_window (params : GameParams) (g : L1Game) (tx : Tx) : Prop :=
  msg_sender tx = l1_responsible g ∧
  g_lastStepBlock g + MIN_BISECTION_STEP_INTERVAL_BLOCKS params ≤ block_number tx ∧
  block_number tx ≤ g_turnDeadline g ∧
  0 ≤ block_number tx ∧ block_number tx + BISECTION_RESPONSE_TIMEOUT params < 2 ^ 64.

Lemma step_allowed_window params g tx :
  0 ≤ g_lastStepBlock g → 0 ≤ BISECTION_RESPONSE_TIMEOUT params → in_window params g tx →
  step_allowed params g tx = Ok () ∧
  add_at (E := FaultGameError) 64 (uint64 (block_number tx)) (BISECTION_RESPONSE_TIMEOUT params) =
    Ok (block_number tx + BISECTION_RESPONSE_TIMEOUT params).
Proof.
  intros Hl Ht (Hs & Hmin & Hmax & H0 & Hb). split.
  - unfold step_allowed. rewrite add_at_fits by lia. cbn.
    rewrite decide_False by lia. rewrite decide_False; [done|]. by intros [].
  - apply add_at_Ok. rewrite uint64_id by (unfold in_width; lia). lia.
Qed.

Lemma respond_accepted {R} `{IStateRootSubmission R, IDisputeVerifierV2 R, Adjudication}
    (params : GameParams) (st : Storage R) tx id_ a gs' :
  let g := game_at st id_ in
  apply_respond (view_of g) a = Ok gs' → block_number tx ≤ g_turnDeadline g →
  step_allowed params g tx = Ok () →
  add_at (E := FaultGameError) 64 (uint64 (block_number tx)) (BISECTION_RESPONSE_TIMEOUT params) =
    Ok (block_number tx + BISECTION_RESPONSE_TIMEOUT params) →
  ∃ st', respondToMidpoint params st tx id_ a = Ok st'.
Proof.
  intros g Hr Hmax Hst Hdl. apply respond_Ok in Hr as (Hs & Hdep & mp & Hmp & _).
  cbn in Hs, Hdep, Hmp. eexists. unfold respondToMidpoint. fold g.
  rewrite (decide_False (P := g_status g ≠ _)) by (by intros []).
  rewrite decide_False by lia. destruct (g_hasPendingMidpoint g); [|done]. cbn [negb].
  rewrite Hst. cbn. unfold MAX_BISECTION_DEPTH in *. rewrite add_at_fits by lia. cbn.
  rewrite decide_False by lia. rewrite Hdl. cbn. reflexivity.
Qed.

(** The contract accepts the honest move in its window.  On a game as it
    arises in play, with indices whose sum fits 64 bits, the move the strategy
    chooses for the party whose turn it is, sent by that party between the
    minimal interval and its deadline, is accepted, unless it is the terminal
    step, which also needs its proofs. *)
Theorem honest_move_accepted {R} `{IStateRootSubmission R, IDisputeVerifierV2 R, Adjudication}
    (params : GameParams) (st : Storage R) tx id_ oracle w :
  1 ≤ w < 2 ^ 64 → 0 ≤ BISECTION_RESPONSE_TIMEOUT params →
  let g := game_at st id_ in
  game_ok w (view_of g) → g_status g = InProgress → 0 ≤ g_lastStepBlock g →
  idx (g_low g) + idx (g_high g) < 2 ^ 64 → informed oracle (view_of g) →
  in_window params g tx →
  ∃ mv, compute_next_move oracle (view_of g) (g_turn g) = Ok mv ∧
    ((∃ c, mv = HonestTerminate c) ∨
     ∃ o st', plays_move mv id_ o ∧ game_exec params st tx o = Ok st').
Proof.
  intros Hw Htime g Hok Hs Hlast Hsum Hinf Hwin.
  destruct (honest_move_ok oracle w (view_of g) Hw Hok Hs Hinf) as (mv & t & gs' & Hmv & Hto & Hgs').
  exists mv. split; [done|]. destruct (step_allowed_window params g tx Hlast Htime Hwin) as [Hst Hdl].
  destruct Hwin as (_ & _ & Hmax & _ & _).
  destruct mv as [|c| | |c]; cbn in Hto; simplify_eq; [right|right|right|by left; eexists].
  - exists (SubmitMidpointCall id_ (commit c)). eexists. split; [done|]. cbn [game_exec].
    apply submit_Ok in Hgs' as (_ & Hnone & Hdep & Hmid & _). cbn in Hnone, Hdep, Hmid.
    rewrite midpoint_exact in Hmid by (destruct Hok; cbn in *; lia). cbn in Hmid.
    unfold submitMidpoint. fold g. rewrite (decide_False (P := g_status g ≠ _)) by (by intros []).
    rewrite decide_False by lia. destruct (g_hasPendingMidpoint g); [done|].
    rewrite decide_False by lia. rewrite Hst. cbn.
    rewrite add_at_fits by lia. cbn.
    rewrite decide_False by lia. rewrite Hdl. cbn. reflexivity.
  - exists (RespondToMidpoint id_ true).
    destruct (respond_accepted params st tx id_ true gs' Hgs' Hmax Hst Hdl) as [st' ?]. by exists st'.
  - exists (RespondToMidpoint id_ false).
    destruct (respond_accepted params st tx id_ false gs' Hgs' Hmax Hst Hdl) as [st' ?]. by exists st'.
Qed.

(** ** The outcome of an honest game *)

(** C1: an honest party does not lose.  Let the L2 execute its log of signed
    actions, where an entry its signer did not authorise changes nothing; let
    the oracle answer only roots of these states; and let the step VM, the
    openings and the inclusion proofs be sound on the calldata anyone can
    produce.  Take a game opened on a batch of this log and deployment, whose
    low end is the true root and whose high end is what the honest side claims
    (true for a sequencer, false for a challenger).  Let everyone else call the
    contract in any way, the contracts around it change but for the actions root
    of the disputed batch, and the honest side answer each of its turns in time
    by the strategy.  Then the game is in progress or settled for the honest
    side, by the terminal step, whoever runs it and on whatever calldata, or by
    the opponent's timeout. *)
Theorem honest_party_wins {R} `{RecordsKept R, Adjudication, Kernel St}
    (params : GameParams) oracle me id_ (st0 st : Storage R)
    (log : Z → SignedAction) (state : Z → St) feasible :
  let g0 := game_at st0 id_ in
  (∀ i, signed_typed (log i)) → executes (g_deploymentId g0) log state →
  vm_sound log state (batch_root id_ st0) feasible →
  (∀ i c, oracle i = Some c → c = truth state i) →
  id_ ≤ nextGameId st0 → opened (view_of g0) →
  commit (g_low g0) = truth state (idx (g_low g0)) → high_end (truth state) me (g_high g0) →
  rtc (l1_step params oracle me id_ feasible) st0 st →
  g_status (game_at st id_) = InProgress ∨ won_by me (g_status (game_at st id_)).
Proof.
  intros g0 Hlog Hexec Hvm Htrue Hid Ho Hlow Hhigh Hsteps.
  pose proof (opened_width _ Ho) as Hw. set (w := width _) in Hw.
  assert (Hst : standing me id_ state w st0).
  { split; [done| |].
    - intros _. split; [by apply (opened_play_ok _ [])|]. split; cbn; try done.
      + pose proof (opened_pending _ Ho) as Hp. cbn in Hp. intros mp _. fold g0. by rewrite Hp.
      + left. apply (opened_status _ Ho).
    - intros Hne. by destruct (Hne (opened_status _ Ho)). }
  assert (Han : anchored id_ (g_deploymentId g0) (batch_root id_ st0) st0) by done.
  assert (Hend : standing me id_ state w st).
  { revert Hexec Hvm Han. generalize (g_deploymentId g0), (batch_root id_ st0).
    clearbody w. clear Ho Hlow Hhigh Hid. intros dep root Hexec Hvm Han. subst g0.
    induction Hsteps as [|st0 st1 st2 Hstep _ IH]; [done|].
    eapply standing_step in Hstep as [Hst' Han']; [|eauto..]. by apply IH. }
  destruct (decide (g_status (game_at st id_) = InProgress)) as [|Hne]; [by left|].
  right. by apply (standing_won _ _ _ _ _ Hend).
Qed.

(** ** A timeout claim on a game that was never opened *)

Lemma revert_zero rp r tx :
  msg_sender tx = faultProofGame rp → 0 < block_number tx < 2 ^ 64 →
  prevEndIndex (root_at r 0) = 0 → 0 ≤ canonicalTip r → 0 ≤ lowestRevertedLogIndex r →
  0 ≤ latestSubmittedLogIndex r → (∀ i, submittedAtBlock (root_at r i) ≤ block_number tx) →
  ∃ r', revertStateRootsFrom rp r tx 0 = Ok r' ∧ canonicalTip r' = 0 ∧
    ∀ i, 0 ≤ i ≤ latestSubmittedLogIndex r → isRecordReverted r' i = true.
Proof.
  intros Hs Hb Hprev Htip Hfloor Hlast Hold. unfold revertStateRootsFrom.
  rewrite decide_False by (by intros []). eexists. split; [reflexivity|]. cbn. rewrite Hprev. split.
  - case_decide; lia.
  - intros i Hi. unfold isRecordReverted. cbn. rewrite uint64_id by (unfold in_width; lia).
    change (root_at _ i) with (root_at r i). specialize (Hold i).
    rewrite !andb_true_iff, !bool_decide_eq_true. repeat case_decide; lia.
Qed.

(** C36: anyone can revert the whole chain.  [claimTimeout] on an identifier no
    game was opened under finds a zeroed game, which reads as in progress with
    an expired deadline; it succeeds for any sender in any block, settles as a
    loss of the sequencer, and reverts the registry from index 0: the tip goes
    back to genesis and every batch submitted so far, finalised or not, reads
    as reverted. *)
Theorem unopened_timeout_reverts `{Adjudication} (rp : Params) (params : GameParams)
    (st : Storage Registry) tx id_ :
  games st !! id_ = None → 0 < block_number tx < 2 ^ 64 →
  self_address params = faultProofGame rp → self_address params ≠ 0 →
  finalised (root_at (outside st) 0) = true → prevEndIndex (root_at (outside st) 0) = 0 →
  0 ≤ canonicalTip (outside st) → 0 ≤ lowestRevertedLogIndex (outside st) →
  0 ≤ latestSubmittedLogIndex (outside st) →
  (∀ i, submittedAtBlock (root_at (outside st) i) ≤ block_number tx) →
  ∃ st', claimTimeout (H := registry_interface rp) params st tx id_ = Ok st' ∧
    canonicalTip (outside st') = 0 ∧
    ∀ i, 0 ≤ i ≤ latestSubmittedLogIndex (outside st) → isRecordReverted (outside st') i = true.
Proof.
  intros Hid Hb Hself Hself0 Hfin Hprev Htip Hfloor Hlast Hold.
  assert (Hg : game_at st id_ = no_game) by (unfold game_at, get; by rewrite Hid).
  assert (Hslash : slash_leg (H := registry_interface rp) params (outside st) tx no_game =
    Ok (outside st, 0, 0)).
  { unfold slash_leg. cbn. unfold slashSequencerBond. cbn.
    rewrite decide_False by (rewrite Hself; by intros []). rewrite decide_False by done.
    case_decide; [done|]. by rewrite Hfin. }
  unfold claimTimeout, settle. rewrite Hg. cbn [g_status g_turnDeadline g_turn no_game].
  rewrite decide_False by (by intros []). rewrite decide_False by lia.
  cbn [challenger_wins]. rewrite Hslash. cbn.
  destruct (revert_zero rp (outside st) (as_game params tx)) as (r' & Hr' & Htip' & Hall); try done.
  eexists. split; [reflexivity|]. cbn. unfold revert_legs, attempt. cbn. rewrite Hr'. cbn.
  by case_decide.
Qed.

(** ** A concrete deployment *)

(** A log in which entry 7 adds 3 to the state and entry 2 claims to add 1 but
    carries a forged signature; the states are 1 before entry 7 and 4 after. *)
Definition demo_log (i : Z) : SignedAction :=
  {| sa_kind := if decide (i = 2) then 1 else if decide (i = 7) then 3 else 0;
     sa_fields := []; sa_signer := 4;
     sa_sig := to_be_bytes 32 (if decide (i = 2) then 66 else 7) ++ to_be_bytes 32 1 ++ [byte_of 27] |}.

Definition demo_state (i : Z) : Z := if decide (i ≤ 7) then 1 else 4.

Definition demo_cell : list u8 := cbe_bytes (to_be_bytes 33 5).

#[local] Instance demo_kernel : Kernel Z := {|
  root_of := word;
  registry_cell := fun _ _ => demo_cell;
  nonce_cell := fun _ _ => Some 0;
  applied := fun s _ x => s + sa_kind x;
|}.

(** A step VM for these actions.  Hashes keep what they hash, one cell opens,
    and a signature is good when its first word is 7. *)
#[local] Instance demo_adjudication : Adjudication := {|
  keccak := id;
  verifyActionInclusion := fun root i leaf _ =>
    bool_decide (root = word 0 ∧ leaf = leaf_bytes (demo_log i));
  executeStepToRootMulti := fun pre kind _ signer _ opened _ _ =>
    if decide (frontierNonce opened signer = Some 0) then Some (word (from_be_bytes (take 1 pre) + kind))
    else None;
  deriveCellSmtKey := fun _ _ _ => zero32;
  cellLeafHash := fun _ preimage => preimage;
  recomputeRootFromLeaf := fun key leaf proof =>
    if decide (leaf = cbe_bytes key ++ cbe_bytes demo_cell) then proof else zero32;
  tryToAddress := fun _ => Some 9;
  signingDigest := fun _ _ _ _ _ => zero32;
  ecrecover := fun _ _ r _ => if decide (r = 7) then 9 else 0;
|}.

#[local] Instance demo_interface : IStateRootSubmission Registry := registry_interface demo_params.
#[local] Instance demo_ok : OutsideOk Registry := registry_ok demo_params.

Definition demo_game_params : GameParams :=
  {| BISECTION_RESPONSE_TIMEOUT := 10; MIN_CHALLENGE_BOND := 50;
     MIN_BISECTION_STEP_INTERVAL_BLOCKS := 1; treasury := 6; disputeVerifier := 4;
     self_address := 8 |}.

(** The registry with one batch, which claims a changed state. *)
Definition demo_roots : Registry :=
  registry (transactions demo_keccak demo_params (demo_registry demo_keccak) [submit_at 2 10 0 2]).

Definition demo_deployed : Storage Registry :=
  {| games := ∅; nextGameId := 0; activeGameForLogIndex := ∅; pendingWithdrawals := ∅;
     ether := 0; outside := demo_roots |}.

(** The calls of a game: the challenge, a midpoint, its answer, a timeout. *)
Definition demo_calls : list (Tx * game_op) :=
  [(demo_tx 5 50 3, InitiateChallenge 10 (word 9) (word 1) 0);
   (demo_tx 7 0 5, SubmitMidpointCall 1 (word 2));
   (demo_tx 5 0 6, RespondToMidpoint 1 false);
   (demo_tx 5 0 20, ClaimTimeout 1)].

Fixpoint demo_run (st : Storage Registry) (calls : list (Tx * game_op)) : Storage Registry :=
  match calls with
  | [] => st
  | (tx, o) :: rest =>
      match game_exec demo_game_params st tx o with Ok st' => demo_run st' rest | Err _ => st end
  end.

Definition demo_after (n : nat) : Storage Registry := demo_run demo_deployed (take n demo_calls).

Lemma demo_roots_entries :
  StateRoot.roots demo_roots = <[10 := root_at demo_roots 10]> (<[0 := root_at demo_roots 0]> ∅).
Proof. vm_compute. reflexivity. Qed.

Lemma demo_roots_old i : submittedAtBlock (root_at demo_roots i) ≤ 3.
Proof.
  unfold root_at at 1, get. rewrite demo_roots_entries.
  destruct (decide (i = 10)) as [->|]; [by rewrite lookup_insert_eq; vm_compute|].
  rewrite lookup_insert_ne by done.
  destruct (decide (i = 0)) as [->|]; [by rewrite lookup_insert_eq; vm_compute|].
  by rewrite lookup_insert_ne.
Qed.

Lemma demo_roots_typed : bonds_typed demo_roots.
Proof.
  intros i r. rewrite demo_roots_entries.
  intros [(_ & <-)|(_ & [(_ & <-)|(_ & [=])]%lookup_insert_Some)]%lookup_insert_Some;
    vm_compute; (split; [discriminate|reflexivity]).
Qed.

Lemma demo_opened_l1 : opened (view_of (game_at (demo_after 1) 1)).
Proof. vm_compute. by split. Qed.

(** The game above, after somebody sent 7 wei. *)
Definition demo_gifted : Storage Registry := receive (demo_after 4) (demo_tx 9 7 21).

Lemma game_contract_solvent_witness :
  ether demo_gifted = 157 ∧ map_sum id (pendingWithdrawals demo_gifted) = 150 ∧
  (∀ a, 0 ≤ get 0 (pendingWithdrawals demo_gifted) a ≤ ether demo_gifted).
Proof.
  split; [vm_compute; reflexivity|]. split; [vm_compute; reflexivity|].
  apply (game_contract_solvent demo_game_params (0 + 0 + 0 + 0 + 0 + 7) demo_gifted); [cbn; lia|].
  apply (runs_call _ _ (demo_after 4) (demo_tx 9 7 21) Receive); [|by cbn|reflexivity].
  apply (runs_call _ _ (demo_after 3) (demo_tx 5 0 20) (ClaimTimeout 1)); [|by cbn|vm_compute; reflexivity].
  apply (runs_call _ _ (demo_after 2) (demo_tx 5 0 6) (RespondToMidpoint 1 false)); [|by cbn|vm_compute; reflexivity].
  apply (runs_call _ _ (demo_after 1) (demo_tx 7 0 5) (SubmitMidpointCall 1 (word 2))); [|by cbn|vm_compute; reflexivity].
  apply (runs_call _ _ demo_deployed (demo_tx 5 50 3) (InitiateChallenge 10 (word 9) (word 1) 0)); [|by cbn|vm_compute; reflexivity].
  eapply (runs_deploy _ true true 2 3 demo_roots); [|reflexivity].
  apply demo_roots_typed.
Defined.

Lemma l1_refines_game_witness :
  ∃ gs', apply_transition (view_of (game_at (demo_after 2) 1)) RespondDisagree = Ok gs' ∧
         views (game_at (demo_after 3) 1) gs'.
Proof.
  apply (l1_refines_game demo_game_params (demo_after 2) (demo_tx 5 0 6) (RespondToMidpoint 1 false)
           (demo_after 3) 1 (view_of (game_at (demo_after 2) 1))).
  - reflexivity.
  - vm_compute. split; [discriminate|]. split; reflexivity.
  - vm_compute. discriminate.
  - apply view_of_views.
  - vm_compute. reflexivity.
Defined.

Lemma honest_move_accepted_witness :
  ∃ o st', plays_move HonestDisagree 1 o ∧
    game_exec demo_game_params (demo_after 2) (demo_tx 5 0 6) o = Ok st'.
Proof.
  destruct (honest_move_accepted demo_game_params (demo_after 2) (demo_tx 5 0 6) 1
              (fun _ => Some (word 1)) 10) as (mv & Hmv & Hplay).
  - lia.
  - cbn. lia.
  - apply (opened_play_ok (view_of (game_at (demo_after 1) 1)) [SubmitMidpoint (word 2)]).
    + apply demo_opened_l1.
    + vm_compute. reflexivity.
  - reflexivity.
  - vm_compute. discriminate.
  - vm_compute. reflexivity.
  - split; eexists; reflexivity.
  - split_and!; vm_compute; congruence.
  - vm_compute in Hmv. injection Hmv as <-. destruct Hplay as [(c & [=])|Hplay]. exact Hplay.
Defined.

(** A sequencer that claims the forged entry takes the game down to it and runs
    the terminal step itself. *)
Definition demo_step_args : TerminateArgs :=
  {| actionKind := 1; actionFields := []; signer := 4; actionSig := sa_sig (demo_log 2);
     actionProof := [];
     opened_cells := [{| cellKind := 1; keyA := 4; keyB := 0; preValue := byte_of 0 :: to_le_bytes 8 0 |}];
     gapMask := []; siblings := []; registryValue := demo_cell; registryProof := word 1 |}.

Definition demo_forgery : list (Tx * game_op) :=
  [(demo_tx 7 0 5, SubmitMidpointCall 1 (word 2));
   (demo_tx 5 0 6, RespondToMidpoint 1 false);
   (demo_tx 7 0 8, SubmitMidpointCall 1 (word 1));
   (demo_tx 5 0 9, RespondToMidpoint 1 true);
   (demo_tx 7 0 11, SubmitMidpointCall 1 (word 2));
   (demo_tx 5 0 12, RespondToMidpoint 1 false);
   (demo_tx 7 0 14, TerminateOnSingleStepCall 1 demo_step_args)].

Definition demo_forged (n : nat) : Storage Registry := demo_run (demo_after 1) (take n demo_forgery).

Lemma demo_state_cases i : demo_state i = 1 ∨ demo_state i = 4.
Proof. unfold demo_state. case_decide; auto. Qed.

Lemma demo_executes deployment : executes deployment demo_log demo_state.
Proof.
  intros i Hi. assert (Hforged : authorised deployment (demo_state 2) (demo_log 2) = false) by done.
  assert (Hgood : authorised deployment (demo_state 7) (demo_log 7) = true) by (vm_compute; reflexivity).
  destruct (decide (i = 2)) as [->|]; [by rewrite Hforged|].
  destruct (decide (i = 7)) as [->|]; [by rewrite Hgood|].
  assert (Hst : demo_state (i + 1) = demo_state i) by (unfold demo_state; repeat case_decide; lia).
  assert (Hk : sa_kind (demo_log i) = 0) by (cbn; by rewrite !decide_False).
  rewrite Hst. clear Hforged Hgood. destruct (authorised _ _ _); [|done].
  change (demo_state i = demo_state i + sa_kind (demo_log i)). lia.
Qed.

Lemma demo_sound : vm_sound demo_log demo_state (word 0) (fun _ => True).
Proof.
  split; cbn.
  - by intros i a _ [_ ?]%bool_decide_eq_true.
  - by intros i a _ ?.
  - intros i a _. unfold registry_opening. cbn. case_decide as Hleaf.
    + case_bool_decide as Habs; [by vm_compute in Hleaf|]. intros _.
      apply (f_equal (drop 50)) in Hleaf. exact Hleaf.
    + destruct (demo_state_cases i) as [-> | ->]; intros Heq; by vm_compute in Heq.
  - intros i a n post _. by case_decide.
  - intros i a n post _. case_decide; [|done]. intros [= <-].
    destruct (demo_state_cases i) as [-> | ->]; reflexivity.
Qed.

Lemma honest_party_wins_witness : won_by Challenger (g_status (game_at (demo_forged 7) 1)).
Proof.
  destruct (honest_party_wins demo_game_params (fun i => Some (word (demo_state i))) Challenger 1
              (demo_after 1) (demo_forged 7) demo_log demo_state (fun _ => True)) as [Hs|Hwon].
  - intros i. unfold demo_log. split_and!; cbn; [|by split|done].
    repeat case_decide; by split.
  - apply demo_executes.
  - apply demo_sound.
  - by intros i c [= <-].
  - vm_compute. discriminate.
  - apply demo_opened_l1.
  - reflexivity.
  - vm_compute. discriminate.
  - eapply (rtc_l _ _ (demo_forged 1)); [|eapply (rtc_l _ _ (demo_forged 2)); [|eapply (rtc_l _ _ (demo_forged 3));
      [|eapply (rtc_l _ _ (demo_forged 4)); [|eapply (rtc_l _ _ (demo_forged 5));
      [|eapply (rtc_l _ _ (demo_forged 6)); [|apply rtc_once]]]]]].
    + apply (others_call _ _ _ _ _ _ _ (demo_tx 7 0 5) (SubmitMidpointCall 1 (word 2)));
        vm_compute; [discriminate|exact I|reflexivity].
    + apply (my_call _ _ _ _ _ _ _ (demo_tx 5 0 6) (RespondToMidpoint 1 false) HonestDisagree);
        vm_compute; first [reflexivity|exact I].
    + apply (others_call _ _ _ _ _ _ _ (demo_tx 7 0 8) (SubmitMidpointCall 1 (word 1)));
        vm_compute; [discriminate|exact I|reflexivity].
    + apply (my_call _ _ _ _ _ _ _ (demo_tx 5 0 9) (RespondToMidpoint 1 true) HonestAgree);
        vm_compute; first [reflexivity|exact I].
    + apply (others_call _ _ _ _ _ _ _ (demo_tx 7 0 11) (SubmitMidpointCall 1 (word 2)));
        vm_compute; [discriminate|exact I|reflexivity].
    + apply (my_call _ _ _ _ _ _ _ (demo_tx 5 0 12) (RespondToMidpoint 1 false) HonestDisagree);
        vm_compute; first [reflexivity|exact I].
    + apply (others_call _ _ _ _ _ _ _ (demo_tx 7 0 14) (TerminateOnSingleStepCall 1 demo_step_args));
        vm_compute; [discriminate|by repeat split|reflexivity].
  - vm_compute in Hs. discriminate Hs.
  - exact Hwon.
Defined.

Lemma unopened_timeout_reverts_witness :
  ∃ st', claimTimeout demo_game_params demo_deployed (demo_tx 99 0 3) 77 = Ok st' ∧
    canonicalTip (outside st') = 0 ∧ isRecordReverted (outside st') 10 = true.
Proof.
  destruct (unopened_timeout_reverts demo_params demo_game_params demo_deployed (demo_tx 99 0 3) 77)
    as (st' & Hrun & Htip & Hall).
  - reflexivity.
  - cbn. lia.
  - reflexivity.
  - discriminate.
  - vm_compute. reflexivity.
  - vm_compute. reflexivity.
  - vm_compute. discriminate.
  - vm_compute. discriminate.
  - vm_compute. discriminate.
  - apply demo_roots_old.
  - exists st'. split; [exact Hrun|]. split; [exact Htip|]. apply Hall. vm_compute.
    split; discriminate.
Defined.

(** ** The two contracts as one system *)

(** A transaction to either contract. *)
Inductive system_op : Type :=
| OnRegistry (o : op)
| OnGame (o : game_op).

Definition system_exec (keccak256 : list u8 → bytes32) (rp : Params) (params : GameParams)
    `{Adjudication} (st : Storage Registry) (t : Tx * system_op) : option (Storage Registry) :=
  match t.2 with
  | OnRegistry o => (fun p => with_outside st p.1) <$> ok_of (StateRoot.exec keccak256 rp (outside st) t.1 o)
  | OnGame o => ok_of (game_exec (H := registry_interface rp) params st t.1 o)
  end.

Fixpoint system_run (keccak256 : list u8 → bytes32) (rp : Params) (params : GameParams)
    `{Adjudication} (st : Storage Registry) (ts : list (Tx * system_op)) : option (Storage Registry) :=
  match ts with
  | [] => Some st
  | t :: ts => system_exec keccak256 rp params st t ≫= fun st => system_run keccak256 rp params st ts
  end.

Definition demo_system (keccak256 : list u8 → bytes32) : Storage Registry :=
  {| games := ∅; nextGameId := 0; activeGameForLogIndex := ∅; pendingWithdrawals := ∅;
     ether := 0; outside := demo_registry keccak256 |}.

(** The sequencer submits a batch, challenges it in the same block, plays both
    sides at the end of each turn until the dispute window of the batch has
    passed, lets the challenger's side time out, and finalises. *)
Definition self_challenge : list (Tx * system_op) :=
  [(demo_tx 7 100 2, OnRegistry (SubmitStateRoot 10 0 (word 2) (word 0)));
   (demo_tx 7 50 2, OnGame (InitiateChallenge 10 (word 9) (word 1) 0));
   (demo_tx 7 0 12, OnGame (SubmitMidpointCall 1 (word 1)));
   (demo_tx 7 0 22, OnGame (RespondToMidpoint 1 true));
   (demo_tx 7 0 32, OnGame (SubmitMidpointCall 1 (word 1)));
   (demo_tx 7 0 42, OnGame (RespondToMidpoint 1 true));
   (demo_tx 7 0 52, OnGame (SubmitMidpointCall 1 (word 1)));
   (demo_tx 7 0 63, OnGame (ClaimTimeout 1));
   (demo_tx 7 0 63, OnRegistry (FinaliseStateRoot 10))].

Lemma active_game_locks {R} `{IStateRootSubmission R} (params : GameParams) (st : Storage R) tx d c l i :
  get 0 (activeGameForLogIndex st) d ≠ 0 →
  ∃ e, initiateChallenge params st tx d c l i = Err e.
Proof.
  intros Ha. unfold initiateChallenge. case_decide; [by eexists|]. rewrite decide_True by done. by eexists.
Qed.

(** A sequencer can finalise a batch nobody else was able to challenge.
    Transactions of the sequencer alone submit a batch, challenge it in the same
    block, keep that game going past the batch's dispute window and then lose
    the challenger's side by timeout, which clears the dispute; the batch is
    finalised in the same block.  In every block in between the open game makes
    [initiateChallenge] refuse everyone else, whatever commit they send. *)
Theorem self_challenge_finalises (keccak256 : list u8 → bytes32) `{Adjudication} :
  let run := system_run keccak256 demo_params demo_game_params (demo_system keccak256) in
  (∀ t, t ∈ self_challenge → msg_sender t.1 = StateRoot.sequencer demo_params) ∧
  (∃ st, run self_challenge = Some st ∧
     finalised (root_at (outside st) 10) = true ∧ stateCommit (root_at (outside st) 10) = word 2) ∧
  (∀ n, (2 ≤ n < 8)%nat → ∃ st, run (take n self_challenge) = Some st ∧
     ∀ tx c l i, ∃ e, initiateChallenge demo_game_params st tx 10 c l i = Err e).
Proof.
  cbv zeta. split_and!.
  - intros t Ht. unfold self_challenge in Ht. by repeat (apply elem_of_cons in Ht as [->|Ht]); try by apply elem_of_nil in Ht.
  - eexists. split; [vm_compute; reflexivity|]. by vm_compute.
  - intros n Hn. assert (Hcases : n ∈ [2; 3; 4; 5; 6; 7]%nat) by (set_unfold; lia).
    unfold self_challenge.
    repeat (apply elem_of_cons in Hcases as [->|Hcases]); try by apply elem_of_nil in Hcases.
    all: eexists; split; [vm_compute; reflexivity|]; intros tx c l i; by apply active_game_locks.
Qed.
