(* ===== verification/Calldata.v ===== *)
(** * Calldata of the fault-proof game

    The calls the observer sends: the terminate bundle with its validation
    ([src/runtime/knomosis-faultproof-observer/src/strategy.rs]) and the ABI
    encoding of every call ([submitter.rs]).  [abi_decode] is the other side, the
    decoder Solidity generates for the functions of
    [src/solidity/src/contracts/KnomosisFaultProofGame.sol]. *)

From Stdlib Require Import ZArith Lia.
From Stdlib Require Strings.String.
From stdpp Require Import base numbers list gmap.
From S2P Require Import Prelude Events Evm StateRoot Game FaultGame.
Import String.StringSyntax.
Delimit Scope string_scope with string.

Local Open Scope Z_scope.

(** ** Words *)

Definition u256_be (v : Z) : list u8 := zeros 16 ++ to_be_bytes 16 v.

Definition bool_word (v : bool) : list u8 := zeros 31 ++ [byte_of (if v then 1 else 0)].

(** [bytes]: the length, the payload, and zeros up to a multiple of 32. *)
Definition encode_dynamic_bytes (payload : list u8) : list u8 :=
  let len := Z.of_nat (length payload) in
  let padded_len := Z.land (len + 31) (Z.lnot 31) in
  u256_be len ++ payload ++ zeros (Z.to_nat (padded_len - len)).

Definition encode_opened_cell_tuple (c : OpenedCell) : list u8 :=
  u256_be (cellKind c) ++ u256_be (keyA c) ++ u256_be (keyB c) ++ u256_be (4 * 32) ++
  encode_dynamic_bytes (preValue c).

(** The pointers of the elements, each the offset of its element. *)
Fixpoint cell_pointers (data_offset : Z) (per_element : list (list u8)) : list u8 :=
  match per_element with
  | [] => []
  | elem :: rest =>
      u256_be data_offset ++ cell_pointers (data_offset + Z.of_nat (length elem)) rest
  end.

Definition encode_opened_cell_array (cells : list OpenedCell) : list u8 :=
  let n := Z.of_nat (length cells) in
  let per_element := encode_opened_cell_tuple <$> cells in
  u256_be n ++ cell_pointers (n * 32) per_element ++ mjoin per_element.

(** ** The terminate bundle *)

Record TerminateBundle : Type := {
  fixture_id : String.string;
  action_kind : Z;
  action_fields : list u8;
  bundle_signer : Z;
  expected_post_commit : list u8;
  bundle_opened_cells : list OpenedCell;
  gap_mask : list u8;
  bundle_siblings : list u8;
  prev_end : option Z;
  end_index : option Z;
  batch_idx : option Z;
  bundle_actions_root : option (list u8);
  action_key : option (list u8);
  leaf_commit : option (list u8);
  action_sig : option (list u8);
  action_gap_mask : option (list u8);
  action_siblings : option (list u8);
  registry_value : option (list u8);
  registry_proof : option (list u8);
}.

Definition has_batch_binding (self : TerminateBundle) : bool := bool_decide (is_Some (action_sig self)).
Definition has_registry_opening (self : TerminateBundle) : bool :=
  bool_decide (is_Some (registry_proof self)).

Definition MAX_TERMINATE_BUNDLE_JSON_BYTES : Z := 8 * 1024 * 1024.
Definition MAX_TERMINATE_BUNDLE_OPENED_CELLS : Z := 32.
Definition MAX_TERMINATE_BUNDLE_GAP_MASK_BYTES : Z := 32 * MAX_TERMINATE_BUNDLE_OPENED_CELLS.
Definition MAX_TERMINATE_BUNDLE_SIBLINGS_BYTES : Z := 8 * 32 * MAX_TERMINATE_BUNDLE_GAP_MASK_BYTES.
Definition TERMINATE_BUNDLE_ACTION_SIG_BYTES : nat := 65.

(** The reasons of [Malformed], one per check. *)
Inductive BundleFault : Type :=
| Json | TooManyCells | GapMaskTooLong | SiblingsTooLong | RaggedSiblings
| PartialBinding | SigWidth | MaskWidth | RaggedActionSiblings
| OutsideBatch | WrongIndex.

Inductive TerminateBundleError : Type :=
| BundleMissed (idx : Z)
| BundleMalformed (idx : Z) (detail : BundleFault)
| BundleOversize (idx observed cap : Z).

Definition binding_present (b : TerminateBundle) : list bool :=
  [bool_decide (is_Some (prev_end b)); bool_decide (is_Some (end_index b));
   bool_decide (is_Some (batch_idx b)); bool_decide (is_Some (bundle_actions_root b));
   bool_decide (is_Some (action_key b)); bool_decide (is_Some (leaf_commit b));
   bool_decide (is_Some (action_sig b)); bool_decide (is_Some (action_gap_mask b));
   bool_decide (is_Some (action_siblings b))].

(** A check on a field that may be absent. *)
Definition if_present {A} (o : option A) (bad : A → bool) (idx : Z) (why : BundleFault)
    : result () TerminateBundleError :=
  match o with
  | Some a => if bad a then Err (BundleMalformed idx why) else Ok ()
  | None => Ok ()
  end.

Definition validate_batch_binding (idx : Z) (b : TerminateBundle) : result () TerminateBundleError :=
  if existsb id (binding_present b) && negb (forallb id (binding_present b))
  then Err (BundleMalformed idx PartialBinding) else
  let? _ := if_present (action_sig b)
    (fun s => negb (bool_decide (length s = TERMINATE_BUNDLE_ACTION_SIG_BYTES))) idx SigWidth in
  let? _ := if_present (action_gap_mask b)
    (fun m => negb (bool_decide (length m = 32%nat))) idx MaskWidth in
  let? _ := if_present (action_siblings b)
    (fun s => negb (Z.of_nat (length s) mod 32 =? 0)) idx RaggedActionSiblings in
  match prev_end b, end_index b, batch_idx b with
  | Some p, Some e, Some i =>
      if negb ((p <=? i) && (i <? e)) then Err (BundleMalformed idx OutsideBatch) else
      if negb (i =? idx) then Err (BundleMalformed idx WrongIndex) else Ok ()
  | _, _, _ => Ok ()
  end.

(** [serde_json::from_str] is the parameter [from_json]. *)
Definition parse_terminate_bundle_json (from_json : list u8 → option TerminateBundle)
    (idx : Z) (json : list u8) : result TerminateBundle TerminateBundleError :=
  let len := Z.of_nat (length json) in
  if decide (MAX_TERMINATE_BUNDLE_JSON_BYTES < len)
  then Err (BundleOversize idx len MAX_TERMINATE_BUNDLE_JSON_BYTES) else
  let? b := ok_or (from_json json) (BundleMalformed idx Json) in
  if decide (MAX_TERMINATE_BUNDLE_OPENED_CELLS < Z.of_nat (length (bundle_opened_cells b)))
  then Err (BundleMalformed idx TooManyCells) else
  if decide (MAX_TERMINATE_BUNDLE_GAP_MASK_BYTES < Z.of_nat (length (gap_mask b)))
  then Err (BundleMalformed idx GapMaskTooLong) else
  if decide (MAX_TERMINATE_BUNDLE_SIBLINGS_BYTES < Z.of_nat (length (bundle_siblings b)))
  then Err (BundleMalformed idx SiblingsTooLong) else
  if negb (Z.of_nat (length (bundle_siblings b)) mod 32 =? 0)
  then Err (BundleMalformed idx RaggedSiblings) else
  let? _ := validate_batch_binding idx b in
  Ok b.

(** ** The calls *)

Inductive MethodSelector : Type :=
| SelSubmitMidpoint
| SelRespondToMidpoint
| SelTerminateOnSingleStep
| SelTerminateOnSingleStepFull
| SelClaimTimeout.

Definition signature (self : MethodSelector) : String.string :=
  match self with
  | SelSubmitMidpoint => "submitMidpoint(uint256,bytes32)"%string
  | SelRespondToMidpoint => "respondToMidpoint(uint256,bool)"%string
  | SelTerminateOnSingleStep => "terminateOnSingleStep(uint256,bytes32)"%string
  | SelTerminateOnSingleStepFull =>
      "terminateOnSingleStep(uint256,uint8,bytes,uint64,bytes,bytes,(uint8,uint256,uint256,bytes)[],bytes,bytes,bytes,bytes)"%string
  | SelClaimTimeout => "claimTimeout(uint256)"%string
  end.

Inductive SubmitError : Type :=
| SubmitNoMove
| TerminateNotImplemented
| MissingBatchBinding
| MissingRegistryOpening
| RpcRejected
| BundleCommitMismatch.

Section Calls.
Variable keccak256 : list u8 → list u8.

Definition selector (self : MethodSelector) : list u8 :=
  take 4 (keccak256 (String.list_byte_of_string (signature self))).

Definition encode_submit_calldata (game_id : Z) (commit : StateCommit) : list u8 :=
  selector SelSubmitMidpoint ++ u256_be game_id ++ commit.

Definition encode_respond_calldata (game_id : Z) (agree : bool) : list u8 :=
  selector SelRespondToMidpoint ++ u256_be game_id ++ bool_word agree.

(** The minimum form, which is not a function of the contract. *)
Definition encode_terminate_calldata (game_id : Z) (expected : StateCommit) : list u8 :=
  selector SelTerminateOnSingleStep ++ u256_be game_id ++ expected.

Definition encode_claim_timeout_calldata (game_id : Z) : list u8 :=
  selector SelClaimTimeout ++ u256_be game_id.

Definition encode_terminate_full_calldata (game_id : Z) (a : TerminateArgs) : list u8 :=
  let head_bytes := 11 * 32 in
  let action_fields_tail := encode_dynamic_bytes (actionFields a) in
  let action_sig_tail := encode_dynamic_bytes (actionSig a) in
  let action_proof_tail := encode_dynamic_bytes (actionProof a) in
  let opened_tail := encode_opened_cell_array (opened_cells a) in
  let gap_mask_tail := encode_dynamic_bytes (gapMask a) in
  let siblings_tail := encode_dynamic_bytes (siblings a) in
  let registry_value_tail := encode_dynamic_bytes (registryValue a) in
  let registry_proof_tail := encode_dynamic_bytes (registryProof a) in
  let len l := Z.of_nat (length l) in
  let action_fields_offset := head_bytes in
  let action_sig_offset := action_fields_offset + len action_fields_tail in
  let action_proof_offset := action_sig_offset + len action_sig_tail in
  let opened_offset := action_proof_offset + len action_proof_tail in
  let gap_mask_offset := opened_offset + len opened_tail in
  let siblings_offset := gap_mask_offset + len gap_mask_tail in
  let registry_value_offset := siblings_offset + len siblings_tail in
  let registry_proof_offset := registry_value_offset + len registry_value_tail in
  selector SelTerminateOnSingleStepFull ++
  u256_be game_id ++ u256_be (actionKind a) ++ u256_be action_fields_offset ++
  u256_be (signer a) ++ u256_be action_sig_offset ++ u256_be action_proof_offset ++
  u256_be opened_offset ++ u256_be gap_mask_offset ++ u256_be siblings_offset ++
  u256_be registry_value_offset ++ u256_be registry_proof_offset ++
  action_fields_tail ++ action_sig_tail ++ action_proof_tail ++ opened_tail ++
  gap_mask_tail ++ siblings_tail ++ registry_value_tail ++ registry_proof_tail.

Definition encode_calldata (game_id : Z) (mv : HonestMove) : result (list u8) SubmitError :=
  match mv with
  | NoMove => Err SubmitNoMove
  | Submit claim => Ok (encode_submit_calldata game_id (commit claim))
  | HonestAgree => Ok (encode_respond_calldata game_id true)
  | HonestDisagree => Ok (encode_respond_calldata game_id false)
  | HonestTerminate _ => Err TerminateNotImplemented
  end.

(** The arguments of the terminal call a bundle with its bindings gives. *)
Definition bundle_args (b : TerminateBundle) (sig mask sibs proof : list u8) : TerminateArgs :=
  {| actionKind := action_kind b; actionFields := action_fields b; signer := bundle_signer b;
     actionSig := sig; actionProof := mask ++ sibs; opened_cells := bundle_opened_cells b;
     gapMask := gap_mask b; siblings := bundle_siblings b;
     registryValue := default [] (registry_value b); registryProof := proof |}.

Definition encode_calldata_with_bundle (game_id : Z) (mv : HonestMove)
    (bundle : option TerminateBundle) : result (list u8) SubmitError :=
  match mv, bundle with
  | HonestTerminate expected, Some b =>
      if decide (expected_post_commit b ≠ expected) then Err BundleCommitMismatch else
      match action_sig b, action_gap_mask b, action_siblings b with
      | Some sig, Some mask, Some sibs =>
          match registry_proof b with
          | None => Err MissingRegistryOpening
          | Some proof => Ok (encode_terminate_full_calldata game_id (bundle_args b sig mask sibs proof))
          end
      | _, _, _ => Err MissingBatchBinding
      end
  | _, _ => encode_calldata game_id mv
  end.
End Calls.

(** ** The decoder of the contract

    Solidity's decoder of calldata: a word is read inside the calldata, a value
    of a narrow type has to fit it, a dynamic value is reached by an offset and
    has a length, both below 2^64. *)

Definition word_at (data : list u8) (pos : Z) : option (list u8) := slice data pos (pos + 32).

Definition uint_at (w : Z) (data : list u8) (pos : Z) : option Z :=
  word_at data pos ≫= fun bs =>
  let x := from_be_bytes bs in if decide (x < 2 ^ w) then Some x else None.

Definition bool_at (data : list u8) (pos : Z) : option bool :=
  uint_at 256 data pos ≫= fun x =>
  if decide (x = 0) then Some false else if decide (x = 1) then Some true else None.

(** [bytes] whose offset is the word at [pos], relative to [base]. *)
Definition bytes_at (data : list u8) (base pos : Z) : option (list u8) :=
  uint_at 64 data pos ≫= fun off =>
  uint_at 64 data (base + off) ≫= fun len =>
  slice data (base + off + 32) (base + off + 32 + len).

Definition cell_at (data : list u8) (base pos : Z) : option OpenedCell :=
  uint_at 64 data pos ≫= fun off =>
  let at_ := base + off in
  uint_at 8 data at_ ≫= fun kind =>
  uint_at 256 data (at_ + 32) ≫= fun a =>
  uint_at 256 data (at_ + 64) ≫= fun b =>
  bytes_at data at_ (at_ + 96) ≫= fun value =>
  Some {| cellKind := kind; keyA := a; keyB := b; preValue := value |}.

Fixpoint cells_from (data : list u8) (base pos : Z) (n : nat) : option (list OpenedCell) :=
  match n with
  | O => Some []
  | S n =>
      cell_at data base pos ≫= fun c =>
      cells_from data base (pos + 32) n ≫= fun rest => Some (c :: rest)
  end.

Definition cells_at (data : list u8) (pos : Z) : option (list OpenedCell) :=
  uint_at 64 data pos ≫= fun off =>
  uint_at 64 data off ≫= fun n =>
  cells_from data (off + 32) (off + 32) (Z.to_nat n).

Definition decode_terminate (args : list u8) : option (Z * TerminateArgs) :=
  uint_at 256 args 0 ≫= fun game_id =>
  uint_at 8 args 32 ≫= fun kind =>
  bytes_at args 0 64 ≫= fun fields =>
  uint_at 64 args 96 ≫= fun sgn =>
  bytes_at args 0 128 ≫= fun sig =>
  bytes_at args 0 160 ≫= fun proof =>
  cells_at args 192 ≫= fun cells =>
  bytes_at args 0 224 ≫= fun mask =>
  bytes_at args 0 256 ≫= fun sibs =>
  bytes_at args 0 288 ≫= fun reg_value =>
  bytes_at args 0 320 ≫= fun reg_proof =>
  Some (game_id,
    {| actionKind := kind; actionFields := fields; signer := sgn; actionSig := sig;
       actionProof := proof; opened_cells := cells; gapMask := mask; siblings := sibs;
       registryValue := reg_value; registryProof := reg_proof |}).

(** The dispatch on the selector. *)
Definition abi_decode (keccak256 : list u8 → list u8) (calldata : list u8) : option game_op :=
  let sel := take 4 calldata in
  let args := drop 4 calldata in
  if decide (sel = selector keccak256 SelSubmitMidpoint) then
    uint_at 256 args 0 ≫= fun id => word_at args 32 ≫= fun c => Some (SubmitMidpointCall id c)
  else if decide (sel = selector keccak256 SelRespondToMidpoint) then
    uint_at 256 args 0 ≫= fun id => bool_at args 32 ≫= fun b => Some (RespondToMidpoint id b)
  else if decide (sel = selector keccak256 SelTerminateOnSingleStepFull) then
    decode_terminate args ≫= fun '(id, a) => Some (TerminateOnSingleStepCall id a)
  else if decide (sel = selector keccak256 SelClaimTimeout) then
    uint_at 256 args 0 ≫= fun id => Some (ClaimTimeout id)
  else None.

(** ** Words round trip *)

Lemma u256_be_length v : length (u256_be v) = 32%nat.
Proof. unfold u256_be. by rewrite length_app, zeros_length, to_be_bytes_length. Qed.

Lemma zeros_val n : from_be_bytes (zeros n) = 0.
Proof. apply from_be_bytes_zero, zeros_zero. Qed.

Lemma u256_be_val v : in_u128 v → from_be_bytes (u256_be v) = v.
Proof.
  intros Hv. unfold u256_be. rewrite from_be_bytes_app, zeros_val, from_to_be_bytes by done. lia.
Qed.

(** A word of the head. *)
Lemma word_at_app pre w post pos :
  Z.of_nat (length pre) = pos → length w = 32%nat → word_at (pre ++ w ++ post) pos = Some w.
Proof. intros Hpre Hw. apply slice_app; lia. Qed.

Lemma uint_at_word n data pos v :
  word_at data pos = Some (u256_be v) → in_u128 v → in_width n v → uint_at n data pos = Some v.
Proof.
  intros Hw Hv [_ Hn]. unfold uint_at. rewrite Hw. cbn [mbind option_bind].
  rewrite u256_be_val by done.
  by rewrite decide_True.
Qed.

Lemma bool_at_word data pos b : word_at data pos = Some (bool_word b) → bool_at data pos = Some b.
Proof.
  intros Hw. unfold bool_at, uint_at. rewrite Hw. cbn [mbind option_bind].
  unfold bool_word. rewrite from_be_bytes_app, zeros_val. by destruct b.
Qed.

(** Words in a row. *)
Lemma word_at_row pre (ws : list (list u8)) rest (i : nat) w pos :
  Forall (fun w => length w = 32%nat) ws → ws !! i = Some w →
  pos = Z.of_nat (length pre) + 32 * Z.of_nat i →
  word_at (pre ++ mjoin ws ++ rest) pos = Some w.
Proof.
  intros Hws Hi ->. pose proof (lookup_lt_Some _ _ _ Hi).
  rewrite <- (take_drop_middle ws i w Hi), join_app. cbn [mjoin list_join].
  rewrite <- !app_assoc, (app_assoc pre). apply word_at_app.
  - rewrite length_app, words_length, length_take by (by apply Forall_take). lia.
  - by eapply (Forall_lookup_1 _ _ _ _ Hws).
Qed.

Lemma uint_at_app n pre v post pos :
  Z.of_nat (length pre) = pos → in_u128 v → in_width n v →
  uint_at n (pre ++ u256_be v ++ post) pos = Some v.
Proof.
  intros Hpos Hv Hn. apply uint_at_word; [|done..]. apply word_at_app; [done|]. apply u256_be_length.
Qed.

Lemma u64_u128 x : in_u64 x → in_u128 x.
Proof. apply in_width_mono. lia. Qed.
#[local] Hint Resolve u64_u128 : core.

(** ** Dynamic values round trip *)

Lemma bytes_at_app data base pos off pre p post :
  word_at data pos = Some (u256_be off) → in_u64 off → in_u64 (Z.of_nat (length p)) →
  data = pre ++ encode_dynamic_bytes p ++ post → Z.of_nat (length pre) = base + off →
  bytes_at data base pos = Some p.
Proof.
  intros Hw Hoff Hp Hdata Hpre. unfold bytes_at. rewrite (uint_at_word _ _ _ off) by auto.
  cbn [mbind option_bind]. rewrite Hdata. unfold encode_dynamic_bytes. rewrite <- !app_assoc.
  rewrite uint_at_app by auto. cbn [mbind option_bind].
  rewrite (app_assoc pre). apply slice_app; [|done].
  rewrite length_app, u256_be_length. lia.
Qed.

Definition cell_typed (c : OpenedCell) : Prop :=
  in_u8 (cellKind c) ∧ in_u128 (keyA c) ∧ in_u128 (keyB c) ∧ in_u64 (Z.of_nat (length (preValue c))).

Lemma cell_at_app data base pos off pre c post :
  word_at data pos = Some (u256_be off) → in_u64 off → cell_typed c →
  data = pre ++ encode_opened_cell_tuple c ++ post → Z.of_nat (length pre) = base + off →
  cell_at data base pos = Some c.
Proof.
  intros Hw Hoff (Hk & Ha & Hb & Hv) Hdata Hpre. unfold cell_at.
  rewrite (uint_at_word _ _ _ off) by auto. cbn [mbind option_bind].
  set (ws := [u256_be (cellKind c); u256_be (keyA c); u256_be (keyB c); u256_be (4 * 32)]).
  set (rest := encode_dynamic_bytes (preValue c) ++ post).
  assert (Hd : data = pre ++ mjoin ws ++ rest).
  { rewrite Hdata. unfold encode_opened_cell_tuple, rest. cbn [mjoin list_join ws].
    rewrite app_nil_r, <- !app_assoc. done. }
  assert (Hword : ∀ i w p, ws !! i = Some w → p = base + off + 32 * Z.of_nat i →
    word_at data p = Some w).
  { intros i w p Hi ->. rewrite Hd. apply word_at_row with i; [|done|lia].
    repeat constructor; apply u256_be_length. }
  rewrite (uint_at_word 8 _ (base + off) (cellKind c));
    [|by apply (Hword 0%nat); [done|lia]|apply (in_width_mono 8 128); [lia|done]|done].
  cbn [mbind option_bind].
  rewrite (uint_at_word 256 _ (base + off + 32) (keyA c));
    [|by apply (Hword 1%nat); [done|lia]|done|apply (in_width_mono 128 256); [lia|done]].
  cbn [mbind option_bind].
  rewrite (uint_at_word 256 _ (base + off + 64) (keyB c));
    [|by apply (Hword 2%nat); [done|lia]|done|apply (in_width_mono 128 256); [lia|done]].
  cbn [mbind option_bind].
  rewrite (bytes_at_app _ _ _ (4 * 32) (pre ++ mjoin ws) (preValue c) post); cbn [mbind option_bind].
  - by destruct c.
  - apply (Hword 3%nat); [done|lia].
  - done.
  - done.
  - rewrite Hd. unfold rest. by rewrite <- app_assoc.
  - rewrite length_app, words_length by (repeat constructor; apply u256_be_length). cbn. lia.
Qed.

Lemma mjoin_cons {A} (x : list A) (l : list (list A)) : mjoin (x :: l) = x ++ mjoin l.
Proof. done. Qed.

Lemma cell_pointers_length d elems : length (cell_pointers d elems) = (32 * length elems)%nat.
Proof.
  revert d. induction elems as [|e elems IH]; intros d; [done|].
  cbn [cell_pointers]. rewrite length_app, u256_be_length, IH. cbn. lia.
Qed.

(** The elements of an array, from the first pointer on. *)
Lemma cells_from_app data base pre mid post cells d :
  data = pre ++ cell_pointers d (encode_opened_cell_tuple <$> cells) ++ mid ++
         mjoin (encode_opened_cell_tuple <$> cells) ++ post →
  base + d = Z.of_nat (length pre) + 32 * Z.of_nat (length cells) + Z.of_nat (length mid) →
  0 ≤ d → d + Z.of_nat (length (mjoin (encode_opened_cell_tuple <$> cells))) < 2 ^ 64 →
  Forall cell_typed cells →
  cells_from data base (Z.of_nat (length pre)) (length cells) = Some cells.
Proof.
  intros Hdata Hbase Hd Hlen Hty. revert pre mid d Hdata Hbase Hd Hlen.
  induction Hty as [|c cells Hc Hty IH]; intros pre mid d Hdata Hbase Hd Hlen; [done|].
  rewrite fmap_cons, mjoin_cons in *. cbn [cell_pointers length cells_from] in *.
  rewrite length_app in Hlen. rewrite <- !app_assoc in Hdata.
  set (ptrs := cell_pointers _ _) in *.
  assert (Hptrs : length ptrs = (32 * length cells)%nat) by (unfold ptrs; by rewrite cell_pointers_length, length_fmap).
  rewrite (cell_at_app data base _ d (pre ++ u256_be d ++ ptrs ++ mid) c
             (mjoin (encode_opened_cell_tuple <$> cells) ++ post)).
  - cbn [mbind option_bind].
    replace (Z.of_nat (length pre) + 32) with (Z.of_nat (length (pre ++ u256_be d)))
      by (rewrite length_app, u256_be_length; lia).
    rewrite (IH (pre ++ u256_be d) (mid ++ encode_opened_cell_tuple c)
               (d + Z.of_nat (length (encode_opened_cell_tuple c)))); [done| | |lia|].
    + by rewrite Hdata, <- !app_assoc.
    + rewrite !length_app, u256_be_length. lia.
    + lia.
  - rewrite Hdata. apply word_at_app; [done|]. apply u256_be_length.
  - unfold in_width. lia.
  - done.
  - by rewrite Hdata, <- !app_assoc.
  - rewrite !length_app, u256_be_length, Hptrs. lia.
Qed.

Lemma cells_at_app data pos off pre cells post :
  word_at data pos = Some (u256_be off) → in_u64 off →
  Forall cell_typed cells →
  data = pre ++ encode_opened_cell_array cells ++ post → Z.of_nat (length pre) = off →
  Z.of_nat (length data) < 2 ^ 64 →
  cells_at data pos = Some cells.
Proof.
  intros Hw Hoff Hty Hdata Hpre Hlen. unfold cells_at. rewrite (uint_at_word _ _ _ off) by auto.
  cbn [mbind option_bind]. unfold encode_opened_cell_array in Hdata. rewrite <- !app_assoc in Hdata.
  pose proof Hlen as Hsize. rewrite Hdata, !length_app, cell_pointers_length, length_fmap in Hsize.
  rewrite Hdata at 1. rewrite uint_at_app; [|done|apply u64_u128|]; [|unfold in_width; lia..].
  cbn [mbind option_bind]. rewrite Nat2Z.id.
  replace (off + 32) with (Z.of_nat (length (pre ++ u256_be (Z.of_nat (length cells)))))
    by (rewrite length_app, u256_be_length; lia).
  eapply (cells_from_app _ _ _ [] post _ (Z.of_nat (length cells) * 32)).
  - by rewrite Hdata, <- !app_assoc.
  - cbn. lia.
  - lia.
  - lia.
  - done.
Qed.

(** ** The terminal call round trips *)

Definition args_typed (a : TerminateArgs) : Prop :=
  in_u8 (actionKind a) ∧ in_u64 (signer a) ∧ Forall cell_typed (opened_cells a).

(** The tails of the terminal call, in order. *)
Definition terminate_tails (a : TerminateArgs) : list (list u8) :=
  [encode_dynamic_bytes (actionFields a); encode_dynamic_bytes (actionSig a);
   encode_dynamic_bytes (actionProof a); encode_opened_cell_array (opened_cells a);
   encode_dynamic_bytes (gapMask a); encode_dynamic_bytes (siblings a);
   encode_dynamic_bytes (registryValue a); encode_dynamic_bytes (registryProof a)].

Definition tail_offset (a : TerminateArgs) (k : nat) : Z :=
  352 + Z.of_nat (length (mjoin (take k (terminate_tails a)))).

Definition terminate_heads (game_id : Z) (a : TerminateArgs) : list (list u8) :=
  [u256_be game_id; u256_be (actionKind a); u256_be (tail_offset a 0); u256_be (signer a);
   u256_be (tail_offset a 1); u256_be (tail_offset a 2); u256_be (tail_offset a 3);
   u256_be (tail_offset a 4); u256_be (tail_offset a 5); u256_be (tail_offset a 6);
   u256_be (tail_offset a 7)].

Lemma terminate_layout keccak256 game_id a :
  encode_terminate_full_calldata keccak256 game_id a =
  selector keccak256 SelTerminateOnSingleStepFull ++
  mjoin (terminate_heads game_id a) ++ mjoin (terminate_tails a).
Proof.
  unfold encode_terminate_full_calldata, terminate_heads, terminate_tails, tail_offset.
  cbn [take terminate_tails]. rewrite !mjoin_cons. change (mjoin []) with (@nil u8).
  rewrite !app_nil_r, <- !app_assoc. rewrite !length_app, !Nat2Z.inj_add.
  rewrite !Z.add_assoc. done.
Qed.

Lemma heads_words game_id a : Forall (fun w => length w = 32%nat) (terminate_heads game_id a).
Proof. repeat constructor; apply u256_be_length. Qed.

Section Terminate.
Variables (game_id : Z) (a : TerminateArgs).

Let args : list u8 := mjoin (terminate_heads game_id a) ++ mjoin (terminate_tails a).
Hypothesis args_u64 : Z.of_nat (length args) < 2 ^ 64.

Lemma head_word i w pos :
  terminate_heads game_id a !! i = Some w → pos = 32 * Z.of_nat i → word_at args pos = Some w.
Proof.
  intros Hi ->. apply (word_at_row [] _ _ i); [apply heads_words|done|cbn; lia].
Qed.

Lemma tail_split k t :
  terminate_tails a !! k = Some t →
  args = (mjoin (terminate_heads game_id a) ++ mjoin (take k (terminate_tails a))) ++ t ++
         mjoin (drop (S k) (terminate_tails a)) ∧
  Z.of_nat (length (mjoin (terminate_heads game_id a) ++ mjoin (take k (terminate_tails a)))) =
    tail_offset a k.
Proof.
  intros Hk. split.
  - unfold args. rewrite <- (take_drop_middle _ _ _ Hk) at 1. rewrite join_app, mjoin_cons.
    by rewrite <- !app_assoc.
  - rewrite length_app, words_length by apply heads_words. unfold tail_offset. cbn [length terminate_heads].
    lia.
Qed.

Lemma tail_fits k t :
  terminate_tails a !! k = Some t →
  in_u64 (tail_offset a k) ∧ Z.of_nat (length t) < 2 ^ 64.
Proof.
  intros Hk. destruct (tail_split k t Hk) as [Hargs Hoff].
  pose proof args_u64 as Hlen. rewrite Hargs, length_app, !length_app in Hlen.
  rewrite length_app in Hoff. unfold in_width. lia.
Qed.

Lemma tail_bytes k i p pos :
  terminate_tails a !! k = Some (encode_dynamic_bytes p) →
  terminate_heads game_id a !! i = Some (u256_be (tail_offset a k)) → pos = 32 * Z.of_nat i →
  bytes_at args 0 pos = Some p.
Proof.
  intros Hk Hi ->. destruct (tail_split _ _ Hk) as [Hargs Hoff].
  destruct (tail_fits _ _ Hk) as [Hu Hlen].
  eapply bytes_at_app; [by eapply head_word|done| |exact Hargs|lia].
  unfold encode_dynamic_bytes in Hlen. rewrite !length_app in Hlen. unfold in_width. lia.
Qed.

Lemma decode_terminate_exact :
  in_u128 game_id → args_typed a → decode_terminate args = Some (game_id, a).
Proof.
  intros Hid (Hkind & Hsigner & Hcells). unfold decode_terminate.
  rewrite (uint_at_word 256 _ 0 game_id);
    [|by apply (head_word 0)|done|apply (in_width_mono 128 256); [lia|done]].
  rewrite (uint_at_word 8 _ 32 (actionKind a));
    [|by apply (head_word 1)|apply (in_width_mono 8 128); [lia|done]|done].
  rewrite (tail_bytes 0 2 (actionFields a) 64) by done.
  rewrite (uint_at_word 64 _ 96 (signer a)); [|by apply (head_word 3)|auto|done].
  rewrite (tail_bytes 1 4 (actionSig a) 128), (tail_bytes 2 5 (actionProof a) 160) by done.
  destruct (tail_split 3 (encode_opened_cell_array (opened_cells a)) eq_refl) as [Hargs Hoff].
  destruct (tail_fits 3 _ eq_refl) as [Hu _].
  rewrite (cells_at_app _ _ _ _ _ _ (head_word 6 _ 192 eq_refl eq_refl) Hu Hcells Hargs Hoff args_u64).
  rewrite (tail_bytes 4 7 (gapMask a) 224), (tail_bytes 5 8 (siblings a) 256),
    (tail_bytes 6 9 (registryValue a) 288), (tail_bytes 7 10 (registryProof a) 320) by done.
  cbn. by destruct a.
Qed.
End Terminate.

(** ** The calls are the moves *)

(** The hash has 32 bytes and tells the functions of the contract apart, which
    the compiler refuses to do without. *)
Definition selectors_ok (keccak256 : list u8 → list u8) : Prop :=
  (∀ x, length (keccak256 x) = 32%nat) ∧
  NoDup (selector keccak256 <$>
    [SelSubmitMidpoint; SelRespondToMidpoint; SelTerminateOnSingleStepFull; SelClaimTimeout]).

Definition bundle_typed (b : TerminateBundle) : Prop :=
  in_u8 (action_kind b) ∧ in_u64 (bundle_signer b) ∧ Forall cell_typed (bundle_opened_cells b).

Definition move_typed (mv : HonestMove) : Prop :=
  match mv with Submit c => length (commit c) = 32%nat | _ => True end.

Lemma dispatch keccak256 m args :
  selectors_ok keccak256 →
  take 4 (selector keccak256 m ++ args) = selector keccak256 m ∧
  drop 4 (selector keccak256 m ++ args) = args.
Proof.
  intros [Hlen _]. assert (length (selector keccak256 m) = 4%nat)
    by (unfold selector; rewrite length_take, Hlen; done).
  by rewrite take_app_length', drop_app_length'.
Qed.

Lemma selector_apart keccak256 m m' :
  selectors_ok keccak256 → m ≠ m' → m ≠ SelTerminateOnSingleStep → m' ≠ SelTerminateOnSingleStep →
  selector keccak256 m ≠ selector keccak256 m'.
Proof.
  intros [_ Hnd] Hne Hm Hm'. cbn in Hnd. rewrite !NoDup_cons, !not_elem_of_cons in Hnd.
  destruct m, m'; naive_solver.
Qed.

(** A branch of the dispatch for another function. *)
Ltac other_selector := rewrite decide_False by (by apply selector_apart).

Lemma game_id_at game_id rest :
  in_u128 game_id → uint_at 256 (u256_be game_id ++ rest) 0 = Some game_id.
Proof.
  intros Hid. apply (uint_at_app 256 []); [done..|]. apply (in_width_mono 128 256); [lia|done].
Qed.

Lemma second_word game_id w : length w = 32%nat → word_at (u256_be game_id ++ w) 32 = Some w.
Proof.
  intros Hw. rewrite <- (app_nil_r w) at 1. apply word_at_app; [by rewrite u256_be_length|done].
Qed.

Lemma bool_word_length b : length (bool_word b) = 32%nat.
Proof. unfold bool_word. by rewrite length_app, zeros_length. Qed.

Lemma decode_submit keccak256 game_id c :
  selectors_ok keccak256 → in_u128 game_id → length c = 32%nat →
  abi_decode keccak256 (encode_submit_calldata keccak256 game_id c) =
    Some (SubmitMidpointCall game_id c).
Proof.
  intros Hsel Hid Hc. unfold abi_decode, encode_submit_calldata.
  destruct (dispatch keccak256 SelSubmitMidpoint (u256_be game_id ++ c) Hsel) as [-> ->].
  rewrite decide_True by done. by rewrite game_id_at, second_word.
Qed.

Lemma decode_respond keccak256 game_id b :
  selectors_ok keccak256 → in_u128 game_id →
  abi_decode keccak256 (encode_respond_calldata keccak256 game_id b) =
    Some (RespondToMidpoint game_id b).
Proof.
  intros Hsel Hid. unfold abi_decode, encode_respond_calldata.
  destruct (dispatch keccak256 SelRespondToMidpoint (u256_be game_id ++ bool_word b) Hsel) as [-> ->].
  other_selector. rewrite decide_True by done.
  rewrite game_id_at by done. cbn [mbind option_bind].
  by rewrite (bool_at_word _ _ b) by apply second_word, bool_word_length.
Qed.

Lemma decode_terminate_full keccak256 game_id a :
  selectors_ok keccak256 → in_u128 game_id → args_typed a →
  Z.of_nat (length (encode_terminate_full_calldata keccak256 game_id a)) < 2 ^ 64 →
  abi_decode keccak256 (encode_terminate_full_calldata keccak256 game_id a) =
    Some (TerminateOnSingleStepCall game_id a).
Proof.
  intros Hsel Hid Ha Hlen. rewrite terminate_layout in *. unfold abi_decode.
  destruct (dispatch keccak256 SelTerminateOnSingleStepFull
              (mjoin (terminate_heads game_id a) ++ mjoin (terminate_tails a)) Hsel) as [-> ->].
  do 2 other_selector.
  rewrite decide_True by done. rewrite decode_terminate_exact; [done| |done..].
  rewrite length_app in Hlen. lia.
Qed.

Lemma decode_claim_timeout keccak256 game_id :
  selectors_ok keccak256 → in_u128 game_id →
  abi_decode keccak256 (encode_claim_timeout_calldata keccak256 game_id) = Some (ClaimTimeout game_id).
Proof.
  intros Hsel Hid. unfold abi_decode, encode_claim_timeout_calldata.
  destruct (dispatch keccak256 SelClaimTimeout (u256_be game_id) Hsel) as [-> ->].
  do 3 other_selector.
  rewrite decide_True by done. rewrite <- (app_nil_r (u256_be game_id)). by rewrite game_id_at.
Qed.

(** The call that the bytes of a move are decoded to. *)
Lemma move_decoded keccak256 game_id mv bundle cd :
  selectors_ok keccak256 → in_u128 game_id → move_typed mv →
  (∀ b, bundle = Some b → bundle_typed b) →
  encode_calldata_with_bundle keccak256 game_id mv bundle = Ok cd →
  Z.of_nat (length cd) < 2 ^ 64 →
  ∃ o, abi_decode keccak256 cd = Some o ∧ plays_move mv game_id o ∧
    ∀ c, mv = HonestTerminate c →
      ∃ b sig mask sibs proof, bundle = Some b ∧ expected_post_commit b = c ∧
        action_sig b = Some sig ∧ action_gap_mask b = Some mask ∧ action_siblings b = Some sibs ∧
        registry_proof b = Some proof ∧
        o = TerminateOnSingleStepCall game_id (bundle_args b sig mask sibs proof).
Proof.
  intros Hsel Hid Hmv Hb Henc Hlen.
  destruct mv as [|c| | |c]; unfold encode_calldata_with_bundle, encode_calldata in Henc; simplify_eq.
  - eexists. split; [by apply decode_submit|]. by split.
  - eexists. split; [by apply decode_respond|]. by split.
  - eexists. split; [by apply decode_respond|]. by split.
  - destruct bundle as [b|]; [|done]. specialize (Hb b eq_refl) as (Hk & Hs & Hc).
    case_decide as Hpost; [done|].
    destruct (action_sig b) as [sig|] eqn:Hsig, (action_gap_mask b) as [mask|] eqn:Hmask,
      (action_siblings b) as [sibs|] eqn:Hsibs; try done.
    destruct (registry_proof b) as [proof|] eqn:Hproof; [|done]. simplify_eq.
    eexists. split; [by apply decode_terminate_full|]. split; [by eexists|].
    intros c [= <-]. by exists b, sig, mask, sibs, proof.
Qed.

(** C37: what the observer signs is the move it chose.  The bytes it encodes for
    an honest move are decoded by the contract to the call that plays exactly
    that move on exactly that game: a midpoint with its commit, an answer with
    its verdict, and for the terminal step the action, the proofs and the opened
    cells of a bundle whose post-commit is the one the strategy expects.  A
    timeout claim is decoded to the claim of that game. *)
Theorem calldata_plays_move keccak256 game_id mv bundle cd :
  selectors_ok keccak256 → in_u128 game_id → move_typed mv →
  (∀ b, bundle = Some b → bundle_typed b) →
  encode_calldata_with_bundle keccak256 game_id mv bundle = Ok cd →
  Z.of_nat (length cd) < 2 ^ 64 →
  abi_decode keccak256 (encode_claim_timeout_calldata keccak256 game_id) =
    Some (ClaimTimeout game_id) ∧
  ∃ o, abi_decode keccak256 cd = Some o ∧ plays_move mv game_id o ∧
    ∀ c, mv = HonestTerminate c →
      ∃ b sig mask sibs proof, bundle = Some b ∧ expected_post_commit b = c ∧
        action_sig b = Some sig ∧ action_gap_mask b = Some mask ∧ action_siblings b = Some sibs ∧
        registry_proof b = Some proof ∧
        o = TerminateOnSingleStepCall game_id (bundle_args b sig mask sibs proof).
Proof.
  intros Hsel Hid Hmv Hb Henc Hlen. split; [by apply decode_claim_timeout|]. by eapply move_decoded.
Qed.

(** ** A concrete call *)

(** A hash that tells the functions apart by the first letter of their names. *)
Definition demo_hash (x : list u8) : list u8 := replicate 32 (nth 0 x (byte_of 0)).

Definition demo_bundle : TerminateBundle :=
  {| fixture_id := "log[7]"%string; action_kind := 5; action_fields := zeros 40; bundle_signer := 9;
     expected_post_commit := zeros 32;
     bundle_opened_cells :=
       [{| cellKind := 1; keyA := 9; keyB := 0; preValue := zeros 9 |};
        {| cellKind := 0; keyA := 1; keyB := 9; preValue := zeros 33 |}];
     gap_mask := zeros 3; bundle_siblings := zeros 64; prev_end := Some 0; end_index := Some 10;
     batch_idx := Some 7; bundle_actions_root := Some (zeros 32); action_key := Some (zeros 32);
     leaf_commit := Some (zeros 32); action_sig := Some (zeros 65);
     action_gap_mask := Some (zeros 32); action_siblings := Some (zeros 32);
     registry_value := None; registry_proof := Some (zeros 32) |}.

Definition demo_calldata : list u8 :=
  match encode_calldata_with_bundle demo_hash 3 (HonestTerminate (zeros 32)) (Some demo_bundle) with
  | Ok cd => cd
  | Err _ => []
  end.

Lemma calldata_plays_move_witness :
  validate_batch_binding 7 demo_bundle = Ok () ∧
  ∃ o, abi_decode demo_hash demo_calldata = Some o ∧ plays_move (HonestTerminate (zeros 32)) 3 o.
Proof.
  split; [vm_compute; reflexivity|].
  destruct (calldata_plays_move demo_hash 3 (HonestTerminate (zeros 32)) (Some demo_bundle)
              demo_calldata) as [_ (o & Ho & Hplay & _)].
  - split; [intros x; apply length_replicate|].
    apply (bool_decide_eq_true_1 (NoDup _)). vm_compute. reflexivity.
  - done.
  - exact I.
  - intros b Hb. injection Hb as <-. split; [done|]. split; [done|]. repeat constructor; cbn; done.
  - reflexivity.
  - vm_compute. reflexivity.
  - exists o. split; [exact Ho|exact Hplay].
Defined.
