(* ===== verification/GameReader.v ===== *)
(** * The reader of a game's state on L1

    [src/runtime/knomosis-faultproof-observer/src/state_reader.rs]: the answer of
    [eth_call] to [games(uint256)], decoded slot by slot and validated.  The RPC
    client and the [hex] crate are parameters; [abi_game] is the answer Solidity's
    getter gives for a game of the contract. *)

From Stdlib Require Import ZArith Lia.
From stdpp Require Import base numbers list gmap.
From S2P Require Import Prelude Events State Evm StateRoot Game FaultGame Calldata.

Local Open Scope Z_scope.

(** The [hex] crate: lower-case digits without a prefix. *)
Class Hex : Type := {
  hex_encode : list u8 → list u8;
  hex_decode : list u8 → option (list u8);
}.

Class HexOk `{Hex} : Prop := {
  hex_decode_encode bs : hex_decode (hex_encode bs) = Some bs;
  hex_encode_length bs : length (hex_encode bs) = (2 * length bs)%nat;
  hex_encode_digits bs :
    Forall (fun c => 48 ≤ byte_val c ≤ 57 ∨ 97 ≤ byte_val c ≤ 102) (hex_encode bs);
}.

(** [s.strip_prefix("0x").unwrap_or(s)]. *)
Definition strip_0x (s : list u8) : list u8 :=
  if decide (take 2 s = hex_prefix) then drop 2 s else s.

(** ** Slots *)

Definition read_u64_from_slot (slot : list u8) : Z := from_be_bytes (drop 24 slot).
Definition read_u128_from_slot (slot : list u8) : Z := from_be_bytes (drop 16 slot).
Definition read_address_as_actor_id (slot : list u8) : Z := from_be_bytes (drop 24 slot).
Definition read_full_address_from_slot (slot : list u8) : list u8 := drop 12 slot.

(** The last byte of a slot whose other bytes are zero. *)
Definition last_byte (slot : list u8) : u8 := nth 31 slot (byte_of 0).

Definition read_strict_bool_from_slot (slot : list u8) : result bool u8 :=
  if any_nonzero (take 31 slot) then Err (last_byte slot) else
  let b := byte_val (last_byte slot) in
  if decide (b = 0) then Ok false else if decide (b = 1) then Ok true else Err (last_byte slot).

Arguments read_u64_from_slot : simpl never.
Arguments read_u128_from_slot : simpl never.
Arguments read_address_as_actor_id : simpl never.
Arguments read_full_address_from_slot : simpl never.

(** ** The answer *)

Definition GAMES_RESPONSE_SLOTS : nat := 18.
Definition GAMES_RESPONSE_BYTES : nat := GAMES_RESPONSE_SLOTS * 32.
Definition GAMES_SELECTOR : list u8 := byte_of <$> [0x11; 0x7a; 0x5b; 0x90].

Inductive GameStateReadError : Type :=
| RpcTransport
| ReadMalformed
| WrongLength (expected actual : Z)
| InvalidTurn (b : u8)
| InvalidStatus (b : u8)
| InvalidBool (b : u8)
| DepthOutOfRange (depth : Z)
| ZeroSequencer
| ZeroChallenger
| SequencerChallengerCollision (actor : Z)
| DeploymentIdMismatch
| DegenerateRange (low_idx high_idx : Z).

Record ObservedGame : Type := {
  observed_state : GameState;
  observed_deadline : Z;
  observed_disputed : Z;
}.

Definition slot (bytes : list u8) (i : nat) : list u8 := take 32 (drop (i * 32) bytes).

Arguments slot : simpl never.

Definition decode_turn (s : list u8) : result TurnSide GameStateReadError :=
  if any_nonzero (take 31 s) then Err (InvalidTurn (last_byte s)) else
  let b := byte_val (last_byte s) in
  if decide (b = 0) then Ok Sequencer else if decide (b = 1) then Ok Challenger
  else Err (InvalidTurn (last_byte s)).

Definition decode_status (s : list u8) : result GameStatus GameStateReadError :=
  if any_nonzero (take 31 s) then Err (InvalidStatus (last_byte s)) else
  let b := byte_val (last_byte s) in
  if decide (b = 0) then Ok InProgress else if decide (b = 1) then Ok SequencerWon
  else if decide (b = 2) then Ok ChallengerWon else if decide (b = 3) then Ok TimedOutSequencer
  else if decide (b = 4) then Ok TimedOutChallenger else Err (InvalidStatus (last_byte s)).

Definition decode_game_state_with_addresses (bytes : list u8)
    : result (ObservedGame * list u8 * list u8) GameStateReadError :=
  if decide (length bytes ≠ GAMES_RESPONSE_BYTES)
  then Err (WrongLength (Z.of_nat GAMES_RESPONSE_BYTES) (Z.of_nat (length bytes))) else
  let slot := slot bytes in
  let? has_pending := match read_strict_bool_from_slot (slot 6%nat) with
                      | Ok b => Ok b | Err b => Err (InvalidBool b) end in
  let pending := if has_pending : bool
                 then Some {| idx := read_u64_from_slot (slot 7%nat); commit := slot 8%nat |}
                 else None in
  let depth_u64 := read_u64_from_slot (slot 9%nat) in
  if decide (u32_max < depth_u64) then Err (DepthOutOfRange depth_u64) else
  let? turn := decode_turn (slot 10%nat) in
  let? status := decode_status (slot 14%nat) in
  Ok ({| observed_state :=
           {| Game.sequencer := read_address_as_actor_id (slot 0%nat);
              challenger := read_address_as_actor_id (slot 1%nat);
              range := {| low := {| idx := read_u64_from_slot (slot 2%nat); commit := slot 3%nat |};
                          high := {| idx := read_u64_from_slot (slot 4%nat); commit := slot 5%nat |} |};
              pending_midpoint := pending; depth := depth_u64; turn := turn;
              sequencer_bond := read_u128_from_slot (slot 12%nat);
              challenger_bond := read_u128_from_slot (slot 13%nat); status := status;
              deployment_id := slot 15%nat; actions_root := zeros 32 |};
         observed_deadline := read_u64_from_slot (slot 11%nat);
         observed_disputed := read_u64_from_slot (slot 17%nat) |},
      read_full_address_from_slot (slot 0%nat), read_full_address_from_slot (slot 1%nat)).

Definition decode_game_state (bytes : list u8) : result GameState GameStateReadError :=
  result_map (fun t => observed_state t.1.1) (decode_game_state_with_addresses bytes).

Definition encode_games_calldata (game_id : Z) : list u8 :=
  GAMES_SELECTOR ++ zeros 16 ++ to_be_bytes 16 game_id.

Section Reader.
Context `{Hex}.

Definition decode_hex_response (hex_str : list u8) : result (list u8) GameStateReadError :=
  let trimmed := strip_0x hex_str in
  if decide (GAMES_RESPONSE_BYTES * 2 < length trimmed)%nat
  then Err (WrongLength (Z.of_nat GAMES_RESPONSE_BYTES) (Z.of_nat (length trimmed) / 2)) else
  if Nat.odd (length trimmed) then Err ReadMalformed else
  ok_or (hex_decode trimmed) ReadMalformed.

(** What the RPC client returns for a call. *)
Inductive rpc_answer : Type :=
| RpcFailed
| RpcString (s : list u8)
| RpcOther.

(** The checks after decoding. *)
Definition validate_game (expected_deployment_id : list u8)
    (t : ObservedGame * list u8 * list u8) : result ObservedGame GameStateReadError :=
  let '(observed, sequencer_addr, challenger_addr) := t in
  let state := observed_state observed in
  if decide (deployment_id state ≠ expected_deployment_id) then Err DeploymentIdMismatch else
  if decide (idx (high (range state)) ≤ idx (low (range state)))
  then Err (DegenerateRange (idx (low (range state))) (idx (high (range state)))) else
  if decide (sequencer_addr = zeros 20) then Err ZeroSequencer else
  if decide (challenger_addr = zeros 20) then Err ZeroChallenger else
  if decide (sequencer_addr = challenger_addr)
  then Err (SequencerChallengerCollision (Game.sequencer state)) else
  Ok observed.

(** [eth_call] on the game contract at the latest block, as a function of the
    calldata in hexadecimal. *)
Definition read_and_validate (eth_call : list u8 → rpc_answer) (game_id : Z)
    (expected_deployment_id : list u8) : result ObservedGame GameStateReadError :=
  match eth_call (hex_prefix ++ hex_encode (encode_games_calldata game_id)) with
  | RpcFailed => Err RpcTransport
  | RpcOther => Err ReadMalformed
  | RpcString s =>
      let? bytes := decode_hex_response s in
      let? t := decode_game_state_with_addresses bytes in
      validate_game expected_deployment_id t
  end.

Definition read_game (eth_call : list u8 → rpc_answer) (game_id : Z)
    : result GameState GameStateReadError :=
  match eth_call (hex_prefix ++ hex_encode (encode_games_calldata game_id)) with
  | RpcFailed => Err RpcTransport
  | RpcOther => Err ReadMalformed
  | RpcString s => let? bytes := decode_hex_response s in decode_game_state bytes
  end.
End Reader.

(** ** The getter of the contract *)

Definition abi_addr (a : address) : list u8 := zeros 12 ++ to_be_bytes 20 a.

Definition turn_code (t : TurnSide) : Z := match t with Sequencer => 0 | Challenger => 1 end.

Definition status_code (s : GameStatus) : Z :=
  match s with
  | InProgress => 0 | SequencerWon => 1 | ChallengerWon => 2
  | TimedOutSequencer => 3 | TimedOutChallenger => 4
  end.

(** The members of a [Game] in order, a [Claim] as its two words. *)
Definition abi_game (g : L1Game) : list (list u8) :=
  [abi_addr (g_sequencer g); abi_addr (g_challenger g);
   u256_be (idx (g_low g)); commit (g_low g); u256_be (idx (g_high g)); commit (g_high g);
   bool_word (g_hasPendingMidpoint g);
   u256_be (idx (g_pendingMidpoint g)); commit (g_pendingMidpoint g);
   u256_be (g_depth g); u256_be (turn_code (g_turn g)); u256_be (g_turnDeadline g);
   u256_be (g_sequencerBond g); u256_be (g_challengerBond g); u256_be (status_code (g_status g));
   g_deploymentId g; u256_be (g_lastStepBlock g); u256_be (g_disputedLogIndex g)].

Definition claim_typed (c : Claim) : Prop := in_u64 (idx c) ∧ length (commit c) = 32%nat.

(** A game of the contract's types. *)
Record l1_typed (g : L1Game) : Prop := {
  typed_sequencer : in_width 160 (g_sequencer g);
  typed_challenger : in_width 160 (g_challenger g);
  typed_low : claim_typed (g_low g);
  typed_high : claim_typed (g_high g);
  typed_pending : claim_typed (g_pendingMidpoint g);
  typed_depth : in_u64 (g_depth g);
  typed_deadline : in_u64 (g_turnDeadline g);
  typed_sequencer_bond : in_u128 (g_sequencerBond g);
  typed_challenger_bond : in_u128 (g_challengerBond g);
  typed_deployment : length (g_deploymentId g) = 32%nat;
  typed_last_step : in_u64 (g_lastStepBlock g);
  typed_disputed : in_u64 (g_disputedLogIndex g);
}.

(** What an accepted answer says, whatever the node sent. *)
Record observed_ok (expected : list u8) (o : ObservedGame) : Prop := {
  observed_range :
    0 ≤ idx (low (range (observed_state o))) < idx (high (range (observed_state o)));
  observed_high : idx (high (range (observed_state o))) < 2 ^ 64;
  observed_low_commit : length (commit (low (range (observed_state o)))) = 32%nat;
  observed_high_commit : length (commit (high (range (observed_state o)))) = 32%nat;
  observed_pending mp : pending_midpoint (observed_state o) = Some mp → claim_typed mp;
  observed_depth : in_u32 (depth (observed_state o));
  observed_bonds :
    in_u128 (sequencer_bond (observed_state o)) ∧ in_u128 (challenger_bond (observed_state o));
  observed_deployment : deployment_id (observed_state o) = expected;
  observed_deadline_u64 : in_u64 (observed_deadline o);
  observed_disputed_u64 : in_u64 (observed_disputed o);
}.

(** ** Slots of an answer *)

Lemma slot_words (ws : list (list u8)) i w :
  Forall (fun w => length w = 32%nat) ws → ws !! i = Some w → slot (mjoin ws) i = w.
Proof.
  intros Hws Hi. unfold slot. rewrite <- (take_drop_middle ws i w Hi), join_app, mjoin_cons.
  rewrite drop_app_length'.
  - rewrite take_app_length'; [done|]. symmetry. by eapply (Forall_lookup_1 _ _ _ _ Hws).
  - rewrite words_length, length_take by (by apply Forall_take).
    apply lookup_lt_Some in Hi. lia.
Qed.

Lemma slot_length bytes i :
  length bytes = GAMES_RESPONSE_BYTES → (i < 18)%nat → length (slot bytes i) = 32%nat.
Proof.
  intros Hlen Hi. unfold slot, GAMES_RESPONSE_BYTES, GAMES_RESPONSE_SLOTS in *.
  rewrite length_take, length_drop. lia.
Qed.

Lemma slot_u64 v : in_u64 v → read_u64_from_slot (u256_be v) = v.
Proof.
  intros Hv. unfold read_u64_from_slot, u256_be. rewrite drop_app_ge by (rewrite zeros_length; lia).
  rewrite zeros_length, (drop_to_be_bytes 16 8) by lia. by apply Z.mod_small.
Qed.

Lemma slot_u128 v : in_u128 v → read_u128_from_slot (u256_be v) = v.
Proof.
  intros Hv. unfold read_u128_from_slot, u256_be.
  rewrite drop_app_length' by (by rewrite zeros_length). by apply from_to_be_bytes.
Qed.

Lemma slot_bool b : read_strict_bool_from_slot (bool_word b) = Ok b.
Proof. destruct b; vm_compute; reflexivity. Qed.

Lemma slot_turn t : decode_turn (u256_be (turn_code t)) = Ok t.
Proof. destruct t; vm_compute; reflexivity. Qed.

Lemma slot_status s : decode_status (u256_be (status_code s)) = Ok s.
Proof. destruct s; vm_compute; reflexivity. Qed.

Lemma slot_addr a : read_full_address_from_slot (abi_addr a) = to_be_bytes 20 a.
Proof.
  unfold read_full_address_from_slot, abi_addr. by rewrite drop_app_length' by (by rewrite zeros_length).
Qed.

Lemma slot_actor a : read_address_as_actor_id (abi_addr a) = a mod 2 ^ 64.
Proof.
  unfold read_address_as_actor_id, abi_addr. rewrite drop_app_ge by (rewrite zeros_length; lia).
  rewrite zeros_length. by apply (drop_to_be_bytes 20 8); lia.
Qed.

Lemma addr_zero a : in_width 160 a → to_be_bytes 20 a = zeros 20 ↔ a = 0.
Proof.
  intros Ha. split; [|by intros ->].
  intros Heq. rewrite <- (from_to_be_bytes 20 a) by done. by rewrite Heq.
Qed.

Lemma addr_inj a b :
  in_width 160 a → in_width 160 b → to_be_bytes 20 a = to_be_bytes 20 b → a = b.
Proof.
  intros Ha Hb Heq. rewrite <- (from_to_be_bytes 20 a), <- (from_to_be_bytes 20 b) by done.
  by rewrite Heq.
Qed.

Lemma abi_game_words g : l1_typed g → Forall (fun w => length w = 32%nat) (abi_game g).
Proof.
  intros []. unfold claim_typed in *. unfold abi_game, abi_addr.
  repeat (apply Forall_cons; split; [|]); [..|by apply Forall_nil];
    rewrite ?length_app, ?zeros_length, ?to_be_bytes_length, ?u256_be_length, ?bool_word_length;
    naive_solver.
Qed.

(** ** Reading a game of the contract *)

(** The parties are shown by the low 64 bits of their addresses. *)
Definition observed_of (g : L1Game) : ObservedGame :=
  {| observed_state :=
       {| Game.sequencer := g_sequencer g mod 2 ^ 64; challenger := g_challenger g mod 2 ^ 64;
          range := {| low := g_low g; high := g_high g |};
          pending_midpoint := if g_hasPendingMidpoint g then Some (g_pendingMidpoint g) else None;
          depth := g_depth g; turn := g_turn g; sequencer_bond := g_sequencerBond g;
          challenger_bond := g_challengerBond g; status := g_status g;
          deployment_id := g_deploymentId g; actions_root := zeros 32 |};
     observed_deadline := g_turnDeadline g; observed_disputed := g_disputedLogIndex g |}.

Lemma decode_abi_game g :
  l1_typed g → g_depth g ≤ u32_max →
  decode_game_state_with_addresses (mjoin (abi_game g)) =
    Ok (observed_of g, to_be_bytes 20 (g_sequencer g), to_be_bytes 20 (g_challenger g)).
Proof.
  intros Hty Hdepth. pose proof (abi_game_words g Hty) as Hws.
  assert (Hslot : ∀ i w, abi_game g !! i = Some w → slot (mjoin (abi_game g)) i = w)
    by (intros; by apply slot_words).
  unfold decode_game_state_with_addresses. rewrite decide_False.
  2: { rewrite words_length by done. by intros []. }
  rewrite (Hslot 0%nat _ eq_refl), (Hslot 1%nat _ eq_refl), (Hslot 2%nat _ eq_refl), (Hslot 3%nat _ eq_refl),
    (Hslot 4%nat _ eq_refl), (Hslot 5%nat _ eq_refl), (Hslot 6%nat _ eq_refl), (Hslot 7%nat _ eq_refl),
    (Hslot 8%nat _ eq_refl), (Hslot 9%nat _ eq_refl), (Hslot 10%nat _ eq_refl), (Hslot 11%nat _ eq_refl),
    (Hslot 12%nat _ eq_refl), (Hslot 13%nat _ eq_refl), (Hslot 14%nat _ eq_refl),
    (Hslot 15%nat _ eq_refl), (Hslot 17%nat _ eq_refl).
  destruct Hty as [_ _ [Hl _] [Hh _] [Hp _] Hd Hdl Hsb Hcb _ _ Hdis].
  rewrite slot_bool. cbn [result_bind]. rewrite !slot_u64 by done. rewrite decide_False by lia.
  rewrite slot_turn, slot_status. cbn [result_bind].
  rewrite !slot_u128, !slot_actor, !slot_addr by done. unfold observed_of.
  by destruct g as [? ? [] [] ? [] ? ? ? ? ? ? ? ? ?].
Qed.

Lemma strip_0x_hex s : strip_0x (hex_prefix ++ s) = s.
Proof. unfold strip_0x. by rewrite decide_True. Qed.

Lemma decode_hex_hex `{HexOk} bytes :
  length bytes = GAMES_RESPONSE_BYTES →
  decode_hex_response (hex_prefix ++ hex_encode bytes) = Ok bytes.
Proof.
  intros Hlen. unfold decode_hex_response. rewrite strip_0x_hex, hex_encode_length, Hlen.
  rewrite decide_False by lia. change (Nat.odd _) with false. cbn iota. by rewrite hex_decode_encode.
Qed.

Lemma from_be_u (n : nat) bs :
  length bs = n → in_width (8 * Z.of_nat n) (from_be_bytes bs).
Proof. intros <-. apply from_be_bytes_bound. Qed.

Lemma decoded_ok bytes expected o sa ca o' :
  decode_game_state_with_addresses bytes = Ok (o, sa, ca) →
  validate_game expected (o, sa, ca) = Ok o' → o' = o ∧ observed_ok expected o.
Proof.
  intros Hdec Hval. unfold validate_game in Hval. apply guard_Ok in Hval as [Hdep Hval].
  apply dec_stable in Hdep. apply guard_Ok in Hval as [Hrange Hval].
  do 3 (apply guard_Ok in Hval as [_ Hval]). injection Hval as <-. split; [done|].
  unfold decode_game_state_with_addresses in Hdec. apply guard_Ok in Hdec as [Hlen Hdec].
  apply dec_stable in Hlen. pose proof (fun i => slot_length bytes i Hlen) as Hslot.
  apply result_bind_Ok in Hdec as (pend & _ & Hdec). apply guard_Ok in Hdec as [Hdepth Hdec].
  apply result_bind_Ok in Hdec as (t & _ & Hdec). apply result_bind_Ok in Hdec as (s & _ & [= <- _ _]).
  assert (Hu64 : ∀ i, (i < 18)%nat → in_u64 (read_u64_from_slot (slot bytes i))).
  { intros i Hi. apply (from_be_u 8). rewrite length_drop, Hslot by done. done. }
  assert (Hu128 : ∀ i, (i < 18)%nat → in_u128 (read_u128_from_slot (slot bytes i))).
  { intros i Hi. apply (from_be_u 16). rewrite length_drop, Hslot by done. done. }
  cbn in Hdep, Hrange. split; cbn; try done.
  - pose proof (Hu64 2%nat ltac:(lia)) as [? _]. lia.
  - pose proof (Hu64 4%nat ltac:(lia)) as [_ ?]. lia.
  - apply Hslot. lia.
  - apply Hslot. lia.
  - intros mp. destruct pend; [|done]. intros [= <-]. split; cbn; [apply Hu64|apply Hslot]; lia.
  - pose proof (Hu64 9%nat ltac:(lia)) as [? _]. unfold in_width. lia.
  - split; apply Hu128; lia.
  - apply Hu64. lia.
  - apply Hu64. lia.
Qed.

(** The observer reads what the contract holds.  Whatever the node answers,
    a state the reader accepts is of the contract's types, has a proper range and
    carries the expected deployment id.  When the answer is the contract's own
    getter on a game with two different parties, the reader accepts it, and what
    it returns shows that game: range, pending midpoint, depth, turn, status,
    deadline and disputed index. *)
Theorem reader_exact `{HexOk} eth_call game_id expected :
  (∀ o, read_and_validate eth_call game_id expected = Ok o → observed_ok expected o) ∧
  ∀ g, l1_typed g → g_depth g ≤ u32_max → proper g → g_deploymentId g = expected →
    0 < g_sequencer g → 0 < g_challenger g → g_sequencer g ≠ g_challenger g →
    eth_call (hex_prefix ++ hex_encode (encode_games_calldata game_id)) =
      RpcString (hex_prefix ++ hex_encode (mjoin (abi_game g))) →
    ∃ o, read_and_validate eth_call game_id expected = Ok o ∧ views g (observed_state o) ∧
      observed_deadline o = g_turnDeadline g ∧ observed_disputed o = g_disputedLogIndex g.
Proof.
  split.
  - intros o. unfold read_and_validate. destruct (eth_call _) as [|s|]; [done| |done].
    intros (bytes & _ & Hrun)%result_bind_Ok. apply result_bind_Ok in Hrun as ([[o1 sa] ca] & Hdec & Hval).
    by destruct (decoded_ok _ _ _ _ _ _ Hdec Hval) as [-> ?].
  - intros g Hty Hdepth [Hl Hh] Hdep Hs Hc Hsc Hcall. exists (observed_of g).
    split; [|by split]. unfold read_and_validate. rewrite Hcall.
    rewrite decode_hex_hex by (by rewrite words_length by (by apply abi_game_words)).
    cbn [result_bind]. rewrite decode_abi_game by done. cbn [result_bind].
    pose proof (typed_sequencer g Hty). pose proof (typed_challenger g Hty).
    unfold validate_game. cbn [observed_state observed_of range low high deployment_id].
    rewrite decide_False by (by intros []). rewrite decide_False by lia.
    rewrite decide_False by (rewrite addr_zero by done; lia).
    rewrite decide_False by (rewrite addr_zero by done; lia).
    by rewrite decide_False by (intros ?%addr_inj; done).
Qed.

(** ** A concrete answer *)

#[local] Instance demo_hex : Hex := {|
  hex_encode := hex_body;
  hex_decode := fun s => match hex_chunks s with Ok bs => Some bs | Err _ => None end;
|}.

Lemma hex_pair b s :
  hex_chunks (hex_char (Z.shiftr (byte_val b) 4) :: hex_char (Z.land (byte_val b) 15) :: s) =
  let? out := hex_chunks s in Ok (b :: out).
Proof. destruct b; reflexivity. Qed.

Lemma hex_char_digit n :
  0 ≤ n ≤ 15 → 48 ≤ byte_val (hex_char n) ≤ 57 ∨ 97 ≤ byte_val (hex_char n) ≤ 102.
Proof. intros Hn. rewrite hex_char_val by done. case_decide; lia. Qed.

#[local] Instance demo_hex_ok : HexOk.
Proof.
  split.
  - intros bs. cbn. assert (hex_chunks (hex_body bs) = Ok bs) as ->; [|done].
    induction bs as [|b bs IH]; [done|]. unfold hex_body in *. cbn [mbind list_bind app].
    by rewrite hex_pair, IH.
  - intros bs. cbn. induction bs as [|b bs IH]; [done|]. unfold hex_body in *.
    cbn [mbind list_bind app length]. rewrite IH. lia.
  - intros bs. cbn. induction bs as [|b bs IH]; [constructor|]. unfold hex_body in *.
    cbn [mbind list_bind app]. pose proof (byte_val_bound b).
    constructor; [|constructor; [|exact IH]]; apply hex_char_digit.
    + rewrite Z.shiftr_div_pow2 by lia. change (2 ^ 4) with 16. split; [apply Z.div_pos; lia|].
      enough (byte_val b / 16 < 16) by lia. apply Z.div_lt_upper_bound; lia.
    + change 15 with (Z.ones 4). rewrite Z.land_ones by lia. change (Z.ones 4) with 15.
      pose proof (Z.mod_pos_bound (byte_val b) (2 ^ 4)). change (2 ^ 4) with 16 in *. lia.
Qed.

Definition demo_l1_game : L1Game :=
  {| g_sequencer := 2 ^ 100 + 7; g_challenger := 5; g_low := {| idx := 3; commit := zeros 32 |};
     g_high := {| idx := 10; commit := StateRoot.word 2 |}; g_hasPendingMidpoint := true;
     g_pendingMidpoint := {| idx := 6; commit := StateRoot.word 1 |}; g_depth := 2;
     g_turn := Challenger; g_turnDeadline := 70; g_sequencerBond := 0; g_challengerBond := 50;
     g_status := InProgress; g_deploymentId := zeros 32; g_lastStepBlock := 60;
     g_disputedLogIndex := 10 |}.

Lemma reader_exact_witness :
  ∃ o, read_and_validate
         (fun _ => RpcString (hex_prefix ++ hex_encode (mjoin (abi_game demo_l1_game)))) 1 (zeros 32)
       = Ok o ∧ views demo_l1_game (observed_state o) ∧ observed_deadline o = 70.
Proof.
  destruct (reader_exact (fun _ => RpcString (hex_prefix ++ hex_encode (mjoin (abi_game demo_l1_game))))
              1 (zeros 32)) as [_ Hread].
  destruct (Hread demo_l1_game) as (o & Hr & Hv & Hd & _).
  - by split.
  - cbn. lia.
  - split; cbn; lia.
  - reflexivity.
  - cbn. lia.
  - cbn. lia.
  - discriminate.
  - reflexivity.
  - exists o. split; [exact Hr|]. split; [exact Hv|exact Hd].
Defined.
