(* ===== verification/GameEvents.v ===== *)
(** * The events of the dispute

    [src/runtime/knomosis-faultproof-observer/src/events.rs]: the five event
    signatures the observer recognises, and the decoder of their logs.  The
    topics are hashes of the signatures under [keccak256], a parameter.

    The theorem: the decoder accepts exactly the logs the contracts emit, and
    returns the event they were emitted for. *)

From Stdlib Require Import ZArith Lia.
From Stdlib Require Strings.String.
From stdpp Require Import base numbers list.
From S2P Require Import Prelude Encoding Events Game.
Import String.StringSyntax.
Delimit Scope string_scope with string.

Local Open Scope Z_scope.

(** ** Topics *)

Module GameTopic.
Inductive GameEventTopic : Type :=
| GameOpened
| MidpointSubmitted
| ResponseSubmitted
| GameSettled
| StateRootSubmitted.
End GameTopic.
Abbreviation GameEventTopic := GameTopic.GameEventTopic.

Definition signature (self : GameEventTopic) : String.string :=
  match self with
  | GameTopic.GameOpened => "FaultProofGameOpened(uint256,address,bytes32,bytes32)"%string
  | GameTopic.MidpointSubmitted => "BisectionMidpointSubmitted(uint256,address,uint64,bytes32)"%string
  | GameTopic.ResponseSubmitted => "BisectionResponseSubmitted(uint256,address,bool)"%string
  | GameTopic.GameSettled => "FaultProofGameSettled(uint256,uint8,address,uint128)"%string
  | GameTopic.StateRootSubmitted => "StateRootSubmitted(uint64,bytes32,address,uint64,bytes32)"%string
  end.

Definition all_topics : list GameEventTopic :=
  [GameTopic.GameOpened; GameTopic.MidpointSubmitted; GameTopic.ResponseSubmitted;
   GameTopic.GameSettled; GameTopic.StateRootSubmitted].

(** ** Events *)

(** The block, transaction and log index of an event are its [Origin]. *)
Inductive GameEvent : Type :=
| GameOpened (game_id : Z) (challenger_topic : TopicHash)
    (disputed_state_root challenger_state_root : StateCommit) (o : Origin)
| MidpointSubmitted (game_id : Z) (party_topic : TopicHash) (idx : LogIndex)
    (commit : StateCommit) (o : Origin)
| ResponseSubmitted (game_id : Z) (party_topic : TopicHash) (agree : bool) (o : Origin)
| GameSettled (game_id : Z) (status : GameStatus) (winner_topic : TopicHash)
    (winner_payout : Z) (o : Origin)
| StateRootSubmitted (log_index_claim : LogIndex) (state_commit : StateCommit)
    (sequencer_topic : TopicHash) (prev_end_index : LogIndex) (actions_root : StateCommit)
    (o : Origin).

Definition game_origin (self : GameEvent) : Origin :=
  match self with
  | GameOpened _ _ _ _ o | MidpointSubmitted _ _ _ _ o | ResponseSubmitted _ _ _ o
  | GameSettled _ _ _ _ o | StateRootSubmitted _ _ _ _ _ o => o
  end.

Definition idempotency_key (self : GameEvent) : Z * TopicHash * Z :=
  let o := game_origin self in (block_number o, tx_hash o, log_index o).

Definition event_block (self : GameEvent) : Z := (idempotency_key self).1.1.

Definition event_game_id (self : GameEvent) : option Z :=
  match self with
  | GameOpened g _ _ _ _ | MidpointSubmitted g _ _ _ _ | ResponseSubmitted g _ _ _
  | GameSettled g _ _ _ _ => Some g
  | StateRootSubmitted _ _ _ _ _ _ => None
  end.

Inductive EventDecodeError : Type :=
| WrongTopicsLength (variant : String.string) (got expected : Z)
| WrongDataLength (variant : String.string) (got expected : Z)
| NumericTooLarge (field : String.string) (bound : Z)
| NonCanonicalBool (field : String.string)
| UnknownGameStatus (byte : u8).

(** ** The decoder *)

Definition expect_topics (log : RawLog) (variant : String.string) (expected : Z)
  : result () EventDecodeError :=
  let got := Z.of_nat (length (topics log)) in
  if decide (got = expected) then Ok () else Err (WrongTopicsLength variant got expected).

Definition expect_data_len (log : RawLog) (variant : String.string) (expected : Z)
  : result () EventDecodeError :=
  let got := Z.of_nat (length (data log)) in
  if decide (got = expected) then Ok () else Err (WrongDataLength variant got expected).

Definition decode_word_uint128 (word : list u8) (field : String.string) : result Z EventDecodeError :=
  if any_nonzero (take 16 word) then Err (NumericTooLarge field 128)
  else Ok (from_be_bytes (drop 16 word)).

Definition decode_word_uint64 (word : list u8) (field : String.string) : result Z EventDecodeError :=
  if any_nonzero (take 24 word) then Err (NumericTooLarge field 64)
  else Ok (from_be_bytes (drop 24 word)).

Definition decode_word_uint8 (word : list u8) (field : String.string) : result u8 EventDecodeError :=
  if any_nonzero (take 31 word) then Err (NumericTooLarge field 8)
  else Ok (nth 31 word (byte_of 0)).

Definition decode_word_bool (word : list u8) (field : String.string) : result bool EventDecodeError :=
  if decide (length word ≠ 32%nat) then Err (WrongDataLength field (Z.of_nat (length word)) 32) else
  if any_nonzero (take 31 word) then Err (NonCanonicalBool field) else
  let b := byte_val (nth 31 word (byte_of 0)) in
  if decide (b = 0) then Ok false else if decide (b = 1) then Ok true
  else Err (NonCanonicalBool field).

Definition decode_topic_uint128 := decode_word_uint128.
Definition decode_topic_uint64 := decode_word_uint64.

(** [log.data[32 * i .. 32 * (i + 1)]], after the length was checked. *)
Definition data_word (log : RawLog) (i : nat) : list u8 := take 32 (drop (32 * i) (data log)).

Definition decode_game_opened (log : RawLog) : result GameEvent EventDecodeError :=
  let? _ := expect_topics log "FaultProofGameOpened"%string 3 in
  let? _ := expect_data_len log "FaultProofGameOpened"%string 64 in
  let? game_id := decode_topic_uint128 (topic log 1) "FaultProofGameOpened.gameId"%string in
  Ok (GameOpened game_id (topic log 2) (data_word log 0) (data_word log 1) (origin_of log)).

Definition decode_midpoint_submitted (log : RawLog) : result GameEvent EventDecodeError :=
  let? _ := expect_topics log "BisectionMidpointSubmitted"%string 3 in
  let? _ := expect_data_len log "BisectionMidpointSubmitted"%string 64 in
  let? game_id := decode_topic_uint128 (topic log 1) "BisectionMidpointSubmitted.gameId"%string in
  let? i := decode_word_uint64 (data_word log 0) "BisectionMidpointSubmitted.idx"%string in
  Ok (MidpointSubmitted game_id (topic log 2) i (data_word log 1) (origin_of log)).

Definition decode_response_submitted (log : RawLog) : result GameEvent EventDecodeError :=
  let? _ := expect_topics log "BisectionResponseSubmitted"%string 3 in
  let? _ := expect_data_len log "BisectionResponseSubmitted"%string 32 in
  let? game_id := decode_topic_uint128 (topic log 1) "BisectionResponseSubmitted.gameId"%string in
  let? agree := decode_word_bool (data_word log 0) "BisectionResponseSubmitted.agree"%string in
  Ok (ResponseSubmitted game_id (topic log 2) agree (origin_of log)).

(** The [match status_byte]. *)
Definition status_of_byte (byte : u8) : result GameStatus EventDecodeError :=
  let b := byte_val byte in
  if decide (b = 0) then Ok InProgress
  else if decide (b = 1) then Ok SequencerWon
  else if decide (b = 2) then Ok ChallengerWon
  else if decide (b = 3) then Ok TimedOutSequencer
  else if decide (b = 4) then Ok TimedOutChallenger
  else Err (UnknownGameStatus byte).

Definition decode_game_settled (log : RawLog) : result GameEvent EventDecodeError :=
  let? _ := expect_topics log "FaultProofGameSettled"%string 3 in
  let? _ := expect_data_len log "FaultProofGameSettled"%string 64 in
  let? game_id := decode_topic_uint128 (topic log 1) "FaultProofGameSettled.gameId"%string in
  let? status_byte := decode_word_uint8 (data_word log 0) "FaultProofGameSettled.status"%string in
  let? st := status_of_byte status_byte in
  let? payout := decode_word_uint128 (data_word log 1) "FaultProofGameSettled.winnerPayout"%string in
  Ok (GameSettled game_id st (topic log 2) payout (origin_of log)).

Definition decode_state_root_submitted (log : RawLog) : result GameEvent EventDecodeError :=
  let? _ := expect_topics log "StateRootSubmitted"%string 3 in
  let? _ := expect_data_len log "StateRootSubmitted"%string 96 in
  let? claim := decode_topic_uint64 (topic log 1) "StateRootSubmitted.logIndex"%string in
  let? prev_end := decode_word_uint64 (data_word log 1) "StateRootSubmitted.prevEndIndex"%string in
  Ok (StateRootSubmitted claim (data_word log 0) (topic log 2) prev_end (data_word log 2)
        (origin_of log)).

(** The low eight bytes of an indexed address. *)
Definition topic_to_actor_handle (topic : TopicHash) : Z := from_be_bytes (drop 24 topic).

Section Decoder.
Variable keccak256 : list u8 → list u8.

Definition hash (self : GameEventTopic) : TopicHash :=
  keccak256 (String.list_byte_of_string (signature self)).

Definition from_hash (h : TopicHash) : option GameEventTopic :=
  List.find (fun variant => bool_decide (hash variant = h)) all_topics.

Definition decode_variant (variant : GameEventTopic) (log : RawLog)
  : result GameEvent EventDecodeError :=
  match variant with
  | GameTopic.GameOpened => decode_game_opened log
  | GameTopic.MidpointSubmitted => decode_midpoint_submitted log
  | GameTopic.ResponseSubmitted => decode_response_submitted log
  | GameTopic.GameSettled => decode_game_settled log
  | GameTopic.StateRootSubmitted => decode_state_root_submitted log
  end.

Definition decode_event (log : RawLog) : result (option GameEvent) EventDecodeError :=
  match topics log with
  | [] => Ok None
  | topic0 :: _ =>
      match from_hash topic0 with
      | None => Ok None
      | Some variant => result_map Some (decode_variant variant log)
      end
  end.

End Decoder.

(** ** The logs the contracts emit *)

(** An unsigned integer of [n] bytes in a word. *)
Definition abi_uint (n : nat) (x : Z) : list u8 := zeros (32 - n) ++ to_be_bytes n x.

Definition bool_code (b : bool) : Z := if b then 1 else 0.

(** The order of the enum in the contract. *)
Definition settled_code (s : GameStatus) : Z :=
  match s with
  | InProgress => 0
  | SequencerWon => 1
  | ChallengerWon => 2
  | TimedOutSequencer => 3
  | TimedOutChallenger => 4
  end.

Definition variant_of (e : GameEvent) : GameEventTopic :=
  match e with
  | GameOpened _ _ _ _ _ => GameTopic.GameOpened
  | MidpointSubmitted _ _ _ _ _ => GameTopic.MidpointSubmitted
  | ResponseSubmitted _ _ _ _ => GameTopic.ResponseSubmitted
  | GameSettled _ _ _ _ _ => GameTopic.GameSettled
  | StateRootSubmitted _ _ _ _ _ _ => GameTopic.StateRootSubmitted
  end.

(** The indexed arguments, after the signature. *)
Definition indexed_args (e : GameEvent) : list (list u8) :=
  match e with
  | GameOpened g p _ _ _ | MidpointSubmitted g p _ _ _ | ResponseSubmitted g p _ _
  | GameSettled g _ p _ _ => [abi_uint 16 g; p]
  | StateRootSubmitted i _ s _ _ _ => [abi_uint 8 i; s]
  end.

Definition data_args (e : GameEvent) : list (list u8) :=
  match e with
  | GameOpened _ _ d c _ => [d; c]
  | MidpointSubmitted _ _ i c _ => [abi_uint 8 i; c]
  | ResponseSubmitted _ _ a _ => [abi_uint 1 (bool_code a)]
  | GameSettled _ s _ v _ => [abi_uint 1 (settled_code s); abi_uint 16 v]
  | StateRootSubmitted _ c _ p a _ => [c; abi_uint 8 p; a]
  end.

Definition game_event_typed (e : GameEvent) : Prop :=
  match e with
  | GameOpened g p d c _ => in_u128 g ∧ word p ∧ word d ∧ word c
  | MidpointSubmitted g p i c _ => in_u128 g ∧ word p ∧ in_u64 i ∧ word c
  | ResponseSubmitted g p _ _ => in_u128 g ∧ word p
  | GameSettled g _ p v _ => in_u128 g ∧ word p ∧ in_u128 v
  | StateRootSubmitted i c s p a _ => in_u64 i ∧ word c ∧ word s ∧ in_u64 p ∧ word a
  end.

Definition emitted (keccak256 : list u8 → list u8) (e : GameEvent) (log : RawLog) : Prop :=
  topics log = hash keccak256 (variant_of e) :: indexed_args e ∧
  data log = mjoin (data_args e) ∧ origin_of log = game_origin e.

(** ** Exactness *)

Lemma any_nonzero_zeros bs : any_nonzero bs = false ↔ bs = zeros (length bs).
Proof.
  induction bs as [|b bs IH]; [done|]. cbn. rewrite orb_false_iff, negb_false_iff, Z.eqb_eq.
  fold (any_nonzero bs). rewrite IH. fold (zeros (length bs)). split.
  - intros [Hb ->]. f_equal; [|by rewrite zeros_length]. apply byte_val_inj. by rewrite Hb.
  - intros [= -> Hbs]. by rewrite <- Hbs.
Qed.

Lemma abi_uint_word n x : (n ≤ 32)%nat → word (abi_uint n x).
Proof. intros Hn. unfold abi_uint. rewrite length_app, zeros_length, to_be_bytes_length. lia. Qed.

Lemma uint_iff n w x :
  word w → (n ≤ 32)%nat →
  (any_nonzero (take (32 - n) w) = false ∧ from_be_bytes (drop (32 - n) w) = x) ↔
  w = abi_uint n x ∧ in_width (8 * Z.of_nat n) x.
Proof.
  intros Hw Hn. rewrite any_nonzero_zeros, length_take, Hw, Nat.min_l by lia. split.
  - intros [Hz <-]. assert (Hl : length (drop (32 - n) w) = n) by (rewrite length_drop; lia).
    split.
    + unfold abi_uint. rewrite <- (take_drop (32 - n) w) at 1. rewrite Hz. f_equal.
      rewrite <- Hl at 2. by rewrite to_from_be_bytes.
    + rewrite <- Hl at 1. apply from_be_bytes_bound.
  - intros [-> Hx]. unfold abi_uint. split.
    + by rewrite take_app_length' by (by rewrite zeros_length).
    + rewrite drop_app_length' by (by rewrite zeros_length). by apply from_to_be_bytes.
Qed.

Lemma from_be_last w : word w → from_be_bytes (drop 31 w) = byte_val (nth 31 w (byte_of 0)).
Proof.
  intros Hw. destruct (nth_lookup_or_length w 31 (byte_of 0)) as [Hl|]; [|lia].
  rewrite (drop_S _ _ _ Hl), drop_ge by lia. cbn. lia.
Qed.

Lemma uint128_iff w f x : word w → decode_word_uint128 w f = Ok x ↔ w = abi_uint 16 x ∧ in_u128 x.
Proof.
  intros Hw. rewrite <- (uint_iff 16) by (done || lia). unfold decode_word_uint128.
  destruct (any_nonzero _); naive_solver.
Qed.

Lemma uint64_iff w f x : word w → decode_word_uint64 w f = Ok x ↔ w = abi_uint 8 x ∧ in_u64 x.
Proof.
  intros Hw. rewrite <- (uint_iff 8) by (done || lia). unfold decode_word_uint64.
  destruct (any_nonzero _); naive_solver.
Qed.

Lemma bool_iff w f b : word w → decode_word_bool w f = Ok b ↔ w = abi_uint 1 (bool_code b).
Proof.
  intros Hw. unfold decode_word_bool. rewrite decide_False by (by intros []).
  transitivity (any_nonzero (take 31 w) = false ∧ from_be_bytes (drop 31 w) = bool_code b).
  - rewrite from_be_last by done. destruct (any_nonzero _); [naive_solver|].
    repeat case_decide; destruct b; cbn; naive_solver lia.
  - rewrite (uint_iff 1) by (done || lia). split; [by intros []|]. split; [done|].
    destruct b; done.
Qed.

Lemma status_iff w f s :
  word w →
  (let? b := decode_word_uint8 w f in status_of_byte b) = Ok s ↔ w = abi_uint 1 (settled_code s).
Proof.
  intros Hw. unfold decode_word_uint8.
  transitivity (any_nonzero (take 31 w) = false ∧ from_be_bytes (drop 31 w) = settled_code s).
  - rewrite from_be_last by done. destruct (any_nonzero _); [naive_solver|]. cbn [result_bind].
    unfold status_of_byte. repeat case_decide; destruct s; cbn; naive_solver lia.
  - rewrite (uint_iff 1) by (done || lia). split; [by intros []|]. split; [done|].
    destruct s; done.
Qed.

Lemma expect_topics_iff log v n : expect_topics log v n = Ok () ↔ Z.of_nat (length (topics log)) = n.
Proof. unfold expect_topics. case_decide; naive_solver. Qed.

Lemma expect_data_iff log v n : expect_data_len log v n = Ok () ↔ Z.of_nat (length (data log)) = n.
Proof. unfold expect_data_len. case_decide; naive_solver. Qed.

(** A log with three topics and a data section of [k] words, as the decoders see
    it. *)
Record shaped (log : RawLog) (t0 a b : list u8) (ws : list (list u8)) : Prop := {
  shaped_topics : topics log = [t0; a; b];
  shaped_data : data log = mjoin ws;
  shaped_a : word a;
  shaped_b : word b;
  shaped_words : Forall (fun w => word w) ws;
}.

Lemma words_of k (d : list u8) :
  length d = (32 * k)%nat → ∃ ws, d = mjoin ws ∧ length ws = k ∧ Forall (fun w => word w) ws.
Proof.
  revert d. induction k as [|k IH]; intros d Hd.
  - exists []. by destruct d.
  - destruct (IH (drop 32 d)) as (ws & Hws & Hlen & Hall); [rewrite length_drop; lia|].
    exists (take 32 d :: ws). split; [|split; [cbn; lia|]].
    + change (mjoin (take 32 d :: ws)) with (take 32 d ++ mjoin ws). by rewrite <- Hws, take_drop.
    + constructor; [|done]. rewrite length_take. lia.
Qed.

Lemma shape log v v' k :
  Forall (fun t => word t) (topics log) →
  expect_topics log v 3 = Ok () → expect_data_len log v' (32 * Z.of_nat k) = Ok () →
  ∃ t0 a b ws, shaped log t0 a b ws ∧ length ws = k.
Proof.
  intros Ht H3%expect_topics_iff Hd%expect_data_iff.
  destruct (topics log) as [|t0 [|a [|b [|]]]] eqn:Htop; cbn in H3; try lia.
  destruct (words_of k (data log)) as (ws & Hws & Hlen & Hall); [lia|].
  rewrite !Forall_cons in Ht. destruct Ht as (_ & ? & ? & _). exists t0, a, b, ws.
  split; [|done]. by split.
Qed.

Lemma shaped_expect log t0 a b ws v v' n :
  shaped log t0 a b ws → n = 32 * Z.of_nat (length ws) →
  expect_topics log v 3 = Ok () ∧ expect_data_len log v' n = Ok ().
Proof.
  intros [Ht Hd _ _ Hw] ->. rewrite expect_topics_iff, expect_data_iff, Ht, Hd, words_length by done.
  split; [done|]. lia.
Qed.

Lemma shaped_word log t0 a b ws i w :
  shaped log t0 a b ws → ws !! i = Some w → data_word log i = w ∧ word w.
Proof.
  intros [_ Hd _ _ Hw] Hi. assert (word w) by exact (Forall_lookup_1 _ _ _ _ Hw Hi).
  split; [|done]. unfold data_word. rewrite Hd, <- (take_drop_middle ws i w Hi), join_app.
  apply lookup_lt_Some in Hi.
  rewrite drop_app_length' by (rewrite words_length, length_take by (by apply Forall_take); lia).
  change (mjoin (w :: drop (S i) ws)) with (w ++ mjoin (drop (S i) ws)). by rewrite take_app_length'.
Qed.

(** What a variant's decoder must read, as a specification of the log's words. *)
Definition reads_event (t : GameEventTopic) (a b : list u8) (ws : list (list u8)) (o : Origin)
    (e : GameEvent) : Prop :=
  variant_of e = t ∧ game_event_typed e ∧ indexed_args e = [a; b] ∧ data_args e = ws ∧
  game_origin e = o.

Section Variants.
Context (log : RawLog) (t0 a b : list u8).

Lemma shaped_args ws : shaped log t0 a b ws → topic log 1 = a ∧ topic log 2 = b ∧ word a ∧ word b.
Proof. intros [Ht _ Ha Hb _]. unfold topic. by rewrite Ht. Qed.

Local Ltac read_shape Hs :=
  match goal with |- context [expect_topics _ ?v _] =>
    match goal with |- context [expect_data_len _ ?v' ?n] =>
      destruct (shaped_expect _ _ _ _ _ v v' n Hs) as [-> ->]; [done|]
    end
  end;
  cbn [result_bind]; destruct (shaped_args _ Hs) as (-> & -> & ? & ?);
  repeat match goal with |- context [data_word _ ?i] =>
    destruct (shaped_word _ _ _ _ _ i _ Hs eq_refl) as [-> ?]
  end;
  rewrite result_bind_Ok; unfold reads_event, decode_topic_uint128, decode_topic_uint64.

Lemma opened_iff w0 w1 e :
  shaped log t0 a b [w0; w1] →
  decode_game_opened log = Ok e ↔ reads_event GameTopic.GameOpened a b [w0; w1] (origin_of log) e.
Proof.
  intros Hs. unfold decode_game_opened. read_shape Hs. setoid_rewrite uint128_iff; [|done].
  destruct e; cbn; naive_solver.
Qed.

Lemma midpoint_iff w0 w1 e :
  shaped log t0 a b [w0; w1] →
  decode_midpoint_submitted log = Ok e ↔
  reads_event GameTopic.MidpointSubmitted a b [w0; w1] (origin_of log) e.
Proof.
  intros Hs. unfold decode_midpoint_submitted. read_shape Hs.
  setoid_rewrite result_bind_Ok. setoid_rewrite uint128_iff; [|done].
  setoid_rewrite uint64_iff; [|done]. destruct e; cbn; naive_solver.
Qed.

Lemma response_iff w0 e :
  shaped log t0 a b [w0] →
  decode_response_submitted log = Ok e ↔
  reads_event GameTopic.ResponseSubmitted a b [w0] (origin_of log) e.
Proof.
  intros Hs. unfold decode_response_submitted. read_shape Hs.
  setoid_rewrite result_bind_Ok. setoid_rewrite uint128_iff; [|done].
  setoid_rewrite bool_iff; [|done]. destruct e; cbn; naive_solver.
Qed.

Lemma settled_iff w0 w1 e :
  shaped log t0 a b [w0; w1] →
  decode_game_settled log = Ok e ↔
  reads_event GameTopic.GameSettled a b [w0; w1] (origin_of log) e.
Proof.
  intros Hs. unfold decode_game_settled. read_shape Hs. setoid_rewrite uint128_iff; [|done].
  setoid_rewrite <- result_bind_assoc. setoid_rewrite result_bind_Ok.
  setoid_rewrite status_iff; [|done]. setoid_rewrite result_bind_Ok.
  setoid_rewrite uint128_iff; [|done]. destruct e; cbn; naive_solver.
Qed.

Lemma state_root_iff w0 w1 w2 e :
  shaped log t0 a b [w0; w1; w2] →
  decode_state_root_submitted log = Ok e ↔
  reads_event GameTopic.StateRootSubmitted a b [w0; w1; w2] (origin_of log) e.
Proof.
  intros Hs. unfold decode_state_root_submitted. read_shape Hs.
  setoid_rewrite result_bind_Ok. setoid_rewrite uint64_iff; [|done|done].
  destruct e; cbn; naive_solver.
Qed.

End Variants.

(** The number of words in the data section of a variant. *)
Definition data_words (t : GameEventTopic) : nat :=
  match t with
  | GameTopic.ResponseSubmitted => 1
  | GameTopic.StateRootSubmitted => 3
  | _ => 2
  end.

Lemma decode_variant_iff t log t0 a b ws e :
  shaped log t0 a b ws → length ws = data_words t →
  decode_variant t log = Ok e ↔ reads_event t a b ws (origin_of log) e.
Proof.
  intros Hs Hlen. destruct t; cbn in Hlen; destruct ws as [|w0 [|w1 [|w2 [|]]]]; try done; cbn.
  - by eapply opened_iff.
  - by eapply midpoint_iff.
  - by eapply response_iff.
  - by eapply settled_iff.
  - by eapply state_root_iff.
Qed.

Lemma decode_variant_shape t log e :
  Forall (fun x => word x) (topics log) → decode_variant t log = Ok e →
  ∃ t0 a b ws, shaped log t0 a b ws ∧ length ws = data_words t.
Proof.
  intros Ht Hd. destruct t; cbn in Hd; apply result_bind_Ok in Hd as ([] & H3 & Hd);
    apply result_bind_Ok in Hd as ([] & Hl & _); by eapply shape.
Qed.

Lemma emitted_shape keccak256 e log :
  game_event_typed e → emitted keccak256 e log →
  ∃ a b, shaped log (hash keccak256 (variant_of e)) a b (data_args e) ∧
    indexed_args e = [a; b] ∧ length (data_args e) = data_words (variant_of e).
Proof.
  intros Ht (Htop & Hd & _). destruct e; cbn in *; do 2 eexists;
    (split; [|split; reflexivity]); split; try done;
    repeat constructor; try apply abi_uint_word; naive_solver lia.
Qed.

Lemma from_hash_iff keccak256 h t :
  (∀ t u, hash keccak256 t = hash keccak256 u → t = u) →
  from_hash keccak256 h = Some t ↔ h = hash keccak256 t.
Proof.
  intros Hinj. unfold from_hash. split.
  - intros [_ Hh%bool_decide_eq_true]%find_some. done.
  - intros ->. destruct (List.find _ _) as [u|] eqn:Hf.
    + apply find_some in Hf as [_ Hh%bool_decide_eq_true]. f_equal. by apply Hinj.
    + apply find_none with (x := t) in Hf; [|destruct t; cbn; tauto].
      by rewrite bool_decide_eq_false in Hf.
Qed.

(** The decoder accepts exactly the logs of the contracts.  When no two of
    the five signatures hash alike, a log decodes to an event precisely if it is
    the log the contract emits for that event, with every field in its range;
    and a log is passed over precisely if its first topic is none of the five. *)
Theorem game_event_exact keccak256 log :
  (∀ t u, hash keccak256 t = hash keccak256 u → t = u) →
  Forall (fun t => length t = 32%nat) (topics log) →
  (∀ e, decode_event keccak256 log = Ok (Some e) ↔ game_event_typed e ∧ emitted keccak256 e log) ∧
  (decode_event keccak256 log = Ok None ↔ ∀ t, head (topics log) ≠ Some (hash keccak256 t)).
Proof.
  intros Hinj Hwords. split.
  - intros e. unfold decode_event. split.
    + destruct (topics log) as [|h l] eqn:Htop; [done|].
      destruct (from_hash keccak256 h) as [t|] eqn:Hh; [|done].
      destruct (decode_variant t log) as [e'|] eqn:Hd; [|done]. intros [= ->].
      destruct (decode_variant_shape t log e) as (t0 & a & b & ws & Hs & Hlen); [by rewrite Htop|done|].
      pose proof Hd as (Hv & Ht & Hi & Hda & Ho)%(decode_variant_iff _ _ _ _ _ _ _ Hs Hlen).
      split; [done|]. apply from_hash_iff in Hh as ->; [|done].
      destruct Hs as [Htop' Hdata _ _ _]. rewrite Htop in Htop'. simplify_eq.
      split; [by rewrite Htop, Hi|done].
    + intros [Ht He]. destruct (emitted_shape _ _ _ Ht He) as (a & b & Hs & Hi & Hlen).
      destruct He as (-> & _ & Ho).
      rewrite (proj2 (from_hash_iff keccak256 _ (variant_of e) Hinj) eq_refl).
      by rewrite (proj2 (decode_variant_iff _ _ _ _ _ _ e Hs Hlen)).
  - unfold decode_event. destruct (topics log) as [|h l]; [done|]. cbn [head].
    destruct (from_hash keccak256 h) as [t|] eqn:Hh.
    + apply from_hash_iff in Hh as ->; [|done]. destruct (decode_variant t log); split; try done;
        intros Hn; by destruct (Hn t).
    + split; [|done]. intros _ t [= ->].
      by rewrite (proj2 (from_hash_iff keccak256 _ t Hinj) eq_refl) in Hh.
Qed.

(** ** A concrete log *)

(** A hash that tells the signatures apart by their lengths. *)
Definition demo_topic_hash (bs : list u8) : list u8 := byte_of (Z.of_nat (length bs)) :: zeros 31.

Definition demo_midpoint : GameEvent :=
  MidpointSubmitted 3 (zeros 32) 48 (replicate 32 (byte_of 9))
    {| block_number := 100; tx_hash := zeros 32; log_index := 2 |}.

Definition demo_midpoint_log : RawLog :=
  {| log_address := zeros 20;
     topics := hash demo_topic_hash GameTopic.MidpointSubmitted :: indexed_args demo_midpoint;
     data := mjoin (data_args demo_midpoint); log_block_number := 100; log_tx_hash := zeros 32;
     raw_log_index := 2 |}.

Lemma game_event_exact_witness :
  decode_event demo_topic_hash demo_midpoint_log = Ok (Some demo_midpoint) ∧
  decode_event demo_topic_hash demo_midpoint_log ≠ Ok None.
Proof.
  destruct (game_event_exact demo_topic_hash demo_midpoint_log) as [Hsome Hnone].
  - intros t u. destruct t, u; vm_compute; done.
  - repeat constructor.
  - split.
    + apply Hsome. split; [by vm_compute|done].
    + intros Hn. by apply (proj1 Hnone Hn GameTopic.MidpointSubmitted).
Defined.
