(* ===== verification/ObserverWatch.v ===== *)
(** * The observer's view of L1

    [src/runtime/knomosis-faultproof-observer/src/watcher.rs]: the configuration
    with its validation, and the iteration that turns newly confirmed blocks into
    game events, with the re-org window of [Reorg] and the source of [Source].

    The theorem: an iteration delivers the events of a contiguous run of
    confirmed blocks, in the order of the chain, and moves its cursor past exactly
    those; one that fails leaves the cursor and the window as they were. *)

From Stdlib Require Import ZArith Lia.
From Stdlib Require Strings.String.
From stdpp Require Import base numbers list sets.
From S2P Require Import Prelude Encoding Events Reorg Source Game GameEvents.

Local Open Scope Z_scope.

(** ** Configuration *)

Definition DEFAULT_REORG_WINDOW_CAPACITY : nat := 16.
Definition MAX_REORG_WINDOW_CAPACITY : nat := 4096.
Definition MAX_CONFIRMATION_DEPTH : Z := 4096.
Definition MAX_BLOCKS_PER_ITERATION : Z := 4096.
Definition DEFAULT_L1_CONFIRMATION_DEPTH : Z := 12.
Definition DEFAULT_BLOCKS_PER_ITERATION : Z := 64.

(** What a configuration error complains about. *)
Inductive ConfigFault : Type :=
| ZeroCapacity
| CapacityTooLarge
| ZeroBlocks
| TooManyBlocks
| ZeroDepth
| DepthTooLarge
| CapacityBelowDepth.

Inductive WatcherError : Type :=
| WatcherSource (e : SourceError)
| WatcherReorg (e : ReorgError)
| WatcherDecode (e : EventDecodeError)
| WatcherConfigError (fault : ConfigFault).

Record WatcherConfig : Type := {
  game_contract : EthAddress;
  state_root_submission_contract : EthAddress;
  confirmation_depth : Z;
  reorg_window_capacity : nat;
  blocks_per_iteration : Z;
}.

Definition WatcherConfig_new (game_contract state_root_submission_contract : EthAddress)
  : WatcherConfig :=
  {| game_contract := game_contract;
     state_root_submission_contract := state_root_submission_contract;
     confirmation_depth := DEFAULT_L1_CONFIRMATION_DEPTH;
     reorg_window_capacity := DEFAULT_REORG_WINDOW_CAPACITY;
     blocks_per_iteration := DEFAULT_BLOCKS_PER_ITERATION |}.

Definition validate (self : WatcherConfig) : result () WatcherError :=
  if decide (reorg_window_capacity self = 0%nat) then Err (WatcherConfigError ZeroCapacity) else
  if decide (MAX_REORG_WINDOW_CAPACITY < reorg_window_capacity self)%nat
  then Err (WatcherConfigError CapacityTooLarge) else
  if decide (blocks_per_iteration self = 0) then Err (WatcherConfigError ZeroBlocks) else
  if decide (MAX_BLOCKS_PER_ITERATION < blocks_per_iteration self)
  then Err (WatcherConfigError TooManyBlocks) else
  if decide (confirmation_depth self = 0) then Err (WatcherConfigError ZeroDepth) else
  if decide (MAX_CONFIRMATION_DEPTH < confirmation_depth self)
  then Err (WatcherConfigError DepthTooLarge) else
  let cap_as_u32 := Z.min (Z.of_nat (reorg_window_capacity self)) u32_max in
  if decide (cap_as_u32 < confirmation_depth self)
  then Err (WatcherConfigError CapacityBelowDepth) else Ok ().

(** ** The watcher *)

Record WatcherIteration : Type := {
  events : list GameEvent;
  new_last_confirmed : option Z;
  reorg_absorbed : bool;
}.

Record Watcher : Type := {
  watcher_config : WatcherConfig;
  reorg_window : ReorgWindow;
  last_confirmed_block : option Z;
}.

Definition Watcher_new (config : WatcherConfig) : result Watcher WatcherError :=
  let? _ := validate config in
  Ok {| watcher_config := config;
        reorg_window := {| capacity := reorg_window_capacity config; buffer := [] |};
        last_confirmed_block := None |}.

Definition set_last_confirmed (self : Watcher) (block : option Z) : Watcher :=
  {| watcher_config := watcher_config self; reorg_window := reorg_window self;
     last_confirmed_block := block |}.

Definition with_window (self : Watcher) (window : ReorgWindow) : Watcher :=
  {| watcher_config := watcher_config self; reorg_window := window;
     last_confirmed_block := last_confirmed_block self |}.

Definition clear_reorg_window (self : Watcher) : Watcher :=
  with_window self (clear (reorg_window self)).

Definition seed_window (self : Watcher) (headers : list BlockHeader) : Watcher :=
  with_window self (seed (reorg_window self) headers).

Definition window_snapshot (self : Watcher) : list BlockHeader := buffer (reorg_window self).

Definition window_contains (self : Watcher) (h : TopicHash) : bool :=
  contains_hash (reorg_window self) h.

Section Watch.
Context {W : Type} `{L1Source W}.
Variable keccak256 : list u8 → list u8.

(** [?] on a call of the source. *)
Definition source_call {A B} (call : result A SourceError * W)
    (k : A → W → result B WatcherError * ReorgWindow * W) (window : ReorgWindow)
    : result B WatcherError * ReorgWindow * W :=
  match call with
  | (Ok a, w) => k a w
  | (Err e, w) => (Err (WatcherSource e), window, w)
  end.

(** The header against the window. *)
Definition advance_or_seed (self : Watcher) (window : ReorgWindow) (header : BlockHeader)
    : result AdvanceOutcome WatcherError * ReorgWindow :=
  if window_is_empty window && bool_decide (last_confirmed_block self = None) then
    (Ok Advanced, seed window [header])
  else
    match advance window header with
    | (Ok outcome, window') => (Ok outcome, window')
    | (Err e, window') => (Err (WatcherReorg e), window')
    end.

(** The decoded events of the logs of a block. *)
Fixpoint decode_logs (logs : list RawLog) : result (list GameEvent) EventDecodeError :=
  match logs with
  | [] => Ok []
  | log :: logs =>
      let? e := decode_event keccak256 log in
      let? es := decode_logs logs in
      Ok (option_list e ++ es)
  end.

(** What is kept of the events so far when blocks are dropped. *)
Definition retain (outcome : AdvanceOutcome) (all_events : list GameEvent) : list GameEvent :=
  match outcome with
  | Advanced => all_events
  | Reorged _ dropped_from_number =>
      filter (fun e => event_block e < dropped_from_number) all_events
  end.

Definition absorbed (outcome : AdvanceOutcome) : bool :=
  match outcome with Advanced => false | Reorged _ _ => true end.

(** The [for] loop over [count] blocks from [block_n] on. *)
Fixpoint watch_blocks (self : Watcher) (count : nat) (block_n : Z) (window : ReorgWindow)
    (all_events : list GameEvent) (reorged : bool) (w : W)
    : result (list GameEvent * bool) WatcherError * ReorgWindow * W :=
  match count with
  | O => (Ok (all_events, reorged), window, w)
  | S count =>
      source_call (block_header_by_number block_n w) (fun header w =>
      match advance_or_seed self window header with
      | (Err e, window) => (Err e, window, w)
      | (Ok outcome, window) =>
          source_call (logs_in_block_by_hash (header_hash header)
                         (game_contract (watcher_config self)) w) (fun game_logs w =>
          source_call (logs_in_block_by_hash (header_hash header)
                         (state_root_submission_contract (watcher_config self)) w)
            (fun state_root_logs w =>
          match decode_logs (sort_logs (game_logs ++ state_root_logs)) with
          | Err e => (Err (WatcherDecode e), window, w)
          | Ok es =>
              watch_blocks self count (block_n + 1) window (retain outcome all_events ++ es)
                (reorged || absorbed outcome) w
          end) window) window
      end) window
  end.

Definition no_events : WatcherIteration :=
  {| events := []; new_last_confirmed := None; reorg_absorbed := false |}.

(** The first block of the iteration. *)
Definition start_of (self : Watcher) (confirmed_head : Z) : Z :=
  match last_confirmed_block self with
  | None => confirmed_head
  | Some last => saturating_add 64 last 1
  end.

Definition end_of (self : Watcher) (confirmed_head : Z) : Z :=
  Z.min confirmed_head
    (saturating_add 64 (start_of self confirmed_head)
       (saturating_sub (blocks_per_iteration (watcher_config self)) 1)).

Definition watch_inner (self : Watcher) (w : W) : result WatcherIteration WatcherError * Watcher * W :=
  match latest_block_number w with
  | (Err e, w) => (Err (WatcherSource e), self, w)
  | (Ok head, w) =>
      let depth := confirmation_depth (watcher_config self) in
      if decide (head < depth) then (Ok no_events, self, w) else
      let confirmed_head := head - depth in
      let start := start_of self confirmed_head in
      if decide (confirmed_head < start) then (Ok no_events, self, w) else
      let finish := end_of self confirmed_head in
      let '(r, window, w) :=
        watch_blocks self (Z.to_nat (finish - start + 1)) start (reorg_window self) [] false w in
      match r with
      | Err e => (Err e, with_window self window, w)
      | Ok (all_events, reorged) =>
          (Ok {| events := all_events; new_last_confirmed := Some finish;
                 reorg_absorbed := reorged |},
           set_last_confirmed (with_window self window) (Some finish), w)
      end
  end.

(** [run_iteration]: the window is put back when the iteration fails. *)
Definition watch (self : Watcher) (w : W) : result WatcherIteration WatcherError * Watcher * W :=
  let '(r, self', w) := watch_inner self w in
  match r with
  | Err _ => (r, with_window self' (reorg_window self), w)
  | _ => (r, self', w)
  end.

End Watch.

(** ** A source that reports one chain

    The calls may fail at any time; those that succeed agree with the chain. *)

Record chain : Type := {
  chain_header : Z → BlockHeader;
  chain_logs : Z → EthAddress → list RawLog;
}.

Record chain_linked (c : chain) : Prop := {
  chain_number n : number (chain_header c n) = n;
  chain_parent n : parent_hash (chain_header c (n + 1)) = header_hash (chain_header c n);
}.

Class Reports (W : Type) `{L1Source W} (c : chain) : Prop := {
  reports_head (w : W) n : (latest_block_number w).1 = Ok n → in_u64 n;
  reports_header (w : W) n h : (block_header_by_number n w).1 = Ok h → h = chain_header c n;
  reports_logs (w : W) n a logs :
    (logs_in_block_by_hash (header_hash (chain_header c n)) a w).1 = Ok logs →
    logs = chain_logs c n a;
}.

(** The events of a block, and of a list of blocks. *)
Definition block_events (keccak256 : list u8 → list u8) (cfg : WatcherConfig) (c : chain) (n : Z)
    : result (list GameEvent) EventDecodeError :=
  decode_logs keccak256
    (sort_logs (chain_logs c n (game_contract cfg) ++
                chain_logs c n (state_root_submission_contract cfg))).

Definition chain_events (keccak256 : list u8 → list u8) (cfg : WatcherConfig) (c : chain)
    (ns : list Z) : list GameEvent :=
  ns ≫= fun n => match block_events keccak256 cfg c n with Ok es => es | Err _ => [] end.

(** The window ends at block [n] of the chain, when it holds anything. *)
Definition tracks (c : chain) (n : Z) (window : ReorgWindow) : Prop :=
  -1 ≤ n ∧ (∀ h, last (buffer window) = Some h → h = chain_header c n ∧ 0 ≤ n) ∧
  Forall (fun h => number h ≤ n) (buffer window).

Section Chain.
Context {W : Type} (c : chain) `{Reports W c}.
Variable keccak256 : list u8 → list u8.
Hypothesis Hlinked : chain_linked c.

Lemma tracks_snoc n window cap kept :
  tracks c n window → (∀ h, h ∈ kept → h ∈ buffer window) →
  tracks c (n + 1) {| capacity := cap; buffer := kept ++ [chain_header c (n + 1)] |}.
Proof.
  intros (Hn & _ & Hall) Hkept. split; [lia|]. split; cbn.
  - intros h. rewrite last_snoc. intros [= <-]. split; [done|lia].
  - rewrite Forall_app, Forall_singleton, (chain_number c Hlinked). split; [|lia].
    rewrite Forall_forall in Hall. apply Forall_forall. intros h Hh.
    pose proof (Hall h (Hkept h Hh)). lia.
Qed.

Lemma advance_tracks n window :
  tracks c n window → n + 1 < 2 ^ 64 →
  ∃ window', advance window (chain_header c (n + 1)) = (Ok Advanced, window') ∧
    tracks c (n + 1) window' ∧ capacity window' = capacity window.
Proof.
  intros Ht Hn. pose proof Ht as (_ & Hlast & Hall). unfold advance, window_head, window_tail.
  destruct (last (buffer window)) as [h|] eqn:Hl.
  - destruct (Hlast h eq_refl) as [-> Hn0]. rewrite !(chain_number c Hlinked).
    assert (match head (buffer window) with Some h0 => number h0 | None => n end ≤ n).
    { destruct (buffer window) as [|x l]; cbn; [lia|]. by apply Forall_cons in Hall as [? _]. }
    rewrite decide_False by lia. rewrite succ_u64_below by (unfold u64_max; lia).
    rewrite decide_True by (by rewrite (chain_parent c Hlinked)). eexists. split; [done|].
    split; [|done]. apply (tracks_snoc n window); [done|]. intros x. case_decide; [|done].
    destruct (buffer window); cbn; set_solver.
  - eexists. split; [done|]. split; [|done]. by apply (tracks_snoc n window).
Qed.

Lemma advance_or_seed_tracks self n window :
  tracks c n window → n + 1 < 2 ^ 64 →
  ∃ window', advance_or_seed self window (chain_header c (n + 1)) = (Ok Advanced, window') ∧
    tracks c (n + 1) window' ∧ capacity window' = capacity window.
Proof.
  intros Ht Hn. unfold advance_or_seed. destruct (_ && _).
  - eexists. split; [done|]. split; [|done]. cbn.
    apply (tracks_snoc n window); [done|]. intros x. case_decide; set_solver.
  - destruct (advance_tracks n window Ht Hn) as (window' & -> & ?). by exists window'.
Qed.

Lemma chain_events_cons cfg n ns es :
  block_events keccak256 cfg c n = Ok es →
  chain_events keccak256 cfg c (n :: ns) = es ++ chain_events keccak256 cfg c ns.
Proof. intros He. unfold chain_events. cbn. by rewrite He. Qed.

(** The loop, when it succeeds: every block of the run decodes, and its events
    are appended in order. *)
Lemma watch_blocks_chain self count n window acc reorged (w : W) r window' w' :
  tracks c n window → n + Z.of_nat count < 2 ^ 64 →
  watch_blocks keccak256 self count (n + 1) window acc reorged w = (r, window', w') →
  match r with
  | Ok (out, reorged') =>
      out = acc ++ chain_events keccak256 (watcher_config self) c (seqZ (n + 1) (Z.of_nat count)) ∧
      Forall (fun k => is_ok (block_events keccak256 (watcher_config self) c k))
        (seqZ (n + 1) (Z.of_nat count)) ∧
      reorged' = reorged ∧ tracks c (n + Z.of_nat count) window' ∧
      capacity window' = capacity window
  | Err _ => True
  end.
Proof.
  revert n window acc w. induction count as [|count IH]; intros n window acc w Ht Hn Hrun.
  - injection Hrun as <- <- <-. rewrite app_nil_r, Z.add_0_r. done.
  - cbn [watch_blocks] in Hrun. unfold source_call in Hrun.
    destruct (block_header_by_number (n + 1) w) as [[header|e] w1] eqn:Hh; [|by injection Hrun as <- _ _].
    apply (f_equal fst) in Hh. apply reports_header in Hh as ->.
    destruct (advance_or_seed_tracks self n window Ht) as (window1 & Had & Ht1 & Hcap); [lia|].
    rewrite Had in Hrun.
    destruct (logs_in_block_by_hash _ (game_contract _) w1) as [[gl|e] w2] eqn:Hg;
      [|by injection Hrun as <- _ _].
    apply (f_equal fst) in Hg. apply reports_logs in Hg as ->.
    destruct (logs_in_block_by_hash _ (state_root_submission_contract _) w2) as [[sl|e] w3] eqn:Hs;
      [|by injection Hrun as <- _ _].
    apply (f_equal fst) in Hs. apply reports_logs in Hs as ->.
    fold (block_events keccak256 (watcher_config self) c (n + 1)) in Hrun.
    destruct (block_events _ _ _ _) as [es|e] eqn:Hes; [|by injection Hrun as <- _ _].
    cbn [retain absorbed] in Hrun. rewrite orb_false_r in Hrun.
    specialize (IH (n + 1) window1 (acc ++ es) w3 Ht1 ltac:(lia) Hrun).
    destruct r as [[out reorged']|e]; [|done].
    destruct IH as (-> & Hok & -> & Ht' & Hcap').
    rewrite (seqZ_cons (n + 1)) by lia. replace (Z.pred (Z.of_nat (S count))) with (Z.of_nat count) by lia.
    rewrite (chain_events_cons _ _ _ _ Hes), app_assoc, Forall_cons, Hes.
    replace (n + Z.of_nat (S count)) with (n + 1 + Z.of_nat count) by lia.
    by rewrite Hcap'.
Qed.

Definition in_step (self : Watcher) : Prop :=
  match last_confirmed_block self with
  | Some n => 0 ≤ n ∧ tracks c n (reorg_window self)
  | None => buffer (reorg_window self) = []
  end.

(** What one iteration may do. *)
Definition stepped (self : Watcher) (r : result WatcherIteration WatcherError) (self' : Watcher)
    : Prop :=
  watcher_config self' = watcher_config self ∧
  match r with
  | Ok it =>
      match new_last_confirmed it with
      | None => events it = [] ∧ self' = self
      | Some b => last_confirmed_block self' = Some b ∧
          ∃ a, a < b ∧ (∀ n, last_confirmed_block self = Some n → n = a) ∧
            b - a ≤ blocks_per_iteration (watcher_config self) ∧
            Forall (fun k => is_ok (block_events keccak256 (watcher_config self) c k)) (seqZ (a + 1) (b - a)) ∧
            events it = chain_events keccak256 (watcher_config self) c (seqZ (a + 1) (b - a))
      end
  | Err _ => self' = self
  end.

Lemma validate_Ok cfg :
  validate cfg = Ok () →
  (0 < reorg_window_capacity cfg)%nat ∧ blocks_per_iteration cfg ≠ 0 ∧
  confirmation_depth cfg ≠ 0 ∧ blocks_per_iteration cfg ≤ MAX_BLOCKS_PER_ITERATION.
Proof.
  unfold validate. rewrite !guard_Ok. intros (? & ? & ? & ? & ? & ? & ? & _). lia.
Qed.

Lemma with_window_id self : with_window self (reorg_window self) = self.
Proof. by destruct self. Qed.

Lemma watch_stepped self (w : W) r self' w' :
  validate (watcher_config self) = Ok () → 0 ≤ confirmation_depth (watcher_config self) →
  0 ≤ blocks_per_iteration (watcher_config self) →
  in_step self → watch keccak256 self w = (r, self', w') →
  stepped self r self' ∧ in_step self'.
Proof.
  intros (_ & Hb0 & Hd0 & _)%validate_Ok Hd Hb Hin. unfold watch, watch_inner.
  destruct (latest_block_number w) as [[hd|e] w1] eqn:Hh.
  2: { intros [= <- <- <-]. cbn. rewrite with_window_id. done. }
  apply (f_equal fst), (reports_head (c := c)) in Hh as [_ Hh].
  case_decide as Hlt; [intros [= <- <- <-]; done|].
  set (confirmed := hd - _). case_decide as Hst; [intros [= <- <- <-]; done|].
  set (a := start_of self confirmed - 1).
  set (b := end_of self confirmed).
  assert (0 ≤ confirmed < 2 ^ 64 - 1) by (subst confirmed; lia).
  assert (Ha : 0 ≤ a + 1 ∧ a < b ∧ b ≤ confirmed ∧ b - a ≤ blocks_per_iteration (watcher_config self) ∧
            (∀ n, last_confirmed_block self = Some n → n = a) ∧ tracks c a (reorg_window self)).
  { subst a b. unfold end_of, start_of, in_step in *.
    destruct (last_confirmed_block self) as [n|].
    - unfold saturating_add, saturating_sub in *. destruct Hin as [? Ht].
      assert (Z.min (n + 1) u64_max - 1 = n) as -> by lia. split_and!; try lia; [|done].
      by intros ? [= ->].
    - unfold saturating_add, saturating_sub in *. split_and!; try lia; [done|].
      unfold tracks. rewrite Hin. split; [lia|done]. }
  destruct Ha as (Ha0 & Hab & Hbc & Hcount & Hcur & Htr).
  replace (start_of self confirmed) with (a + 1) by lia.
  destruct (watch_blocks _ _ _ _ _ _ _ _) as [[r1 window1] w2] eqn:Hrun.
  apply watch_blocks_chain in Hrun; [|done|lia].
  replace (Z.of_nat (Z.to_nat (b - (a + 1) + 1))) with (b - a) in Hrun by lia.
  destruct r1 as [[out reorged]|e]; [|intros [= <- <- <-]].
  - destruct Hrun as (-> & Hok & -> & Ht & Hcap). intros [= <- <- <-].
    unfold stepped, in_step. cbn. replace (a + (b - a)) with b in Ht by lia.
    split; [|split; [|done]].
    + split; [done|]. split; [done|]. exists a. by split_and!.
    + lia.
  - cbn. unfold with_window at 1 2. cbn. destruct self. done.
Qed.

(** Iterations one after the other, whether they fail or not. *)
Fixpoint watch_many (k : nat) (self : Watcher) (w : W)
    : list (result WatcherIteration WatcherError) * Watcher * W :=
  match k with
  | O => ([], self, w)
  | S k =>
      let '(r, self, w) := watch keccak256 self w in
      let '(rs, self, w) := watch_many k self w in
      (r :: rs, self, w)
  end.

Definition delivered (rs : list (result WatcherIteration WatcherError)) : list GameEvent :=
  rs ≫= fun r => match r with Ok it => events it | Err _ => [] end.

(** The blocks between two cursors. *)
Definition between (a b : option Z) (ns : list Z) : Prop :=
  match a, b with
  | Some a, Some b => a ≤ b ∧ ns = seqZ (a + 1) (b - a)
  | None, Some b => ∃ a, a < b ∧ ns = seqZ (a + 1) (b - a)
  | None, None => ns = []
  | Some _, None => False
  end.

Lemma between_refl a : between a a [].
Proof. destruct a; cbn; [|done]. split; [lia|]. by rewrite Z.sub_diag. Qed.

Lemma between_app a b c' ms ns : between a (Some b) ms → between (Some b) c' ns → between a c' (ms ++ ns).
Proof.
  destruct c' as [c'|]; [|done]. intros Hm [Hbc ->].
  assert (Happ : ∀ x, x ≤ b → seqZ (x + 1) (b - x) ++ seqZ (b + 1) (c' - b) = seqZ (x + 1) (c' - x)).
  { intros x Hx. replace (c' - x) with ((b - x) + (c' - b)) by lia.
    rewrite seqZ_app by lia. by replace (x + 1 + (b - x)) with (b + 1) by lia. }
  destruct a as [a|]; cbn in *.
  - destruct Hm as [Hab ->]. split; [lia|]. by apply Happ.
  - destruct Hm as (a & Hab & ->). exists a. split; [lia|]. apply Happ. lia.
Qed.

Lemma watch_many_between cfg k self (w : W) rs self' w' :
  watcher_config self = cfg → validate cfg = Ok () → 0 ≤ confirmation_depth cfg →
  0 ≤ blocks_per_iteration cfg → in_step self → watch_many k self w = (rs, self', w') →
  ∃ ns, between (last_confirmed_block self) (last_confirmed_block self') ns ∧
    delivered rs = chain_events keccak256 cfg c ns ∧
    Forall (fun n => is_ok (block_events keccak256 cfg c n)) ns.
Proof.
  intros Hcfg Hval Hd Hb. revert self w rs Hcfg. induction k as [|k IH]; intros self w rs Hcfg Hin Hrun.
  - injection Hrun as <- <- <-. exists []. split; [apply between_refl|done].
  - cbn [watch_many] in Hrun. destruct (watch _ self w) as [[r self1] w1] eqn:Hw.
    destruct (watch_many k self1 w1) as [[rs1 self2] w2] eqn:Hm. injection Hrun as <- <- <-.
    apply watch_stepped in Hw as [[Hc1 Hr] Hin1]; [|by rewrite Hcfg..|done].
    rewrite Hcfg in Hc1, Hr. destruct (IH _ _ _ Hc1 Hin1 Hm) as (ns & Hns & Hdel & Hok).
    change (delivered (r :: rs1)) with
      (match r with Ok it => events it | Err _ => [] end ++ delivered rs1). rewrite Hdel.
    destruct r as [it|e]; [|by subst self1; exists ns].
    destruct (new_last_confirmed it) as [b|]; [|destruct Hr as [-> ->]; by exists ns].
    destruct Hr as (Hlast & a & Hab & Hcur & _ & Hoks & ->). rewrite Hlast in Hns.
    exists (seqZ (a + 1) (b - a) ++ ns). split_and!.
    + eapply between_app; [|exact Hns]. destruct (last_confirmed_block self) as [n|]; cbn.
      * rewrite (Hcur n eq_refl). split; [lia|done].
      * by exists a.
    + unfold chain_events. by rewrite bind_app.
    + by apply Forall_app.
Qed.

(** ** Progress *)

Hypothesis Hanswers : ∀ (w : W) n bh a, is_ok (latest_block_number w).1 ∧
  is_ok (block_header_by_number n w).1 ∧ is_ok (logs_in_block_by_hash bh a w).1.

Lemma watch_blocks_total self count n window acc reorged (w : W) :
  tracks c n window → n + Z.of_nat count < 2 ^ 64 →
  (∀ k, is_ok (block_events keccak256 (watcher_config self) c k)) →
  is_ok (watch_blocks keccak256 self count (n + 1) window acc reorged w).1.1.
Proof.
  intros Ht Hn Hok. revert n window acc reorged w Ht Hn.
  induction count as [|count IH]; intros n window acc reorged w Ht Hn; [done|].
  cbn [watch_blocks]. unfold source_call.
  destruct (Hanswers w (n + 1) [] []) as (_ & Hhd & _).
  destruct (block_header_by_number (n + 1) w) as [[header|e] w1] eqn:Hh; [|done].
  apply (f_equal fst) in Hh. apply reports_header in Hh as ->.
  destruct (advance_or_seed_tracks self n window Ht) as (window1 & -> & Ht1 & Hcap); [lia|].
  destruct (Hanswers w1 n (header_hash (chain_header c (n + 1))) (game_contract (watcher_config self)))
    as (_ & _ & Hgl).
  destruct (logs_in_block_by_hash _ (game_contract _) w1) as [[gl|e] w2] eqn:Hg; [|done].
  apply (f_equal fst) in Hg. apply reports_logs in Hg as ->.
  destruct (Hanswers w2 n (header_hash (chain_header c (n + 1)))
              (state_root_submission_contract (watcher_config self))) as (_ & _ & Hsl).
  destruct (logs_in_block_by_hash _ (state_root_submission_contract _) w2) as [[sl|e] w3] eqn:Hs; [|done].
  apply (f_equal fst) in Hs. apply reports_logs in Hs as ->.
  pose proof (Hok (n + 1)) as Hb. unfold block_events in Hb.
  destruct (decode_logs _ _); [|done]. apply IH; [done|lia].
Qed.

Lemma watch_progress self (w : W) n head :
  validate (watcher_config self) = Ok () → 0 ≤ confirmation_depth (watcher_config self) →
  0 ≤ blocks_per_iteration (watcher_config self) → last_confirmed_block self = Some n → in_step self →
  (∀ k, is_ok (block_events keccak256 (watcher_config self) c k)) →
  (latest_block_number w).1 = Ok head → n + 1 ≤ head - confirmation_depth (watcher_config self) →
  last_confirmed_block (watch keccak256 self w).1.2 =
    Some (Z.min (head - confirmation_depth (watcher_config self))
                (n + blocks_per_iteration (watcher_config self))).
Proof.
  intros (_ & Hb0 & Hd0 & Hbmax)%validate_Ok Hd Hb Hn Hin Hok Hhead Hlt. unfold watch, watch_inner.
  pose proof (reports_head w head Hhead) as [_ Hh]. unfold in_step in Hin. rewrite Hn in Hin.
  destruct Hin as [Hn0 Ht].
  destruct (latest_block_number w) as [r w1]. cbn in Hhead. subst r. rewrite decide_False by lia.
  assert (Hs : start_of self (head - confirmation_depth (watcher_config self)) = n + 1).
  { unfold start_of. rewrite Hn. unfold saturating_add. lia. }
  assert (He : end_of self (head - confirmation_depth (watcher_config self)) =
    Z.min (head - confirmation_depth (watcher_config self)) (n + blocks_per_iteration (watcher_config self))).
  { unfold end_of. rewrite Hs. unfold saturating_add, saturating_sub. lia. }
  rewrite Hs, He. rewrite decide_False by lia.
  match goal with |- context [watch_blocks _ _ ?k _ ?v ?acc ?re ?w0] =>
    pose proof (watch_blocks_total self k n v acc re w0 Ht ltac:(lia) Hok) as Htot;
    destruct (watch_blocks _ _ k _ v acc re w0) as [[r1 window1] w2]
  end.
  by destruct r1 as [[out reorged]|].
Qed.

End Chain.


(** ** A concrete chain

    One midpoint, in block 5; the head is at block 40. *)

Definition demo_block (n : Z) : BlockHeader :=
  {| number := n; header_hash := to_be_bytes 32 n; parent_hash := to_be_bytes 32 (n - 1) |}.

Definition demo_logs (bh : TopicHash) (a : EthAddress) : list RawLog :=
  if decide (bh = to_be_bytes 32 5 ∧ a = zeros 20) then [demo_midpoint_log] else [].

Definition demo_chain : chain :=
  {| chain_header := demo_block; chain_logs n := demo_logs (to_be_bytes 32 n) |}.

#[local] Instance demo_chain_source : L1Source () := {|
  latest_block_number w := (Ok 40, w);
  block_header_by_number n w := (Ok (demo_block n), w);
  logs_in_block_by_hash bh a w := (Ok (demo_logs bh a), w);
|}.

#[local] Instance demo_chain_reports : Reports () demo_chain.
Proof.
  split.
  - by intros w n [= <-].
  - by intros w n h [= <-].
  - intros w n a logs Hl. cbn [logs_in_block_by_hash demo_chain_source fst] in Hl.
    change (Ok (demo_logs (to_be_bytes 32 n) a) = Ok (E := SourceError) logs) in Hl.
    symmetry. exact (f_equal (fun r => match r with Ok x => x | Err _ => [] end) Hl).
Qed.

Definition demo_watcher : Watcher :=
  {| watcher_config := WatcherConfig_new (zeros 20) (replicate 20 (byte_of 1));
     reorg_window := {| capacity := 16; buffer := [demo_block 3] |};
     last_confirmed_block := Some 3 |}.

Definition demo_watched := watch_many (W := ()) demo_topic_hash 2 demo_watcher ().

