(* ===== verification/ObserverStore.v ===== *)
(** * The observer's database

    [src/runtime/knomosis-faultproof-observer/src/persistence.rs]: the records of
    games, batches and responses, the cursor and the re-org window, each in a
    cell of a key-value store.  The store is a finite map from byte strings to
    byte strings, as the trait of [src/runtime/knomosis-storage/src/storage.rs]
    documents it, any call of which may fail; serde's JSON is a parameter.

    [Store] is what the observer uses of it and [StoreOk] what it relies on: the
    store shows a [StoreView], a committed batch updates the view at once and a
    failed one not at all.  The key-value implementation satisfies it. *)

From Stdlib Require Import ZArith Lia.
From Stdlib Require Strings.String.
From stdpp Require Import base numbers list gmap sorting.
From S2P Require Import Prelude Encoding Events Reorg Game State GameReader GameEvents ObserverWatch.
Import String.StringSyntax.
Delimit Scope string_scope with string.

Local Open Scope Z_scope.

(** ** Records *)

Definition OBSERVER_IDENTIFIER : list u8 :=
  String.list_byte_of_string "knomosis-faultproof-observer/v1"%string.
Definition CURSOR_KEY : list u8 := String.list_byte_of_string "w/cursor"%string.
Definition IDENTIFIER_KEY : list u8 := String.list_byte_of_string "w/identifier"%string.
Definition REORG_WINDOW_KEY : list u8 := String.list_byte_of_string "w/reorg_window"%string.
Definition GAME_PREFIX : list u8 := String.list_byte_of_string "g/"%string.
Definition RESPONSE_PREFIX : list u8 := String.list_byte_of_string "r/"%string.
Definition BATCH_PREFIX : list u8 := String.list_byte_of_string "b/"%string.

Record BatchRecord : Type := {
  batch_end_index : Z;
  batch_prev_end_index : Z;
  batch_record_root : list u8;
  batch_state_commit : list u8;
  batch_block_number : Z;
}.

Record GameRecord : Type := {
  game_id : Z;
  game_state : GameState;
  me : TurnSide;
  last_updated_block : Z;
  state_known : bool;
  turn_deadline : option Z;
  disputed_log_index : option Z;
}.

Inductive MoveKind : Type := KindUnknown | KindSubmit | KindRespond | KindTerminate | KindTimeout.

Inductive ResponseStatus : Type := Intent | Pending | Confirmed | Dropped | Failed.

Record ResponseRecord : Type := {
  tx_hash_hex : list u8;
  raw_tx_hex : option (list u8);
  resp_game_id : Z;
  resp_status : ResponseStatus;
  submitted_at_block : Z;
  resp_depth : Z;
  pivot_idx : option Z;
  move_kind : MoveKind;
}.

#[global] Instance MoveKind_eq_dec : EqDecision MoveKind.
Proof. solve_decision. Defined.
#[global] Instance ResponseStatus_eq_dec : EqDecision ResponseStatus.
Proof. solve_decision. Defined.

(** The mirror of [BlockHeader] with serde's traits. *)
Abbreviation PersistedHeader := BlockHeader.

Record PersistBatch : Type := {
  batch_games : list GameRecord;
  batch_responses : list ResponseRecord;
  batch_batches : list BatchRecord;
  batch_cursor : option Z;
  batch_window : option (list PersistedHeader);
}.

Definition PersistBatch_new : PersistBatch :=
  {| batch_games := []; batch_responses := []; batch_batches := []; batch_cursor := None;
     batch_window := None |}.

Definition upsert_game (self : PersistBatch) (rec : GameRecord) : PersistBatch :=
  {| batch_games := batch_games self ++ [rec]; batch_responses := batch_responses self;
     batch_batches := batch_batches self; batch_cursor := batch_cursor self;
     batch_window := batch_window self |}.

Definition upsert_response (self : PersistBatch) (rec : ResponseRecord) : PersistBatch :=
  {| batch_games := batch_games self; batch_responses := batch_responses self ++ [rec];
     batch_batches := batch_batches self; batch_cursor := batch_cursor self;
     batch_window := batch_window self |}.

Definition upsert_batch (self : PersistBatch) (rec : BatchRecord) : PersistBatch :=
  {| batch_games := batch_games self; batch_responses := batch_responses self;
     batch_batches := batch_batches self ++ [rec]; batch_cursor := batch_cursor self;
     batch_window := batch_window self |}.

Definition set_cursor (self : PersistBatch) (block : Z) : PersistBatch :=
  {| batch_games := batch_games self; batch_responses := batch_responses self;
     batch_batches := batch_batches self; batch_cursor := Some block;
     batch_window := batch_window self |}.

Definition set_reorg_window (self : PersistBatch) (headers : list PersistedHeader) : PersistBatch :=
  {| batch_games := batch_games self; batch_responses := batch_responses self;
     batch_batches := batch_batches self; batch_cursor := batch_cursor self;
     batch_window := Some headers |}.

Definition batch_is_empty (self : PersistBatch) : bool :=
  match batch_games self, batch_responses self, batch_batches self, batch_cursor self,
        batch_window self with
  | [], [], [], None, None => true
  | _, _, _, _, _ => false
  end.

Definition game_key (game_id : Z) : list u8 := GAME_PREFIX ++ to_be_bytes 16 game_id.
Definition response_key (tx_hash : list u8) : list u8 := RESPONSE_PREFIX ++ tx_hash.
Definition batch_key (end_index : Z) : list u8 := BATCH_PREFIX ++ to_be_bytes 8 end_index.

(** ** The store *)

Inductive PersistenceError : Type :=
| StorageFault
| StorageOther
| JsonError
| IdentifierMismatch (found : option (list u8))
| CursorMalformed (got : Z).

(** serde_json on the records. *)
Class ObserverJson : Type := {
  game_to_json : GameRecord → list u8;
  game_from_json : list u8 → option GameRecord;
  response_to_json : ResponseRecord → list u8;
  response_from_json : list u8 → option ResponseRecord;
  batch_to_json : BatchRecord → list u8;
  batch_from_json : list u8 → option BatchRecord;
  headers_to_json : list PersistedHeader → list u8;
  headers_from_json : list u8 → option (list PersistedHeader);
}.

(** A header as the Rust type holds it. *)
Definition header_typed (h : BlockHeader) : Prop :=
  in_u64 (number h) ∧ length (header_hash h) = 32%nat ∧ length (parent_hash h) = 32%nat.

(** serde reads back what it wrote; a header with its two hashes as arrays of
    numbers takes at most 312 bytes and a comma. *)
Class ObserverJsonOk `{ObserverJson} : Prop := {
  game_json r : game_from_json (game_to_json r) = Some r;
  response_json r : response_from_json (response_to_json r) = Some r;
  batch_json r : batch_from_json (batch_to_json r) = Some r;
  headers_json hs : Forall header_typed hs → headers_from_json (headers_to_json hs) = Some hs;
  headers_json_size hs :
    Forall header_typed hs → (length (headers_to_json hs) ≤ 2 + 313 * length hs)%nat;
}.

(** The calls of the storage engine fail or not as the world has it. *)
Class StorageWorld (W : Type) : Type := { storage_fault : W → bool * W }.

Abbreviation kv := (gmap (list u8) (list u8)).

(** The order of [scan]. *)
Fixpoint bytes_leb (a b : list u8) : bool :=
  match a, b with
  | [], _ => true
  | _ :: _, [] => false
  | x :: a, y :: b =>
      if decide (byte_val x < byte_val y) then true
      else if decide (byte_val x = byte_val y) then bytes_leb a b else false
  end.

Definition starts_with (p k : list u8) : bool := bool_decide (take (length p) k = p).

Definition scan_map (db : kv) (p : list u8) : list (list u8 * list u8) :=
  merge_sort (fun x y => bytes_leb x.1 y.1) (filter (fun x => starts_with p x.1) (map_to_list db)).

Section Persistence.
Context {W : Type} `{StorageWorld W} `{ObserverJson} `{Hex}.

(** A method of [Persistence]: the store, and the world its calls fail in. *)
Definition persisting (A : Type) : Type := kv → W → result A PersistenceError * kv * W.

#[global] Instance persisting_ret : MRet persisting := fun A a db w => (Ok a, db, w).
#[global] Instance persisting_bind : MBind persisting := fun A B k m db w =>
  let '(r, db, w) := m db w in
  match r with Ok a => k a db w | Err e => (Err e, db, w) end.

Definition refuse {A} (e : PersistenceError) : persisting A := fun db w => (Err e, db, w).

Definition lift_result {A} (r : result A PersistenceError) : persisting A := fun db w => (r, db, w).

(** A call of the engine: it fails, or it does [f]. *)
Definition engine {A} (f : kv → A * kv) : persisting A := fun db w =>
  let '(faulty, w) := storage_fault w in
  if faulty : bool then (Err StorageFault, db, w) else let '(a, db) := f db in (Ok a, db, w).

Definition storage_get (k : list u8) : persisting (option (list u8)) := engine (fun db => (db !! k, db)).
Definition storage_put (k v : list u8) : persisting () := engine (fun db => ((), <[k := v]> db)).
Definition storage_scan (p : list u8) : persisting (list (list u8 * list u8)) :=
  engine (fun db => (scan_map db p, db)).

(** A transaction works on its own map until it is committed. *)
Definition storage_transaction : persisting kv := engine (fun db => (db, db)).
Definition tx_put (tx : kv) (k v : list u8) : persisting kv := engine (fun db => (<[k := v]> tx, db)).
Definition tx_commit (tx : kv) : persisting () := engine (fun _ => ((), tx)).

Definition parse_hex_tx_hash (hex_str : list u8) : result (list u8) PersistenceError :=
  match hex_decode (strip_0x hex_str) with
  | None => Err StorageOther
  | Some bytes => if decide (length bytes ≠ 32%nat) then Err StorageOther else Ok bytes
  end.

(** [ResponseRecord { tx_hash_hex: hex::encode(tx_hash_bytes), ..rec }]. *)
Definition canonical_rec (rec : ResponseRecord) (tx_hash : list u8) : ResponseRecord :=
  {| tx_hash_hex := hex_encode tx_hash; raw_tx_hex := raw_tx_hex rec;
     resp_game_id := resp_game_id rec; resp_status := resp_status rec;
     submitted_at_block := submitted_at_block rec; resp_depth := resp_depth rec;
     pivot_idx := pivot_idx rec; move_kind := move_kind rec |}.

(** [serde_json::from_slice] on each value of a scan. *)
Fixpoint parse_all {A} (parse : list u8 → option A) (pairs : list (list u8 * list u8))
    : result (list A) PersistenceError :=
  match pairs with
  | [] => Ok []
  | (_, value) :: pairs =>
      let? rec := ok_or (parse value) JsonError in
      let? out := parse_all parse pairs in
      Ok (rec :: out)
  end.

Definition verify_or_initialise_identifier : persisting () :=
  cell ← storage_get IDENTIFIER_KEY;
  match cell with
  | Some found =>
      match utf8_decode found with
      | None => refuse StorageOther
      | Some _ =>
          if decide (found = OBSERVER_IDENTIFIER) then mret ()
          else refuse (IdentifierMismatch (Some found))
      end
  | None =>
      games ← storage_scan GAME_PREFIX;
      responses ← storage_scan RESPONSE_PREFIX;
      batches ← storage_scan BATCH_PREFIX;
      cursor ← storage_get CURSOR_KEY;
      window ← storage_get REORG_WINDOW_KEY;
      match games, responses, batches, cursor, window with
      | [], [], [], None, None => storage_put IDENTIFIER_KEY OBSERVER_IDENTIFIER
      | _, _, _, _, _ => refuse (IdentifierMismatch None)
      end
  end.

Definition kv_read_cursor : persisting (option Z) :=
  cell ← storage_get CURSOR_KEY;
  match cell with
  | None => mret None
  | Some bytes =>
      if decide (length bytes ≠ 8%nat) then refuse (CursorMalformed (Z.of_nat (length bytes)))
      else mret (Some (from_be_bytes bytes))
  end.

Definition kv_read_reorg_window : persisting (list PersistedHeader) :=
  cell ← storage_get REORG_WINDOW_KEY;
  match cell with
  | None => mret []
  | Some bytes =>
      if decide (Z.of_nat MAX_REORG_WINDOW_CAPACITY * 1024 < Z.of_nat (length bytes)) then refuse StorageOther else
      headers ← lift_result (ok_or (headers_from_json bytes) JsonError);
      if decide (MAX_REORG_WINDOW_CAPACITY < length headers)%nat then refuse StorageOther
      else mret headers
  end.

Definition kv_list_games : persisting (list GameRecord) :=
  pairs ← storage_scan GAME_PREFIX; lift_result (parse_all game_from_json pairs).
Definition kv_list_batches : persisting (list BatchRecord) :=
  pairs ← storage_scan BATCH_PREFIX; lift_result (parse_all batch_from_json pairs).
Definition kv_list_responses : persisting (list ResponseRecord) :=
  pairs ← storage_scan RESPONSE_PREFIX; lift_result (parse_all response_from_json pairs).

(** [storage.get] and [serde_json::from_slice]. *)
Definition load_cell {A} (parse : list u8 → option A) (k : list u8) : persisting (option A) :=
  cell ← storage_get k;
  match cell with
  | None => mret None
  | Some bytes => rec ← lift_result (ok_or (parse bytes) JsonError); mret (Some rec)
  end.

Definition kv_load_game (game_id : Z) : persisting (option GameRecord) :=
  load_cell game_from_json (game_key game_id).
Definition kv_load_batch (end_index : Z) : persisting (option BatchRecord) :=
  load_cell batch_from_json (batch_key end_index).

(** The writes outside a batch. *)
Definition kv_write_cursor (block : Z) : persisting () := storage_put CURSOR_KEY (to_be_bytes 8 block).
Definition kv_write_reorg_window (headers : list PersistedHeader) : persisting () :=
  storage_put REORG_WINDOW_KEY (headers_to_json headers).
Definition kv_store_game (rec : GameRecord) : persisting () :=
  storage_put (game_key (game_id rec)) (game_to_json rec).
Definition kv_store_batch (rec : BatchRecord) : persisting () :=
  storage_put (batch_key (batch_end_index rec)) (batch_to_json rec).

Definition kv_load_response (tx_hash : list u8) : persisting (option ResponseRecord) :=
  load_cell response_from_json (response_key tx_hash).

Definition kv_store_response (rec : ResponseRecord) : persisting () :=
  tx_hash_bytes ← lift_result (parse_hex_tx_hash (tx_hash_hex rec));
  storage_put (response_key tx_hash_bytes) (response_to_json (canonical_rec rec tx_hash_bytes)).

(** The [for] loops of [commit_batch]. *)
Fixpoint put_games (tx : kv) (recs : list GameRecord) : persisting kv :=
  match recs with
  | [] => mret tx
  | rec :: recs => tx ← tx_put tx (game_key (game_id rec)) (game_to_json rec); put_games tx recs
  end.

Fixpoint put_responses (tx : kv) (recs : list ResponseRecord) : persisting kv :=
  match recs with
  | [] => mret tx
  | rec :: recs =>
      h ← lift_result (parse_hex_tx_hash (tx_hash_hex rec));
      tx ← tx_put tx (response_key h) (response_to_json (canonical_rec rec h));
      put_responses tx recs
  end.

Fixpoint put_batches (tx : kv) (recs : list BatchRecord) : persisting kv :=
  match recs with
  | [] => mret tx
  | rec :: recs => tx ← tx_put tx (batch_key (batch_end_index rec)) (batch_to_json rec); put_batches tx recs
  end.

Definition put_batch_cells (tx : kv) (batch : PersistBatch) : persisting kv :=
  tx ← put_games tx (batch_games batch);
  tx ← put_responses tx (batch_responses batch);
  tx ← put_batches tx (batch_batches batch);
  tx ← match batch_cursor batch with
       | Some cursor => tx_put tx CURSOR_KEY (to_be_bytes 8 cursor)
       | None => mret tx
       end;
  match batch_window batch with
  | Some headers => tx_put tx REORG_WINDOW_KEY (headers_to_json headers)
  | None => mret tx
  end.

Definition kv_commit_batch (batch : PersistBatch) : persisting () :=
  tx ← storage_transaction; tx ← put_batch_cells tx batch; tx_commit tx.

End Persistence.

(** ** What the store holds *)

Record StoreView : Type := {
  v_games : gmap Z GameRecord;
  v_responses : gmap (list u8) ResponseRecord;
  v_batches : gmap Z BatchRecord;
  v_cursor : option Z;
  v_window : option (list PersistedHeader);
}.

Definition empty_view : StoreView :=
  {| v_games := ∅; v_responses := ∅; v_batches := ∅; v_cursor := None; v_window := None |}.

Definition view_game (v : StoreView) (r : GameRecord) : StoreView :=
  {| v_games := <[game_id r := r]> (v_games v); v_responses := v_responses v;
     v_batches := v_batches v; v_cursor := v_cursor v; v_window := v_window v |}.

Definition view_response (v : StoreView) (h : list u8) (r : ResponseRecord) : StoreView :=
  {| v_games := v_games v; v_responses := <[h := r]> (v_responses v);
     v_batches := v_batches v; v_cursor := v_cursor v; v_window := v_window v |}.

Definition view_batch (v : StoreView) (r : BatchRecord) : StoreView :=
  {| v_games := v_games v; v_responses := v_responses v;
     v_batches := <[batch_end_index r := r]> (v_batches v); v_cursor := v_cursor v;
     v_window := v_window v |}.

Definition view_cursor (v : StoreView) (n : Z) : StoreView :=
  {| v_games := v_games v; v_responses := v_responses v; v_batches := v_batches v;
     v_cursor := Some n; v_window := v_window v |}.

Definition view_window (v : StoreView) (hs : list PersistedHeader) : StoreView :=
  {| v_games := v_games v; v_responses := v_responses v; v_batches := v_batches v;
     v_cursor := v_cursor v; v_window := Some hs |}.

(** A record of a response, with the hash of its transaction. *)
Definition hash_of `{Hex} (r : ResponseRecord) : list u8 :=
  default [] (hex_decode (strip_0x (tx_hash_hex r))).

Definition apply_batch `{Hex} (v : StoreView) (b : PersistBatch) : StoreView :=
  let v := foldl view_game v (batch_games b) in
  let v := foldl (fun v r => view_response v (hash_of r) (canonical_rec r (hash_of r))) v (batch_responses b) in
  let v := foldl view_batch v (batch_batches b) in
  let v := match batch_cursor b with Some n => view_cursor v n | None => v end in
  match batch_window b with Some hs => view_window v hs | None => v end.

(** The window a cell can hold. *)
Definition window_fits (hs : list PersistedHeader) : Prop :=
  (length hs ≤ MAX_REORG_WINDOW_CAPACITY)%nat ∧ Forall header_typed hs.

(** The ranges of the keys of a batch. *)
Record batch_ok `{Hex} (b : PersistBatch) : Prop := {
  ok_games : Forall (fun r => in_u128 (game_id r)) (batch_games b);
  ok_responses : Forall (fun r => is_Some (hex_decode (strip_0x (tx_hash_hex r))) ∧
                                  length (hash_of r) = 32%nat) (batch_responses b);
  ok_batches : Forall (fun r => in_u64 (batch_end_index r)) (batch_batches b);
  ok_cursor n : batch_cursor b = Some n → in_u64 n;
  ok_window hs : batch_window b = Some hs → window_fits hs;
}.

Record view_ok `{Hex} (v : StoreView) : Prop := {
  ok_v_games i r : v_games v !! i = Some r → game_id r = i ∧ in_u128 i;
  ok_v_responses h r : v_responses v !! h = Some r →
    tx_hash_hex r = hex_encode h ∧ length h = 32%nat;
  ok_v_batches i r : v_batches v !! i = Some r → batch_end_index r = i ∧ in_u64 i;
  ok_v_cursor n : v_cursor v = Some n → in_u64 n;
  ok_v_window hs : v_window v = Some hs → window_fits hs;
}.

(** ** Keys *)

Lemma game_key_inj i j : in_u128 i → in_u128 j → game_key i = game_key j → i = j.
Proof.
  intros Hi Hj He. apply app_inv_head in He. apply (f_equal from_be_bytes) in He.
  by rewrite !from_to_be_bytes in He.
Qed.

Lemma batch_key_inj i j : in_u64 i → in_u64 j → batch_key i = batch_key j → i = j.
Proof.
  intros Hi Hj He. apply app_inv_head in He. apply (f_equal from_be_bytes) in He.
  by rewrite !from_to_be_bytes in He.
Qed.

Lemma response_key_inj h1 h2 : response_key h1 = response_key h2 → h1 = h2.
Proof. apply app_inv_head. Qed.

(** The first byte of a key tells its kind; the three cells of the watcher are
    distinct constants. *)
Lemma head_ne (k1 k2 : list u8) : head k1 ≠ head k2 → k1 ≠ k2.
Proof. congruence. Qed.

Lemma game_response_ne i h : game_key i ≠ response_key h. Proof. by apply head_ne. Qed.
Lemma game_batch_ne i j : game_key i ≠ batch_key j. Proof. by apply head_ne. Qed.
Lemma response_batch_ne h j : response_key h ≠ batch_key j. Proof. by apply head_ne. Qed.
Lemma game_cursor_ne i : game_key i ≠ CURSOR_KEY. Proof. by apply head_ne. Qed.
Lemma game_window_ne i : game_key i ≠ REORG_WINDOW_KEY. Proof. by apply head_ne. Qed.
Lemma game_identifier_ne i : game_key i ≠ IDENTIFIER_KEY. Proof. by apply head_ne. Qed.
Lemma response_cursor_ne h : response_key h ≠ CURSOR_KEY. Proof. by apply head_ne. Qed.
Lemma response_window_ne h : response_key h ≠ REORG_WINDOW_KEY. Proof. by apply head_ne. Qed.
Lemma response_identifier_ne h : response_key h ≠ IDENTIFIER_KEY. Proof. by apply head_ne. Qed.
Lemma batch_cursor_ne i : batch_key i ≠ CURSOR_KEY. Proof. by apply head_ne. Qed.
Lemma batch_window_ne i : batch_key i ≠ REORG_WINDOW_KEY. Proof. by apply head_ne. Qed.
Lemma batch_identifier_ne i : batch_key i ≠ IDENTIFIER_KEY. Proof. by apply head_ne. Qed.
Lemma cursor_window_ne : CURSOR_KEY ≠ REORG_WINDOW_KEY. Proof. discriminate. Qed.
Lemma cursor_identifier_ne : CURSOR_KEY ≠ IDENTIFIER_KEY. Proof. discriminate. Qed.
Lemma window_identifier_ne : REORG_WINDOW_KEY ≠ IDENTIFIER_KEY. Proof. discriminate. Qed.

(** Two keys of different kinds differ. *)
Ltac key_ne_one :=
  match goal with
  | |- game_key _ ≠ response_key _ => apply game_response_ne
  | |- game_key _ ≠ batch_key _ => apply game_batch_ne
  | |- response_key _ ≠ batch_key _ => apply response_batch_ne
  | |- game_key _ ≠ CURSOR_KEY => apply game_cursor_ne
  | |- game_key _ ≠ REORG_WINDOW_KEY => apply game_window_ne
  | |- game_key _ ≠ IDENTIFIER_KEY => apply game_identifier_ne
  | |- response_key _ ≠ CURSOR_KEY => apply response_cursor_ne
  | |- response_key _ ≠ REORG_WINDOW_KEY => apply response_window_ne
  | |- response_key _ ≠ IDENTIFIER_KEY => apply response_identifier_ne
  | |- batch_key _ ≠ CURSOR_KEY => apply batch_cursor_ne
  | |- batch_key _ ≠ REORG_WINDOW_KEY => apply batch_window_ne
  | |- batch_key _ ≠ IDENTIFIER_KEY => apply batch_identifier_ne
  | |- CURSOR_KEY ≠ REORG_WINDOW_KEY => apply cursor_window_ne
  | |- CURSOR_KEY ≠ IDENTIFIER_KEY => apply cursor_identifier_ne
  | |- REORG_WINDOW_KEY ≠ IDENTIFIER_KEY => apply window_identifier_ne
  end.
Ltac key_ne := first [key_ne_one | apply not_eq_sym; key_ne_one].

Lemma starts_with_app p k : starts_with p k = true ↔ ∃ k', k = p ++ k'.
Proof.
  unfold starts_with. rewrite bool_decide_eq_true. split.
  - intros Hp. exists (drop (length p) k). rewrite <- Hp at 1. by rewrite take_drop.
  - intros [k' ->]. apply take_app_length.
Qed.

(** The kind of a key by its first byte. *)
Lemma starts_with_head p k : starts_with p k → p ≠ [] → head k = head p.
Proof. intros Hs Hp. apply Is_true_true, starts_with_app in Hs as [k' ->]. by destruct p. Qed.

Lemma game_key_starts i : starts_with GAME_PREFIX (game_key i).
Proof. apply Is_true_true, starts_with_app. eexists. reflexivity. Qed.
Lemma response_key_starts h : starts_with RESPONSE_PREFIX (response_key h).
Proof. apply Is_true_true, starts_with_app. eexists. reflexivity. Qed.
Lemma batch_key_starts i : starts_with BATCH_PREFIX (batch_key i).
Proof. apply Is_true_true, starts_with_app. eexists. reflexivity. Qed.

Definition key_heads : Prop :=
  (∀ i, head (game_key i) = Some (byte_of 103)) ∧ (∀ h, head (response_key h) = Some (byte_of 114)) ∧
  (∀ i, head (batch_key i) = Some (byte_of 98)) ∧
  ∀ k, k ∈ [CURSOR_KEY; REORG_WINDOW_KEY; IDENTIFIER_KEY] → head k = Some (byte_of 119).

Lemma key_heads_eq : key_heads.
Proof.
  split; [done|]. split; [done|]. split; [done|]. intros k.
  rewrite !elem_of_cons, elem_of_nil. by intros [->|[->|[->|[]]]].
Qed.

Local Opaque game_key response_key batch_key CURSOR_KEY REORG_WINDOW_KEY IDENTIFIER_KEY.

(** ** The cells of a view *)

Section Cells.
Context `{ObserverJsonOk} `{HexOk}.

Definition known_key (k : list u8) : Prop :=
  (∃ i, in_u128 i ∧ k = game_key i) ∨ (∃ h, k = response_key h) ∨
  (∃ i, in_u64 i ∧ k = batch_key i) ∨ k ∈ [CURSOR_KEY; REORG_WINDOW_KEY; IDENTIFIER_KEY].

Record represents (db : kv) (v : StoreView) : Prop := {
  rep_ok : view_ok v;
  rep_games i : in_u128 i → db !! game_key i = game_to_json <$> v_games v !! i;
  rep_responses h : db !! response_key h = response_to_json <$> v_responses v !! h;
  rep_batches i : in_u64 i → db !! batch_key i = batch_to_json <$> v_batches v !! i;
  rep_cursor : db !! CURSOR_KEY = to_be_bytes 8 <$> v_cursor v;
  rep_window : db !! REORG_WINDOW_KEY = headers_to_json <$> v_window v;
  rep_identifier : db !! IDENTIFIER_KEY = Some OBSERVER_IDENTIFIER;
  rep_known k : is_Some (db !! k) → known_key k;
}.

Lemma insert_known (db : kv) k bs k' :
  known_key k → (∀ k, is_Some (db !! k) → known_key k) → is_Some (<[k := bs]> db !! k') → known_key k'.
Proof. intros Hk Hdb [bs' [[<- _]|[_ Hl]]%lookup_insert_Some]; eauto. Qed.

Ltac view_cbn := cbn [view_game view_response view_batch view_cursor view_window v_games
  v_responses v_batches v_cursor v_window].
Ltac other_cell := rewrite lookup_insert_ne by key_ne.
Ltac put_cell := split; view_cbn; try (intros; other_cell; solve [auto]).

Lemma put_game_cell db v r :
  represents db v → in_u128 (game_id r) →
  represents (<[game_key (game_id r) := game_to_json r]> db) (view_game v r).
Proof.
  intros [Hok Hg Hr Hb Hc Hw Hi Hk] Hid. put_cell.
  - destruct Hok as [Hvg Hvr Hvb Hvc Hvw]. split; view_cbn; [|exact Hvr|exact Hvb|exact Hvc|exact Hvw].
    intros i r' [[<- <-]|[_ Hl]]%lookup_insert_Some; [done|by apply Hvg].
  - intros i Hin. destruct (decide (game_id r = i)) as [<-|Hne]; [by rewrite !lookup_insert_eq|].
    rewrite !lookup_insert_ne; [by apply Hg|done|]. by intros ?%game_key_inj.
  - intros k. apply insert_known; [left; eauto|exact Hk].
Qed.

Lemma put_response_cell db v h r :
  represents db v → tx_hash_hex r = hex_encode h → length h = 32%nat →
  represents (<[response_key h := response_to_json r]> db) (view_response v h r).
Proof.
  intros [Hok Hg Hr Hb Hc Hw Hi Hk] Hhex Hlen. put_cell.
  - destruct Hok as [Hvg Hvr Hvb Hvc Hvw]. split; view_cbn; [exact Hvg| |exact Hvb|exact Hvc|exact Hvw].
    intros h' r' [[<- <-]|[_ Hl]]%lookup_insert_Some; [done|by apply Hvr].
  - intros h'. destruct (decide (h = h')) as [<-|Hne]; [by rewrite !lookup_insert_eq|].
    rewrite !lookup_insert_ne; [by apply Hr|done|]. by intros ?%response_key_inj.
  - intros k. apply insert_known; [right; left; eauto|exact Hk].
Qed.

Lemma put_batch_cell db v r :
  represents db v → in_u64 (batch_end_index r) →
  represents (<[batch_key (batch_end_index r) := batch_to_json r]> db) (view_batch v r).
Proof.
  intros [Hok Hg Hr Hb Hc Hw Hi Hk] Hid. put_cell.
  - destruct Hok as [Hvg Hvr Hvb Hvc Hvw]. split; view_cbn; [exact Hvg|exact Hvr| |exact Hvc|exact Hvw].
    intros i r' [[<- <-]|[_ Hl]]%lookup_insert_Some; [done|by apply Hvb].
  - intros i Hin. destruct (decide (batch_end_index r = i)) as [<-|Hne]; [by rewrite !lookup_insert_eq|].
    rewrite !lookup_insert_ne; [by apply Hb|done|]. by intros ?%batch_key_inj.
  - intros k. apply insert_known; [right; right; left; eauto|exact Hk].
Qed.

Lemma put_cursor_cell db v n :
  represents db v → in_u64 n → represents (<[CURSOR_KEY := to_be_bytes 8 n]> db) (view_cursor v n).
Proof.
  intros [Hok Hg Hr Hb Hc Hw Hi Hk] Hn. put_cell.
  - destruct Hok as [Hvg Hvr Hvb Hvc Hvw]. split; view_cbn; [exact Hvg|exact Hvr|exact Hvb| |exact Hvw].
    by intros n' [= <-].
  - by rewrite lookup_insert_eq.
  - intros k. apply insert_known; [|exact Hk]. right; right; right. set_solver.
Qed.

Lemma put_window_cell db v hs :
  represents db v → window_fits hs →
  represents (<[REORG_WINDOW_KEY := headers_to_json hs]> db) (view_window v hs).
Proof.
  intros [Hok Hg Hr Hb Hc Hw Hi Hk] Hhs. put_cell.
  - destruct Hok as [Hvg Hvr Hvb Hvc Hvw]. split; view_cbn; [exact Hvg|exact Hvr|exact Hvb|exact Hvc|].
    by intros hs' [= <-].
  - by rewrite lookup_insert_eq.
  - intros k. apply insert_known; [|exact Hk]. right; right; right. set_solver.
Qed.

End Cells.

(** ** What the observer relies on *)

(** The methods of [Persistence] the observer calls. *)
Class Store (S W : Type) : Type := {
  read_cursor : S → W → result (option Z) PersistenceError * S * W;
  read_reorg_window : S → W → result (list PersistedHeader) PersistenceError * S * W;
  list_games : S → W → result (list GameRecord) PersistenceError * S * W;
  list_batches : S → W → result (list BatchRecord) PersistenceError * S * W;
  list_responses : S → W → result (list ResponseRecord) PersistenceError * S * W;
  load_response : list u8 → S → W → result (option ResponseRecord) PersistenceError * S * W;
  store_response : ResponseRecord → S → W → result () PersistenceError * S * W;
  commit_batch : PersistBatch → S → W → result () PersistenceError * S * W;
}.

(** A read leaves the store alone, and what it returns satisfies [Q]; a call fails
    only when the engine does. *)
Definition reads {S W A} (m : S → W → result A PersistenceError * S * W) (s : S) (Q : A → Prop) : Prop :=
  ∀ w, let '(r, s', _) := m s w in
  s' = s ∧ match r with Ok a => Q a | Err e => e = StorageFault end.

(** A write does what [P] says of the new store, or nothing. *)
Definition writes {S W A} (m : S → W → result A PersistenceError * S * W) (s : S) (P : S → Prop) : Prop :=
  ∀ w, let '(r, s', _) := m s w in
  match r with Ok _ => P s' | Err e => e = StorageFault ∧ s' = s end.

Class StoreOk (S W : Type) `{Store S W} `{Hex} : Type := {
  shows : S → StoreView → Prop;
  shows_ok s v : shows s v → view_ok v;
  shows_cursor s v : shows s v → reads read_cursor s (fun c => c = v_cursor v);
  shows_window s v : shows s v → reads read_reorg_window s (fun hs => hs = default [] (v_window v));
  shows_games s v : shows s v → reads list_games s (fun l =>
    ∀ r, r ∈ l ↔ ∃ i, v_games v !! i = Some r);
  shows_batches s v : shows s v → reads list_batches s (fun l =>
    ∀ r, r ∈ l ↔ ∃ i, v_batches v !! i = Some r);
  shows_responses s v : shows s v → reads list_responses s (fun l =>
    NoDup (tx_hash_hex <$> l) ∧ ∀ r, r ∈ l ↔ ∃ h, v_responses v !! h = Some r);
  shows_response s v h : shows s v → reads (load_response h) s (fun o => o = v_responses v !! h);
  shows_store s v h r : shows s v → tx_hash_hex r = hex_encode h → length h = 32%nat →
    writes (store_response r) s (fun s' => shows s' (view_response v h r));
  shows_commit s v b : shows s v → batch_ok b →
    writes (commit_batch b) s (fun s' => shows s' (apply_batch v b));
}.

(** ** The key-value store satisfies it *)

#[global] Instance kv_store {W} `{StorageWorld W} `{ObserverJson} `{Hex} : Store kv W := {|
  read_cursor := kv_read_cursor;
  read_reorg_window := kv_read_reorg_window;
  list_games := kv_list_games;
  list_batches := kv_list_batches;
  list_responses := kv_list_responses;
  load_response := kv_load_response;
  store_response := kv_store_response;
  commit_batch := kv_commit_batch;
|}.

Section HexHashes.
Context `{HexOk}.

Lemma strip_hex bs : strip_0x (hex_encode bs) = hex_encode bs.
Proof.
  unfold strip_0x. rewrite decide_False; [done|]. intros Heq.
  assert (Hx : byte_of 120 ∈ hex_encode bs).
  { rewrite <- (take_drop 2 (hex_encode bs)), Heq. set_solver. }
  pose proof (hex_encode_digits bs) as Hd. rewrite Forall_forall in Hd.
  specialize (Hd _ Hx). rewrite byte_val_of in Hd. change (120 mod 256) with 120 in Hd. lia.
Qed.

Lemma parse_hex_encode h : length h = 32%nat → parse_hex_tx_hash (hex_encode h) = Ok h.
Proof.
  intros Hl. unfold parse_hex_tx_hash. rewrite strip_hex, hex_decode_encode.
  by rewrite decide_False by (by intros []).
Qed.

Lemma hash_of_encode r h : tx_hash_hex r = hex_encode h → hash_of r = h.
Proof. intros He. unfold hash_of. by rewrite He, strip_hex, hex_decode_encode. Qed.

Lemma canonical_rec_id r h : tx_hash_hex r = hex_encode h → canonical_rec r h = r.
Proof. intros He. unfold canonical_rec. rewrite <- He. by destruct r. Qed.

End HexHashes.

Section Refinement.
Context {W : Type} `{StorageWorld W} `{ObserverJsonOk} `{HexOk}.

Lemma scan_elem (db : kv) p k bs :
  (k, bs) ∈ scan_map db p ↔ db !! k = Some bs ∧ starts_with p k.
Proof.
  unfold scan_map. rewrite merge_sort_Permutation, list_elem_of_filter, elem_of_map_to_list. naive_solver.
Qed.

Lemma reads_bind {A B} (m : persisting (W := W) A) (k : A → persisting B) db P Q :
  reads m db P → (∀ a, P a → reads (k a) db Q) → reads (m ≫= k) db Q.
Proof.
  intros Hm Hk w. specialize (Hm w). unfold mbind, persisting_bind.
  destruct (m db w) as [[[a|e] db1] w1]; destruct Hm as [-> Ha]; [by apply Hk|done].
Qed.

Lemma writes_bind {A B} (m : persisting (W := W) A) (k : A → persisting B) (db : kv) P Q :
  reads m db P → (∀ a, P a → writes (k a) db Q) → writes (m ≫= k) db Q.
Proof.
  intros Hm Hk w. specialize (Hm w). unfold mbind, persisting_bind.
  destruct (m db w) as [[[a|e] db1] w1]; destruct Hm as [-> Ha]; [by apply Hk|done].
Qed.

Lemma reads_ret {A} (a : A) (db : kv) (Q : A → Prop) : Q a → reads (W := W) (mret a : persisting A) db Q.
Proof. by intros Ha w. Qed.

Lemma reads_engine {A} (f : kv → A) (db : kv) (Q : A → Prop) :
  Q (f db) → reads (W := W) (engine (fun db => (f db, db))) db Q.
Proof. intros Ha w. unfold engine. by destruct (storage_fault w) as [[] w1]. Qed.

Lemma reads_conseq {A} (m : persisting (W := W) A) (db : kv) (P Q : A → Prop) :
  reads m db P → (∀ a, P a → Q a) → reads m db Q.
Proof.
  intros Hm HPQ w. specialize (Hm w). destruct (m db w) as [[[a|e] db1] w1]; naive_solver.
Qed.

Lemma parse_all_Ok {A} (parse : list u8 → option A) (enc : A → list u8) pairs (as_ : list A) :
  (∀ a, parse (enc a) = Some a) → pairs.*2 = enc <$> as_ → parse_all parse pairs = Ok as_.
Proof.
  intros Hp. revert as_. induction pairs as [|[k bs] pairs IH]; intros [|a as_]; try done.
  intros [= -> Heq]. cbn. rewrite Hp. cbn. by rewrite (IH as_ Heq).
Qed.

Lemma list_preimage {A B} (f : A → B) (P : A → Prop) (l : list B) :
  Forall (fun y => ∃ a, P a ∧ y = f a) l → ∃ k, l = f <$> k ∧ Forall P k.
Proof.
  induction 1 as [|y l (a & Ha & ->) _ (k & -> & Hk)]; [by exists []|].
  exists (a :: k). by split; [|constructor].
Qed.

Lemma scan_NoDup (db : kv) p : NoDup (scan_map db p).*1.
Proof.
  unfold scan_map. rewrite merge_sort_Permutation.
  apply (sublist_NoDup _ ((map_to_list db).*1)); [apply NoDup_fst_map_to_list|].
  apply fmap_sublist, sublist_filter.
Qed.

(** A scan over the cells of one kind, parsed, gives the records of that kind. *)
Lemma scan_records {A} (parse : list u8 → option A) (enc : A → list u8) (db : kv) p
    (key : A → list u8) (P : A → Prop) :
  (∀ a, parse (enc a) = Some a) →
  (∀ k bs, db !! k = Some bs ∧ starts_with p k ↔ ∃ a, P a ∧ k = key a ∧ bs = enc a) →
  ∃ l, parse_all parse (scan_map db p) = Ok l ∧ (∀ a, a ∈ l ↔ P a) ∧ NoDup (key <$> l).
Proof.
  intros Hparse Hcells. pose proof (scan_NoDup db p) as Hnd.
  destruct (list_preimage (fun a => (key a, enc a)) P (scan_map db p)) as (l & Hl & HP).
  { apply Forall_forall. intros [k bs] (a & Ha & -> & ->)%scan_elem%Hcells. eauto. }
  rewrite Hl in *. exists l. split_and!.
  - apply (parse_all_Ok _ enc); [done|]. by rewrite <- list_fmap_compose.
  - intros a. split; [by apply Forall_forall|]. intros Ha.
    assert (Hin : (key a, enc a) ∈ scan_map db p) by (apply scan_elem, Hcells; eauto).
    rewrite Hl in Hin. apply list_elem_of_fmap in Hin as (a' & Heq & Ha'). simplify_eq.
    assert (Some a = Some a') as [= ->] by (rewrite <- !Hparse; congruence). done.
  - by rewrite <- list_fmap_compose in Hnd.
Qed.

Lemma reads_get (k : list u8) (db : kv) : reads (W := W) (storage_get k) db (fun o => o = db !! k).
Proof. by apply (reads_engine (fun db => db !! k) db (fun o => o = db !! k)). Qed.

Lemma reads_scan {A} (parse : list u8 → option A) (p : list u8) (db : kv) l (Q : list A → Prop) :
  parse_all parse (scan_map db p) = Ok l → Q l →
  reads (W := W) (pairs ← storage_scan p; lift_result (parse_all parse pairs)) db Q.
Proof.
  intros Hl HQ. eapply reads_bind;
    [by apply (reads_engine (fun db => scan_map db p) db (fun x => x = scan_map db p))|].
  intros _ -> w. unfold lift_result. by rewrite Hl.
Qed.

Lemma known_prefix p k b :
  starts_with p k → head p = Some b → known_key k →
  (b = byte_of 103 → ∃ i, in_u128 i ∧ k = game_key i) ∧
  (b = byte_of 114 → ∃ h, k = response_key h) ∧
  (b = byte_of 98 → ∃ i, in_u64 i ∧ k = batch_key i).
Proof.
  intros Hs Hb Hk. destruct key_heads_eq as (Hg & Hr & Hba & Hw).
  assert (Hh : head k = Some b) by (rewrite <- Hb; apply starts_with_head; [done|by destruct p]).
  destruct Hk as [(i & Hi & ->)|[(h & ->)|[(i & Hi & ->)|Hin]]].
  - rewrite Hg in Hh. injection Hh as <-. split_and!; [eauto|done|done].
  - rewrite Hr in Hh. injection Hh as <-. split_and!; [done|eauto|done].
  - rewrite Hba in Hh. injection Hh as <-. split_and!; [done|done|eauto].
  - rewrite (Hw _ Hin) in Hh. injection Hh as <-. done.
Qed.

Lemma list_games_shows db v :
  represents db v →
  reads (W := W) kv_list_games db (fun l => ∀ r, r ∈ l ↔ ∃ i, v_games v !! i = Some r).
Proof.
  intros Hrep. pose proof (rep_ok _ _ Hrep) as Hok.
  destruct (scan_records game_from_json game_to_json db GAME_PREFIX (fun r => game_key (game_id r))
    (fun r => ∃ i, v_games v !! i = Some r) game_json) as (l & Hl & Hin & _).
  - intros k bs. split.
    + intros [Hk Hs]. destruct (known_prefix _ _ (byte_of 103) Hs eq_refl) as [Hg _];
        [by apply (rep_known _ _ Hrep)|]. destruct (Hg eq_refl) as (i & Hi & ->).
      rewrite (rep_games _ _ Hrep i Hi) in Hk. apply fmap_Some in Hk as (r & Hr & ->).
      exists r. destruct (ok_v_games v Hok i r Hr) as [-> _]. eauto.
    + intros (r & [i Hr] & -> & ->). destruct (ok_v_games v Hok i r Hr) as [Hid Hi].
      rewrite Hid, (rep_games _ _ Hrep i Hi), Hr. split; [done|apply game_key_starts].
  - by apply (reads_scan _ _ _ l).
Qed.

Lemma list_batches_shows db v :
  represents db v →
  reads (W := W) kv_list_batches db (fun l => ∀ r, r ∈ l ↔ ∃ i, v_batches v !! i = Some r).
Proof.
  intros Hrep. pose proof (rep_ok _ _ Hrep) as Hok.
  destruct (scan_records batch_from_json batch_to_json db BATCH_PREFIX (fun r => batch_key (batch_end_index r))
    (fun r => ∃ i, v_batches v !! i = Some r) batch_json) as (l & Hl & Hin & _).
  - intros k bs. split.
    + intros [Hk Hs]. destruct (known_prefix _ _ (byte_of 98) Hs eq_refl) as (_ & _ & Hg);
        [by apply (rep_known _ _ Hrep)|]. destruct (Hg eq_refl) as (i & Hi & ->).
      rewrite (rep_batches _ _ Hrep i Hi) in Hk. apply fmap_Some in Hk as (r & Hr & ->).
      exists r. destruct (ok_v_batches v Hok i r Hr) as [-> _]. eauto.
    + intros (r & [i Hr] & -> & ->). destruct (ok_v_batches v Hok i r Hr) as [Hid Hi].
      rewrite Hid, (rep_batches _ _ Hrep i Hi), Hr. split; [done|apply batch_key_starts].
  - by apply (reads_scan _ _ _ l).
Qed.

Lemma list_responses_shows db v :
  represents db v →
  reads (W := W) kv_list_responses db (fun l =>
    NoDup (tx_hash_hex <$> l) ∧ ∀ r, r ∈ l ↔ ∃ h, v_responses v !! h = Some r).
Proof.
  intros Hrep. pose proof (rep_ok _ _ Hrep) as Hok.
  destruct (scan_records response_from_json response_to_json db RESPONSE_PREFIX
    (fun r => response_key (hash_of r)) (fun r => ∃ h, v_responses v !! h = Some r) response_json)
    as (l & Hl & Hin & Hnd).
  - intros k bs. split.
    + intros [Hk Hs]. destruct (known_prefix _ _ (byte_of 114) Hs eq_refl) as (_ & Hg & _);
        [by apply (rep_known _ _ Hrep)|]. destruct (Hg eq_refl) as (h & ->).
      rewrite (rep_responses _ _ Hrep h) in Hk. apply fmap_Some in Hk as (r & Hr & ->).
      exists r. destruct (ok_v_responses v Hok h r Hr) as [->%hash_of_encode _]. eauto.
    + intros (r & [h Hr] & -> & ->). destruct (ok_v_responses v Hok h r Hr) as [->%hash_of_encode _].
      rewrite (rep_responses _ _ Hrep h), Hr. split; [done|apply response_key_starts].
  - apply (reads_scan _ _ _ l); [done|]. split; [|done].
    eapply (NoDup_fmap_1 (fun x => response_key (default [] (hex_decode (strip_0x x))))).
    by rewrite <- list_fmap_compose.
Qed.

Lemma read_cursor_shows db v :
  represents db v → reads (W := W) kv_read_cursor db (fun c => c = v_cursor v).
Proof.
  intros Hrep. eapply reads_bind; [apply reads_get|]. intros o ->. rewrite (rep_cursor _ _ Hrep).
  destruct (v_cursor v) as [n|] eqn:Hn; [|by apply reads_ret]. cbn [fmap option_fmap option_map].
  rewrite decide_False by (rewrite to_be_bytes_length; by intros []). apply reads_ret.
  rewrite from_to_be_bytes; [done|]. by apply (ok_v_cursor v (rep_ok _ _ Hrep)).
Qed.

Lemma read_window_shows db v :
  represents db v → reads (W := W) kv_read_reorg_window db (fun hs => hs = default [] (v_window v)).
Proof.
  intros Hrep. eapply reads_bind; [apply reads_get|]. intros o ->. rewrite (rep_window _ _ Hrep).
  destruct (v_window v) as [hs|] eqn:Hhs; [|by apply reads_ret]. cbn [fmap option_fmap option_map].
  destruct (ok_v_window v (rep_ok _ _ Hrep) hs Hhs) as [Hlen Hty].
  pose proof (headers_json_size hs Hty) as Hsize.
  rewrite decide_False; [|unfold MAX_REORG_WINDOW_CAPACITY in *; lia].
  eapply (reads_bind _ _ _ (fun x => x = hs)).
  - intros w. unfold lift_result. by rewrite headers_json by done.
  - intros _ ->. rewrite decide_False by lia. by apply reads_ret.
Qed.

Lemma load_cell_shows {A} (parse : list u8 → option A) (enc : A → list u8) (db : kv) (k : list u8) o :
  (∀ r, parse (enc r) = Some r) → db !! k = enc <$> o →
  reads (W := W) (load_cell parse k) db (fun o' => o' = o).
Proof.
  intros Hp Hk. eapply reads_bind; [apply reads_get|]. intros o' ->. rewrite Hk.
  destruct o as [r|]; [|by apply reads_ret].
  cbn [fmap option_fmap option_map]. intros w. cbn. by rewrite Hp.
Qed.

Lemma load_response_shows db v h :
  represents db v → reads (W := W) (kv_load_response h) db (fun o => o = v_responses v !! h).
Proof.
  intros Hrep. apply (load_cell_shows _ response_to_json); [apply response_json|].
  apply (rep_responses _ _ Hrep h).
Qed.

Lemma load_game_shows db v i :
  represents db v → in_u128 i → reads (W := W) (kv_load_game i) db (fun o => o = v_games v !! i).
Proof.
  intros Hrep Hi. apply (load_cell_shows _ game_to_json); [apply game_json|].
  by apply (rep_games _ _ Hrep i).
Qed.

Lemma load_batch_shows db v i :
  represents db v → in_u64 i → reads (W := W) (kv_load_batch i) db (fun o => o = v_batches v !! i).
Proof.
  intros Hrep Hi. apply (load_cell_shows _ batch_to_json); [apply batch_json|].
  by apply (rep_batches _ _ Hrep i).
Qed.

(** A single write. *)
Lemma put_shows (db : kv) (k bs : list u8) v' :
  represents (<[k := bs]> db) v' → writes (W := W) (storage_put k bs) db (fun db' => represents db' v').
Proof. intros Hr w. unfold storage_put, engine. by destruct (storage_fault w) as [[] w1]. Qed.

Lemma store_response_shows db v h r :
  represents db v → tx_hash_hex r = hex_encode h → length h = 32%nat →
  writes (W := W) (kv_store_response r) db (fun db' => represents db' (view_response v h r)).
Proof.
  intros Hrep He Hl w. unfold kv_store_response, lift_result, storage_put, engine, mbind, persisting_bind.
  rewrite He, parse_hex_encode, canonical_rec_id by done.
  destruct (storage_fault w) as [[] w1]; [done|]. by apply put_response_cell.
Qed.

(** A step of a transaction: the store is untouched, and the new map shows [v']. *)
Definition builds (m : persisting (W := W) kv) (db : kv) (v' : StoreView) : Prop :=
  reads m db (fun tx => represents tx v').

Lemma tx_put_builds (db tx : kv) k bs v' :
  represents (<[k := bs]> tx) v' → builds (tx_put tx k bs) db v'.
Proof. intros Hr. by apply (reads_engine (fun _ => <[k := bs]> tx)). Qed.

Lemma put_games_builds db tx v recs :
  represents tx v → Forall (fun r => in_u128 (game_id r)) recs →
  builds (put_games tx recs) db (foldl view_game v recs).
Proof.
  intros Hr Hall. revert tx v Hr. induction Hall as [|r recs Hi Hall IH]; intros tx v Hr.
  - by apply reads_ret.
  - eapply reads_bind; [by apply tx_put_builds, put_game_cell|]. intros tx' Htx'. by apply IH.
Qed.

Lemma put_batches_builds db tx v recs :
  represents tx v → Forall (fun r => in_u64 (batch_end_index r)) recs →
  builds (put_batches tx recs) db (foldl view_batch v recs).
Proof.
  intros Hr Hall. revert tx v Hr. induction Hall as [|r recs Hi Hall IH]; intros tx v Hr.
  - by apply reads_ret.
  - eapply reads_bind; [by apply tx_put_builds, put_batch_cell|]. intros tx' Htx'. by apply IH.
Qed.

Lemma put_responses_builds db tx v recs :
  represents tx v →
  Forall (fun r => is_Some (hex_decode (strip_0x (tx_hash_hex r))) ∧ length (hash_of r) = 32%nat) recs →
  builds (put_responses tx recs) db
    (foldl (fun v r => view_response v (hash_of r) (canonical_rec r (hash_of r))) v recs).
Proof.
  intros Hr Hall. revert tx v Hr. induction Hall as [|r recs [[h Hh] Hlen] Hall IH]; intros tx v Hr.
  - by apply reads_ret.
  - assert (Hp : parse_hex_tx_hash (tx_hash_hex r) = Ok (hash_of r)).
    { unfold parse_hex_tx_hash, hash_of in *. rewrite Hh in *. cbn in *.
      by rewrite decide_False by (by intros []). }
    cbn [put_responses]. rewrite Hp. eapply (reads_bind _ _ _ (fun x => x = hash_of r)); [done|].
    intros _ ->. eapply reads_bind; [by apply tx_put_builds, put_response_cell|]. intros tx' Htx'. by apply IH.
Qed.

Lemma put_cells_builds db tx v b :
  represents tx v → batch_ok b → builds (put_batch_cells tx b) db (apply_batch v b).
Proof.
  intros Hr [Hg Hre Hb Hc Hw].
  eapply reads_bind; [apply put_games_builds; [exact Hr|done]|]. intros tx1 H1'.
  eapply reads_bind; [apply put_responses_builds; [exact H1'|done]|]. intros tx2 H2'.
  eapply reads_bind; [apply put_batches_builds; [exact H2'|done]|]. intros tx3 H3'.
  revert H3'. unfold apply_batch. cbn beta. generalize (foldl view_batch).
  intros f. match goal with |- represents tx3 ?v → _ => generalize v end. intros v3 H3'.
  eapply (reads_bind _ _ _ (fun tx => represents tx
    (match batch_cursor b with Some n => view_cursor v3 n | None => v3 end))).
  - destruct (batch_cursor b) as [n|]; [by apply tx_put_builds, put_cursor_cell, Hc|by apply reads_ret].
  - intros tx4 H4'. destruct (batch_window b) as [hs|];
      [by apply tx_put_builds, put_window_cell, Hw|by apply reads_ret].
Qed.

Lemma commit_batch_shows db v b :
  represents db v → batch_ok b →
  writes (W := W) (kv_commit_batch b) db (fun db' => represents db' (apply_batch v b)).
Proof.
  intros Hrep Hb. eapply writes_bind; [by apply (reads_engine (fun db => db) db (fun x => represents x v))|].
  intros tx Htx. eapply writes_bind; [by apply (put_cells_builds _ _ v)|]. intros tx' Htx' w.
  unfold tx_commit, engine. by destruct (storage_fault w) as [[] w1].
Qed.

#[global] Instance kv_store_ok : StoreOk kv W := {|
  shows := represents;
  shows_ok := rep_ok;
  shows_cursor := read_cursor_shows;
  shows_window := read_window_shows;
  shows_games := list_games_shows;
  shows_batches := list_batches_shows;
  shows_responses := list_responses_shows;
  shows_response := load_response_shows;
  shows_store := store_response_shows;
  shows_commit := commit_batch_shows;
|}.

(** ** Opening *)

Lemma represents_empty : represents {[IDENTIFIER_KEY := OBSERVER_IDENTIFIER]} empty_view.
Proof.
  assert (Hne : ∀ k, k ≠ IDENTIFIER_KEY →
    ({[IDENTIFIER_KEY := OBSERVER_IDENTIFIER]} : kv) !! k = None).
  { intros k Hk. by apply lookup_singleton_ne, not_eq_sym. }
  split; cbn [empty_view v_games v_responses v_batches v_cursor v_window]; intros;
    try (rewrite Hne by key_ne; by rewrite ?lookup_empty).
  - split; cbn [empty_view v_games v_responses v_batches v_cursor v_window]; intros; simplify_map_eq.
  - by rewrite lookup_singleton_eq.
  - destruct (decide (k = IDENTIFIER_KEY)) as [->|Hk]; [right; right; right; set_solver|].
    rewrite Hne in * by done. by destruct select (is_Some _).
Qed.

Lemma open_empty (w : W) :
  let '(r, db, _) := verify_or_initialise_identifier ∅ w in
  match r with Ok _ => represents db empty_view | Err e => e = StorageFault end.
Proof.
  unfold verify_or_initialise_identifier, mbind, persisting_bind, storage_get, storage_scan, engine.
  repeat (match goal with |- context [storage_fault ?w] => destruct (storage_fault w) as [[] ?] end;
    [done|]; rewrite ?lookup_empty; try change (scan_map ∅ _) with (@nil (list u8 * list u8))).
  unfold storage_put, engine. destruct (storage_fault _) as [[] ?]; [done|]. apply represents_empty.
Qed.

End Refinement.

(** C20: the database keeps what the observer hands it.  On a store that shows a
    view, a batch of records with keys in their ranges is committed as a whole or,
    when the engine fails, not at all; every record, the cursor and the window are
    read back as the view has them; and a database is first opened as an empty
    view. *)
Theorem persistence_refines {W} `{StorageWorld W} `{ObserverJsonOk} `{HexOk} (db : kv) v b (w : W) :
  represents db v → batch_ok b →
  match kv_commit_batch b db w with
  | (Ok _, db', _) => represents db' (apply_batch v b)
  | (Err e, db', _) => e = StorageFault ∧ db' = db
  end ∧
  reads (W := W) kv_list_games db (fun l => ∀ r, r ∈ l ↔ ∃ i, v_games v !! i = Some r) ∧
  reads (W := W) kv_list_batches db (fun l => ∀ r, r ∈ l ↔ ∃ i, v_batches v !! i = Some r) ∧
  reads (W := W) kv_list_responses db (fun l =>
    NoDup (tx_hash_hex <$> l) ∧ ∀ r, r ∈ l ↔ ∃ h, v_responses v !! h = Some r) ∧
  (∀ h, reads (W := W) (kv_load_response h) db (fun o => o = v_responses v !! h)) ∧
  (∀ i, in_u128 i → reads (W := W) (kv_load_game i) db (fun o => o = v_games v !! i)) ∧
  (∀ i, in_u64 i → reads (W := W) (kv_load_batch i) db (fun o => o = v_batches v !! i)) ∧
  reads (W := W) kv_read_cursor db (fun c => c = v_cursor v) ∧
  reads (W := W) kv_read_reorg_window db (fun hs => hs = default [] (v_window v)) ∧
  (∀ r, in_u128 (game_id r) → writes (W := W) (kv_store_game r) db (fun db' => represents db' (view_game v r))) ∧
  (∀ r, in_u64 (batch_end_index r) →
     writes (W := W) (kv_store_batch r) db (fun db' => represents db' (view_batch v r))) ∧
  (∀ n, in_u64 n → writes (W := W) (kv_write_cursor n) db (fun db' => represents db' (view_cursor v n))) ∧
  (∀ hs, window_fits hs →
     writes (W := W) (kv_write_reorg_window hs) db (fun db' => represents db' (view_window v hs))) ∧
  match verify_or_initialise_identifier ∅ w with
  | (Ok _, db0, _) => represents db0 empty_view
  | (Err e, _, _) => e = StorageFault
  end.
Proof.
  intros Hr Hb. split_and!.
  - pose proof (commit_batch_shows db v b Hr Hb w) as Hc.
    by destruct (kv_commit_batch b db w) as [[[] ?] ?].
  - by apply list_games_shows.
  - by apply list_batches_shows.
  - by apply list_responses_shows.
  - intros h. by apply load_response_shows.
  - intros i Hi. by apply load_game_shows.
  - intros i Hi. by apply load_batch_shows.
  - by apply read_cursor_shows.
  - by apply read_window_shows.
  - intros r Hi. by apply put_shows, put_game_cell.
  - intros r Hi. by apply put_shows, put_batch_cell.
  - intros n Hn. by apply put_shows, put_cursor_cell.
  - intros hs Hhs. by apply put_shows, put_window_cell.
  - pose proof (open_empty w) as Ho. by destruct (verify_or_initialise_identifier ∅ w) as [[[] ?] ?].
Qed.

(** ** A concrete codec *)

(** The codes of countable types as bytes, least significant bit first. *)
Fixpoint bits_bytes (p : positive) : list u8 :=
  match p with
  | xH => []
  | xO p => byte_of 0 :: bits_bytes p
  | xI p => byte_of 1 :: bits_bytes p
  end.

Fixpoint bytes_bits (bs : list u8) : positive :=
  match bs with
  | [] => xH
  | b :: bs => if decide (byte_val b = 0) then xO (bytes_bits bs) else xI (bytes_bits bs)
  end.

Lemma bytes_bits_bytes p : bytes_bits (bits_bytes p) = p.
Proof. induction p as [p IH|p IH|]; cbn; [by rewrite IH..|done]. Qed.

Lemma decode_bits {A} `{Countable A} (a : A) : decode (bytes_bits (bits_bytes (encode a))) = Some a.
Proof. by rewrite bytes_bits_bytes, decode_encode. Qed.

#[local] Instance TurnSide_countable : Countable TurnSide :=
  inj_countable' (fun t => match t with Sequencer => false | Challenger => true end)
    (fun b : bool => if b then Challenger else Sequencer) ltac:(by intros []).
#[local] Instance GameStatus_countable : Countable GameStatus :=
  inj_countable' settled_code
    (fun n => if decide (n = 0) then InProgress else if decide (n = 1) then SequencerWon
       else if decide (n = 2) then ChallengerWon else if decide (n = 3) then TimedOutSequencer
       else TimedOutChallenger) ltac:(by intros []).
#[local] Instance Claim_countable : Countable Claim :=
  inj_countable' (fun c => (idx c, commit c)) (fun '(i, c) => {| idx := i; commit := c |})
    ltac:(by intros []).
#[local] Instance GameState_countable : Countable GameState :=
  inj_countable' (fun g => (sequencer g, challenger g, low (range g), high (range g),
      pending_midpoint g, depth g, (turn g, sequencer_bond g, challenger_bond g, status g,
      deployment_id g, actions_root g)))
    (fun '(s, c, lo, hi, p, d, (t, sb, cb, st, di, a)) =>
      {| sequencer := s; challenger := c; range := {| low := lo; high := hi |};
         pending_midpoint := p; depth := d; turn := t; sequencer_bond := sb; challenger_bond := cb;
         status := st; deployment_id := di; actions_root := a |}) ltac:(by intros [? ? [] ? ? ? ? ? ? ? ?]).
#[global] Instance MoveKind_countable : Countable MoveKind :=
  inj_countable' (fun k => match k with KindUnknown => 0 | KindSubmit => 1 | KindRespond => 2
                           | KindTerminate => 3 | KindTimeout => 4 end)
    (fun n => if decide (n = 0) then KindUnknown else if decide (n = 1) then KindSubmit
       else if decide (n = 2) then KindRespond else if decide (n = 3) then KindTerminate
       else KindTimeout) ltac:(by intros []).

Definition game_pack (r : GameRecord) :=
  (game_id r, game_state r, me r, last_updated_block r, state_known r, turn_deadline r, disputed_log_index r).
Definition response_pack (r : ResponseRecord) :=
  (tx_hash_hex r, raw_tx_hex r, resp_game_id r,
   match resp_status r with Intent => 0 | Pending => 1 | Confirmed => 2 | Dropped => 3 | Failed => 4 end,
   submitted_at_block r, resp_depth r, pivot_idx r, move_kind r).
Definition batch_pack (r : BatchRecord) :=
  (batch_end_index r, batch_prev_end_index r, batch_record_root r, batch_state_commit r, batch_block_number r).
Definition header_image (h : BlockHeader) : list u8 :=
  to_be_bytes 8 (number h) ++ header_hash h ++ parent_hash h.

Fixpoint headers_of (fuel : nat) (bs : list u8) : option (list BlockHeader) :=
  match fuel, bs with
  | S fuel, _ :: _ =>
      cons {| number := from_be_bytes (take 8 bs); header_hash := take 32 (drop 8 bs);
              parent_hash := take 32 (drop 40 bs) |} <$> headers_of fuel (drop 72 bs)
  | _, _ => Some []
  end.

Lemma header_image_length h : header_typed h → length (header_image h) = 72%nat.
Proof. intros (_ & Hh & Hp). unfold header_image. by rewrite !length_app, to_be_bytes_length, Hh, Hp. Qed.

Lemma headers_bytes_length hs : Forall header_typed hs → length (hs ≫= header_image) = (72 * length hs)%nat.
Proof.
  induction 1 as [|h hs Hh _ IH]; [done|].
  change ((h :: hs) ≫= header_image) with (header_image h ++ (hs ≫= header_image)).
  rewrite length_app, IH, header_image_length by done. cbn. lia.
Qed.

Lemma headers_of_bytes hs fuel :
  Forall header_typed hs → (length hs ≤ fuel)%nat → headers_of fuel (hs ≫= header_image) = Some hs.
Proof.
  intros Hall. revert fuel. induction Hall as [|h hs Hh _ IH]; intros fuel Hf; [by destruct fuel|].
  destruct fuel as [|fuel]; [cbn in Hf; lia|]. cbn [length] in Hf.
  change ((h :: hs) ≫= header_image) with (header_image h ++ (hs ≫= header_image)).
  pose proof (header_image_length h Hh) as Hlen. destruct Hh as (Hn & Hhash & Hp).
  set (rest := hs ≫= header_image) in *.
  assert (H72 : drop 72 (header_image h ++ rest) = rest) by (by apply drop_app_length').
  assert (H8 : take 8 (header_image h ++ rest) = to_be_bytes 8 (number h)).
  { unfold header_image. rewrite <- app_assoc. by apply take_app_length'. }
  assert (H40 : take 32 (drop 8 (header_image h ++ rest)) = header_hash h).
  { unfold header_image. rewrite <- !app_assoc, drop_app_length' by done. by apply take_app_length'. }
  assert (Hpar : take 32 (drop 40 (header_image h ++ rest)) = parent_hash h).
  { unfold header_image. rewrite <- !app_assoc, (app_assoc (to_be_bytes 8 _)).
    rewrite drop_app_length' by (by rewrite length_app, to_be_bytes_length, Hhash).
    by apply take_app_length'. }
  destruct (header_image h ++ rest) as [|x l] eqn:Hx; [apply (f_equal length) in Hx; rewrite length_app in Hx; cbn in Hx; lia|].
  cbn [headers_of]. rewrite <- Hx in *. rewrite H8, H40, Hpar, H72, from_to_be_bytes by done.
  rewrite (IH fuel) by lia. by destruct h.
Qed.

#[local] Instance demo_observer_json : ObserverJson := {|
  game_to_json r := bits_bytes (encode (game_pack r));
  game_from_json bs := (fun '(i, s, m, l, k, t, d) =>
    {| game_id := i; game_state := s; me := m; last_updated_block := l; state_known := k;
       turn_deadline := t; disputed_log_index := d |}) <$> decode (bytes_bits bs);
  response_to_json r := bits_bytes (encode (response_pack r));
  response_from_json bs := (fun '(h, raw, g, st, b, d, p, k) =>
    {| tx_hash_hex := h; raw_tx_hex := raw; resp_game_id := g;
       resp_status := if decide (st = 0) then Intent else if decide (st = 1) then Pending
         else if decide (st = 2) then Confirmed else if decide (st = 3) then Dropped else Failed;
       submitted_at_block := b; resp_depth := d; pivot_idx := p; move_kind := k |})
    <$> decode (bytes_bits bs);
  batch_to_json r := bits_bytes (encode (batch_pack r));
  batch_from_json bs := (fun '(e, p, a, c, b) =>
    {| batch_end_index := e; batch_prev_end_index := p; batch_record_root := a;
       batch_state_commit := c; batch_block_number := b |}) <$> decode (bytes_bits bs);
  headers_to_json hs := hs ≫= header_image;
  headers_from_json bs := headers_of (length bs) bs;
|}.

#[local] Instance demo_observer_json_ok : ObserverJsonOk.
Proof.
  split.
  - intros []. cbn -[encode decode]. by rewrite decode_bits.
  - intros [? ? ? []]; cbn -[encode decode]; by rewrite decode_bits.
  - intros []. cbn -[encode decode]. by rewrite decode_bits.
  - intros hs Hall. cbn. apply headers_of_bytes; [done|]. rewrite headers_bytes_length by done. lia.
  - intros hs Hall. cbn. rewrite headers_bytes_length by done. lia.
Qed.

#[local] Existing Instances demo_hex demo_hex_ok.
#[local] Instance demo_storage : StorageWorld () := {| storage_fault w := (false, w) |}.

Definition demo_game_record : GameRecord :=
  {| game_id := 3; game_state := observed_state (observed_of demo_l1_game); me := Challenger;
     last_updated_block := 60; state_known := true; turn_deadline := Some 70;
     disputed_log_index := Some 10 |}.

Definition demo_response : ResponseRecord :=
  {| tx_hash_hex := hex_encode (zeros 32); raw_tx_hex := Some []; resp_game_id := 3;
     resp_status := Intent; submitted_at_block := 60; resp_depth := 2; pivot_idx := Some 6;
     move_kind := KindRespond |}.

Definition demo_batch : PersistBatch :=
  {| batch_games := [demo_game_record]; batch_responses := [demo_response]; batch_batches := [];
     batch_cursor := Some 60; batch_window := Some [demo_block 60] |}.

Lemma persistence_refines_witness :
  ∃ db v, represents db v ∧ v_games v = {[3 := demo_game_record]} ∧ v_cursor v = Some 60 ∧
    reads (W := ()) kv_read_cursor db (fun c => c = Some 60).
Proof.
  destruct (persistence_refines (W := ()) {[IDENTIFIER_KEY := OBSERVER_IDENTIFIER]} empty_view
              demo_batch ()) as [Hc _].
  - apply represents_empty.
  - split; cbn [demo_batch batch_games batch_responses batch_batches batch_cursor batch_window].
    + constructor; [by vm_compute|constructor].
    + constructor; [|constructor]. split; [eexists; by vm_compute|by vm_compute].
    + constructor.
    + by intros n [= <-].
    + intros hs [= <-]. split; [cbn; unfold MAX_REORG_WINDOW_CAPACITY; lia|].
      constructor; [by vm_compute|constructor].
  - destruct (kv_commit_batch demo_batch {[IDENTIFIER_KEY := OBSERVER_IDENTIFIER]} ()) as [[r db] w] eqn:Hrun.
    assert (Hok : r = Ok ()) by (apply (f_equal (fun x => x.1.1)) in Hrun; by vm_compute in Hrun).
    subst r. exists db, (apply_batch empty_view demo_batch). split; [exact Hc|]. split; [by vm_compute|].
    split; [done|]. by apply read_cursor_shows in Hc.
Defined.
