(* ===== verification/Observer.v ===== *)
(** * The fault-proof observer

    [src/runtime/knomosis-faultproof-observer/src/observer.rs], with the errors
    of [error.rs]: the daemon that follows the games on L1, plays the honest
    move when it is its turn, claims timeouts, and keeps a record of every
    transaction before it sends it.

    The loop is translated call by call.  Its surroundings are the class
    [ObserverWorld]: the L1 source, the RPC behind the game-state reader, the
    submitter, the two oracles, the iteration order of the hash maps, the stop
    flag, and whether the process is killed, which may happen before any call.
    The database is the interface [Store].  A run returns its effects in order.
    The counters of moves and failures are taken not to overflow. *)

From Stdlib Require Import ZArith Lia.
From Stdlib Require Strings.String.
From stdpp Require Import base numbers list gmap.
From S2P Require Import Prelude Encoding FaultGame Calldata Events Reorg Source Game GameReader.
From S2P Require Import GameEvents ObserverWatch ObserverStore.

Local Open Scope Z_scope.

(** ** Configuration and errors *)

Record ObserverConfig : Type := {
  watcher_cfg : WatcherConfig;
  poll_interval : Z;
  play_as : TurnSide;
  cfg_deployment_id : list u8;
  max_broadcast_attempts : Z;
}.

Definition DEFAULT_POLL_INTERVAL : Z := 12 * 1000.
Definition DEFAULT_MAX_BROADCAST_ATTEMPTS : Z := 8.

Definition ObserverConfig_new (watcher : WatcherConfig) (deployment_id : list u8) : ObserverConfig :=
  {| watcher_cfg := watcher; poll_interval := DEFAULT_POLL_INTERVAL; play_as := Challenger;
     cfg_deployment_id := deployment_id;
     max_broadcast_attempts := DEFAULT_MAX_BROADCAST_ATTEMPTS |}.

(** What [mark_state_known] refuses. *)
Inductive StateRefusal : Type := ForeignDeployment | SettledGame | DegenerateState.

Inductive ObserverError : Type :=
| ObserverSource (e : SourceError)
| ObserverReorg (e : ReorgError)
| ObserverDecode (e : EventDecodeError)
| ObserverStorage (e : PersistenceError)
| ObserverConfigError (e : WatcherError)
| ObserverInvariant (e : StateRefusal).

Inductive OperatorExitCode : Type := Transient | OperatorAction | Unavailable.

Definition exit_code (self : ObserverError) : OperatorExitCode :=
  match self with
  | ObserverSource (SourceTransport _ | BlockNotFound _) | ObserverReorg (NonMonotone _ _) => Transient
  | ObserverReorg (DeepReorg _ _ | OrphanedParent _) | ObserverConfigError _ | ObserverInvariant _ =>
      OperatorAction
  | ObserverSource (SourceMalformed _) | ObserverDecode _ => Unavailable
  | ObserverStorage _ => OperatorAction
  end.

(** ** State *)

Record PreparedTx : Type := { prepared_hash : list u8; raw_bytes : list u8 }.

(** What a submission is deduplicated by: the game, the kind of move and the
    pivot. *)
Abbreviation pivot_key := (Z * MoveKind * option Z)%type.

Record PendingBroadcast : Type := { prepared : PreparedTx; pending_key : pivot_key }.

Record QueuedCall : Type := {
  call_game_id : Z;
  call_depth : Z;
  calldata : list u8;
  call_kind : MoveKind;
  call_pivot : option Z;
}.

Definition key_of_call (call : QueuedCall) : pivot_key :=
  (call_game_id call, call_kind call, call_pivot call).
Definition key_of_record (r : ResponseRecord) : pivot_key :=
  (resp_game_id r, move_kind r, pivot_idx r).

(** Whether the two optional collaborators are attached is a flag here; what they
    answer is the world's. *)
Record Observer (S : Type) : Type := {
  config : ObserverConfig;
  watcher : Watcher;
  persistence : S;
  has_bundle_oracle : bool;
  has_state_reader : bool;
  games : gmap Z GameRecord;
  batches : gmap Z BatchRecord;
  submitted_pivots : gset pivot_key;
  iteration_pivot_inserts : list pivot_key;
  broadcast_failures : gmap pivot_key Z;
  pending_broadcasts : list PendingBroadcast;
}.
Arguments config {S}. Arguments watcher {S}. Arguments persistence {S}.
Arguments has_bundle_oracle {S}. Arguments has_state_reader {S}. Arguments games {S}.
Arguments batches {S}. Arguments submitted_pivots {S}. Arguments iteration_pivot_inserts {S}.
Arguments broadcast_failures {S}. Arguments pending_broadcasts {S}.

Inductive EventHandling : Type := Recorded | Submitted | Skipped.

Record IterationOutcome : Type := {
  event_count : Z;
  submitted_moves : Z;
  outcome_reorg : bool;
  new_cursor : option Z;
}.

(** ** Moves *)

Definition move_kind_of (mv : HonestMove) : MoveKind :=
  match mv with
  | NoMove => KindUnknown
  | Submit _ => KindSubmit
  | HonestAgree | HonestDisagree => KindRespond
  | HonestTerminate _ => KindTerminate
  end.

Definition pivot_for_move (st : GameState) (mv : HonestMove) : option Z :=
  match mv with
  | NoMove => None
  | Submit c => Some (idx c)
  | HonestAgree | HonestDisagree => idx <$> pending_midpoint st
  | HonestTerminate _ => Some (idx (high (range st)))
  end.

(** ** The world *)

Class ObserverWorld (W : Type) : Type := {
  #[global] observer_source :: L1Source W;
  eth_call : W → (list u8 → rpc_answer) * W;
  build_and_sign : list u8 → W → result PreparedTx SubmitError * W;
  broadcast : PreparedTx → W → result () SubmitError * W;
  invalidate_nonce_cache : W → W;
  truth_oracle : W → TruthOracle * W;
  terminate_bundle_at : Z → option (Z * Z) → W → result TerminateBundle TerminateBundleError * W;
  hash_order : list Z → W → list Z * W;
  stop_requested : W → bool * W;
  killed : W → bool * W;
}.

(** What a run does: it signs, commits a batch, broadcasts, records the outcome,
    has a call of the database fail, or goes on although the outcome of a
    broadcast could not be recorded. *)
Inductive effect : Type :=
| Signed (key : pivot_key) (calldata : list u8) (tx : PreparedTx)
| Committed (batch : PersistBatch)
| Broadcasted (key : pivot_key) (tx : PreparedTx) (r : result () SubmitError)
| StatusStored (rec : ResponseRecord)
| StorageFailed
| OutcomeLost (rec : ResponseRecord).

(** How a computation ends early: an error that is returned, the process killed,
    or the bound on the rounds that are looked at. *)
Inductive halt : Type :=
| ObsError (e : ObserverError)
| ObsKilled
| ObsRunning.

(** ** Updates of the state *)

Section Updates.
Context {S : Type}.

Definition with_watcher (w : Watcher) (l : Observer S) : Observer S :=
  {| config := config l; watcher := w; persistence := persistence l;
     has_bundle_oracle := has_bundle_oracle l; has_state_reader := has_state_reader l;
     games := games l; batches := batches l; submitted_pivots := submitted_pivots l;
     iteration_pivot_inserts := iteration_pivot_inserts l;
     broadcast_failures := broadcast_failures l; pending_broadcasts := pending_broadcasts l |}.

Definition with_persistence (s : S) (l : Observer S) : Observer S :=
  {| config := config l; watcher := watcher l; persistence := s;
     has_bundle_oracle := has_bundle_oracle l; has_state_reader := has_state_reader l;
     games := games l; batches := batches l; submitted_pivots := submitted_pivots l;
     iteration_pivot_inserts := iteration_pivot_inserts l;
     broadcast_failures := broadcast_failures l; pending_broadcasts := pending_broadcasts l |}.

Definition with_games (g : gmap Z GameRecord) (l : Observer S) : Observer S :=
  {| config := config l; watcher := watcher l; persistence := persistence l;
     has_bundle_oracle := has_bundle_oracle l; has_state_reader := has_state_reader l;
     games := g; batches := batches l; submitted_pivots := submitted_pivots l;
     iteration_pivot_inserts := iteration_pivot_inserts l;
     broadcast_failures := broadcast_failures l; pending_broadcasts := pending_broadcasts l |}.

Definition with_batches (b : gmap Z BatchRecord) (l : Observer S) : Observer S :=
  {| config := config l; watcher := watcher l; persistence := persistence l;
     has_bundle_oracle := has_bundle_oracle l; has_state_reader := has_state_reader l;
     games := games l; batches := b; submitted_pivots := submitted_pivots l;
     iteration_pivot_inserts := iteration_pivot_inserts l;
     broadcast_failures := broadcast_failures l; pending_broadcasts := pending_broadcasts l |}.

Definition with_pivots (p : gset pivot_key) (ins : list pivot_key) (l : Observer S) : Observer S :=
  {| config := config l; watcher := watcher l; persistence := persistence l;
     has_bundle_oracle := has_bundle_oracle l; has_state_reader := has_state_reader l;
     games := games l; batches := batches l; submitted_pivots := p;
     iteration_pivot_inserts := ins;
     broadcast_failures := broadcast_failures l; pending_broadcasts := pending_broadcasts l |}.

Definition with_failures (f : gmap pivot_key Z) (l : Observer S) : Observer S :=
  {| config := config l; watcher := watcher l; persistence := persistence l;
     has_bundle_oracle := has_bundle_oracle l; has_state_reader := has_state_reader l;
     games := games l; batches := batches l; submitted_pivots := submitted_pivots l;
     iteration_pivot_inserts := iteration_pivot_inserts l;
     broadcast_failures := f; pending_broadcasts := pending_broadcasts l |}.

Definition with_pending (p : list PendingBroadcast) (l : Observer S) : Observer S :=
  {| config := config l; watcher := watcher l; persistence := persistence l;
     has_bundle_oracle := has_bundle_oracle l; has_state_reader := has_state_reader l;
     games := games l; batches := batches l; submitted_pivots := submitted_pivots l;
     iteration_pivot_inserts := iteration_pivot_inserts l;
     broadcast_failures := broadcast_failures l; pending_broadcasts := p |}.

End Updates.

(** [let mut new_rec = rec.clone()] with a new state and block, and with the
    deadline forgotten where the code forgets it. *)
Definition update_record (rec : GameRecord) (st : GameState) (block : Z) (deadline : option Z)
    : GameRecord :=
  {| game_id := game_id rec; game_state := st; me := me rec; last_updated_block := block;
     state_known := state_known rec; turn_deadline := deadline;
     disputed_log_index := disputed_log_index rec |}.

(** The state of a game that is known by its opening event only. *)
Definition synthesised_state (deployment_id : list u8) (disputed_state_root : StateCommit) : GameState :=
  {| sequencer := 0; challenger := 0;
     range := {| low := {| idx := 0; commit := zeros 32 |};
                 high := {| idx := 0; commit := disputed_state_root |} |};
     pending_midpoint := None; depth := 0; turn := Sequencer; sequencer_bond := 0;
     challenger_bond := 0; status := InProgress; deployment_id := deployment_id;
     actions_root := zeros 32 |}.

(** The updates of a game that is not known yet. *)
Definition cold_midpoint (st : GameState) (i : Z) (c : StateCommit) : GameState :=
  {| sequencer := sequencer st; challenger := challenger st; range := range st;
     pending_midpoint := Some {| idx := i; commit := c |}; depth := depth st;
     turn := flip (turn st); sequencer_bond := sequencer_bond st;
     challenger_bond := challenger_bond st; status := status st;
     deployment_id := deployment_id st; actions_root := actions_root st |}.

Definition cold_response (st : GameState) : GameState :=
  {| sequencer := sequencer st; challenger := challenger st; range := range st;
     pending_midpoint := None;
     depth := Z.min (saturating_add 32 (depth st) 1) (MAX_BISECTION_DEPTH + 1);
     turn := flip (turn st); sequencer_bond := sequencer_bond st;
     challenger_bond := challenger_bond st; status := status st;
     deployment_id := deployment_id st; actions_root := actions_root st |}.

(** The record [mark_state_known] writes. *)
Definition known_record (rec : GameRecord) (observed : ObservedGame) (block : Z) : GameRecord :=
  {| game_id := game_id rec; game_state := observed_state observed; me := me rec;
     last_updated_block := block; state_known := true;
     turn_deadline := Some (observed_deadline observed);
     disputed_log_index := Some (observed_disputed observed) |}.

Definition set_response_status (r : ResponseRecord) (st : ResponseStatus) : ResponseRecord :=
  {| tx_hash_hex := tx_hash_hex r; raw_tx_hex := raw_tx_hex r; resp_game_id := resp_game_id r;
     resp_status := st; submitted_at_block := submitted_at_block r; resp_depth := resp_depth r;
     pivot_idx := pivot_idx r; move_kind := move_kind r |}.

Definition selects (p : GameRecord → bool) (m : gmap Z GameRecord) (i : Z) : bool :=
  match m !! i with Some r => p r | None => false end.

(** ** The loop *)

Section Observing.
Context {S W : Type} `{Store S W} `{ObserverWorld W} `{Hex}.
Variable keccak256 : list u8 → list u8.

Definition observing (A : Type) : Type :=
  Observer S → W → result A halt * Observer S * W * list effect.

#[global] Instance observing_ret : MRet observing := fun A a l w => (Ok a, l, w, []).
#[global] Instance observing_bind : MBind observing := fun A B k m l w =>
  let '(r, l1, w1, t1) := m l w in
  match r with
  | Ok a => let '(r2, l2, w2, t2) := k a l1 w1 in (r2, l2, w2, t1 ++ t2)
  | Err e => (Err e, l1, w1, t1)
  end.

Definition raise {A} (e : ObserverError) : observing A := fun l w => (Err (ObsError e), l, w, []).
Definition self : observing (Observer S) := fun l w => (Ok l, l, w, []).
Definition modify (f : Observer S → Observer S) : observing () := fun l w => (Ok (), f l, w, []).

Definition tell (t : list effect) : observing () := fun l w => (Ok (), l, w, t).

(** A handler that looks at an error that was returned. *)
Definition try_ {A} (m : observing A) : observing (result A ObserverError) := fun l w =>
  let '(r, l, w, t) := m l w in
  match r with
  | Ok a => (Ok (Ok a), l, w, t)
  | Err (ObsError e) => (Ok (Err e), l, w, t)
  | Err h => (Err h, l, w, t)
  end.

(** A call of the world, before which the process may be killed. *)
Definition call {A} (f : W → A * W) (report : A → list effect) : observing A := fun l w =>
  let '(dead, w) := killed w in
  if dead : bool then (Err ObsKilled, l, w, []) else
  let '(a, w) := f w in (Ok a, l, w, report a).

Definition ask {A} (f : W → A * W) : observing A := call f (fun _ => []).

(** A call of the database. *)
Definition storage {A} (m : S → W → result A PersistenceError * S * W) (report : list effect)
    : observing A := fun l w =>
  let '(dead, w) := killed w in
  if dead : bool then (Err ObsKilled, l, w, []) else
  let '(r, s, w) := m (persistence l) w in
  match r with
  | Ok a => (Ok a, with_persistence s l, w, report)
  | Err e => (Err (ObsError (ObserverStorage e)), with_persistence s l, w, [StorageFailed])
  end.

Definition commit (batch : PersistBatch) : observing () := storage (commit_batch batch) [Committed batch].

(** *** Reading the state of games *)

Definition mark_state_known (gid : Z) (observed : ObservedGame) (block_number : Z) : observing bool :=
  l ← self;
  match games l !! gid with
  | None => mret false
  | Some rec =>
      let full_state := observed_state observed in
      if decide (deployment_id full_state ≠ cfg_deployment_id (config l))
      then raise (ObserverInvariant ForeignDeployment) else
      if is_terminal (status (game_state rec)) && is_in_progress (status full_state)
      then raise (ObserverInvariant SettledGame) else
      if decide (idx (high (range full_state)) ≤ idx (low (range full_state)))
      then raise (ObserverInvariant DegenerateState) else
      let new_rec := known_record rec observed block_number in
      modify (fun l => with_games (<[gid := new_rec]> (games l)) l);;
      commit (upsert_game PersistBatch_new new_rec);;
      mret true
  end.

(** [reader.read_and_validate(game_id, self.config.deployment_id)]. *)
Definition read_state (gid : Z) : observing (result ObservedGame GameStateReadError) :=
  l ← self;
  rpc ← ask eth_call;
  mret (read_and_validate rpc gid (cfg_deployment_id (config l))).

Fixpoint hydrate_games (ids : list Z) (block_number : Z) (hydrated errors : Z) : observing (Z * Z) :=
  match ids with
  | [] => mret (hydrated, errors)
  | gid :: ids =>
      r ← read_state gid;
      match r with
      | Ok observed =>
          marked ← try_ (mark_state_known gid observed block_number);
          match marked with
          | Ok true => hydrate_games ids block_number (hydrated + 1) errors
          | Ok false => hydrate_games ids block_number hydrated errors
          | Err _ => hydrate_games ids block_number hydrated (errors + 1)
          end
      | Err _ => hydrate_games ids block_number hydrated (errors + 1)
      end
  end.

(** The ids of the games that satisfy [p], in the order the hash map has. *)
Definition game_ids (p : GameRecord → bool) (m : gmap Z GameRecord) : observing (list Z) :=
  ask (hash_order (filter (fun i => selects p m i = true) (map_to_list m).*1)).

Definition hydrate_cold_start_games (block_number : Z) : observing (Z * Z) :=
  l ← self;
  ids ← game_ids (fun rec => negb (state_known rec)) (games l);
  hydrate_games ids block_number 0 0.

(** *** Broadcasting *)

Definition release_pivot_after_broadcast_failure (key : pivot_key) : observing () :=
  l ← self;
  let failures := default 0 (broadcast_failures l !! key) + 1 in
  modify (fun l => with_failures (<[key := failures]> (broadcast_failures l)) l);;
  if decide (max_broadcast_attempts (config l) ≤ failures) then mret ()
  else modify (fun l => with_pivots (submitted_pivots l ∖ {[key]})
                          (filter (fun k => k ≠ key) (iteration_pivot_inserts l)) l).

Definition broadcast_and_update_status (pending : PendingBroadcast) : observing () :=
  let tx := prepared pending in
  r ← call (broadcast tx) (fun r => [Broadcasted (pending_key pending) tx r]);
  new_status ←
    match r with
    | Ok _ => mret Pending
    | Err _ =>
        ask (fun w => ((), invalidate_nonce_cache w));;
        release_pivot_after_broadcast_failure (pending_key pending);;
        mret Failed
    end;
  found ← storage (load_response (prepared_hash tx)) [];
  match found with
  | Some existing =>
      let rec := set_response_status existing new_status in
      storage (store_response rec) [StatusStored rec]
  | None => mret ()
  end.

(** The transaction of an intent record, when both of its fields are hex. *)
Definition pending_of_record (rec : ResponseRecord) : option PendingBroadcast :=
  raw ← raw_tx_hex rec;
  raw ← hex_decode raw;
  tx_hash ← hex_decode (tx_hash_hex rec);
  if decide (length tx_hash = 32%nat)
  then Some {| prepared := {| prepared_hash := tx_hash; raw_bytes := raw |};
               pending_key := key_of_record rec |}
  else None.

Fixpoint rebroadcast (recs : list ResponseRecord) : observing () :=
  match recs with
  | [] => mret ()
  | rec :: recs =>
      if decide (resp_status rec = Intent) then
        match pending_of_record rec with
        | Some pending =>
            r ← try_ (broadcast_and_update_status pending);
            match r with
            | Ok _ => rebroadcast recs
            | Err _ => tell [OutcomeLost rec];; rebroadcast recs
            end
        | None => rebroadcast recs
        end
      else rebroadcast recs
  end.

Definition recover_intent_records : observing () :=
  recs ← storage list_responses [];
  rebroadcast recs.

Fixpoint broadcast_all (ps : list PendingBroadcast) : observing () :=
  match ps with
  | [] => mret ()
  | p :: ps => broadcast_and_update_status p;; broadcast_all ps
  end.

(** *** Playing moves *)

Definition has_submitted_for_pivot (l : Observer S) (key : pivot_key) : bool :=
  bool_decide (key ∈ submitted_pivots l).

(** The calldata of the terminal step, from the bundle of the disputed batch. *)
Definition build_terminate_calldata (rec : GameRecord) (mv : HonestMove) : observing (option (list u8)) :=
  l ← self;
  if negb (has_bundle_oracle l) then mret None else
  let pivot := idx (low (range (game_state rec))) in
  match disputed_log_index rec with
  | None => mret None
  | Some disputed_end =>
      match batches l !! disputed_end with
      | None => mret None
      | Some batch_rec =>
          if decide (pivot < batch_prev_end_index batch_rec ∨ batch_end_index batch_rec ≤ pivot)
          then mret None else
          r ← ask (terminate_bundle_at pivot
                     (Some (batch_prev_end_index batch_rec, batch_end_index batch_rec)));
          match r with
          | Err _ => mret None
          | Ok bundle =>
              match encode_calldata_with_bundle keccak256 (game_id rec) mv (Some bundle) with
              | Ok c => mret (Some c)
              | Err _ => mret None
              end
          end
      end
  end.

Definition build_calldata_for_move (rec : GameRecord) (mv : HonestMove) : observing (option (list u8)) :=
  match mv with
  | HonestTerminate _ => build_terminate_calldata rec mv
  | _ =>
      match encode_calldata keccak256 (game_id rec) mv with
      | Ok c => mret (Some c)
      | Err _ => mret None
      end
  end.

(** The record of a call that is about to be made. *)
Definition intent_record (qc : QueuedCall) (tx : PreparedTx) (block_number : Z) : ResponseRecord :=
  {| tx_hash_hex := hex_encode (prepared_hash tx); raw_tx_hex := Some (hex_encode (raw_bytes tx));
     resp_game_id := call_game_id qc; resp_status := Intent; submitted_at_block := block_number;
     resp_depth := call_depth qc; pivot_idx := call_pivot qc; move_kind := call_kind qc |}.

Definition queue_l1_call (qc : QueuedCall) (block_number : Z) (batch : PersistBatch)
    : observing (bool * PersistBatch) :=
  let key := key_of_call qc in
  r ← call (build_and_sign (calldata qc))
        (fun r => match r with Ok tx => [Signed key (calldata qc) tx] | Err _ => [] end);
  match r with
  | Err _ => mret (false, batch)
  | Ok tx =>
      modify (fun l => if decide (key ∈ submitted_pivots l) then l
                       else with_pivots ({[key]} ∪ submitted_pivots l)
                              (iteration_pivot_inserts l ++ [key]) l);;
      modify (fun l => with_pending
        (pending_broadcasts l ++ [{| prepared := tx; pending_key := key |}]) l);;
      mret (true, upsert_response batch (intent_record qc tx block_number))
  end.

(** The end of [maybe_play_move], for the move it has computed. *)
Definition queue_move (rec : GameRecord) (mv : HonestMove) (block_number : Z) (batch : PersistBatch)
    : observing (option bool * PersistBatch) :=
  let st := game_state rec in
  cd ← build_calldata_for_move rec mv;
  match cd with
  | None => mret (Some false, batch)
  | Some cd =>
      let qc := {| call_game_id := game_id rec; call_depth := depth st; calldata := cd;
                   call_kind := move_kind_of mv; call_pivot := pivot_for_move st mv |} in
      l ← self;
      if has_submitted_for_pivot l (key_of_call qc) then mret (Some false, batch) else
      r ← queue_l1_call qc block_number batch;
      mret (Some r.1, r.2)
  end.

Definition maybe_play_move (rec : GameRecord) (block_number : Z) (batch : PersistBatch)
    : observing (option bool * PersistBatch) :=
  let st := game_state rec in
  if negb (is_in_progress (status st)) then mret (None, batch) else
  if decide (turn st ≠ me rec) then mret (None, batch) else
  if negb (state_known rec) then mret (Some false, batch) else
  oracle ← ask truth_oracle;
  match compute_next_move oracle st (me rec) with
  | Err _ => mret (Some false, batch)
  | Ok NoMove => mret (Some false, batch)
  | Ok mv => queue_move rec mv block_number batch
  end.

(** *** Events *)

(** [self.games.insert(..); batch.upsert_game(..)]. *)
Definition put_record (gid : Z) (rec : GameRecord) (batch : PersistBatch) : observing PersistBatch :=
  modify (fun l => with_games (<[gid := rec]> (games l)) l);;
  mret (upsert_game batch rec).

(** The end of a handler that has moved a known game. *)
Definition then_play (rec : GameRecord) (block_number : Z) (batch : PersistBatch)
    : observing (EventHandling * PersistBatch) :=
  r ← maybe_play_move rec block_number batch;
  mret (match r.1 with Some true => Submitted | _ => Recorded end, r.2).

Definition handle_game_opened (gid : Z) (disputed_state_root challenger_state_root : StateCommit)
    (block_number : Z) (batch : PersistBatch) : observing (EventHandling * PersistBatch) :=
  l ← self;
  match games l !! gid with
  | Some _ => mret (Skipped, batch)
  | None =>
      let rec := {| game_id := gid;
        game_state := synthesised_state (cfg_deployment_id (config l)) disputed_state_root;
        me := play_as (config l); last_updated_block := block_number; state_known := false;
        turn_deadline := None; disputed_log_index := None |} in
      batch ← put_record gid rec batch;
      mret (Recorded, batch)
  end.

Definition handle_midpoint_submitted (gid i : Z) (c : StateCommit) (block_number : Z)
    (batch : PersistBatch) : observing (EventHandling * PersistBatch) :=
  l ← self;
  match games l !! gid with
  | None => mret (Skipped, batch)
  | Some rec =>
      let st := game_state rec in
      if negb (state_known rec) then
        if negb (is_in_progress (status st)) then mret (Skipped, batch) else
        batch ← put_record gid (update_record rec (cold_midpoint st i c) block_number (turn_deadline rec)) batch;
        mret (Recorded, batch)
      else if decide (i ≠ midpoint_idx (range st)) then mret (Recorded, batch) else
      match apply_transition st (SubmitMidpoint c) with
      | Ok st' =>
          let new_rec := update_record rec st' block_number None in
          batch ← put_record gid new_rec batch;
          then_play new_rec block_number batch
      | Err _ => mret (Skipped, batch)
      end
  end.

Definition handle_response_submitted (gid : Z) (agree : bool) (block_number : Z)
    (batch : PersistBatch) : observing (EventHandling * PersistBatch) :=
  l ← self;
  match games l !! gid with
  | None => mret (Skipped, batch)
  | Some rec =>
      let st := game_state rec in
      if negb (state_known rec) then
        if negb (is_in_progress (status st)) then mret (Skipped, batch) else
        batch ← put_record gid (update_record rec (cold_response st) block_number (turn_deadline rec)) batch;
        mret (Recorded, batch)
      else
      match apply_transition st (if agree then RespondAgree else RespondDisagree) with
      | Ok st' =>
          let new_rec := update_record rec st' block_number None in
          batch ← put_record gid new_rec batch;
          then_play new_rec block_number batch
      | Err _ => mret (Skipped, batch)
      end
  end.

Definition handle_game_settled (gid : Z) (final : GameStatus) (block_number : Z)
    (batch : PersistBatch) : observing (EventHandling * PersistBatch) :=
  l ← self;
  match games l !! gid with
  | None => mret (Skipped, batch)
  | Some rec =>
      if is_in_progress final then mret (Skipped, batch) else
      match apply_settlement (game_state rec) final with
      | Ok st' =>
          batch ← put_record gid (update_record rec st' block_number None) batch;
          mret (Recorded, batch)
      | Err _ => mret (Skipped, batch)
      end
  end.

Definition handle_state_root (rec : BatchRecord) (batch : PersistBatch)
    : observing (EventHandling * PersistBatch) :=
  modify (fun l => with_batches (<[batch_end_index rec := rec]> (batches l)) l);;
  mret (Recorded, upsert_batch batch rec).

Definition handle_event (e : GameEvent) (batch : PersistBatch)
    : observing (EventHandling * PersistBatch) :=
  match e with
  | GameOpened gid _ disputed challenger _ =>
      handle_game_opened gid disputed challenger (event_block e) batch
  | MidpointSubmitted gid _ i c _ => handle_midpoint_submitted gid i c (event_block e) batch
  | ResponseSubmitted gid _ agree _ => handle_response_submitted gid agree (event_block e) batch
  | GameSettled gid final _ _ _ => handle_game_settled gid final (event_block e) batch
  | StateRootSubmitted claim c _ prev_end root _ =>
      handle_state_root {| batch_end_index := claim; batch_prev_end_index := prev_end;
        batch_record_root := root; batch_state_commit := c; batch_block_number := event_block e |} batch
  end.

Fixpoint handle_events (es : list GameEvent) (batch : PersistBatch) (moves : Z)
    : observing (Z * PersistBatch) :=
  match es with
  | [] => mret (moves, batch)
  | e :: es =>
      r ← handle_event e batch;
      handle_events es r.2 (match r.1 with Submitted => moves + 1 | _ => moves end)
  end.

(** *** Sweeps *)

Definition now (l : Observer S) : Z := default 0 (last_confirmed_block (watcher l)).

Definition owed (rec : GameRecord) : bool :=
  is_in_progress (status (game_state rec)) && bool_decide (turn (game_state rec) = me rec).

(** The loop over the records cloned from [m]. *)
Fixpoint play_owed (m : gmap Z GameRecord) (ids : list Z) (block : Z) (batch : PersistBatch)
    (submitted : Z) : observing (Z * PersistBatch) :=
  match ids with
  | [] => mret (submitted, batch)
  | gid :: ids =>
      match m !! gid with
      | None => play_owed m ids block batch submitted
      | Some rec =>
          r ← maybe_play_move rec block batch;
          play_owed m ids block r.2 (match r.1 with Some true => submitted + 1 | _ => submitted end)
      end
  end.

Definition sweep_owed_moves (batch : PersistBatch) : observing (Z * PersistBatch) :=
  l ← self;
  ids ← game_ids owed (games l);
  play_owed (games l) ids (now l) batch 0.

Definition claimable (l : Observer S) (rec : GameRecord) : bool :=
  state_known rec && is_in_progress (status (game_state rec)) &&
  negb (bool_decide (turn (game_state rec) = me rec)) &&
  match turn_deadline rec with Some d => d <? now l | None => true end &&
  negb (has_submitted_for_pivot l (game_id rec, KindTimeout, None)).

(** A record after the confirming read. *)
Definition refreshed (rec : GameRecord) (observed : ObservedGame) (block : Z) : GameRecord :=
  update_record rec (observed_state observed) block (Some (observed_deadline observed)).

Definition timeout_call (gid : Z) (rec : GameRecord) : QueuedCall :=
  {| call_game_id := gid; call_depth := depth (game_state rec);
     calldata := encode_claim_timeout_calldata keccak256 gid; call_kind := KindTimeout;
     call_pivot := None |}.

Fixpoint claim_timeouts (ids : list Z) (block : Z) (batch : PersistBatch) (claimed : Z)
    : observing (Z * PersistBatch) :=
  match ids with
  | [] => mret (claimed, batch)
  | gid :: ids =>
      r ← read_state gid;
      match r with
      | Err _ => claim_timeouts ids block batch claimed
      | Ok observed =>
          l ← self;
          match games l !! gid with
          | None => claim_timeouts ids block batch claimed
          | Some old =>
              let rec := refreshed old observed block in
              batch ← put_record gid rec batch;
              if negb (is_in_progress (status (game_state rec))) then claim_timeouts ids block batch claimed else
              if decide (turn (game_state rec) = me rec) then claim_timeouts ids block batch claimed else
              if decide (block ≤ observed_deadline observed) then claim_timeouts ids block batch claimed else
              r ← queue_l1_call (timeout_call gid rec) block batch;
              claim_timeouts ids block r.2 (if r.1 : bool then claimed + 1 else claimed)
          end
      end
  end.

Definition sweep_timeout_claims (batch : PersistBatch) : observing (Z * PersistBatch) :=
  l ← self;
  if negb (has_state_reader l) then mret (0, batch) else
  candidates ← game_ids (claimable l) (games l);
  claim_timeouts candidates (now l) batch 0.

(** *** Iterations *)

Definition watcher_error (e : WatcherError) : ObserverError :=
  match e with
  | WatcherSource s => ObserverSource s
  | WatcherReorg r => ObserverReorg r
  | WatcherDecode d => ObserverDecode d
  | WatcherConfigError _ => ObserverConfigError e
  end.

(** [self.watcher.run_iteration()?]. *)
Definition watch_l1 : observing WatcherIteration := fun l w =>
  let '(dead, w) := killed w in
  if dead : bool then (Err ObsKilled, l, w, []) else
  let '(r, wt, w) := watch keccak256 (watcher l) w in
  (match r with
   | Ok it => Ok it
   | Err e => Err (ObsError (watcher_error e))
   end, with_watcher wt l, w, []).

Definition hydrate_if_needed : observing () :=
  l ← self;
  if has_state_reader l && bool_decide (map_Exists (fun _ rec => state_known rec = false) (games l)) then
    _ ← hydrate_cold_start_games (now l); mret ()
  else mret ().

(** The cursor and the window of the batch. *)
Definition with_position (it : WatcherIteration) (l : Observer S) (batch : PersistBatch) : PersistBatch :=
  match new_last_confirmed it with
  | Some b => set_reorg_window (set_cursor batch b) (window_snapshot (watcher l))
  | None => batch
  end.

(** The commit of an iteration; when it fails, nothing is broadcast. *)
Definition commit_iteration (batch : PersistBatch) : observing () :=
  if batch_is_empty batch then mret () else
  r ← try_ (commit batch);
  match r with
  | Ok _ => modify (fun l => with_pivots (submitted_pivots l) [] l)
  | Err e => modify (with_pending []);; raise e
  end.

Definition run_iteration_inner : observing IterationOutcome :=
  recover_intent_records;;
  hydrate_if_needed;;
  it ← watch_l1;
  r ← handle_events (events it) PersistBatch_new 0;
  s ← sweep_owed_moves r.2;
  c ← sweep_timeout_claims s.2;
  l ← self;
  commit_iteration (with_position it l c.2);;
  l ← self;
  modify (with_pending []);;
  broadcast_all (pending_broadcasts l);;
  mret {| event_count := Z.of_nat (length (events it)); submitted_moves := r.1 + s.1 + c.1;
          outcome_reorg := reorg_absorbed it; new_cursor := new_last_confirmed it |}.

Definition run_iteration : observing IterationOutcome :=
  modify (fun l => with_pivots (submitted_pivots l) [] l);;
  r ← try_ run_iteration_inner;
  match r with
  | Ok outcome => mret outcome
  | Err e =>
      modify (fun l => with_pivots (submitted_pivots l ∖ list_to_set (iteration_pivot_inserts l)) [] l);;
      raise e
  end.

(** The loop, for at most [rounds] rounds. *)
Fixpoint run (rounds : nat) : observing () :=
  match rounds with
  | O => fun l w => (Err ObsRunning, l, w, [])
  | Datatypes.S rounds =>
      stopped ← ask stop_requested;
      if stopped : bool then mret () else
      r ← try_ run_iteration;
      match r with
      | Ok _ => run rounds
      | Err e => match exit_code e with Transient => run rounds | _ => raise e end
      end
  end.

(** *** Start *)

Definition count_failures (recs : list ResponseRecord) (key : pivot_key) : Z :=
  Z.of_nat (length (filter (fun r => key_of_record r = key ∧
    (resp_status r = Failed ∨ resp_status r = Dropped)) recs)).

Definition is_live (r : ResponseRecord) : Prop :=
  resp_status r = Intent ∨ resp_status r = Pending ∨ resp_status r = Confirmed.

#[global] Instance is_live_dec r : Decision (is_live r).
Proof. unfold is_live. apply _. Defined.

Definition live_keys (recs : list ResponseRecord) : gset pivot_key :=
  list_to_set (key_of_record <$> filter is_live recs).

(** The failures of the pivots that have no live submission. *)
Definition failures_of (recs : list ResponseRecord) : gmap pivot_key Z :=
  filter (fun kv => kv.1 ∉ live_keys recs)
    (list_to_map ((fun r => (key_of_record r, count_failures recs (key_of_record r))) <$>
      filter (fun r => resp_status r = Failed ∨ resp_status r = Dropped) recs)).

Definition Observer_new (cfg : ObserverConfig) (bundle_oracle reader : bool) (s : S) (w : W)
    : result (Observer S) ObserverError * S * W :=
  match Watcher_new (watcher_cfg cfg) with
  | Err e => (Err (ObserverConfigError e), s, w)
  | Ok wt =>
      let read {A B} (m : S → W → result A PersistenceError * S * W)
        (k : A → S → W → result B ObserverError * S * W) (s : S) (w : W) :=
        let '(r, s, w) := m s w in
        match r with Ok a => k a s w | Err e => (Err (ObserverStorage e), s, w) end in
      read read_cursor (fun cursor =>
      read read_reorg_window (fun headers =>
      read list_games (fun game_records =>
      read list_batches (fun batch_records =>
      read list_responses (fun recs s w =>
        let wt := set_last_confirmed wt cursor in
        let wt := match headers with [] => wt | _ => seed_window wt headers end in
        (Ok {| config := cfg; watcher := wt; persistence := s; has_bundle_oracle := bundle_oracle;
               has_state_reader := reader;
               games := foldl (fun m r => <[game_id r := r]> m) ∅ game_records;
               batches := foldl (fun m r => <[batch_end_index r := r]> m) ∅ batch_records;
               submitted_pivots := live_keys recs; iteration_pivot_inserts := [];
               broadcast_failures := failures_of recs; pending_broadcasts := [] |}, s, w)))))) s w
  end.

Definition set_start_block (l : Observer S) (block : Z) : Observer S :=
  with_watcher (clear_reorg_window (set_last_confirmed (watcher l) (Some block))) l.

(** [main.rs]: one run of the program, which always attaches a state reader. *)
Definition session (cfg : ObserverConfig) (bundle_oracle : bool) (start_block : option Z) (rounds : nat)
    (s : S) (w : W) : result () halt * S * W * list effect :=
  let '(r, s, w) := Observer_new cfg bundle_oracle true s w in
  match r with
  | Err e => (Err (ObsError e), s, w, [])
  | Ok l =>
      let l := match start_block with Some b => set_start_block l b | None => l end in
      let '(r, l, w, t) := run rounds l w in (r, persistence l, w, t)
  end.

(** The program started again and again on one database. *)
Fixpoint lifetime (starts : list (ObserverConfig * bool * option Z * nat)) (s : S) (w : W)
    : S * W * list effect :=
  match starts with
  | [] => (s, w, [])
  | (cfg, bundle_oracle, start_block, rounds) :: starts =>
      let '(_, s, w, t) := session cfg bundle_oracle start_block rounds s w in
      let '(s, w, t') := lifetime starts s w in (s, w, t ++ t')
  end.

End Observing.
