(* ===== verification/ObserverLogic.v ===== *)
(** * Reasoning about runs of the observer

    What holds of the values the L1 source hands in, and weakest preconditions for
    the observer's computations: the state after a computation, with the history
    of effects, when it returns, when it fails, and when the process dies in it. *)

From Stdlib Require Import ZArith Lia.
From stdpp Require Import base numbers list gmap sets.
From S2P Require Import Prelude Encoding FaultGame Calldata Events Reorg Source Game GameReader.
From S2P Require Import GameEvents ObserverWatch ObserverStore Observer.

Local Open Scope Z_scope.

(** ** Typed values *)

(** What the Rust types of the source's answers say. *)
Class SourceTyped (W : Type) `{L1Source W} : Prop := {
  typed_head (w : W) n : (latest_block_number w).1 = Ok n → in_u64 n;
  typed_header (w : W) n h : (block_header_by_number n w).1 = Ok h → header_typed h;
  typed_logs (w : W) bh a logs : (logs_in_block_by_hash bh a w).1 = Ok logs →
    Forall (fun log => Forall (fun t => length t = 32%nat) (topics log)) logs;
}.

Record window_typed (w : ReorgWindow) : Prop := {
  wt_capacity : (0 < capacity w ≤ MAX_REORG_WINDOW_CAPACITY)%nat;
  wt_length : (length (buffer w) ≤ capacity w)%nat;
  wt_headers : Forall header_typed (buffer w);
}.

Record watcher_typed (self : Watcher) : Prop := {
  wt_window : window_typed (reorg_window self);
  wt_cursor n : last_confirmed_block self = Some n → in_u64 n;
  wt_depth : 0 ≤ confirmation_depth (watcher_config self);
  wt_blocks : 0 ≤ blocks_per_iteration (watcher_config self);
  wt_size : capacity (reorg_window self) = reorg_window_capacity (watcher_config self);
}.

Lemma push_bounded_typed w h :
  window_typed w → header_typed h → window_typed (push_bounded w h).
Proof.
  intros [Hc Hl Hh] Ht. split; cbn; [done| |].
  - rewrite length_app. cbn. case_decide; [|lia]. destruct (buffer w); cbn in *; lia.
  - apply Forall_app. split; [|by apply Forall_singleton]. case_decide; [|done]. by destruct Hh.
Qed.

Lemma clear_typed w : window_typed w → window_typed (clear w).
Proof. intros [Hc _ _]. split; cbn; [done|lia|done]. Qed.

Lemma seed_typed w hs : window_typed w → Forall header_typed hs → window_typed (seed w hs).
Proof.
  intros Hw Hhs. unfold seed. apply clear_typed in Hw. revert Hw. generalize (clear w).
  induction Hhs as [|h hs Hh Hhs IH]; intros u Hu; [done|]. cbn. by apply IH, push_bounded_typed.
Qed.

Lemma seed_fits w hs :
  (length hs ≤ capacity w)%nat → seed w hs = {| capacity := capacity w; buffer := hs |}.
Proof.
  intros Hl. unfold seed, clear.
  assert (Hgen : ∀ pre, (length pre + length hs ≤ capacity w)%nat →
    foldl push_bounded {| capacity := capacity w; buffer := pre |} hs =
    {| capacity := capacity w; buffer := pre ++ hs |}); [|by apply (Hgen [])].
  clear Hl. induction hs as [|h hs IH]; intros pre Hl; cbn; [by rewrite app_nil_r|].
  cbn in Hl. unfold push_bounded at 2. cbn. rewrite decide_False by lia.
  rewrite IH by (rewrite length_app; cbn; lia). by rewrite <- app_assoc.
Qed.

Lemma find_parent_Some l inc i :
  find_parent l inc = Some i →
  ∃ h, (i, h) ∈ l ∧ header_hash h = parent_hash inc ∧ succ_u64 (number h) = number inc.
Proof.
  induction l as [|[j h] l IH]; cbn; [done|]. intros Hf. case_decide as Hh.
  - injection Hf as ->. exists h. set_solver.
  - destruct (IH Hf) as (h' & ? & ?). exists h'. set_solver.
Qed.

Lemma walk_back_typed w inc lst o w' :
  window_typed w → header_typed inc → last (buffer w) = Some lst →
  ¬ (number inc = succ_u64 (number lst) ∧ parent_hash inc = header_hash lst) →
  walk_back w inc = (Ok o, w') → window_typed w' ∧ capacity w' = capacity w.
Proof.
  intros [Hc Hl Hh] Ht Hlast Hne Hw. unfold walk_back in Hw.
  destruct (find_parent _ inc) as [i|] eqn:Hf; [|done]. injection Hw as <- <-.
  apply find_parent_Some in Hf as (h & Hin & Hp & Hn).
  apply elem_of_indexed in Hin.
  assert (S i ≠ length (buffer w)).
  { intros Hi. rewrite last_lookup, <- Hi in Hlast. cbn in Hlast. simplify_eq. by apply Hne. }
  apply lookup_lt_Some in Hin. split; [|done]. split; cbn; [done| |].
  - rewrite length_app, length_take. cbn [length]. lia.
  - apply Forall_app. split; [by apply Forall_take|by apply Forall_singleton].
Qed.

Lemma advance_typed w inc o w' :
  window_typed w → header_typed inc → advance w inc = (Ok o, w') →
  window_typed w' ∧ capacity w' = capacity w.
Proof.
  intros Hw Ht. unfold advance. destruct (window_head w) as [lst|] eqn:Hl.
  - case_decide; [done|]. case_decide as Hn.
    { intros [= <- <-]. split; [by apply push_bounded_typed|done]. }
    repeat case_decide; try done; by apply (walk_back_typed w inc lst).
  - apply last_None in Hl. intros [= <- <-]. destruct Hw as [Hc _ _]. split; [|done].
    rewrite Hl. split; cbn; [done|lia|by apply Forall_singleton].
Qed.

Lemma advance_or_seed_typed self w inc o w' :
  window_typed w → header_typed inc → advance_or_seed self w inc = (Ok o, w') →
  window_typed w' ∧ capacity w' = capacity w.
Proof.
  intros Hw Ht. unfold advance_or_seed. destruct (_ && _).
  - intros [= <- <-]. split; [|done]. apply seed_typed; [done|by apply Forall_singleton].
  - destruct (advance w inc) as [[] ?] eqn:Ha; intros Heq; simplify_eq. by eapply advance_typed.
Qed.

Section Typed.
Context {W : Type} `{SourceTyped W}.
Variable keccak256 : list u8 → list u8.

Lemma game_decode_typed log e :
  Forall (fun t => length t = 32%nat) (topics log) →
  decode_event keccak256 log = Ok (Some e) → game_event_typed e.
Proof.
  intros Hw. unfold decode_event. destruct (topics log) as [|h l] eqn:Htop; [done|].
  destruct (from_hash keccak256 h) as [t|]; [|done].
  destruct (decode_variant t log) as [e'|] eqn:Hd; [|done]. intros [= ->].
  destruct (decode_variant_shape t log e) as (t0 & a & b & ws & Hs & Hlen); [by rewrite Htop|done|].
  by apply (decode_variant_iff _ _ _ _ _ _ _ Hs Hlen) in Hd as (_ & ? & _).
Qed.

Lemma decode_logs_typed logs es :
  Forall (fun log => Forall (fun t => length t = 32%nat) (topics log)) logs →
  decode_logs keccak256 logs = Ok es → Forall game_event_typed es.
Proof.
  intros Hl. revert es. induction Hl as [|log logs Hlog _ IH]; intros es; cbn.
  - by intros [= <-].
  - intros (e & He & (es' & Hes & [= <-])%result_bind_Ok)%result_bind_Ok.
    apply Forall_app. split; [|by apply IH].
    destruct e as [e|]; [|done]. apply Forall_singleton. by eapply game_decode_typed.
Qed.

Lemma watch_blocks_typed self count n window acc reorged (w : W) out reorged' window' w' :
  window_typed window → Forall game_event_typed acc →
  watch_blocks keccak256 self count n window acc reorged w = (Ok (out, reorged'), window', w') →
  window_typed window' ∧ capacity window' = capacity window ∧ Forall game_event_typed out.
Proof.
  revert n window acc reorged w. induction count as [|count IH]; intros n window acc reorged w Hw Ha Hrun.
  - by injection Hrun as <- <- <- <-.
  - cbn [watch_blocks] in Hrun. unfold source_call in Hrun.
    destruct (block_header_by_number n w) as [[header|e] w1] eqn:Hh; [|done].
    apply (f_equal fst), typed_header in Hh.
    destruct (advance_or_seed self window header) as [[o|e] window1] eqn:Had; [|done].
    apply advance_or_seed_typed in Had as [Hw1 Hcap]; [|done..].
    destruct (logs_in_block_by_hash _ (game_contract _) w1) as [[gl|e] w2] eqn:Hg; [|done].
    apply (f_equal fst), typed_logs in Hg.
    destruct (logs_in_block_by_hash _ (state_root_submission_contract _) w2) as [[sl|e] w3] eqn:Hs; [|done].
    apply (f_equal fst), typed_logs in Hs.
    destruct (decode_logs _ _) as [es|e] eqn:Hes; [|done].
    apply decode_logs_typed in Hes; [|by apply sort_logs_Forall, Forall_app].
    rewrite <- Hcap. eapply IH; [done| |exact Hrun]. apply Forall_app. split; [|done].
    rewrite Forall_forall in Ha |- *. destruct o; cbn; [done|]. intros e [_ ?]%list_elem_of_filter. auto.
Qed.

Lemma watch_typed self (w : W) r self' w' :
  watcher_typed self → watch keccak256 self w = (r, self', w') →
  watcher_config self' = watcher_config self ∧
  match r with
  | Ok it => watcher_typed self' ∧ Forall game_event_typed (events it) ∧
      match new_last_confirmed it with
      | Some b => last_confirmed_block self' = Some b ∧ in_u64 b
      | None => self' = self
      end
  | Err _ => self' = self
  end.
Proof.
  intros [Hw Hcur Hd Hb Hsize]. unfold watch, watch_inner.
  destruct (latest_block_number w) as [[hd|e] w1] eqn:Hh.
  2: { intros [= <- <- <-]. by rewrite with_window_id. }
  apply (f_equal fst), typed_head in Hh.
  case_decide; [by intros [= <- <- <-]|]. case_decide as Hst; [by intros [= <- <- <-]|].
  destruct (watch_blocks _ _ _ _ _ _ _ _) as [[r1 window1] w2] eqn:Hrun.
  destruct r1 as [[out reorged]|e].
  - apply watch_blocks_typed in Hrun as (Hw1 & Hcap & Hout); [|done..].
    intros [= <- <- <-]. cbn. split; [done|].
    assert (in_u64 (end_of self (hd - confirmation_depth (watcher_config self)))).
    { unfold end_of, start_of, saturating_add, saturating_sub, in_width in *.
      destruct (last_confirmed_block self) as [n|]; [specialize (Hcur n eq_refl)|]; lia. }
    split_and!; [|done..]. split; cbn; [done| |done..|by rewrite Hcap]. by intros ? [= <-].
  - intros [= <- <- <-]. cbn. split; [done|]. by destruct self.
Qed.

End Typed.

(** ** Histories *)

(** What the database shows after a history, starting from an empty one. *)
Definition step_view `{Hex} (v : StoreView) (e : effect) : StoreView :=
  match e with
  | Committed b => apply_batch v b
  | StatusStored r => view_response v (hash_of r) r
  | _ => v
  end.

Definition view_after `{Hex} (h : list effect) : StoreView := foldl step_view empty_view h.

(** The hash of a transaction tells the transaction and the move it was signed
    for. *)
Definition hashes_distinct (h : list effect) : Prop :=
  ∀ k1 cd1 tx1 k2 cd2 tx2, Signed k1 cd1 tx1 ∈ h → Signed k2 cd2 tx2 ∈ h →
    prepared_hash tx1 = prepared_hash tx2 → k1 = k2 ∧ tx1 = tx2.

(** The recovery of a session went on only when it had recorded the outcome. *)
Definition outcomes_kept (h : list effect) : Prop := ∀ rec, OutcomeLost rec ∉ h.

Record good (h : list effect) : Prop := {
  good_hashes : hashes_distinct h;
  good_outcomes : outcomes_kept h;
}.

(** A transaction was accepted for a move, and no later broadcast of it failed. *)
Definition standing (h : list effect) (k : pivot_key) (tx : PreparedTx) : Prop :=
  ∃ a b, h = a ++ Broadcasted k tx (Ok ()) :: b ∧ ∀ e, Broadcasted k tx (Err e) ∉ b.

(** Whatever is broadcast for a move while a transaction stands for it is that
    transaction. *)
Definition at_most_once (h : list effect) : Prop :=
  ∀ a k tx r b, h = a ++ Broadcasted k tx r :: b → ∀ tx', standing a k tx' → tx = tx'.

(** The record of the intent to make a move, in a database. *)
Definition intent_in `{Hex} (v : StoreView) (k : pivot_key) (tx : PreparedTx) : Prop :=
  ∃ rec, v_responses v !! prepared_hash tx = Some rec ∧ resp_status rec = Intent ∧
    key_of_record rec = k ∧ raw_tx_hex rec = Some (hex_encode (raw_bytes tx)).

(** Nothing is broadcast before the database has the intent. *)
Definition intent_first `{Hex} (h : list effect) : Prop :=
  ∀ a k tx r b, h = a ++ Broadcasted k tx r :: b → intent_in (view_after a) k tx.

Definition live_key (v : StoreView) (k : pivot_key) : Prop :=
  ∃ x rec, v_responses v !! x = Some rec ∧ is_live rec ∧ key_of_record rec = k.

(** The record [rec] at the hash [x] is of a transaction that was signed. *)
Definition announces `{Hex} (h : list effect) (x : list u8) (rec : ResponseRecord) : Prop :=
  ∃ cd tx, Signed (key_of_record rec) cd tx ∈ h ∧ prepared_hash tx = x ∧
    raw_tx_hex rec = Some (hex_encode (raw_bytes tx)).

Record booked `{Hex} (h : list effect) : Prop := {
  bk_signed x rec : v_responses (view_after h) !! x = Some rec → announces h x rec;
  bk_unique x1 r1 x2 r2 :
    v_responses (view_after h) !! x1 = Some r1 → v_responses (view_after h) !! x2 = Some r2 →
    is_live r1 → is_live r2 → key_of_record r1 = key_of_record r2 → x1 = x2;
  bk_sent k tx r : Broadcasted k tx r ∈ h → ∃ cd, Signed k cd tx ∈ h;
  bk_standing k tx : standing h k tx →
    ∃ rec, v_responses (view_after h) !! prepared_hash tx = Some rec ∧ is_live rec ∧ key_of_record rec = k;
  bk_once : at_most_once h;
  bk_first : intent_first h;
}.

(** A transaction that waits for its broadcast. *)
Definition held `{Hex} (h : list effect) (p : PendingBroadcast) : Prop :=
  (∃ cd, Signed (pending_key p) cd (prepared p) ∈ h) ∧
  intent_in (view_after h) (pending_key p) (prepared p).

(** The record of the batch that announces a pending transaction. *)
Definition intent_for `{Hex} (h : list effect) (p : PendingBroadcast) (rec : ResponseRecord) : Prop :=
  (∃ cd, Signed (pending_key p) cd (prepared p) ∈ h) ∧ length (prepared_hash (prepared p)) = 32%nat ∧
  tx_hash_hex rec = hex_encode (prepared_hash (prepared p)) ∧
  raw_tx_hex rec = Some (hex_encode (raw_bytes (prepared p))) ∧
  key_of_record rec = pending_key p ∧ resp_status rec = Intent.

Lemma good_prefix h t : good (h ++ t) → good h.
Proof.
  intros [Hd Ho]. split.
  - intros k1 cd1 tx1 k2 cd2 tx2 H1 H2. eapply Hd; apply elem_of_app; left; [exact H1|exact H2].
  - intros rec Hin. apply (Ho rec), elem_of_app. by left.
Qed.

Lemma view_after_snoc `{Hex} h e : view_after (h ++ [e]) = step_view (view_after h) e.
Proof. unfold view_after. by rewrite foldl_app. Qed.

(** Where an element of a longer history is. *)
Lemma snoc_split {A} (h : list A) e a x b :
  h ++ [e] = a ++ x :: b → (a = h ∧ x = e ∧ b = []) ∨ ∃ b', b = b' ++ [e] ∧ h = a ++ x :: b'.
Proof.
  destruct b as [|y b' _] using rev_ind; intros Heq.
  - left. apply app_inj_tail in Heq as [-> ->]. done.
  - right. exists b'. rewrite app_comm_cons, app_assoc in Heq. by apply app_inj_tail in Heq as [-> ->].
Qed.

Lemma standing_snoc h e k tx :
  standing (h ++ [e]) k tx → e = Broadcasted k tx (Ok ()) ∨ standing h k tx.
Proof.
  intros (a & b & Heq & Hb). apply snoc_split in Heq as [(-> & -> & ->)|(b' & -> & ->)]; [by left|].
  right. exists a, b'. split; [done|]. intros e' Hin. apply (Hb e'), elem_of_app. by left.
Qed.

Lemma not_standing h k tx e : ¬ standing (h ++ [Broadcasted k tx (Err e)]) k tx.
Proof.
  intros (a & b & Heq & Hb). apply snoc_split in Heq as [(_ & ? & _)|(b' & -> & _)]; [done|].
  apply (Hb e), elem_of_app. right. set_solver.
Qed.

Lemma standing_sent h k tx : standing h k tx → Broadcasted k tx (Ok ()) ∈ h.
Proof. intros (a & b & -> & _). set_solver. Qed.

Section Booked.
Context `{HexOk}.

Lemma announces_snoc h e x rec : announces h x rec → announces (h ++ [e]) x rec.
Proof.
  intros (cd & tx & Hs & Hx). exists cd, tx. split; [|done]. apply elem_of_app. by left.
Qed.

(** An effect that is not a broadcast. *)
Lemma booked_step h e :
  booked h → (∀ k tx r, e ≠ Broadcasted k tx r) →
  (∀ x rec, v_responses (view_after (h ++ [e])) !! x = Some rec → announces h x rec) →
  (∀ x1 r1 x2 r2, v_responses (view_after (h ++ [e])) !! x1 = Some r1 →
     v_responses (view_after (h ++ [e])) !! x2 = Some r2 → is_live r1 → is_live r2 →
     key_of_record r1 = key_of_record r2 → x1 = x2) →
  (∀ k tx, standing h k tx → ∃ rec, v_responses (view_after (h ++ [e])) !! prepared_hash tx = Some rec ∧
     is_live rec ∧ key_of_record rec = k) →
  booked (h ++ [e]).
Proof.
  intros [_ _ Hsent _ Honce Hfirst] Hne Hann Huniq Hstand. split.
  - intros x rec Hx. by apply announces_snoc, Hann.
  - exact Huniq.
  - intros k tx r [Hin|Hin%list_elem_of_singleton]%elem_of_app; [|by destruct (Hne k tx r)].
    destruct (Hsent k tx r Hin) as [cd ?]. exists cd. apply elem_of_app. by left.
  - intros k tx [->|Hs]%standing_snoc; [by destruct (Hne k tx (Ok ()))|by apply Hstand].
  - intros a k tx r b [(_ & He & _)|(b' & -> & ->)]%snoc_split; [by destruct (Hne k tx r)|].
    by eapply Honce.
  - intros a k tx r b [(_ & He & _)|(b' & -> & ->)]%snoc_split; [by destruct (Hne k tx r)|].
    by eapply Hfirst.
Qed.

Lemma booked_quiet h e :
  booked h → (∀ k tx r, e ≠ Broadcasted k tx r) → (∀ v, step_view v e = v) → booked (h ++ [e]).
Proof.
  intros Hb Hne Hv. apply booked_step; [done..| | |]; rewrite view_after_snoc, Hv.
  - apply (bk_signed h Hb).
  - apply (bk_unique h Hb).
  - apply (bk_standing h Hb).
Qed.

(** A broadcast of a transaction that is held. *)
Lemma booked_broadcast h p r :
  booked h → good h → held h p → booked (h ++ [Broadcasted (pending_key p) (prepared p) r]).
Proof.
  intros Hb [Hd _] ([cd Hs] & rec & Hrec & Hst & Hk & Hraw).
  pose proof Hb as [Hann Huniq Hsent Hstand Honce Hfirst].
  assert (Hlive : is_live rec) by by left.
  split; try rewrite view_after_snoc; cbn [step_view].
  - intros x rec' Hx. by apply announces_snoc, Hann.
  - exact Huniq.
  - intros k tx r' [Hin|Hin%list_elem_of_singleton]%elem_of_app.
    + destruct (Hsent k tx r' Hin) as [cd' ?]. exists cd'. apply elem_of_app. by left.
    + simplify_eq. exists cd. apply elem_of_app. by left.
  - intros k tx [[= <- <- _]|Hsd]%standing_snoc; [by exists rec|by apply Hstand].
  - intros a k tx r' b [(-> & [= -> -> ->] & ->)|(b' & -> & ->)]%snoc_split; [|by eapply Honce].
    intros tx' Hsd. destruct (Hstand _ _ Hsd) as (rec' & Hrec' & Hlive' & Hk').
    destruct (Hsent _ _ _ (standing_sent _ _ _ Hsd)) as [cd' Hs'].
    eapply Hd; [exact Hs|exact Hs'|]. eapply Huniq; [done..|by rewrite Hk, Hk'].
  - intros a k tx r' b [(-> & [= -> -> ->] & ->)|(b' & -> & ->)]%snoc_split; [by exists rec|].
    by eapply Hfirst.
Qed.

(** The outcome of a broadcast is recorded; a failure was the last thing that
    happened to its transaction. *)
Lemma booked_status h p rec st :
  booked h → good h → (∃ cd, Signed (pending_key p) cd (prepared p) ∈ h) →
  v_responses (view_after h) !! prepared_hash (prepared p) = Some rec →
  resp_status rec = Intent → key_of_record rec = pending_key p →
  tx_hash_hex rec = hex_encode (prepared_hash (prepared p)) →
  st = Pending ∨ st = Failed ∧ ¬ standing h (pending_key p) (prepared p) →
  booked (h ++ [StatusStored (set_response_status rec st)]).
Proof.
  intros Hb [Hd _] [cd Hs] Hrec Hint Hk Hx Hst.
  pose proof Hb as [Hann Huniq Hsent Hstand _ _].
  assert (Hv : v_responses (view_after (h ++ [StatusStored (set_response_status rec st)])) =
    <[prepared_hash (prepared p) := set_response_status rec st]> (v_responses (view_after h))).
  { rewrite view_after_snoc. cbn. by rewrite (hash_of_encode _ (prepared_hash (prepared p))). }
  assert (Hlive : is_live rec) by by left.
  assert (Hold : ∀ x r, v_responses (view_after (h ++ [StatusStored (set_response_status rec st)])) !! x = Some r →
    ∃ r0, v_responses (view_after h) !! x = Some r0 ∧ key_of_record r = key_of_record r0 ∧
      raw_tx_hex r = raw_tx_hex r0 ∧ (is_live r → is_live r0)).
  { intros x r. rewrite Hv, lookup_insert_Some. intros [[<- <-]|[_ Hr]]; [by exists rec|by exists r]. }
  apply booked_step; [done..| | |].
  - intros x r (r0 & Hr0 & Hk0 & Hraw & _)%Hold. destruct (Hann _ _ Hr0) as (cd' & tx & ? & ? & ?).
    exists cd', tx. by rewrite Hk0, Hraw.
  - intros x1 r1 x2 r2 (s1 & ? & Hk1 & _ & Hl1)%Hold (s2 & ? & Hk2 & _ & Hl2)%Hold ?? Heq.
    eapply Huniq; [done..|by apply Hl1|by apply Hl2|by rewrite <- Hk1, <- Hk2].
  - intros k tx Hsd. destruct (Hstand k tx Hsd) as (r & Hr & Hl & Hkr). rewrite Hv.
    destruct (decide (prepared_hash (prepared p) = prepared_hash tx)) as [Heq|Hne].
    + destruct (Hsent _ _ _ (standing_sent _ _ _ Hsd)) as [cd' Hs'].
      destruct (Hd _ _ _ _ _ _ Hs Hs' Heq) as [<- <-]. rewrite lookup_insert_eq.
      destruct Hst as [->|[_ []]]; [|done]. eexists. split; [done|]. split; [by right; left|done].
    + rewrite lookup_insert_ne by done. by exists r.
Qed.

(** The responses a batch leaves. *)
Definition record_all (m : gmap (list u8) ResponseRecord) (rs : list ResponseRecord)
    : gmap (list u8) ResponseRecord :=
  foldl (fun m r => <[hash_of r := canonical_rec r (hash_of r)]> m) m rs.

Lemma apply_batch_responses v b :
  v_responses (apply_batch v b) = record_all (v_responses v) (batch_responses b).
Proof.
  assert (Hb : ∀ rs v, v_responses (foldl view_batch v rs) = v_responses v)
    by (induction rs as [|r rs IH]; intros v0; [done|apply (IH (view_batch v0 r))]).
  assert (Hg : ∀ rs v, v_responses (foldl view_game v rs) = v_responses v)
    by (induction rs as [|r rs IH]; intros v0; [done|apply (IH (view_game v0 r))]).
  assert (Hr : ∀ rs v, v_responses
      (foldl (fun v r => view_response v (hash_of r) (canonical_rec r (hash_of r))) v rs) =
    record_all (v_responses v) rs)
    by (induction rs as [|r rs IH]; intros v0; [done|apply (IH (view_response v0 _ _))]).
  unfold apply_batch. destruct (batch_cursor b), (batch_window b); cbn; by rewrite Hb, Hr, Hg.
Qed.

Lemma intent_for_hash h p rec :
  intent_for h p rec → hash_of rec = prepared_hash (prepared p) ∧ canonical_rec rec (hash_of rec) = rec.
Proof.
  intros (_ & _ & Hx & _). apply hash_of_encode in Hx as Hh. split; [done|].
  apply canonical_rec_id. by rewrite Hh.
Qed.

Definition pending_hash (p : PendingBroadcast) : list u8 := prepared_hash (prepared p).

(** Each transaction of the batch is recorded under its hash, and nothing else
    changes. *)
Lemma intents_other h ps rs m (x : list u8) :
  Forall2 (intent_for h) ps rs → x ∉ (pending_hash <$> ps) →
  record_all m rs !! x = m !! x.
Proof.
  intros Hall. revert m. induction Hall as [|p r ps rs Hp Hall IH]; intros m Hx; [done|].
  cbn in Hx. apply not_elem_of_cons in Hx as [Hne Hx]. cbn. rewrite IH by done.
  rewrite (proj1 (intent_for_hash h p r Hp)). by apply lookup_insert_ne.
Qed.

Lemma intents_lookup h ps rs m p :
  Forall2 (intent_for h) ps rs → NoDup (pending_hash <$> ps) → p ∈ ps →
  ∃ rec, record_all m rs !! pending_hash p = Some rec ∧
    intent_for h p rec.
Proof.
  intros Hall. revert m. induction Hall as [|q r ps rs Hq Hall IH]; intros m Hnd Hp; [by apply elem_of_nil in Hp|].
  cbn in Hnd. apply NoDup_cons in Hnd as [Hnin Hnd]. cbn.
  apply elem_of_cons in Hp as [->|Hp]; [|by apply IH].
  rewrite (intents_other h ps) by done. destruct (intent_for_hash h q r Hq) as [Hh Hc].
  rewrite Hc, Hh. exists r. split; [|done]. apply lookup_insert_eq.
Qed.

(** Two pending transactions for different moves have different hashes. *)
Lemma pending_hashes_NoDup h ps rs :
  hashes_distinct h → Forall2 (intent_for h) ps rs → NoDup (pending_key <$> ps) →
  NoDup (pending_hash <$> ps).
Proof.
  intros Hd Hall. induction Hall as [|p r ps rs Hp Hall IH]; intros Hnd; [constructor|].
  cbn in *. apply NoDup_cons in Hnd as [Hnin Hnd]. apply NoDup_cons. split; [|by apply IH].
  intros (q & Heq & Hq)%list_elem_of_fmap. apply Hnin, list_elem_of_fmap. exists q. split; [|done].
  apply list_elem_of_lookup in Hq as [i Hi]. destruct (Forall2_lookup_l _ _ _ _ _ Hall Hi) as (r' & _ & Hq').
  destruct Hp as ([cd Hp] & _), Hq' as ([cd' Hq'] & _).
  by destruct (Hd _ _ _ _ _ _ Hp Hq' Heq).
Qed.

(** A batch whose intents are for moves that have no live record. *)
Lemma booked_commit h b ps :
  booked h → good h → Forall2 (intent_for h) ps (batch_responses b) → NoDup (pending_key <$> ps) →
  (∀ p, p ∈ ps → ¬ live_key (view_after h) (pending_key p)) →
  booked (h ++ [Committed b]) ∧ ∀ p, p ∈ ps → held (h ++ [Committed b]) p.
Proof.
  intros Hb [Hd _] Hall Hnd Hnew. pose proof (pending_hashes_NoDup h ps _ Hd Hall Hnd) as Hhs.
  pose proof Hb as [Hann Huniq Hsent Hstand _ _].
  assert (Hcases : ∀ x rec, v_responses (view_after (h ++ [Committed b])) !! x = Some rec →
    (∃ p, p ∈ ps ∧ x = pending_hash p ∧ intent_for h p rec) ∨ v_responses (view_after h) !! x = Some rec).
  { intros x rec. rewrite view_after_snoc. cbn [step_view]. rewrite apply_batch_responses.
    destruct (decide (x ∈ (pending_hash <$> ps))) as [Hx|Hx].
    - apply list_elem_of_fmap in Hx as (p & -> & Hp).
      destruct (intents_lookup h ps _ (v_responses (view_after h)) p Hall Hhs Hp) as (r & -> & Hr).
      intros [= ->]. left. by exists p.
    - rewrite (intents_other h ps) by done. by right. }
  assert (Hkey : ∀ p q, p ∈ ps → q ∈ ps → pending_key p = pending_key q → p = q).
  { intros p q Hp Hq Heq. apply list_elem_of_lookup in Hp as [i Hi], Hq as [j Hj].
    assert (i = j) as ->; [|congruence].
    apply (NoDup_lookup _ i j (pending_key p) Hnd); rewrite list_lookup_fmap; [by rewrite Hi|].
    rewrite Hj, Heq. done. }
  split; [apply booked_step; [done..| | |]|].
  - intros x rec [(p & Hp & -> & [cd Hs] & _ & _ & Hraw & Hk & _)|Hx]%Hcases; [|by apply Hann].
    exists cd, (prepared p). by rewrite Hk.
  - intros x1 r1 x2 r2 [(p & Hp & -> & Hip)|H1]%Hcases [(q & Hq & -> & Hiq)|H2]%Hcases Hl1 Hl2 Heq.
    + destruct Hip as (_ & _ & _ & _ & Hkp & _), Hiq as (_ & _ & _ & _ & Hkq & _).
      rewrite (Hkey p q); [done..|congruence].
    + destruct (Hnew p Hp). destruct Hip as (_ & _ & _ & _ & Hkp & _). exists x2, r2. by rewrite <- Hkp, Heq.
    + destruct (Hnew q Hq). destruct Hiq as (_ & _ & _ & _ & Hkq & _). exists x1, r1. by rewrite <- Hkq, Heq.
    + by eapply Huniq.
  - intros k tx Hsd. destruct (Hstand k tx Hsd) as (rec & Hrec & Hl & Hk). exists rec. split; [|done].
    rewrite view_after_snoc. cbn [step_view]. rewrite apply_batch_responses, (intents_other h ps); [done..|].
    intros (p & Hx & Hp)%list_elem_of_fmap. destruct (Hnew p Hp).
    apply list_elem_of_lookup in Hp as [i Hi]. destruct (Forall2_lookup_l _ _ _ _ _ Hall Hi) as (r' & _ & [cd Hs] & _).
    destruct (Hsent _ _ _ (standing_sent _ _ _ Hsd)) as [cd' Hs'].
    destruct (Hd _ _ _ _ _ _ Hs' Hs Hx) as [<- _]. by exists (prepared_hash tx), rec.
  - intros p Hp. destruct (intents_lookup h ps _ (v_responses (view_after h)) p Hall Hhs Hp) as (r & Hr & Hi).
    destruct Hi as ([cd Hs] & _ & _ & Hraw & Hk & Hst). split; [exists cd; apply elem_of_app; by left|].
    exists r. rewrite view_after_snoc. cbn [step_view]. by rewrite apply_batch_responses.
Qed.

End Booked.

(** ** The world *)

(** The answers of the source have their types; a transaction hash has 32 bytes; a
    hash map is iterated over in some order. *)
Class ObserverWorldOk (W : Type) `{ObserverWorld W} : Prop := {
  #[global] observer_source_typed :: SourceTyped W;
  signed_hash cd (w : W) tx : (build_and_sign cd w).1 = Ok tx → length (prepared_hash tx) = 32%nat;
  hash_order_perm ids (w : W) : (hash_order ids w).1 ≡ₚ ids;
}.

(** ** Weakest preconditions *)

Section Logic.
Context {S W : Type} `{!Store S W} `{!Hex} `{!HexOk} `{!StoreOk S W} `{!ObserverWorld W}
  `{!ObserverWorldOk W}.

(** What survives the process. *)
Definition durable (h : list effect) (s : S) : Prop := shows s (view_after h) ∧ booked h.

(** After [m], run with the history [h]: [Q] if it returns, [E] if it fails, and a
    durable state if the process stops in it. *)
Definition wp {A} (m : observing (S := S) (W := W) A) (Q : A → list effect → Observer S → Prop)
    (E : ObserverError → list effect → Observer S → Prop) (h : list effect) (l : Observer S) : Prop :=
  ∀ w, let '(r, l', _, t) := m l w in good (h ++ t) →
  match r with
  | Ok a => Q a (h ++ t) l'
  | Err (ObsError e) => E e (h ++ t) l'
  | Err _ => durable (h ++ t) (persistence l')
  end.

Implicit Types (h : list effect) (l : Observer S).

Lemma wp_conseq {A} (m : observing A) (Q Q' : A → list effect → Observer S → Prop)
    (E E' : ObserverError → list effect → Observer S → Prop) h l :
  wp m Q E h l → (∀ a h' l', good h' → Q a h' l' → Q' a h' l') →
  (∀ e h' l', good h' → E e h' l' → E' e h' l') → wp m Q' E' h l.
Proof.
  intros Hm HQ HE w. specialize (Hm w). destruct (m l w) as [[[r l'] w'] t]. intros Hg.
  specialize (Hm Hg). destruct r as [a|[e| |]]; auto.
Qed.

Lemma wp_ret {A} (a : A) Q E h l : Q a h l → wp (mret a) Q E h l.
Proof. intros HQ w Hg. cbn in *. by rewrite app_nil_r. Qed.

Lemma wp_bind {A B} (m : observing A) (k : A → observing B) Q E h l :
  wp m (fun a => wp (k a) Q E) E h l → wp (m ≫= k) Q E h l.
Proof.
  intros Hm w. specialize (Hm w). unfold mbind, observing_bind.
  destruct (m l w) as [[[r l1] w1] t1]. destruct r as [a|e].
  - destruct (k a l1 w1) as [[[r2 l2] w2] t2] eqn:Hk. intros Hg. rewrite app_assoc in *.
    specialize (Hm (good_prefix _ _ Hg) w1). rewrite Hk in Hm. by apply Hm.
  - exact Hm.
Qed.

(** The history between the two may be assumed to be good. *)
Lemma wp_bind_good {A B} (m : observing A) (k : A → observing B) Q E h l :
  wp m (fun a h' l' => good h' → wp (k a) Q E h' l') E h l → wp (m ≫= k) Q E h l.
Proof. intros Hm. apply wp_bind. eapply wp_conseq; [exact Hm|auto..]. Qed.

Lemma wp_self Q E h l : Q l h l → wp self Q E h l.
Proof. intros HQ w Hg. cbn in *. by rewrite app_nil_r. Qed.

Lemma wp_modify f Q E h l : Q () h (f l) → wp (modify f) Q E h l.
Proof. intros HQ w Hg. cbn in *. by rewrite app_nil_r. Qed.

Lemma wp_raise {A} e (Q : A → list effect → Observer S → Prop) E h l : E e h l → wp (raise e) Q E h l.
Proof. intros HE w Hg. cbn in *. by rewrite app_nil_r. Qed.

Lemma wp_tell t Q E h l : (good (h ++ t) → Q () (h ++ t) l) → wp (tell t) Q E h l.
Proof. intros HQ w Hg. by apply HQ. Qed.

Lemma wp_try {A} (m : observing A) Q E h l :
  wp m (fun a => Q (Ok a)) (fun e => Q (Err e)) h l → wp (try_ m) Q E h l.
Proof.
  intros Hm w. specialize (Hm w). unfold try_. destruct (m l w) as [[[r l1] w1] t1].
  by destruct r as [a|[e| |]].
Qed.

Lemma wp_call {A} (f : W → A * W) report Q E h l :
  durable h (persistence l) →
  (∀ w, good (h ++ report (f w).1) → Q (f w).1 (h ++ report (f w).1) l) →
  wp (call f report) Q E h l.
Proof.
  intros Hd HQ w. unfold call. destruct (killed w) as [[] w1].
  - intros _. by rewrite app_nil_r.
  - specialize (HQ w1). by destruct (f w1) as [a w2].
Qed.

Lemma wp_ask {A} (f : W → A * W) Q E h l :
  durable h (persistence l) → (∀ w, Q (f w).1 h l) → wp (ask f) Q E h l.
Proof. intros Hd HQ. apply wp_call; [done|]. intros w _. by rewrite app_nil_r. Qed.

Lemma with_persistence_id l : with_persistence (persistence l) l = l.
Proof. by destruct l. Qed.

Lemma wp_read {A} (m : S → W → result A PersistenceError * S * W) P Q E h l :
  durable h (persistence l) → reads m (persistence l) P →
  (∀ a, P a → Q a h l) →
  (good (h ++ [StorageFailed]) → E (ObserverStorage StorageFault) (h ++ [StorageFailed]) l) →
  wp (storage m []) Q E h l.
Proof.
  intros Hd Hr HQ HE w. unfold storage. destruct (killed w) as [[] w1].
  - intros _. by rewrite app_nil_r.
  - specialize (Hr w1). destruct (m (persistence l) w1) as [[r s] w2].
    destruct Hr as [-> Hr]. rewrite with_persistence_id. destruct r as [a|e].
    + intros _. rewrite app_nil_r. by apply HQ.
    + subst e. exact HE.
Qed.

Lemma wp_write {A} (m : S → W → result A PersistenceError * S * W) e (P : S → Prop) Q E h l :
  durable h (persistence l) → writes m (persistence l) P →
  (∀ a s, good (h ++ [e]) → P s → Q a (h ++ [e]) (with_persistence s l)) →
  (good (h ++ [StorageFailed]) → E (ObserverStorage StorageFault) (h ++ [StorageFailed]) l) →
  wp (storage m [e]) Q E h l.
Proof.
  intros Hd Hw HQ HE w. unfold storage. destruct (killed w) as [[] w1].
  - intros _. by rewrite app_nil_r.
  - specialize (Hw w1). destruct (m (persistence l) w1) as [[r s] w2]. destruct r as [a|e'].
    + intros Hg. by apply HQ.
    + destruct Hw as [-> ->]. by rewrite with_persistence_id.
Qed.

End Logic.
