(* ===== verification/ObserverDemo.v ===== *)
(** * A small world for the observer

    A chain that changes from round to round by a script, a signer, a network that
    accepts what is sent, and a process that may be killed after a given number of
    calls.  The database is the key-value store of [ObserverStore]. *)

From Stdlib Require Import ZArith Lia.
From stdpp Require Import base numbers list gmap sets.
From S2P Require Import Prelude Encoding State StateRoot FaultGame Calldata Events Reorg Source Game.
From S2P Require Import GameReader GameEvents ObserverWatch ObserverStore Observer ObserverLogic.

Local Open Scope Z_scope.

(** The chain in one round: its head, its game events by block, the game the
    contract holds. *)
Record moment : Type := {
  m_head : Z;
  m_events : Z → list GameEvent;
  m_game : L1Game;
}.

(** The moments to come, and the number of calls the process still makes. *)
Record demo_world : Type := { moments : list moment; alive : option nat }.

Definition demo_game_log (e : GameEvent) : RawLog :=
  {| log_address := zeros 20; topics := hash demo_topic_hash (variant_of e) :: indexed_args e;
     data := mjoin (data_args e); log_block_number := block_number (game_origin e);
     log_tx_hash := tx_hash (game_origin e); raw_log_index := log_index (game_origin e) |}.

Definition quiet_moment : moment := {| m_head := 0; m_events _ := []; m_game := demo_l1_game |}.
Definition this_moment (w : demo_world) : moment := default quiet_moment (head (moments w)).

(** The last 32 bytes of the calldata, as the hash of a transaction. *)
Definition demo_tx_hash (cd : list u8) : list u8 := drop (length cd) (zeros 32 ++ cd).

(** The answer of a source, with what its types say of it. *)
Definition demo_logs_at (w : demo_world) (bh : TopicHash) (a : EthAddress) : list RawLog :=
  if decide (a = zeros 20) then
    filter (fun log => Forall (fun t => length t = 32%nat) (topics log))
      (demo_game_log <$> m_events (this_moment w) (from_be_bytes bh))
  else [].

Definition demo_u64 (n : Z) : Z := n mod 2 ^ 64.

#[local] Existing Instances demo_hex demo_hex_ok demo_observer_json demo_observer_json_ok.

#[export] Instance demo_world_source : L1Source demo_world := {|
  latest_block_number w := (Ok (demo_u64 (m_head (this_moment w))), w);
  block_header_by_number n w := (Ok (demo_block (demo_u64 n)), w);
  logs_in_block_by_hash bh a w := (Ok (demo_logs_at w bh a), w);
|}.

#[export] Instance demo_world_storage : StorageWorld demo_world := {| storage_fault w := (false, w) |}.

#[export] Instance demo_observer_world : ObserverWorld demo_world := {|
  eth_call w := ((fun _ => RpcString (hex_prefix ++ hex_encode (mjoin (abi_game (m_game (this_moment w)))))), w);
  build_and_sign cd w := (Ok {| prepared_hash := demo_tx_hash cd; raw_bytes := cd |}, w);
  broadcast tx w := (Ok (), w);
  invalidate_nonce_cache w := w;
  truth_oracle w := ((fun i => Some (StateRoot.word (i mod 251))), w);
  terminate_bundle_at i bounds w := (Err (BundleMissed i), w);
  hash_order ids w := (ids, w);
  stop_requested w :=
    (bool_decide (length (moments w) ≤ 1)%nat, {| moments := tail (moments w); alive := alive w |});
  killed w :=
    match alive w with
    | None => (false, w)
    | Some O => (true, {| moments := moments w; alive := None |})
    | Some (Datatypes.S n) => (false, {| moments := moments w; alive := Some n |})
    end;
|}.

#[export] Instance demo_observer_world_ok : ObserverWorldOk demo_world.
Proof.
  split.
  - split.
    + intros w n [= <-]. unfold demo_u64, in_width. apply Z.mod_pos_bound. lia.
    + intros w n h [= <-]. split; [apply Z.mod_pos_bound; lia|by split].
    + intros w bh a logs [= <-]. unfold demo_logs_at. case_decide; [|constructor].
      apply Forall_forall. by intros log [? _]%list_elem_of_filter.
  - intros cd w tx [= <-]. cbn. unfold demo_tx_hash. rewrite length_drop, length_app.
    change (length (zeros 32)) with 32%nat. lia.
  - done.
Qed.

Definition demo_config : ObserverConfig :=
  ObserverConfig_new (WatcherConfig_new (zeros 20) (replicate 20 (byte_of 1))) (zeros 32).

Definition demo_db : kv := {[IDENTIFIER_KEY := OBSERVER_IDENTIFIER]}.

(** A game is opened in block 88; the database is empty; the process is killed
    after the commit of its first move, before the broadcast. *)
Definition demo_game_opened : GameEvent :=
  GameOpened 3 (zeros 32) (StateRoot.word 2) (StateRoot.word 10)
    {| block_number := 88; tx_hash := zeros 32; log_index := 0 |}.

Definition demo_moment : moment :=
  {| m_head := 100; m_events n := if decide (n = 88) then [demo_game_opened] else []; m_game := demo_l1_game |}.

(** Two starts on the empty database, the first process dying after [k] calls. *)
Definition demo_starts : list (ObserverConfig * bool * option Z * nat) :=
  [(demo_config, false, None, 4%nat); (demo_config, false, None, 4%nat)].

Definition demo_lifetime (k : option nat) : kv * demo_world * list effect :=
  lifetime demo_topic_hash demo_starts demo_db {| moments := replicate 5 demo_moment; alive := k |}.

Definition signed_txs (h : list effect) : list (pivot_key * PreparedTx) :=
  h ≫= fun e => match e with Signed k _ tx => [(k, tx)] | _ => [] end.

Definition broadcasts (h : list effect) : list (pivot_key * PreparedTx) :=
  h ≫= fun e => match e with Broadcasted k tx _ => [(k, tx)] | _ => [] end.

Definition lost (h : list effect) : list ResponseRecord :=
  h ≫= fun e => match e with OutcomeLost rec => [rec] | _ => [] end.

Lemma distinct_one h x : signed_txs h = [x] → hashes_distinct h.
Proof.
  intros Hx. assert (Hin : ∀ k cd tx, Signed k cd tx ∈ h → (k, tx) = x).
  { intros k cd tx Hs. apply list_elem_of_singleton. rewrite <- Hx. apply list_elem_of_bind.
    exists (Signed k cd tx). split; [set_solver|done]. }
  intros k1 cd1 tx1 k2 cd2 tx2 H1%Hin H2%Hin _. rewrite <- H2 in H1. by injection H1.
Qed.

Lemma none_lost h : lost h = [] → outcomes_kept h.
Proof.
  intros Hn rec Hin. apply (not_elem_of_nil rec). rewrite <- Hn. apply list_elem_of_bind.
  exists (OutcomeLost rec). split; [set_solver|done].
Qed.
