(* ===== verification/ObserverSafe.v ===== *)
(** * Safety of the observer

    The invariant of [Observer]'s loop, carried through every handler, sweep,
    commit and broadcast, through iterations that fail and through restarts after
    the process is killed at any call.  It gives three theorems: a transaction is
    broadcast only after its intent is in the database; while an accepted
    transaction stands for a move, no other is broadcast for it; and a session
    takes up the games, batches and position another one left. *)

From Stdlib Require Import ZArith Lia.
From stdpp Require Import base numbers list gmap sets.
From S2P Require Import Prelude Encoding FaultGame Calldata Events Reorg Source Game GameReader.
From S2P Require Import GameEvents ObserverWatch ObserverStore Observer ObserverLogic ObserverDemo.

Local Open Scope Z_scope.

(** ** The invariant *)

Fixpoint storage_failures (h : list effect) : nat :=
  match h with
  | [] => 0
  | StorageFailed :: h => Datatypes.S (storage_failures h)
  | _ :: h => storage_failures h
  end.

Lemma storage_failures_app h t : storage_failures (h ++ t) = (storage_failures h + storage_failures t)%nat.
Proof. induction h as [|[] h IH]; cbn; lia. Qed.

(** The records of a list, in a map by their keys. *)
Definition insert_all {A} (key : A → Z) (m : gmap Z A) (rs : list A) : gmap Z A :=
  foldl (fun m r => <[key r := r]> m) m rs.
Abbreviation all_games := (insert_all game_id).
Abbreviation all_batches := (insert_all batch_end_index).

Lemma apply_batch_games `{Hex} v b : v_games (apply_batch v b) = all_games (v_games v) (batch_games b).
Proof.
  assert (Hb : ∀ rs v, v_games (foldl view_batch v rs) = v_games v)
    by (induction rs as [|r rs IH]; intros v0; [done|apply (IH (view_batch v0 r))]).
  assert (Hr : ∀ rs v, v_games
      (foldl (fun v r => view_response v (hash_of r) (canonical_rec r (hash_of r))) v rs) = v_games v)
    by (induction rs as [|r rs IH]; intros v0; [done|apply (IH (view_response v0 _ _))]).
  assert (Hg : ∀ rs v, v_games (foldl view_game v rs) = all_games (v_games v) rs)
    by (induction rs as [|r rs IH]; intros v0; [done|apply (IH (view_game v0 r))]).
  unfold apply_batch. destruct (batch_cursor b), (batch_window b); cbn; by rewrite Hb, Hr, Hg.
Qed.

Lemma apply_batch_batches `{Hex} v b :
  v_batches (apply_batch v b) = all_batches (v_batches v) (batch_batches b).
Proof.
  assert (Hb : ∀ rs v, v_batches (foldl view_batch v rs) = all_batches (v_batches v) rs)
    by (induction rs as [|r rs IH]; intros v0; [done|apply (IH (view_batch v0 r))]).
  assert (Hr : ∀ rs v, v_batches
      (foldl (fun v r => view_response v (hash_of r) (canonical_rec r (hash_of r))) v rs) = v_batches v)
    by (induction rs as [|r rs IH]; intros v0; [done|apply (IH (view_response v0 _ _))]).
  assert (Hg : ∀ rs v, v_batches (foldl view_game v rs) = v_batches v)
    by (induction rs as [|r rs IH]; intros v0; [done|apply (IH (view_game v0 r))]).
  unfold apply_batch. destruct (batch_cursor b), (batch_window b); cbn; by rewrite Hb, Hr, Hg.
Qed.

(** Cursor and window, which the records do not touch. *)
Lemma apply_batch_position `{Hex} v b :
  v_cursor (apply_batch v b) = match batch_cursor b with Some n => Some n | None => v_cursor v end ∧
  v_window (apply_batch v b) = match batch_window b with Some hs => Some hs | None => v_window v end.
Proof.
  assert (Hb : ∀ rs v, v_cursor (foldl view_batch v rs) = v_cursor v ∧ v_window (foldl view_batch v rs) = v_window v)
    by (induction rs as [|r rs IH]; intros v0; [done|apply (IH (view_batch v0 r))]).
  assert (Hr : ∀ rs v, let v' := foldl (fun v r => view_response v (hash_of r) (canonical_rec r (hash_of r))) v rs in
    v_cursor v' = v_cursor v ∧ v_window v' = v_window v)
    by (induction rs as [|r rs IH]; intros v0; [done|apply (IH (view_response v0 _ _))]).
  assert (Hg : ∀ rs v, v_cursor (foldl view_game v rs) = v_cursor v ∧ v_window (foldl view_game v rs) = v_window v)
    by (induction rs as [|r rs IH]; intros v0; [done|apply (IH (view_game v0 r))]).
  unfold apply_batch. destruct (Hb (batch_batches b) (foldl (fun v r => view_response v (hash_of r)
    (canonical_rec r (hash_of r))) (foldl view_game v (batch_games b)) (batch_responses b))) as [Hb1 Hb2].
  destruct (Hr (batch_responses b) (foldl view_game v (batch_games b))) as [Hr1 Hr2].
  destruct (Hg (batch_games b) v) as [Hg1 Hg2].
  destruct (batch_cursor b), (batch_window b); cbn; split; congruence.
Qed.

Section Safe.
Context {S W : Type} `{!Store S W} `{!Hex} `{!HexOk} `{!StoreOk S W} `{!ObserverWorld W}
  `{!ObserverWorldOk W}.
Variable keccak256 : list u8 → list u8.

(** The configuration of the watcher, whether the session goes on from the position
    in the database, and the failures of the database before it. *)
Variables (wcfg : WatcherConfig) (placed : Prop) (failed_before : nat).

Implicit Types (h : list effect) (l : Observer S) (b : PersistBatch).

Definition unfailed h : Prop := (storage_failures h ≤ failed_before)%nat.

(** The position of the watcher, which has [moved] since the last commit or not. *)
Definition position (moved : option Z) (v : StoreView) (wt : Watcher) : Prop :=
  match moved with
  | Some n => last_confirmed_block wt = Some n
  | None => v_cursor v = last_confirmed_block wt ∧ default [] (v_window v) = window_snapshot wt
  end.

(** The state in an iteration whose batch is [b] so far. *)
Record working (moved : option Z) h l b : Prop := {
  wk_shows : shows (persistence l) (view_after h);
  wk_booked : booked h;
  wk_watcher : watcher_typed (watcher l);
  wk_config : watcher_config (watcher l) = wcfg;
  wk_moved n : moved = Some n → last_confirmed_block (watcher l) = Some n;
  wk_ids : map_Forall (fun i r => game_id r = i ∧ in_u128 i) (games l);
  wk_batch : batch_ok b;
  wk_unplaced : batch_cursor b = None ∧ batch_window b = None;
  wk_intents : Forall2 (intent_for h) (pending_broadcasts l) (batch_responses b);
  wk_nodup : NoDup (pending_key <$> pending_broadcasts l);
  wk_inserts : iteration_pivot_inserts l = pending_key <$> pending_broadcasts l;
  wk_new p : p ∈ pending_broadcasts l → ¬ live_key (view_after h) (pending_key p);
  wk_pending p : p ∈ pending_broadcasts l → pending_key p ∈ submitted_pivots l;
  wk_live k : live_key (view_after h) k → k ∈ submitted_pivots l;
  wk_failures : (failed_before ≤ storage_failures h)%nat;
  wk_games : unfailed h → games l = all_games (v_games (view_after h)) (batch_games b);
  wk_batches : unfailed h → batches l = all_batches (v_batches (view_after h)) (batch_batches b);
  wk_position : unfailed h → placed → position moved (view_after h) (watcher l);
}.

(** Between iterations. *)
Definition ready h l : Prop := working None h l PersistBatch_new.

Lemma working_durable moved h l b : working moved h l b → durable h (persistence l).
Proof. intros Hw. split; [by eapply wk_shows|by eapply wk_booked]. Qed.

Lemma unfailed_snoc h e : unfailed (h ++ [e]) → unfailed h.
Proof. unfold unfailed. rewrite storage_failures_app. lia. Qed.

Lemma intent_for_snoc h e p rec : intent_for h p rec → intent_for (h ++ [e]) p rec.
Proof.
  intros ([cd Hs] & Hr). split; [|done]. exists cd. apply elem_of_app. by left.
Qed.

(** An effect that leaves the database alone. *)
Lemma working_effect moved h l b e :
  working moved h l b → booked (h ++ [e]) → (∀ v, step_view v e = v) → working moved (h ++ [e]) l b.
Proof.
  intros Hw Hb Hv. assert (Hva : view_after (h ++ [e]) = view_after h) by by rewrite view_after_snoc.
  split; rewrite ?Hva; try by eapply Hw.
  - done.
  - eapply Forall2_impl; [by eapply wk_intents|]. intros p r. apply intent_for_snoc.
  - rewrite storage_failures_app. pose proof (wk_failures _ _ _ _ Hw). lia.
  - intros Hu%unfailed_snoc. by eapply Hw.
  - intros Hu%unfailed_snoc. by eapply Hw.
  - intros Hu%unfailed_snoc. by eapply Hw.
Qed.

Lemma working_quiet moved h l b e :
  working moved h l b → (∀ k tx r, e ≠ Broadcasted k tx r) → (∀ v, step_view v e = v) →
  working moved (h ++ [e]) l b.
Proof.
  intros Hw Hne Hv. apply working_effect; [done| |done]. apply booked_quiet; [by eapply wk_booked|done..].
Qed.

Lemma batch_ok_game b r : batch_ok b → in_u128 (game_id r) → batch_ok (upsert_game b r).
Proof. intros [Hg Hr Hb Hc Hw] Hi. split; cbn; try done. apply Forall_app. split; [done|by apply Forall_singleton]. Qed.

Lemma batch_ok_batch b r : batch_ok b → in_u64 (batch_end_index r) → batch_ok (upsert_batch b r).
Proof. intros [Hg Hr Hb Hc Hw] Hi. split; cbn; try done. apply Forall_app. split; [done|by apply Forall_singleton]. Qed.

Lemma batch_ok_response b h p r : batch_ok b → intent_for h p r → batch_ok (upsert_response b r).
Proof.
  intros [Hg Hr Hb Hc Hw] Hi. split; cbn; try done. apply Forall_app. split; [done|].
  apply Forall_singleton. pose proof (intent_for_hash h p r Hi) as [Hh _].
  destruct Hi as (_ & Hl & Hx & _). rewrite Hh, Hx, strip_hex, hex_decode_encode. done.
Qed.

Lemma batch_ok_new : batch_ok PersistBatch_new.
Proof. by split. Qed.

(** A record is written to the map and to the batch. *)
Lemma working_put moved h l b gid r :
  working moved h l b → game_id r = gid → in_u128 gid →
  working moved h (with_games (<[gid := r]> (games l)) l) (upsert_game b r).
Proof.
  intros Hw Hg Hi. split; try by eapply Hw.
  - cbn. apply map_Forall_insert_2; [done|]. by eapply wk_ids.
  - apply batch_ok_game; [by eapply wk_batch|by rewrite Hg].
  - intros Hu. cbn. rewrite (wk_games _ _ _ _ Hw Hu), <- Hg. unfold insert_all. by rewrite foldl_app.
Qed.

Lemma working_state_root moved h l b r :
  working moved h l b → in_u64 (batch_end_index r) →
  working moved h (with_batches (<[batch_end_index r := r]> (batches l)) l) (upsert_batch b r).
Proof.
  intros Hw Hi. split; try by eapply Hw.
  - apply batch_ok_batch; [by eapply wk_batch|done].
  - intros Hu. cbn. rewrite (wk_batches _ _ _ _ Hw Hu). unfold insert_all. by rewrite foldl_app.
Qed.

(** A transaction is queued for a move that has not been submitted. *)
Lemma working_queue moved h l b p r :
  working moved h l b → intent_for h p r → pending_key p ∉ submitted_pivots l →
  working moved h
    (with_pending (pending_broadcasts l ++ [p])
      (with_pivots ({[pending_key p]} ∪ submitted_pivots l)
        (iteration_pivot_inserts l ++ [pending_key p]) l)) (upsert_response b r).
Proof.
  intros Hw Hi Hk. assert (Hp : pending_key p ∉ pending_key <$> pending_broadcasts l).
  { intros (q & Hq & Hin)%list_elem_of_fmap. apply Hk. rewrite Hq. by eapply wk_pending. }
  split; try by eapply Hw.
  - eapply batch_ok_response; [by eapply wk_batch|done].
  - cbn. apply Forall2_app; [by eapply wk_intents|by constructor].
  - cbn. rewrite fmap_app. apply NoDup_app. split_and!; [by eapply wk_nodup| |apply NoDup_singleton].
    intros k Hin ->%list_elem_of_singleton. done.
  - cbn. by rewrite fmap_app, (wk_inserts _ _ _ _ Hw).
  - cbn. intros q [Hq| ->%list_elem_of_singleton]%elem_of_app; [by eapply wk_new|].
    intros Hl. by apply Hk, (wk_live _ _ _ _ Hw).
  - cbn. intros q [Hq| ->%list_elem_of_singleton]%elem_of_app; [|set_solver].
    apply elem_of_union_r. by eapply wk_pending.
  - cbn. intros k Hl. apply elem_of_union_r. by eapply wk_live.
Qed.

(** ** Moves and events *)

(** The first computation of a sequence. *)
Ltac step := apply wp_bind; cbn beta iota zeta.
Ltac get_self := step; apply wp_self; cbn beta iota zeta.

Lemma wp_queue moved qc n b Q E h l :
  working moved h l b → key_of_call qc ∉ submitted_pivots l →
  (∀ r h' l', working moved h' l' r.2 →
     submitted_pivots l' ⊆ {[key_of_call qc]} ∪ submitted_pivots l → Q r h' l') →
  wp (queue_l1_call qc n b) Q E h l.
Proof.
  intros Hw Hk HQ. unfold queue_l1_call. step. apply wp_call; [by eapply working_durable|].
  intros w Hg. destruct (build_and_sign (calldata qc) w).1 as [tx|e] eqn:Hs.
  - apply signed_hash in Hs. cbn in *. set (e := Signed _ _ _) in *.
    assert (Hw' : working moved (h ++ [e]) l b) by by apply working_quiet.
    step. apply wp_modify. rewrite decide_False by done. step. apply wp_modify, wp_ret, HQ.
    + cbn. apply (working_queue moved (h ++ [e]) l b {| prepared := tx; pending_key := key_of_call qc |}); [done| |done].
      split_and!; try done. exists (calldata qc). set_solver.
    + done.
  - cbn in *. rewrite app_nil_r. apply wp_ret, HQ; [done|set_solver].
Qed.

Lemma wp_calldata moved rec mv b Q E h l :
  working moved h l b → (∀ cd, Q cd h l) → wp (build_calldata_for_move keccak256 rec mv) Q E h l.
Proof.
  intros Hw HQ. unfold build_calldata_for_move, build_terminate_calldata.
  destruct mv; try by (destruct (encode_calldata _ _ _); apply wp_ret).
  get_self. destruct (negb _); [by apply wp_ret|].
  destruct (disputed_log_index rec) as [d|]; [|by apply wp_ret].
  destruct (batches l !! d) as [br|]; [|by apply wp_ret].
  case_decide; [by apply wp_ret|]. step. apply wp_ask; [by eapply working_durable|].
  intros w. destruct (terminate_bundle_at _ _ w).1; [|by apply wp_ret].
  destruct (encode_calldata_with_bundle _ _ _ _); by apply wp_ret.
Qed.

Lemma wp_move moved rec mv n b Q E h l :
  working moved h l b → (∀ r h' l', working moved h' l' r.2 → Q r h' l') →
  wp (queue_move keccak256 rec mv n b) Q E h l.
Proof.
  intros Hw HQ. unfold queue_move. step. eapply wp_calldata; [done|].
  intros [cd|]; [|by apply wp_ret, HQ].
  get_self. unfold has_submitted_for_pivot. case_bool_decide as Hin; [by apply wp_ret, HQ|].
  step. eapply wp_queue; [done|done|]. intros r h' l' Hw' _. by apply wp_ret, HQ.
Qed.

Lemma wp_play moved rec n b Q E h l :
  working moved h l b → (∀ r h' l', working moved h' l' r.2 → Q r h' l') →
  wp (maybe_play_move keccak256 rec n b) Q E h l.
Proof.
  intros Hw HQ. unfold maybe_play_move. destruct (negb (is_in_progress _)); [by apply wp_ret, HQ|].
  case_decide; [by apply wp_ret, HQ|]. destruct (negb _); [by apply wp_ret, HQ|].
  step. apply wp_ask; [by eapply working_durable|]. intros w.
  destruct (compute_next_move _ _ _) as [mv|]; [|by apply wp_ret, HQ].
  destruct mv; [by apply wp_ret, HQ|by eapply wp_move..].
Qed.

Lemma wp_then_play moved rec n b Q E h l :
  working moved h l b → (∀ r h' l', working moved h' l' r.2 → Q r h' l') →
  wp (then_play keccak256 rec n b) Q E h l.
Proof.
  intros Hw HQ. unfold then_play. step. eapply wp_play; [done|].
  intros r h' l' Hw'. by apply wp_ret, HQ.
Qed.

Lemma wp_put moved gid rec b Q E h l :
  working moved h l b → game_id rec = gid → in_u128 gid →
  (∀ b' l', working moved h l' b' → submitted_pivots l' = submitted_pivots l → Q b' h l') →
  wp (put_record gid rec b) Q E h l.
Proof.
  intros Hw Hg Hi HQ. unfold put_record. step. apply wp_modify, wp_ret, HQ; [|done].
  by apply working_put.
Qed.

(** The record of a game, with the range of its number. *)
Lemma working_game moved h l b gid rec :
  working moved h l b → games l !! gid = Some rec → game_id rec = gid ∧ in_u128 gid.
Proof. intros Hw Hg. by apply (wk_ids _ _ _ _ Hw) in Hg. Qed.

(** A record is updated in place, and the handler returns. *)
Lemma wp_update moved gid rec b (A : EventHandling) Q E h l :
  working moved h l b → game_id rec = gid → in_u128 gid →
  (∀ r h' l', working moved h' l' r.2 → Q r h' l') →
  wp (b ← put_record gid rec b; mret (A, b)) Q E h l.
Proof.
  intros Hw Hg Hi HQ. step. eapply wp_put; [done..|]. intros b' l' Hw' _. by apply wp_ret, HQ.
Qed.

(** A record is updated, and the observer plays if it is its turn. *)
Lemma wp_update_play moved gid rec n b Q E h l :
  working moved h l b → game_id rec = gid → in_u128 gid →
  (∀ r h' l', working moved h' l' r.2 → Q r h' l') →
  wp (b ← put_record gid rec b; then_play keccak256 rec n b) Q E h l.
Proof.
  intros Hw Hg Hi HQ. step. eapply wp_put; [done..|]. intros b' l' Hw' _. by eapply wp_then_play.
Qed.

Lemma wp_event moved e b Q E h l :
  working moved h l b → game_event_typed e →
  (∀ r h' l', working moved h' l' r.2 → Q r h' l') →
  wp (handle_event keccak256 e b) Q E h l.
Proof.
  intros Hw Ht HQ. destruct e as [gid ? d c o|gid ? i c o|gid ? agree o|gid final ? ? o|i c ? pe root o]; cbn in Ht |- *.
  - unfold handle_game_opened. get_self. destruct (games l !! gid); [by apply wp_ret, HQ|].
    destruct Ht as [Hi _]. by eapply wp_update.
  - unfold handle_midpoint_submitted. get_self. destruct (games l !! gid) as [rec|] eqn:Hg; [|by apply wp_ret, HQ].
    destruct (working_game _ _ _ _ _ _ Hw Hg) as [Hid Hi]. destruct (negb (state_known rec)).
    + destruct (negb _); [by apply wp_ret, HQ|]. by eapply wp_update.
    + case_decide; [by apply wp_ret, HQ|].
      destruct (apply_transition _ _); [|by apply wp_ret, HQ]. by eapply wp_update_play.
  - unfold handle_response_submitted. get_self. destruct (games l !! gid) as [rec|] eqn:Hg; [|by apply wp_ret, HQ].
    destruct (working_game _ _ _ _ _ _ Hw Hg) as [Hid Hi]. destruct (negb (state_known rec)).
    + destruct (negb _); [by apply wp_ret, HQ|]. by eapply wp_update.
    + destruct (apply_transition _ _); [|by apply wp_ret, HQ]. by eapply wp_update_play.
  - unfold handle_game_settled. get_self. destruct (games l !! gid) as [rec|] eqn:Hg; [|by apply wp_ret, HQ].
    destruct (working_game _ _ _ _ _ _ Hw Hg) as [Hid Hi].
    destruct (is_in_progress final); [by apply wp_ret, HQ|].
    destruct (apply_settlement _ _); [|by apply wp_ret, HQ]. by eapply wp_update.
  - unfold handle_state_root. step. apply wp_modify, wp_ret, HQ. destruct Ht as [Hi _]. by apply working_state_root.
Qed.

Lemma wp_events moved es b moves Q E h l :
  working moved h l b → Forall game_event_typed es →
  (∀ r h' l', working moved h' l' r.2 → Q r h' l') →
  wp (handle_events keccak256 es b moves) Q E h l.
Proof.
  intros Hw Hes HQ. revert b moves h l Hw. induction Hes as [|e es He _ IH]; intros b moves h l Hw.
  - by apply wp_ret, HQ.
  - cbn. step. eapply wp_event; [done..|]. intros r h' l' Hw'. by apply IH.
Qed.

(** ** Sweeps *)

Lemma wp_play_owed moved m ids n b k Q E h l :
  working moved h l b → (∀ r h' l', working moved h' l' r.2 → Q r h' l') →
  wp (play_owed keccak256 m ids n b k) Q E h l.
Proof.
  intros Hw HQ. revert b k h l Hw. induction ids as [|gid ids IH]; intros b k h l Hw; cbn; [by apply wp_ret, HQ|].
  destruct (m !! gid) as [rec|]; [|by apply IH]. step. eapply wp_play; [done|]. intros r h' l' Hw'. by apply IH.
Qed.

Lemma wp_sweep_owed moved b Q E h l :
  working moved h l b → (∀ r h' l', working moved h' l' r.2 → Q r h' l') →
  wp (sweep_owed_moves keccak256 b) Q E h l.
Proof.
  intros Hw HQ. unfold sweep_owed_moves, game_ids. get_self. step.
  apply wp_ask; [by eapply working_durable|]. intros w. by eapply wp_play_owed.
Qed.

Definition timeout_key (gid : Z) : pivot_key := (gid, KindTimeout, None).

Lemma wp_claims moved ids n b k Q E h l :
  working moved h l b → NoDup ids → (∀ gid, gid ∈ ids → timeout_key gid ∉ submitted_pivots l) →
  (∀ r h' l', working moved h' l' r.2 → Q r h' l') →
  wp (claim_timeouts keccak256 ids n b k) Q E h l.
Proof.
  intros Hw Hnd. revert b k h l Hw. induction Hnd as [|gid ids Hnin Hnd IH]; intros b k h l Hw Hfree HQ; cbn.
  { by apply wp_ret, HQ. }
  unfold read_state. step. get_self. step. apply wp_ask; [by eapply working_durable|].
  intros w. apply wp_ret. destruct (read_and_validate _ _ _) as [observed|]; [|apply IH; set_solver].
  get_self. destruct (games l !! gid) as [old|] eqn:Hg; [|apply IH; set_solver].
  destruct (working_game _ _ _ _ _ _ Hw Hg) as [Hid Hi].
  step. eapply wp_put; [done..|]. intros b1 l1 Hw1 Hsub.
  assert (Hnext : ∀ gid', gid' ∈ ids → timeout_key gid' ∉ submitted_pivots l1).
  { intros gid' Hin. rewrite Hsub. apply Hfree. set_solver. }
  destruct (negb _); [by apply IH|]. case_decide; [by apply IH|]. case_decide; [by apply IH|].
  step. eapply wp_queue; [done| |].
  - change (timeout_key gid ∉ submitted_pivots l1). rewrite Hsub. apply Hfree. set_solver.
  - intros r h' l' Hw' Hgrow. apply IH; [done| |done]. intros gid' Hin Hsubm.
    apply Hgrow, elem_of_union in Hsubm as [[= ->]%elem_of_singleton|Hsubm]; [done|].
    by apply (Hnext gid').
Qed.

Lemma wp_sweep_claims moved b Q E h l :
  working moved h l b → (∀ r h' l', working moved h' l' r.2 → Q r h' l') →
  wp (sweep_timeout_claims keccak256 b) Q E h l.
Proof.
  intros Hw HQ. unfold sweep_timeout_claims, game_ids. get_self. destruct (negb _); [by apply wp_ret, HQ|].
  step. apply wp_ask; [by eapply working_durable|]. intros w.
  pose proof (hash_order_perm (filter (fun i => selects (claimable l) (games l) i = true) (map_to_list (games l)).*1) w) as Hp.
  eapply wp_claims; [done| | |done].
  - rewrite Hp. apply NoDup_filter, NoDup_fst_map_to_list.
  - intros gid. rewrite Hp, list_elem_of_filter. intros [Hsel _] Hin. unfold selects in Hsel.
    destruct (games l !! gid) as [rec|] eqn:Hg; [|done].
    destruct (working_game _ _ _ _ _ _ Hw Hg) as [<- _]. unfold claimable in Hsel.
    apply andb_prop in Hsel as [_ Hsel]. unfold has_submitted_for_pivot in Hsel.
    by rewrite bool_decide_true in Hsel.
Qed.

(** ** Broadcasts *)

Lemma ready_pending h l : ready h l → pending_broadcasts l = [] ∧ iteration_pivot_inserts l = [].
Proof.
  intros Hr. pose proof (wk_intents _ _ _ _ Hr) as Hi. inversion Hi as [Hp|]. split; [done|].
  by rewrite (wk_inserts _ _ _ _ Hr), <- Hp.
Qed.

(** [l'] is [l] but for the reservation of the move [k], which it may have given
    up. *)
Record released (k : pivot_key) l l' : Prop := {
  rl_persistence : persistence l' = persistence l;
  rl_watcher : watcher l' = watcher l;
  rl_games : games l' = games l;
  rl_batches : batches l' = batches l;
  rl_pending : pending_broadcasts l' = pending_broadcasts l;
  rl_inserts : iteration_pivot_inserts l = [] → iteration_pivot_inserts l' = [];
  rl_submitted : submitted_pivots l ∖ {[k]} ⊆ submitted_pivots l';
}.

Lemma wp_release k Q E h l :
  (∀ l', released k l l' → Q () h l') → wp (release_pivot_after_broadcast_failure k) Q E h l.
Proof.
  intros HQ. unfold release_pivot_after_broadcast_failure. get_self. step. apply wp_modify.
  case_decide; [apply wp_ret, HQ|apply wp_modify, HQ]; (split; try done).
  - cbn. set_solver.
  - cbn. by intros ->.
Qed.

(** The outcome of a broadcast is in the database. *)
Lemma ready_status h l l' p rec st s :
  ready h l → good h → (∃ cd, Signed (pending_key p) cd (prepared p) ∈ h) →
  v_responses (view_after h) !! pending_hash p = Some rec → resp_status rec = Intent →
  key_of_record rec = pending_key p →
  (st = Pending ∧ l' = l) ∨
    (st = Failed ∧ ¬ standing h (pending_key p) (prepared p) ∧ released (pending_key p) l l') →
  shows s (view_response (view_after h) (pending_hash p) (set_response_status rec st)) →
  ready (h ++ [StatusStored (set_response_status rec st)]) (with_persistence s l').
Proof.
  intros Hr Hg Hs Hrec Hint Hk Hst Hsh. destruct (ready_pending h l Hr) as [Hpend Hins].
  destruct (ok_v_responses _ (shows_ok _ _ (wk_shows _ _ _ _ Hr)) _ _ Hrec) as [Hx _].
  assert (Hv : view_after (h ++ [StatusStored (set_response_status rec st)]) =
    view_response (view_after h) (pending_hash p) (set_response_status rec st)).
  { rewrite view_after_snoc. cbn. by rewrite (hash_of_encode _ (pending_hash p)). }
  assert (Hrel : released (pending_key p) l l').
  { destruct Hst as [[_ ->]|(_ & _ & ?)]; [|done]. split; try done. set_solver. }
  destruct Hrel as [_ Hwt Hgm Hbt Hpn Hin Hsub].
  assert (Hu : unfailed (h ++ [StatusStored (set_response_status rec st)]) → unfailed h) by apply unfailed_snoc.
  split; cbn [persistence watcher games batches submitted_pivots iteration_pivot_inserts pending_broadcasts with_persistence];
    rewrite ?Hv, ?Hwt, ?Hgm, ?Hbt, ?Hpn, ?Hpend, ?(Hin Hins); try by eapply Hr.
  - done.
  - eapply booked_status; [by eapply wk_booked|done|exact Hs|exact Hrec|done..|]. tauto.
  - constructor.
  - constructor.
  - done.
  - intros q ?%elem_of_nil. done.
  - intros q ?%elem_of_nil. done.
  - intros k (x & r & Hxr & Hl & <-). cbn in Hxr. apply lookup_insert_Some in Hxr as [[<- <-]|[Hne Hxr]].
    + destruct Hst as [[-> ->]|(-> & _)]; [|by destruct Hl as [|[|]]].
      eapply wk_live; [exact Hr|]. exists (pending_hash p), rec. split_and!; [done|by left|done].
    + apply Hsub, elem_of_difference. split; [eapply wk_live; [exact Hr|by exists x, r]|].
      intros Heq%elem_of_singleton. apply Hne.
      eapply (bk_unique h (wk_booked _ _ _ _ Hr)); [exact Hrec|exact Hxr|by left|done|congruence].
  - rewrite storage_failures_app. pose proof (wk_failures _ _ _ _ Hr). lia.
  - intros Hu'%Hu. by apply (wk_games _ _ _ _ Hr).
  - intros Hu'%Hu. by apply (wk_batches _ _ _ _ Hr).
  - intros Hu'%Hu Hpl. by apply (wk_position _ _ _ _ Hr).
Qed.

(** An error of the database ends the session; what is in it stays. *)
Definition fatal (E : ObserverError → list effect → Observer S → Prop) : Prop :=
  ∀ e h l, exit_code e ≠ Transient → durable h (persistence l) → E e h l.

Lemma durable_failed h s : durable h s → durable (h ++ [StorageFailed]) s.
Proof.
  intros [Hs Hb]. split; [by rewrite view_after_snoc|by apply booked_quiet].
Qed.

(** The second half of a broadcast: from the outcome to its record. *)
Lemma wp_outcome h l l' p rec st Q (E : ObserverError → list effect → Observer S → Prop) :
  ready h l → good h → (∃ cd, Signed (pending_key p) cd (prepared p) ∈ h) →
  v_responses (view_after h) !! pending_hash p = Some rec → resp_status rec = Intent →
  key_of_record rec = pending_key p →
  (st = Pending ∧ l' = l) ∨
    (st = Failed ∧ ¬ standing h (pending_key p) (prepared p) ∧ released (pending_key p) l l') →
  fatal E →
  (∀ l'', ready (h ++ [StatusStored (set_response_status rec st)]) l'' →
     Q () (h ++ [StatusStored (set_response_status rec st)]) l'') →
  wp (found ← storage (load_response (pending_hash p)) [];
      match found with
      | Some existing =>
          let rec := set_response_status existing st in
          storage (store_response rec) [StatusStored rec]
      | None => mret ()
      end) Q E h l'.
Proof.
  intros Hr Hg Hs Hrec Hint Hk Hst HE HQ. pose proof (wk_shows _ _ _ _ Hr) as Hsh.
  assert (Hp : persistence l' = persistence l).
  { destruct Hst as [[_ ->]|(_ & _ & [])]; done. }
  assert (Hd : durable h (persistence l')) by (rewrite Hp; by eapply working_durable).
  destruct (ok_v_responses _ (shows_ok _ _ Hsh) _ _ Hrec) as [Hx Hl].
  step. eapply wp_read; [done|rewrite Hp; by apply shows_response| |].
  - intros found ->. rewrite Hrec. cbn. eapply wp_write; [done| | |].
    + rewrite Hp. by apply (shows_store _ (view_after h) (pending_hash p)).
    + intros [] s' _ Hs'. apply HQ. by eapply ready_status.
    + intros _. apply HE; [done|]. by apply durable_failed.
  - intros _. apply HE; [done|]. by apply durable_failed.
Qed.

(** The broadcast of a held transaction; the others stay held. *)
Lemma wp_broadcast p Q (E : ObserverError → list effect → Observer S → Prop) h l :
  ready h l → held h p → fatal E →
  (∀ h' l', ready h' l' →
     (∀ q, held h q → pending_hash q ≠ pending_hash p → held h' q) → Q () h' l') →
  wp (broadcast_and_update_status p) Q E h l.
Proof.
  intros Hr Hheld HE HQ. pose proof Hheld as ([cd Hs] & rec & Hrec & Hint & Hk & Hraw).
  unfold broadcast_and_update_status. step. apply wp_call; [by eapply working_durable|].
  intros w Hg. set (h1 := h ++ _) in *. assert (Hva : view_after h1 = view_after h) by (unfold h1; by rewrite view_after_snoc).
  assert (Hr1 : ready h1 l).
  { apply working_effect; [done| |done]. apply booked_broadcast; [by eapply wk_booked| |done].
    by eapply good_prefix. }
  assert (Hs1 : ∃ cd, Signed (pending_key p) cd (prepared p) ∈ h1) by (exists cd; set_solver).
  assert (Hothers : ∀ st q, held h q → pending_hash q ≠ pending_hash p →
    held (h1 ++ [StatusStored (set_response_status rec st)]) q).
  { intros st q ([cd' Hq] & r & Hrq & Hrest) Hne. split; [exists cd'; set_solver|]. exists r.
    split; [|done]. rewrite view_after_snoc, Hva. cbn.
    rewrite (hash_of_encode _ (pending_hash p)); [by rewrite lookup_insert_ne|].
    apply (ok_v_responses _ (shows_ok _ _ (wk_shows _ _ _ _ Hr)) _ _ Hrec). }
  destruct (broadcast (prepared p) w).1 as [[]|e] eqn:Hb.
  - step. apply wp_ret. eapply (wp_outcome h1 l l p rec); try done; [by rewrite Hva|by left|].
    intros l'' Hr''. apply HQ; [done|]. apply Hothers.
  - step. step. apply wp_ask; [by eapply working_durable|]. intros w'. step. apply wp_release.
    intros l' Hrel. apply wp_ret.
    eapply (wp_outcome h1 l l' p rec); try done; [by rewrite Hva|right; split_and!; [done| |done]|].
    + apply not_standing.
    + intros l'' Hr''. apply HQ; [done|]. apply Hothers.
Qed.

Lemma wp_broadcast_all ps Q (E : ObserverError → list effect → Observer S → Prop) h l :
  ready h l → NoDup (pending_hash <$> ps) → (∀ p, p ∈ ps → held h p) → fatal E →
  (∀ h' l', ready h' l' → Q () h' l') → wp (broadcast_all ps) Q E h l.
Proof.
  intros Hr Hnd Hheld HE HQ. revert h l Hr Hnd Hheld.
  induction ps as [|p ps IH]; intros h l Hr Hnd Hheld; cbn; [by apply wp_ret, HQ|].
  cbn in Hnd. apply NoDup_cons in Hnd as [Hnin Hnd]. step.
  apply wp_broadcast; [done|apply Hheld; set_solver|done|].
  intros h' l' Hr' Hothers. apply IH; [done..|]. intros q Hq. apply Hothers; [apply Hheld; set_solver|].
  intros Heq. apply Hnin. rewrite <- Heq. by apply list_elem_of_fmap_2.
Qed.

(** The transaction of an intent record can be broadcast. *)
Definition recoverable h (rec : ResponseRecord) : Prop :=
  resp_status rec = Intent →
  ∃ p, pending_of_record rec = Some p ∧ held h p ∧ tx_hash_hex rec = hex_encode (pending_hash p).

Lemma booked_recoverable h x rec :
  booked h → view_ok (view_after h) → v_responses (view_after h) !! x = Some rec → recoverable h rec.
Proof.
  intros Hb Hok Hrec Hint. destruct (bk_signed h Hb x rec Hrec) as (cd & [x' raw] & Hs & Hx & Hraw).
  cbn in Hx, Hraw. subst x'. destruct (ok_v_responses _ Hok _ _ Hrec) as [Hhex Hl].
  exists {| prepared := {| prepared_hash := x; raw_bytes := raw |}; pending_key := key_of_record rec |}.
  split_and!; [|split; [by exists cd|by exists rec]|done].
  unfold pending_of_record. rewrite Hraw, Hhex. cbn. rewrite !hex_decode_encode. cbn.
  by rewrite decide_True.
Qed.

Lemma wp_rebroadcast recs Q (E : ObserverError → list effect → Observer S → Prop) h l :
  ready h l → NoDup (tx_hash_hex <$> recs) → (∀ rec, rec ∈ recs → recoverable h rec) →
  (∀ h' l', ready h' l' → Q () h' l') → wp (rebroadcast recs) Q E h l.
Proof.
  intros Hr Hnd Hrecs HQ. revert h l Hr Hnd Hrecs.
  induction recs as [|rec recs IH]; intros h l Hr Hnd Hrecs; cbn; [by apply wp_ret, HQ|].
  cbn in Hnd. apply NoDup_cons in Hnd as [Hnin Hnd].
  case_decide as Hint; [|apply IH; [done..|set_solver]].
  destruct (Hrecs rec ltac:(set_solver) Hint) as (p & -> & Hheld & Hhex).
  step. apply wp_try, wp_broadcast; [done..| |].
  - intros e h' l' _ _. cbn. step. apply wp_tell. intros [_ Hkept].
    destruct (Hkept rec). set_solver.
  - intros h' l' Hr' Hothers. cbn. apply IH; [done..|]. intros rec' Hin Hint'.
    destruct (Hrecs rec' ltac:(set_solver) Hint') as (q & Hq & Hheldq & Hhexq).
    exists q. split_and!; [done| |done]. apply Hothers; [done|]. intros Heq. apply Hnin.
    rewrite Hhex, <- Heq, <- Hhexq. by apply list_elem_of_fmap_2.
Qed.

Lemma wp_recover Q (E : ObserverError → list effect → Observer S → Prop) h l :
  ready h l → fatal E → (∀ h' l', ready h' l' → Q () h' l') → wp recover_intent_records Q E h l.
Proof.
  intros Hr HE HQ. pose proof (wk_shows _ _ _ _ Hr) as Hsh. unfold recover_intent_records. step.
  eapply wp_read; [by eapply working_durable|by apply shows_responses| |].
  - intros recs [Hnd Hrecs]. apply wp_rebroadcast; [done..| |done].
    intros rec (x & Hx)%Hrecs. eapply booked_recoverable; [by eapply wk_booked|by eapply shows_ok|done].
  - intros _. apply HE; [done|]. apply durable_failed. by eapply working_durable.
Qed.

(** ** Commits *)

Lemma with_position_ok it h l b :
  working (new_last_confirmed it) h l b → batch_ok (with_position it l b).
Proof.
  intros Hw. pose proof (wk_batch _ _ _ _ Hw) as Hb. unfold with_position.
  destruct (new_last_confirmed it) as [n|] eqn:Hn; [|done]. destruct Hb as [Hg Hr Hbt _ _].
  pose proof (wk_watcher _ _ _ _ Hw) as [[Hc Hl Hh] Hcur _ _ _].
  split; cbn; try done.
  - intros ? [= <-]. apply Hcur. by apply (wk_moved _ _ _ _ Hw).
  - intros ? [= <-]. split; [unfold window_snapshot; lia|done].
Qed.

(** The state after the batch of an iteration is committed, with its broadcasts
    still to be made. *)
Definition committed (s : S) l : Observer S :=
  with_pending [] (with_pivots (submitted_pivots l) [] (with_persistence s l)).

Lemma ready_commit it h l b s :
  working (new_last_confirmed it) h l b → good h →
  shows s (apply_batch (view_after h) (with_position it l b)) →
  ready (h ++ [Committed (with_position it l b)]) (committed s l) ∧
  ∀ p, p ∈ pending_broadcasts l → held (h ++ [Committed (with_position it l b)]) p.
Proof.
  intros Hw Hg Hsh. set (b' := with_position it l b) in *.
  assert (Hrs : batch_responses b' = batch_responses b) by (unfold b', with_position; by destruct (new_last_confirmed it)).
  assert (Hgs : batch_games b' = batch_games b) by (unfold b', with_position; by destruct (new_last_confirmed it)).
  assert (Hbs : batch_batches b' = batch_batches b) by (unfold b', with_position; by destruct (new_last_confirmed it)).
  assert (Hv : view_after (h ++ [Committed b']) = apply_batch (view_after h) b') by by rewrite view_after_snoc.
  pose proof (wk_intents _ _ _ _ Hw) as Hin. rewrite <- Hrs in Hin.
  destruct (booked_commit h b' _ (wk_booked _ _ _ _ Hw) Hg Hin (wk_nodup _ _ _ _ Hw) (wk_new _ _ _ _ Hw)) as [Hb Hheld].
  split; [|done]. split; cbn [committed persistence watcher games batches submitted_pivots iteration_pivot_inserts
    pending_broadcasts with_persistence with_pivots with_pending]; rewrite ?Hv; try by eapply Hw.
  - done.
  - exact Hb.
  - done.
  - apply batch_ok_new.
  - done.
  - constructor.
  - constructor.
  - done.
  - intros q ?%elem_of_nil. done.
  - intros q ?%elem_of_nil. done.
  - intros k (x & r & Hx & Hl & <-). rewrite apply_batch_responses in Hx.
    destruct (decide (x ∈ (pending_hash <$> pending_broadcasts l))) as [Hxp|Hxp].
    + apply list_elem_of_fmap in Hxp as (p & -> & Hp).
      pose proof (pending_hashes_NoDup h _ _ (good_hashes h Hg) Hin (wk_nodup _ _ _ _ Hw)) as Hnd.
      destruct (intents_lookup h _ _ (v_responses (view_after h)) p Hin Hnd Hp) as (r' & Hr' & Hi).
      rewrite Hx in Hr'. injection Hr' as <-. destruct Hi as (_ & _ & _ & _ & -> & _).
      by eapply wk_pending.
    + rewrite (intents_other h _ _ _ _ Hin Hxp) in Hx. eapply wk_live; [exact Hw|by exists x, r].
  - rewrite storage_failures_app. pose proof (wk_failures _ _ _ _ Hw). lia.
  - intros Hu%unfailed_snoc. rewrite apply_batch_games, Hgs. by apply (wk_games _ _ _ _ Hw).
  - intros Hu%unfailed_snoc. rewrite apply_batch_batches, Hbs. by apply (wk_batches _ _ _ _ Hw).
  - intros Hu%unfailed_snoc Hpl. pose proof (wk_position _ _ _ _ Hw Hu Hpl) as Hpos.
    destruct (apply_batch_position (view_after h) b') as [Hc Hwn]. unfold position. rewrite Hc, Hwn.
    destruct (wk_unplaced _ _ _ _ Hw) as [Hbc Hbw]. unfold b', with_position, position in *.
    destruct (new_last_confirmed it) as [n|]; cbn; [done|]. by rewrite Hbc, Hbw.
Qed.

(** A commit that failed, with nothing queued. *)
Lemma ready_uncommitted h l b :
  working None h l b → pending_broadcasts l = [] → ready (h ++ [StorageFailed]) l.
Proof.
  intros Hw Hp. apply (working_quiet _ _ _ _ StorageFailed) in Hw as Hw'; [|done..].
  assert (Hno : ¬ unfailed (h ++ [StorageFailed])).
  { unfold unfailed. rewrite storage_failures_app. pose proof (wk_failures _ _ _ _ Hw). cbn. lia. }
  split; try by eapply Hw'.
  - apply batch_ok_new.
  - done.
  - rewrite Hp. constructor.
  - intros Hu. by destruct Hno.
  - intros Hu. by destruct Hno.
Qed.

(** ** Iterations *)

Lemma wp_mark gid observed n Q E h l :
  ready h l → good h → (∀ r h' l', ready h' l' → Q r h' l') → (∀ e h' l', ready h' l' → E e h' l') →
  wp (mark_state_known gid observed n) Q E h l.
Proof.
  intros Hr Hg HQ HE. unfold mark_state_known. get_self.
  destruct (games l !! gid) as [rec|] eqn:Hrec; [|by apply wp_ret, HQ].
  destruct (working_game _ _ _ _ _ _ Hr Hrec) as [Hid Hi].
  case_decide; [by apply wp_raise, HE|]. destruct (_ && _); [by apply wp_raise, HE|].
  case_decide; [by apply wp_raise, HE|]. step. apply wp_modify.
  set (l1 := with_games _ l). set (b1 := upsert_game _ _).
  assert (Hw : working None h l1 b1) by by apply working_put.
  step. eapply wp_write; [by eapply working_durable| | |].
  - apply shows_commit; [by eapply wk_shows|by eapply wk_batch].
  - intros [] s _ Hs. apply wp_ret, HQ.
    destruct (ready_commit no_events h l1 b1 s Hw Hg Hs) as [Hready _].
    destruct (ready_pending h l Hr) as [Hp Hin]. cbn in Hready. unfold committed in Hready.
    replace (with_persistence s l1) with (with_pending [] (with_pivots (submitted_pivots l1) [] (with_persistence s l1)));
      [done|]. unfold l1, with_persistence, with_games, with_pivots, with_pending. cbn. by rewrite Hp, Hin.
  - intros _. apply HE. apply (ready_uncommitted h l1 b1); [done|]. by apply (ready_pending h l).
Qed.

Lemma wp_hydrate_games ids n k e Q E h l :
  ready h l → good h → (∀ r h' l', ready h' l' → Q r h' l') → wp (hydrate_games ids n k e) Q E h l.
Proof.
  intros Hr Hg HQ. revert k e h l Hr Hg. induction ids as [|gid ids IH]; intros k e h l Hr Hg; cbn; [by apply wp_ret, HQ|].
  unfold read_state. step. get_self. step. apply wp_ask; [by eapply working_durable|]. intros w. apply wp_ret.
  destruct (read_and_validate _ _ _) as [observed|]; [|by apply IH].
  step. apply wp_try. eapply wp_conseq.
  - by apply (wp_mark gid observed n (fun _ => ready) (fun _ => ready)).
  - intros [] h' l' Hg' Hr'; cbn; by apply IH.
  - intros e' h' l' Hg' Hr'. cbn. by apply IH.
Qed.

Lemma wp_hydrate Q E h l :
  ready h l → good h → (∀ h' l', ready h' l' → Q () h' l') → wp hydrate_if_needed Q E h l.
Proof.
  intros Hr Hg HQ. unfold hydrate_if_needed, hydrate_cold_start_games, game_ids. get_self.
  destruct (_ && _); [|by apply wp_ret, HQ]. step. get_self. step.
  apply wp_ask; [by eapply working_durable|]. intros w. apply wp_hydrate_games; [done..|].
  intros r h' l' Hr'. by apply wp_ret, HQ.
Qed.

Lemma wp_watch Q (E : ObserverError → list effect → Observer S → Prop) h l :
  ready h l → (∀ it l', Forall game_event_typed (events it) →
    working (new_last_confirmed it) h l' PersistBatch_new → Q it h l') →
  (∀ e, E e h l) → wp (watch_l1 keccak256) Q E h l.
Proof.
  intros Hr HQ HE w. unfold watch_l1. destruct (killed w) as [[] w1].
  { intros _. rewrite app_nil_r. by eapply working_durable. }
  destruct (watch keccak256 (watcher l) w1) as [[r wt] w2] eqn:Hw. intros _. rewrite app_nil_r.
  apply watch_typed in Hw as [Hcfg Hw]; [|by eapply wk_watcher].
  destruct r as [it|e].
  - destruct Hw as (Htyped & Hev & Hpos). apply HQ; [done|]. split; try by eapply Hr.
    + done.
    + cbn. rewrite Hcfg. by eapply wk_config.
    + intros n Hn. rewrite Hn in Hpos. by destruct Hpos.
    + intros Hu Hpl. cbn. unfold position. destruct (new_last_confirmed it); [by destruct Hpos|].
      subst wt. by apply (wk_position _ _ _ _ Hr).
  - cbn in Hw |- *. subst wt. replace (with_watcher (watcher l) l) with l by by destruct l. apply HE.
Qed.

(** An iteration may be followed by another when it fails with an error that the
    loop takes for a transient one. *)
Definition recoverable_error (e : ObserverError) h l : Prop :=
  durable h (persistence l) ∧ (exit_code e = Transient → ready h l).

Lemma recoverable_fatal : fatal recoverable_error.
Proof. intros e h l He Hd. by split. Qed.

Lemma wp_commit_iteration it b Q h l :
  working (new_last_confirmed it) h l b → good h →
  (∀ h' s ps, ready h' (committed s l) → (∀ p, p ∈ pending_broadcasts l → held h' p) →
     ps = pending_broadcasts l →
     Q () h' (with_pending ps (committed s l))) →
  wp (commit_iteration (with_position it l b)) Q recoverable_error h l.
Proof.
  intros Hw Hg HQ. unfold commit_iteration. destruct (batch_is_empty _) eqn:Hempty.
  - assert (Hb : with_position it l b = PersistBatch_new).
    { unfold batch_is_empty in Hempty. destruct (with_position it l b) as [[] [] [] [] []]; done. }
    assert (Hnone : new_last_confirmed it = None).
    { unfold with_position in Hb. by destruct (new_last_confirmed it). }
    unfold with_position in Hb. rewrite Hnone in Hb, Hw. subst b.
    destruct (ready_pending h l Hw) as [Hp Hin].
    assert (Hl : committed (persistence l) l = l).
    { unfold committed. rewrite with_persistence_id. destruct l. cbn in *. by subst. }
    apply wp_ret. specialize (HQ h (persistence l) []). rewrite Hl in HQ.
    replace l with (with_pending [] l) at 1 by (destruct l; cbn in *; by subst).
    apply HQ; [done| |done]. rewrite Hp. intros p ?%elem_of_nil. done.
  - step. apply wp_try. eapply wp_write; [by eapply working_durable| | |].
    + apply shows_commit; [by eapply wk_shows|by apply (with_position_ok it h)].
    + intros [] s Hg' Hs. cbn. apply wp_modify.
      destruct (ready_commit it h l b s Hw Hg Hs) as [Hready Hheld].
      specialize (HQ _ s (pending_broadcasts l) Hready Hheld eq_refl). by destruct l.
    + intros _. cbn. step. apply wp_modify, wp_raise, recoverable_fatal; [done|].
      apply durable_failed. change (durable h (persistence l)). by eapply working_durable.
Qed.

Lemma wp_iteration_inner (Q : IterationOutcome → list effect → Observer S → Prop) h l :
  ready h l → (∀ o h' l', ready h' l' → Q o h' l') →
  wp (run_iteration_inner keccak256) Q recoverable_error h l.
Proof.
  intros Hr HQ. unfold run_iteration_inner.
  apply wp_bind_good, wp_recover; [done|apply recoverable_fatal|]. intros h1 l1 Hr1 Hg1.
  step. apply wp_hydrate; [done..|]. intros h2 l2 Hr2.
  step. apply wp_watch; [done| |].
  2: { intros e. split; [by eapply working_durable|done]. }
  intros it l3 Hev Hw3. step. eapply wp_events; [done..|]. intros r h4 l4 Hw4.
  step. eapply wp_sweep_owed; [done|]. intros so h5 l5 Hw5.
  apply wp_bind_good. eapply wp_sweep_claims; [done|]. intros c h6 l6 Hw6 Hg6.
  get_self. step. eapply wp_commit_iteration; [done..|]. intros h7 s ps Hr7 Hheld ->.
  get_self. step. apply wp_modify. step.
  apply wp_broadcast_all; [by destruct l6| |done|apply recoverable_fatal|].
  - apply (pending_hashes_NoDup h6 _ _ (good_hashes h6 Hg6) (wk_intents _ _ _ _ Hw6)). by eapply wk_nodup.
  - intros h8 l8 Hr8. by apply wp_ret, HQ.
Qed.

Lemma ready_clear h l : ready h l → with_pivots (submitted_pivots l) [] l = l.
Proof. intros Hr. destruct (ready_pending h l Hr) as [_ Hi]. destruct l. cbn in *. by subst. Qed.

Lemma wp_iteration (Q : IterationOutcome → list effect → Observer S → Prop) h l :
  ready h l → (∀ o h' l', ready h' l' → Q o h' l') →
  wp (run_iteration keccak256) Q recoverable_error h l.
Proof.
  intros Hr HQ. unfold run_iteration. step. apply wp_modify. rewrite (ready_clear h l Hr).
  step. apply wp_try. eapply wp_conseq; [by apply (wp_iteration_inner (fun _ => ready))| |].
  - intros o h' l' _ Hr'. by apply wp_ret, HQ.
  - intros e h' l' _ [Hd Ht]. step. apply wp_modify, wp_raise. split; [done|]. intros He.
    specialize (Ht He). pose proof (ready_pending h' l' Ht) as [_ Hi]. rewrite Hi. cbn.
    rewrite difference_empty_L. by rewrite (ready_clear h').
Qed.

(** The loop, whatever stops it. *)
Lemma wp_run rounds (Q : () → list effect → Observer S → Prop)
    (E : ObserverError → list effect → Observer S → Prop) h l :
  ready h l → (∀ h' l', ready h' l' → Q () h' l') →
  (∀ e h' l', durable h' (persistence l') → E e h' l') →
  wp (run keccak256 rounds) Q E h l.
Proof.
  intros Hr HQ HE. revert h l Hr. induction rounds as [|rounds IH]; intros h l Hr.
  - intros w _. cbn. rewrite app_nil_r. by eapply working_durable.
  - cbn. step. apply wp_ask; [by eapply working_durable|]. intros w.
    destruct (stop_requested w).1; [by apply wp_ret, HQ|]. step. apply wp_try. eapply wp_conseq.
    + by apply (wp_iteration (fun _ => ready)).
    + intros o h' l' _ Hr'. by apply IH.
    + intros e h' l' _ [Hd Ht]. cbn. destruct (exit_code e) eqn:He; [by apply IH, Ht|by apply wp_raise, HE..].
Qed.

End Safe.

(** ** Starting *)

(** The fields of a configuration, in the types they have. *)
Definition config_typed (cfg : ObserverConfig) : Prop :=
  0 ≤ confirmation_depth (watcher_cfg cfg) ∧ 0 ≤ blocks_per_iteration (watcher_cfg cfg).

Section Starting.
Context {S W : Type} `{!Store S W} `{!Hex} `{!HexOk} `{!StoreOk S W} `{!ObserverWorld W}
  `{!ObserverWorldOk W}.
Variable keccak256 : list u8 → list u8.

(** The records of a table are those of the map they were read from. *)
Lemma insert_all_of {A} (key : A → Z) (m : gmap Z A) recs :
  (∀ r, r ∈ recs ↔ ∃ i, m !! i = Some r) → (∀ i r, m !! i = Some r → key r = i) →
  insert_all key ∅ recs = m.
Proof.
  intros Hrecs Hid. apply map_eq. intros i.
  assert (Hgen : ∀ (m0 : gmap Z A), (∀ r, r ∈ recs → m !! key r = Some r) →
    insert_all key m0 recs !! i = if decide (i ∈ key <$> recs) then m !! i else m0 !! i).
  { clear Hrecs. unfold insert_all. induction recs as [|r recs IH]; intros m0 Hr; [done|]. cbn.
    rewrite IH by set_solver. specialize (Hr r ltac:(set_solver)) as Hm.
    destruct (decide (i = key r)) as [->|Hne].
    - rewrite lookup_insert_eq. repeat case_decide; set_solver.
    - rewrite lookup_insert_ne by done. repeat case_decide; set_solver. }
  rewrite Hgen.
  - case_decide as Hin; [done|]. rewrite lookup_empty. destruct (m !! i) as [r|] eqn:Hr; [|done].
    destruct Hin. apply list_elem_of_fmap. exists r. split; [by rewrite (Hid i r)|]. apply Hrecs. by exists i.
  - intros r (j & Hj)%Hrecs. by rewrite (Hid j r Hj).
Qed.

(** The watcher a session starts with. *)
Definition restored (wcfg : WatcherConfig) (v : StoreView) : Watcher :=
  let wt := {| watcher_config := wcfg;
               reorg_window := {| capacity := reorg_window_capacity wcfg; buffer := [] |};
               last_confirmed_block := v_cursor v |} in
  match default [] (v_window v) with [] => wt | hs => seed_window wt hs end.

Lemma restored_typed wcfg v :
  validate wcfg = Ok () → 0 ≤ confirmation_depth wcfg → 0 ≤ blocks_per_iteration wcfg → view_ok v →
  watcher_typed (restored wcfg v) ∧ watcher_config (restored wcfg v) = wcfg ∧
  last_confirmed_block (restored wcfg v) = v_cursor v.
Proof.
  intros Hval Hd Hb [_ _ _ Hc Hw]. unfold restored. set (wt := Build_Watcher _ _ _).
  assert (Hcap : (0 < reorg_window_capacity wcfg ≤ MAX_REORG_WINDOW_CAPACITY)%nat).
  { unfold validate in Hval. apply guard_Ok in Hval as [? Hval]. apply guard_Ok in Hval as [? _]. lia. }
  assert (Hwin : window_typed (reorg_window wt)) by (split; cbn; [done|lia|done]).
  assert (Hwt : watcher_typed wt) by by split.
  destruct (default [] (v_window v)) as [|h hs] eqn:Hdef; [done|]. split_and!; [|done..].
  destruct (v_window v) as [hs'|] eqn:Hwv; [|done]. cbn in Hdef. subst hs'.
  destruct (Hw _ eq_refl) as [_ Hty]. pose proof (seed_typed _ _ Hwin Hty) as Hseed. split; try done.
  change (capacity (seed (reorg_window wt) (h :: hs)) = capacity (reorg_window wt)).
  unfold seed. generalize (h :: hs). intros hs0.
  assert (Hfold : ∀ u, capacity (foldl push_bounded u hs0) = capacity u)
    by (induction hs0 as [|x hs0 IH]; intros u; [done|exact (IH (push_bounded u x))]).
  by rewrite Hfold.
Qed.

Lemma live_keys_elem recs k : k ∈ live_keys recs ↔ ∃ r, r ∈ recs ∧ is_live r ∧ key_of_record r = k.
Proof.
  unfold live_keys. rewrite elem_of_list_to_set, list_elem_of_fmap. split.
  - intros (r & -> & [Hl Hr]%list_elem_of_filter). by exists r.
  - intros (r & Hr & Hl & <-). exists r. by rewrite list_elem_of_filter.
Qed.

Implicit Types (h : list effect) (l : Observer S).

(** What a start finds in the database. *)
Lemma new_state cfg bo h s (w : W) :
  durable h s →
  match Observer_new cfg bo true s w with
  | (Ok l, s', _) => s' = s ∧ validate (watcher_cfg cfg) = Ok () ∧ persistence l = s ∧ config l = cfg ∧
      watcher l = restored (watcher_cfg cfg) (view_after h) ∧ games l = v_games (view_after h) ∧
      batches l = v_batches (view_after h) ∧ pending_broadcasts l = [] ∧ iteration_pivot_inserts l = [] ∧
      (∀ k, k ∈ submitted_pivots l ↔ live_key (view_after h) k)
  | (Err e, s', _) => s' = s ∧ (validate (watcher_cfg cfg) = Ok () → e = ObserverStorage StorageFault)
  end.
Proof.
  intros [Hsh Hb]. unfold Observer_new, Watcher_new.
  destruct (validate (watcher_cfg cfg)) as [[]|] eqn:Hval; [|done]. cbn [result_bind].
  pose proof (shows_cursor s _ Hsh w) as Hc. destruct (read_cursor s w) as [[[cur|] s1] w1];
    destruct Hc as [-> Hc]; [|by subst].
  pose proof (shows_window s _ Hsh w1) as Hw. destruct (read_reorg_window s w1) as [[[hs|] s2] w2];
    destruct Hw as [-> Hw]; [|by subst].
  pose proof (shows_games s _ Hsh w2) as Hg. destruct (list_games s w2) as [[[grs|] s3] w3];
    destruct Hg as [-> Hg]; [|by subst].
  pose proof (shows_batches s _ Hsh w3) as Hbt. destruct (list_batches s w3) as [[[brs|] s4] w4];
    destruct Hbt as [-> Hbt]; [|by subst].
  pose proof (shows_responses s _ Hsh w4) as Hr. destruct (list_responses s w4) as [[[rrs|] s5] w5];
    destruct Hr as [-> Hr]; [|by subst].
  subst cur hs. destruct Hr as [_ Hr]. pose proof (shows_ok s _ Hsh) as Hok. cbn. split_and!; try done.
  - unfold restored. by destruct (default [] (v_window (view_after h))).
  - apply (insert_all_of game_id); [done|]. intros i r Hi. by apply (ok_v_games _ Hok).
  - apply (insert_all_of batch_end_index); [done|]. intros i r Hi. by apply (ok_v_batches _ Hok).
  - intros k. rewrite live_keys_elem. unfold live_key. split.
    + intros (r & (x & Hx)%Hr & Hl & Hk). by exists x, r.
    + intros (x & r & Hx & Hl & Hk). exists r. split_and!; [apply Hr; by exists x|done..].
Qed.

(** The window of the database fits into the one the session has. *)
Definition window_kept (wcfg : WatcherConfig) h : Prop :=
  (length (default [] (v_window (view_after h))) ≤ reorg_window_capacity wcfg)%nat.

Lemma restored_position wcfg v :
  (length (default [] (v_window v)) ≤ reorg_window_capacity wcfg)%nat →
  window_snapshot (restored wcfg v) = default [] (v_window v).
Proof.
  intros Hl. unfold restored. destruct (default [] (v_window v)) as [|x hs]; [done|].
  unfold seed_window, window_snapshot. cbn [reorg_window with_window]. by rewrite seed_fits.
Qed.

(** Every invariant of the loop holds at the start of a session. *)
Lemma new_ready cfg bo h s (w : W) l s' w' :
  config_typed cfg → durable h s → Observer_new cfg bo true s w = (Ok l, s', w') →
  ready (watcher_cfg cfg) (window_kept (watcher_cfg cfg) h) (storage_failures h) h l.
Proof.
  intros [Hd0 Hb0] Hd Hnew. pose proof (new_state cfg bo h s w Hd) as Hst. rewrite Hnew in Hst.
  destruct Hst as (_ & Hval & Hp & _ & Hwt & Hg & Hb & Hpend & Hins & Hsub). destruct Hd as [Hsh Hbk].
  pose proof (shows_ok s _ Hsh) as Hok.
  destruct (restored_typed (watcher_cfg cfg) (view_after h) Hval Hd0 Hb0 Hok) as (Hty & Hcfg & Hcur).
  split; rewrite ?Hp, ?Hwt, ?Hg, ?Hb, ?Hpend, ?Hins; try done.
  - intros i r Hi. by apply (ok_v_games _ Hok).
  - constructor.
  - intros p ?%elem_of_nil. done.
  - intros p ?%elem_of_nil. done.
  - intros k Hk. by apply Hsub.
  - intros _ Hfit. split; [done|]. by rewrite restored_position.
Qed.

(** [set_start_block] gives up the position. *)
Lemma ready_start wcfg placed n h l b :
  ready wcfg placed n h l → in_u64 b → ready wcfg False n h (set_start_block l b).
Proof.
  intros Hr Hb. split; try by eapply Hr.
  - destruct (wk_watcher _ _ _ _ _ _ _ Hr) as [Hw _ Hd Hbl Hs]. split; cbn; [by apply clear_typed| |done..].
    by intros ? [= <-].
  - done.
  - done.
Qed.

Lemma ready_unplaced wcfg placed n h l : ready wcfg placed n h l → ready wcfg False n h l.
Proof. intros Hr. split; try by eapply Hr. done. Qed.

Definition start_typed (start : ObserverConfig * bool * option Z * nat) : Prop :=
  config_typed start.1.1.1 ∧ ∀ b, start.1.2 = Some b → in_u64 b.

Lemma session_durable cfg bo start rounds h s (w : W) :
  start_typed (cfg, bo, start, rounds) → durable h s →
  let '(_, s', _, t) := session keccak256 cfg bo start rounds s w in good (h ++ t) → durable (h ++ t) s'.
Proof.
  intros [Hcfg Hstart] Hd. unfold session. pose proof (new_state cfg bo h s w Hd) as Hst.
  destruct (Observer_new cfg bo true s w) as [[[l|e] s'] w'] eqn:Hnew.
  2: { destruct Hst as [-> _]. intros _. by rewrite app_nil_r. }
  apply (new_ready cfg bo h s w l s' w' Hcfg Hd) in Hnew as Hr.
  set (l0 := match start with Some b => _ | None => _ end).
  assert (Hr0 : ready (watcher_cfg cfg) False (storage_failures h) h l0).
  { destruct start as [b|]; [eapply ready_start; [done|by apply Hstart]|by eapply ready_unplaced]. }
  pose proof (wp_run keccak256 _ _ _ rounds (fun _ h' l' => durable h' (persistence l'))
    (fun _ h' l' => durable h' (persistence l')) h l0 Hr0) as Hrun.
  specialize (Hrun ltac:(intros; by eapply working_durable) ltac:(done) w').
  destruct (run keccak256 rounds l0 w') as [[[r l1] w1] t]. intros Hg. specialize (Hrun Hg).
  by destruct r as [[]|[]].
Qed.

Lemma lifetime_durable starts h s (w : W) :
  Forall start_typed starts → durable h s →
  let '(s', _, t) := lifetime keccak256 starts s w in good (h ++ t) → durable (h ++ t) s'.
Proof.
  intros Hst. revert h s w. induction Hst as [|[[[cfg bo] start] rounds] starts Hs _ IH]; intros h s w Hd; cbn.
  { intros _. by rewrite app_nil_r. }
  pose proof (session_durable cfg bo start rounds h s w Hs Hd) as H1.
  destruct (session keccak256 cfg bo start rounds s w) as [[[r s1] w1] t1].
  specialize (IH (h ++ t1) s1 w1). destruct (lifetime keccak256 starts s1 w1) as [[s2 w2] t2].
  rewrite app_assoc. intros Hg. apply IH; [|done]. by apply H1, (good_prefix _ t2).
Qed.

Lemma durable_empty s : shows s empty_view → durable [] s.
Proof.
  intros Hs. split; [done|]. split; cbn.
  - done.
  - done.
  - intros k tx r ?%elem_of_nil. done.
  - intros k tx Hsd%standing_sent%elem_of_nil. done.
  - intros a k tx r b Heq. by apply app_cons_not_nil in Heq.
  - intros a k tx r b Heq. by apply app_cons_not_nil in Heq.
Qed.

End Starting.

(** ** Theorems *)

(** A transaction that was accepted is not refused when it is sent again. *)
Definition idempotent (h : list effect) : Prop :=
  ∀ a k tx b e, h = a ++ Broadcasted k tx (Ok ()) :: b → Broadcasted k tx (Err e) ∉ b.

Section Theorems.
Context {S W : Type} `{!Store S W} `{!Hex} `{!HexOk} `{!StoreOk S W} `{!ObserverWorld W}
  `{!ObserverWorldOk W}.

Lemma lifetime_booked keccak256 starts (s : S) (w : W) s' w' t :
  shows s empty_view → Forall start_typed starts → lifetime keccak256 starts s w = (s', w', t) →
  hashes_distinct t → outcomes_kept t → durable t s'.
Proof.
  intros Hs Hst Hrun Hd Ho. pose proof (lifetime_durable keccak256 starts [] s w Hst (durable_empty s Hs)) as Hl.
  rewrite Hrun in Hl. by apply Hl.
Qed.

(** C13: intent first.  However often the observer is killed and started again on
    one database, at whatever call it dies and whatever the chain, the RPC, the
    signer and the database answer, it broadcasts a transaction only when the
    database already holds the record of it, with the status [Intent], for the
    same game, kind of move and pivot, and with the bytes that are sent.  This is for
    lifetimes in which different signed transactions have different hashes
    ([hashes_distinct]) and no recovery went on over an outcome that the database
    failed to record ([outcomes_kept]). *)
Theorem observer_intent_first keccak256 starts (s : S) (w : W) s' w' t :
  shows s empty_view → Forall start_typed starts → lifetime keccak256 starts s w = (s', w', t) →
  hashes_distinct t → outcomes_kept t → intent_first t.
Proof. intros Hs Hst Hrun Hd Ho. by apply bk_first, (lifetime_booked keccak256 starts s w s' w' t). Qed.

(** C2: one transaction per move.  Over the same lifetimes, whatever is broadcast
    for a game, kind of move and pivot while an accepted transaction stands for it
    is that transaction again; so when the submitter is idempotent, as it is
    documented to be, no two transactions are ever accepted for one move. *)
Theorem observer_at_most_once keccak256 starts (s : S) (w : W) s' w' t :
  shows s empty_view → Forall start_typed starts → lifetime keccak256 starts s w = (s', w', t) →
  hashes_distinct t → outcomes_kept t →
  at_most_once t ∧
  (idempotent t → ∀ k tx1 tx2, Broadcasted k tx1 (Ok ()) ∈ t → Broadcasted k tx2 (Ok ()) ∈ t → tx1 = tx2).
Proof.
  intros Hs Hst Hrun Hd Ho.
  assert (Honce : at_most_once t) by by apply bk_once, (lifetime_booked keccak256 starts s w s' w' t).
  split; [done|]. intros Hid k tx1 tx2.
  assert (Hord : ∀ a b c y1 y2, t = a ++ Broadcasted k y1 (Ok ()) :: b ++ Broadcasted k y2 (Ok ()) :: c → y2 = y1).
  { intros a b c y1 y2 Heq. eapply (Honce (a ++ Broadcasted k y1 (Ok ()) :: b) k y2).
    - by rewrite <- app_assoc.
    - exists a, b. split; [done|]. intros e Hin. eapply (Hid a k y1 _ e Heq). apply elem_of_app. by left. }
  intros (a1 & b1 & E1)%list_elem_of_split (a2 & b2 & E2)%list_elem_of_split.
  rewrite E1 in E2. apply app_eq_inv in E2 as [(k0 & H1 & H2)|(k0 & H1 & H2)].
  - destruct k0 as [|e k0]; [by injection H2 as -> _|]. injection H2 as <- H2.
    apply (Hord a2 k0 b1). rewrite E1, H1. by rewrite <- app_assoc.
  - destruct k0 as [|e k0]; [by injection H2 as -> _|]. injection H2 as <- H2. symmetry.
    apply (Hord a1 k0 b2). by rewrite E1, H2.
Qed.

(** A watcher at the position of the database is the one a start restores. *)
Lemma restored_watcher wt v :
  watcher_typed wt → position None v wt → restored (watcher_config wt) v = wt.
Proof.
  intros [[Hc Hl Hh] _ _ _ Hsize] [Hcur Hwin]. unfold restored, seed_window, window_snapshot in *.
  rewrite Hwin, Hcur. destruct wt as [cfg [cap buf] cur].
  cbn [watcher_config reorg_window last_confirmed_block capacity buffer] in *. subst cap.
  destruct buf as [|x buf]; [done|]. unfold with_window. cbn [watcher_config reorg_window last_confirmed_block].
  by rewrite seed_fits.
Qed.

(** C32: a session takes up where the last one stopped.  When a session, one that was
    started by [Observer_new] after any lifetime and only ran, had no failure of its
    database and stops, a start on that database with the same configuration finds
    the same games, batches, cursor and re-org window as the stopped one had in
    memory, and every move it takes for submitted was so taken before.  The only way
    the start can fail is a failure of the database.  This is for lifetimes in which
    different signed transactions have different hashes ([hashes_distinct]) and no
    recovery went on over an outcome that the database failed to record
    ([outcomes_kept]), and that left, before the session, a re-org window in the
    database that fits the capacity of the configuration ([window_kept]).  A session whose
    position was overridden by [set_start_block] is not covered. *)
Theorem restart_resumes keccak256 starts (s : S) (w : W) s1 w1 t cfg bo l s2 w2 rounds l' w3 t' w4 :
  shows s empty_view → Forall start_typed starts → config_typed cfg →
  lifetime keccak256 starts s w = (s1, w1, t) → Observer_new cfg bo true s1 w1 = (Ok l, s2, w2) →
  run keccak256 rounds l w2 = (Ok (), l', w3, t') →
  hashes_distinct (t ++ t') → outcomes_kept (t ++ t') → storage_failures t' = 0%nat →
  window_kept (watcher_cfg cfg) t →
  match Observer_new cfg bo true (persistence l') w4 with
  | (Ok l2, s3, _) => s3 = persistence l' ∧ games l2 = games l' ∧ batches l2 = batches l' ∧
      watcher l2 = watcher l' ∧ submitted_pivots l2 ⊆ submitted_pivots l'
  | (Err e, s3, _) => s3 = persistence l' ∧ e = ObserverStorage StorageFault
  end.
Proof.
  intros Hs Hst Hcfg Hlife Hnew Hrun Hd Ho Hf Hkept.
  assert (Hg : good (t ++ t')) by done. destruct (good_prefix _ _ Hg) as [Hd1 Ho1].
  pose proof (lifetime_booked keccak256 starts s w s1 w1 t Hs Hst Hlife Hd1 Ho1) as Hdur.
  pose proof (new_ready cfg bo t s1 w1 l s2 w2 Hcfg Hdur Hnew) as Hr.
  pose proof (new_state cfg bo t s1 w1 Hdur) as Hval. rewrite Hnew in Hval. destruct Hval as (_ & Hval & _).
  pose proof (wp_run keccak256 _ _ _ rounds
    (fun _ => ready (watcher_cfg cfg) (window_kept (watcher_cfg cfg) t) (storage_failures t))
    (fun _ _ _ => True) t l Hr) as Hend.
  specialize (Hend ltac:(done) ltac:(done) w2). rewrite Hrun in Hend. specialize (Hend Hg).
  assert (Hu : unfailed (storage_failures t) (t ++ t')) by (unfold unfailed; rewrite storage_failures_app; lia).
  pose proof (new_state cfg bo (t ++ t') (persistence l') w4 (working_durable _ _ _ _ _ _ _ Hend)) as Hst2.
  destruct (Observer_new cfg bo true (persistence l') w4) as [[[l2|e] s3] w5]; [|by destruct Hst2; auto].
  destruct Hst2 as (-> & _ & _ & _ & Hwt & Hgm & Hbt & _ & _ & Hsub). split_and!; [done|..].
  - by rewrite Hgm, (wk_games _ _ _ _ _ _ _ Hend Hu).
  - by rewrite Hbt, (wk_batches _ _ _ _ _ _ _ Hend Hu).
  - rewrite Hwt, <- (wk_config _ _ _ _ _ _ _ Hend). apply restored_watcher; [by eapply wk_watcher|].
    by apply (wk_position _ _ _ _ _ _ _ Hend).
  - intros k Hk%Hsub. by eapply wk_live.
Qed.

End Theorems.

(** ** Concrete lifetimes *)

#[local] Existing Instances demo_hex demo_hex_ok demo_observer_json demo_observer_json_ok.

Lemma demo_starts_typed : Forall start_typed demo_starts.
Proof. repeat constructor; try (cbn; unfold DEFAULT_L1_CONFIRMATION_DEPTH, DEFAULT_BLOCKS_PER_ITERATION; lia); done. Qed.

(** The process dies between the commit and the broadcast; the next one sends the
    transaction. *)
Lemma observer_intent_first_witness :
  length (broadcasts (demo_lifetime (Some 17%nat)).2) = 1%nat ∧ intent_first (demo_lifetime (Some 17%nat)).2.
Proof.
  split; [by vm_compute|].
  apply (observer_intent_first demo_topic_hash demo_starts demo_db
           {| moments := replicate 5 demo_moment; alive := Some 17%nat |}
           (demo_lifetime (Some 17%nat)).1.1 (demo_lifetime (Some 17%nat)).1.2).
  - apply represents_empty.
  - apply demo_starts_typed.
  - by rewrite <- !surjective_pairing.
  - assert (Hs : ∃ x, signed_txs (demo_lifetime (Some 17%nat)).2 = [x]) by (eexists; by vm_compute).
    destruct Hs as [x Hs]. by apply (distinct_one _ x).
  - apply none_lost. by vm_compute.
Defined.

(** The process dies after the broadcast, before it has recorded the outcome; the
    next one sends the same transaction again. *)
Lemma observer_at_most_once_witness :
  length (broadcasts (demo_lifetime (Some 18%nat)).2) = 2%nat ∧ at_most_once (demo_lifetime (Some 18%nat)).2.
Proof.
  split; [by vm_compute|].
  apply (observer_at_most_once demo_topic_hash demo_starts demo_db
           {| moments := replicate 5 demo_moment; alive := Some 18%nat |}
           (demo_lifetime (Some 18%nat)).1.1 (demo_lifetime (Some 18%nat)).1.2).
  - apply represents_empty.
  - apply demo_starts_typed.
  - by rewrite <- !surjective_pairing.
  - assert (Hs : ∃ x, signed_txs (demo_lifetime (Some 18%nat)).2 = [x]) by (eexists; by vm_compute).
    destruct Hs as [x Hs]. by apply (distinct_one _ x).
  - apply none_lost. by vm_compute.
Defined.

Definition demo_world0 : demo_world := {| moments := replicate 5 demo_moment; alive := None |}.
Definition demo_new := Observer_new demo_config false true demo_db demo_world0.
Definition demo_again (l : Observer kv) := Observer_new demo_config false true (persistence l) demo_world0.

(** What the session below does. *)
Definition demo_session_ok : Prop :=
  match demo_new with
  | (Ok l, _, w1) =>
      match run demo_topic_hash 5 l w1 with
      | (Ok (), l', _, t) => is_ok (demo_again l').1.1 ∧ length (map_to_list (games l')) = 1%nat ∧
          length (broadcasts t) = 1%nat ∧ (∃ x, signed_txs t = [x]) ∧ lost t = [] ∧ storage_failures t = 0%nat
      | _ => False
      end
  | _ => False
  end.

Lemma demo_session_runs : demo_session_ok.
Proof. vm_compute. split_and!; eauto. Qed.

(** A session that adopts a game and moves in it, and the start after it. *)
Lemma restart_resumes_witness :
  ∃ l w1 l' w' t l2 s2 w2,
    demo_new = (Ok l, demo_db, w1) ∧ run demo_topic_hash 5 l w1 = (Ok (), l', w', t) ∧
    demo_again l' = (Ok l2, s2, w2) ∧ length (map_to_list (games l')) = 1%nat ∧
    length (broadcasts t) = 1%nat ∧ games l2 = games l' ∧ watcher l2 = watcher l'.
Proof.
  pose proof demo_session_runs as Hchk. unfold demo_session_ok in Hchk.
  pose proof (new_state demo_config false [] demo_db demo_world0 (durable_empty _ represents_empty)) as Hst.
  fold demo_new in Hst. destruct demo_new as [[[l|e] s1] w1] eqn:Hnew; [|by destruct Hchk].
  destruct Hst as [-> _].
  destruct (run demo_topic_hash 5 l w1) as [[[[[]|e] l'] w'] t] eqn:Hrun; [|by destruct Hchk].
  destruct Hchk as (Hok & Hg & Hb & [x Hs] & Hlost & Hf).
  pose proof (restart_resumes demo_topic_hash [] demo_db demo_world0 demo_db demo_world0 [] demo_config false l
    demo_db w1 5 l' w' t demo_world0 represents_empty (Forall_nil_2 _)) as Hres.
  fold (demo_again l') in Hres.
  destruct (demo_again l') as [[[l2|e] s2] w2] eqn:Hnew2; [|by destruct Hok].
  destruct Hres as (_ & Hgames & _ & Hwt & _).
  - split; unfold demo_config; cbn; [unfold DEFAULT_L1_CONFIRMATION_DEPTH|unfold DEFAULT_BLOCKS_PER_ITERATION]; lia.
  - reflexivity.
  - exact Hnew.
  - exact Hrun.
  - apply (distinct_one _ x). exact Hs.
  - apply none_lost. exact Hlost.
  - exact Hf.
  - unfold window_kept. cbn. lia.
  - exists l, w1, l', w', t, l2, s2, w2. split_and!; assumption || reflexivity.
Defined.
