(* ===== verification/ObserverTrack.v ===== *)
(** * The observer and the contract

    How [Observer] composes with the game contract of [FaultGame]: a game it knows
    stays the game on L1 when it handles the event of the next accepted call; what
    it signs is decoded by the contract to the move its strategy chose; and a
    lifetime in which an event from before a hydration is applied a second time. *)

From Stdlib Require Import ZArith Lia.
From stdpp Require Import base numbers list gmap sets.
From S2P Require Import Prelude Encoding State Evm StateRoot FaultGame Calldata Events Reorg Source Game.
From S2P Require Import GameReader GameEvents FaultProof ObserverWatch ObserverStore Observer.
From S2P Require Import ObserverLogic ObserverDemo.

Local Open Scope Z_scope.

(** ** Effects and results of a computation *)

Section Post.
Context {S W : Type} `{!Store S W} `{!Hex} `{!ObserverWorld W}.
Implicit Types (l : Observer S).

(** Every effect of [m] satisfies [P]; if it returns, its result satisfies [Q]. *)
Definition post {A} (m : observing (S := S) (W := W) A) (P : effect → Prop) (Q : A → Observer S → Prop)
    l : Prop :=
  ∀ w, let '(r, l', _, t) := m l w in Forall P t ∧ match r with Ok a => Q a l' | Err _ => True end.

Lemma post_ret {A} (a : A) P Q l : Q a l → post (mret a) P Q l.
Proof. intros HQ w. by split. Qed.

Lemma post_bind {A B} (m : observing A) (k : A → observing B) P Q l :
  post m P (fun a => post (k a) P Q) l → post (m ≫= k) P Q l.
Proof.
  intros Hm w. specialize (Hm w). unfold mbind, observing_bind.
  destruct (m l w) as [[[[a|e] l1] w1] t1]; [|exact Hm]. destruct Hm as [Ht Hk]. specialize (Hk w1).
  destruct (k a l1 w1) as [[[r2 l2] w2] t2]. destruct Hk as [Ht2 Hr]. split; [by apply Forall_app|done].
Qed.

Lemma post_self P Q l : Q l l → post self P Q l.
Proof. intros HQ w. by split. Qed.

Lemma post_modify f P Q l : Q () (f l) → post (modify f) P Q l.
Proof. intros HQ w. by split. Qed.

Lemma post_call {A} (f : W → A * W) report P Q l :
  (∀ w, Forall P (report (f w).1) ∧ Q (f w).1 l) → post (call f report) P Q l.
Proof.
  intros HQ w. unfold call. destruct (killed w) as [[] w1]; [done|].
  specialize (HQ w1). by destruct (f w1) as [a w2].
Qed.

Lemma post_ask {A} (f : W → A * W) P Q l : (∀ w, Q (f w).1 l) → post (ask f) P Q l.
Proof. intros HQ. apply post_call. intros w. by split. Qed.

Lemma post_conseq {A} (m : observing A) (P P' : effect → Prop) (Q Q' : A → Observer S → Prop) l :
  post m P Q l → (∀ e, P e → P' e) → (∀ a l', Q a l' → Q' a l') → post m P' Q' l.
Proof.
  intros Hm HP HQ w. specialize (Hm w). destruct (m l w) as [[[[a|e] l'] w'] t]; destruct Hm as [Ht Hr].
  - split; [by eapply Forall_impl|by apply HQ].
  - split; [by eapply Forall_impl|done].
Qed.

End Post.

Ltac post_step := apply post_bind; cbn beta iota zeta.
Ltac post_get := post_step; apply post_self; cbn beta iota zeta.

(** ** What is signed *)

Section Signing.
Context {S W : Type} `{!Store S W} `{!Hex} `{!ObserverWorld W}.
Context (keccak256 : list u8 → list u8).
Implicit Types (l : Observer S).

(** What the types of the two oracles say of their answers. *)
Record oracles_typed : Prop := {
  oracle_commits (w : W) i c : ((truth_oracle w).1 i) = Some c → length c = 32%nat;
  oracle_bundles (w : W) i bounds b : (terminate_bundle_at i bounds w).1 = Ok b → bundle_typed b;
}.

(** The calldata of [cd] plays the move that the strategy computes, with the
    truth oracle, on a record that is known, in progress and waits for the
    observer; the move was not submitted before. *)
Definition honest_call (rec : GameRecord) (taken : gset pivot_key) (e : effect) : Prop :=
  match e with
  | Signed k cd tx =>
      is_in_progress (status (game_state rec)) = true ∧ turn (game_state rec) = me rec ∧
      state_known rec = true ∧ (k ∉ taken) ∧
      ∃ (w : W) mv, compute_next_move ((truth_oracle w).1) (game_state rec) (me rec) = Ok mv ∧
        k = (game_id rec, move_kind_of mv, pivot_for_move (game_state rec) mv) ∧
        (Z.of_nat (length cd) < 2 ^ 64 → ∃ o, abi_decode keccak256 cd = Some o ∧ plays_move mv (game_id rec) o)
  | _ => False
  end.

Lemma compute_move_typed (w : W) gs side mv :
  oracles_typed → compute_next_move ((truth_oracle w).1) gs side = Ok mv → move_typed mv.
Proof.
  intros Ho. unfold compute_next_move. destruct (negb _); [by intros [= <-]|].
  case_decide; [by intros [= <-]|]. destruct (pending_midpoint gs) as [mp|].
  - intros (c & _ & Hmv)%result_bind_Ok. case_decide; by simplify_eq.
  - destruct (is_single_step _); [by intros (c & _ & [= <-])%result_bind_Ok|].
    case_decide; [by intros [= <-]|]. intros (c & Hc & [= <-])%result_bind_Ok.
    destruct ((truth_oracle w).1 _) as [c'|] eqn:Hw; [|done]. injection Hc as <-. by apply (oracle_commits Ho w) in Hw.
Qed.

(** The bytes of a move. *)
Lemma post_calldata rec mv P (Q : option (list u8) → Observer S → Prop) l :
  oracles_typed → Q None l →
  (∀ cd bundle, (∀ b, bundle = Some b → bundle_typed b) →
     encode_calldata_with_bundle keccak256 (game_id rec) mv bundle = Ok cd → Q (Some cd) l) →
  post (build_calldata_for_move keccak256 rec mv) P Q l.
Proof.
  intros Ho HN HQ. unfold build_calldata_for_move, build_terminate_calldata.
  assert (Hplain : mv = NoMove ∨ (∃ c, mv = Submit c) ∨ mv = HonestAgree ∨ mv = HonestDisagree →
    post (match encode_calldata keccak256 (game_id rec) mv with
      | Ok c => mret (Some c) : observing (S := S) (W := W) (option (list u8))
      | Err _ => mret None end) P Q l).
  { intros Hmv. destruct (encode_calldata keccak256 (game_id rec) mv) as [cd|] eqn:He; apply post_ret; [|done].
    apply (HQ cd None); [done|]. destruct Hmv as [->|[[c ->]|[->| ->]]]; exact He. }
  destruct mv as [|c| | |c]; try (apply Hplain; eauto; fail).
  post_get. destruct (negb _); [by apply post_ret|].
  destruct (disputed_log_index rec) as [d|]; [|by apply post_ret].
  destruct (batches l !! d) as [br|]; [|by apply post_ret].
  case_decide; [by apply post_ret|]. post_step. apply post_ask. intros w.
  destruct (terminate_bundle_at _ _ w).1 as [b|] eqn:Hb; [|by apply post_ret].
  destruct (encode_calldata_with_bundle _ _ _ _) as [cd|] eqn:He; apply post_ret; [|done].
  apply (HQ cd (Some b)); [|done]. intros ? [= <-]. by eapply oracle_bundles.
Qed.

Lemma play_honest rec n b l :
  selectors_ok keccak256 → in_u128 (game_id rec) → oracles_typed →
  post (maybe_play_move keccak256 rec n b) (honest_call rec (submitted_pivots l)) (fun _ _ => True) l.
Proof.
  intros Hsel Hid Ho. unfold maybe_play_move. destruct (negb (is_in_progress _)) eqn:Hst; [by apply post_ret|].
  case_decide as Hturn; [by apply post_ret|]. destruct (negb (state_known rec)) eqn:Hk; [by apply post_ret|].
  post_step. apply post_ask. intros w. destruct (compute_next_move _ _ _) as [mv|] eqn:Hmv; [|by apply post_ret].
  assert (Hq : post (queue_move keccak256 rec mv n b) (honest_call rec (submitted_pivots l)) (fun _ _ => True) l);
    [|by destruct mv; [apply post_ret|exact Hq..]].
  unfold queue_move. post_step. apply post_calldata; [done|by apply post_ret|]. intros cd bundle Hb Henc.
  post_get. unfold has_submitted_for_pivot. case_bool_decide as Hin; [by apply post_ret|].
  post_step. unfold queue_l1_call. post_step. apply post_call. intros w'.
  destruct (build_and_sign _ w').1 as [tx|e]; cbn; [|split; [done|by apply post_ret, post_ret]].
  split; [|by post_step; apply post_modify; post_step; apply post_modify, post_ret, post_ret].
  apply Forall_singleton. cbn. rewrite negb_false_iff in Hst, Hk.
  split_and!; [done|by destruct (turn (game_state rec)), (me rec)|done|done|]. exists w, mv. split_and!; [done..|].
  intros Hlen. destruct (move_decoded keccak256 (game_id rec) mv bundle cd) as (o & ? & ? & _); try done.
  - by eapply compute_move_typed.
  - by exists o.
Qed.

End Signing.

(** C28: the observer signs the move of its strategy and nothing else.  Whenever
    the code that plays a move signs a transaction, the record it plays on is
    known, in progress and waits for the observer's side, the move is the one the
    strategy computes from the truth oracle and was not submitted before, and the
    contract decodes the bytes to the call that plays exactly that move on that
    game. *)
Theorem observer_signs_honest {S W} `{Store S W} `{Hex} `{ObserverWorld W} keccak256 rec n b
    (l : Observer S) (w : W) r l' w' t :
  selectors_ok keccak256 → in_u128 (game_id rec) → oracles_typed (W := W) →
  maybe_play_move keccak256 rec n b l w = (r, l', w', t) →
  Forall (honest_call (W := W) keccak256 rec (submitted_pivots l)) t.
Proof.
  intros Hsel Hid Ho Hrun. pose proof (play_honest keccak256 rec n b l Hsel Hid Ho w) as Hp.
  rewrite Hrun in Hp. apply Hp.
Qed.

(** ** Following the contract *)

Section Tracking.
Context {S W : Type} `{!Store S W} `{!Hex} `{!ObserverWorld W}.
Context (keccak256 : list u8 → list u8).
Implicit Types (l : Observer S).

(** Playing does not touch the records of games. *)
Lemma post_play_games rec n b l :
  post (W := W) (maybe_play_move keccak256 rec n b) (fun _ => True)
    (fun r l' => games l' = games l ∧ batch_games r.2 = batch_games b) l.
Proof.
  unfold maybe_play_move. destruct (negb _); [by apply post_ret|]. case_decide; [by apply post_ret|].
  destruct (negb _); [by apply post_ret|]. post_step. apply post_ask. intros w.
  destruct (compute_next_move _ _ _) as [mv|]; [|by apply post_ret].
  assert (Hq : post (W := W) (queue_move keccak256 rec mv n b) (fun _ => True)
    (fun r l' => games l' = games l ∧ batch_games r.2 = batch_games b) l);
    [|by destruct mv; [apply post_ret|exact Hq..]].
  unfold queue_move. post_step.
  apply (post_conseq _ (fun _ => True) _ (fun _ l' => l' = l)); [|done|].
  - unfold build_calldata_for_move, build_terminate_calldata.
    destruct mv; try (destruct (encode_calldata _ _ _); by apply post_ret).
    post_get. destruct (negb _); [by apply post_ret|]. destruct (disputed_log_index rec); [|by apply post_ret].
    destruct (batches l !! _); [|by apply post_ret]. case_decide; [by apply post_ret|].
    post_step. apply post_ask. intros w'. destruct (terminate_bundle_at _ _ w').1; [|by apply post_ret].
    destruct (encode_calldata_with_bundle _ _ _ _); by apply post_ret.
  - intros [cd|] l' ->; [|by apply post_ret]. post_get. destruct (has_submitted_for_pivot _ _); [by apply post_ret|].
    post_step. unfold queue_l1_call. post_step. apply post_call. intros w'. split; [by apply Forall_true|].
    destruct (build_and_sign _ w').1; [|by apply post_ret, post_ret].
    post_step. apply post_modify. post_step. apply post_modify, post_ret, post_ret. by case_decide.
Qed.

Lemma post_then_play rec n b l :
  post (W := W) (then_play keccak256 rec n b) (fun _ => True)
    (fun r l' => games l' = games l ∧ batch_games r.2 = batch_games b) l.
Proof.
  unfold then_play. post_step. eapply post_conseq; [apply post_play_games|done|].
  intros r l' Hr. by apply post_ret.
Qed.

(** The event the contract emits for a call on the game [id_]. *)
Definition emits_for (o : game_op) (id_ : Z) (before : L1Game) (after : GameStatus) (e : GameEvent) : Prop :=
  match o with
  | SubmitMidpointCall _ c =>
      ∃ party og, e = MidpointSubmitted id_ party ((idx (g_low before) + idx (g_high before)) / 2) c og
  | RespondToMidpoint _ a => ∃ party og, e = ResponseSubmitted id_ party a og
  | TerminateOnSingleStepCall _ _ | ClaimTimeout _ =>
      ∃ winner payout og, e = GameSettled id_ after winner payout og
  | InitiateChallenge _ _ _ _ | Withdraw | Receive => False
  end.

(** The record of a known game after an event, in memory and in the batch. *)
Definition recorded_as (id_ : Z) (rec : GameRecord) (g : L1Game) l (r : EventHandling * PersistBatch) l' : Prop :=
  ∃ rec', games l' = <[id_ := rec']> (games l) ∧ last (batch_games r.2) = Some rec' ∧
    views g (game_state rec') ∧ state_known rec' = state_known rec ∧ me rec' = me rec ∧ game_id rec' = game_id rec.

Lemma post_put_play id_ rec st n m b g l :
  views g st → post (W := W)
    (b ← put_record id_ (update_record rec st n m) b; then_play keccak256 (update_record rec st n m) n b)
    (fun _ => True) (recorded_as id_ rec g l) l.
Proof.
  intros Hv. unfold put_record. post_step. post_step. apply post_modify, post_ret.
  eapply post_conseq; [apply post_then_play|done|]. intros r l' [Hg Hb].
  exists (update_record rec st n m). rewrite Hg, Hb. cbn. by rewrite last_snoc.
Qed.

Lemma event_tracked {R} `{IStateRootSubmission R, IDisputeVerifierV2 R, Adjudication}
    (params : GameParams) (st : FaultGame.Storage R) tx o st' id_ rec e b l :
  acts_on o id_ → proper (game_at st id_) → 0 ≤ g_depth (game_at st id_) →
  game_exec params st tx o = Ok st' →
  emits_for o id_ (game_at st id_) (g_status (game_at st' id_)) e →
  games l !! id_ = Some rec → state_known rec = true → views (game_at st id_) (game_state rec) →
  post (W := W) (handle_event keccak256 e b) (fun _ => True) (recorded_as id_ rec (game_at st' id_) l) l.
Proof.
  intros Hact Hp Hd Hrun He Hg Hk Hv.
  assert (Hset : ∀ s winner payout og, e = GameSettled id_ s winner payout og →
    status (game_state rec) = InProgress → s ≠ InProgress →
    (∃ sb, game_at st' id_ = settled_game (game_at st id_) s sb) →
    post (W := W) (handle_event keccak256 e b) (fun _ => True) (recorded_as id_ rec (game_at st' id_) l) l).
  { intros s winner payout og -> Hst Hs [sb Hat]. cbn. unfold handle_game_settled. post_get. rewrite Hg.
    destruct (is_in_progress s) eqn:Hsp; [by destruct s|]. unfold apply_settlement. rewrite Hst, Hsp. cbn.
    post_step. unfold put_record. post_step. apply post_modify, post_ret, post_ret.
    eexists. split; [done|]. cbn. rewrite last_snoc. split; [done|]. split_and!; try done.
    rewrite Hat. by apply settled_views. }
  destruct o as [|? c|? a|? a|?| |]; cbn in Hact, He; try done; subst; cbn [game_exec] in Hrun.
  - destruct He as (party & og & ->). cbn. unfold handle_midpoint_submitted. post_get. rewrite Hg, Hk. cbn.
    destruct (submit_follows params st tx id_ c st' (game_state rec) Hp Hv Hrun) as (gs' & Hgs' & Hv').
    rewrite decide_False.
    2: { intros []. destruct Hp as [Hl Hh]. destruct Hv as [Vl Vh _ _ _ _].
         rewrite midpoint_exact; rewrite ?Vl, ?Vh; [done|lia|lia]. }
    rewrite Hgs'. by apply post_put_play.
  - destruct He as (party & og & ->). cbn. unfold handle_response_submitted. post_get. rewrite Hg, Hk. cbn.
    destruct (respond_follows params st tx id_ a st' (game_state rec) Hd Hv Hrun) as (gs' & Hgs' & Hv').
    assert (apply_transition (game_state rec) (if a then RespondAgree else RespondDisagree) = Ok gs') as ->
      by by destruct a.
    by apply post_put_play.
  - destruct He as (winner & payout & og & ->).
    apply terminate_inv in Hrun as (Hst & _ & _ & _ & p & _ & Hs). apply settle_status in Hs as [sb Hat].
    eapply Hset; [done|by rewrite (view_status _ _ Hv)| |rewrite Hat; by exists sb].
    rewrite Hat. cbn. by destruct (decide _), (g_turn _).
  - destruct He as (winner & payout & og & ->).
    apply claimTimeout_inv in Hrun as (Hst & _ & Hs). apply settle_status in Hs as [sb Hat].
    eapply Hset; [done|by rewrite (view_status _ _ Hv)| |rewrite Hat; by exists sb].
    rewrite Hat. cbn. by destruct (g_turn _).
Qed.

End Tracking.

(** C29: a game the observer knows stays the game on L1.  When the contract accepts
    a call on a game and the observer, whose record shows the game before the call,
    handles the event of that call, its record shows the game after the call, in
    memory and in the batch to be committed, and no other record changes. *)
Theorem observer_tracks {S W} `{Store S W} `{Hex} `{ObserverWorld W} keccak256
    {R} `{IStateRootSubmission R, IDisputeVerifierV2 R, Adjudication}
    (params : GameParams) (st : FaultGame.Storage R) tx o st' id_ rec e b (l : Observer S) (w : W) r l' w' t :
  acts_on o id_ → proper (game_at st id_) → 0 ≤ g_depth (game_at st id_) →
  game_exec params st tx o = Ok st' →
  emits_for o id_ (game_at st id_) (g_status (game_at st' id_)) e →
  games l !! id_ = Some rec → state_known rec = true → views (game_at st id_) (game_state rec) →
  handle_event keccak256 e b l w = (Ok r, l', w', t) →
  recorded_as id_ rec (game_at st' id_) l r l'.
Proof.
  intros Hact Hp Hd Hrun He Hg Hk Hv Hh.
  pose proof (event_tracked keccak256 params st tx o st' id_ rec e b l Hact Hp Hd Hrun He Hg Hk Hv w) as Hpost.
  rewrite Hh in Hpost. apply Hpost.
Qed.

(** ** Concrete games *)

#[local] Existing Instances demo_hex demo_hex_ok demo_observer_json demo_observer_json_ok
  demo_interface demo_adjudication.

Definition demo_record (g : L1Game) (id_ : Z) (side : TurnSide) : GameRecord :=
  {| game_id := id_; game_state := view_of g; me := side; last_updated_block := 5; state_known := true;
     turn_deadline := None; disputed_log_index := Some 10 |}.

Definition demo_observing (rec : GameRecord) : Observer kv :=
  {| config := demo_config;
     watcher := {| watcher_config := watcher_cfg demo_config;
                   reorg_window := {| capacity := 16; buffer := [] |}; last_confirmed_block := None |};
     persistence := demo_db; has_bundle_oracle := false; has_state_reader := true;
     games := {[game_id rec := rec]}; batches := ∅; submitted_pivots := ∅; iteration_pivot_inserts := [];
     broadcast_failures := ∅; pending_broadcasts := [] |}.

Definition still : demo_world := {| moments := [quiet_moment]; alive := None |}.

(** The challenger of the demonstration game answers a midpoint. *)
Definition demo_answer : GameEvent :=
  ResponseSubmitted 1 (zeros 32) false {| block_number := 6; tx_hash := zeros 32; log_index := 0 |}.

Definition demo_handled :=
  handle_event demo_topic_hash demo_answer PersistBatch_new
    (demo_observing (demo_record (game_at (demo_after 2) 1) 1 Sequencer)) still.

Lemma observer_tracks_witness :
  ∃ r l', demo_handled.1.1 = (Ok r, l') ∧
    recorded_as 1 (demo_record (game_at (demo_after 2) 1) 1 Sequencer) (game_at (demo_after 3) 1)
      (demo_observing (demo_record (game_at (demo_after 2) 1) 1 Sequencer)) r l'.
Proof.
  destruct demo_handled as [[[[r|e] l'] w'] t] eqn:Hrun;
    [|apply (f_equal (fun x => is_ok x.1.1.1)) in Hrun; vm_compute in Hrun; discriminate].
  exists r, l'. split; [reflexivity|].
  apply (observer_tracks demo_topic_hash demo_game_params (demo_after 2) (demo_tx 5 0 6)
           (RespondToMidpoint 1 false) (demo_after 3) 1 _ demo_answer PersistBatch_new _ still r l' w' t).
  - reflexivity.
  - vm_compute. split; [discriminate|]. split; reflexivity.
  - vm_compute. discriminate.
  - vm_compute. reflexivity.
  - cbn. eexists _, _. reflexivity.
  - reflexivity.
  - reflexivity.
  - apply view_of_views.
  - exact Hrun.
Defined.

Lemma demo_oracles_typed : oracles_typed (W := demo_world).
Proof. split; [|done]. intros w i c [= <-]. apply length_replicate. Qed.

Definition demo_played :=
  maybe_play_move demo_hash (demo_record (game_at (demo_after 1) 1) 1 Sequencer) 5 PersistBatch_new
    (demo_observing (demo_record (game_at (demo_after 1) 1) 1 Sequencer)) still.

Lemma observer_signs_honest_witness :
  length (signed_txs demo_played.2) = 1%nat ∧
  Forall (honest_call (W := demo_world) demo_hash (demo_record (game_at (demo_after 1) 1) 1 Sequencer) ∅)
    demo_played.2.
Proof.
  split; [vm_compute; reflexivity|].
  apply (observer_signs_honest demo_hash _ 5 PersistBatch_new
           (demo_observing (demo_record (game_at (demo_after 1) 1) 1 Sequencer)) still
           demo_played.1.1.1 demo_played.1.1.2 demo_played.1.2 demo_played.2).
  - split; [intros x; apply length_replicate|].
    apply (bool_decide_eq_true_1 (NoDup _)). vm_compute. reflexivity.
  - split; reflexivity || discriminate.
  - apply demo_oracles_typed.
  - unfold demo_played. by rewrite <- !surjective_pairing.
Defined.

(** ** An event from before the hydration

    A game of the observer playing the sequencer, with every call accepted by the
    contract and every midpoint of the sequencer true. *)

Definition stale_params : GameParams :=
  {| BISECTION_RESPONSE_TIMEOUT := 100; MIN_CHALLENGE_BOND := 50;
     MIN_BISECTION_STEP_INTERVAL_BLOCKS := 1; treasury := 6; disputeVerifier := 4; self_address := 8 |}.

Definition stale_calls : list (Tx * game_op) :=
  [(demo_tx 5 50 3, InitiateChallenge 10 (StateRoot.word 9) (StateRoot.word 1) 0);
   (demo_tx 7 0 5, SubmitMidpointCall 1 (StateRoot.word 5));
   (demo_tx 5 0 6, RespondToMidpoint 1 false);
   (demo_tx 7 0 7, SubmitMidpointCall 1 (StateRoot.word 2));
   (demo_tx 5 0 20, RespondToMidpoint 1 true)].

(** The contract after the first calls, none of which reverts. *)
Fixpoint stale_run (st : FaultGame.Storage Registry) (calls : list (Tx * game_op))
    : option (FaultGame.Storage Registry) :=
  match calls with
  | [] => Some st
  | (tx, o) :: rest =>
      match game_exec stale_params st tx o with Ok st' => stale_run st' rest | Err _ => None end
  end.

Definition stale_game (n : nat) : L1Game :=
  match stale_run demo_deployed (take n stale_calls) with Some st => game_at st 1 | None => no_game end.

Definition at_block (n : Z) : Origin := {| block_number := n; tx_hash := zeros 32; log_index := 0 |}.

(** The events of those calls, by block. *)
Definition stale_events (n : Z) : list GameEvent :=
  if decide (n = 3) then [GameOpened 1 (zeros 32) (StateRoot.word 2) (StateRoot.word 9) (at_block 3)] else
  if decide (n = 5) then [MidpointSubmitted 1 (zeros 32) 5 (StateRoot.word 5) (at_block 5)] else
  if decide (n = 6) then [ResponseSubmitted 1 (zeros 32) false (at_block 6)] else
  if decide (n = 7) then [MidpointSubmitted 1 (zeros 32) 2 (StateRoot.word 2) (at_block 7)] else
  if decide (n = 20) then [ResponseSubmitted 1 (zeros 32) true (at_block 20)] else [].

(** The chain at a head, at which so many calls have been made. *)
Definition stale_moment (head : Z) (calls : nat) : moment :=
  {| m_head := head; m_events := stale_events; m_game := stale_game calls |}.

Definition stale_config : ObserverConfig :=
  {| watcher_cfg := watcher_cfg demo_config; poll_interval := DEFAULT_POLL_INTERVAL; play_as := Sequencer;
     cfg_deployment_id := zeros 32; max_broadcast_attempts := DEFAULT_MAX_BROADCAST_ATTEMPTS |}.

Definition stale_lifetime : kv * demo_world * list effect :=
  lifetime demo_topic_hash [(stale_config, false, None, 9%nat)] demo_db
    {| moments := [quiet_moment; stale_moment 15 4; stale_moment 16 4; stale_moment 18 4; stale_moment 19 4;
                   stale_moment 32 5; stale_moment 40 5]; alive := None |}.

Definition record_summary (r : GameRecord) : Z * Z * option Claim * TurnSide :=
  (idx (low (range (game_state r))), idx (high (range (game_state r))),
   pending_midpoint (game_state r), turn (game_state r)).

(** An event from before a hydration is applied again.  The state of a newly
    adopted game is read at the head of the chain, and the confirmed events that
    the state already contains are handled afterwards; a response is applied to
    whatever midpoint is pending.  In this lifetime, in which the contract accepts
    every call and the sequencer's midpoints are all true, the observer that plays
    the sequencer applies the answer to its first midpoint to its second one, signs
    a midpoint for index 1 of a game that is not its turn, and, when the game is
    at the range from 2 to 5 and waits for the midpoint at 3, holds it to be at the
    range from 0 to 2 and signs nothing. *)
Theorem stale_response_replayed :
  is_Some (stale_run demo_deployed stale_calls) ∧
  (signed_txs stale_lifetime.2).*1 = [(1, KindSubmit, Some 1)] ∧
  record_summary <$> v_games (view_after stale_lifetime.2) !! 1 = Some (0, 2, None, Sequencer) ∧
  idx (g_low (stale_game 5)) = 2 ∧ idx (g_high (stale_game 5)) = 5 ∧
  compute_next_move ((truth_oracle still).1) (view_of (stale_game 5)) Sequencer =
    Ok (Submit {| idx := 3; Game.commit := StateRoot.word 3 |}).
Proof. split; [eexists; vm_compute; reflexivity|]. vm_compute. by split_and!. Qed.
