(* ===== verification/LogTail.v ===== *)
(** * The tail of the transition log

    Models [src/runtime/knomosis-event-subscribe/src/tail.rs]: the reader that
    cuts the log file into frames and numbers them.

    The file is a class of calls on a world that may change between any two of
    them: its length, a seek, and a read of an exact number of bytes, each of
    which may fail.  [LogFileOk] states what the reader relies on: the file only
    grows, and a read returns the bytes at the position.  The file written by the
    kernel is a prefix of the frames of its entries, a torn frame included. *)

From Stdlib Require Import ZArith Lia.
From stdpp Require Import base numbers list.
From S2P Require Import Prelude.

Local Open Scope Z_scope.

Definition FNV1A_64_OFFSET_BASIS : Z := 0xcbf29ce484222325.
Definition FNV1A_64_PRIME : Z := 0x00000100000001b3.
Definition FRAME_MAGIC : list u8 := byte_of <$> [0x4B; 0x4E; 0x4F; 0x4D].
Definition FRAME_HEADER_LEN : Z := 12.
Definition FRAME_TRAILER_LEN : Z := 8.
Definition FRAME_PAYLOAD_MAX : Z := 16 * 1024 * 1024.

Record LogFrame : Type := { frame_seq : Z; frame_payload : list u8 }.

Inductive TailError : Type :=
| TailIo (offset : Z)
| FileShrank (cursor new_len : Z)
| BadMagic (offset : Z) (got : list u8)
| OversizeLogFrame (offset declared_length max : Z)
| BadTrailer (offset got expected : Z).

Inductive PollOutcome : Type :=
| PolledFrame (frame : LogFrame)
| PollPending (tail_bytes : Z).

Record TailReader : Type := { offset : Z; next_seq : Z; payload_max : Z }.

(** The state [open] leaves when its checks of the path succeed. *)
Definition TailReader_new : TailReader :=
  {| offset := 0; next_seq := 1; payload_max := FRAME_PAYLOAD_MAX |}.

Definition with_payload_max (self : TailReader) (payload_max : Z) : TailReader :=
  {| offset := offset self; next_seq := next_seq self;
     payload_max := Z.min payload_max FRAME_PAYLOAD_MAX |}.

Definition fnv1a64 (bytes : list u8) : Z :=
  foldl (fun h b => (Z.lxor h (byte_val b) * FNV1A_64_PRIME) mod 2 ^ 64) FNV1A_64_OFFSET_BASIS bytes.

Class LogFile (W : Type) : Type := {
  metadata_len : W → option Z * W;
  file_seek : Z → W → bool * W;
  read_exact : nat → W → option (list u8) * W;
}.

Section Reader.
Context {W : Type} `{LogFile W}.

(** A computation on the file handle. *)
Definition tailing (A : Type) : Type := W → result A TailError * W.

#[global] Instance tailing_ret : MRet tailing := fun A a w => (Ok a, w).
#[global] Instance tailing_bind : MBind tailing := fun A B k m w =>
  match m w with
  | (Ok a, w) => k a w
  | (Err e, w) => (Err e, w)
  end.

Definition refuse {A} (e : TailError) : tailing A := fun w => (Err e, w).

Definition file_len (self : TailReader) : tailing Z := fun w =>
  let '(r, w) := metadata_len w in (ok_or r (TailIo (offset self)), w).

Definition seek_to (off : Z) : tailing () := fun w =>
  let '(done, w) := file_seek off w in ((if done : bool then Ok () else Err (TailIo off)), w).

Definition read_exact_or_io (len : Z) (offset_for_diag : Z) : tailing (list u8) := fun w =>
  let '(r, w) := read_exact (Z.to_nat len) w in (ok_or r (TailIo offset_for_diag), w).

(** The frame at the cursor, with its length in the file, or the bytes that are
    not a whole frame yet. *)
Definition poll_frame (self : TailReader) : tailing (Z + (list u8 * Z)) :=
  total_len ← file_len self;
  if decide (total_len < offset self) then refuse (FileShrank (offset self) total_len) else
  if decide (total_len = offset self) then mret (inl 0) else
  let available := total_len - offset self in
  if decide (available < FRAME_HEADER_LEN) then mret (inl available) else
  seek_to (offset self);;
  header ← read_exact_or_io FRAME_HEADER_LEN (offset self);
  let got_magic := take 4 header in
  if decide (got_magic ≠ FRAME_MAGIC) then refuse (BadMagic (offset self) got_magic) else
  let payload_len := from_le_bytes (take 8 (drop 4 header)) in
  if decide (payload_max self < payload_len)
  then refuse (OversizeLogFrame (offset self) payload_len (payload_max self)) else
  let total_frame_len := FRAME_HEADER_LEN + payload_len + FRAME_TRAILER_LEN in
  if decide (available < total_frame_len) then mret (inl available) else
  let payload_offset := offset self + FRAME_HEADER_LEN in
  payload ← read_exact_or_io payload_len payload_offset;
  trailer ← read_exact_or_io FRAME_TRAILER_LEN (payload_offset + payload_len);
  let trailer_got := from_le_bytes trailer in
  let trailer_expected := fnv1a64 payload in
  if decide (trailer_got ≠ trailer_expected)
  then refuse (BadTrailer (offset self) trailer_got trailer_expected)
  else mret (inr (payload, total_frame_len)).

Definition poll (self : TailReader) (w : W) : result PollOutcome TailError * TailReader * W :=
  match poll_frame self w with
  | (Err e, w) => (Err e, self, w)
  | (Ok (inl tail_bytes), w) => (Ok (PollPending tail_bytes), self, w)
  | (Ok (inr (payload, total_frame_len)), w) =>
      (Ok (PolledFrame {| frame_seq := next_seq self; frame_payload := payload |}),
       {| offset := offset self + total_frame_len;
          next_seq := saturating_add 64 (next_seq self) 1; payload_max := payload_max self |}, w)
  end.

(** Any number of polls, with what each answered. *)
Fixpoint poll_many (k : nat) (self : TailReader) (w : W)
    : list (result PollOutcome TailError) * TailReader * W :=
  match k with
  | O => ([], self, w)
  | S k =>
      let '(r, self, w) := poll self w in
      let '(rs, self, w) := poll_many k self w in (r :: rs, self, w)
  end.
End Reader.

(** The frames of a run of polls. *)
Definition polled (rs : list (result PollOutcome TailError)) : list LogFrame :=
  omap (fun r => match r with Ok (PolledFrame f) => Some f | _ => None end) rs.

(** ** The file *)

(** The layout of a frame in the file. *)
Definition encode_frame (payload : list u8) : list u8 :=
  FRAME_MAGIC ++ to_le_bytes 8 (Z.of_nat (length payload)) ++ payload ++ to_le_bytes 8 (fnv1a64 payload).

Definition log_bytes (payloads : list (list u8)) : list u8 := payloads ≫= encode_frame.

(** The file in a world: it only grows, and is always a prefix of the log. *)
Class LogFileOk (W : Type) `{LogFile W} (payloads : list (list u8)) : Type := {
  content : W → list u8;
  position : W → Z;
  content_of_log w : content w `prefix_of` log_bytes payloads;
  metadata_len_ok (w : W) r w' : metadata_len w = (r, w') →
    content w `prefix_of` content w' ∧ ∀ n, r = Some n → n = Z.of_nat (length (content w'));
  file_seek_ok off (w : W) done w' : file_seek off w = (done, w') →
    content w `prefix_of` content w' ∧ (done = true → position w' = off);
  read_exact_ok n (w : W) r w' : read_exact n w = (r, w') →
    content w `prefix_of` content w' ∧
    ∀ bs, r = Some bs → length bs = n ∧ bs = take n (drop (Z.to_nat (position w)) (content w')) ∧
      position w' = position w + Z.of_nat n;
}.

Definition numbered (payloads : list (list u8)) : list LogFrame :=
  imap (fun i p => {| frame_seq := Z.of_nat i + 1; frame_payload := p |}) payloads.

(** A reader that has taken the first [j] entries. *)
Definition stands_at (payloads : list (list u8)) (j : nat) (self : TailReader) : Prop :=
  (j ≤ length payloads)%nat ∧ offset self = Z.of_nat (length (log_bytes (take j payloads))) ∧
  next_seq self = Z.of_nat j + 1 ∧ payload_max self = FRAME_PAYLOAD_MAX.

(** The entry fits: its declared length is within the cap. *)
Definition entry_fits (p : list u8) : Prop := Z.of_nat (length p) ≤ FRAME_PAYLOAD_MAX.

Lemma encode_frame_length p : Z.of_nat (length (encode_frame p)) = FRAME_HEADER_LEN + Z.of_nat (length p) + FRAME_TRAILER_LEN.
Proof.
  unfold encode_frame. rewrite !length_app, !to_le_bytes_length. cbn [length FRAME_MAGIC fmap list_fmap].
  unfold FRAME_HEADER_LEN, FRAME_TRAILER_LEN. lia.
Qed.

Lemma fnv1a64_u64 p : in_u64 (fnv1a64 p).
Proof.
  unfold fnv1a64. assert (Hh : in_u64 FNV1A_64_OFFSET_BASIS) by (unfold FNV1A_64_OFFSET_BASIS, in_width; lia).
  revert Hh. generalize FNV1A_64_OFFSET_BASIS.
  induction p as [|b p IH]; cbn; [done|]. intros h _. apply IH. apply Z.mod_pos_bound. lia.
Qed.

Lemma prefix_slice {A} (c l : list A) i n :
  c `prefix_of` l → (i + n ≤ length c)%nat → take n (drop i c) = take n (drop i l).
Proof.
  intros [k ->] Hn. rewrite drop_app_le, take_app_le; [done|rewrite length_drop; lia|lia].
Qed.

(** The log beyond the first [j] entries, and the next entry when a byte of it
    is in the file. *)
Lemma drop_log_bytes payloads j :
  drop (length (log_bytes (take j payloads))) (log_bytes payloads) = log_bytes (drop j payloads).
Proof.
  unfold log_bytes. rewrite <- (take_drop j payloads) at 2. by rewrite bind_app, drop_app_length.
Qed.

Lemma log_bytes_next payloads j (c : list u8) :
  c `prefix_of` log_bytes payloads → (length (log_bytes (take j payloads)) < length c)%nat →
  ∃ p, payloads !! j = Some p.
Proof.
  intros Hc Hlt. apply lookup_lt_is_Some, not_le. intros Hj. rewrite take_ge in Hlt by lia.
  apply prefix_length in Hc. lia.
Qed.

Lemma log_bytes_take_S payloads j p :
  payloads !! j = Some p → log_bytes (take (S j) payloads) = log_bytes (take j payloads) ++ encode_frame p.
Proof. intros Hp. unfold log_bytes. rewrite (take_S_r _ _ p) by done. rewrite bind_app. cbn. by rewrite app_nil_r. Qed.

(** What a read finds in the frame at the cursor. *)
Lemma frame_slice payloads j p (c : list u8) i n :
  payloads !! j = Some p → c `prefix_of` log_bytes payloads →
  (length (log_bytes (take j payloads)) + i + n ≤ length c)%nat →
  (i + n ≤ length (encode_frame p))%nat →
  take n (drop (length (log_bytes (take j payloads)) + i) c) = take n (drop i (encode_frame p)).
Proof.
  intros Hp Hc Hlen Hin. rewrite (prefix_slice _ (log_bytes payloads)) by (done || lia).
  rewrite <- drop_drop, drop_log_bytes, (drop_S _ p j) by done.
  unfold log_bytes. cbn [mbind list_bind]. rewrite drop_app_le, take_app_le; [done|rewrite length_drop; lia|lia].
Qed.

Section Delivery.
Context {W : Type} (payloads : list (list u8)) `{LogFileOk W payloads}.
Context (Hfit : Forall entry_fits payloads).

Abbreviation stands := (stands_at payloads).

(** A computation during which the file only grows. *)
Definition grows {A} (m : tailing (W := W) A) : Prop :=
  ∀ w r w', m w = (r, w') → content w `prefix_of` content w'.

Lemma grows_ret {A} (r : result A TailError) : grows (fun w => (r, w)).
Proof. by intros w r' w' [= <- <-]. Qed.

Lemma grows_bind {A B} (m : tailing A) (k : A → tailing B) :
  grows m → (∀ a, grows (k a)) → grows (m ≫= k).
Proof.
  intros Hm Hk w r w'. unfold mbind, tailing_bind. destruct (m w) as [[a|e] w1] eqn:Em; intros E.
  - etrans; [by eapply Hm|by eapply Hk].
  - injection E as <- <-. by eapply Hm.
Qed.

Lemma grows_file_len self : grows (file_len self).
Proof. intros w r w'. unfold file_len. destruct (metadata_len w) eqn:E. intros [= <- <-]. by apply metadata_len_ok in E as []. Qed.

Lemma grows_seek_to off : grows (seek_to off).
Proof. intros w r w'. unfold seek_to. destruct (file_seek off w) eqn:E. intros [= <- <-]. by apply file_seek_ok in E as []. Qed.

Lemma grows_read_exact len off : grows (read_exact_or_io len off).
Proof.
  intros w r w'. unfold read_exact_or_io. destruct (read_exact _ w) eqn:E. intros [= <- <-].
  by apply read_exact_ok in E as [].
Qed.

Lemma grows_poll_frame self : grows (poll_frame self).
Proof.
  unfold poll_frame, refuse, mret, tailing_ret.
  repeat first [apply grows_ret | apply grows_bind; [apply grows_file_len || apply grows_seek_to || apply grows_read_exact|intros ?]
               | case_decide].
Qed.

(** A read inside the frame at the cursor returns that part of the frame. *)
Lemma read_part j p (w : W) len diag i bs w' :
  payloads !! j = Some p → 0 ≤ len →
  position w = Z.of_nat (length (log_bytes (take j payloads)) + i) →
  (i + Z.to_nat len ≤ length (encode_frame p))%nat →
  read_exact_or_io len diag w = (Ok bs, w') →
  bs = take (Z.to_nat len) (drop i (encode_frame p)) ∧ position w' = position w + len ∧
  (0 < len → position w' ≤ Z.of_nat (length (content w'))).
Proof.
  intros Hp Hlen Hpos Hi. unfold read_exact_or_io. destruct (read_exact _ w) as [o w1] eqn:E.
  destruct o as [bs1|]; cbn; [|done]. intros [= -> ->].
  apply read_exact_ok in E as [_ Hr]. destruct (Hr bs eq_refl) as (Hl & Hbs & Hp').
  rewrite Hpos, Nat2Z.id in Hbs. rewrite Hbs, length_take, length_drop in Hl.
  split_and!; [|lia|lia]. rewrite Hbs.
  destruct (decide (Z.to_nat len = 0%nat)) as [->|]; [done|]. apply (frame_slice payloads j p); [done| |lia|done].
  apply content_of_log.
Qed.

Lemma header_of p : take 12 (drop 0 (encode_frame p)) = FRAME_MAGIC ++ to_le_bytes 8 (Z.of_nat (length p)).
Proof. unfold encode_frame. rewrite drop_0, app_assoc. by apply take_app_length'. Qed.

Lemma payload_of p : take (length p) (drop 12 (encode_frame p)) = p.
Proof.
  unfold encode_frame. rewrite app_assoc, drop_app_length' by done. by apply take_app_length'.
Qed.

Lemma trailer_of p : take 8 (drop (12 + length p) (encode_frame p)) = to_le_bytes 8 (fnv1a64 p).
Proof.
  unfold encode_frame. rewrite app_assoc, <- drop_drop, drop_app_length' by done.
  rewrite drop_app_length' by done. apply take_ge. by rewrite to_le_bytes_length.
Qed.

(** Calls that succeed whenever the bytes they need are in the file. *)
Definition reliable : Prop := ∀ (w : W) off n,
  is_Some (metadata_len w).1 ∧ (file_seek off w).1 = true ∧
  (position w + Z.of_nat n ≤ Z.of_nat (length (content w)) → is_Some (read_exact n w).1).

(** The calls on the file fail with an I/O error only. *)
Lemma len_fails_io self (w w' : W) e :
  file_len self w = (Err e, w') → (∃ o, e = TailIo o) ∧ ¬ reliable.
Proof.
  unfold file_len. destruct (metadata_len w) as [o w1] eqn:E. destruct o; cbn; [done|]. intros [= <- <-].
  split; [eauto|]. intros Hr. destruct (Hr w 0 0%nat) as [Hs _]. rewrite E in Hs. by destruct Hs.
Qed.

Lemma seek_fails_io off (w w' : W) e :
  seek_to off w = (Err e, w') → (∃ o, e = TailIo o) ∧ ¬ reliable.
Proof.
  unfold seek_to. destruct (file_seek off w) as [d w1] eqn:E. destruct d; cbn; [done|]. intros [= <- <-].
  split; [eauto|]. intros Hr. destruct (Hr w off 0%nat) as (_ & Hs & _). by rewrite E in Hs.
Qed.

Lemma read_fails_io len diag (w w' : W) e :
  read_exact_or_io len diag w = (Err e, w') →
  (∃ o, e = TailIo o) ∧ (0 ≤ len → position w + len ≤ Z.of_nat (length (content w)) → ¬ reliable).
Proof.
  unfold read_exact_or_io. destruct (read_exact _ w) as [o w1] eqn:E. destruct o; cbn; [done|]. intros [= <- <-].
  split; [eauto|]. intros Hl Hp Hr. destruct (Hr w 0 (Z.to_nat len)) as (_ & _ & Hs).
  rewrite E in Hs. destruct Hs; [lia|done].
Qed.

Lemma seek_position off (w w' : W) : seek_to off w = (Ok (), w') → position w' = off.
Proof.
  unfold seek_to. destruct (file_seek off w) as [[] w1] eqn:E; [|done]. intros [= ->].
  apply file_seek_ok in E as [_ E]. by apply E.
Qed.

Lemma file_len_content self (w w' : W) n :
  file_len self w = (Ok n, w') → n = Z.of_nat (length (content w')).
Proof.
  unfold file_len. destruct (metadata_len w) as [o w1] eqn:E. destruct o as [n'|]; [|done].
  intros [= -> ->]. by eapply metadata_len_ok.
Qed.

(** A poll takes the next entry, or leaves the reader where it stands; the file
    of the kernel never looks damaged. *)
Lemma poll_frame_step j self (w : W) r w' :
  stands j self → offset self ≤ Z.of_nat (length (content w)) → poll_frame self w = (r, w') →
  match r with
  | Ok (inr (p, n)) => payloads !! j = Some p ∧ n = Z.of_nat (length (encode_frame p)) ∧
      offset self + n ≤ Z.of_nat (length (content w'))
  | Ok (inl _) => ∀ p, payloads !! j = Some p →
      Z.of_nat (length (content w)) < offset self + Z.of_nat (length (encode_frame p))
  | Err (TailIo _) => ¬ reliable
  | Err _ => False
  end.
Proof.
  intros (Hj & Ho & Hs & Hm) Hw. unfold poll_frame, mbind, tailing_bind.
  destruct (file_len self w) as [[n|e] w1] eqn:E1.
  2:{ intros [= <- <-]. by apply len_fails_io in E1 as [[o ->] ?]. }
  pose proof (grows_file_len self w _ _ E1) as Hg%prefix_length. apply file_len_content in E1 as ->.
  rewrite decide_False by lia.
  case_decide. { intros [= <- <-] p _. pose proof (encode_frame_length p). unfold FRAME_HEADER_LEN, FRAME_TRAILER_LEN in *. lia. }
  unfold FRAME_HEADER_LEN.
  case_decide. { intros [= <- <-] p _. pose proof (encode_frame_length p). unfold FRAME_HEADER_LEN, FRAME_TRAILER_LEN in *. lia. }
  destruct (log_bytes_next payloads j (content w1) (content_of_log w1)) as [p Hp]; [lia|].
  destruct (seek_to (offset self) w1) as [[[]|e] w2] eqn:E2.
  2:{ intros [= <- <-]. by apply seek_fails_io in E2 as [[o ->] ?]. }
  pose proof (grows_seek_to _ w1 _ _ E2) as Hg2%prefix_length. apply seek_position in E2.
  pose proof (encode_frame_length p) as Hlen. unfold FRAME_HEADER_LEN, FRAME_TRAILER_LEN in Hlen.
  assert (entry_fits p) as Hfp by (eapply Forall_lookup_1; eauto). unfold entry_fits in Hfp.
  destruct (read_exact_or_io 12 (offset self) w2) as [[header|e] w3] eqn:E3.
  2:{ intros [= <- <-]. apply read_fails_io in E3 as [[o ->] E3]. apply E3; lia. }
  pose proof (grows_read_exact _ _ w2 _ _ E3) as Hg3%prefix_length.
  apply (read_part j p _ _ _ 0) in E3 as (-> & Hp3 & Hc3); [|done|done|lia|lia].
  change (Z.to_nat 12) with 12%nat. rewrite header_of, (take_app_length' FRAME_MAGIC), (drop_app_length' FRAME_MAGIC) by done.
  rewrite decide_False by auto. rewrite (take_ge (to_le_bytes 8 _)) by (by rewrite to_le_bytes_length).
  rewrite from_to_le_bytes by (unfold in_width, FRAME_PAYLOAD_MAX in *; lia).
  rewrite Hm, decide_False by lia. unfold FRAME_TRAILER_LEN.
  case_decide. { intros [= <- <-] p'. rewrite Hp. intros [= <-]. lia. }
  destruct (read_exact_or_io (Z.of_nat (length p)) _ w3) as [[payload|e] w4] eqn:E4.
  2:{ intros [= <- <-]. apply read_fails_io in E4 as [[o ->] E4]. apply E4; lia. }
  pose proof (grows_read_exact _ _ w3 _ _ E4) as Hg4%prefix_length.
  apply (read_part j p _ _ _ 12) in E4 as (-> & Hp4 & Hc4); [|done|lia|lia|lia].
  rewrite Nat2Z.id, payload_of.
  destruct (read_exact_or_io 8 _ w4) as [[trailer|e] w5] eqn:E5.
  2:{ intros [= <- <-]. apply read_fails_io in E5 as [[o ->] E5]. apply E5; lia. }
  apply (read_part j p _ _ _ (12 + length p)) in E5 as (-> & Hp5 & Hc5); [|done|lia|lia|lia].
  change (Z.to_nat 8) with 8%nat. rewrite trailer_of, from_to_le_bytes by apply fnv1a64_u64.
  rewrite decide_False by auto. intros [= <- <-].
  split_and!; [done|lia|lia].
Qed.

Lemma stands_take j self p :
  stands j self → payloads !! j = Some p → Z.of_nat (length payloads) < 2 ^ 64 - 1 →
  stands (S j) {| offset := offset self + Z.of_nat (length (encode_frame p));
                  next_seq := saturating_add 64 (next_seq self) 1; payload_max := payload_max self |}.
Proof.
  intros (Hj & Ho & Hs & Hm) Hp Hn. pose proof (lookup_lt_Some _ _ _ Hp).
  split_and!; cbn [offset next_seq payload_max]; [lia| |rewrite Hs; unfold saturating_add; lia|done].
  rewrite (log_bytes_take_S _ _ p), length_app by done. lia.
Qed.

(** One poll: the next entry with its number, or the reader as it was. *)
Lemma poll_step j self (w : W) r self' w' :
  Z.of_nat (length payloads) < 2 ^ 64 - 1 →
  stands j self → offset self ≤ Z.of_nat (length (content w)) → poll self w = (r, self', w') →
  offset self' ≤ Z.of_nat (length (content w')) ∧
  ((∃ p, payloads !! j = Some p ∧ r = Ok (PolledFrame {| frame_seq := Z.of_nat j + 1; frame_payload := p |}) ∧
      stands (S j) self') ∨
   (self' = self ∧ ((∃ n, r = Ok (PollPending n)) ∨ ∃ o, r = Err (TailIo o)) ∧
    (reliable → ∀ p, payloads !! j = Some p →
       Z.of_nat (length (content w)) < offset self + Z.of_nat (length (encode_frame p))))).
Proof.
  intros Hn Hst Hw. unfold poll. destruct (poll_frame self w) as [r1 w1] eqn:E.
  pose proof (poll_frame_step _ _ _ _ _ Hst Hw E) as Hr. pose proof (grows_poll_frame _ _ _ _ E) as Hg%prefix_length.
  destruct r1 as [[n|[p n]]|e].
  - intros [= <- <- <-]. split; [lia|]. right. split_and!; eauto.
  - destruct Hr as (Hp & -> & Hc). intros [= <- <- <-]. split; [|left].
    + done.
    + exists p. split; [done|]. split; [|by apply stands_take]. by destruct Hst as (_ & _ & -> & _).
  - intros [= <- <- <-]. split; [lia|]. right. destruct e; naive_solver.
Qed.

Lemma poll_many_frames k j self (w : W) rs self' w' :
  Z.of_nat (length payloads) < 2 ^ 64 - 1 →
  stands j self → offset self ≤ Z.of_nat (length (content w)) → poll_many k self w = (rs, self', w') →
  ∃ i, (j ≤ i)%nat ∧ stands i self' ∧ polled rs = take (i - j) (drop j (numbered payloads)) ∧
    Forall (fun r => match r with Ok _ | Err (TailIo _) => True | Err _ => False end) rs ∧
    offset self' ≤ Z.of_nat (length (content w')).
Proof.
  intros Hn. revert j self w rs. induction k as [|k IH]; intros j self w rs Hst Hw; cbn.
  { intros [= <- <- <-]. exists j. by rewrite Nat.sub_diag. }
  destruct (poll self w) as [[r self1] w1] eqn:E1. destruct (poll_many k self1 w1) as [[rs1 self2] w2] eqn:E2.
  intros [= <- <- <-].
  destruct (poll_step j self w r self1 w1) as [Hw1 [(p & Hp & -> & Hst1)|(-> & Hr & _)]]; try done.
  - destruct (IH (S j) self1 w1 rs1) as (i & Hi & Hsti & Hps & Hall & Hwi); try done.
    exists i. split_and!; [lia|done| |by constructor|done]. cbn. fold (polled rs1). rewrite Hps.
    replace (i - j)%nat with (S (i - S j)) by lia.
    rewrite (drop_S _ {| frame_seq := Z.of_nat j + 1; frame_payload := p |} j); [done|].
    unfold numbered. rewrite list_lookup_imap, Hp. done.
  - destruct (IH j self w1 rs1) as (i & Hi & Hsti & Hps & Hall & Hwi); try done.
    exists i. destruct Hr as [[n ->]|[o ->]]; split_and!; try done; by constructor.
Qed.

End Delivery.


(** A file of two entries, of which the second is torn until the third call. *)
Definition demo_entries : list (list u8) := [[byte_of 7]; [byte_of 8; byte_of 9]].

Definition demo_log_content (calls : nat) : list u8 :=
  if decide (calls < 8)%nat then take 35 (log_bytes demo_entries) else log_bytes demo_entries.

#[local] Instance demo_file : LogFile (nat * Z) := {|
  metadata_len w := (Some (Z.of_nat (length (demo_log_content (S w.1)))), (S w.1, w.2));
  file_seek off w := (true, (S w.1, off));
  read_exact n w :=
    let bs := take n (drop (Z.to_nat w.2) (demo_log_content (S w.1))) in
    (if decide (length bs = n) then (Some bs, (S w.1, w.2 + Z.of_nat n)) else (None, (S w.1, w.2)))
|}.

Lemma demo_log_content_grows n m : (n ≤ m)%nat → demo_log_content n `prefix_of` demo_log_content m.
Proof.
  intros Hnm. unfold demo_log_content. repeat case_decide; try lia; try done.
  eexists. symmetry. apply (take_drop 35).
Qed.

#[local] Instance demo_file_ok : LogFileOk (nat * Z) demo_entries.
Proof.
  refine {| content w := demo_log_content w.1; position := snd |}.
  - intros [n z]. cbn. unfold demo_log_content. case_decide; [|done]. eexists. symmetry. apply (take_drop 35).
  - intros [n z] r w'. cbn. intros [= <- <-]. split; [apply demo_log_content_grows; cbn; lia|]. by intros ? [= <-].
  - intros off [n z] d w'. cbn. intros [= <- <-]. split; [apply demo_log_content_grows; cbn; lia|done].
  - intros len [n z] r w'. cbn -[take drop]. case_decide; intros [= <- <-].
    + split; [apply demo_log_content_grows; cbn; lia|]. by intros ? [= <-].
    + split; [apply demo_log_content_grows; cbn; lia|done].
Defined.

