(* ===== verification/EventWire.v ===== *)
(** * The event-subscription wire

    Models [src/runtime/knomosis-event-subscribe/src/frame.rs], the frames of the
    server and of its subscribers, and the reader of
    [src/runtime/knomosis-indexer/src/client.rs].

    A [Read] is the list of what its successive reads deliver, as in [Frame]: a
    chunk of bytes, of which a read takes what its buffer holds, or an error; a
    list that is used up reads zero bytes for ever.  The two crates read the same
    frames with the same text and their own error types, so the reader is written
    once over the errors. *)

From Stdlib Require Import ZArith Lia.
From stdpp Require Import base numbers list.
From S2P Require Import Prelude Frame.

Local Open Scope Z_scope.
#[local] Arguments to_be_bytes : simpl never.
#[local] Arguments from_be_bytes : simpl never.

Definition KIND_SUBSCRIBE : u8 := byte_of 0.
Definition KIND_EVENT : u8 := byte_of 1.
Definition KIND_LAG_EXCEEDED : u8 := byte_of 2.
Definition KIND_TRUNCATED : u8 := byte_of 3.
Definition KIND_SERVER_SHUTDOWN : u8 := byte_of 4.
Definition KIND_INVALID_REQUEST : u8 := byte_of 5.

Inductive InboundFrame : Type :=
| Subscribe (resume_from : Z).

Inductive OutboundFrame : Type :=
| EventFrame (seq : Z) (payload : list u8)
| LagExceededFrame (last_delivered_seq : Z)
| TruncatedFrame (oldest_available_seq : Z)
| ServerShutdownFrame (last_delivered_seq : Z)
| InvalidRequestFrame.

#[global] Instance OutboundFrame_eq_dec : EqDecision OutboundFrame.
Proof. solve_decision. Defined.

(** The client calls the same frames [ServerFrame]. *)
Abbreviation ServerFrame := OutboundFrame.

Definition is_terminal (self : ServerFrame) : bool :=
  match self with EventFrame _ _ => false | _ => true end.

Inductive WriteFrameError : Type :=
| WriteIo (code : Z)
| PayloadOversize (len max : Z)
| PayloadTooLarge (len : Z).

Definition encode_outbound (frame : OutboundFrame) (max_payload : Z)
    : result (list u8) WriteFrameError :=
  let max_payload := Z.min max_payload HARD_MAX_FRAME_SIZE in
  match frame with
  | EventFrame seq payload =>
      let len := Z.of_nat (length payload) in
      if decide (max_payload < len) then Err (PayloadOversize len max_payload)
      else if decide (2 ^ 32 ≤ len) then Err (PayloadTooLarge len)
      else Ok (KIND_EVENT :: to_be_bytes 8 seq ++ to_be_bytes 4 len ++ payload)
  | LagExceededFrame last_delivered_seq => Ok (KIND_LAG_EXCEEDED :: to_be_bytes 8 last_delivered_seq)
  | TruncatedFrame oldest_available_seq => Ok (KIND_TRUNCATED :: to_be_bytes 8 oldest_available_seq)
  | ServerShutdownFrame last_delivered_seq => Ok (KIND_SERVER_SHUTDOWN :: to_be_bytes 8 last_delivered_seq)
  | InvalidRequestFrame => Ok (KIND_INVALID_REQUEST :: to_be_bytes 8 0)
  end.

Definition encode_inbound (frame : InboundFrame) : list u8 :=
  let 'Subscribe resume_from := frame in KIND_SUBSCRIBE :: to_be_bytes 8 resume_from.

(** ** Reading *)

(** What a reader reports: an I/O error, the end before the first byte, the end
    inside a frame with the bytes read and expected, an unknown kind, and a
    payload over the maximum. *)
Class WireErrors (E : Type) : Type := {
  wire_io : Z → E;
  wire_eof : E;
  wire_truncated : Z → Z → E;
  wire_unknown : u8 → E;
  wire_oversize : Z → Z → E;
}.

Section Reading.
Context {E : Type} `{WireErrors E}.

Definition wire_reading (A : Type) : Type := list delivery → result A E * list delivery.

#[global] Instance wire_ret : MRet wire_reading := fun A a s => (Ok a, s).
#[global] Instance wire_bind : MBind wire_reading := fun A B k m s =>
  match m s with
  | (Ok a, s) => k a s
  | (Err e, s) => (Err e, s)
  end.

Definition wire_fail {A} (e : E) : wire_reading A := fun s => (Err e, s).

(** The loops [while filled < len]: [eof] is the error of a read of zero bytes,
    given the number of bytes filled so far. *)
Fixpoint read_loop (need : nat) (filled : list u8) (eof : Z → E) (s : list delivery)
    : result (list u8) E * list delivery :=
  if decide (need = 0%nat) then (Ok filled, s)
  else
    match s with
    | [] => (Err (eof (Z.of_nat (length filled))), [])
    | Failed code :: s => (Err (wire_io code), s)
    | Chunk [] :: s => (Err (eof (Z.of_nat (length filled))), s)
    | Chunk bs :: s =>
        if decide (length bs ≤ need)%nat
        then read_loop (need - length bs) (filled ++ bs) eof s
        else (Ok (filled ++ take need bs), Chunk (drop need bs) :: s)
    end.

Definition read_exact_or_truncated (len : nat) (bytes_already_read expected_total : Z)
    : wire_reading (list u8) :=
  read_loop len [] (fun filled => wire_truncated (bytes_already_read + filled) expected_total).

Definition read_u64_field : wire_reading Z :=
  buf ← read_exact_or_truncated 8 1 9;
  mret (from_be_bytes buf).

(** The frame after its kind. *)
Definition read_body (max_payload : Z) (kind : u8) : wire_reading OutboundFrame :=
  if decide (kind = KIND_EVENT) then
    seq_buf ← read_exact_or_truncated 8 1 13;
    len_buf ← read_exact_or_truncated 4 9 13;
    let declared := from_be_bytes len_buf in
    if decide (max_payload < declared) then wire_fail (wire_oversize declared max_payload) else
    payload ← read_exact_or_truncated (Z.to_nat declared) 13 (13 + declared);
    mret (EventFrame (from_be_bytes seq_buf) payload)
  else if decide (kind = KIND_LAG_EXCEEDED) then seq ← read_u64_field; mret (LagExceededFrame seq)
  else if decide (kind = KIND_TRUNCATED) then seq ← read_u64_field; mret (TruncatedFrame seq)
  else if decide (kind = KIND_SERVER_SHUTDOWN) then seq ← read_u64_field; mret (ServerShutdownFrame seq)
  else if decide (kind = KIND_INVALID_REQUEST) then _ ← read_u64_field; mret InvalidRequestFrame
  else wire_fail (wire_unknown kind).

Definition read_server_frame (max_payload : Z) : wire_reading OutboundFrame :=
  head ← read_loop 1 [] (fun _ => wire_eof);
  match head with
  | kind :: _ => read_body max_payload kind
  | [] => wire_fail wire_eof
  end.

(** The handshake, on the server's side. *)
Definition read_inbound : wire_reading InboundFrame :=
  head ← read_loop 1 [] (fun _ => wire_eof);
  match head with
  | kind :: _ =>
      if decide (kind = KIND_SUBSCRIBE) then resume_from ← read_u64_field; mret (Subscribe resume_from)
      else wire_fail (wire_unknown kind)
  | [] => wire_fail wire_eof
  end.
End Reading.

(** The errors of the server's crate. *)
Module Subscription.
Inductive FrameError : Type :=
| Io (code : Z)
| EofBeforeHeader
| Truncated (bytes_read expected : Z)
| UnknownKind (kind : u8)
| OversizeFrame (declared_length max : Z).
End Subscription.

#[global] Instance FrameError_wire : WireErrors Subscription.FrameError := {|
  wire_io := Subscription.Io; wire_eof := Subscription.EofBeforeHeader;
  wire_truncated := Subscription.Truncated; wire_unknown := Subscription.UnknownKind;
  wire_oversize := Subscription.OversizeFrame |}.

Definition read_outbound (max_payload : Z) : wire_reading (E := Subscription.FrameError) OutboundFrame :=
  read_server_frame (Z.min max_payload HARD_MAX_FRAME_SIZE).

(** The errors of the indexer's client. *)
Inductive ClientError : Type :=
| ClientIo (code : Z)
| ClientEof
| ClientTruncated (read expected : Z)
| ClientUnknownKind (kind : u8)
| ClientOversizeFrame (declared max : Z).

#[global] Instance ClientError_wire : WireErrors ClientError := {|
  wire_io := ClientIo; wire_eof := ClientEof; wire_truncated := ClientTruncated;
  wire_unknown := ClientUnknownKind; wire_oversize := ClientOversizeFrame |}.

Record SubscribeClient : Type := { reader : list delivery; max_frame_size : Z }.

(** The client that [connect] leaves, once the handshake is sent. *)
Definition connected (reader : list delivery) (max_frame_size : Z) : SubscribeClient :=
  {| reader := reader; max_frame_size := Z.min max_frame_size HARD_MAX_FRAME_SIZE |}.

Definition client_read_frame (self : SubscribeClient) : result ServerFrame ClientError * SubscribeClient :=
  let '(r, s) := read_server_frame (max_frame_size self) (reader self) in
  (r, {| reader := s; max_frame_size := max_frame_size self |}).

(** Up to [k] frames, until one cannot be read. *)
Fixpoint read_frames (k : nat) (self : SubscribeClient) : list ServerFrame * option ClientError :=
  match k with
  | O => ([], None)
  | S k =>
      match client_read_frame self with
      | (Ok f, self) => let '(fs, e) := read_frames k self in (f :: fs, e)
      | (Err e, _) => ([], Some e)
      end
  end.

(** ** The round trip *)

(** The bytes that arrive before a read fails or delivers none. *)
Fixpoint arrives (s : list delivery) : list u8 :=
  match s with
  | Chunk (b :: bs) :: s => (b :: bs) ++ arrives s
  | _ => []
  end.

Definition frame_typed (f : OutboundFrame) : Prop :=
  match f with
  | EventFrame seq _ | LagExceededFrame seq | TruncatedFrame seq | ServerShutdownFrame seq => in_u64 seq
  | InvalidRequestFrame => True
  end.

Definition frame_fits (max_payload : Z) (f : OutboundFrame) : Prop :=
  match f with
  | EventFrame _ payload => Z.of_nat (length payload) ≤ max_payload
  | _ => True
  end.

Section RoundTrip.
Context {E : Type} `{WireErrors E}.

Lemma read_loop_spec need filled (eof : Z → E) s :
  match read_loop need filled eof s with
  | (Ok bs, s') => (need ≤ length (arrives s))%nat ∧ bs = filled ++ take need (arrives s) ∧
      arrives s' = drop need (arrives s)
  | (Err _, _) => (length (arrives s) < need)%nat
  end.
Proof.
  revert need filled. induction s as [|d s IH]; intros need filled; cbn [read_loop].
  - case_decide as H0; cbn; [|lia]. rewrite H0. cbn. rewrite app_nil_r. split_and!; [lia|done..].
  - case_decide as H0. { rewrite H0, drop_0, app_nil_r. split_and!; [lia|done..]. }
    destruct d as [[|b c]|]; [cbn; lia| |cbn; lia]. cbn [arrives].
    case_decide as Hle.
    + specialize (IH (need - length (b :: c))%nat (filled ++ b :: c)).
      destruct (read_loop _ _ _ s) as [[bs|e] s']; rewrite length_app.
      * destruct IH as (? & -> & ->). split_and!; [lia| |by rewrite drop_app_ge by lia].
        by rewrite <- app_assoc, take_app_ge by lia.
      * lia.
    + rewrite length_app, take_app_le by lia. split_and!; [lia|done|].
      rewrite drop_app_le by lia. destruct (drop need (b :: c)) eqn:Ed; [|done].
      apply (f_equal length) in Ed. rewrite length_drop in Ed. cbn in *. lia.
Qed.

(** Reading [bs] off a stream that starts with them, or that is cut inside them. *)
Lemma read_field need (eof : Z → E) s bs rest :
  length bs = need → arrives s `prefix_of` bs ++ rest →
  match read_loop need [] eof s with
  | (Ok bs', s') => bs' = bs ∧ arrives s = bs ++ arrives s' ∧ arrives s' `prefix_of` rest
  | (Err _, _) => (length (arrives s) < need)%nat
  end.
Proof.
  intros Hn [k Hk]. pose proof (read_loop_spec need [] eof s) as Hr.
  destruct (read_loop need [] eof s) as [[bs'|e] s']; [|done].
  destruct Hr as (Hle & -> & Hs'). cbn.
  assert (take need (arrives s) = bs) as Ht.
  { apply (f_equal (take need)) in Hk. rewrite take_app_length', take_app_le in Hk by lia. done. }
  rewrite Ht. split; [done|]. rewrite Hs'. split; [by rewrite <- Ht, take_drop|].
  exists k. apply (f_equal (drop need)) in Hk. rewrite drop_app_length', drop_app_le in Hk by lia. done.
Qed.

Lemma read_u64_field_of s n rest :
  in_u64 n → arrives s `prefix_of` to_be_bytes 8 n ++ rest →
  match read_u64_field (E := E) s with
  | (Ok n', s') => n' = n ∧ arrives s = to_be_bytes 8 n ++ arrives s' ∧ arrives s' `prefix_of` rest
  | (Err _, _) => (length (arrives s) < 8)%nat
  end.
Proof.
  intros Hn Hs. unfold read_u64_field, mbind, wire_bind, read_exact_or_truncated.
  pose proof (read_field 8 (fun filled => wire_truncated (1 + filled) 9 : E) s _ rest (to_be_bytes_length 8 n) Hs) as Hr.
  destruct (read_loop 8 [] _ s) as [[bs|e] s']; [|done]. destruct Hr as (-> & Hr).
  cbn. split; [by apply from_to_be_bytes|done].
Qed.

Lemma read_event_of s mc seq payload rest :
  in_u64 seq → Z.of_nat (length payload) < 2 ^ 32 → Z.of_nat (length payload) ≤ mc →
  arrives s `prefix_of` to_be_bytes 8 seq ++ to_be_bytes 4 (Z.of_nat (length payload)) ++ payload ++ rest →
  match read_body mc KIND_EVENT s with
  | (Ok f', s') => f' = EventFrame seq payload ∧
      arrives s = to_be_bytes 8 seq ++ to_be_bytes 4 (Z.of_nat (length payload)) ++ payload ++ arrives s' ∧
      arrives s' `prefix_of` rest
  | (Err _, _) => (length (arrives s) < 12 + length payload)%nat
  end.
Proof.
  intros Hseq H32 Hmc Hs. unfold read_body, read_exact_or_truncated, mbind, wire_bind. rewrite decide_True by done.
  pose proof (read_field 8 (fun filled => wire_truncated (1 + filled) 13 : E) s _ _ (to_be_bytes_length 8 seq) Hs) as Hr.
  destruct (read_loop 8 [] _ s) as [[bs|e] s1]; [|lia]. destruct Hr as (-> & -> & Hs1).
  pose proof (read_field 4 (fun filled => wire_truncated (9 + filled) 13 : E) s1 _ _ (to_be_bytes_length 4 _) Hs1) as Hr.
  destruct (read_loop 4 [] _ s1) as [[bs|e] s2]; [|rewrite length_app, to_be_bytes_length; lia].
  destruct Hr as (-> & -> & Hs2).
  rewrite !from_to_be_bytes by (done || (unfold in_width; lia)). rewrite decide_False by lia. rewrite Nat2Z.id.
  pose proof (read_field (length payload)
    (fun filled => wire_truncated (13 + filled) (13 + Z.of_nat (length payload)) : E) s2 _ _ eq_refl Hs2) as Hr.
  destruct (read_loop (length payload) [] _ s2) as [[bs|e] s3].
  - destruct Hr as (-> & -> & Hs3). cbn. done.
  - rewrite !length_app, !to_be_bytes_length. lia.
Qed.

Definition frame_kind (f : OutboundFrame) : u8 :=
  match f with
  | EventFrame _ _ => KIND_EVENT
  | LagExceededFrame _ => KIND_LAG_EXCEEDED
  | TruncatedFrame _ => KIND_TRUNCATED
  | ServerShutdownFrame _ => KIND_SERVER_SHUTDOWN
  | InvalidRequestFrame => KIND_INVALID_REQUEST
  end.

Definition frame_body (f : OutboundFrame) : list u8 :=
  match f with
  | EventFrame seq payload => to_be_bytes 8 seq ++ to_be_bytes 4 (Z.of_nat (length payload)) ++ payload
  | LagExceededFrame seq | TruncatedFrame seq | ServerShutdownFrame seq => to_be_bytes 8 seq
  | InvalidRequestFrame => to_be_bytes 8 0
  end.

Lemma encode_outbound_body f ms bytes :
  encode_outbound f ms = Ok bytes →
  bytes = frame_kind f :: frame_body f ∧
  match f with EventFrame _ payload => Z.of_nat (length payload) < 2 ^ 32 | _ => True end.
Proof.
  destruct f; cbn [encode_outbound]; [repeat case_decide; try done|..]; intros [= <-]; split; (done || lia).
Qed.

(** A frame is read back, unless the stream is cut inside it. *)
Lemma read_server_frame_of f ms mc bytes s rest :
  encode_outbound f ms = Ok bytes → frame_typed f → frame_fits mc f → arrives s `prefix_of` bytes ++ rest →
  match read_server_frame (E := E) mc s with
  | (Ok f', s') => f' = f ∧ arrives s = bytes ++ arrives s' ∧ arrives s' `prefix_of` rest
  | (Err _, _) => (length (arrives s) < length bytes)%nat
  end.
Proof.
  intros He Ht Hf Hs. unfold read_server_frame, mbind, wire_bind.
  apply encode_outbound_body in He as [-> H32]. change (?k :: ?b) with ([k] ++ b) in *. rewrite <- app_assoc in Hs.
  pose proof (read_field 1 (fun _ => wire_eof : E) s [frame_kind f] _ eq_refl Hs) as Hr.
  destruct (read_loop 1 [] _ s) as [[bs|e] s1]; [|rewrite length_app; cbn [length]; lia].
  destruct Hr as (-> & -> & Hs1). cbn [app]. fold ([frame_kind f] ++ arrives s1). clear Hs.
  destruct f as [seq payload|seq|seq|seq|]; cbn [frame_kind frame_body] in *.
  { rewrite <- !app_assoc in Hs1. pose proof (read_event_of s1 mc seq payload rest Ht H32 Hf Hs1) as Hr.
    destruct (read_body mc KIND_EVENT s1) as [[f'|e] s2].
    - destruct Hr as (-> & -> & ?). by rewrite <- !app_assoc.
    - cbn [length app]. rewrite !length_app, !to_be_bytes_length. lia. }
  all: unfold read_body; repeat (rewrite decide_False by done); rewrite decide_True by done;
    unfold mbind, wire_bind;
    lazymatch type of Hs1 with _ `prefix_of` to_be_bytes 8 ?n ++ _ => pose proof (read_u64_field_of s1 n rest) as Hr end;
    destruct (read_u64_field s1) as [[n'|e] s2];
    [destruct Hr as (-> & -> & ?); [first [done|unfold in_width; lia]|done|done]|].
  all: cbn [length app]; rewrite to_be_bytes_length; enough (length (arrives s1) < 8)%nat by lia; apply Hr; [first [done|unfold in_width; lia]|done].
Qed.
End RoundTrip.

Definition encode_all (ms : Z) (fs : list OutboundFrame) : result (list u8) WriteFrameError :=
  foldr (fun f r => let? a := encode_outbound f ms in let? b := r in Ok (a ++ b)) (Ok []) fs.

Lemma read_frames_S k self :
  read_frames (S k) self =
  match client_read_frame self with
  | (Ok f, self) => let '(fs, e) := read_frames k self in (f :: fs, e)
  | (Err e, _) => ([], Some e)
  end.
Proof. done. Qed.

Lemma encode_all_cons ms f fs bytes :
  encode_all ms (f :: fs) = Ok bytes →
  ∃ a b, encode_outbound f ms = Ok a ∧ encode_all ms fs = Ok b ∧ bytes = a ++ b.
Proof.
  cbn. fold (encode_all ms fs). destruct (encode_outbound f ms) as [a|]; [|done].
  destruct (encode_all ms fs) as [b|]; [|done]. intros [= <-]. by exists a, b.
Qed.

(** *** The end of the stream *)

Lemma read_loop_err need (eof : Z → ClientError) s e s' : ∀ filled,
  read_loop need filled eof s = (Err e, s') → (∃ n, e = eof n) ∨ ∃ code, e = ClientIo code.
Proof.
  revert need. induction s as [|d s IH]; intros need filled; cbn [read_loop]; case_decide; try done.
  - intros [= <- _]. eauto.
  - destruct d as [[|b c]|code]; [intros [= <- _]; eauto| |intros [= <- _]; eauto].
    case_decide; [apply IH|done].
Qed.

Lemma read_exact_err len n m s e s' :
  read_exact_or_truncated (E := ClientError) len n m s = (Err e, s') → e ≠ ClientEof.
Proof. intros [[k ->]|[code ->]]%read_loop_err; done. Qed.

Lemma read_body_err m kind s e s' : read_body (E := ClientError) m kind s = (Err e, s') → e ≠ ClientEof.
Proof.
  unfold read_body, read_u64_field, mbind, wire_bind, mret, wire_ret, wire_fail. intros H Heof. subst e.
  repeat case_decide; repeat match type of H with
  | context [read_exact_or_truncated ?n ?a ?b ?s] =>
      let E := fresh "E" in destruct (read_exact_or_truncated n a b s) as [[?|?] ?] eqn:E;
      [|injection H as -> _; by apply read_exact_err in E]
  | context [decide ?P] => destruct (decide P)
  end; done.
Qed.

(** The clean end is reported before the first byte of a frame only. *)
Lemma read_server_frame_eof m s s' :
  read_server_frame (E := ClientError) m s = (Err ClientEof, s') → arrives s = [].
Proof.
  unfold read_server_frame, mbind, wire_bind. pose proof (read_loop_spec 1 [] (fun _ => wire_eof : ClientError) s) as Hr.
  destruct (read_loop 1 [] _ s) as [[bs|e] s1]; [|intros _; by apply nil_length_inv; lia].
  destruct Hr as (Hlen & -> & _). destruct (arrives s); [done|]. cbn. by intros []%read_body_err.
Qed.


Definition demo_frames : list OutboundFrame := [EventFrame 7 [byte_of 1; byte_of 2]; ServerShutdownFrame 7].

