(* ===== verification/EventCache.v ===== *)
(** * The event cache

    Models [src/runtime/knomosis-event-subscribe/src/event_cache.rs]: the bounded
    window of recent events from which a subscriber that resumes is served.

    A [VecDeque] is a list with its front first. *)

From Stdlib Require Import ZArith Lia Sorted.
From stdpp Require Import base numbers list sorting.
From S2P Require Import Prelude.

Local Open Scope Z_scope.

Definition DEFAULT_KEEP_HISTORY : Z := 256.
Definition HARD_MAX_KEEP_HISTORY : Z := 1000000.
Definition FROM_OLDEST : Z := u64_max.

Record CachedEvent : Type := { ce_seq : Z; ce_payload : list u8 }.

#[global] Instance CachedEvent_eq_dec : EqDecision CachedEvent.
Proof. solve_decision. Defined.

Inductive RangeOutcome : Type :=
| InWindow (events : list CachedEvent)
| OutOfWindow (oldest_available_seq : Z)
| AtLiveTail.

Record EventCache : Type := {
  buffer : list CachedEvent;
  cache_capacity : nat;
  last_pushed_seq : Z;
  last_evicted_seq : option Z;
}.

Inductive PushError : Type := OutOfOrder (tried previous : Z).
Inductive NewCacheError : Type := ZeroCapacity.

Definition EventCache_new (capacity : Z) : result EventCache NewCacheError :=
  if decide (capacity = 0) then Err ZeroCapacity
  else Ok {| buffer := []; cache_capacity := Z.to_nat (Z.min capacity HARD_MAX_KEEP_HISTORY);
             last_pushed_seq := 0; last_evicted_seq := None |}.

Definition oldest_seq (self : EventCache) : option Z := ce_seq <$> head (buffer self).
Definition newest_seq (self : EventCache) : option Z := ce_seq <$> last (buffer self).

Definition push (self : EventCache) (event : CachedEvent) : result EventCache PushError :=
  if decide (ce_seq event = 0 ∨ ce_seq event < last_pushed_seq self)
  then Err (OutOfOrder (ce_seq event) (last_pushed_seq self)) else
  let '(buffer', evicted) :=
    if decide (length (buffer self) = cache_capacity self) then
      match buffer self with
      | [] => ([], last_evicted_seq self)
      | e :: rest => (rest, Some (ce_seq e))
      end
    else (buffer self, last_evicted_seq self) in
  Ok {| buffer := buffer' ++ [event]; cache_capacity := cache_capacity self;
        last_pushed_seq := ce_seq event; last_evicted_seq := evicted |}.

Definition has_partial_front (self : EventCache) : bool :=
  match last_evicted_seq self, head (buffer self) with
  | Some evicted, Some front => bool_decide (evicted = ce_seq front)
  | _, _ => false
  end.

(** The events with a number greater than [from]. *)
Definition after (from : Z) (es : list CachedEvent) : list CachedEvent :=
  filter (fun e => from < ce_seq e) es.

Definition range (self : EventCache) (from_seq : Z) : RangeOutcome :=
  match head (buffer self), last (buffer self) with
  | Some front, Some back =>
      let oldest := ce_seq front in
      let newest := ce_seq back in
      if decide (from_seq = FROM_OLDEST) then
        InWindow (after (if has_partial_front self then oldest else saturating_sub oldest 1) (buffer self))
      else if decide (from_seq = 0) then AtLiveTail
      else if decide (newest ≤ from_seq) then AtLiveTail
      else if decide (saturating_add 64 from_seq 1 < oldest) then OutOfWindow oldest
      else if decide (has_partial_front self = true ∧ from_seq < oldest)
      then OutOfWindow (saturating_add 64 oldest 1)
      else InWindow (after from_seq (buffer self))
  | _, _ => AtLiveTail
  end.

Definition cache_get (self : EventCache) (seq : Z) : option CachedEvent :=
  head (filter (fun e => ce_seq e = seq) (buffer self)).

(** Pushes in order, up to the first that is refused. *)
Fixpoint push_all (self : EventCache) (events : list CachedEvent) : result EventCache PushError :=
  match events with
  | [] => Ok self
  | e :: events => let? self := push self e in push_all self events
  end.

(** ** The window *)

(** What the cache holds of the events pushed so far: those that fit, and the
    number of the last one that did not. *)
Record holds (self : EventCache) (pushed : list CachedEvent) : Prop := {
  holds_buffer : buffer self = drop (length pushed - cache_capacity self) pushed;
  holds_evicted : last_evicted_seq self =
    ce_seq <$> last (take (length pushed - cache_capacity self) pushed);
  holds_last : last_pushed_seq self = default 0 (ce_seq <$> last pushed);
  holds_sorted : StronglySorted (fun a b => ce_seq a ≤ ce_seq b) pushed;
  holds_typed : Forall (fun e => 0 < ce_seq e < FROM_OLDEST) pushed;
  holds_capacity : (0 < cache_capacity self)%nat;
}.

Lemma after_app from es es' : after from (es ++ es') = after from es ++ after from es'.
Proof. apply filter_app. Qed.

Lemma after_nil from es : Forall (fun e => ce_seq e ≤ from) es → after from es = [].
Proof.
  induction 1 as [|e es He _ IH]; [done|]. unfold after. rewrite filter_cons_False by lia. done.
Qed.

Lemma after_all from es : Forall (fun e => from < ce_seq e) es → after from es = es.
Proof.
  induction 1 as [|e es He _ IH]; [done|]. unfold after. rewrite filter_cons_True by lia. by f_equal.
Qed.

Definition seq_le (a b : CachedEvent) : Prop := ce_seq a ≤ ce_seq b.

Lemma sorted_last (es : list CachedEvent) e :
  StronglySorted seq_le (es ++ [e]) → Forall (fun a => ce_seq a ≤ ce_seq e) es.
Proof.
  intros Hs. apply Forall_forall. intros a Ha.
  apply (StronglySorted_app_1_elem_of seq_le _ _ _ _ Hs Ha). constructor.
Qed.

Lemma sorted_snoc (es : list CachedEvent) e :
  StronglySorted seq_le es → Forall (fun a => ce_seq a ≤ ce_seq e) es → StronglySorted seq_le (es ++ [e]).
Proof.
  intros Hs Hall. rewrite Forall_forall in Hall. apply StronglySorted_app_2; [|done|by repeat constructor].
  intros a b Ha ->%list_elem_of_singleton. by apply Hall.
Qed.

Lemma sorted_head_last (es : list CachedEvent) e :
  StronglySorted seq_le es → last es = Some e → Forall (fun a => ce_seq a ≤ ce_seq e) es.
Proof.
  intros Hs Hl. apply last_Some in Hl as [es' ->]. apply Forall_app. split; [by apply sorted_last|].
  repeat constructor. lia.
Qed.

Lemma holds_new capacity c :
  0 ≤ capacity → EventCache_new capacity = Ok c → holds c [].
Proof.
  unfold EventCache_new. case_decide; [done|]. intros ? [= <-].
  constructor; try (cbn; rewrite ?drop_nil, ?take_nil; by constructor).
  cbn [cache_capacity]. unfold HARD_MAX_KEEP_HISTORY. lia.
Qed.

Lemma push_holds self pushed e self' :
  holds self pushed → ce_seq e < FROM_OLDEST → 0 ≤ ce_seq e → push self e = Ok self' →
  holds self' (pushed ++ [e]) ∧ cache_capacity self' = cache_capacity self.
Proof.
  intros [Hb Hev Hl Hs Ht Hc] Hmax H0. unfold push. case_decide as Hd; [done|].
  assert (Hall : Forall (fun a => ce_seq a ≤ ce_seq e) pushed).
  { destruct (last pushed) as [b|] eqn:El; [|apply last_None in El as ->; constructor].
    rewrite Hl in Hd. cbn in Hd. eapply Forall_impl; [by apply sorted_head_last|]. cbn. intros. lia. }
  assert (Hs' : StronglySorted (fun a b => ce_seq a ≤ ce_seq b) (pushed ++ [e])) by (by apply sorted_snoc).
  assert (Ht' : Forall (fun e => 0 < ce_seq e < FROM_OLDEST) (pushed ++ [e])).
  { apply Forall_app. split; [done|]. repeat constructor; lia. }
  pose proof (f_equal length Hb) as Hlen. rewrite length_drop in Hlen.
  case_decide as Hfull.
  - assert (length pushed - cache_capacity self < length pushed)%nat as Hlt by lia.
    destruct (lookup_lt_is_Some_2 _ _ Hlt) as [x Hx]. rewrite Hb, (drop_S _ x) by done.
    intros [= <-]. split; [|done].
    constructor; cbn; try done; rewrite ?length_app; cbn [length].
    + rewrite drop_app_le by lia. f_equal. f_equal. lia.
    + replace (length pushed + 1 - cache_capacity self)%nat with (S (length pushed - cache_capacity self)) by lia.
      rewrite take_app_le, (take_S_r _ _ x), last_snoc by (done || lia). done.
    + by rewrite last_snoc.
  - intros [= <-]. split; [|done].
    assert (length pushed < cache_capacity self)%nat by lia.
    replace (length pushed - cache_capacity self)%nat with 0%nat in * by lia.
    constructor; cbn; try done; rewrite ?length_app; cbn [length];
      replace (length pushed + 1 - cache_capacity self)%nat with 0%nat by lia.
    + by rewrite Hb.
    + done.
    + by rewrite last_snoc.
Qed.

Lemma head_in {A} (x : A) l : head l = Some x → x ∈ l.
Proof. intros [l' ->]%head_Some. constructor. Qed.

Lemma last_drop_lt {A} (l : list A) n : (n < length l)%nat → last (drop n l) = last l.
Proof.
  intros Hn. rewrite <- (take_drop n l) at 2. rewrite last_app.
  destruct (last (drop n l)) eqn:E; [done|]. apply last_None, (f_equal length) in E. rewrite length_drop in E. cbn in E. lia.
Qed.

(** The events of the window are the pushed ones after its front, up to the
    number the cache has lost. *)
Lemma after_window self pushed from front :
  holds self pushed → head (buffer self) = Some front → ce_seq front ≤ from + 1 →
  (has_partial_front self = true → ce_seq front ≤ from) →
  after from pushed = after from (buffer self).
Proof.
  intros [Hb Hev Hl Hs Ht Hc] Hf Hle Hp.
  rewrite <- (take_drop (length pushed - cache_capacity self) pushed) at 1. rewrite after_app, <- Hb.
  rewrite after_nil; [done|]. apply Forall_forall. intros a Ha.
  assert (ce_seq a ≤ ce_seq front) as Haf.
  { rewrite <- (take_drop (length pushed - cache_capacity self) pushed), <- Hb in Hs.
    apply (StronglySorted_app_1_elem_of _ _ _ _ _ Hs Ha). by apply head_in. }
  destruct (last (take (length pushed - cache_capacity self) pushed)) as [e|] eqn:El;
    [|by apply last_None in El; rewrite El in Ha; apply elem_of_nil in Ha].
  assert (ce_seq a ≤ ce_seq e) as Hae.
  { rewrite <- (take_drop (length pushed - cache_capacity self) pushed) in Hs. apply StronglySorted_app_1_l in Hs.
    pose proof (sorted_head_last _ _ Hs El) as Hall. rewrite Forall_forall in Hall. by apply Hall. }
  unfold has_partial_front in Hp. rewrite Hev, Hf in Hp. cbn in Hp.
  destruct (decide (ce_seq e = ce_seq front)) as [E|N].
  - specialize (Hp (bool_decide_eq_true_2 _ E)). lia.
  - assert (ce_seq e ≤ ce_seq front); [|lia].
    rewrite <- (take_drop (length pushed - cache_capacity self) pushed), <- Hb in Hs.
    apply (StronglySorted_app_1_elem_of _ _ _ e front Hs); [by apply last_Some_elem_of|by apply head_in].
Qed.

(** What a resume gets: all that was pushed after it, nothing when nothing was,
    and otherwise a refusal. *)
Lemma range_holds self pushed from :
  holds self pushed → 0 < from < FROM_OLDEST →
  match range self from with
  | InWindow es => es = after from pushed ∧ es ≠ []
  | AtLiveTail => after from pushed = []
  | OutOfWindow _ => True
  end.
Proof.
  intros Hh Hfrom. unfold range. pose proof Hh as [Hb Hev Hl Hs Ht Hc].
  destruct (decide (pushed = [])) as [->|Hne].
  { cbn in Hb. rewrite drop_nil in Hb. by rewrite Hb. }
  assert (length pushed ≠ 0)%nat by (by destruct pushed).
  assert (Hlast : last (buffer self) = last pushed) by (rewrite Hb; apply last_drop_lt; lia).
  rewrite Hlast. destruct (last pushed) as [back|] eqn:El; [|by apply last_None in El].
  destruct (head (buffer self)) as [front|] eqn:Ef; [|by apply head_None in Ef; rewrite Ef in Hlast].
  pose proof (sorted_head_last _ _ Hs El) as Hback.
  rewrite (decide_False (P := from = FROM_OLDEST)), (decide_False (P := from = 0)) by lia.
  case_decide as Hn.
  { apply after_nil. eapply Forall_impl; [exact Hback|]. cbn. lia. }
  unfold saturating_add. unfold FROM_OLDEST in Hfrom. rewrite Z.min_l by lia.
  case_decide as Ho; [done|]. case_decide as Hp; [done|].
  rewrite (after_window self pushed from front) by (done || lia || (intros; destruct (decide (ce_seq front ≤ from)); [done|]; exfalso; apply Hp; split; [done|lia])).
  split; [done|]. intros Hnil. apply last_Some_elem_of in Hlast.
  assert (back ∈ after from (buffer self)) as Hin by (apply list_elem_of_filter; split; [lia|done]).
  rewrite Hnil in Hin. by apply elem_of_nil in Hin.
Qed.

Lemma push_all_holds evs pushed c c' :
  holds c pushed → push_all c evs = Ok c' → Forall (fun e => 0 ≤ ce_seq e < FROM_OLDEST) evs →
  holds c' (pushed ++ evs).
Proof.
  revert pushed c. induction evs as [|e evs IH]; intros pushed c Hh; cbn.
  { intros [= <-] _. by rewrite app_nil_r. }
  destruct (push c e) as [c1|] eqn:E; [|done]. cbn. intros Hp Hall. inversion_clear Hall.
  rewrite cons_middle, app_assoc. apply (IH _ c1); [|done..]. apply (push_holds c); (done || lia).
Qed.

(** A refused resume, when the front is whole: the number it is told is that of
    the front, and the resume before it gets the window. *)
Lemma range_retry c pushed from o :
  holds c pushed → range c from = OutOfWindow o → 0 < from < FROM_OLDEST → has_partial_front c = false →
  range c (o - 1) = InWindow (buffer c).
Proof.
  intros Hh Hr Hfrom Hnp. pose proof Hh as [Hb Hev Hl Hs Ht Hc]. revert Hr. unfold range.
  destruct (head (buffer c)) as [front|] eqn:Ef; [|by destruct (last (buffer c))].
  destruct (last (buffer c)) as [back|] eqn:El; [|done].
  assert (Hbs : StronglySorted seq_le (buffer c)).
  { rewrite Hb. rewrite <- (take_drop (length pushed - cache_capacity c) pushed) in Hs. by eapply StronglySorted_app_1_r. }
  assert (Hin : Forall (fun e => 0 < ce_seq e < FROM_OLDEST) (buffer c)) by (rewrite Hb; by apply Forall_drop).
  assert (Hfront : Forall (fun e => ce_seq front ≤ ce_seq e) (buffer c)).
  { apply head_Some in Ef as [l Ef]. rewrite Ef in Hbs |- *. apply StronglySorted_cons in Hbs as [Hf _].
    constructor; [lia|done]. }
  rewrite Forall_forall in Hin. pose proof (Hin front (head_in _ _ Ef)) as Hfs.
  pose proof (sorted_head_last _ _ Hbs El) as Hbk. rewrite Forall_forall in Hbk. pose proof (Hbk front (head_in _ _ Ef)).
  unfold FROM_OLDEST, saturating_add in *.
  rewrite (decide_False (P := from = _)), (decide_False (P := from = 0)) by lia.
  case_decide; [done|]. rewrite Z.min_l by lia. case_decide.
  - intros [= <-]. rewrite !decide_False by (lia || (rewrite Hnp; naive_solver)).
    f_equal. apply after_all. eapply Forall_impl; [exact Hfront|]. cbn. lia.
  - rewrite decide_False by (rewrite Hnp; naive_solver). done.
Qed.

(** The window serves complete batches.  When the pushes are accepted and the
    cache answers a resume with events, they are all the events pushed after it;
    when it answers with the live tail, there are none; a request for the oldest
    gets every event after some number; and when the front of the window is whole
    and a resume is refused, one less than the number it is told gets the whole
    window. *)
Theorem cache_window capacity c0 pushed c from :
  0 ≤ capacity → EventCache_new capacity = Ok c0 → push_all c0 pushed = Ok c →
  Forall (fun e => 0 ≤ ce_seq e < FROM_OLDEST) pushed → 0 < from < FROM_OLDEST →
  match range c from with
  | InWindow es => es = after from pushed ∧ es ≠ []
  | AtLiveTail => after from pushed = []
  | OutOfWindow o => has_partial_front c = false → range c (o - 1) = InWindow (buffer c)
  end ∧
  (∀ es, range c FROM_OLDEST = InWindow es → ∃ n, es = after n pushed).
Proof.
  intros Hcap Hnew Hpush Hseq Hfrom.
  assert (Hh : holds c pushed).
  { apply (push_all_holds pushed [] c0 c); [by eapply holds_new|done|done]. }
  pose proof (range_holds c pushed from Hh Hfrom) as Hr. split.
  - destruct (range c from) as [es|o|] eqn:E; [done| |done]. intros Hnp. by apply (range_retry c pushed from o).
  - intros es. unfold range. destruct (head (buffer c)) as [front|] eqn:Ef; [|by destruct (last (buffer c))].
    destruct (last (buffer c)); [|done]. rewrite decide_True by done. intros [= <-].
    eexists. symmetry. apply (after_window c pushed _ front); [done..| |];
      destruct (has_partial_front c) eqn:Ep; unfold saturating_sub; (done || lia).
Qed.

Definition demo_events : list CachedEvent :=
  [{| ce_seq := 1; ce_payload := [] |}; {| ce_seq := 3; ce_payload := [] |}; {| ce_seq := 3; ce_payload := [byte_of 1] |}].

Definition demo_cache : EventCache :=
  {| buffer := demo_events; cache_capacity := 3; last_pushed_seq := 3; last_evicted_seq := None |}.

Lemma cache_window_witness :
  range demo_cache 2 = InWindow (drop 1 demo_events) ∧
  (∀ es, range demo_cache FROM_OLDEST = InWindow es → ∃ n, es = after n demo_events).
Proof.
  split; [by vm_compute|].
  apply (cache_window 3 {| buffer := []; cache_capacity := 3; last_pushed_seq := 0; last_evicted_seq := None |}
           demo_events demo_cache 2); [lia|reflexivity|reflexivity| |unfold FROM_OLDEST; lia].
  unfold FROM_OLDEST. repeat (constructor; [cbn; lia|]). constructor.
Defined.
