(* ===== verification/EventServer.v ===== *)
(** * The event server

    Models [src/runtime/knomosis-event-subscribe/src/subscription.rs] and the
    threads of [server.rs]: the extractor thread ([extractor_loop]) and one
    dispatch thread per connection ([handle_connection], [dispatch_live]).

    A subscriber is shared by the extractor and its dispatch thread, so the
    subscribers are a store that both refer to by number.  A run is a sequence of
    [choice]s: which thread moves next, with the outcome of its call to the
    outside.  A step is one access to the shared state, or one write to a socket;
    the cache's lock is held by the extractor from its first push to its last
    enqueue, and the snapshot a subscriber resumes from waits for it. *)

From Stdlib Require Import ZArith Lia.
From stdpp Require Import base numbers list gmap.
From S2P Require Import Prelude EventWire EventCache.

Local Open Scope Z_scope.

Definition HARD_MAX_SEND_QUEUE_DEPTH : Z := 65536.
Definition HARD_MAX_SUBSCRIBER_LAG : Z := 1000000.

(** ** Subscribers *)

Inductive DeliveryEvent : Type :=
| Live (batch : list CachedEvent)
| Shutdown.

Record Subscriber : Type := {
  queue : list DeliveryEvent;
  queue_depth : nat;
  lag : Z;
  max_lag : Z;
  last_delivered_seq : Z;
  disconnected : bool;
  shutdown_requested : bool;
  receiver_dropped : bool;
}.

Inductive EnqueueOutcome : Type :=
| Enqueued
| Lagging (lag : Z)
| LagExceeded
| Disconnected.

Definition Subscriber_new (queue_depth max_lag : Z) : Subscriber :=
  {| queue := []; queue_depth := Z.to_nat (Z.min (Z.max queue_depth 1) HARD_MAX_SEND_QUEUE_DEPTH);
     lag := 0; max_lag := Z.min max_lag HARD_MAX_SUBSCRIBER_LAG; last_delivered_seq := 0;
     disconnected := false; shutdown_requested := false; receiver_dropped := false |}.

Definition with_queue (q : list DeliveryEvent) (lag : Z) (self : Subscriber) : Subscriber :=
  {| queue := q; queue_depth := queue_depth self; lag := lag; max_lag := max_lag self;
     last_delivered_seq := last_delivered_seq self; disconnected := disconnected self;
     shutdown_requested := shutdown_requested self; receiver_dropped := receiver_dropped self |}.

Definition with_flags (gone shutdown dropped : bool) (self : Subscriber) : Subscriber :=
  {| queue := queue self; queue_depth := queue_depth self; lag := lag self; max_lag := max_lag self;
     last_delivered_seq := last_delivered_seq self; disconnected := gone;
     shutdown_requested := shutdown; receiver_dropped := dropped |}.

Definition mark_disconnected (self : Subscriber) : Subscriber :=
  with_flags true (shutdown_requested self) (receiver_dropped self) self.

Definition record_delivered (seq : Z) (self : Subscriber) : Subscriber :=
  {| queue := queue self; queue_depth := queue_depth self; lag := lag self; max_lag := max_lag self;
     last_delivered_seq := seq; disconnected := disconnected self;
     shutdown_requested := shutdown_requested self; receiver_dropped := receiver_dropped self |}.

Definition is_full (self : Subscriber) : bool := bool_decide (queue_depth self ≤ length (queue self))%nat.

Definition try_enqueue (batch : list CachedEvent) (self : Subscriber) : EnqueueOutcome * Subscriber :=
  if disconnected self then (Disconnected, self)
  else if receiver_dropped self then (Disconnected, mark_disconnected self)
  else if is_full self then
    let new_lag := lag self + 1 in
    let self := with_queue (queue self) new_lag self in
    if decide (max_lag self < new_lag) then (LagExceeded, mark_disconnected self)
    else (Lagging new_lag, self)
  else (Enqueued, with_queue (queue self ++ [Live batch]) 0 self).

Definition request_shutdown (self : Subscriber) : EnqueueOutcome * Subscriber :=
  if disconnected self then (Disconnected, self) else
  let self := with_flags (disconnected self) true (receiver_dropped self) self in
  if receiver_dropped self then (Disconnected, mark_disconnected self)
  else if is_full self then (Lagging (lag self), self)
  else (Enqueued, with_queue (queue self ++ [Shutdown]) (lag self) self).

(** ** The server *)

Record DispatchConfig : Type := {
  send_queue_depth : Z;
  max_subscriber_lag : Z;
  max_subscribers : Z;
  dispatch_max_frame_size : Z;
}.

(** The extractor thread: polling the log, holding the cache's lock with a batch
    pushed, enqueueing it to the subscribers of its snapshot, telling the
    subscribers to shut down, and halted. *)
Inductive extractor_pc : Type :=
| Polling
| Holding (batch : list CachedEvent)
| Sending (todo : list Z) (batch : list CachedEvent)
| Halting (todo : option (list Z))
| Halted.

(** A dispatch thread. *)
Inductive phase : Type :=
| Handshaken
| Registered
| Backfilling (todo : list CachedEvent)
| Entering
| Draining
| AtTop
| Receiving
| Writing (batch_seq : Z) (todo : list CachedEvent)
| Closed.

Record Conn : Type := {
  resume_from : Z;
  conn_sub : Z;
  conn_phase : phase;
  pending : list DeliveryEvent;
  sent : list OutboundFrame;
}.

(** [published] is the history of the batches, the one of the frame with number
    [n] at [n - 1]; [joined], of each subscriber, how many of them were snapshotted
    before it registered; [dropped], the subscribers that lost a batch. *)
Record Server : Type := {
  cache : EventCache;
  subs : gmap Z Subscriber;
  registry : list Z;
  next_id : Z;
  extractor : extractor_pc;
  stop : bool;
  conns : gmap Z Conn;
  published : list (list CachedEvent);
  joined : gmap Z nat;
  dropped : list Z;
}.

Definition Server_new (c : EventCache) : Server :=
  {| cache := c; subs := ∅; registry := []; next_id := 0; extractor := Polling; stop := false;
     conns := ∅; published := []; joined := ∅; dropped := [] |}.

Definition set_extractor (pc : extractor_pc) (st : Server) : Server :=
  {| cache := cache st; subs := subs st; registry := registry st; next_id := next_id st;
     extractor := pc; stop := stop st; conns := conns st; published := published st;
     joined := joined st; dropped := dropped st |}.

Definition set_subs (s : gmap Z Subscriber) (st : Server) : Server :=
  {| cache := cache st; subs := s; registry := registry st; next_id := next_id st;
     extractor := extractor st; stop := stop st; conns := conns st; published := published st;
     joined := joined st; dropped := dropped st |}.

Definition set_conn (c : Z) (k : Conn) (st : Server) : Server :=
  {| cache := cache st; subs := subs st; registry := registry st; next_id := next_id st;
     extractor := extractor st; stop := stop st; conns := <[c := k]> (conns st);
     published := published st; joined := joined st; dropped := dropped st |}.

(** The lock of the cache. *)
Definition locked (st : Server) : bool :=
  match extractor st with Holding _ | Sending _ _ => true | _ => false end.

(** *** The extractor *)

(** The pushes of a batch; those before one that is refused stay. *)
Fixpoint push_batch (c : EventCache) (events : list CachedEvent) : EventCache * bool :=
  match events with
  | [] => (c, true)
  | e :: events =>
      match push c e with
      | Ok c => push_batch c events
      | Err _ => (c, false)
      end
  end.

(** The frame of the log after the last one, from which [payloads] are
    extracted. *)
Definition extract (payloads : list (list u8)) (st : Server) : Server :=
  let seq := Z.of_nat (length (published st)) + 1 in
  let events := (fun p => {| ce_seq := seq; ce_payload := p |}) <$> payloads in
  let '(c, accepted) := push_batch (cache st) events in
  {| cache := c; subs := subs st; registry := registry st; next_id := next_id st;
     extractor := if accepted : bool
                  then match events with [] => Polling | _ => Holding events end else Halting None;
     stop := stop st; conns := conns st;
     published := if accepted : bool then published st ++ [events] else published st;
     joined := joined st; dropped := dropped st |}.

(** One subscriber of the snapshot. *)
Definition enqueue_next (id : Z) (todo : list Z) (batch : list CachedEvent) (st : Server) : Server :=
  match subs st !! id with
  | None => set_extractor (Sending todo batch) st
  | Some sub =>
      let '(outcome, sub) := try_enqueue batch sub in
      let st := set_extractor (Sending todo batch) (set_subs (<[id := sub]> (subs st)) st) in
      match outcome with
      | Lagging _ | LagExceeded =>
          {| cache := cache st; subs := subs st; registry := registry st; next_id := next_id st;
             extractor := extractor st; stop := stop st; conns := conns st;
             published := published st; joined := joined st; dropped := id :: dropped st |}
      | _ => st
      end
  end.

Definition shutdown_next (id : Z) (st : Server) : Server :=
  set_subs (alter (fun sub => (request_shutdown sub).2) id (subs st)) st.

Definition extractor_step (payloads : option (list (list u8))) (st : Server) : option Server :=
  match extractor st with
  | Polling =>
      if stop st then Some (set_extractor Halted st) else
      match payloads with
      | Some payloads => Some (extract payloads st)
      | None => Some (set_extractor (Halting None) st)
      end
  | Holding batch => Some (set_extractor (Sending (registry st) batch) st)
  | Sending (id :: todo) batch => Some (enqueue_next id todo batch st)
  | Sending [] _ => Some (set_extractor Polling st)
  | Halting None => Some (set_extractor (Halting (Some (registry st))) st)
  | Halting (Some (id :: todo)) => Some (set_extractor (Halting (Some todo)) (shutdown_next id st))
  | Halting (Some []) =>
      Some {| cache := cache st; subs := subs st; registry := registry st; next_id := next_id st;
              extractor := Halted; stop := true; conns := conns st; published := published st;
              joined := joined st; dropped := dropped st |}
  | Halted => None
  end.

(** *** The dispatch threads *)

Section Dispatch.
Context (cfg : DispatchConfig).

Definition event_frame (e : CachedEvent) : OutboundFrame := EventFrame (ce_seq e) (ce_payload e).

(** A write of a frame, of which the socket accepts the bytes or not. *)
Definition written (io : bool) (frame : OutboundFrame) : bool :=
  io && is_ok (encode_outbound frame (dispatch_max_frame_size cfg)).

Definition with_phase (ph : phase) (k : Conn) : Conn :=
  {| resume_from := resume_from k; conn_sub := conn_sub k; conn_phase := ph; pending := pending k;
     sent := sent k |}.

Definition send (frames : list OutboundFrame) (k : Conn) : Conn :=
  {| resume_from := resume_from k; conn_sub := conn_sub k; conn_phase := conn_phase k;
     pending := pending k; sent := sent k ++ frames |}.

Definition with_pending (p : list DeliveryEvent) (k : Conn) : Conn :=
  {| resume_from := resume_from k; conn_sub := conn_sub k; conn_phase := conn_phase k; pending := p;
     sent := sent k |}.

(** The end of a thread, which drops its receiver, with the unregistering that
    precedes it. *)
Definition close (c : Z) (k : Conn) (unregister : bool) (st : Server) : Server :=
  let id := conn_sub k in
  set_conn c (with_phase Closed k)
    {| cache := cache st;
       subs := alter (fun sub => with_flags (disconnected sub) (shutdown_requested sub) true sub) id (subs st);
       registry := if unregister then filter (fun i => i ≠ id) (registry st) else registry st;
       next_id := next_id st; extractor := extractor st; stop := stop st; conns := conns st;
       published := published st; joined := joined st; dropped := dropped st |}.

Definition update_sub (id : Z) (f : Subscriber → Subscriber) (st : Server) : Server :=
  set_subs (alter f id (subs st)) st.

(** A last frame, whether or not it can be written. *)
Definition finish (c : Z) (io : bool) (frame : OutboundFrame) (k : Conn) (st : Server) : Server :=
  close c (send (if written io frame then [frame] else []) k) true st.

(** A connection that dies. *)
Definition die (c : Z) (k : Conn) (st : Server) : Server :=
  close c k true (update_sub (conn_sub k) mark_disconnected st).

Definition register (c : Z) (io : bool) (k : Conn) (st : Server) : Server :=
  if decide (max_subscribers cfg ≠ 0 ∧ max_subscribers cfg ≤ Z.of_nat (length (registry st)))
  then set_conn c (with_phase Closed (send (if written io (LagExceededFrame 0) then [LagExceededFrame 0] else []) k)) st
  else
    let id := next_id st + 1 in
    let n := length (published st) in
    set_conn c {| resume_from := resume_from k; conn_sub := id; conn_phase := Registered; pending := []; sent := sent k |}
      {| cache := cache st; subs := <[id := Subscriber_new (send_queue_depth cfg) (max_subscriber_lag cfg)]> (subs st);
         registry := registry st ++ [id]; next_id := id; extractor := extractor st; stop := stop st;
         conns := conns st; published := published st;
         joined := <[id := match extractor st with Holding _ => pred n | _ => n end]> (joined st);
         dropped := dropped st |}.

(** The snapshot of the cache from which the subscriber resumes.  A refusal that
    cannot be written leaves the subscriber registered. *)
Definition resume (c : Z) (io : bool) (k : Conn) (st : Server) : option Server :=
  if locked st then None else
  match range (cache st) (resume_from k) with
  | OutOfWindow o =>
      let frame := TruncatedFrame o in
      Some (if written io frame then close c (send [frame] k) true st else close c k false st)
  | InWindow events => Some (set_conn c (with_phase (Backfilling events) k) st)
  | AtLiveTail => Some (set_conn c (with_phase Entering k) st)
  end.

Definition backfill (c : Z) (io : bool) (k : Conn) (e : CachedEvent) (todo : list CachedEvent) (st : Server) : Server :=
  if written io (event_frame e)
  then set_conn c (with_phase (Backfilling todo) (send [event_frame e] k))
         (update_sub (conn_sub k) (record_delivered (ce_seq e)) st)
  else die c k st.

(** The start of [dispatch_live], after a look at the server's stop flag. *)
Definition enter_live (c : Z) (k : Conn) (sub : Subscriber) (st : Server) : Server :=
  let st := if stop st && negb (shutdown_requested sub)
            then update_sub (conn_sub k) (fun sub => (request_shutdown sub).2) st else st in
  set_conn c (with_phase (if decide (0 < last_delivered_seq sub) then Draining else AtTop) k) st.

Definition batch_seq (batch : list CachedEvent) : Z := default 0 (ce_seq <$> head batch).

(** One turn of the loop that drops what the backfill has sent. *)
Definition drain (c : Z) (k : Conn) (sub : Subscriber) (st : Server) : Server :=
  match queue sub with
  | [] => set_conn c (with_phase AtTop k) st
  | d :: q =>
      let keep := match d with
                  | Live batch => bool_decide (last_delivered_seq sub < batch_seq batch)
                  | Shutdown => true
                  end in
      set_conn c (with_pending (if keep then pending k ++ [d] else pending k) k)
        (update_sub (conn_sub k) (fun sub => with_queue q (lag sub) sub) st)
  end.

(** The top of the loop: the flags. *)
Definition look (c : Z) (io : bool) (k : Conn) (sub : Subscriber) (st : Server) : Server :=
  if shutdown_requested sub then finish c io (ServerShutdownFrame (last_delivered_seq sub)) k st
  else if disconnected sub then finish c io (LagExceededFrame (last_delivered_seq sub)) k st
  else set_conn c (with_phase Receiving k) st.

Definition deliver (c : Z) (io : bool) (d : DeliveryEvent) (k : Conn) (sub : Subscriber) (st : Server) : Server :=
  match d with
  | Live batch => set_conn c (with_phase (Writing (batch_seq batch) batch) k) st
  | Shutdown => finish c io (ServerShutdownFrame (last_delivered_seq sub)) k st
  end.

Definition receive (c : Z) (io : bool) (k : Conn) (sub : Subscriber) (st : Server) : Server :=
  match pending k with
  | d :: p => deliver c io d (with_pending p k) sub st
  | [] =>
      match queue sub with
      | d :: q => deliver c io d k sub (update_sub (conn_sub k) (fun sub => with_queue q (lag sub) sub) st)
      | [] => if io then set_conn c (with_phase AtTop k) st else die c k st
      end
  end.

Definition write_next (c : Z) (io : bool) (seq : Z) (e : CachedEvent) (todo : list CachedEvent) (k : Conn)
    (st : Server) : Server :=
  if written io (event_frame e)
  then set_conn c (with_phase (Writing seq todo) (send [event_frame e] k)) st
  else die c k st.

(** One step of the thread of connection [c]; [io] is the outcome of its write,
    or of its look at the socket. *)
Definition dispatch_step (c : Z) (io : bool) (st : Server) : option Server :=
  k ← conns st !! c;
  match conn_phase k with
  | Handshaken => Some (register c io k st)
  | Registered => resume c io k st
  | Backfilling (e :: todo) => Some (backfill c io k e todo st)
  | Backfilling [] => Some (set_conn c (with_phase Entering k) st)
  | Entering => sub ← subs st !! conn_sub k; Some (enter_live c k sub st)
  | Draining => sub ← subs st !! conn_sub k; Some (drain c k sub st)
  | AtTop => sub ← subs st !! conn_sub k; Some (look c io k sub st)
  | Receiving => sub ← subs st !! conn_sub k; Some (receive c io k sub st)
  | Writing seq (e :: todo) => Some (write_next c io seq e todo k st)
  | Writing seq [] =>
      Some (set_conn c (with_phase AtTop k) (update_sub (conn_sub k) (record_delivered seq) st))
  | Closed => None
  end.

(** *** Runs *)

(** [Stop] is the operator's; then the main thread tells the subscribers. *)
Inductive choice : Type :=
| Extractor (payloads : option (list (list u8)))
| Accept (c resume_from : Z)
| Turn (c : Z) (io : bool)
| Stop
| TellShutdown (id : Z).

Definition step (ch : choice) (st : Server) : option Server :=
  match ch with
  | Extractor payloads => extractor_step payloads st
  | Accept c resume_from =>
      match conns st !! c with
      | Some _ => None
      | None => Some (set_conn c {| resume_from := resume_from; conn_sub := 0; conn_phase := Handshaken;
                                    pending := []; sent := [] |} st)
      end
  | Turn c io => dispatch_step c io st
  | Stop =>
      Some {| cache := cache st; subs := subs st; registry := registry st; next_id := next_id st;
              extractor := extractor st; stop := true; conns := conns st; published := published st;
              joined := joined st; dropped := dropped st |}
  | TellShutdown id => if stop st then Some (shutdown_next id st) else None
  end.

Fixpoint server_run (chs : list choice) (st : Server) : option Server :=
  match chs with
  | [] => Some st
  | ch :: chs => st ← step ch st; server_run chs st
  end.
End Dispatch.
