(* ===== verification/EventStream.v ===== *)
(** * The stream of a subscriber

    The invariant of the event server, in every interleaving of the extractor, the
    dispatch threads and a shutdown: what a connection has been sent, together with
    what its thread and its queue hold, is what it is owed.  The theorem
    [subscriber_stream] states it of the bytes on the wire: every event after the
    number the subscriber resumes from, in order, none twice and none missing,
    unless the subscriber's queue overflowed.  [lagging_gap] is the run in which it
    did and the stream goes on with a gap. *)

From Stdlib Require Import ZArith Lia Sorted.
From stdpp Require Import base numbers list gmap.
From S2P Require Import Prelude EventWire EventCache EventServer.

Local Open Scope Z_scope.

(** ** What a subscriber is sent *)

Definition lives (ds : list DeliveryEvent) : list CachedEvent :=
  ds ≫= fun d => match d with Live batch => batch | Shutdown => [] end.

Definition sent_events (fs : list OutboundFrame) : list CachedEvent :=
  omap (fun f => match f with EventFrame s p => Some {| ce_seq := s; ce_payload := p |} | _ => None end) fs.

Definition last_seq (es : list CachedEvent) : Z := default 0 (ce_seq <$> last es).

(** The events of the first [u] frames. *)
Definition events_upto (u : nat) (batches : list (list CachedEvent)) : list CachedEvent := mjoin (take u batches).

(** How many of the batches have been enqueued for a subscriber, or would have
    been. *)
Definition upto (st : Server) (id : Z) : nat :=
  let n := length (published st) in
  match extractor st with
  | Holding _ => pred n
  | Sending todo _ => if decide (id ∈ todo) then pred n else n
  | _ => n
  end.

(** The number after which a subscriber is owed events: the one it resumes from,
    or, when it asks for the live tail, the last one before it registered.  One
    that resumes from a number the log has not reached (the server is reading its
    log again) gets either: what is published after it registered, when the cache
    has nothing beyond the number yet, and what follows the number otherwise. *)
Definition owes (k : Conn) (j : nat) (o : Z) : Prop :=
  if decide (resume_from k = 0) then o = Z.of_nat j
  else if decide (resume_from k ≤ Z.of_nat j) then o = resume_from k
  else o = Z.of_nat j ∨ o = resume_from k.

Definition owed_after (k : Conn) (j : nat) : Z := if decide (resume_from k = 0) then Z.of_nat j else resume_from k.

(** A batch is not empty and has one number. *)
Definition uniform (d : DeliveryEvent) : Prop :=
  match d with
  | Live batch => batch ≠ [] ∧ Forall (fun e => ce_seq e = batch_seq batch) batch
  | Shutdown => True
  end.

(** The stream of a connection: what is sent, is being written, waits in the
    thread and waits in the queue, make up what is owed of the first [u] frames. *)
Definition stream_ok (o : Z) (batches : list (list CachedEvent)) (k : Conn) (sub : Subscriber) (j u : nat) : Prop :=
  let owed := after o (events_upto u batches) in
  let sent := sent_events (sent k) in
  match conn_phase k with
  | Registered =>
      sent = [] ∧ pending k = [] ∧ last_delivered_seq sub = 0 ∧
      lives (queue sub) = after (Z.of_nat j) (events_upto u batches)
  | Backfilling _ | Entering =>
      let todo := match conn_phase k with Backfilling todo => todo | _ => [] end in
      let all := sent ++ todo in
      pending k = [] ∧ last_delivered_seq sub = last_seq sent ∧
      lives (queue sub) = after (Z.of_nat j) (events_upto u batches) ∧ last_seq all ≤ Z.of_nat u ∧
      all ++ after (Z.max (last_seq all) (Z.of_nat j)) (events_upto u batches) = owed
  | Draining =>
      last_delivered_seq sub ≤ Z.of_nat u ∧
      lives (pending k) ++ after (last_delivered_seq sub) (lives (queue sub)) =
        after (Z.max (last_delivered_seq sub) (Z.of_nat j)) (events_upto u batches) ∧
      sent ++ after (Z.max (last_delivered_seq sub) (Z.of_nat j)) (events_upto u batches) = owed
  | AtTop | Receiving => sent ++ lives (pending k) ++ lives (queue sub) = owed
  | Writing _ todo => sent ++ todo ++ lives (pending k) ++ lives (queue sub) = owed
  | Handshaken | Closed => False
  end.

Definition streams (batches : list (list CachedEvent)) (k : Conn) (sub : Subscriber) (j u : nat) : Prop :=
  ∃ o, owes k j o ∧ o ≤ Z.of_nat u ∧ stream_ok o batches k sub j u.

(** The subscriber resumes from a number that the log has reached. *)
Definition known (k : Conn) (j : nat) : Prop := 0 ≤ resume_from k ≤ Z.of_nat j.

(** It resumes from a number, not from the oldest event there is. *)
Definition numbered (k : Conn) : Prop := 0 ≤ resume_from k < FROM_OLDEST.

Lemma owes_known k j o : known k j → owes k j o → o = owed_after k j.
Proof. unfold known, owes, owed_after. intros ?. case_decide; [done|]. by rewrite decide_True by lia. Qed.

Record live_conn (st : Server) (k : Conn) (j : nat) (sub : Subscriber) : Prop := {
  lc_id : 1 ≤ conn_sub k;
  lc_reg : conn_sub k ∈ registry st;
  lc_receiver : receiver_dropped sub = false;
  lc_queue : Forall uniform (queue sub);
  lc_stream : conn_sub k ∉ dropped st → disconnected sub = false ∧
    (numbered k → streams (published st) k sub j (upto st (conn_sub k)));
}.

Definition conn_ok (st : Server) (k : Conn) : Prop :=
  match conn_phase k with
  | Handshaken => conn_sub k = 0 ∧ sent k = []
  | Closed => ∀ j, joined st !! conn_sub k = Some j → conn_sub k ∉ dropped st → numbered k →
      ∃ o, owes k j o ∧ sent_events (sent k) `prefix_of` after o (mjoin (published st))
  | _ => ∃ j sub, joined st !! conn_sub k = Some j ∧ subs st !! conn_sub k = Some sub ∧ live_conn st k j sub
  end.

Record server_ok (st : Server) : Prop := {
  so_cache : holds (cache st) (mjoin (published st));
  so_published : ∀ i batch, published st !! i = Some batch → Forall (fun e => ce_seq e = Z.of_nat i + 1) batch;
  so_extractor :
    match extractor st with
    | Holding batch => last (published st) = Some batch ∧ batch ≠ []
    | Sending todo batch => last (published st) = Some batch ∧ batch ≠ [] ∧ NoDup todo ∧
        ∀ id, id ∈ todo → id ≤ next_id st
    | _ => True
    end;
  so_registry : NoDup (registry st) ∧ ∀ id, id ∈ registry st → 1 ≤ id ≤ next_id st;
  so_joined : ∀ id j, joined st !! id = Some j → 1 ≤ id ≤ next_id st ∧ (j ≤ upto st id)%nat;
  so_conns : ∀ c k, conns st !! c = Some k → 0 ≤ conn_sub k ≤ next_id st ∧ conn_ok st k;
  so_distinct : ∀ c c' k k', conns st !! c = Some k → conns st !! c' = Some k' →
    conn_sub k = conn_sub k' → 0 < conn_sub k → c = c';
  so_next : 0 ≤ next_id st;
}.

(** ** Lists of events *)

Lemma lives_app ds ds' : lives (ds ++ ds') = lives ds ++ lives ds'.
Proof. apply bind_app. Qed.

Lemma sent_events_app fs fs' : sent_events (fs ++ fs') = sent_events fs ++ sent_events fs'.
Proof. apply omap_app. Qed.

Lemma last_seq_snoc es e : last_seq (es ++ [e]) = ce_seq e.
Proof. unfold last_seq. by rewrite last_snoc. Qed.

Lemma after_after a b es : after a (after b es) = after (Z.max b a) es.
Proof.
  unfold after. rewrite list_filter_filter. apply list_filter_iff. intros e. lia.
Qed.

Lemma after_sorted x es : StronglySorted seq_le es → StronglySorted seq_le (after x es).
Proof.
  induction 1 as [|e es Hs IH Hall]; [constructor|]. unfold after. rewrite filter_cons. case_decide; [|done].
  constructor; [done|]. rewrite Forall_forall in Hall |- *. intros a [_ Ha]%list_elem_of_filter. auto.
Qed.

(** The last event after a number is the last of all. *)
Lemma after_last x es e :
  StronglySorted seq_le es → last (after x es) = Some e → e ∈ es ∧ Forall (fun a => ce_seq a ≤ ce_seq e) es.
Proof.
  intros Hs Hl. assert (He : e ∈ after x es) by (apply last_Some in Hl as [l ->]; set_solver).
  unfold after in He. apply list_elem_of_filter in He as [Hx He]. split; [done|].
  assert (Hall : Forall (fun a => ce_seq a ≤ ce_seq e) (after x es)).
  { apply sorted_head_last; [|done]. by apply after_sorted. }
  rewrite Forall_forall in Hall |- *. intros a Ha. destruct (decide (x < ce_seq a)); [|lia].
  apply Hall, list_elem_of_filter. done.
Qed.

Lemma after_none a b es : after a es = [] → a ≤ b → after b es = [].
Proof. intros H Hab. rewrite <- (Z.max_r a b), <- after_after, H by done. done. Qed.

Lemma range_0 c : range c 0 = AtLiveTail.
Proof. unfold range. destruct (head (buffer c)), (last (buffer c)); try done. Qed.

Lemma events_upto_all batches u : (length batches ≤ u)%nat → events_upto u batches = mjoin batches.
Proof. intros Hu. unfold events_upto. by rewrite take_ge. Qed.

Section Batches.
Context (batches : list (list CachedEvent)).
Context (Hnum : ∀ i batch, batches !! i = Some batch → Forall (fun e => ce_seq e = Z.of_nat i + 1) batch).

Lemma events_upto_S u batch :
  batches !! u = Some batch → events_upto (S u) batches = events_upto u batches ++ batch.
Proof.
  intros Hb. unfold events_upto. rewrite (take_S_r _ _ _ Hb), join_app. cbn. by rewrite app_nil_r.
Qed.

Lemma events_upto_le u : Forall (fun e => ce_seq e ≤ Z.of_nat u) (events_upto u batches).
Proof using Hnum.
  induction u as [|u IH]; [constructor|].
  destruct (batches !! u) as [batch|] eqn:E.
  - rewrite (events_upto_S _ _ E). apply Forall_app. split.
    + eapply Forall_impl; [exact IH|]. cbn. intros. lia.
    + eapply Forall_impl; [by apply Hnum|]. cbn. intros. lia.
  - apply lookup_ge_None_1 in E. rewrite events_upto_all by lia.
    rewrite (events_upto_all _ u) in IH by lia. eapply Forall_impl; [exact IH|]. cbn. intros. lia.
Qed.

(** A frame more is owed whole. *)
Lemma after_upto_S x u batch :
  batches !! u = Some batch → x ≤ Z.of_nat u →
  after x (events_upto (S u) batches) = after x (events_upto u batches) ++ batch.
Proof using Hnum.
  intros Hb Hx. rewrite (events_upto_S _ _ Hb), after_app. f_equal. apply after_all.
  eapply Forall_impl; [by apply Hnum|]. cbn. intros. lia.
Qed.

Lemma events_upto_prefix u v : (u ≤ v)%nat → events_upto u batches `prefix_of` events_upto v batches.
Proof.
  intros Huv. unfold events_upto. rewrite <- (take_drop u (take v batches)), take_take, join_app.
  replace (u `min` v)%nat with u by lia. by apply prefix_app_r.
Qed.

Lemma after_prefix x es es' : es `prefix_of` es' → after x es `prefix_of` after x es'.
Proof. intros [l ->]. rewrite after_app. by apply prefix_app_r. Qed.

Lemma owed_prefix x u : (u ≤ length batches)%nat →
  after x (events_upto u batches) `prefix_of` after x (mjoin batches).
Proof.
  intros Hu. apply after_prefix. rewrite <- (events_upto_all batches (length batches)) by lia.
  by apply events_upto_prefix.
Qed.
End Batches.

(** [stream_ok] looks at a subscriber's queue and its mark only. *)
Lemma stream_similar batches k sub sub' j u :
  lives (queue sub') = lives (queue sub) → last_delivered_seq sub' = last_delivered_seq sub →
  streams batches k sub j u → streams batches k sub' j u.
Proof. unfold streams, stream_ok. intros -> ->. done. Qed.

Lemma stream_prefix x batches k sub j u :
  (u ≤ length batches)%nat → stream_ok x batches k sub j u →
  sent_events (sent k) `prefix_of` after x (mjoin batches).
Proof.
  intros Hu Hs. unfold stream_ok in Hs.
  trans (after x (events_upto u batches)); [|by apply owed_prefix].
  destruct (conn_phase k); try done.
  - destruct Hs as (-> & _). apply prefix_nil.
  - destruct Hs as (_ & _ & _ & _ & <-). rewrite <- app_assoc. by apply prefix_app_r.
  - destruct Hs as (_ & _ & _ & _ & <-). rewrite <- app_assoc. by apply prefix_app_r.
  - destruct Hs as (_ & _ & <-). by apply prefix_app_r.
  - rewrite <- Hs. by apply prefix_app_r.
  - rewrite <- Hs. by apply prefix_app_r.
  - rewrite <- Hs. by apply prefix_app_r.
Qed.

(** The next batch, enqueued. *)
Lemma stream_enqueue batches k sub sub' j u batch :
  (∀ i batch, batches !! i = Some batch → Forall (fun e => ce_seq e = Z.of_nat i + 1) batch) →
  batches !! u = Some batch → (j ≤ u)%nat →
  queue sub' = queue sub ++ [Live batch] → last_delivered_seq sub' = last_delivered_seq sub →
  streams batches k sub j u → streams batches k sub' j (S u).
Proof.
  intros Hnum Hb Hj Hq Hl (o & Ho & Hx & Hok). exists o. split; [done|]. split; [lia|]. revert Hok.
  assert (Hq' : lives (queue sub') = lives (queue sub) ++ batch).
  { rewrite Hq, lives_app. cbn. by rewrite app_nil_r. }
  assert (Hall : ∀ x, x ≤ Z.of_nat u → after x (events_upto (S u) batches) = after x (events_upto u batches) ++ batch)
    by (intros; by apply after_upto_S).
  unfold stream_ok. rewrite Hq', Hl, (Hall o) by done.
  rewrite !(Hall (Z.of_nat j)) by lia.
  destruct (conn_phase k).
  - done.
  - by intros (-> & -> & -> & ->).
  - intros (-> & -> & -> & Hle & <-). rewrite Hall by lia. rewrite <- !app_assoc. repeat split; try done; lia.
  - intros (-> & -> & -> & Hle & <-). rewrite Hall by lia. rewrite <- !app_assoc. repeat split; try done; lia.
  - intros (Hle & H1 & <-). rewrite Hall by lia. rewrite after_app, <- H1, <- !app_assoc.
    split; [lia|]. split; [|done]. do 2 f_equal. apply after_all.
    eapply Forall_impl; [by eapply Hnum|]. cbn. lia.
  - intros <-. by rewrite <- !app_assoc.
  - intros <-. by rewrite <- !app_assoc.
  - intros <-. by rewrite <- !app_assoc.
  - done.
Qed.

(** A frame more, that this subscriber is yet to be given. *)
Lemma stream_extend batches batch k sub j :
  streams batches k sub j (length batches) → streams (batches ++ [batch]) k sub j (length batches).
Proof.
  unfold streams, stream_ok. replace (events_upto (length batches) (batches ++ [batch]))
    with (events_upto (length batches) batches); [done|].
  unfold events_upto. by rewrite take_app_length, take_ge.
Qed.

(** A frame of no events. *)
Lemma stream_empty batches k sub j :
  streams batches k sub j (length batches) → streams (batches ++ [[]]) k sub j (S (length batches)).
Proof.
  intros (o & Ho & Hle & Hok). exists o. split; [done|]. split; [lia|]. revert Hok. unfold stream_ok. replace (events_upto (S (length batches)) (batches ++ [[]]))
    with (events_upto (length batches) batches).
  - destruct (conn_phase k); try done; intuition lia.
  - rewrite !events_upto_all by (rewrite ?length_app; cbn; lia). rewrite join_app. cbn. by rewrite app_nil_r.
Qed.

(** ** Frames of the invariant *)

Lemma upto_le st id : (upto st id ≤ length (published st))%nat.
Proof. unfold upto. destruct (extractor st); try case_decide; lia. Qed.

(** A connection whose subscriber is left alone. *)
Lemma conn_ok_frame st st' k :
  conn_ok st k → published st' = published st → joined st' !! conn_sub k = joined st !! conn_sub k →
  subs st' !! conn_sub k = subs st !! conn_sub k →
  (conn_sub k ∈ registry st → conn_sub k ∈ registry st') →
  (conn_sub k ∈ dropped st → conn_sub k ∈ dropped st') →
  (conn_sub k ∈ registry st → upto st' (conn_sub k) = upto st (conn_sub k)) →
  conn_ok st' k.
Proof.
  intros Hk Hp Hj Hs Hr Hd Hu. unfold conn_ok in *. rewrite Hp, Hj, Hs.
  assert (Hlive : ∀ j sub, live_conn st k j sub → live_conn st' k j sub).
  { intros j sub []. constructor; auto. rewrite Hp, Hu by done. auto. }
  destruct (conn_phase k); naive_solver.
Qed.

(** Subscribers that change without a change to their streams. *)
Definition similar (sub sub' : Subscriber) : Prop :=
  receiver_dropped sub = false →
  receiver_dropped sub' = false ∧ disconnected sub' = disconnected sub ∧
  lives (queue sub') = lives (queue sub) ∧ last_delivered_seq sub' = last_delivered_seq sub ∧
  (Forall uniform (queue sub) → Forall uniform (queue sub')).

Lemma request_shutdown_similar sub : similar sub (request_shutdown sub).2.
Proof.
  intros Hr. unfold request_shutdown. destruct (disconnected sub) eqn:Ed; [done|]. cbn [receiver_dropped with_flags].
  rewrite Hr. destruct (is_full _); cbn; [done|]. rewrite lives_app. cbn. rewrite app_nil_r.
  repeat split; try done. intros. apply Forall_app. by repeat constructor.
Qed.

Lemma live_similar st st' k j sub sub' :
  live_conn st k j sub → similar sub sub' → published st' = published st →
  conn_sub k ∈ registry st' → (conn_sub k ∉ dropped st' → conn_sub k ∉ dropped st) →
  upto st' (conn_sub k) = upto st (conn_sub k) → live_conn st' k j sub'.
Proof.
  intros [H1 H2 H3 H4 H5] Hs Hp Hr Hd Hu. destruct (Hs H3) as (G1 & G2 & G3 & G4 & G5).
  constructor; auto. intros Hn. destruct H5 as [H5 H6]; [auto|]. split; [congruence|].
  intros Hk. rewrite Hp, Hu. eapply stream_similar; eauto.
Qed.

(** A step of a dispatch thread touches its connection, its subscriber and its
    place in the registry. *)
Definition evolve (c : Z) (k : Conn) (s : gmap Z Subscriber) (r : list Z) (st : Server) : Server :=
  {| cache := cache st; subs := s; registry := r; next_id := next_id st; extractor := extractor st;
     stop := stop st; conns := <[c := k]> (conns st); published := published st;
     joined := joined st; dropped := dropped st |}.

Lemma evolve_ok st c k k' s r :
  server_ok st → conns st !! c = Some k → conn_sub k' = conn_sub k → 1 ≤ conn_sub k →
  (∀ id, id ≠ conn_sub k → s !! id = subs st !! id) →
  r `sublist_of` registry st → (∀ id, id ≠ conn_sub k → id ∈ registry st → id ∈ r) →
  conn_ok (evolve c k' s r st) k' → server_ok (evolve c k' s r st).
Proof.
  intros [] Hc Hid Hpos Hs Hsub Hr Hk. constructor; cbn; try done.
  - destruct so_registry0. split; [by eapply sublist_NoDup|].
    intros id Hin. eauto using elem_of_sublist.
  - intros c1 k1. rewrite lookup_insert_Some. intros [[<- <-]|[Hne H1]].
    + split; [rewrite Hid; by eapply so_conns0|done].
    + destruct (so_conns0 _ _ H1) as [? Hk1]. split; [done|].
      assert (conn_sub k1 ≠ conn_sub k) by (intros He; apply Hne; symmetry; eapply so_distinct0; eauto; lia).
      eapply conn_ok_frame; eauto.
  - intros c1 c2 k1 k2. rewrite !lookup_insert_Some. intros [[<- <-]|[Hne H1]] [[<- <-]|[Hne' H2]]; try done; intros.
    + eapply (so_distinct0 c c2); eauto; congruence.
    + eapply (so_distinct0 c1 c); eauto; congruence.
    + eapply (so_distinct0 c1 c2); eauto.
Qed.

Definition in_service (ph : phase) : bool := match ph with Handshaken | Closed => false | _ => true end.

Lemma in_service_ok st k : in_service (conn_phase k) = true →
  conn_ok st k ↔ ∃ j sub, joined st !! conn_sub k = Some j ∧ subs st !! conn_sub k = Some sub ∧ live_conn st k j sub.
Proof. unfold conn_ok. by destruct (conn_phase k). Qed.

#[local] Arguments sent_events : simpl never.
#[local] Arguments lives : simpl never.
#[local] Arguments after : simpl never.
#[local] Arguments last_seq : simpl never.
#[local] Arguments mjoin : simpl never.

Section Turns.
Context (st : Server) (c : Z) (k : Conn) (j : nat) (sub : Subscriber).
Context (Hok : server_ok st) (Hc : conns st !! c = Some k).
Context (Hj : joined st !! conn_sub k = Some j) (Hsub : subs st !! conn_sub k = Some sub).
Context (Hlive : live_conn st k j sub).

Let batches := published st.
Let u := upto st (conn_sub k).

(** A turn after which the thread goes on. *)
Lemma turn_streams k' sub' s :
  conn_sub k' = conn_sub k → resume_from k' = resume_from k → in_service (conn_phase k') = true →
  s !! conn_sub k = Some sub' → (∀ id, id ≠ conn_sub k → s !! id = subs st !! id) →
  receiver_dropped sub' = receiver_dropped sub → disconnected sub' = disconnected sub → Forall uniform (queue sub') →
  (numbered k → streams batches k sub j u → streams batches k' sub' j u) →
  server_ok (evolve c k' s (registry st) st).
Proof using Hok Hc Hj Hlive.
  intros Hid Hres Hph Hs Hs' Hr Hd Hq Hstream. pose proof Hlive as [H1 H2 H3 H4 H5].
  eapply evolve_ok; eauto.
  apply in_service_ok; [done|]. exists j, sub'. cbn. rewrite Hid. split_and!; [done..|].
  constructor; cbn; rewrite ?Hid; try congruence; try done.
  intros Hn. destruct (H5 Hn) as [H6 H7]. split; [congruence|].
  intros Hk. assert (Hk' : numbered k) by (unfold numbered in *; congruence). apply Hstream; auto.
Qed.

Lemma turn_goes_on k' sub' s :
  conn_sub k' = conn_sub k → resume_from k' = resume_from k → in_service (conn_phase k') = true →
  s !! conn_sub k = Some sub' → (∀ id, id ≠ conn_sub k → s !! id = subs st !! id) →
  receiver_dropped sub' = receiver_dropped sub → disconnected sub' = disconnected sub → Forall uniform (queue sub') →
  (∀ o, stream_ok o batches k sub j u → stream_ok o batches k' sub' j u) →
  server_ok (evolve c k' s (registry st) st).
Proof using Hok Hc Hj Hlive.
  intros Hid Hres ?????? Hstream. eapply turn_streams; eauto. intros _ (o & Ho & Hle & Hst). exists o.
  split; [|by auto]. unfold owes in *. by rewrite Hres.
Qed.

(** A turn that ends the connection, with no event sent. *)
Lemma turn_ends k' s r :
  conn_sub k' = conn_sub k → resume_from k' = resume_from k → conn_phase k' = Closed →
  sent_events (sent k') = sent_events (sent k) →
  (∀ id, id ≠ conn_sub k → s !! id = subs st !! id) →
  r = registry st ∨ r = filter (fun i => i ≠ conn_sub k) (registry st) →
  server_ok (evolve c k' s r st).
Proof using Hok Hc Hj Hlive.
  intros Hid Hres Hph Hsent Hs Hr. pose proof Hlive as [H1 H2 H3 H4 H5].
  eapply evolve_ok; eauto.
  - destruct Hr as [->| ->]; [done|apply sublist_filter].
  - intros id Hne Hin. destruct Hr as [->| ->]; [done|]. by apply list_elem_of_filter.
  - unfold conn_ok. rewrite Hph. cbn. rewrite Hid, Hsent. intros j'. rewrite Hj. intros [= <-] Hn Hk.
    assert (Hk' : numbered k) by (unfold numbered in *; congruence).
    destruct (H5 Hn) as [_ H7]. destruct (H7 Hk') as (o & Ho & _ & Hst). exists o. split.
    + unfold owes in *. by rewrite Hres.
    + eapply stream_prefix; [apply upto_le|done].
Qed.

Lemma close_turn k' unregister st1 :
  conn_sub k' = conn_sub k → resume_from k' = resume_from k →
  sent_events (sent k') = sent_events (sent k) →
  (st1 = st ∨ ∃ f, st1 = update_sub (conn_sub k) f st) →
  server_ok (close c k' unregister st1).
Proof using Hok Hc Hj Hlive.
  intros Hid Hres Hsent Hst. destruct unregister, Hst as [->|[f ->]]; apply turn_ends; try done; cbn; rewrite ?Hid; auto;
    intros id Hne; rewrite ?lookup_alter_ne by done; done.
Qed.

Lemma finish_turn io frame k' st1 :
  (∀ s p, frame ≠ EventFrame s p) →
  conn_sub k' = conn_sub k → resume_from k' = resume_from k → sent k' = sent k →
  (st1 = st ∨ ∃ f, st1 = update_sub (conn_sub k) f st) →
  ∀ cfg, server_ok (finish cfg c io frame k' st1).
Proof using Hok Hc Hj Hlive.
  intros Hf Hid Hres Hsent Hst cfg. apply close_turn; try done. cbn. rewrite Hsent, sent_events_app.
  destruct (written _ _ _); [|apply app_nil_r]. destruct frame; try apply app_nil_r. by destruct (Hf seq payload).
Qed.

Lemma die_turn : server_ok (die c k st).
Proof using Hok Hc Hj Hlive. apply close_turn; eauto. Qed.

(** *** The phases *)

Context (cfg : DispatchConfig).

Ltac goes_with lemma k1 sub1 := apply (lemma k1 sub1); cbn; try done;
try (by rewrite lookup_alter_eq, Hsub); try (by intros id ?; rewrite lookup_alter_ne by done).

Ltac goes_on k1 sub1 := goes_with turn_goes_on k1 sub1.

Lemma resume_turn io st' :
  Z.of_nat (length batches) < FROM_OLDEST → conn_phase k = Registered → resume cfg c io k st = Some st' → server_ok st'.
Proof using Hok Hc Hj Hsub Hlive.
  intros Hmax Hph. unfold resume. destruct (locked st) eqn:El; [done|].
  pose proof (lc_queue _ _ _ _ Hlive) as Hq.
  assert (Hu : u = length batches) by (unfold u, upto, locked in *; by destruct (extractor st)).
  destruct (so_joined _ Hok _ _ Hj) as [_ Hju]. fold u in Hju. rewrite Hu in Hju.
  assert (Hr : resume_from k = 0 → range (cache st) (resume_from k) = AtLiveTail).
  { intros ->. apply range_0. }
  assert (Hr' : 0 < resume_from k < FROM_OLDEST → match range (cache st) (resume_from k) with
     | InWindow es => es = after (resume_from k) (mjoin batches) ∧ es ≠ []
     | AtLiveTail => after (resume_from k) (mjoin batches) = []
     | OutOfWindow _ => True end) by (apply range_holds, Hok).
  pose proof (holds_sorted _ _ (so_cache _ Hok)) as Hsort. fold batches in Hsort.
  pose proof (events_upto_le batches (so_published _ Hok) (length batches)) as Hle.
  rewrite events_upto_all in Hle by done.
  destruct (range (cache st) (resume_from k)) as [es|o|] eqn:Er; intros [= <-].
  - goes_with turn_streams (with_phase (Backfilling es) k) sub. intros Hk (o & Ho & _ & Hst). revert Hst.
    unfold stream_ok. rewrite Hph. cbn. intros (Hs & Hp & Hd & Hlv).
    destruct (decide (resume_from k = 0)) as [H0|H0]; [by specialize (Hr H0)|].
    destruct Hr' as [-> Hne]; [unfold numbered in Hk; lia|].
    set (es := after _ _) in *. destruct (last es) as [e|] eqn:Ee; [|by apply last_None in Ee].
    destruct (after_last _ _ _ Hsort Ee) as [Hin He]. rewrite Forall_forall in Hle. specialize (Hle _ Hin). cbn in Hle.
    assert (Hre : resume_from k < ce_seq e).
    { assert (Hes : e ∈ es) by by apply last_Some_elem_of. by apply list_elem_of_filter in Hes as [? _]. }
    assert (Hl : last_seq es = ce_seq e) by (unfold last_seq; by rewrite Ee).
    exists (resume_from k). split; [unfold owes; cbn; rewrite decide_False by done; case_decide; auto|].
    split; [rewrite Hu; lia|]. unfold stream_ok. cbn. rewrite Hs, Hp, Hd, Hlv, Hu, events_upto_all by done. cbn. rewrite Hl.
    split_and!; try done. rewrite after_nil, app_nil_r; [done|]. eapply Forall_impl; [exact He|]. cbn. lia.
  - destruct (written _ _ _); apply close_turn; eauto. cbn. rewrite sent_events_app. apply app_nil_r.
  - goes_with turn_streams (with_phase Entering k) sub. intros Hk (o & Ho & _ & Hst). revert Hst.
    unfold stream_ok. rewrite Hph. cbn. intros (Hs & Hp & Hd & Hlv).
    exists (if decide (resume_from k ≤ Z.of_nat j) then owed_after k j else Z.of_nat j).
    split; [unfold owes, owed_after; cbn; repeat case_decide; auto; lia|].
    split; [rewrite Hu; unfold owed_after; repeat case_decide; lia|].
    unfold stream_ok. cbn. rewrite Hs, Hp, Hd, Hlv, Hu, events_upto_all by done. change (last_seq ([] ++ [])) with 0.
    split_and!; try done; [lia|]. rewrite Z.max_r by lia. cbn. unfold owed_after. case_decide; [|done].
    case_decide; [done|]. specialize (Hr' ltac:(unfold numbered in Hk; lia)). rewrite Hr'. eapply after_none; [exact Hr'|lia].
Qed.

Lemma sent_event e fs : sent_events (fs ++ [event_frame e]) = sent_events fs ++ [e].
Proof. rewrite sent_events_app. by destruct e. Qed.

Lemma backfill_turn io e todo :
  conn_phase k = Backfilling (e :: todo) → server_ok (backfill cfg c io k e todo st).
Proof using Hok Hc Hj Hsub Hlive.
  intros Hph. unfold backfill. destruct (written _ _ _); [|by eapply die_turn].
  goes_on (with_phase (Backfilling todo) (send [event_frame e] k)) (record_delivered (ce_seq e) sub); [apply Hlive|].
  intros o. unfold stream_ok. rewrite Hph. cbn. rewrite sent_event, last_seq_snoc, <- !app_assoc. cbn.
  intros (-> & _ & H). auto.
Qed.

Lemma backfilled_turn : conn_phase k = Backfilling [] → server_ok (set_conn c (with_phase Entering k) st).
Proof using Hok Hc Hj Hsub Hlive.
  intros Hph. goes_on (with_phase Entering k) sub; [apply Hlive|]. unfold stream_ok. rewrite Hph. done.
Qed.

Lemma enter_turn : conn_phase k = Entering → server_ok (enter_live c k sub st).
Proof using Hok Hc Hj Hsub Hlive.
  intros Hph. unfold enter_live.
  set (ph := if decide _ then Draining else AtTop).
  assert (Hstream : ∀ sub', lives (queue sub') = lives (queue sub) →
    last_delivered_seq sub' = last_delivered_seq sub →
    ∀ o, stream_ok o batches k sub j u → stream_ok o batches (with_phase ph k) sub' j u).
  { intros sub' Hq Hl o. unfold stream_ok. rewrite Hph. cbn. rewrite Hq, Hl, app_nil_r.
    intros (-> & Hd & -> & Hle & Howed). rewrite <- Hd in *. subst ph. cbn. case_decide.
    - split; [done|]. split; [|done]. rewrite after_after, Z.max_comm. done.
    - rewrite <- Howed, Z.max_r by lia. done. }
  assert (Hsvc : in_service ph = true) by (subst ph; by case_decide).
  destruct (stop st && _); cbn.
  - destruct (request_shutdown_similar sub) as (G1 & G2 & G3 & G4 & G5); [apply Hlive|].
    goes_on (with_phase ph k) (request_shutdown sub).2.
    + rewrite G1. symmetry. apply Hlive.
    + apply G5, Hlive.
    + intros. auto.
  - goes_on (with_phase ph k) sub; [apply Hlive|auto].
Qed.

Lemma drain_turn : conn_phase k = Draining → server_ok (drain c k sub st).
Proof using Hok Hc Hj Hsub Hlive.
  intros Hph. unfold drain. pose proof (lc_queue _ _ _ _ Hlive) as Hq.
  destruct (queue sub) as [|d q] eqn:Eq.
  - goes_on (with_phase AtTop k) sub; [by rewrite Eq|]. intros o. unfold stream_ok. rewrite Hph, Eq. cbn.
    intros (_ & <- & <-). change (after _ (lives [])) with (@nil CachedEvent). done.
  - inversion_clear Hq as [|? ? Hd Hq']. set (p := if _ : bool then _ else _).
    goes_on (with_pending p k) (with_queue q (lag sub) sub); [by rewrite Hph|].
    intros o. unfold stream_ok. cbn. rewrite Hph, Eq. intros (Hle & <- & <-). split_and!; try done.
    change (d :: q) with ([d] ++ q). rewrite lives_app, after_app, app_assoc. f_equal.
    subst p. destruct d as [batch|]; [|by rewrite lives_app].
    replace (lives [Live batch]) with batch by (unfold lives; cbn; by rewrite app_nil_r).
    destruct Hd as [Hne Hall]. case_bool_decide as Hlt.
    + rewrite lives_app, after_all; [f_equal; unfold lives; cbn; by rewrite app_nil_r|].
      eapply Forall_impl; [exact Hall|]. cbn. lia.
    + rewrite after_nil, app_nil_r; [done|]. eapply Forall_impl; [exact Hall|]. cbn. lia.
Qed.

Lemma look_turn io : conn_phase k = AtTop → server_ok (look cfg c io k sub st).
Proof using Hok Hc Hj Hsub Hlive.
  intros Hph. unfold look. destruct (shutdown_requested sub); [|destruct (disconnected sub)].
  - by apply finish_turn; eauto.
  - by apply finish_turn; eauto.
  - goes_on (with_phase Receiving k) sub; [apply Hlive|]. unfold stream_ok. by rewrite Hph.
Qed.

Lemma receive_turn io : conn_phase k = Receiving → server_ok (receive cfg c io k sub st).
Proof using Hok Hc Hj Hsub Hlive.
  intros Hph. unfold receive. pose proof (lc_queue _ _ _ _ Hlive) as Hq.
  destruct (pending k) as [|d p] eqn:Ep; [destruct (queue sub) as [|d q] eqn:Eq|].
  - destruct io; [|by eapply die_turn]. goes_on (with_phase AtTop k) sub; [by rewrite Eq|].
    unfold stream_ok. by rewrite Hph.
  - inversion_clear Hq. destruct d as [batch|]; [|by apply finish_turn; eauto]. cbn.
    goes_on (with_phase (Writing (batch_seq batch) batch) k) (with_queue q (lag sub) sub).
    intros o. unfold stream_ok. rewrite Hph. cbn. rewrite Ep, Eq. done.
  - destruct d as [batch|]; [|by apply finish_turn; eauto]. cbn.
    goes_on (with_phase (Writing (batch_seq batch) batch) (with_pending p k)) sub.
    intros o. unfold stream_ok. rewrite Hph. cbn. rewrite Ep. unfold lives at 1. cbn. by rewrite <- app_assoc.
Qed.

Lemma write_turn io seq e todo :
  conn_phase k = Writing seq (e :: todo) → server_ok (write_next cfg c io seq e todo k st).
Proof using Hok Hc Hj Hsub Hlive.
  intros Hph. unfold write_next. destruct (written _ _ _); [|by eapply die_turn].
  goes_on (with_phase (Writing seq todo) (send [event_frame e] k)) sub; [apply Hlive|].
  intros o. unfold stream_ok. rewrite Hph. cbn. by rewrite sent_event, <- !app_assoc.
Qed.

Lemma written_turn seq :
  conn_phase k = Writing seq [] →
  server_ok (set_conn c (with_phase AtTop k) (update_sub (conn_sub k) (record_delivered seq) st)).
Proof using Hok Hc Hj Hsub Hlive.
  intros Hph. goes_on (with_phase AtTop k) (record_delivered seq sub); [apply Hlive|].
  intros o. unfold stream_ok. by rewrite Hph.
Qed.
End Turns.

(** ** Joining *)

(** A connection without a subscriber. *)
Lemma outsider_ok st c k :
  server_ok st → conn_sub k = 0 → conn_ok (set_conn c k st) k → server_ok (set_conn c k st).
Proof.
  intros [] Hid Hk. constructor; cbn; try done.
  - intros c1 k1. rewrite lookup_insert_Some. intros [[<- <-]|[Hne H1]]; [split; [lia|done]|].
    destruct (so_conns0 _ _ H1) as [? Hk1]. split; [done|]. eapply conn_ok_frame; eauto.
  - intros c1 c2 k1 k2. rewrite !lookup_insert_Some. intros [[<- <-]|[Hne H1]] [[<- <-]|[Hne' H2]] ??; try done; try lia.
    eapply (so_distinct0 c1 c2); eauto.
Qed.

Lemma accept_ok st c r : server_ok st →
  server_ok (set_conn c {| resume_from := r; conn_sub := 0; conn_phase := Handshaken; pending := []; sent := [] |} st).
Proof. intros H. by apply outsider_ok. Qed.

Lemma register_turn cfg st c io k :
  server_ok st → conns st !! c = Some k → conn_phase k = Handshaken → server_ok (register cfg c io k st).
Proof.
  intros Hok Hc Hph. pose proof Hok as []. destruct (so_conns0 _ _ Hc) as [_ Hk].
  unfold conn_ok in Hk. rewrite Hph in Hk. destruct Hk as [Hid Hsent].
  unfold register. case_decide.
  - apply outsider_ok; [done..|]. unfold conn_ok. cbn. rewrite Hid. intros j [? _]%so_joined0. lia.
  - set (id := next_id st + 1). set (n := match extractor st with Holding _ => _ | _ => _ end).
    set (k' := {| resume_from := resume_from k |}). set (st' := set_conn _ _ _).
    assert (Hnew : upto st' id = n).
    { subst n. unfold upto, st'. cbn. destruct (extractor st); try done. rewrite decide_False; [done|].
      intros Hin. destruct so_extractor0 as (_ & _ & _ & Hle). specialize (Hle _ Hin). lia. }
    assert (Hfresh : joined st !! id = None).
    { destruct (joined st !! id) as [j|] eqn:E; [|done]. apply so_joined0 in E. lia. }
    constructor; cbn; try done.
    + destruct (extractor st); try done. destruct so_extractor0 as (? & ? & ? & Hle).
      split_and!; try done. intros i Hi. specialize (Hle _ Hi). lia.
    + destruct so_registry0 as [Hnd Hin]. split.
      * apply NoDup_app. split_and!; [done| |apply NoDup_singleton].
        intros i Hi ->%list_elem_of_singleton. specialize (Hin _ Hi). lia.
      * intros i. rewrite elem_of_app, list_elem_of_singleton. intros [Hi| ->]; [specialize (Hin _ Hi)|]; lia.
    + intros i j. rewrite lookup_insert_Some. intros [[<- <-]|[Hne Hj]]; [rewrite Hnew; lia|].
      destruct (so_joined0 _ _ Hj). split; [lia|]. done.
    + intros c1 k1. rewrite lookup_insert_Some. intros [[<- <-]|[Hne H1]].
      * split; [cbn; lia|]. apply in_service_ok; [done|].
        exists n, (Subscriber_new (send_queue_depth cfg) (max_subscriber_lag cfg)).
        cbn. rewrite !lookup_insert_eq. split_and!; [done..|]. constructor; cbn; try done; [lia|set_solver|].
        intros _. split; [done|]. intros _.
        exists (if decide (resume_from k ≤ Z.of_nat n) then owed_after k n else Z.of_nat n).
        split; [unfold owes, owed_after; cbn; repeat case_decide; auto; lia|].
        split; [fold st' id; rewrite Hnew; unfold owed_after; repeat case_decide; lia|].
        unfold stream_ok. cbn. rewrite Hsent. split_and!; try done. fold st' id. rewrite Hnew. symmetry.
        apply after_nil. by apply events_upto_le.
      * destruct (so_conns0 _ _ H1) as [? Hk1]. split; [lia|].
        eapply conn_ok_frame; eauto; cbn; rewrite ?lookup_insert_ne by lia; try done. set_solver.
    + intros c1 c2 k1 k2. rewrite !lookup_insert_Some. intros [[<- <-]|[Hne H1]] [[<- <-]|[Hne' H2]]; cbn; try done; intros.
      * destruct (so_conns0 _ _ H2). lia.
      * destruct (so_conns0 _ _ H1). lia.
      * eapply (so_distinct0 c1 c2); eauto.
    + lia.
Qed.

Lemma dispatch_ok cfg c io st st' :
  server_ok st → Z.of_nat (length (published st)) < FROM_OLDEST → dispatch_step cfg c io st = Some st' → server_ok st'.
Proof.
  intros Hok Hmax. unfold dispatch_step. destruct (conns st !! c) as [k|] eqn:Ek; [|done]. cbn.
  destruct (in_service (conn_phase k)) eqn:Es.
  2:{ destruct (conn_phase k) eqn:Eph; try done. intros [= <-]. by apply register_turn. }
  destruct (so_conns _ Hok _ _ Ek) as [_ Hk]. apply in_service_ok in Hk as (j & sub & Hj & Hsub & Hlive); [|done].
  rewrite Hsub. cbn. destruct (conn_phase k) as [| |[|e todo]| | | | |s [|e todo]|] eqn:Eph; try done.
  - by eapply resume_turn.
  - intros [= <-]. by eapply backfilled_turn.
  - intros [= <-]. by eapply backfill_turn.
  - intros [= <-]. by eapply enter_turn.
  - intros [= <-]. by eapply drain_turn.
  - intros [= <-]. by eapply look_turn.
  - intros [= <-]. by eapply receive_turn.
  - intros [= <-]. by eapply written_turn.
  - intros [= <-]. by eapply write_turn.
Qed.

(** ** The extractor *)

Lemma set_extractor_ok st pc :
  server_ok st →
  match pc with
  | Holding batch => last (published st) = Some batch ∧ batch ≠ []
  | Sending todo batch => last (published st) = Some batch ∧ batch ≠ [] ∧ NoDup todo ∧ ∀ id, id ∈ todo → id ≤ next_id st
  | _ => True
  end →
  (∀ id, (upto st id ≤ upto (set_extractor pc st) id)%nat) →
  (∀ id, id ∈ registry st → upto (set_extractor pc st) id = upto st id) →
  server_ok (set_extractor pc st).
Proof.
  intros [] Hpc Hle Heq. constructor; cbn; try done.
  - intros id j Hj. destruct (so_joined0 _ _ Hj). specialize (Hle id). split; [done|lia].
  - intros c k Hk. destruct (so_conns0 _ _ Hk) as [? Hc]. split; [done|]. eapply conn_ok_frame; eauto.
Qed.

(** Subscribers that change gently. *)
Lemma set_subs_ok st s :
  server_ok st → (∀ id sub, subs st !! id = Some sub → ∃ sub', s !! id = Some sub' ∧ similar sub sub') →
  server_ok (set_subs s st).
Proof.
  intros [] Hs. constructor; cbn; try done. intros c k Hk. destruct (so_conns0 _ _ Hk) as [? Hc]. split; [done|].
  unfold conn_ok in *. cbn. destruct (conn_phase k); try done;
    destruct Hc as (j & sub & Hj & Hsub & Hlive); destruct (Hs _ _ Hsub) as (sub' & Hsub' & Hsim);
    exists j, sub'; split_and!; try done; eapply live_similar; eauto; apply Hlive.
Qed.

Lemma similar_refl sub : similar sub sub.
Proof. done. Qed.

Lemma shutdown_ok st id : server_ok st → server_ok (shutdown_next id st).
Proof.
  intros H. apply set_subs_ok; [done|]. intros i sub Hi. destruct (decide (i = id)) as [->|Hne].
  - exists (request_shutdown sub).2. rewrite lookup_alter_eq, Hi. split; [done|apply request_shutdown_similar].
  - exists sub. rewrite lookup_alter_ne by done. split; [done|apply similar_refl].
Qed.

Lemma push_batch_ok s events : ∀ c pushed,
  holds c pushed → 0 < s < FROM_OLDEST → Forall (fun e => ce_seq e ≤ s) pushed → Forall (fun e => ce_seq e = s) events →
  (push_batch c events).2 = true ∧ holds (push_batch c events).1 (pushed ++ events).
Proof.
  induction events as [|e events IH]; intros c pushed Hc Hs Hp He; cbn; [by rewrite app_nil_r|].
  inversion_clear He as [|? ? He0 He']. subst s.
  assert (Hl : last_pushed_seq c ≤ ce_seq e).
  { rewrite (holds_last _ _ Hc). destruct (last pushed) as [a|] eqn:El; cbn; [|lia].
    apply last_Some in El as [l ->]. apply Forall_app in Hp as [_ Hp]. by inversion Hp. }
  destruct (push c e) as [c'|err] eqn:Ep.
  - destruct (push_holds c pushed e c') as [Hc' _]; [done|lia|lia|done|].
    rewrite cons_middle, app_assoc. apply IH; try done. apply Forall_app. split; [done|by repeat constructor].
  - unfold push in Ep. rewrite decide_False in Ep by lia. by case_decide; destruct (buffer c).
Qed.

(** A new frame, for a connection. *)
Lemma conn_extracted st st' events k :
  conn_ok st k → subs st' = subs st → registry st' = registry st → joined st' = joined st → dropped st' = dropped st →
  published st' = published st ++ [events] → (∀ id, upto st id = length (published st)) →
  (∀ id, upto st' id = match events with [] => S (length (published st)) | _ => length (published st) end) →
  conn_ok st' k.
Proof.
  intros Hk Hs Hr Hj Hd Hp Hu Hu'. destruct (in_service (conn_phase k)) eqn:E.
  - apply in_service_ok in Hk as (j & sub & Hj0 & Hsub & []); [|done]. apply in_service_ok; [done|].
    exists j, sub. rewrite Hs, Hj. split_and!; [done..|]. constructor; rewrite ?Hr, ?Hd; try done.
    intros Hn. destruct (lc_stream0 Hn) as [? Hst]. split; [done|]. intros Hk. specialize (Hst Hk).
    rewrite Hu in Hst. rewrite Hp, Hu'. destruct events; [by apply stream_empty|by apply stream_extend].
  - unfold conn_ok in *. destruct (conn_phase k); try done. rewrite Hj, Hd, Hp. intros j H1 H2 H3.
    destruct (Hk j H1 H2 H3) as (o & Ho & Hpre). exists o. split; [done|]. etrans; [exact Hpre|]. rewrite join_app. apply after_prefix. by apply prefix_app_r.
Qed.

(** A new frame. *)
Lemma extract_ok st payloads :
  server_ok st → extractor st = Polling → Z.of_nat (length (published st)) + 1 < FROM_OLDEST →
  server_ok (extract payloads st).
Proof.
  intros Hok Hpc Hmax. pose proof Hok as []. unfold extract.
  set (n := length (published st)). set (s := Z.of_nat n + 1). set (events := _ <$> payloads).
  assert (Hev : Forall (fun e => ce_seq e = s) events).
  { apply Forall_fmap, Forall_true. done. }
  pose proof (events_upto_le _ so_published0 n) as Hle. rewrite events_upto_all in Hle by done.
  destruct (push_batch_ok s events _ _ so_cache0) as [Hacc Hc]; [lia| |done|].
  { eapply Forall_impl; [exact Hle|]. cbn. lia. }
  destruct (push_batch (cache st) events) as [c acc]. cbn in Hacc, Hc. subst acc.
  set (st' := Build_Server _ _ _ _ _ _ _ _ _ _).
  assert (Hpub : mjoin (published st ++ [events]) = mjoin (published st) ++ events).
  { rewrite join_app. change (mjoin [events]) with (events ++ []). by rewrite app_nil_r. }
  assert (Hu : ∀ id, upto st id = n) by (intros; unfold upto; by rewrite Hpc).
  assert (Hu' : ∀ id, upto st' id = match events with [] => S n | _ => n end).
  { intros. unfold upto, st'. cbn. rewrite length_app. destruct events; cbn; lia. }
  constructor; cbn; try done.
  - by rewrite Hpub.
  - intros i b. rewrite lookup_app_Some. intros [Hi|[Hi Hb]]; [by apply so_published0|].
    apply list_lookup_singleton_Some in Hb as [Hi0 <-]. eapply Forall_impl; [exact Hev|]. cbn. subst s n. lia.
  - destruct events eqn:E; [done|]. by rewrite last_snoc.
  - intros id j Hj. destruct (so_joined0 _ _ Hj) as [? Hju]. rewrite Hu in Hju. fold st'. rewrite Hu'.
    split; [done|]. destruct events; lia.
  - intros c1 k Hk. destruct (so_conns0 _ _ Hk) as [? Hck]. split; [done|]. fold st'.
    apply (conn_extracted st st' events k); try done.
Qed.

(** A batch offered to a subscriber. *)
Lemma try_enqueue_cases batch sub :
  match (try_enqueue batch sub).1 with
  | Enqueued => disconnected sub = false ∧ receiver_dropped sub = false ∧
      (try_enqueue batch sub).2 = with_queue (queue sub ++ [Live batch]) 0 sub
  | Disconnected => (disconnected sub = true ∨ receiver_dropped sub = true)
  | _ => True
  end ∧ receiver_dropped (try_enqueue batch sub).2 = receiver_dropped sub ∧
  (queue (try_enqueue batch sub).2 = queue sub ∨ queue (try_enqueue batch sub).2 = queue sub ++ [Live batch]).
Proof.
  unfold try_enqueue. destruct (disconnected sub); [cbn; auto|]. destruct (receiver_dropped sub) eqn:E; [cbn; auto|].
  destruct (is_full sub); [case_decide|]; cbn; auto.
Qed.

Lemma batch_uniform st batch : server_ok st → last (published st) = Some batch → batch ≠ [] → uniform (Live batch).
Proof.
  intros Hok Hl Hne. split; [done|]. rewrite last_lookup in Hl. pose proof (so_published _ Hok _ _ Hl) as Hall.
  destruct batch as [|e batch]; [done|]. inversion_clear Hall as [|? ? He Hall'].
  constructor; [done|]. eapply Forall_impl; [exact Hall'|]. cbn. congruence.
Qed.

(** The extractor moves past subscriber [id]. *)
Lemma upto_next st st' id todo batch :
  extractor st = Sending (id :: todo) batch → extractor st' = Sending todo batch → published st' = published st →
  id ∉ todo →
  upto st id = pred (length (published st)) ∧ upto st' id = length (published st) ∧
  ∀ i, i ≠ id → upto st' i = upto st i.
Proof.
  intros H H' Hp Hni. unfold upto. rewrite H, H', Hp. split; [rewrite decide_True by set_solver; done|].
  split; [by rewrite decide_False|].
  intros i Hi. destruct (decide (i ∈ todo)); [rewrite decide_True by set_solver|rewrite decide_False by set_solver]; done.
Qed.

Lemma enqueue_frame st st' id todo batch :
  server_ok st → extractor st = Sending (id :: todo) batch → extractor st' = Sending todo batch →
  cache st' = cache st → registry st' = registry st → next_id st' = next_id st → conns st' = conns st →
  published st' = published st → joined st' = joined st →
  (∀ i, i ≠ id → subs st' !! i = subs st !! i) → (∀ i, i ∈ dropped st → i ∈ dropped st') →
  (∀ k, in_service (conn_phase k) = true → conn_sub k = id → conn_ok st k → conn_ok st' k) →
  server_ok st'.
Proof.
  intros [] Hpc Hpc' Hc Hr Hnx Hco Hp Hj Hs Hd Hid. rewrite Hpc in so_extractor0.
  destruct so_extractor0 as (Hlast & Hne & Hnd & Hle). inversion_clear Hnd as [|? ? Hni Hnd'].
  destruct (upto_next st st' id todo batch) as (H1 & H2 & H3); try done.
  constructor; rewrite ?Hc, ?Hr, ?Hnx, ?Hco, ?Hp, ?Hj; try done.
  - rewrite Hpc'. split_and!; try done. set_solver.
  - intros i j Hij. destruct (so_joined0 _ _ Hij) as [? Hju]. split; [done|].
    destruct (decide (i = id)) as [->|Hi]; [lia|by rewrite H3].
  - intros c k Hk. destruct (so_conns0 _ _ Hk) as [? Hck]. split; [done|].
    destruct (decide (conn_sub k = id)) as [He|He].
    + destruct (in_service (conn_phase k)) eqn:Es; [by apply Hid|].
      unfold conn_ok in *. rewrite Hp, Hj. destruct (conn_phase k); try done.
      intros j Hjk Hn Hkn. apply Hck; auto.
    + eapply conn_ok_frame; eauto; congruence.
Qed.

Lemma enqueue_ok st id todo batch :
  server_ok st → extractor st = Sending (id :: todo) batch → server_ok (enqueue_next id todo batch st).
Proof.
  intros Hok Hpc. pose proof Hok as []. rewrite Hpc in so_extractor0.
  destruct so_extractor0 as (Hlast & Hne & Hnd & Hle). inversion_clear Hnd as [|? ? Hni Hnd'].
  pose proof (batch_uniform _ _ Hok Hlast Hne) as Huni. rewrite last_lookup in Hlast.
  pose proof (lookup_lt_Some _ _ _ Hlast) as Hlt.
  unfold enqueue_next. destruct (subs st !! id) as [sub|] eqn:Es.
  2:{ eapply enqueue_frame; eauto. intros k Hk <-. rewrite !in_service_ok by done. intros (? & ? & _ & H & _). congruence. }
  pose proof (try_enqueue_cases batch sub) as (Hcase & Hrd & Hq).
  destruct (try_enqueue batch sub) as [outcome sub'] eqn:Et. cbn in Hcase, Hrd, Hq.
  set (st' := match outcome with Lagging _ | LagExceeded => _ | _ => _ end).
  assert (Hpc' : extractor st' = Sending todo batch) by (subst st'; by destruct outcome).
  assert (Hpub : published st' = published st) by (subst st'; by destruct outcome).
  assert (Hsubs : subs st' = <[id := sub']> (subs st)) by (subst st'; by destruct outcome).
  assert (Hreg : registry st' = registry st) by (subst st'; by destruct outcome).
  assert (Hjo : joined st' = joined st) by (subst st'; by destruct outcome).
  assert (Hdr : dropped st' = match outcome with Lagging _ | LagExceeded => id :: dropped st | _ => dropped st end)
    by (subst st'; by destruct outcome).
  destruct (upto_next st st' id todo batch) as (H1 & H2 & H3); try done.
  eapply enqueue_frame; eauto; try (by subst st'; destruct outcome).
  { intros i Hi. rewrite Hsubs. by rewrite lookup_insert_ne. }
  { intros i Hi. rewrite Hdr. destruct outcome; by repeat constructor. }
  intros k Hk <-. rewrite !in_service_ok by done. intros (j & sub0 & Hj & Hsub & []).
  rewrite Hsub in Es. injection Es as ->. destruct (so_joined0 _ _ Hj) as [_ Hju].
  exists j, sub'. rewrite Hsubs, lookup_insert_eq, Hjo. split_and!; [done..|].
  constructor; rewrite ?Hreg; try done; [congruence| |].
  { destruct Hq as [-> | ->]; [done|]. apply Forall_app. split; [done|]. constructor; [done|constructor]. }
  rewrite Hdr. intros Hn. assert (Hn' : conn_sub k ∉ dropped st) by (destruct outcome; rewrite ?not_elem_of_cons in Hn; naive_solver).
  destruct (lc_stream0 Hn') as [Hdis Hst]. rewrite Hpub, H2.
  destruct outcome; try (rewrite not_elem_of_cons in Hn; by destruct Hn).
  - destruct Hcase as (_ & _ & ->). split; [done|]. intros Hkn. specialize (Hst Hkn). rewrite H1 in Hst, Hju.
    replace (length (published st)) with (S (pred (length (published st)))) by lia.
    eapply stream_enqueue; eauto.
  - destruct Hcase; congruence.
Qed.

Lemma extractor_ok payloads st st' :
  server_ok st → Z.of_nat (length (published st)) + 1 < FROM_OLDEST →
  extractor_step payloads st = Some st' → server_ok st'.
Proof.
  intros Hok Hmax. unfold extractor_step.
  destruct (extractor st) as [|batch|[|id todo] batch|[[|id todo]|]|] eqn:Epc; try done.
  - destruct (stop st); [|destruct payloads; [|]]; intros [= <-]; [|by apply extract_ok|];
      apply set_extractor_ok; try done; intros; unfold upto; by rewrite Epc.
  - intros [= <-]. pose proof Hok as []. rewrite Epc in so_extractor0.
    apply set_extractor_ok; try done.
    + destruct so_extractor0, so_registry0 as [? Hin]. split_and!; try done. intros id Hi. specialize (Hin _ Hi). lia.
    + intros id. unfold upto. rewrite Epc. cbn. case_decide; lia.
    + intros id Hi. unfold upto. rewrite Epc. cbn. by rewrite decide_True.
  - intros [= <-]. apply set_extractor_ok; try done; intros; unfold upto; rewrite Epc; cbn; done.
  - intros [= <-]. by apply enqueue_ok.
  - intros [= <-]. destruct Hok. constructor; cbn; try done.
    + intros id j Hj. destruct (so_joined0 _ _ Hj) as [? Hju]. split; [done|]. unfold upto in *. by rewrite Epc in Hju.
    + intros c k Hk. destruct (so_conns0 _ _ Hk) as [? Hck]. split; [done|].
      eapply conn_ok_frame; eauto. intros _. unfold upto. by rewrite Epc.
  - intros [= <-]. apply set_extractor_ok; [by apply shutdown_ok|done|..]; intros; unfold upto; cbn; by rewrite Epc.
  - intros [= <-]. apply set_extractor_ok; try done; intros; unfold upto; by rewrite Epc.
Qed.

(** ** Runs *)

Lemma server_step_ok cfg ch st st' :
  server_ok st → Z.of_nat (length (published st)) + 1 < FROM_OLDEST → step cfg ch st = Some st' → server_ok st'.
Proof.
  intros Hok Hmax. destruct ch; cbn.
  - by apply extractor_ok.
  - destruct (conns st !! c); [done|]. intros [= <-]. by apply accept_ok.
  - apply dispatch_ok; [done|lia].
  - intros [= <-]. destruct Hok. constructor; try done.
    intros c k Hk. destruct (so_conns0 _ _ Hk) as [? Hck]. split; [done|]. eapply conn_ok_frame; eauto.
  - destruct (stop st); [|done]. intros [= <-]. by apply shutdown_ok.
Qed.

Lemma dispatch_published cfg c io st st' :
  dispatch_step cfg c io st = Some st' → published st' = published st.
Proof.
  unfold dispatch_step. destruct (conns st !! c) as [k|]; [|done]. cbn.
  destruct (conn_phase k) as [| |[|e todo]| | | | |s [|e todo]|]; try done; try (by intros [= <-]).
  - intros [= <-]. unfold register. by case_decide.
  - unfold resume. destruct (locked st); [done|].
    destruct (range _ _); intros [= <-]; try done. by destruct (written _ _ _).
  - intros [= <-]. unfold backfill. by destruct (written _ _ _).
  - destruct (subs st !! conn_sub k) as [sub|]; intros [= <-]. unfold enter_live. by destruct (stop st && _).
  - destruct (subs st !! conn_sub k) as [sub|]; intros [= <-]. unfold drain. by destruct (queue sub).
  - destruct (subs st !! conn_sub k) as [sub|]; intros [= <-]. unfold look.
    by destruct (shutdown_requested sub), (disconnected sub).
  - destruct (subs st !! conn_sub k) as [sub|]; intros [= <-]. unfold receive.
    destruct (pending k) as [|[] p]; try done. destruct (queue sub) as [|[] q], io; try done.
  - intros [= <-]. unfold write_next. by destruct (written _ _ _).
Qed.

(** The history only grows. *)
Lemma step_published cfg ch st st' :
  step cfg ch st = Some st' → published st `prefix_of` published st'.
Proof.
  destruct ch; cbn.
  - unfold extractor_step, extract, enqueue_next. intros H. repeat (case_match || simplify_option_eq); cbn; try done; by apply prefix_app_r.
  - destruct (conns st !! c); [done|]. by intros [= <-].
  - intros H. by rewrite (dispatch_published _ _ _ _ _ H).
  - by intros [= <-].
  - destruct (stop st); [|done]. by intros [= <-].
Qed.

Lemma run_ok cfg chs : ∀ st st',
  server_ok st → server_run cfg chs st = Some st' → Z.of_nat (length (published st')) + 1 < FROM_OLDEST →
  server_ok st' ∧ published st `prefix_of` published st'.
Proof.
  induction chs as [|ch chs IH]; cbn; intros st st' Hok; [by intros [= <-]|].
  destruct (step cfg ch st) as [st1|] eqn:E; [|done]. cbn. intros Hrun Hmax.
  pose proof (step_published _ _ _ _ E) as Hp.
  assert (Hp' : published st1 `prefix_of` published st').
  { clear -Hrun. revert st1 Hrun. induction chs as [|ch chs IH]; cbn; intros st1; [by intros [= <-]|].
    destruct (step cfg ch st1) eqn:E; [|done]. cbn. intros Hrun. etrans; [by eapply step_published|by apply IH]. }
  pose proof (prefix_length _ _ Hp). pose proof (prefix_length _ _ Hp').
  destruct (IH st1 st'); [eapply server_step_ok; eauto; lia|done|done|]. split; [done|by etrans].
Qed.

Lemma server_new_ok capacity c0 : 0 ≤ capacity → EventCache_new capacity = Ok c0 → server_ok (Server_new c0).
Proof. intros H0 Hc. constructor; cbn; try done; [by eapply holds_new|]. split; [constructor|set_solver]. Qed.

(** A connection with nothing to send, of a server between two frames. *)
Definition idle (st : Server) (k : Conn) : Prop :=
  extractor st = Polling ∧ (conn_phase k = AtTop ∨ conn_phase k = Receiving) ∧ pending k = [] ∧
  ∃ sub, subs st !! conn_sub k = Some sub ∧ queue sub = [].

(** What a run has sent to a subscriber that lost no batch. *)
Lemma run_owes cfg capacity c0 chs st c k j :
  0 ≤ capacity → EventCache_new capacity = Ok c0 → server_run cfg chs (Server_new c0) = Some st →
  Z.of_nat (length (published st)) + 1 < FROM_OLDEST →
  conns st !! c = Some k → joined st !! conn_sub k = Some j → conn_sub k ∉ dropped st → numbered k →
  ∃ o, owes k j o ∧ (j ≤ length (published st))%nat ∧
    sent_events (sent k) `prefix_of` after o (mjoin (published st)) ∧
    (idle st k → sent_events (sent k) = after o (mjoin (published st))).
Proof.
  intros H0 Hc Hrun Hmax Hk Hj Hn Hkn.
  destruct (run_ok cfg chs (Server_new c0) st) as [Hok _]; [by eapply server_new_ok|done|done|].
  destruct (so_joined _ Hok _ _ Hj) as [Hid Hju]. pose proof (upto_le st (conn_sub k)) as Hul.
  destruct (so_conns _ Hok _ _ Hk) as [_ Hck]. destruct (in_service (conn_phase k)) eqn:Es.
  - apply in_service_ok in Hck as (j' & sub & Hj' & Hsub & []); [|done]. rewrite Hj in Hj'. injection Hj' as <-.
    destruct (lc_stream0 Hn) as [_ Hst]. destruct (Hst Hkn) as (o & Ho & _ & Hso). exists o.
    split_and!; [done|lia|eapply stream_prefix; [apply upto_le|done]|].
    intros (Hp & Hph & Hpend & sub' & Hsub' & Hq). rewrite Hsub in Hsub'. injection Hsub' as <-.
    unfold stream_ok, upto in Hso. rewrite Hp, Hpend, Hq, events_upto_all in Hso by done.
    destruct Hph as [-> | ->] in Hso; by rewrite !app_nil_r in Hso.
  - assert (Hidle : ¬ idle st k) by (intros (_ & [H1|H1] & _); by rewrite H1 in Es). unfold conn_ok in Hck.
    destruct (conn_phase k); try done; [destruct Hck; lia|]. destruct (Hck j Hj Hn Hkn) as (o & Ho & Hpre).
    exists o. split_and!; [done|lia|done|done].
Qed.

(** C8: In every run of the event server (frames extracted, subscribers joining,
    resuming from the cache, catching up with their queues, live, shut down or
    gone, in every order of the threads' steps), a subscriber whose queue never
    overflowed and that resumes from no number beyond the frames published when it
    registered has been sent a prefix of the events after that number, in the order
    of the log, with none missing, repeated or out of order across the hand-over
    from backfill to live delivery; one that asked for the live tail, of those
    after it registered.  When it is idle between two frames it
    has been sent them all. *)
Theorem subscriber_stream cfg capacity c0 chs st c k j :
  0 ≤ capacity → EventCache_new capacity = Ok c0 → server_run cfg chs (Server_new c0) = Some st →
  Z.of_nat (length (published st)) + 1 < FROM_OLDEST →
  conns st !! c = Some k → joined st !! conn_sub k = Some j → conn_sub k ∉ dropped st → known k j →
  sent_events (sent k) `prefix_of` after (owed_after k j) (mjoin (published st)) ∧
  (idle st k → sent_events (sent k) = after (owed_after k j) (mjoin (published st))).
Proof.
  intros H0 Hc Hrun Hmax Hk Hj Hn Hkn.
  destruct (run_ok cfg chs (Server_new c0) st) as [Hok _]; [by eapply server_new_ok|done|done|].
  destruct (so_joined _ Hok _ _ Hj) as [_ Hju]. pose proof (upto_le st (conn_sub k)) as Hul.
  destruct (run_owes cfg capacity c0 chs st c k j) as (o & Ho & _ & Hs); try done.
  { unfold numbered, known in *. lia. }
  by rewrite <- (owes_known k j o).
Qed.

(** *** Runs of a small server *)

Definition demo_config : DispatchConfig :=
  {| send_queue_depth := 1; max_subscriber_lag := 1000; max_subscribers := 2; dispatch_max_frame_size := 1024 |}.

Definition demo_server : Server :=
  Server_new {| buffer := []; cache_capacity := 2; last_pushed_seq := 0; last_evicted_seq := None |}.

(** The extractor takes a frame with one event of [b] to every subscriber; and a
    thread that takes [n] turns. *)
Definition frame_of (subscribers : nat) (b : Z) : list choice :=
  Extractor (Some [[byte_of b]]) :: replicate (subscribers + 2) (Extractor None).
Definition turns (n : nat) (c : Z) : list choice := replicate n (Turn c true).

(** Three frames, a subscriber that resumes from 1, and a fourth frame that is
    enqueued while it is sent the backfill. *)
Definition demo_run : list choice :=
  frame_of 0 1 ++ frame_of 0 2 ++ frame_of 0 3 ++ [Accept 7 1] ++ turns 3 7 ++ frame_of 1 4 ++ turns 12 7.

Definition event_of (n : Z) (b : Z) : CachedEvent := {| ce_seq := n; ce_payload := [byte_of b] |}.

Definition demo_state : Server := default demo_server (server_run demo_config demo_run demo_server).

Definition demo_conn : Conn :=
  {| resume_from := 1; conn_sub := 1; conn_phase := Receiving; pending := [];
     sent := event_frame <$> [event_of 2 2; event_of 3 3; event_of 4 4] |}.

Lemma subscriber_stream_witness :
  sent_events (sent demo_conn) = after 1 (mjoin (published demo_state)).
Proof.
  apply (subscriber_stream demo_config 2 (cache demo_server) demo_run demo_state 7 demo_conn 3).
  - lia.
  - reflexivity.
  - vm_compute. reflexivity.
  - vm_compute. reflexivity.
  - vm_compute. reflexivity.
  - vm_compute. reflexivity.
  - vm_compute. inversion 1.
  - split; vm_compute; discriminate.
  - split; [vm_compute; reflexivity|]. split; [by right|]. split; [done|].
    eexists. split; vm_compute; reflexivity.
Defined.

(** A queue that is full costs a subscriber within its lag a whole batch, and
    it is not told: in this run of a server whose queues hold one batch, a live
    subscriber is sent the events 1 and 3 of three frames, on a connection that
    stays open, with no frame that reports the loss. *)
Theorem lagging_gap :
  ∃ chs st k, server_run demo_config chs demo_server = Some st ∧ conns st !! 7 = Some k ∧
    in_service (conn_phase k) = true ∧
    published st = [[event_of 1 1]; [event_of 2 2]; [event_of 3 3]] ∧
    sent k = event_frame <$> [event_of 1 1; event_of 3 3].
Proof.
  exists ([Accept 7 0] ++ turns 4 7 ++ frame_of 1 1 ++ frame_of 1 2 ++ turns 4 7 ++ frame_of 1 3 ++ turns 4 7).
  eexists _, _. split_and!; vm_compute; reflexivity.
Qed.

(** A server that reads its log again (its numbers start from 1) sends a
    subscriber that resumes from 2 the event with number 1. *)
Lemma replayed_below_resume :
  ∃ chs st k, server_run demo_config chs demo_server = Some st ∧ conns st !! 7 = Some k ∧
    resume_from k = 2 ∧ sent k = event_frame <$> [event_of 1 1].
Proof.
  exists ([Accept 7 2] ++ turns 4 7 ++ frame_of 1 1 ++ turns 4 7).
  eexists _, _. split_and!; vm_compute; reflexivity.
Qed.

(** Two clients that leave before a refusal is written take the two places of the
    registry for good: every thread has ended, and a third client is refused. *)
Lemma registry_leaks :
  ∃ chs st, server_run demo_config chs demo_server = Some st ∧
    (∀ c, c ∈ [7; 8; 9] → conn_phase <$> conns st !! c = Some Closed) ∧ registry st = [1; 2] ∧
    sent <$> conns st !! 9 = Some [LagExceededFrame 0].
Proof.
  exists (frame_of 0 1 ++ frame_of 0 2 ++ frame_of 0 3 ++ frame_of 0 4 ++
          [Accept 7 1; Turn 7 true; Turn 7 false; Accept 8 1; Turn 8 true; Turn 8 false; Accept 9 1; Turn 9 true]).
  eexists. split_and!; [vm_compute; reflexivity| |vm_compute; reflexivity..].
  intros c. rewrite !elem_of_cons, elem_of_nil. by intros [->|[->|[->|[]]]]; vm_compute.
Qed.
