(* ===== verification/IndexEvent.v ===== *)
(** * The events of the kernel

    Models [src/runtime/knomosis-indexer/src/event.rs] and [decoder.rs]: the events
    the kernel emits, their byte form and the decoder of the indexer.

    An amount is represented by its value, as are nonces and budget units, which
    the source holds in 128 bits and writes in 64.  The cursor reads the buffer from
    an offset and is threaded as the state of a monad. *)

From Stdlib Require Import ZArith Lia.
From stdpp Require Import base numbers list sets.
From S2P Require Import Prelude.

Local Open Scope Z_scope.

Definition CBE_TAG_UINT : u8 := byte_of 0.
Definition CBE_TAG_AMOUNT : u8 := byte_of 6.
Definition CBE_TAG_BYTES : u8 := byte_of 2.
Definition HEAD_LEN : nat := 9.
Definition AMOUNT_BYTES : nat := 32.
Definition AMOUNT_HEAD_LEN : nat := 1 + AMOUNT_BYTES.
Definition ETH_ADDRESS_BYTES : nat := 20.
Definition HARD_MAX_BYTE_STRING_LEN : Z := 1024 * 1024.
Definition RESOURCE_ID_ETH : Z := 0.
Definition RESOURCE_ID_BOLD : Z := 1.
Definition EVENT_TAG_COUNT : Z := 25.

Inductive Event : Type :=
| BalanceChanged (resource : Z) (actor : Z) (old_value : Z) (new_value : Z)
| NonceAdvanced (actor : Z) (old_nonce : Z) (new_nonce : Z)
| IdentityRegistered (actor : Z) (key : list u8)
| IdentityRevoked (actor : Z)
| TimeRecorded (time : Z)
| DisputeFiled (challenger : Z) (target_idx : Z)
| DisputeWithdrawn (dispute_idx : Z)
| VerdictApplied (dispute_idx : Z) (outcome_tag : Z)
| RewardIssued (resource : Z) (recipient : Z) (amount : Z)
| WithdrawalRequested (resource : Z) (sender : Z) (amount : Z) (recipient_l1 : list u8) (withdrawal_id : Z)
| DepositCredited (resource : Z) (recipient : Z) (amount : Z) (deposit_id : Z)
| LocalPolicyDeclared (actor : Z) (policy : list u8)
| LocalPolicyRevoked (actor : Z)
| FaultProofGameOpened (game_id : Z) (challenger : Z) (disputed_start_idx : Z) (disputed_end_idx : Z)
    (binding_hash : list u8)
| FaultProofBisectionStep (game_id : Z) (round : Z) (party : Z) (idx : Z) (commit : list u8)
| FaultProofGameSettled (game_id : Z) (winner : Z) (loser : Z) (payout : Z)
| DepositWithFeeCredited (resource : Z) (recipient : Z) (pool_actor : Z) (user_amount : Z) (pool_amount : Z)
    (budget_grant : Z) (deposit_id : Z)
| ActionBudgetTopUp (signer : Z) (gas_resource : Z) (gas_amount : Z) (budget_increment : Z) (pool_actor : Z)
| GasPoolClaim (resource : Z) (sequencer : Z) (amount : Z)
| DelegatedActionBudgetTopUp (recipient : Z) (signer : Z) (gas_resource : Z) (gas_amount : Z) (budget_increment
    : Z) (pool_actor : Z)
| BudgetConsumed (actor : Z) (amount : Z)
| AmmReservesReclaimed (resource : Z) (amount : Z) (reserve_actor : Z) (pool_actor : Z)
| ReserveSwapExecuted (from_resource : Z) (to_resource : Z) (user : Z) (amount_in : Z) (amount_out : Z)
    (reserve_actor : Z)
| ReserveSeeded (resource : Z) (amount : Z) (reserve_actor : Z) (deposit_id : Z).

#[global] Instance Event_eq_dec : EqDecision Event.
Proof. solve_decision. Defined.

Definition tag (self : Event) : Z :=
  match self with
  | BalanceChanged _ _ _ _ => 0
  | NonceAdvanced _ _ _ => 1
  | IdentityRegistered _ _ => 2
  | IdentityRevoked _ => 3
  | TimeRecorded _ => 4
  | DisputeFiled _ _ => 5
  | DisputeWithdrawn _ => 6
  | VerdictApplied _ _ => 7
  | RewardIssued _ _ _ => 8
  | WithdrawalRequested _ _ _ _ _ => 9
  | DepositCredited _ _ _ _ => 10
  | LocalPolicyDeclared _ _ => 11
  | LocalPolicyRevoked _ => 12
  | FaultProofGameOpened _ _ _ _ _ => 13
  | FaultProofBisectionStep _ _ _ _ _ => 14
  | FaultProofGameSettled _ _ _ _ => 15
  | DepositWithFeeCredited _ _ _ _ _ _ _ => 16
  | ActionBudgetTopUp _ _ _ _ _ => 17
  | GasPoolClaim _ _ _ => 18
  | DelegatedActionBudgetTopUp _ _ _ _ _ _ => 19
  | BudgetConsumed _ _ => 20
  | AmmReservesReclaimed _ _ _ _ => 22
  | ReserveSwapExecuted _ _ _ _ _ _ => 23
  | ReserveSeeded _ _ _ _ => 24
  end.

Definition actor (self : Event) : option Z :=
  match self with
  | BalanceChanged _ actor _ _ => Some actor
  | NonceAdvanced actor _ _ => Some actor
  | IdentityRegistered actor _ => Some actor
  | IdentityRevoked actor => Some actor
  | TimeRecorded _ => None
  | DisputeFiled challenger _ => Some challenger
  | DisputeWithdrawn _ => None
  | VerdictApplied _ _ => None
  | RewardIssued _ recipient _ => Some recipient
  | WithdrawalRequested _ sender _ _ _ => Some sender
  | DepositCredited _ recipient _ _ => Some recipient
  | LocalPolicyDeclared actor _ => Some actor
  | LocalPolicyRevoked actor => Some actor
  | FaultProofGameOpened _ challenger _ _ _ => Some challenger
  | FaultProofBisectionStep _ _ party _ _ => Some party
  | FaultProofGameSettled _ winner _ _ => Some winner
  | DepositWithFeeCredited _ recipient _ _ _ _ _ => Some recipient
  | ActionBudgetTopUp signer _ _ _ _ => Some signer
  | GasPoolClaim _ sequencer _ => Some sequencer
  | DelegatedActionBudgetTopUp recipient _ _ _ _ _ => Some recipient
  | BudgetConsumed actor _ => Some actor
  | AmmReservesReclaimed _ _ reserve_actor _ => Some reserve_actor
  | ReserveSwapExecuted _ _ user _ _ _ => Some user
  | ReserveSeeded _ _ reserve_actor _ => Some reserve_actor
  end.

Definition resource (self : Event) : option Z :=
  match self with
  | BalanceChanged resource _ _ _ => Some resource
  | NonceAdvanced _ _ _ => None
  | IdentityRegistered _ _ => None
  | IdentityRevoked _ => None
  | TimeRecorded _ => None
  | DisputeFiled _ _ => None
  | DisputeWithdrawn _ => None
  | VerdictApplied _ _ => None
  | RewardIssued resource _ _ => Some resource
  | WithdrawalRequested resource _ _ _ _ => Some resource
  | DepositCredited resource _ _ _ => Some resource
  | LocalPolicyDeclared _ _ => None
  | LocalPolicyRevoked _ => None
  | FaultProofGameOpened _ _ _ _ _ => None
  | FaultProofBisectionStep _ _ _ _ _ => None
  | FaultProofGameSettled _ _ _ _ => None
  | DepositWithFeeCredited resource _ _ _ _ _ _ => Some resource
  | ActionBudgetTopUp _ gas_resource _ _ _ => Some gas_resource
  | GasPoolClaim resource _ _ => Some resource
  | DelegatedActionBudgetTopUp _ _ gas_resource _ _ _ => Some gas_resource
  | BudgetConsumed _ _ => None
  | AmmReservesReclaimed resource _ _ _ => Some resource
  | ReserveSwapExecuted _ _ _ _ _ _ => None
  | ReserveSeeded resource _ _ _ => Some resource
  end.

Definition is_balance_change (self : Event) : bool :=
  match self with BalanceChanged _ _ _ _ => true | _ => false end.

Definition is_gas_pool_family (self : Event) : bool :=
  match self with
  | DepositWithFeeCredited _ _ _ _ _ _ _ | ActionBudgetTopUp _ _ _ _ _ | GasPoolClaim _ _ _
  | DelegatedActionBudgetTopUp _ _ _ _ _ _ | BudgetConsumed _ _ => true
  | _ => false
  end.

(** ** The decoder *)

Inductive DecodeError : Type :=
| Truncated (offset : nat) (expected available : Z)
| BadHeadTag (offset : nat) (expected actual : u8)
| ByteStringTooLong (offset : nat) (len cap : Z)
| UnknownTag (tag : Z)
| TrailingBytes (trailing : nat)
| BadByteStringLength (offset : nat) (expected : nat) (actual : Z).

Record Cursor : Type := { bytes : list u8; offset : nat }.

Definition Cursor_new (bytes : list u8) : Cursor := {| bytes := bytes; offset := 0 |}.
Definition remaining (self : Cursor) : nat := (length (bytes self) - offset self)%nat.

Abbreviation cursor := (stateful Cursor DecodeError).

(** An end past the largest offset is past the end of the buffer. *)
Definition read_bytes (n : Z) : cursor (list u8) := fun self =>
  let available := Z.of_nat (remaining self) in
  if decide (available < n) then Err (Truncated (offset self) n available)
  else Ok (take (Z.to_nat n) (drop (offset self) (bytes self)),
           {| bytes := bytes self; offset := offset self + Z.to_nat n |}).

Definition get_offset : cursor nat := fun self => Ok (offset self, self).

Definition read_head_raw : cursor (u8 * Z) :=
  buf ← read_bytes (Z.of_nat HEAD_LEN);
  match buf with
  | tag :: n_buf => mret (tag, from_le_bytes n_buf)
  | [] => mret (CBE_TAG_UINT, 0)
  end.

Definition read_uint : cursor Z :=
  head_offset ← get_offset;
  '(tag, n) ← read_head_raw;
  if decide (tag ≠ CBE_TAG_UINT) then fail (BadHeadTag head_offset CBE_TAG_UINT tag) else mret n.

Definition read_amount : cursor Z :=
  head_offset ← get_offset;
  buf ← read_bytes (Z.of_nat AMOUNT_HEAD_LEN);
  match buf with
  | tag :: le =>
      if decide (tag ≠ CBE_TAG_AMOUNT) then fail (BadHeadTag head_offset CBE_TAG_AMOUNT tag)
      else mret (from_le_bytes le)
  | [] => mret 0
  end.

Definition read_budget_units : cursor Z := read_uint.
Definition read_nonce : cursor Z := read_uint.

Definition read_byte_string : cursor (list u8) :=
  head_offset ← get_offset;
  '(tag, len) ← read_head_raw;
  if decide (tag ≠ CBE_TAG_BYTES) then fail (BadHeadTag head_offset CBE_TAG_BYTES tag)
  else if decide (HARD_MAX_BYTE_STRING_LEN < len)
  then fail (ByteStringTooLong head_offset len HARD_MAX_BYTE_STRING_LEN)
  else read_bytes len.

Definition read_byte_string_exact (expected : nat) : cursor (list u8) :=
  head_offset ← get_offset;
  '(tag, len) ← read_head_raw;
  if decide (tag ≠ CBE_TAG_BYTES) then fail (BadHeadTag head_offset CBE_TAG_BYTES tag)
  else if decide (len ≠ Z.of_nat expected) then fail (BadByteStringLength head_offset expected len)
  else read_bytes (Z.of_nat expected).

Definition read_eth_address : cursor (list u8) := read_byte_string_exact ETH_ADDRESS_BYTES.

(** The fields of the event with constructor [tag]. *)
Definition read_fields (tag : Z) : cursor Event :=
  match tag with
  | 0 =>
      resource ← read_uint; actor ← read_uint; old_value ← read_amount; new_value ← read_amount;
      mret (BalanceChanged resource actor old_value new_value)
  | 1 =>
      actor ← read_uint; old_nonce ← read_nonce; new_nonce ← read_nonce;
      mret (NonceAdvanced actor old_nonce new_nonce)
  | 2 =>
      actor ← read_uint; key ← read_byte_string;
      mret (IdentityRegistered actor key)
  | 3 =>
      actor ← read_uint;
      mret (IdentityRevoked actor)
  | 4 =>
      time ← read_uint;
      mret (TimeRecorded time)
  | 5 =>
      challenger ← read_uint; target_idx ← read_uint;
      mret (DisputeFiled challenger target_idx)
  | 6 =>
      dispute_idx ← read_uint;
      mret (DisputeWithdrawn dispute_idx)
  | 7 =>
      dispute_idx ← read_uint; outcome_tag ← read_uint;
      mret (VerdictApplied dispute_idx outcome_tag)
  | 8 =>
      resource ← read_uint; recipient ← read_uint; amount ← read_amount;
      mret (RewardIssued resource recipient amount)
  | 9 =>
      resource ← read_uint; sender ← read_uint; amount ← read_amount; recipient_l1 ← read_eth_address;
      withdrawal_id ← read_uint;
      mret (WithdrawalRequested resource sender amount recipient_l1 withdrawal_id)
  | 10 =>
      resource ← read_uint; recipient ← read_uint; amount ← read_amount; deposit_id ← read_uint;
      mret (DepositCredited resource recipient amount deposit_id)
  | 11 =>
      actor ← read_uint; policy ← read_byte_string;
      mret (LocalPolicyDeclared actor policy)
  | 12 =>
      actor ← read_uint;
      mret (LocalPolicyRevoked actor)
  | 13 =>
      game_id ← read_uint; challenger ← read_uint; disputed_start_idx ← read_uint; disputed_end_idx ← read_uint;
      binding_hash ← read_byte_string;
      mret (FaultProofGameOpened game_id challenger disputed_start_idx disputed_end_idx binding_hash)
  | 14 =>
      game_id ← read_uint; round ← read_uint; party ← read_uint; idx ← read_uint; commit ← read_byte_string;
      mret (FaultProofBisectionStep game_id round party idx commit)
  | 15 =>
      game_id ← read_uint; winner ← read_uint; loser ← read_uint; payout ← read_amount;
      mret (FaultProofGameSettled game_id winner loser payout)
  | 16 =>
      resource ← read_uint; recipient ← read_uint; pool_actor ← read_uint; user_amount ← read_amount;
      pool_amount ← read_amount; budget_grant ← read_budget_units; deposit_id ← read_uint;
      mret (DepositWithFeeCredited resource recipient pool_actor user_amount pool_amount budget_grant deposit_id)
  | 17 =>
      signer ← read_uint; gas_resource ← read_uint; gas_amount ← read_amount; budget_increment ←
      read_budget_units; pool_actor ← read_uint;
      mret (ActionBudgetTopUp signer gas_resource gas_amount budget_increment pool_actor)
  | 18 =>
      resource ← read_uint; sequencer ← read_uint; amount ← read_amount;
      mret (GasPoolClaim resource sequencer amount)
  | 19 =>
      recipient ← read_uint; signer ← read_uint; gas_resource ← read_uint; gas_amount ← read_amount;
      budget_increment ← read_budget_units; pool_actor ← read_uint;
      mret (DelegatedActionBudgetTopUp recipient signer gas_resource gas_amount budget_increment pool_actor)
  | 20 =>
      actor ← read_uint; amount ← read_budget_units;
      mret (BudgetConsumed actor amount)
  | 22 =>
      resource ← read_uint; amount ← read_amount; reserve_actor ← read_uint; pool_actor ← read_uint;
      mret (AmmReservesReclaimed resource amount reserve_actor pool_actor)
  | 23 =>
      from_resource ← read_uint; to_resource ← read_uint; user ← read_uint; amount_in ← read_amount; amount_out
      ← read_amount; reserve_actor ← read_uint;
      mret (ReserveSwapExecuted from_resource to_resource user amount_in amount_out reserve_actor)
  | 24 =>
      resource ← read_uint; amount ← read_amount; reserve_actor ← read_uint; deposit_id ← read_uint;
      mret (ReserveSeeded resource amount reserve_actor deposit_id)
  | other => fail (UnknownTag other)
  end.

Definition decode_event (payload : list u8) : result Event DecodeError :=
  let? (event, cur) := (tag ← read_uint; read_fields tag) (Cursor_new payload) in
  if decide (remaining cur ≠ 0%nat) then Err (TrailingBytes (remaining cur)) else Ok event.

(** ** The encoder *)

Definition write_uint (n : Z) : list u8 := CBE_TAG_UINT :: to_le_bytes 8 n.
Definition write_amount_head (n : Z) : list u8 := CBE_TAG_AMOUNT :: to_le_bytes AMOUNT_BYTES n.
Definition write_byte_string (payload : list u8) : list u8 :=
  CBE_TAG_BYTES :: to_le_bytes 8 (Z.of_nat (length payload)) ++ payload.
Definition write_amount (amount : Z) : list u8 := write_amount_head amount.
Definition write_budget_units (units : Z) : list u8 := write_uint (Z.land units u64_max).
Definition write_nonce (nonce : Z) : list u8 := write_uint (Z.land nonce u64_max).
Definition write_eth_address (addr : list u8) : list u8 := write_byte_string addr.

Inductive EncodeError : Type :=
| AmountExceedsBound (value : Z).

Definition write_nonce_checked (nonce : Z) : result (list u8) EncodeError :=
  if decide (2 ^ 64 ≤ nonce) then Err (AmountExceedsBound nonce) else Ok (write_uint nonce).
Definition write_budget_units_checked (units : Z) : result (list u8) EncodeError :=
  if decide (2 ^ 64 ≤ units) then Err (AmountExceedsBound units) else Ok (write_uint units).

Definition encode_fields (event : Event) : list u8 :=
  match event with
  | BalanceChanged resource actor old_value new_value =>
      write_uint resource ++ write_uint actor ++ write_amount old_value ++ write_amount new_value
  | NonceAdvanced actor old_nonce new_nonce =>
      write_uint actor ++ write_nonce old_nonce ++ write_nonce new_nonce
  | IdentityRegistered actor key =>
      write_uint actor ++ write_byte_string key
  | IdentityRevoked actor =>
      write_uint actor
  | TimeRecorded time =>
      write_uint time
  | DisputeFiled challenger target_idx =>
      write_uint challenger ++ write_uint target_idx
  | DisputeWithdrawn dispute_idx =>
      write_uint dispute_idx
  | VerdictApplied dispute_idx outcome_tag =>
      write_uint dispute_idx ++ write_uint outcome_tag
  | RewardIssued resource recipient amount =>
      write_uint resource ++ write_uint recipient ++ write_amount amount
  | WithdrawalRequested resource sender amount recipient_l1 withdrawal_id =>
      write_uint resource ++ write_uint sender ++ write_amount amount ++ write_eth_address recipient_l1 ++
      write_uint withdrawal_id
  | DepositCredited resource recipient amount deposit_id =>
      write_uint resource ++ write_uint recipient ++ write_amount amount ++ write_uint deposit_id
  | LocalPolicyDeclared actor policy =>
      write_uint actor ++ write_byte_string policy
  | LocalPolicyRevoked actor =>
      write_uint actor
  | FaultProofGameOpened game_id challenger disputed_start_idx disputed_end_idx binding_hash =>
      write_uint game_id ++ write_uint challenger ++ write_uint disputed_start_idx ++ write_uint
      disputed_end_idx ++ write_byte_string binding_hash
  | FaultProofBisectionStep game_id round party idx commit =>
      write_uint game_id ++ write_uint round ++ write_uint party ++ write_uint idx ++ write_byte_string commit
  | FaultProofGameSettled game_id winner loser payout =>
      write_uint game_id ++ write_uint winner ++ write_uint loser ++ write_amount payout
  | DepositWithFeeCredited resource recipient pool_actor user_amount pool_amount budget_grant deposit_id =>
      write_uint resource ++ write_uint recipient ++ write_uint pool_actor ++ write_amount user_amount ++
      write_amount pool_amount ++ write_budget_units budget_grant ++ write_uint deposit_id
  | ActionBudgetTopUp signer gas_resource gas_amount budget_increment pool_actor =>
      write_uint signer ++ write_uint gas_resource ++ write_amount gas_amount ++ write_budget_units
      budget_increment ++ write_uint pool_actor
  | GasPoolClaim resource sequencer amount =>
      write_uint resource ++ write_uint sequencer ++ write_amount amount
  | DelegatedActionBudgetTopUp recipient signer gas_resource gas_amount budget_increment pool_actor =>
      write_uint recipient ++ write_uint signer ++ write_uint gas_resource ++ write_amount gas_amount ++
      write_budget_units budget_increment ++ write_uint pool_actor
  | BudgetConsumed actor amount =>
      write_uint actor ++ write_budget_units amount
  | AmmReservesReclaimed resource amount reserve_actor pool_actor =>
      write_uint resource ++ write_amount amount ++ write_uint reserve_actor ++ write_uint pool_actor
  | ReserveSwapExecuted from_resource to_resource user amount_in amount_out reserve_actor =>
      write_uint from_resource ++ write_uint to_resource ++ write_uint user ++ write_amount amount_in ++
      write_amount amount_out ++ write_uint reserve_actor
  | ReserveSeeded resource amount reserve_actor deposit_id =>
      write_uint resource ++ write_amount amount ++ write_uint reserve_actor ++ write_uint deposit_id
  end.

Definition encode_event (event : Event) : list u8 := write_uint (tag event) ++ encode_fields event.

Definition encode_fields_checked (event : Event) : result (list u8) EncodeError :=
  match event with
  | BalanceChanged resource actor old_value new_value =>
      Ok (write_uint resource ++ write_uint actor ++ write_amount old_value ++ write_amount new_value)
  | NonceAdvanced actor old_nonce new_nonce =>
      let? b1 := write_nonce_checked old_nonce in let? b2 := write_nonce_checked new_nonce in Ok (write_uint
      actor ++ b1 ++ b2)
  | IdentityRegistered actor key =>
      Ok (write_uint actor ++ write_byte_string key)
  | IdentityRevoked actor =>
      Ok (write_uint actor)
  | TimeRecorded time =>
      Ok (write_uint time)
  | DisputeFiled challenger target_idx =>
      Ok (write_uint challenger ++ write_uint target_idx)
  | DisputeWithdrawn dispute_idx =>
      Ok (write_uint dispute_idx)
  | VerdictApplied dispute_idx outcome_tag =>
      Ok (write_uint dispute_idx ++ write_uint outcome_tag)
  | RewardIssued resource recipient amount =>
      Ok (write_uint resource ++ write_uint recipient ++ write_amount amount)
  | WithdrawalRequested resource sender amount recipient_l1 withdrawal_id =>
      Ok (write_uint resource ++ write_uint sender ++ write_amount amount ++ write_eth_address recipient_l1 ++
      write_uint withdrawal_id)
  | DepositCredited resource recipient amount deposit_id =>
      Ok (write_uint resource ++ write_uint recipient ++ write_amount amount ++ write_uint deposit_id)
  | LocalPolicyDeclared actor policy =>
      Ok (write_uint actor ++ write_byte_string policy)
  | LocalPolicyRevoked actor =>
      Ok (write_uint actor)
  | FaultProofGameOpened game_id challenger disputed_start_idx disputed_end_idx binding_hash =>
      Ok (write_uint game_id ++ write_uint challenger ++ write_uint disputed_start_idx ++ write_uint
      disputed_end_idx ++ write_byte_string binding_hash)
  | FaultProofBisectionStep game_id round party idx commit =>
      Ok (write_uint game_id ++ write_uint round ++ write_uint party ++ write_uint idx ++ write_byte_string commit)
  | FaultProofGameSettled game_id winner loser payout =>
      Ok (write_uint game_id ++ write_uint winner ++ write_uint loser ++ write_amount payout)
  | DepositWithFeeCredited resource recipient pool_actor user_amount pool_amount budget_grant deposit_id =>
      let? b5 := write_budget_units_checked budget_grant in Ok (write_uint resource ++ write_uint recipient ++
      write_uint pool_actor ++ write_amount user_amount ++ write_amount pool_amount ++ b5 ++ write_uint
      deposit_id)
  | ActionBudgetTopUp signer gas_resource gas_amount budget_increment pool_actor =>
      let? b3 := write_budget_units_checked budget_increment in Ok (write_uint signer ++ write_uint gas_resource
      ++ write_amount gas_amount ++ b3 ++ write_uint pool_actor)
  | GasPoolClaim resource sequencer amount =>
      Ok (write_uint resource ++ write_uint sequencer ++ write_amount amount)
  | DelegatedActionBudgetTopUp recipient signer gas_resource gas_amount budget_increment pool_actor =>
      let? b4 := write_budget_units_checked budget_increment in Ok (write_uint recipient ++ write_uint signer ++
      write_uint gas_resource ++ write_amount gas_amount ++ b4 ++ write_uint pool_actor)
  | BudgetConsumed actor amount =>
      let? b1 := write_budget_units_checked amount in Ok (write_uint actor ++ b1)
  | AmmReservesReclaimed resource amount reserve_actor pool_actor =>
      Ok (write_uint resource ++ write_amount amount ++ write_uint reserve_actor ++ write_uint pool_actor)
  | ReserveSwapExecuted from_resource to_resource user amount_in amount_out reserve_actor =>
      Ok (write_uint from_resource ++ write_uint to_resource ++ write_uint user ++ write_amount amount_in ++
      write_amount amount_out ++ write_uint reserve_actor)
  | ReserveSeeded resource amount reserve_actor deposit_id =>
      Ok (write_uint resource ++ write_amount amount ++ write_uint reserve_actor ++ write_uint deposit_id)
  end.

Definition encode_event_checked (event : Event) : result (list u8) EncodeError :=
  let? fields := encode_fields_checked event in Ok (write_uint (tag event) ++ fields).

Definition amount_to_be_bytes (amount : Z) : list u8 := to_be_bytes AMOUNT_BYTES amount.
Definition amount_from_be_bytes (bytes : list u8) : Z := from_be_bytes bytes.

(** ** The language of the decoder *)

(** A byte string the decoder takes. *)
Definition short (bs : list u8) : Prop := Z.of_nat (length bs) ≤ HARD_MAX_BYTE_STRING_LEN.

(** The events with a byte form. *)
Definition event_ok (event : Event) : Prop :=
  match event with
  | BalanceChanged resource actor old_value new_value => in_u64 resource ∧ in_u64 actor ∧ in_u256 old_value ∧
    in_u256 new_value
  | NonceAdvanced actor old_nonce new_nonce => in_u64 actor ∧ in_u64 old_nonce ∧ in_u64 new_nonce
  | IdentityRegistered actor key => in_u64 actor ∧ short key
  | IdentityRevoked actor => in_u64 actor
  | TimeRecorded time => in_u64 time
  | DisputeFiled challenger target_idx => in_u64 challenger ∧ in_u64 target_idx
  | DisputeWithdrawn dispute_idx => in_u64 dispute_idx
  | VerdictApplied dispute_idx outcome_tag => in_u64 dispute_idx ∧ in_u64 outcome_tag
  | RewardIssued resource recipient amount => in_u64 resource ∧ in_u64 recipient ∧ in_u256 amount
  | WithdrawalRequested resource sender amount recipient_l1 withdrawal_id => in_u64 resource ∧ in_u64 sender ∧
    in_u256 amount ∧ length recipient_l1 = 20%nat ∧ in_u64 withdrawal_id
  | DepositCredited resource recipient amount deposit_id => in_u64 resource ∧ in_u64 recipient ∧ in_u256 amount
    ∧ in_u64 deposit_id
  | LocalPolicyDeclared actor policy => in_u64 actor ∧ short policy
  | LocalPolicyRevoked actor => in_u64 actor
  | FaultProofGameOpened game_id challenger disputed_start_idx disputed_end_idx binding_hash => in_u64 game_id ∧
    in_u64 challenger ∧ in_u64 disputed_start_idx ∧ in_u64 disputed_end_idx ∧ short binding_hash
  | FaultProofBisectionStep game_id round party idx commit => in_u64 game_id ∧ in_u64 round ∧ in_u64 party ∧
    in_u64 idx ∧ short commit
  | FaultProofGameSettled game_id winner loser payout => in_u64 game_id ∧ in_u64 winner ∧ in_u64 loser ∧ in_u256
    payout
  | DepositWithFeeCredited resource recipient pool_actor user_amount pool_amount budget_grant deposit_id =>
    in_u64 resource ∧ in_u64 recipient ∧ in_u64 pool_actor ∧ in_u256 user_amount ∧ in_u256 pool_amount ∧ in_u64
    budget_grant ∧ in_u64 deposit_id
  | ActionBudgetTopUp signer gas_resource gas_amount budget_increment pool_actor => in_u64 signer ∧ in_u64
    gas_resource ∧ in_u256 gas_amount ∧ in_u64 budget_increment ∧ in_u64 pool_actor
  | GasPoolClaim resource sequencer amount => in_u64 resource ∧ in_u64 sequencer ∧ in_u256 amount
  | DelegatedActionBudgetTopUp recipient signer gas_resource gas_amount budget_increment pool_actor => in_u64
    recipient ∧ in_u64 signer ∧ in_u64 gas_resource ∧ in_u256 gas_amount ∧ in_u64 budget_increment ∧ in_u64
    pool_actor
  | BudgetConsumed actor amount => in_u64 actor ∧ in_u64 amount
  | AmmReservesReclaimed resource amount reserve_actor pool_actor => in_u64 resource ∧ in_u256 amount ∧ in_u64
    reserve_actor ∧ in_u64 pool_actor
  | ReserveSwapExecuted from_resource to_resource user amount_in amount_out reserve_actor => in_u64
    from_resource ∧ in_u64 to_resource ∧ in_u64 user ∧ in_u256 amount_in ∧ in_u256 amount_out ∧ in_u64
    reserve_actor
  | ReserveSeeded resource amount reserve_actor deposit_id => in_u64 resource ∧ in_u256 amount ∧ in_u64
    reserve_actor ∧ in_u64 deposit_id
  end.

(** A reader of values [a] with byte forms [e], wherever it stands. *)
Definition reads {A} (p : cursor A) (L : A → list u8 → Prop) : Prop :=
  ∀ c a c', p c = Ok (a, c') ↔
    ∃ e, L a e ∧ e `prefix_of` drop (offset c) (bytes c) ∧
         c' = {| bytes := bytes c; offset := offset c + length e |}.

Lemma reads_ext {A} (p : cursor A) L L' : (∀ a e, L a e ↔ L' a e) → reads p L → reads p L'.
Proof. intros HL Hp c a c'. rewrite (Hp c a c'). naive_solver. Qed.

Lemma parses_ret {A} (a0 : A) : reads (mret a0) (fun a e => a = a0 ∧ e = []).
Proof.
  intros [bs o] a c'. unfold mret, stateful_ret. split.
  - intros [= <- <-]. exists []. cbn. split_and!; try done; [apply prefix_nil|]. f_equal. lia.
  - intros (e & [-> ->] & _ & ->). cbn. do 3 f_equal. lia.
Qed.

Lemma reads_fail {A} err : reads (fail err : cursor A) (fun _ _ => False).
Proof. intros c a c'. split; [done|naive_solver]. Qed.

Lemma parses_bind {A B} (p : cursor A) (k : A → cursor B) L M :
  reads p L → (∀ a e, L a e → reads (k a) (M a)) →
  reads (p ≫= k) (fun b e => ∃ a e1 e2, L a e1 ∧ M a b e2 ∧ e = e1 ++ e2).
Proof.
  intros Hp Hk c b c''. rewrite stateful_bind_Ok. split.
  - intros (a & c' & (e1 & H1 & [l1 Hl1] & ->)%Hp & H). apply (Hk a e1 H1) in H as (e2 & H2 & [l2 Hl2] & ->). cbn in Hl2.
    exists (e1 ++ e2). split; [eauto 10|]. rewrite <- drop_drop, Hl1, drop_app_length in Hl2.
    split; [exists l2; by rewrite Hl1, Hl2, app_assoc|]. cbn. f_equal. rewrite length_app. lia.
  - intros (e & (a & e1 & e2 & H1 & H2 & ->) & [l Hl] & ->). rewrite <- app_assoc in Hl.
    eexists a, _. split; [apply Hp; exists e1; split_and!; [done|by exists (e2 ++ l)|done]|].
    apply (Hk a e1 H1). exists e2. split_and!; [done|exists l|]; cbn.
    + by rewrite <- drop_drop, Hl, drop_app_length.
    + f_equal. rewrite length_app. lia.
Qed.

Lemma reads_bytes n : 0 ≤ n → reads (read_bytes n) (fun a e => a = e ∧ Z.of_nat (length e) = n).
Proof.
  intros Hn c a c'. unfold read_bytes, remaining. split.
  - case_decide as Hd; [done|]. intros [= <- <-]. eexists. split_and!; [done|..].
    + rewrite length_take, length_drop. lia.
    + apply prefix_take.
    + f_equal. rewrite length_take, length_drop. lia.
  - intros (e & [-> Hl] & [l Hp] & ->).
    assert (Hle : length (drop (offset c) (bytes c)) = length (e ++ l)) by (by rewrite Hp).
    rewrite length_drop, length_app in Hle. rewrite decide_False by lia.
    rewrite Hp, <- Hl, Nat2Z.id, take_app_length. done.
Qed.

Lemma reads_offset {A} (k : nat → cursor A) L : (∀ o, reads (k o) L) → reads (get_offset ≫= k) L.
Proof. intros Hk c a c'. apply (Hk (offset c) c a c'). Qed.

Lemma reads_head : reads read_head_raw (fun '(t, n) e => in_u64 n ∧ e = t :: to_le_bytes 8 n).
Proof.
  eapply reads_ext; [|apply parses_bind; [by apply reads_bytes|]].
  2:{ intros buf _ _. instantiate (1 := fun buf b e => match buf with t :: le => b = (t, from_le_bytes le) | [] => b = (CBE_TAG_UINT, 0) end ∧ e = []).
      destruct buf; apply parses_ret. }
  intros [t n] e. split.
  - intros (buf & e1 & e2 & [-> Hl] & [Hb ->] & ->). destruct e1 as [|t' le]; [done|]. injection Hb as -> ->.
    assert (Hlen : length le = 8%nat) by (unfold HEAD_LEN in Hl; cbn in Hl; lia). split.
    + pose proof (from_le_bytes_bound le) as Hb. by rewrite Hlen in Hb.
    + rewrite <- Hlen, to_from_le_bytes. apply app_nil_r.
  - intros [Hn ->]. exists (t :: to_le_bytes 8 n), (t :: to_le_bytes 8 n), []. split_and!; try done.
    by rewrite from_to_le_bytes.
Qed.

(** A reader that checks the tag of a head, and then reads a body. *)
Lemma reads_tagged {A} (t0 : u8) (err : u8 → DecodeError) (body : Z → cursor A) M :
  (∀ n, in_u64 n → reads (body n) (M n)) →
  reads ('(t, n) ← read_head_raw; if decide (t ≠ t0) then fail (err t) else body n)
    (fun a e => ∃ n e2, in_u64 n ∧ M n a e2 ∧ e = t0 :: to_le_bytes 8 n ++ e2).
Proof.
  intros Hbody. eapply reads_ext; [|apply parses_bind; [apply reads_head|]].
  2:{ intros [t n] e [Hn _]. instantiate (1 := fun '(t, n) a e => t = t0 ∧ M n a e).
      cbn. case_decide as Ht.
      - eapply reads_ext; [|apply reads_fail]. naive_solver.
      - eapply reads_ext; [|by apply Hbody]. naive_solver. }
  intros a e. split.
  - intros ([t n] & e1 & e2 & [Hn ->] & [-> Hm] & ->). by exists n, e2.
  - intros (n & e2 & Hn & Hm & ->). by exists (t0, n), (t0 :: to_le_bytes 8 n), e2.
Qed.

Lemma reads_uint : reads read_uint (fun n e => in_u64 n ∧ e = write_uint n).
Proof.
  apply reads_offset. intros o. eapply reads_ext; [|apply reads_tagged; intros n _; apply parses_ret].
  intros a e. split.
  - intros (n & e2 & Hn & [-> ->] & ->). rewrite app_nil_r. done.
  - intros [Hn ->]. exists a, []. by rewrite app_nil_r.
Qed.

Lemma land_u64 n : in_u64 n → Z.land n u64_max = n.
Proof. intros Hn. change u64_max with (Z.ones 64). rewrite Z.land_ones by lia. apply Z.mod_small. done. Qed.

Lemma reads_nonce : reads read_nonce (fun n e => in_u64 n ∧ e = write_nonce n).
Proof. eapply reads_ext; [|apply reads_uint]. intros n e. unfold write_nonce. split; intros [? ->]; by rewrite land_u64. Qed.

Lemma reads_budget_units : reads read_budget_units (fun n e => in_u64 n ∧ e = write_budget_units n).
Proof. apply reads_nonce. Qed.

Lemma reads_amount : reads read_amount (fun n e => in_u256 n ∧ e = write_amount n).
Proof.
  apply reads_offset. intros o. eapply reads_ext; [|apply parses_bind; [by apply reads_bytes|]].
  2:{ intros buf e _. instantiate (1 := fun buf a e => (∃ le, buf = CBE_TAG_AMOUNT :: le ∧ a = from_le_bytes le ∧ e = []) ∨ (buf = [] ∧ a = 0 ∧ e = [])).
      destruct buf as [|t le]; [eapply reads_ext; [|apply parses_ret]; naive_solver|].
      case_decide; (eapply reads_ext; [|first [apply reads_fail|apply parses_ret]]); naive_solver. }
  intros a e. unfold write_amount, write_amount_head, AMOUNT_HEAD_LEN, AMOUNT_BYTES. split.
  - intros (buf & e1 & e2 & [-> Hl] & [(le & -> & -> & ->)|(-> & _ & _)] & ->); [|done].
    assert (Hlen : length le = 32%nat) by (cbn in Hl; lia). split.
    + pose proof (from_le_bytes_bound le) as Hb. by rewrite Hlen in Hb.
    + rewrite <- Hlen, to_from_le_bytes. apply app_nil_r.
  - intros [Ha ->]. exists (CBE_TAG_AMOUNT :: to_le_bytes 32 a), (CBE_TAG_AMOUNT :: to_le_bytes 32 a), [].
    split_and!; try done. left. eexists. split_and!; try done. by rewrite from_to_le_bytes.
Qed.

Lemma reads_byte_string : reads read_byte_string (fun bs e => short bs ∧ e = write_byte_string bs).
Proof.
  apply reads_offset. intros o.
  eapply reads_ext; [|apply reads_tagged; intros n [Hn _]].
  2:{ instantiate (1 := fun n a e => n ≤ HARD_MAX_BYTE_STRING_LEN ∧ a = e ∧ Z.of_nat (length e) = n). case_decide.
      - eapply reads_ext; [|apply reads_fail]. intros; split; [done|lia].
      - eapply reads_ext; [|by apply reads_bytes]. intros; split; [split; [lia|done]|naive_solver]. }
  intros a e. unfold short, write_byte_string. split.
  - intros (n & e2 & _ & (Hle & -> & <-) & ->). done.
  - intros [Hs ->]. exists (Z.of_nat (length a)), a. split_and!; try done.
    unfold in_width, HARD_MAX_BYTE_STRING_LEN in *. lia.
Qed.

Lemma reads_eth_address : reads read_eth_address (fun bs e => length bs = 20%nat ∧ e = write_eth_address bs).
Proof.
  apply reads_offset. intros o.
  eapply reads_ext; [|apply reads_tagged; intros n _].
  2:{ instantiate (1 := fun n a e => n = 20 ∧ a = e ∧ Z.of_nat (length e) = n). case_decide as Hd.
      - eapply reads_ext; [|apply reads_fail]. intros; split; [done|]. intros [-> _]. by apply Hd.
      - eapply reads_ext; [|by apply reads_bytes]. unfold ETH_ADDRESS_BYTES in *. intros; split; naive_solver lia. }
  intros a e. unfold write_eth_address, write_byte_string. split.
  - intros (n & e2 & _ & (-> & -> & Hl) & ->). split; [lia|]. by rewrite Hl.
  - intros [Hs ->]. exists 20, a. rewrite Hs. split_and!; try done; lia.
Qed.

Lemma reads_then {A B} (p : cursor A) (k : A → cursor B) (V : A → Prop) (enc : A → list u8) M :
  reads p (fun a e => V a ∧ e = enc a) → (∀ a, reads (k a) (M a)) →
  reads (p ≫= k) (fun b e => ∃ a e2, V a ∧ M a b e2 ∧ e = enc a ++ e2).
Proof. intros Hp Hk. eapply reads_ext; [|apply parses_bind; [exact Hp|intros a e _; apply Hk]]. naive_solver. Qed.

Lemma reads_last {A B} (p : cursor A) (f : A → B) (V : A → Prop) (enc : A → list u8) :
  reads p (fun a e => V a ∧ e = enc a) →
  reads (a ← p; mret (f a)) (fun b e => ∃ a, V a ∧ b = f a ∧ e = enc a).
Proof.
  intros Hp. eapply reads_ext; [|apply parses_bind; [exact Hp|intros a e _; apply parses_ret]].
  intros b e. split.
  - intros (a & e1 & e2 & [Ha ->] & [-> ->] & ->). rewrite app_nil_r. eauto.
  - intros (a & Ha & -> & ->). exists a, (enc a), []. by rewrite app_nil_r.
Qed.

Ltac read_field :=
  match goal with
  | |- reads read_uint _ => apply reads_uint
  | |- reads read_amount _ => apply reads_amount
  | |- reads read_nonce _ => apply reads_nonce
  | |- reads read_budget_units _ => apply reads_budget_units
  | |- reads read_byte_string _ => apply reads_byte_string
  | |- reads read_eth_address _ => apply reads_eth_address
  end.
Ltac read_event := first [eapply reads_last; read_field|eapply reads_then; [read_field|intros ?; cbv beta; read_event]].

Lemma read_fields_unknown t :
  t ∉ [0; 1; 2; 3; 4; 5; 6; 7; 8; 9; 10; 11; 12; 13; 14; 15; 16; 17; 18; 19; 20; 22; 23; 24] →
  read_fields t = fail (UnknownTag t).
Proof.
  intros Ht. destruct t as [|p|p]; [exfalso; set_solver| |done].
  do 5 (try destruct p as [p|p|]); try done; exfalso; set_solver.
Qed.

Ltac destruct_ex := repeat match goal with H : ∃ _, _ |- _ => destruct H | H : _ ∧ _ |- _ => destruct H end.

Lemma reads_fields t :
  reads (read_fields t) (fun ev e => tag ev = t ∧ event_ok ev ∧ e = encode_fields ev).
Proof.
  destruct (decide (t ∈ [0; 1; 2; 3; 4; 5; 6; 7; 8; 9; 10; 11; 12; 13; 14; 15; 16; 17; 18; 19; 20; 22; 23; 24])) as [Ht|Ht].
  2:{ rewrite read_fields_unknown by done. eapply reads_ext; [|apply reads_fail]. intros ev e. split; [done|].
      intros [<- _]. apply Ht. destruct ev; cbn; repeat constructor. }
  repeat (apply elem_of_cons in Ht as [->|Ht]); [..|by apply elem_of_nil in Ht];
    (eapply reads_ext; [|cbn [read_fields]; read_event]); intros ev e; split.
  all: try (intros H; destruct_ex; subst; cbn; split_and!; done).
  all: intros (Ht & Hok & ->); destruct ev; try discriminate Ht; cbn in Hok; destruct_and?.
  all: repeat match goal with |- ∃ _, _ => eexists | |- _ ∧ _ => split end.
  all: try match goal with |- @eq Event _ _ => reflexivity end.
  all: try match goal with |- _ = _ => reflexivity end; done.
Qed.

(** The fields that the type keeps in 128 bits and the wire in 64, in the order of
    the encoding. *)
Definition wide (event : Event) : list Z :=
  match event with
  | NonceAdvanced _ old_nonce new_nonce => [old_nonce; new_nonce]
  | DepositWithFeeCredited _ _ _ _ _ budget_grant _ => [budget_grant]
  | ActionBudgetTopUp _ _ _ budget_increment _ => [budget_increment]
  | DelegatedActionBudgetTopUp _ _ _ _ budget_increment _ => [budget_increment]
  | BudgetConsumed _ amount => [amount]
  | _ => []
  end.

Definition too_wide (n : Z) : bool := bool_decide (2 ^ 64 ≤ n).

(** The checking encoder refuses the first of them that does not fit. *)
Lemma encode_checked_spec event :
  Forall (fun n => 0 ≤ n) (wide event) →
  encode_event_checked event =
    match List.find too_wide (wide event) with
    | Some n => Err (AmountExceedsBound n)
    | None => Ok (encode_event event)
    end.
Proof.
  assert (Hn : ∀ n, 0 ≤ n → write_nonce_checked n =
    if too_wide n then Err (AmountExceedsBound n) else Ok (write_nonce n)).
  { intros n Hn. unfold write_nonce_checked, write_nonce, too_wide. case_bool_decide; case_decide; try done.
    by rewrite land_u64 by (split; lia). }
  assert (Hb : ∀ n, 0 ≤ n → write_budget_units_checked n =
    if too_wide n then Err (AmountExceedsBound n) else Ok (write_budget_units n)) by apply Hn.
  unfold encode_event_checked, encode_event. intros Hw.
  destruct event; cbn [wide encode_fields_checked encode_fields List.find] in *; decompose_Forall_hyps;
    rewrite ?Hn, ?Hb by done; repeat destruct (too_wide _); done.
Qed.

Lemma encode_checked_ok event : event_ok event → encode_event_checked event = Ok (encode_event event).
Proof.
  unfold encode_event_checked, encode_event. intros Hok.
  assert (Hn : ∀ n, in_u64 n → write_nonce_checked n = Ok (write_nonce n)).
  { intros n Hn. unfold write_nonce_checked, write_nonce. rewrite land_u64, decide_False; [done| |done].
    destruct Hn. lia. }
  assert (Hb : ∀ n, in_u64 n → write_budget_units_checked n = Ok (write_budget_units n)) by apply Hn.
  destruct event; cbn in *; try done; destruct_and?; rewrite ?Hn, ?Hb by done; done.
Qed.

Lemma decode_event_iff payload event :
  decode_event payload = Ok event ↔ event_ok event ∧ payload = encode_event event.
Proof.
  assert (H : reads (tag ← read_uint; read_fields tag)
    (fun ev e => ∃ t e2, in_u64 t ∧ (tag ev = t ∧ event_ok ev ∧ e2 = encode_fields ev) ∧ e = write_uint t ++ e2)).
  { apply reads_then; [apply reads_uint|apply reads_fields]. }
  unfold decode_event. rewrite result_bind_Ok. split.
  - intros ([ev c] & (e & (t & e2 & _ & (<- & Hok & ->) & ->) & [l Hl] & ->)%H & Hr). cbn [bytes offset Cursor_new] in Hl. revert Hr.
    rewrite guard_Ok. unfold remaining. cbn [bytes offset Cursor_new]. intros [Hrem [= <-]]. split; [done|].
    rewrite drop_0 in Hl. subst payload. unfold encode_event. rewrite !length_app in Hrem.
    destruct l; [by rewrite app_nil_r|]. cbn [length] in Hrem. lia.
  - intros [Hok ->]. eexists (event, _). split.
    + apply H. exists (encode_event event). split_and!; [|done|done].
      exists (tag event), (encode_fields event). split_and!; try done. destruct event; done.
    + unfold remaining. cbn [bytes offset Cursor_new]. rewrite decide_False by lia. done.
Qed.

(** C35: The decoder of events accepts exactly the encodings of the events whose
    fields are in range, and gives back the event: every constructor and field is
    read where the encoder wrote it, and no other bytes (a retired or unknown tag,
    a head of another kind, a byte too many or too few) decode.  On those events the
    checking encoder writes the same bytes; on any event it refuses, with its value,
    the first nonce or budget amount of 2^64 or more, and when there is none it
    writes what the encoder writes. *)
Theorem event_codec_exact payload event :
  (decode_event payload = Ok event ↔ event_ok event ∧ payload = encode_event event) ∧
  (event_ok event → encode_event_checked event = Ok (encode_event event)) ∧
  (Forall (fun n => 0 ≤ n) (wide event) →
    encode_event_checked event =
      match List.find too_wide (wide event) with
      | Some n => Err (AmountExceedsBound n)
      | None => Ok (encode_event event)
      end).
Proof.
  split; [apply decode_event_iff|]. split; [apply encode_checked_ok|apply encode_checked_spec].
Qed.

(** An event that comes back, and one that is refused although the encoder would
    cut its budget to 0. *)
Lemma event_codec_exact_witness :
  decode_event (encode_event (NonceAdvanced 5 7 8)) = Ok (NonceAdvanced 5 7 8) ∧
  encode_event_checked (BudgetConsumed 5 (2 ^ 64)) = Err (AmountExceedsBound (2 ^ 64)).
Proof.
  split.
  - destruct (event_codec_exact (encode_event (NonceAdvanced 5 7 8)) (NonceAdvanced 5 7 8)) as [H _].
    apply H. split; [|reflexivity]. repeat split; vm_compute; congruence.
  - destruct (event_codec_exact [] (BudgetConsumed 5 (2 ^ 64))) as (_ & _ & H).
    rewrite H; [reflexivity|]. repeat constructor; lia.
Defined.
