(* ===== verification/IndexStore.v ===== *)
(** * The indexer's database

    Models [src/runtime/knomosis-storage/src/combined_transaction.rs] and
    [budget_storage.rs], and the views the indexer keeps in the database:
    [src/runtime/knomosis-indexer/src/balance.rs], [cursor.rs] and the cells of
    [budget_view.rs].

    The engine is SQLite: a connection has the database on disk and, inside a
    transaction, the one it stages, which every statement then reads and writes.
    What a statement, a [COMMIT] or a [ROLLBACK] does under a fault is the world's
    choice ([SqlWorld]): a refused statement may or may not have rolled its
    transaction back, a commit that reports an error may have happened, and the
    process may die at any call.  [SqlWorldOk] is the one thing the code relies on:
    a rollback leaves no transaction open. *)

From Stdlib Require Import ZArith Lia.
From Stdlib Require Strings.String.
From stdpp Require Import base numbers list gmap.
From S2P Require Import Prelude IndexEvent.
Import String.StringSyntax.
Delimit Scope string_scope with string.

Local Open Scope Z_scope.

(** ** The engine *)

Inductive Table : Type :=
| TABLE_ACTOR_BUDGETS
| TABLE_ACTOR_BUDGETS_CURRENT_EPOCH_GRANTS
| TABLE_ACTOR_BUDGETS_CURRENT_EPOCH_CONSUMED
| TABLE_POOL_BALANCES_ETH
| TABLE_POOL_BALANCES_BOLD.

#[global] Instance Table_eq_dec : EqDecision Table.
Proof. solve_decision. Defined.

#[global] Instance Table_countable : Countable Table.
Proof.
  apply (inj_countable'
    (fun t => match t with
              | TABLE_ACTOR_BUDGETS => 0 | TABLE_ACTOR_BUDGETS_CURRENT_EPOCH_GRANTS => 1
              | TABLE_ACTOR_BUDGETS_CURRENT_EPOCH_CONSUMED => 2 | TABLE_POOL_BALANCES_ETH => 3
              | TABLE_POOL_BALANCES_BOLD => 4
              end%Z)
    (fun n => match n with
              | 0 => TABLE_ACTOR_BUDGETS | 1 => TABLE_ACTOR_BUDGETS_CURRENT_EPOCH_GRANTS
              | 2 => TABLE_ACTOR_BUDGETS_CURRENT_EPOCH_CONSUMED | 3 => TABLE_POOL_BALANCES_ETH
              | _ => TABLE_POOL_BALANCES_BOLD
              end%Z)).
  by intros [].
Defined.

(** The table [kv] and the rows of the five tables of counters. *)
Record Database : Type := {
  kv : gmap (list u8) (list u8);
  counters : gmap (Table * list u8) (list u8);
}.

Record Sqlite : Type := { disk : Database; open_tx : option Database }.

Definition view (s : Sqlite) : Database := default (disk s) (open_tx s).
Definition set_view (d : Database) (s : Sqlite) : Sqlite :=
  match open_tx s with
  | Some _ => {| disk := disk s; open_tx := Some d |}
  | None => {| disk := d; open_tx := None |}
  end.

(** A statement runs, is refused (and may take its transaction with it), or is
    the last thing the process does, and may then still have been applied. *)
Inductive fate : Type :=
| Ran
| Refused (rolled_back : bool)
| Killed (applied : bool).

(** A commit happens, whether or not it is reported; or it does not, and may leave
    the transaction open. *)
Inductive commit_fate : Type :=
| Committed (reported : bool)
| NotCommitted (still_open : bool)
| KilledCommitting (durable : bool).

Class SqlWorld (W : Type) : Type := {
  statement : W → fate * W;
  committing : W → commit_fate * W;
  rolling_back : W → fate * W;
}.

(** A rollback of an open transaction is not refused. *)
Class SqlWorldOk (W : Type) `{SqlWorld W} : Prop := {
  rollback_closes : ∀ w b, (rolling_back w).1 ≠ Refused b;
}.

(** An operation ends with an error, or with the process. *)
Inductive stop (E : Type) : Type :=
| Fails (e : E)
| Dies.
Arguments Fails {E} e.
Arguments Dies {E}.

Inductive StorageError : Type := Backend.

Inductive BudgetStorageError : Type :=
| BudgetStorage (e : StorageError)
| CorruptCounter (table : Table) (actor : Z) (expected : nat) (actual : nat)
| CounterOverflow (table : Table) (actor current delta : Z)
| DrainUnderflow (table : Table) (actor current delta : Z).

Inductive CombinedTransactionError : Type :=
| CombinedStorage (e : StorageError)
| CombinedBudget (e : BudgetStorageError).

Inductive BalanceError : Type :=
| BalanceStorage (e : StorageError)
| CreditOverflow (actor resource delta : Z)
| DebitUnderflow (actor resource current delta : Z)
| CorruptBalance (actor resource : Z) (expected actual : nat).

Inductive CursorError : Type :=
| CursorStorage (e : StorageError)
| NonMonotonicAdvance (current attempted : Z)
| CorruptCursor (expected actual : nat)
| IdentifierMismatch (expected found : list u8)
| IdentifierNotUtf8 (bytes_len : nat).

Section Engine.
Context {W : Type} `{SqlWorld W}.

Definition sql (E A : Type) : Type := Sqlite → W → result A (stop E) * Sqlite * W.

#[global] Instance sql_ret {E} : MRet (sql E) := fun A a s w => (Ok a, s, w).
#[global] Instance sql_bind {E} : MBind (sql E) := fun A B k m s w =>
  let '(r, s, w) := m s w in
  match r with Ok a => k a s w | Err e => (Err e, s, w) end.

Definition raise {E A} (e : E) : sql E A := fun s w => (Err (Fails e), s, w).

Definition map_err {E E' A} (f : E → E') (m : sql E A) : sql E' A := fun s w =>
  let '(r, s, w) := m s w in
  (match r with Ok a => Ok a | Err (Fails e) => Err (Fails (f e)) | Err Dies => Err Dies end, s, w).

(** The value of [r], an error that is returned. *)
Definition returns {E A} (r : result A E) : sql E A := fun s w =>
  (match r with Ok a => Ok a | Err e => Err (Fails e) end, s, w).

Definition execute {E A} (refused : E) (f : Database → A * Database) : sql E A := fun s w =>
  let '(ft, w) := statement w in
  match ft with
  | Ran => let '(a, d) := f (view s) in (Ok a, set_view d s, w)
  | Refused rolled_back =>
      (Err (Fails refused), if rolled_back : bool then {| disk := disk s; open_tx := None |} else s, w)
  | Killed applied => (Err Dies, if applied : bool then set_view (f (view s)).2 s else s, w)
  end.

(** A rollback, of which the result is ignored; outside a transaction it does
    nothing. *)
Definition roll_back {E} : sql E () := fun s w =>
  match open_tx s with
  | None => (Ok tt, s, w)
  | Some _ =>
      let '(ft, w) := rolling_back w in
      match ft with
      | Ran => (Ok tt, {| disk := disk s; open_tx := None |}, w)
      | Refused _ => (Ok tt, s, w)
      | Killed _ => (Err Dies, s, w)
      end
  end.

Definition begin_statement : sql CombinedTransactionError () := fun s w =>
  let '(ft, w) := statement w in
  match ft, open_tx s with
  | Ran, None => (Ok tt, {| disk := disk s; open_tx := Some (disk s) |}, w)
  | Killed _, _ => (Err Dies, s, w)
  | _, _ => (Err (Fails (CombinedStorage Backend)), s, w)
  end.

Definition begin_with : sql CombinedTransactionError () := _ ← roll_back; begin_statement.

(** The transaction ends with its handle: the destructor of one that is not
    finalised rolls back. *)
Definition finalise_commit : sql CombinedTransactionError () := fun s w =>
  let '(ft, w) := committing w in
  let staged := view s in
  let closed (d : Database) := {| disk := d; open_tx := None |} in
  match ft with
  | Committed true => (Ok tt, closed staged, w)
  | KilledCommitting durable => (Err Dies, closed (if durable : bool then staged else disk s), w)
  | Committed false => (Err (Fails (CombinedStorage Backend)), closed staged, w)
  | NotCommitted still_open =>
      let s := if still_open : bool then s else closed (disk s) in
      let '(r, s, w) := roll_back (E := CombinedTransactionError) s w in
      (match r with Ok _ => Err (Fails (CombinedStorage Backend)) | Err e => Err e end, s, w)
  end.

(** An explicit rollback reports its error; the destructor then tries again. *)
Definition finalise_rollback : sql CombinedTransactionError () := fun s w =>
  let '(ft, w) := rolling_back w in
  match ft with
  | Ran => (Ok tt, {| disk := disk s; open_tx := None |}, w)
  | Killed _ => (Err Dies, s, w)
  | Refused rolled_back =>
      let s := if rolled_back : bool then {| disk := disk s; open_tx := None |} else s in
      let '(r, s, w) := roll_back (E := CombinedTransactionError) s w in
      (match r with Ok _ => Err (Fails (CombinedStorage Backend)) | Err e => Err e end, s, w)
  end.

(** A block that runs in the transaction; its error drops the handle. *)
Definition dropping {E A} (m : sql E A) : sql E A := fun s w =>
  let '(r, s, w) := m s w in
  match r with
  | Err (Fails e) =>
      let '(r', s, w) := roll_back (E := E) s w in
      (match r' with Ok _ => Err (Fails e) | Err e' => Err e' end, s, w)
  | _ => (r, s, w)
  end.

(** ** Cells *)

Definition ACTOR_KEY_LEN : nat := 8.
Definition COUNTER_VALUE_LEN : nat := 32.

Definition actor_key (actor : Z) : list u8 := to_be_bytes ACTOR_KEY_LEN actor.
Definition parse_actor_key (key : list u8) : option Z :=
  if decide (length key ≠ ACTOR_KEY_LEN) then None else Some (from_be_bytes key).
Definition encode_counter (value : Z) : list u8 := to_be_bytes COUNTER_VALUE_LEN value.
Definition decode_counter (bytes : list u8) : option Z :=
  if decide (length bytes = COUNTER_VALUE_LEN) then Some (from_be_bytes bytes) else None.

Definition kv_get (key : list u8) : sql CombinedTransactionError (option (list u8)) :=
  execute (CombinedStorage Backend) (fun d => (kv d !! key, d)).
Definition put_row (key value : list u8) (d : Database) : Database :=
  {| kv := <[key := value]> (kv d); counters := counters d |}.
Definition kv_put (key value : list u8) : sql CombinedTransactionError () :=
  execute (CombinedStorage Backend) (fun d => (tt, put_row key value d)).
Definition kv_delete (key : list u8) : sql CombinedTransactionError () :=
  execute (CombinedStorage Backend) (fun d => (tt, {| kv := delete key (kv d); counters := counters d |})).

Definition decode_row (table : Table) (actor : Z) (row : option (list u8)) : result Z BudgetStorageError :=
  match row with
  | None => Ok 0
  | Some bytes => ok_or (decode_counter bytes) (CorruptCounter table actor COUNTER_VALUE_LEN (length bytes))
  end.

Definition read_cell (table : Table) (actor : Z) : sql BudgetStorageError Z :=
  row ← execute (BudgetStorage Backend) (fun d => (counters d !! (table, actor_key actor), d));
  returns (decode_row table actor row).

Definition put_counter (table : Table) (actor value : Z) (d : Database) : Database :=
  {| kv := kv d; counters := <[(table, actor_key actor) := encode_counter value]> (counters d) |}.

Definition checked_credit (table : Table) (actor delta : Z) : sql BudgetStorageError Z :=
  current ← read_cell table actor;
  new_value ← returns (ok_or (checked_add 256 current delta) (CounterOverflow table actor current delta));
  _ ← execute (BudgetStorage Backend) (fun d => (tt, put_counter table actor new_value d));
  mret new_value.

Definition checked_debit (table : Table) (actor delta : Z) : sql BudgetStorageError Z :=
  current ← read_cell table actor;
  new_value ← returns (ok_or (checked_sub current delta) (DrainUnderflow table actor current delta));
  _ ← execute (BudgetStorage Backend) (fun d => (tt, put_counter table actor new_value d));
  mret new_value.

Definition clear_table (table : Table) (d : Database) : Database :=
  {| kv := kv d; counters := filter (fun row => row.1.1 ≠ table) (counters d) |}.

Definition reset_current_epoch : sql CombinedTransactionError () :=
  _ ← execute (CombinedStorage Backend) (fun d => (tt, clear_table TABLE_ACTOR_BUDGETS_CURRENT_EPOCH_GRANTS d));
  execute (CombinedStorage Backend) (fun d => (tt, clear_table TABLE_ACTOR_BUDGETS_CURRENT_EPOCH_CONSUMED d)).

Definition get_actor_budget (actor : Z) : sql CombinedTransactionError Z :=
  map_err CombinedBudget (read_cell TABLE_ACTOR_BUDGETS actor).
Definition get_actor_budget_current_epoch_grants (actor : Z) : sql CombinedTransactionError Z :=
  map_err CombinedBudget (read_cell TABLE_ACTOR_BUDGETS_CURRENT_EPOCH_GRANTS actor).
Definition get_actor_budget_current_epoch_consumed (actor : Z) : sql CombinedTransactionError Z :=
  map_err CombinedBudget (read_cell TABLE_ACTOR_BUDGETS_CURRENT_EPOCH_CONSUMED actor).
Definition get_pool_eth (pool_actor : Z) : sql CombinedTransactionError Z :=
  map_err CombinedBudget (read_cell TABLE_POOL_BALANCES_ETH pool_actor).
Definition get_pool_bold (pool_actor : Z) : sql CombinedTransactionError Z :=
  map_err CombinedBudget (read_cell TABLE_POOL_BALANCES_BOLD pool_actor).

Definition credit_actor_budget (actor delta : Z) : sql CombinedTransactionError Z :=
  map_err CombinedBudget (checked_credit TABLE_ACTOR_BUDGETS actor delta).
Definition credit_actor_budget_current_epoch_grants (actor delta : Z) : sql CombinedTransactionError Z :=
  map_err CombinedBudget (checked_credit TABLE_ACTOR_BUDGETS_CURRENT_EPOCH_GRANTS actor delta).
Definition credit_actor_budget_current_epoch_consumed (actor delta : Z) : sql CombinedTransactionError Z :=
  map_err CombinedBudget (checked_credit TABLE_ACTOR_BUDGETS_CURRENT_EPOCH_CONSUMED actor delta).
Definition credit_pool_eth (pool_actor delta : Z) : sql CombinedTransactionError Z :=
  map_err CombinedBudget (checked_credit TABLE_POOL_BALANCES_ETH pool_actor delta).
Definition credit_pool_bold (pool_actor delta : Z) : sql CombinedTransactionError Z :=
  map_err CombinedBudget (checked_credit TABLE_POOL_BALANCES_BOLD pool_actor delta).
Definition debit_pool_eth (pool_actor delta : Z) : sql CombinedTransactionError Z :=
  map_err CombinedBudget (checked_debit TABLE_POOL_BALANCES_ETH pool_actor delta).
Definition debit_pool_bold (pool_actor delta : Z) : sql CombinedTransactionError Z :=
  map_err CombinedBudget (checked_debit TABLE_POOL_BALANCES_BOLD pool_actor delta).

(** *** Balances ([balance.rs]) *)

Definition BALANCE_KEY_PREFIX : list u8 := String.list_byte_of_string "b/"%string.
Definition BALANCE_KEY_LEN : nat := 2 + 8 + 8.
Definition BALANCE_VALUE_LEN : nat := 32.

Definition balance_key (actor resource : Z) : list u8 :=
  BALANCE_KEY_PREFIX ++ to_be_bytes 8 actor ++ to_be_bytes 8 resource.

Definition parse_balance_key (key : list u8) : option (Z * Z) :=
  if decide (length key ≠ BALANCE_KEY_LEN) then None
  else if decide (take 2 key ≠ BALANCE_KEY_PREFIX) then None
  else Some (from_be_bytes (take 8 (drop 2 key)), from_be_bytes (drop 10 key)).

Definition decode_cell (actor resource : Z) (cell : option (list u8)) : result Z BalanceError :=
  match cell with
  | None => Ok 0
  | Some bytes =>
      if decide (length bytes = BALANCE_VALUE_LEN) then Ok (amount_from_be_bytes bytes)
      else Err (CorruptBalance actor resource BALANCE_VALUE_LEN (length bytes))
  end.

(** [Storage::get] and [Storage::put], of the storage or of a transaction. *)
Definition storage_get {E} (refused : StorageError → E) (key : list u8) : sql E (option (list u8)) :=
  execute (refused Backend) (fun d => (kv d !! key, d)).
Definition storage_put {E} (refused : StorageError → E) (key value : list u8) : sql E () :=
  execute (refused Backend) (fun d => (tt, put_row key value d)).

Definition BalanceView_get (actor resource : Z) : sql BalanceError Z :=
  cell ← storage_get BalanceStorage (balance_key actor resource);
  returns (decode_cell actor resource cell).

Definition BalanceView_set (actor resource value : Z) : sql BalanceError () :=
  storage_put BalanceStorage (balance_key actor resource) (amount_to_be_bytes value).

Definition BalanceView_credit (actor resource delta : Z) : sql BalanceError Z :=
  current ← BalanceView_get actor resource;
  match checked_add 256 current delta with
  | Some sum => _ ← BalanceView_set actor resource sum; mret sum
  | None => raise (CreditOverflow actor resource delta)
  end.

Definition BalanceView_debit (actor resource delta : Z) : sql BalanceError Z :=
  current ← BalanceView_get actor resource;
  match checked_sub current delta with
  | Some diff => _ ← BalanceView_set actor resource diff; mret diff
  | None => raise (DebitUnderflow actor resource current delta)
  end.

(** *** The cursor and the identifier ([cursor.rs]) *)

Definition CURSOR_KEY : list u8 := String.list_byte_of_string "c/cursor"%string.
Definition IDENTIFIER_KEY : list u8 := String.list_byte_of_string "c/identifier"%string.
Definition CURSOR_VALUE_LEN : nat := 8.

Definition decode_cursor (cell : option (list u8)) : result Z CursorError :=
  match cell with
  | None => Ok 0
  | Some bytes =>
      if decide (length bytes = CURSOR_VALUE_LEN) then Ok (from_be_bytes bytes)
      else Err (CorruptCursor CURSOR_VALUE_LEN (length bytes))
  end.

Definition read_cursor : sql CursorError Z :=
  cell ← storage_get CursorStorage CURSOR_KEY;
  returns (decode_cursor cell).

Definition write_cursor (value : Z) : sql CursorError () :=
  storage_put CursorStorage CURSOR_KEY (to_be_bytes 8 value).

Definition advance_cursor (new_value : Z) : sql CursorError () :=
  current ← read_cursor;
  if decide (new_value < current) then raise (NonMonotonicAdvance current new_value)
  else write_cursor new_value.

(** [std::str::from_utf8]. *)
Definition continuation (b : u8) : bool := (128 <=? byte_val b) && (byte_val b <=? 191).
Fixpoint valid_utf8 (bs : list u8) : bool :=
  match bs with
  | [] => true
  | b :: bs =>
      let x := byte_val b in
      if x <=? 127 then valid_utf8 bs
      else if (194 <=? x) && (x <=? 223) then
        match bs with c :: bs => continuation c && valid_utf8 bs | _ => false end
      else if (224 <=? x) && (x <=? 239) then
        match bs with
        | c :: d :: bs =>
            continuation c && continuation d && (if x =? 224 then 160 <=? byte_val c else true) &&
            (if x =? 237 then byte_val c <=? 159 else true) && valid_utf8 bs
        | _ => false
        end
      else if (240 <=? x) && (x <=? 244) then
        match bs with
        | c :: d :: e :: bs =>
            continuation c && continuation d && continuation e && (if x =? 240 then 144 <=? byte_val c else true) &&
            (if x =? 244 then byte_val c <=? 143 else true) && valid_utf8 bs
        | _ => false
        end
      else false
  end.

Definition check_identifier (expected bytes : list u8) : sql CursorError () :=
  if negb (valid_utf8 bytes) then raise (IdentifierNotUtf8 (length bytes))
  else if decide (bytes = expected) then mret tt
  else raise (IdentifierMismatch expected bytes).

Definition ensure_identifier (expected : list u8) : sql CursorError () :=
  cell ← storage_get CursorStorage IDENTIFIER_KEY;
  match cell with
  | None => storage_put CursorStorage IDENTIFIER_KEY expected
  | Some bytes => check_identifier expected bytes
  end.

Definition verify_identifier (expected : list u8) : sql CursorError () :=
  cell ← storage_get CursorStorage IDENTIFIER_KEY;
  match cell with
  | None => raise (IdentifierMismatch expected (String.list_byte_of_string "(absent)"%string))
  | Some bytes => check_identifier expected bytes
  end.

(** *** The epoch ([budget_view.rs]) *)

Definition CURRENT_EPOCH_KEY : list u8 := String.list_byte_of_string "c/current_epoch"%string.
Definition CURRENT_EPOCH_VALUE_LEN : nat := 8.

Definition decode_epoch (cell : option (list u8)) : Z :=
  match cell with
  | Some bytes => if decide (length bytes = CURRENT_EPOCH_VALUE_LEN) then from_be_bytes bytes else 0
  | None => 0
  end.

Definition read_current_epoch : sql CombinedTransactionError Z :=
  cell ← kv_get CURRENT_EPOCH_KEY; mret (decode_epoch cell).
Definition write_current_epoch (epoch : Z) : sql CombinedTransactionError () :=
  kv_put CURRENT_EPOCH_KEY (to_be_bytes 8 epoch).

(** *** Reads for the queries ([BudgetReadView]) *)

Definition combined_to_budget_err (e : CombinedTransactionError) : BudgetStorageError :=
  match e with CombinedBudget b => b | CombinedStorage e => BudgetStorage e end.

(** The two cells are read in one transaction, which is rolled back. *)
Definition remaining_this_epoch (actor free_tier : Z) : sql BudgetStorageError Z :=
  _ ← map_err combined_to_budget_err begin_with;
  '(grants, consumed) ← dropping (
    grants ← map_err combined_to_budget_err (get_actor_budget_current_epoch_grants actor);
    consumed ← map_err combined_to_budget_err (get_actor_budget_current_epoch_consumed actor);
    mret (grants, consumed));
  _ ← map_err combined_to_budget_err finalise_rollback;
  mret (saturating_sub (saturating_add 256 free_tier grants) consumed).
End Engine.
