(* ===== verification/Indexer.v ===== *)
(** * The indexer

    Models [src/runtime/knomosis-indexer/src/indexer.rs], the dispatch of
    [budget_view.rs], the stream consumer of [daemon.rs] and the loop [run_daemon]
    of [main.rs].

    A batch is applied in one transaction, whose last statement advances the
    cursor.  The consumer commits a batch when the first event of the next one
    arrives, and discards what it holds when the stream ends in any other way.
    [daemon_loop] makes a number of rounds that the caller chooses, each with a
    connection that the world provides; [lifetime] runs the process again after it
    has ended or died, over the same database. *)

From Stdlib Require Import ZArith Lia.
From Stdlib Require Strings.String.
From stdpp Require Import base numbers list gmap.
From S2P Require Import Prelude Frame EventWire IndexEvent IndexStore.
Import String.StringSyntax.
Delimit Scope string_scope with string.

Local Open Scope Z_scope.

Definition INDEXER_MAX_BATCH_EVENTS : nat := 1024.
Definition INDEXER_MAX_BATCH_BYTES : Z := 8 * 1024 * 1024.
Definition INDEXER_IDENTIFIER : list u8 := String.list_byte_of_string "knomosis-indexer/v1"%string.

Inductive IndexerError : Type :=
| IndexStorage (e : StorageError)
| IndexBalance (e : BalanceError)
| IndexBudgetView (e : CombinedTransactionError)
| IndexCursor (e : CursorError)
| IndexDecode (seq : Z) (source : DecodeError)
| EmptyBatch
| BatchTooLarge (size max : nat)
| StaleEvent (seq cursor : Z)
| ProtocolViolation (current_seq offending_seq : Z)
| CommitAmbiguous (seq disk_cursor : Z)
| CursorRecoveryFailed (seq : Z) (commit_error : CombinedTransactionError) (cursor_error : CursorError)
| IndexPoisoned.

Record Indexer : Type := {
  cursor_value : Z;
  poisoned : bool;
  gas_pool_actor : option Z;
  epoch_length : Z;
}.

Definition set_cursor (c : Z) (self : Indexer) : Indexer :=
  {| cursor_value := c; poisoned := poisoned self; gas_pool_actor := gas_pool_actor self;
     epoch_length := epoch_length self |}.
Definition poison (self : Indexer) : Indexer :=
  {| cursor_value := cursor_value self; poisoned := true; gas_pool_actor := gas_pool_actor self;
     epoch_length := epoch_length self |}.

Definition map_combined_err (e : CombinedTransactionError) : IndexerError :=
  match e with
  | CombinedStorage s => IndexStorage s
  | CombinedBudget b => IndexBudgetView (CombinedBudget b)
  end.

Section Indexer.
Context {W : Type} `{SqlWorld W}.

Abbreviation indexing := (sql (W := W) IndexerError).

Definition open_with_config (gas_pool_actor : option Z) (epoch_length : Z) : indexing Indexer :=
  _ ← map_err IndexCursor (ensure_identifier INDEXER_IDENTIFIER);
  cursor ← map_err IndexCursor read_cursor;
  mret {| cursor_value := cursor; poisoned := false; gas_pool_actor := gas_pool_actor;
          epoch_length := epoch_length |}.

(** ** The budget views *)

Definition epoch_for_seq (seq epoch_length : Z) : Z :=
  match checked_div (saturating_sub seq 1) epoch_length with Some epoch => epoch | None => 0 end.

Definition dispatch_epoch_if_crossed (seq epoch_length : Z) : sql (W := W) CombinedTransactionError bool :=
  let new_epoch := epoch_for_seq seq epoch_length in
  persisted_epoch ← read_current_epoch;
  if decide (new_epoch = persisted_epoch) then mret false else
  _ ← reset_current_epoch;
  _ ← write_current_epoch new_epoch;
  mret true.

Definition credit_pool_inflow (resource pool_actor amount : Z) : sql (W := W) CombinedTransactionError () :=
  if decide (resource = RESOURCE_ID_ETH) then _ ← credit_pool_eth pool_actor amount; mret tt
  else if decide (resource = RESOURCE_ID_BOLD) then _ ← credit_pool_bold pool_actor amount; mret tt
  else mret tt.

Definition drain_pool (resource pool_actor amount : Z) : sql (W := W) CombinedTransactionError () :=
  if decide (resource = RESOURCE_ID_ETH) then _ ← debit_pool_eth pool_actor amount; mret tt
  else if decide (resource = RESOURCE_ID_BOLD) then _ ← debit_pool_bold pool_actor amount; mret tt
  else mret tt.

Definition dispatch_event (gas_pool_actor : option Z) (event : Event) : sql (W := W) CombinedTransactionError () :=
  match event with
  | DepositWithFeeCredited resource recipient pool_actor _ pool_amount budget_grant _ =>
      _ ← credit_actor_budget recipient budget_grant;
      _ ← credit_actor_budget_current_epoch_grants recipient budget_grant;
      credit_pool_inflow resource pool_actor pool_amount
  | ActionBudgetTopUp signer gas_resource gas_amount budget_increment pool_actor =>
      _ ← credit_actor_budget signer budget_increment;
      _ ← credit_actor_budget_current_epoch_grants signer budget_increment;
      credit_pool_inflow gas_resource pool_actor gas_amount
  | DelegatedActionBudgetTopUp recipient _ gas_resource gas_amount budget_increment pool_actor =>
      _ ← credit_actor_budget recipient budget_increment;
      _ ← credit_actor_budget_current_epoch_grants recipient budget_increment;
      credit_pool_inflow gas_resource pool_actor gas_amount
  | GasPoolClaim resource _ amount =>
      match gas_pool_actor with
      | Some pool_actor => drain_pool resource pool_actor amount
      | None => mret tt
      end
  | BudgetConsumed actor amount =>
      _ ← credit_actor_budget_current_epoch_consumed actor amount; mret tt
  | _ => mret tt
  end.

(** ** The balance view *)

Definition balance_get (actor resource : Z) : indexing Z :=
  cell ← map_err map_combined_err (kv_get (balance_key actor resource));
  map_err IndexBalance (returns (decode_cell actor resource cell)).

Definition balance_set (actor resource value : Z) : indexing () :=
  map_err map_combined_err (kv_put (balance_key actor resource) (amount_to_be_bytes value)).

Definition balance_credit (actor resource delta : Z) : indexing Z :=
  current ← balance_get actor resource;
  match checked_add 256 current delta with
  | Some sum => _ ← balance_set actor resource sum; mret sum
  | None =>
      _ ← balance_set actor resource (2 ^ 256 - 1);
      raise (IndexBalance (CreditOverflow actor resource delta))
  end.

Definition balance_debit (actor resource delta : Z) : indexing Z :=
  current ← balance_get actor resource;
  match checked_sub current delta with
  | Some diff => _ ← balance_set actor resource diff; mret diff
  | None => raise (IndexBalance (DebitUnderflow actor resource current delta))
  end.

Definition bc_pairs (events : list Event) : list (Z * Z) :=
  omap (fun e => match e with BalanceChanged resource actor _ _ => Some (actor, resource) | _ => None end) events.

Definition apply_balance_semantic_event (pairs : list (Z * Z)) (event : Event) : indexing () :=
  match event with
  | WithdrawalRequested resource sender amount _ _ =>
      if decide ((sender, resource) ∈ pairs) then mret tt
      else _ ← balance_debit sender resource amount; mret tt
  | RewardIssued resource recipient amount | DepositCredited resource recipient amount _ =>
      if decide ((recipient, resource) ∈ pairs) then mret tt
      else _ ← balance_credit recipient resource amount; mret tt
  | _ => mret tt
  end.

Definition apply_balance_changed (event : Event) : indexing () :=
  match event with
  | BalanceChanged resource actor _ new_value => balance_set actor resource new_value
  | _ => mret tt
  end.

Definition advance_cursor_via_combined (in_memory_cursor new_value : Z) : indexing () :=
  cell ← map_err map_combined_err (kv_get CURSOR_KEY);
  on_disk_cursor ← map_err IndexCursor (returns (decode_cursor cell));
  let current := Z.max on_disk_cursor in_memory_cursor in
  if decide (new_value ≤ current) then raise (IndexCursor (NonMonotonicAdvance current new_value))
  else map_err map_combined_err (kv_put CURSOR_KEY (to_be_bytes 8 new_value)).

(** [for x in xs { f(x)?; }]. *)
Fixpoint each {E A} (f : A → sql (W := W) E ()) (xs : list A) : sql E () :=
  match xs with
  | [] => mret tt
  | x :: xs => _ ← f x; each f xs
  end.

(** ** Batches *)

(** The passes of a batch, inside its transaction. *)
Definition apply_passes (self : Indexer) (seq : Z) (events : list Event) : indexing () :=
  _ ← map_err IndexBudgetView (dispatch_epoch_if_crossed seq (epoch_length self));
  _ ← each (apply_balance_semantic_event (bc_pairs events)) events;
  _ ← each apply_balance_changed events;
  _ ← map_err IndexBudgetView (each (dispatch_event (gas_pool_actor self)) events);
  advance_cursor_via_combined (cursor_value self) seq.

(** A method of the indexer. *)
Definition method (A : Type) : Type :=
  Indexer → Sqlite → W → result A (stop IndexerError) * Indexer * Sqlite * W.

(** After a commit that failed, the cursor is read again. *)
Definition recover_cursor (seq : Z) (commit_err : CombinedTransactionError) : method () := fun self s w =>
  match read_cursor s w with
  | (Ok disk_cursor, s, w) =>
      (Err (Fails (if decide (seq ≤ disk_cursor) then CommitAmbiguous seq disk_cursor
                   else map_combined_err commit_err)), set_cursor disk_cursor self, s, w)
  | (Err (Fails cursor_err), s, w) =>
      (Err (Fails (CursorRecoveryFailed seq commit_err cursor_err)), poison self, s, w)
  | (Err Dies, s, w) => (Err Dies, self, s, w)
  end.

Definition apply_batch (seq : Z) (events : list Event) : method () := fun self s w =>
  if poisoned self then (Err (Fails IndexPoisoned), self, s, w)
  else if decide (events = []) then (Err (Fails EmptyBatch), self, s, w)
  else if decide (INDEXER_MAX_BATCH_EVENTS < length events)%nat
  then (Err (Fails (BatchTooLarge (length events) INDEXER_MAX_BATCH_EVENTS)), self, s, w)
  else if decide (seq ≤ cursor_value self)
  then (Err (Fails (StaleEvent seq (cursor_value self))), self, s, w)
  else
    match (_ ← map_err map_combined_err begin_with; dropping (apply_passes self seq events)) s w with
    | (Err e, s, w) => (Err e, self, s, w)
    | (Ok _, s, w) =>
        match finalise_commit s w with
        | (Ok _, s, w) => (Ok tt, set_cursor seq self, s, w)
        | (Err Dies, s, w) => (Err Dies, self, s, w)
        | (Err (Fails commit_err), s, w) => recover_cursor seq commit_err self s w
        end
    end.

Definition reload_cursor : method () := fun self s w =>
  match map_err IndexCursor read_cursor s w with
  | (Ok c, s, w) => (Ok tt, set_cursor c self, s, w)
  | (Err e, s, w) => (Err e, self, s, w)
  end.

(** ** The stream ([daemon.rs]) *)

Inductive ConsumeOutcome : Type :=
| CleanEof
| ServerShutdown (last_seq : Z)
| LagExceeded (last_seq : Z)
| HistoryTruncated (oldest_seq : Z)
| InvalidRequest
| ConsumeClientError (e : ClientError)
| ConsumeIndexerError (e : IndexerError).

(** A session has an outcome, or is still running, or took the process with it. *)
Inductive session : Type :=
| Ends (o : ConsumeOutcome)
| Running
| Dead.

(** The batch of the number [current_seq] as it arrives. *)
Record InFlight : Type := { current_seq : Z; batch_bytes : Z; batch : list Event }.

(** The outcome of a frame that is not an event. *)
Definition terminal_outcome (frame : ServerFrame) : ConsumeOutcome :=
  match frame with
  | ServerShutdownFrame last_delivered_seq => ServerShutdown last_delivered_seq
  | LagExceededFrame last_delivered_seq => LagExceeded last_delivered_seq
  | TruncatedFrame oldest_available_seq => HistoryTruncated oldest_available_seq
  | _ => InvalidRequest
  end.

(** An event of the batch in flight. *)
Definition accumulate (b : InFlight) (payload : list u8) : result InFlight IndexerError :=
  if decide (INDEXER_MAX_BATCH_EVENTS ≤ length (batch b))%nat
  then Err (BatchTooLarge (length (batch b) + 1) INDEXER_MAX_BATCH_EVENTS) else
  let next_bytes := saturating_add 64 (batch_bytes b) (Z.of_nat (length payload)) in
  if decide (INDEXER_MAX_BATCH_BYTES < next_bytes)
  then Err (BatchTooLarge (length (batch b) + 1) INDEXER_MAX_BATCH_EVENTS) else
  match decode_event payload with
  | Ok e => Ok {| current_seq := current_seq b; batch_bytes := next_bytes; batch := batch b ++ [e] |}
  | Err e => Err (IndexDecode (current_seq b) e)
  end.

(** The first event of a batch. *)
Definition start_batch (seq : Z) (payload : list u8) : result InFlight IndexerError :=
  match decode_event payload with
  | Ok e => Ok {| current_seq := seq; batch_bytes := Z.of_nat (length payload); batch := [e] |}
  | Err e => Err (IndexDecode seq e)
  end.

Fixpoint consume_batched (fuel : nat) (b : InFlight) (client : SubscribeClient) (self : Indexer) (s : Sqlite) (w : W)
    : session * Indexer * Sqlite * W :=
  match fuel with
  | O => (Running, self, s, w)
  | S fuel =>
      let '(r, client) := client_read_frame client in
      match r with
      | Err ClientEof => (Ends CleanEof, self, s, w)
      | Err e => (Ends (ConsumeClientError e), self, s, w)
      | Ok (EventFrame seq payload) =>
          match seq ?= current_seq b with
          | Eq =>
              match accumulate b payload with
              | Ok b => consume_batched fuel b client self s w
              | Err e => (Ends (ConsumeIndexerError e), self, s, w)
              end
          | Gt =>
              match apply_batch (current_seq b) (batch b) self s w with
              | (Err (Fails e), self, s, w) => (Ends (ConsumeIndexerError e), self, s, w)
              | (Err Dies, self, s, w) => (Dead, self, s, w)
              | (Ok _, self, s, w) =>
                  match start_batch seq payload with
                  | Ok b => consume_batched fuel b client self s w
                  | Err e => (Ends (ConsumeIndexerError e), self, s, w)
                  end
              end
          | Lt => (Ends (ConsumeIndexerError (ProtocolViolation (current_seq b) seq)), self, s, w)
          end
      | Ok frame => (Ends (terminal_outcome frame), self, s, w)
      end
  end.

Definition consume_stream (fuel : nat) (client : SubscribeClient) (self : Indexer) (s : Sqlite) (w : W)
    : session * Indexer * Sqlite * W :=
  let '(r, client) := client_read_frame client in
  match r with
  | Err ClientEof => (Ends CleanEof, self, s, w)
  | Err e => (Ends (ConsumeClientError e), self, s, w)
  | Ok (EventFrame seq payload) =>
      if decide (seq = 0) then (Ends (ConsumeIndexerError (ProtocolViolation 0 0)), self, s, w) else
      match start_batch seq payload with
      | Ok b => consume_batched fuel b client self s w
      | Err e => (Ends (ConsumeIndexerError e), self, s, w)
      end
  | Ok frame => (Ends (terminal_outcome frame), self, s, w)
  end.
End Indexer.

(** ** The daemon ([run_daemon]) *)

(** A connection that is asked to resume from a number, or that is refused. *)
Class SubscribeWorld (W : Type) : Type := { connect : Z → W → option (list delivery) * W }.

Record DaemonConfig : Type := {
  daemon_gas_pool_actor : option Z;
  daemon_epoch_length : Z;
  max_reconnects : Z;
  daemon_max_frame_size : Z;
}.

Inductive OperatorExitCode : Type :=
| OperatorAction
| Transient.

Inductive daemon_end : Type :=
| Exits (code : OperatorExitCode)
| StillRunning
| ProcessDead.

Section Daemon.
Context {W : Type} `{SqlWorld W} `{SubscribeWorld W}.
Context (cfg : DaemonConfig).

(** What the loop does after a session: whether it goes on, and the count of
    reconnects. *)
Definition after_session (o : ConsumeOutcome) (reconnects : Z) : result Z OperatorExitCode :=
  match o with
  | CleanEof | ServerShutdown _ | LagExceeded _ => Ok reconnects
  | HistoryTruncated _ | InvalidRequest => Err OperatorAction
  | ConsumeClientError _ => Ok (saturating_add 32 reconnects 1)
  | ConsumeIndexerError (CommitAmbiguous _ _) => Ok reconnects
  | ConsumeIndexerError _ => Err OperatorAction
  end.

(** [rounds] turns of the loop, of which each session reads up to [frames] frames
    after its first. *)
Fixpoint daemon_loop (frames rounds : nat) (reconnects : Z) (self : Indexer) (s : Sqlite) (w : W)
    : daemon_end * Sqlite * W :=
  match rounds with
  | O => (StillRunning, s, w)
  | S rounds =>
      if decide (max_reconnects cfg ≠ 0 ∧ max_reconnects cfg ≤ reconnects) then (Exits Transient, s, w) else
      match connect (cursor_value self) w with
      | (None, w) => daemon_loop frames rounds (saturating_add 32 reconnects 1) self s w
      | (Some reader, w) =>
          match consume_stream frames (connected reader (daemon_max_frame_size cfg)) self s w with
          | (Dead, _, s, w) => (ProcessDead, s, w)
          | (Running, _, s, w) => (StillRunning, s, w)
          | (Ends o, self, s, w) =>
              match after_session o 0 with
              | Ok reconnects => daemon_loop frames rounds reconnects self s w
              | Err code => (Exits code, s, w)
              end
          end
      end
  end.

Definition run_daemon (frames rounds : nat) (s : Sqlite) (w : W) : daemon_end * Sqlite * W :=
  match open_with_config (daemon_gas_pool_actor cfg) (daemon_epoch_length cfg) s w with
  | (Ok self, s, w) => daemon_loop frames rounds 0 self s w
  | (Err (Fails _), s, w) => (Exits OperatorAction, s, w)
  | (Err Dies, s, w) => (ProcessDead, s, w)
  end.

(** A process that is started again finds the database without the transaction
    that was open. *)
Definition restarted (s : Sqlite) : Sqlite := {| disk := disk s; open_tx := None |}.

Fixpoint lifetime (runs : list (nat * nat)) (s : Sqlite) (w : W) : Sqlite * W :=
  match runs with
  | [] => (s, w)
  | (frames, rounds) :: runs =>
      let '(_, s, w) := run_daemon frames rounds s w in lifetime runs (restarted s) w
  end.
End Daemon.
