(* ===== verification/IndexViews.v ===== *)
(** * What the indexer's database shows

    The contract of the views: [represents d bs] states every cell of the database
    as a function of the batches [bs] that were applied, with the sums of the
    module documentation of [budget_storage.rs] and the overriding rule of
    [indexer.rs].  The transaction of a batch takes a database that represents
    [bs] to one that represents [bs] and that batch ([passes_represent]); an error
    or a crash leaves the database on disk alone. *)

From Stdlib Require Import ZArith Lia.
From stdpp Require Import base numbers list gmap.
From S2P Require Import Prelude IndexEvent IndexStore Indexer.

Local Open Scope Z_scope.

(** ** The contract *)

(** What an event adds to a counter. *)
Definition grant (a : Z) (e : Event) : Z :=
  match e with
  | DepositWithFeeCredited _ recipient _ _ _ budget_grant _ => if decide (recipient = a) then budget_grant else 0
  | ActionBudgetTopUp signer _ _ budget_increment _ => if decide (signer = a) then budget_increment else 0
  | DelegatedActionBudgetTopUp recipient _ _ _ budget_increment _ =>
      if decide (recipient = a) then budget_increment else 0
  | _ => 0
  end.

Definition consumption (a : Z) (e : Event) : Z :=
  match e with BudgetConsumed actor amount => if decide (actor = a) then amount else 0 | _ => 0 end.

Definition inflow (r p : Z) (e : Event) : Z :=
  match e with
  | DepositWithFeeCredited resource _ pool_actor _ pool_amount _ _ =>
      if decide (resource = r ∧ pool_actor = p) then pool_amount else 0
  | ActionBudgetTopUp _ gas_resource gas_amount _ pool_actor
  | DelegatedActionBudgetTopUp _ _ gas_resource gas_amount _ pool_actor =>
      if decide (gas_resource = r ∧ pool_actor = p) then gas_amount else 0
  | _ => 0
  end.

Definition drain (pool : option Z) (r p : Z) (e : Event) : Z :=
  match e with
  | GasPoolClaim resource _ amount => if decide (resource = r ∧ pool = Some p) then amount else 0
  | _ => 0
  end.

Definition delta (pool : option Z) (t : Table) (a : Z) (e : Event) : Z :=
  match t with
  | TABLE_ACTOR_BUDGETS | TABLE_ACTOR_BUDGETS_CURRENT_EPOCH_GRANTS => grant a e
  | TABLE_ACTOR_BUDGETS_CURRENT_EPOCH_CONSUMED => consumption a e
  | TABLE_POOL_BALANCES_ETH => inflow RESOURCE_ID_ETH a e - drain pool RESOURCE_ID_ETH a e
  | TABLE_POOL_BALANCES_BOLD => inflow RESOURCE_ID_BOLD a e - drain pool RESOURCE_ID_BOLD a e
  end.

Definition total (f : Event → Z) (es : list Event) : Z := foldr (fun e s => f e + s) 0 es.

(** A batch is the number of its frame and its events. *)
Abbreviation numbered_batch := (Z * list Event)%type.
Definition total_of (f : Event → Z) (bs : list numbered_batch) : Z := total f (bs ≫= snd).

(** What an event does to a balance: the kernel's own value, or a credit or
    debit. *)
Definition authoritative (a r : Z) (e : Event) : option Z :=
  match e with
  | BalanceChanged resource actor _ new_value =>
      if decide (resource = r ∧ actor = a) then Some new_value else None
  | _ => None
  end.

Definition net (a r : Z) (e : Event) : Z :=
  match e with
  | RewardIssued resource recipient amount | DepositCredited resource recipient amount _ =>
      if decide (resource = r ∧ recipient = a) then amount else 0
  | WithdrawalRequested resource sender amount _ _ => if decide (resource = r ∧ sender = a) then - amount else 0
  | _ => 0
  end.

Definition balance_step (a r : Z) (v : Z) (es : list Event) : Z :=
  match last (omap (authoritative a r) es) with
  | Some x => x
  | None => v + total (net a r) es
  end.

Definition balance_after (a r : Z) (bs : list numbered_batch) : Z :=
  fold_left (fun v b => balance_step a r v b.2) bs 0.

(** The last number applied, and the batches of its epoch. *)
Definition cursor_after (bs : list numbered_batch) : Z := default 0 (fst <$> last bs).

Section Contract.
Context (len : Z).

Definition epoch_after (bs : list numbered_batch) : Z := epoch_for_seq (cursor_after bs) len.

Definition this_epoch (bs : list numbered_batch) : list numbered_batch :=
  filter (fun b => epoch_for_seq b.1 len = epoch_after bs) bs.

Definition counted (t : Table) (bs : list numbered_batch) : list numbered_batch :=
  match t with
  | TABLE_ACTOR_BUDGETS_CURRENT_EPOCH_GRANTS | TABLE_ACTOR_BUDGETS_CURRENT_EPOCH_CONSUMED => this_epoch bs
  | _ => bs
  end.

End Contract.

(** ** Views *)

(** The cells, as functions. *)
Record View : Type := {
  v_balance : Z → Z → Z;
  v_counter : Table → Z → Z;
  v_cursor : Z;
  v_epoch : Z;
}.

Record shows (d : Database) (v : View) : Prop := {
  sh_balance : ∀ a r, in_u64 a → in_u64 r → decode_cell a r (kv d !! balance_key a r) = Ok (v_balance v a r);
  sh_counter : ∀ t a, in_u64 a → decode_row t a (counters d !! (t, actor_key a)) = Ok (v_counter v t a);
  sh_cursor : decode_cursor (kv d !! CURSOR_KEY) = Ok (v_cursor v);
  sh_epoch : decode_epoch (kv d !! CURRENT_EPOCH_KEY) = v_epoch v;
}.

(** Every cell, of the batches applied. *)
Definition view_of (pool : option Z) (len : Z) (bs : list numbered_batch) : View :=
  {| v_balance := fun a r => balance_after a r bs;
     v_counter := fun t a => total_of (delta pool t a) (counted len t bs);
     v_cursor := cursor_after bs; v_epoch := epoch_after len bs |}.

Definition represents (pool : option Z) (len : Z) (d : Database) (bs : list numbered_batch) : Prop :=
  shows d (view_of pool len bs).

Definition set_balance (a r x : Z) (v : View) : View :=
  {| v_balance := fun a' r' => if decide (a' = a ∧ r' = r) then x else v_balance v a' r';
     v_counter := v_counter v; v_cursor := v_cursor v; v_epoch := v_epoch v |}.

Definition set_counter (t : Table) (a x : Z) (v : View) : View :=
  {| v_balance := v_balance v;
     v_counter := fun t' a' => if decide (t' = t ∧ a' = a) then x else v_counter v t' a';
     v_cursor := v_cursor v; v_epoch := v_epoch v |}.

Definition zero_table (t : Table) (v : View) : View :=
  {| v_balance := v_balance v; v_counter := fun t' a => if decide (t' = t) then 0 else v_counter v t' a;
     v_cursor := v_cursor v; v_epoch := v_epoch v |}.

Definition view_cursor (c : Z) (v : View) : View :=
  {| v_balance := v_balance v; v_counter := v_counter v; v_cursor := c; v_epoch := v_epoch v |}.
Definition view_epoch (n : Z) (v : View) : View :=
  {| v_balance := v_balance v; v_counter := v_counter v; v_cursor := v_cursor v; v_epoch := n |}.

Lemma shows_ext d v v' :
  shows d v → (∀ a r, in_u64 a → in_u64 r → v_balance v a r = v_balance v' a r) →
  (∀ t a, in_u64 a → v_counter v t a = v_counter v' t a) → v_cursor v = v_cursor v' → v_epoch v = v_epoch v' →
  shows d v'.
Proof.
  intros [] Hb Hc Hcu He. constructor; intros.
  - rewrite <- Hb by done. auto.
  - rewrite <- Hc by done. auto.
  - by rewrite <- Hcu.
  - by rewrite <- He.
Qed.

#[local] Arguments actor_key : simpl never.
#[local] Arguments balance_key : simpl never.
#[local] Arguments encode_counter : simpl never.
#[local] Arguments amount_to_be_bytes : simpl never.
#[local] Arguments to_be_bytes : simpl never.
#[local] Arguments decode_cell : simpl never.
#[local] Arguments decode_row : simpl never.
#[local] Arguments decode_cursor : simpl never.
#[local] Arguments decode_epoch : simpl never.

(** *** Keys *)

Lemma actor_key_inj a b : in_u64 a → in_u64 b → actor_key a = actor_key b → a = b.
Proof.
  intros Ha Hb Heq. apply (f_equal from_be_bytes) in Heq. unfold actor_key, ACTOR_KEY_LEN in Heq.
  by rewrite !from_to_be_bytes in Heq.
Qed.

Lemma balance_key_length a r : length (balance_key a r) = 18%nat.
Proof. unfold balance_key. rewrite !length_app, !to_be_bytes_length. done. Qed.

Lemma balance_key_inj a r a' r' :
  in_u64 a → in_u64 r → in_u64 a' → in_u64 r' → balance_key a r = balance_key a' r' → a = a' ∧ r = r'.
Proof.
  intros ???? Heq. unfold balance_key in Heq. apply app_inv_head in Heq.
  apply app_inj_1 in Heq as [Hka Hkr]; [|by rewrite !to_be_bytes_length].
  split; by apply actor_key_inj.
Qed.

Lemma balance_key_other a r k : length k ≠ 18%nat → balance_key a r ≠ k.
Proof. intros Hk <-. by rewrite balance_key_length in Hk. Qed.

(** *** Cells after a write *)

Lemma decode_cell_put a r x : in_u256 x → decode_cell a r (Some (amount_to_be_bytes x)) = Ok x.
Proof.
  intros Hx. unfold decode_cell, amount_to_be_bytes, amount_from_be_bytes, AMOUNT_BYTES, BALANCE_VALUE_LEN.
  rewrite decide_True by apply to_be_bytes_length. by rewrite from_to_be_bytes.
Qed.

Lemma decode_row_put t a x : in_u256 x → decode_row t a (Some (encode_counter x)) = Ok x.
Proof.
  intros Hx. unfold decode_row, decode_counter, encode_counter, COUNTER_VALUE_LEN.
  rewrite decide_True by apply to_be_bytes_length. by rewrite from_to_be_bytes.
Qed.

Lemma shows_balance d v a r x :
  shows d v → in_u64 a → in_u64 r → in_u256 x →
  shows (put_row (balance_key a r) (amount_to_be_bytes x) d) (set_balance a r x v).
Proof.
  intros [] Ha Hr Hx. constructor; cbn.
  - intros a' r' Ha' Hr'. case_decide as Hd.
    + destruct Hd as [-> ->]. rewrite lookup_insert_eq. by apply decode_cell_put.
    + rewrite lookup_insert_ne; [auto|]. intros [-> ->]%balance_key_inj; auto.
  - auto.
  - rewrite lookup_insert_ne; [done|]. by apply balance_key_other.
  - rewrite lookup_insert_ne; [done|]. by apply balance_key_other.
Qed.

Lemma shows_counter d v t a x :
  shows d v → in_u64 a → in_u256 x → shows (put_counter t a x d) (set_counter t a x v).
Proof.
  intros [] Ha Hx. constructor; cbn; try done. intros t' a' Ha'. case_decide as Hd.
  - destruct Hd as [-> ->]. rewrite lookup_insert_eq. by apply decode_row_put.
  - rewrite lookup_insert_ne; [auto|]. intros [Ht He]%pair_eq. apply Hd. split; [done|]. symmetry. by apply actor_key_inj.
Qed.

Lemma shows_clear d v t : shows d v → shows (clear_table t d) (zero_table t v).
Proof.
  intros []. constructor; cbn; try done. intros t' a Ha. case_decide as Hd.
  - subst t'. rewrite map_lookup_filter_None_2; [done|]. right. intros ? _ Hne. by apply Hne.
  - specialize (sh_counter0 t' a Ha). rewrite <- sh_counter0. f_equal. rewrite map_lookup_filter.
    destruct (counters d !! (t', actor_key a)) as [x|]; [|done]. cbn. by rewrite option_guard_True.
Qed.

Lemma shows_cursor d v c : shows d v → in_u64 c → shows (put_row CURSOR_KEY (to_be_bytes 8 c) d) (view_cursor c v).
Proof.
  intros [] Hc. constructor; cbn; try done.
  - intros. rewrite lookup_insert_ne; [auto|]. intros Heq. symmetry in Heq. by apply balance_key_other in Heq.
  - rewrite lookup_insert_eq. unfold decode_cursor, CURSOR_VALUE_LEN. rewrite decide_True by apply to_be_bytes_length.
    by rewrite from_to_be_bytes.
  - by rewrite lookup_insert_ne.
Qed.

Lemma shows_epoch d v n : shows d v → in_u64 n → shows (put_row CURRENT_EPOCH_KEY (to_be_bytes 8 n) d) (view_epoch n v).
Proof.
  intros [] Hc. constructor; cbn; try done.
  - intros. rewrite lookup_insert_ne; [auto|]. intros Heq. symmetry in Heq. by apply balance_key_other in Heq.
  - by rewrite lookup_insert_ne.
  - rewrite lookup_insert_eq. unfold decode_epoch, CURRENT_EPOCH_VALUE_LEN.
    rewrite decide_True by apply to_be_bytes_length. by rewrite from_to_be_bytes.
Qed.

(** ** Transactions *)

Section Staging.
Context {W : Type} `{SqlWorld W}.

(** [m], inside a transaction over the disk [D] that has staged [d], stages a
    database with [Q]; whatever its end, the disk is as it was. *)
Definition stages {E A} (m : sql (W := W) E A) (d : Database) (Q : A → Database → Prop) : Prop :=
  ∀ D w, match m {| disk := D; open_tx := Some d |} w with
         | (Ok a, s, _) => ∃ d', s = {| disk := D; open_tx := Some d' |} ∧ Q a d'
         | (Err _, s, _) => disk s = D
         end.

Lemma stages_ret {E A} (a : A) d (Q : A → Database → Prop) : Q a d → stages (mret a : sql E A) d Q.
Proof. intros HQ D w. cbn. eauto. Qed.

Lemma stages_bind {E A B} (m : sql E A) (k : A → sql E B) d P Q :
  stages m d P → (∀ a d', P a d' → stages (k a) d' Q) → stages (m ≫= k) d Q.
Proof.
  intros Hm Hk D w. unfold mbind, sql_bind. specialize (Hm D w).
  destruct (m _ w) as [[[a|e] s] w']; [|done]. destruct Hm as (d' & -> & HP). by apply Hk.
Qed.

Lemma stages_raise {E A} (e : E) d (Q : A → Database → Prop) : stages (raise e) d Q.
Proof. intros D w. done. Qed.

Lemma stages_returns {E A} (r : result A E) d (Q : A → Database → Prop) :
  (∀ a, r = Ok a → Q a d) → stages (returns r) d Q.
Proof. intros HQ D w. unfold returns. destruct r; [|done]. eauto. Qed.

Lemma stages_map_err {E E' A} (f : E → E') (m : sql E A) d Q : stages m d Q → stages (map_err f m) d Q.
Proof.
  intros Hm D w. specialize (Hm D w). unfold map_err. destruct (m _ w) as [[[a|[e|]] s] w']; done.
Qed.

Lemma stages_execute {E A} (e : E) (f : Database → A * Database) d (Q : A → Database → Prop) :
  Q (f d).1 (f d).2 → stages (execute e f) d Q.
Proof.
  intros HQ D w. unfold execute. destruct (statement w) as [[|[]|[]] w']; cbn; try done.
  destruct (f d) as [a d']. eauto.
Qed.

(** A statement and what follows. *)
Lemma stages_execute_bind {E A B} (e : E) (f : Database → A * Database) (k : A → sql E B) d Q :
  stages (k (f d).1) (f d).2 Q → stages (execute e f ≫= k) d Q.
Proof.
  intros Hk. eapply (stages_bind _ _ _ (fun a d' => (a, d') = f d)).
  - apply stages_execute. by destruct (f d).
  - intros a d' Hf. by rewrite <- Hf in Hk.
Qed.

Lemma stages_map_execute_bind {E E' A B} (g : E → E') (e : E) (f : Database → A * Database) (k : A → sql E' B) d Q :
  stages (k (f d).1) (f d).2 Q → stages (map_err g (execute e f) ≫= k) d Q.
Proof.
  intros Hk. eapply (stages_bind _ _ _ (fun a d' => (a, d') = f d)).
  - apply stages_map_err, stages_execute. by destruct (f d).
  - intros a d' Hf. by rewrite <- Hf in Hk.
Qed.

Lemma stages_mono {E A} (m : sql E A) d (P Q : A → Database → Prop) :
  stages m d P → (∀ a d', P a d' → Q a d') → stages m d Q.
Proof.
  intros Hm HPQ D w. specialize (Hm D w). destruct (m _ w) as [[[a|e] s] w']; [|done]. naive_solver.
Qed.

(** A loop, with the view it makes of the one before each turn. *)
Lemma stages_each {E A} (f : A → sql E ()) (P : A → Prop) (next : A → View → View) :
  (∀ x d v, P x → shows d v → stages (f x) d (fun _ d' => shows d' (next x v))) →
  ∀ xs d v, Forall P xs → shows d v →
  stages (each f xs) d (fun _ d' => shows d' (fold_left (fun v x => next x v) xs v)).
Proof.
  intros Hf xs. induction xs as [|x xs IH]; intros d v HP Hd; cbn; [by apply stages_ret|].
  inversion_clear HP. eapply stages_bind; [by apply Hf|]. cbn. auto.
Qed.

(** *** Counters *)

Lemma stages_read_cell t a d v :
  shows d v → in_u64 a → stages (read_cell t a) d (fun x d' => x = v_counter v t a ∧ d' = d).
Proof.
  intros Hd Ha. apply stages_execute_bind. cbn. apply stages_returns. intros x Hx. rewrite (sh_counter _ _ Hd) in Hx by done. naive_solver.
Qed.

Definition add_counter (t : Table) (a x : Z) (v : View) : View := set_counter t a (v_counter v t a + x) v.

Lemma decode_row_in t a row x : decode_row t a row = Ok x → in_u256 x.
Proof.
  unfold decode_row, decode_counter. destruct row as [bs|]; [|intros [= <-]; by apply in_width_0].
  case_decide as Hl; [|done]. intros [= <-]. pose proof (from_be_bytes_bound bs) as Hb. by rewrite Hl in Hb.
Qed.

Lemma counter_in d v t a : shows d v → in_u64 a → in_u256 (v_counter v t a).
Proof. intros Hd Ha. eapply decode_row_in, sh_counter; eauto. Qed.

Lemma stages_credit t a x d v :
  shows d v → in_u64 a → 0 ≤ x → stages (checked_credit t a x) d (fun _ d' => shows d' (add_counter t a x v)).
Proof.
  intros Hd Ha Hx. pose proof (counter_in d v t a Hd Ha) as Hin.
  eapply stages_bind; [by apply stages_read_cell|]. intros c d' [-> ->].
  eapply stages_bind; [apply stages_returns; instantiate (1 := fun y d' => y = v_counter v t a + x ∧ y < 2 ^ 256 ∧ d' = d)|].
  { intros y Hy. destruct (checked_add 256 _ _) as [z|] eqn:Ez; [|done]. injection Hy as <-.
    apply checked_add_Some in Ez. naive_solver. }
  intros y d' (-> & Hlt & ->). apply stages_execute_bind. cbn. apply stages_ret. apply shows_counter; try done.
  destruct Hin. unfold in_width. lia.
Qed.

Lemma stages_debit t a x d v :
  shows d v → in_u64 a → 0 ≤ x → stages (checked_debit t a x) d (fun _ d' => shows d' (add_counter t a (- x) v)).
Proof.
  intros Hd Ha Hx. pose proof (counter_in d v t a Hd Ha) as Hin.
  eapply stages_bind; [by apply stages_read_cell|]. intros c d' [-> ->].
  eapply stages_bind; [apply stages_returns; instantiate (1 := fun y d' => y = v_counter v t a - x ∧ 0 ≤ y ∧ d' = d)|].
  { intros y Hy. destruct (checked_sub _ _) as [z|] eqn:Ez; [|done]. injection Hy as <-.
    apply checked_sub_Some in Ez. naive_solver lia. }
  intros y d' (-> & Hlt & ->). apply stages_execute_bind. cbn. apply stages_ret. unfold add_counter. rewrite Z.add_opp_r.
  apply shows_counter; try done. destruct Hin. unfold in_width. lia.
Qed.

Definition plus_counters (f : Table → Z → Z) (v : View) : View :=
  {| v_balance := v_balance v; v_counter := fun t a => v_counter v t a + f t a;
     v_cursor := v_cursor v; v_epoch := v_epoch v |}.

Lemma add_counter_plus d t a x v f :
  shows d (add_counter t a x v) →
  (∀ t' a', in_u64 a' → f t' a' = if decide (t' = t ∧ a' = a) then x else 0) → shows d (plus_counters f v).
Proof.
  intros Hd Hf. eapply shows_ext; [exact Hd|done| |done|done]. intros t' a' Ha'. cbn. rewrite Hf by done.
  case_decide as Hc; [destruct Hc as [-> ->]|]; lia.
Qed.

(** Where the amount of a resource goes. *)
Definition pool_table (r : Z) : option Table :=
  if decide (r = RESOURCE_ID_ETH) then Some TABLE_POOL_BALANCES_ETH
  else if decide (r = RESOURCE_ID_BOLD) then Some TABLE_POOL_BALANCES_BOLD else None.

Definition pool_share (r p x : Z) (t : Table) (a : Z) : Z :=
  if decide (pool_table r = Some t ∧ a = p) then x else 0.

Lemma plus_zero d v f : shows d v → (∀ t a, in_u64 a → f t a = 0) → shows d (plus_counters f v).
Proof. intros Hd Hf. eapply shows_ext; [exact Hd|done| |done|done]. intros t a Ha. cbn. rewrite Hf by done. lia. Qed.

Lemma stages_inflow r p x d v :
  shows d v → in_u64 p → 0 ≤ x →
  stages (credit_pool_inflow r p x) d (fun _ d' => shows d' (plus_counters (pool_share r p x) v)).
Proof.
  intros Hd Hp Hx. unfold credit_pool_inflow, credit_pool_eth, credit_pool_bold, pool_share, pool_table.
  repeat case_decide.
  - eapply stages_bind; [by apply stages_map_err, stages_credit|]. intros ? d' Hd'. apply stages_ret.
    eapply add_counter_plus; [exact Hd'|]. intros. repeat case_decide; naive_solver.
  - eapply stages_bind; [by apply stages_map_err, stages_credit|]. intros ? d' Hd'. apply stages_ret.
    eapply add_counter_plus; [exact Hd'|]. intros. repeat case_decide; naive_solver.
  - apply stages_ret, plus_zero; [done|]. intros. case_decide; naive_solver.
Qed.

Lemma stages_drain r p x d v :
  shows d v → in_u64 p → 0 ≤ x →
  stages (drain_pool r p x) d (fun _ d' => shows d' (plus_counters (pool_share r p (- x)) v)).
Proof.
  intros Hd Hp Hx. unfold drain_pool, debit_pool_eth, debit_pool_bold, pool_share, pool_table.
  repeat case_decide.
  - eapply stages_bind; [by apply stages_map_err, stages_debit|]. intros ? d' Hd'. apply stages_ret.
    eapply add_counter_plus; [exact Hd'|]. intros. repeat case_decide; naive_solver.
  - eapply stages_bind; [by apply stages_map_err, stages_debit|]. intros ? d' Hd'. apply stages_ret.
    eapply add_counter_plus; [exact Hd'|]. intros. repeat case_decide; naive_solver.
  - apply stages_ret, plus_zero; [done|]. intros. case_decide; naive_solver.
Qed.

(** A grant, then an inflow. *)
Definition grant_share (a0 x : Z) (t : Table) (a : Z) : Z :=
  if decide ((t = TABLE_ACTOR_BUDGETS ∨ t = TABLE_ACTOR_BUDGETS_CURRENT_EPOCH_GRANTS) ∧ a = a0) then x else 0.

Lemma stages_grant a0 g r p x d v :
  shows d v → in_u64 a0 → in_u64 p → 0 ≤ g → 0 ≤ x →
  stages (_ ← credit_actor_budget a0 g; _ ← credit_actor_budget_current_epoch_grants a0 g; credit_pool_inflow r p x) d
    (fun _ d' => shows d' (plus_counters (fun t a => grant_share a0 g t a + pool_share r p x t a) v)).
Proof.
  intros Hd Ha Hp Hg Hx. eapply stages_bind; [by apply stages_map_err, stages_credit|]. cbn. intros _ d1 Hd1.
  eapply stages_bind; [by apply stages_map_err, stages_credit|]. cbn. intros _ d2 Hd2.
  eapply stages_mono; [by apply stages_inflow|]. cbn. intros _ d3 Hd3.
  eapply shows_ext; [exact Hd3|done| |done|done]. intros t a Ht. unfold grant_share. cbn.
  repeat (case_decide; cbn; try lia); first [exfalso; intuition congruence|intuition (subst; lia)].
Qed.

Lemma grant_delta pool r a0 g p x e t a :
  (∀ a, grant a e = if decide (a0 = a) then g else 0) → (∀ a, consumption a e = 0) →
  (∀ r' p', inflow r' p' e = if decide (r = r' ∧ p = p') then x else 0) → (∀ r' p', drain pool r' p' e = 0) →
  grant_share a0 g t a + pool_share r p x t a = delta pool t a e.
Proof.
  intros Hg Hc Hi Hdr. unfold delta, grant_share, pool_share, pool_table.
  destruct t; rewrite ?Hg, ?Hc, ?Hi, ?Hdr; unfold RESOURCE_ID_ETH, RESOURCE_ID_BOLD in *;
    repeat case_decide; try lia; exfalso; intuition congruence.
Qed.

Lemma stages_dispatch pool e d v :
  event_ok e → match pool with Some p => in_u64 p | None => True end → shows d v →
  stages (dispatch_event pool e) d (fun _ d' => shows d' (plus_counters (fun t a => delta pool t a e) v)).
Proof.
  intros Hok Hpool Hd.
  assert (Hnn : ∀ n x, in_width n x → 0 ≤ x) by (by intros n x []).
  assert (Hgrant : ∀ r a0 g p x, in_u64 a0 → in_u64 p → 0 ≤ g → 0 ≤ x →
    (∀ t a, grant_share a0 g t a + pool_share r p x t a = delta pool t a e) →
    stages (_ ← credit_actor_budget a0 g; _ ← credit_actor_budget_current_epoch_grants a0 g; credit_pool_inflow r p x) d
      (fun _ d' => shows d' (plus_counters (fun t a => delta pool t a e) v))).
  { intros r a0 g p x Ha Hp Hg Hx Heq. eapply stages_mono; [by apply stages_grant|]. intros _u d' Hd'.
    eapply shows_ext; [exact Hd'|done| |done|done]. intros t a _. cbn. by rewrite Heq. }
  destruct e; cbn in Hok; try (apply stages_ret, plus_zero; [done|]; by intros [] ? ?); destruct_and!;
    try (cbn; apply Hgrant; eauto; intros; apply grant_delta; done).
  - cbn. destruct pool as [p|]; [|by apply stages_ret, plus_zero; [|intros [] ? ?; cbn; repeat case_decide; naive_solver]].
    eapply stages_mono; [apply stages_drain; eauto|]. intros _u d' Hd'.
    eapply shows_ext; [exact Hd'|done| |done|done]. intros t a _. cbn. f_equal. unfold pool_share, pool_table, delta, drain, inflow, grant, consumption.
    destruct t; unfold RESOURCE_ID_ETH, RESOURCE_ID_BOLD in *; repeat case_decide; try lia; exfalso; intuition congruence.
  - cbn. eapply stages_bind; [apply stages_map_err, stages_credit; eauto|]. intros _u d' Hd'. apply stages_ret.
    eapply add_counter_plus; [exact Hd'|]. intros t a _. destruct t; cbn; repeat case_decide; try lia; exfalso; intuition congruence.
Qed.

(** *** Balances *)

Lemma stages_balance_get a r d v :
  shows d v → in_u64 a → in_u64 r → stages (balance_get a r) d (fun x d' => x = v_balance v a r ∧ in_u256 x ∧ d' = d).
Proof.
  intros Hd Ha Hr. apply stages_map_execute_bind. cbn. apply stages_map_err, stages_returns. intros x Hx.
  rewrite (sh_balance _ _ Hd) in Hx by done. injection Hx as <-. split_and!; try done.
  pose proof (sh_balance _ _ Hd a r Ha Hr) as Hc. unfold decode_cell in Hc.
  destruct (kv d !! balance_key a r) as [bs|]; [|injection Hc as <-; by apply in_width_0].
  case_decide as Hl; [|done]. injection Hc as <-. pose proof (from_be_bytes_bound bs) as Hb. by rewrite Hl in Hb.
Qed.

Lemma stages_balance_set a r x d v :
  shows d v → in_u64 a → in_u64 r → in_u256 x → stages (balance_set a r x) d (fun _ d' => shows d' (set_balance a r x v)).
Proof. intros. apply stages_map_err, stages_execute. by apply shows_balance. Qed.

Definition plus_balances (f : Z → Z → Z) (v : View) : View :=
  {| v_balance := fun a r => v_balance v a r + f a r; v_counter := v_counter v;
     v_cursor := v_cursor v; v_epoch := v_epoch v |}.

Lemma stages_balance_credit a r x d v f :
  shows d v → in_u64 a → in_u64 r → 0 ≤ x →
  (∀ a' r', f a' r' = if decide (r = r' ∧ a = a') then x else 0) →
  stages (_ ← balance_credit a r x; mret tt) d (fun _ d' => shows d' (plus_balances f v)).
Proof.
  intros Hd Ha Hr Hx Hf. unfold balance_credit. eapply stages_bind; [|intros y d' Hd'; apply stages_ret, Hd'].
  eapply stages_bind; [by apply stages_balance_get|]. intros c d' (-> & [Hc0 Hc1] & ->).
  destruct (checked_add 256 _ _) as [sum|] eqn:Es.
  - apply checked_add_Some in Es as [-> Hlt]. eapply stages_bind; [apply stages_balance_set; try done; unfold in_width; lia|].
    intros _u d' Hd'. apply stages_ret. eapply shows_ext; [exact Hd'| |done..]. intros a' r' _ _. cbn. rewrite Hf.
    repeat case_decide; destruct_and?; subst; try lia; exfalso; naive_solver.
  - eapply stages_bind; [by apply stages_balance_set|intros; apply stages_raise].
Qed.

Lemma stages_balance_debit a r x d v f :
  shows d v → in_u64 a → in_u64 r → 0 ≤ x →
  (∀ a' r', f a' r' = if decide (r = r' ∧ a = a') then - x else 0) →
  stages (_ ← balance_debit a r x; mret tt) d (fun _ d' => shows d' (plus_balances f v)).
Proof.
  intros Hd Ha Hr Hx Hf. unfold balance_debit. eapply stages_bind; [|intros y d' Hd'; apply stages_ret, Hd'].
  eapply stages_bind; [by apply stages_balance_get|]. intros c d' (-> & [Hc0 Hc1] & ->).
  destruct (checked_sub _ _) as [diff|] eqn:Es; [|apply stages_raise].
  apply checked_sub_Some in Es as [-> Hlt]. eapply stages_bind; [apply stages_balance_set; try done; unfold in_width; lia|].
  intros _u d' Hd'. apply stages_ret. eapply shows_ext; [exact Hd'| |done..]. intros a' r' _ _. cbn. rewrite Hf.
  repeat case_decide; destruct_and?; subst; try lia; exfalso; naive_solver.
Qed.

(** What a semantic event adds, when no authoritative value overrides it. *)
Definition semantic (pairs : list (Z * Z)) (e : Event) (a r : Z) : Z :=
  if decide ((a, r) ∈ pairs) then 0 else net a r e.

Lemma stages_semantic pairs e d v :
  event_ok e → shows d v →
  stages (apply_balance_semantic_event pairs e) d (fun _ d' => shows d' (plus_balances (semantic pairs e) v)).
Proof.
  intros Hok Hd.
  assert (Hnn : ∀ n x, in_width n x → 0 ≤ x) by (by intros n x []).
  assert (Hzero : (∀ a r, semantic pairs e a r = 0) →
    stages (mret tt : sql IndexerError ()) d (fun _ d' => shows d' (plus_balances (semantic pairs e) v))).
  { intros Hz. apply stages_ret. eapply shows_ext; [exact Hd| |done..]. intros a r _ _. cbn. rewrite Hz. lia. }
  unfold apply_balance_semantic_event, semantic in *. destruct e; cbn in Hok; try (apply Hzero; intros; cbn; by case_decide); destruct_and!.
  all: case_decide; [apply Hzero; intros; cbn; repeat case_decide; naive_solver|].
  all: first [eapply stages_balance_credit|eapply stages_balance_debit]; eauto.
  all: intros a' r'; cbn; repeat case_decide; naive_solver.
Qed.

Definition override_balance (e : Event) (v : View) : View :=
  {| v_balance := fun a r => default (v_balance v a r) (authoritative a r e); v_counter := v_counter v;
     v_cursor := v_cursor v; v_epoch := v_epoch v |}.

Lemma stages_changed e d v :
  event_ok e → shows d v → stages (apply_balance_changed e) d (fun _ d' => shows d' (override_balance e v)).
Proof.
  intros Hok Hd. destruct e; cbn in Hok; try (apply stages_ret; eapply shows_ext; done). destruct_and!.
  eapply stages_mono; [by apply stages_balance_set|]. intros _u d' Hd'. eapply shows_ext; [exact Hd'| |done..].
  intros a' r' _ _. cbn. repeat case_decide; naive_solver.
Qed.

(** *** The epoch and the cursor *)

Definition new_epoch (n : Z) (v : View) : View :=
  if decide (n = v_epoch v) then v
  else view_epoch n (zero_table TABLE_ACTOR_BUDGETS_CURRENT_EPOCH_CONSUMED
                       (zero_table TABLE_ACTOR_BUDGETS_CURRENT_EPOCH_GRANTS v)).

Lemma stages_epoch seq len d v :
  shows d v → in_u64 (epoch_for_seq seq len) →
  stages (dispatch_epoch_if_crossed seq len) d (fun _ d' => shows d' (new_epoch (epoch_for_seq seq len) v)).
Proof.
  intros Hd Hn. unfold dispatch_epoch_if_crossed, new_epoch, read_current_epoch, kv_get, reset_current_epoch, write_current_epoch, kv_put.
  eapply (stages_bind _ _ _ (fun n d' => n = v_epoch v ∧ d' = d)).
  { apply stages_execute_bind. cbn. apply stages_ret. split; [apply (sh_epoch _ _ Hd)|done]. }
  intros n d' [-> ->]. case_decide; [by apply stages_ret|].
  eapply (stages_bind _ _ _ (fun _ d' => shows d' (zero_table _ (zero_table _ v)))).
  { apply stages_execute_bind. cbn. apply stages_execute. cbn. by apply shows_clear, shows_clear. }
  intros _u d' Hd'. apply stages_execute_bind. cbn. apply stages_ret. by apply shows_epoch.
Qed.

Lemma stages_cursor mem seq d v :
  shows d v → in_u64 seq →
  stages (advance_cursor_via_combined mem seq) d (fun _ d' => v_cursor v < seq ∧ shows d' (view_cursor seq v)).
Proof.
  intros Hd Hseq. unfold advance_cursor_via_combined.
  apply stages_map_execute_bind. cbn [fst snd]. eapply stages_bind; [apply stages_map_err, stages_returns; instantiate (1 := fun x d' => x = v_cursor v ∧ d' = d)|].
  { intros x Hx. rewrite (sh_cursor _ _ Hd) in Hx. naive_solver. }
  intros x d' [-> ->]. case_decide; [apply stages_raise|]. apply stages_map_err, stages_execute. cbn.
  split; [lia|]. by apply shows_cursor.
Qed.
End Staging.

(** ** A batch *)

Lemma total_app f es es' : total f (es ++ es') = total f es + total f es'.
Proof. unfold total. induction es as [|e es IH]; cbn; [done|]. rewrite IH. lia. Qed.

Lemma total_ext f g es : (∀ e, f e = g e) → total f es = total g es.
Proof. intros Hf. unfold total. induction es as [|e es IH]; cbn; [done|]. by rewrite Hf, IH. Qed.

Lemma total_zero f es : (∀ e, f e = 0) → total f es = 0.
Proof. intros Hf. unfold total. induction es as [|e es IH]; cbn; [done|]. rewrite Hf, IH. done. Qed.

Lemma fold_plus_balances (f : Event → Z → Z → Z) es : ∀ v,
  let v' := fold_left (fun v e => plus_balances (f e) v) es v in
  (∀ a r, v_balance v' a r = v_balance v a r + total (fun e => f e a r) es) ∧
  v_counter v' = v_counter v ∧ v_cursor v' = v_cursor v ∧ v_epoch v' = v_epoch v.
Proof.
  induction es as [|e es IH]; intros v; cbn; [split; [intros; lia|done]|].
  destruct (IH (plus_balances (f e) v)) as (H1 & H2 & H3 & H4). split; [|done].
  intros a r. rewrite H1. unfold total. cbn. lia.
Qed.

Lemma fold_plus_counters (f : Event → Table → Z → Z) es : ∀ v,
  let v' := fold_left (fun v e => plus_counters (f e) v) es v in
  (∀ t a, v_counter v' t a = v_counter v t a + total (fun e => f e t a) es) ∧
  v_balance v' = v_balance v ∧ v_cursor v' = v_cursor v ∧ v_epoch v' = v_epoch v.
Proof.
  induction es as [|e es IH]; intros v; cbn; [split; [intros; lia|done]|].
  destruct (IH (plus_counters (f e) v)) as (H1 & H2 & H3 & H4). split; [|done].
  intros t a. rewrite H1. unfold total. cbn. lia.
Qed.

Lemma fold_override es : ∀ v,
  let v' := fold_left (fun v e => override_balance e v) es v in
  (∀ a r, v_balance v' a r = default (v_balance v a r) (last (omap (authoritative a r) es))) ∧
  v_counter v' = v_counter v ∧ v_cursor v' = v_cursor v ∧ v_epoch v' = v_epoch v.
Proof.
  induction es as [|e es IH]; intros v; cbn; [done|].
  destruct (IH (override_balance e v)) as (H1 & H2 & H3 & H4). split; [|done].
  intros a r. rewrite H1. cbn. destruct (authoritative a r e) as [x|]; [|done].
  rewrite last_cons. by destruct (last _).
Qed.

Lemma pairs_authoritative es a r : (a, r) ∈ bc_pairs es ↔ omap (authoritative a r) es ≠ [].
Proof.
  unfold bc_pairs. induction es as [|e es IH]; cbn; [set_solver|].
  destruct e; cbn; try done. case_decide as Hd.
  - destruct Hd as [-> ->]. split; [done|]. intros _. constructor.
  - rewrite elem_of_cons, <- IH. naive_solver.
Qed.

(** The two passes over the balances make the step of the contract. *)
Lemma balance_passes es v0 a r :
  default (v0 + total (fun e => semantic (bc_pairs es) e a r) es) (last (omap (authoritative a r) es)) =
  balance_step a r v0 es.
Proof.
  unfold balance_step. destruct (last (omap (authoritative a r) es)) as [x|] eqn:El; [done|]. cbn. f_equal.
  apply last_None in El. apply total_ext. intros e. unfold semantic. rewrite decide_False; [done|].
  rewrite pairs_authoritative. naive_solver.
Qed.

(** Later numbers are in later epochs. *)
Lemma epoch_mono len n m : 0 ≤ len → n ≤ m → epoch_for_seq n len ≤ epoch_for_seq m len.
Proof.
  intros Hlen Hnm. unfold epoch_for_seq, checked_div, saturating_sub. case_decide; [lia|]. apply Z.div_le_mono; lia.
Qed.

Lemma epoch_in_u64 len n : 0 ≤ len → in_u64 n → in_u64 (epoch_for_seq n len).
Proof.
  intros Hlen [H0 H1]. unfold epoch_for_seq, checked_div, saturating_sub, in_width. case_decide; [lia|].
  split; [apply Z.div_pos; lia|]. eapply Z.le_lt_trans; [apply Z.div_le_upper_bound with (q := n); nia|done].
Qed.

(** The numbers of the batches, in order. *)
Definition in_order (bs : list numbered_batch) : Prop := Forall (fun b => b.1 ≤ cursor_after bs) bs.

Lemma cursor_after_snoc bs b : cursor_after (bs ++ [b]) = b.1.
Proof. unfold cursor_after. by rewrite last_snoc. Qed.

Lemma in_order_snoc bs b : in_order bs → cursor_after bs < b.1 → in_order (bs ++ [b]).
Proof.
  intros Hin Hlt. unfold in_order. rewrite cursor_after_snoc. apply Forall_app. split; [|by repeat constructor].
  eapply Forall_impl; [exact Hin|]. cbn. lia.
Qed.

Lemma counted_snoc len t bs seq es :
  0 ≤ len → in_order bs → cursor_after bs < seq →
  counted len t (bs ++ [(seq, es)]) =
  match t with
  | TABLE_ACTOR_BUDGETS_CURRENT_EPOCH_GRANTS | TABLE_ACTOR_BUDGETS_CURRENT_EPOCH_CONSUMED =>
      if decide (epoch_for_seq seq len = epoch_after len bs) then this_epoch len bs else []
  | _ => bs
  end ++ [(seq, es)].
Proof.
  intros Hlen Hin Hlt.
  assert (He : this_epoch len (bs ++ [(seq, es)]) =
    (if decide (epoch_for_seq seq len = epoch_after len bs) then this_epoch len bs else []) ++ [(seq, es)]).
  { unfold this_epoch, epoch_after. rewrite cursor_after_snoc. cbn. rewrite filter_app. f_equal.
    - case_decide as Hd; [by rewrite Hd|]. apply (epoch_mono len (cursor_after bs) seq) in Hlen as Hm; [|lia].
      apply elem_of_nil_inv. intros b [Hb Hin']%list_elem_of_filter. unfold in_order in Hin.
      rewrite Forall_forall in Hin. specialize (Hin _ Hin'). apply (epoch_mono len) in Hin; [|done].
      unfold epoch_after in Hd. lia.
    - rewrite filter_cons_True by done. done. }
  by destruct t.
Qed.

Section Passes.
Context {W : Type} `{SqlWorld W}.
Context (self : Indexer) (seq : Z) (es : list Event) (bs : list numbered_batch).
Context (Hlen : 0 ≤ epoch_length self) (Hpool : match gas_pool_actor self with Some p => in_u64 p | None => True end).
Context (Hseq : in_u64 seq) (Hes : Forall event_ok es).

(** What the passes make of a view. *)
Definition passes_view (v : View) : View :=
  let v1 := new_epoch (epoch_for_seq seq (epoch_length self)) v in
  let v2 := fold_left (fun v e => plus_balances (semantic (bc_pairs es) e) v) es v1 in
  let v3 := fold_left (fun v e => override_balance e v) es v2 in
  let v4 := fold_left (fun v e => plus_counters (fun t a => delta (gas_pool_actor self) t a e) v) es v3 in
  view_cursor seq v4.

Lemma stages_passes d v :
  shows d v →
  stages (apply_passes (W := W) self seq es) d (fun _ d' => v_cursor v < seq ∧ shows d' (passes_view v)).
Proof using Hlen Hpool Hseq Hes.
  intros Hd. unfold apply_passes.
  eapply stages_bind; [apply stages_map_err, stages_epoch; [exact Hd|by apply epoch_in_u64]|]. intros _u1 d1 Hd1.
  eapply stages_bind; [eapply (stages_each _ event_ok (fun e v => plus_balances (semantic (bc_pairs es) e) v)); [|exact Hes|exact Hd1]; intros; by apply stages_semantic|].
  intros _u2 d2 Hd2.
  eapply stages_bind; [eapply (stages_each _ event_ok override_balance); [|exact Hes|exact Hd2]; intros; by apply stages_changed|].
  intros _u3 d3 Hd3.
  eapply stages_bind; [apply stages_map_err; eapply (stages_each _ event_ok (fun e v => plus_counters (fun t a => delta (gas_pool_actor self) t a e) v)); [|exact Hes|exact Hd3]; intros; by apply stages_dispatch|].
  intros _u4 d4 Hd4. cbv beta in Hd4. eapply stages_mono; [eapply stages_cursor; [exact Hd4|done]|].
  intros _u5 d5 [Hlt Hd5]. split; [|exact Hd5]. revert Hlt.
  rewrite (proj1 (proj2 (proj2 (fold_plus_counters (fun e t a => delta (gas_pool_actor self) t a e) es _)))).
  rewrite (proj1 (proj2 (proj2 (fold_override es _)))).
  rewrite (proj1 (proj2 (proj2 (fold_plus_balances (semantic (bc_pairs es)) es _)))).
  unfold new_epoch. by case_decide.
Qed.

Lemma passes_view_of pool len :
  pool = gas_pool_actor self → len = epoch_length self → in_order bs → cursor_after bs < seq →
  let v := passes_view (view_of pool len bs) in
  let v' := view_of pool len (bs ++ [(seq, es)]) in
  (∀ a r, v_balance v a r = v_balance v' a r) ∧ (∀ t a, v_counter v t a = v_counter v' t a) ∧
  v_cursor v = v_cursor v' ∧ v_epoch v = v_epoch v'.
Proof using Hlen.
  intros -> -> Hin Hlt. unfold passes_view. cbn zeta.
  set (v1 := new_epoch _ _). set (v2 := fold_left _ es v1). set (v3 := fold_left _ es v2). set (v4 := fold_left _ es v3).
  destruct (fold_plus_balances (semantic (bc_pairs es)) es v1) as (A1 & A2 & A3 & A4).
  destruct (fold_override es v2) as (B1 & B2 & B3 & B4).
  destruct (fold_plus_counters (fun e t a => delta (gas_pool_actor self) t a e) es v3) as (C1 & C2 & C3 & C4).
  fold v2 in A1, A2, A3, A4. fold v3 in B1, B2, B3, B4. fold v4 in C1, C2, C3, C4.
  assert (N1 : v_balance v1 = fun a r => balance_after a r bs) by (unfold v1, new_epoch; by case_decide).
  cbn [v_balance v_counter v_cursor v_epoch view_cursor view_of]. split_and!.
  - intros a r. rewrite C2, B1, A1, N1, balance_passes. unfold balance_after. by rewrite fold_left_app.
  - intros t a. rewrite C1, B2, A2. rewrite counted_snoc by done. unfold total_of. rewrite bind_app, total_app. cbn. rewrite app_nil_r. f_equal.
    unfold v1, new_epoch. cbn. case_decide as Hd; cbn; [|by destruct t].
    by destruct t.
  - by rewrite cursor_after_snoc.
  - rewrite C4, B4, A4. unfold epoch_after. rewrite cursor_after_snoc. unfold v1, new_epoch. cbn. by case_decide.
Qed.

(** The transaction of a batch. *)
Lemma passes_represent d :
  represents (gas_pool_actor self) (epoch_length self) d bs → in_order bs →
  stages (apply_passes (W := W) self seq es) d (fun _ d' =>
    cursor_after bs < seq ∧ represents (gas_pool_actor self) (epoch_length self) d' (bs ++ [(seq, es)])).
Proof using Hlen Hpool Hseq Hes.
  intros Hd Hin. eapply stages_mono; [by apply stages_passes|]. cbn. intros _u d' [Hlt Hd']. split; [done|].
  destruct (passes_view_of _ _ eq_refl eq_refl Hin Hlt) as (H1 & H2 & H3 & H4).
  eapply shows_ext; [exact Hd'|auto..].
Qed.
End Passes.
