(* ===== verification/IndexerSafe.v ===== *)
(** * The indexer applies every batch once

    [indexer_exactly_once] follows the database through any number of runs of the
    daemon: connections refused, cut, reset or closed by the server at any byte,
    statements refused, commits that fail or whose success is not reported, and
    the process dying at any call.  The database always shows the batches of the
    log up to its cursor, each applied once, whole and in order. *)

From Stdlib Require Import ZArith Lia Sorted.
From stdpp Require Import base numbers list gmap sorting.
From S2P Require Import Prelude Frame EventWire EventCache EventServer EventStream IndexEvent IndexStore Indexer IndexViews.

Local Open Scope Z_scope.

(** ** Batches *)

Section Batch.
Context {W : Type} `{SqlWorldOk W}.

(** A database outside a transaction. *)
Definition at_rest (d : Database) : Sqlite := {| disk := d; open_tx := None |}.

Lemma roll_back_rests {E} s w :
  match roll_back (W := W) (E := E) s w with
  | (Ok _, s', _) => s' = at_rest (disk s)
  | (Err e, s', _) => e = Dies ∧ disk s' = disk s
  end.
Proof.
  unfold roll_back. destruct s as [d [t|]]; cbn; [|done].
  pose proof (rollback_closes w) as Hr. destruct (rolling_back w) as [[|b|b] w']; cbn; try done. by destruct (Hr b).
Qed.

Lemma begin_rests d w :
  match begin_with (W := W) (at_rest d) w with
  | (Ok _, s, _) => s = {| disk := d; open_tx := Some d |}
  | (Err (Fails _), s, _) => s = at_rest d
  | (Err Dies, s, _) => disk s = d
  end.
Proof.
  unfold begin_with, mbind, sql_bind, roll_back, begin_statement. cbn. by destruct (statement w) as [[|[]|[]] w'].
Qed.

(** A block that stages, in a transaction that starts at [d]. *)
Lemma dropping_stages {E A} (m : sql (W := W) E A) d Q w :
  stages m d Q →
  match dropping m {| disk := d; open_tx := Some d |} w with
  | (Ok a, s, _) => ∃ d', s = {| disk := d; open_tx := Some d' |} ∧ Q a d'
  | (Err (Fails _), s, _) => s = at_rest d
  | (Err Dies, s, _) => disk s = d
  end.
Proof.
  intros Hm. specialize (Hm d w). unfold dropping.
  destruct (m _ w) as [[[a|[e|]] s] w1]; [done| |done].
  pose proof (roll_back_rests (E := E) s w1) as Hr.
  destruct (roll_back s w1) as [[[u|e'] s2] w2]; [by rewrite Hm in Hr|]. destruct Hr as [-> Hr]. congruence.
Qed.

Lemma commit_rests d d' w :
  match finalise_commit (W := W) {| disk := d; open_tx := Some d' |} w with
  | (Ok _, s, _) => s = at_rest d'
  | (Err (Fails _), s, _) => s = at_rest d ∨ s = at_rest d'
  | (Err Dies, s, _) => disk s = d ∨ disk s = d'
  end.
Proof.
  unfold finalise_commit. cbn. destruct (committing w) as [[[]|b|[]] w1]; cbn; auto.
  set (s0 := if b then _ else _).
  pose proof (roll_back_rests (E := CombinedTransactionError) s0 w1) as Hr.
  assert (Hs0 : disk s0 = d) by (subst s0; by destruct b).
  destruct (roll_back s0 w1) as [[[u|e'] s2] w2]; [left; by rewrite Hs0 in Hr|]. destruct Hr as [-> Hr]. left. congruence.
Qed.

Lemma read_cursor_rests d w :
  match read_cursor (W := W) (at_rest d) w with
  | (Ok c, s, _) => s = at_rest d ∧ decode_cursor (kv d !! CURSOR_KEY) = Ok c
  | (Err _, s, _) => s = at_rest d
  end.
Proof.
  unfold read_cursor, storage_get, execute, mbind, sql_bind, returns. cbn [view at_rest open_tx default disk].
  destruct (statement w) as [[|[]|[]] w']; cbn; try done. by destruct (decode_cursor _).
Qed.

(** ** The state of an indexer *)

Context (pool : option Z) (len : Z).

(** The batches of a database: numbers that increase, and none empty. *)
Record batches_ok (bs : list numbered_batch) : Prop := {
  bo_order : in_order bs;
  bo_sorted : StronglySorted Z.lt bs.*1;
  bo_nonempty : Forall (fun b => 0 < b.1 ∧ b.2 ≠ []) bs;
}.

Definition stored (d : Database) (bs : list numbered_batch) : Prop := represents pool len d bs ∧ batches_ok bs.

Record tracks (self : Indexer) (bs : list numbered_batch) : Prop := {
  tr_pool : gas_pool_actor self = pool;
  tr_len : epoch_length self = len;
  tr_cursor : poisoned self = false → cursor_value self = cursor_after bs;
}.

Lemma batches_ok_snoc bs seq es :
  batches_ok bs → cursor_after bs < seq → 0 < seq → es ≠ [] → batches_ok (bs ++ [(seq, es)]).
Proof.
  intros [Ho Hs Hn] Hlt Hpos Hne. constructor.
  - by apply in_order_snoc.
  - rewrite fmap_app. apply StronglySorted_app_2; [|done|by repeat constructor].
    intros x y Hx Hy. cbn in Hy. apply list_elem_of_singleton in Hy as ->.
    apply list_elem_of_fmap in Hx as (b & -> & Hb). unfold in_order in Ho. rewrite Forall_forall in Ho.
    specialize (Ho _ Hb). lia.
  - apply Forall_app. split; [done|]. by repeat constructor.
Qed.

Lemma stored_cursor d bs : stored d bs → decode_cursor (kv d !! CURSOR_KEY) = Ok (cursor_after bs).
Proof. intros [Hr _]. apply (sh_cursor _ _ Hr). Qed.

Context (Hlen : 0 ≤ len) (Hpool : match pool with Some p => in_u64 p | None => True end).

(** The error that poisons the indexer. *)
Definition halts (e : IndexerError) : bool := match e with CursorRecoveryFailed _ _ _ => true | _ => false end.

(** A batch is applied, or not; and the indexer knows which, or is poisoned. *)
Lemma apply_batch_ok seq es self bs d w :
  in_u64 seq → 0 < seq → Forall event_ok es → stored d bs → tracks self bs → poisoned self = false →
  match apply_batch (W := W) seq es self (at_rest d) w with
  | (Ok _, self', s, _) => ∃ d', s = at_rest d' ∧ stored d' (bs ++ [(seq, es)]) ∧ tracks self' (bs ++ [(seq, es)]) ∧
      poisoned self' = false
  | (Err (Fails e), self', s, _) => ∃ d' bs', s = at_rest d' ∧ stored d' bs' ∧ tracks self' bs' ∧
      (bs' = bs ∨ bs' = bs ++ [(seq, es)]) ∧ (halts e = false → poisoned self' = false)
  | (Err Dies, _, s, _) => ∃ bs', stored (disk s) bs' ∧ (bs' = bs ∨ bs' = bs ++ [(seq, es)])
  end.
Proof using All.
  intros Hseq Hpos Hes Hd Ht Ep. unfold apply_batch. rewrite Ep.
  case_decide as Hne; [by eauto 10|]. case_decide; [by eauto 10|]. case_decide; [by eauto 10|].
  destruct Ht as [Hp Hl Hcur]. destruct Hd as [Hrep Hbs].
  unfold mbind, sql_bind at 1, map_err at 1.
  pose proof (begin_rests d w) as Hb. destruct (begin_with (at_rest d) w) as [[[u|[e|]] s1] w1].
  2:{ subst s1. exists d, bs. split_and!; [done|by split|by constructor|by left|done]. }
  2:{ exists bs. rewrite Hb. split; [by split|by left]. }
  subst s1. pose proof (dropping_stages _ d _ w1 (passes_represent self seq es bs
    ltac:(by rewrite Hl) ltac:(by rewrite Hp) Hseq Hes d ltac:(by rewrite Hp, Hl) (bo_order _ Hbs))) as Hs.
  destruct (dropping _ _ w1) as [[[u'|[e|]] s2] w2].
  2:{ subst s2. exists d, bs. split_and!; [done|by split|by constructor|by left|done]. }
  2:{ exists bs. rewrite Hs. split; [by split|by left]. }
  destruct Hs as (d' & -> & Hlt & Hrep'). rewrite Hp, Hl in Hrep'.
  assert (Hst' : stored d' (bs ++ [(seq, es)])) by (split; [done|by apply batches_ok_snoc]).
  assert (Hst : stored d bs) by done.
  pose proof (commit_rests d d' w2) as Hc. destruct (finalise_commit _ w2) as [[[u''|[ce|]] s3] w3].
  - subst s3. exists d'. split_and!; [done|done| |done]. constructor; try done. intros _. cbn. by rewrite cursor_after_snoc.
  - assert (Hc' : ∃ d2 bs', s3 = at_rest d2 ∧ stored d2 bs' ∧ (bs' = bs ∨ bs' = bs ++ [(seq, es)])) by (destruct Hc; eauto 10).
    destruct Hc' as (d2 & bs' & -> & Hst2 & Hor). unfold recover_cursor.
    pose proof (read_cursor_rests d2 w3) as Hr. destruct (read_cursor (at_rest d2) w3) as [[[c|[e|]] s4] w4].
    + destruct Hr as [-> Hr]. rewrite (stored_cursor _ _ Hst2) in Hr. injection Hr as <-.
      exists d2, bs'. split_and!; try done.
    + subst s4. exists d2, bs'. split_and!; try done.
    + subst s4. exists bs'. done.
  - destruct Hc as [-> | ->]; eauto.
Qed.
End Batch.

(** ** Streams *)

(** What a client reads of a stream of frames, whole or cut: the events, one by
    one, until the first thing that is not an event. *)
Definition carries (client : SubscribeClient) (evs : list CachedEvent) : Prop :=
  ∃ ms fs bytes, encode_all ms fs = Ok bytes ∧ arrives (reader client) `prefix_of` bytes ∧
    sent_events fs `prefix_of` evs.

(** A payload over the client's maximum is refused. *)
Lemma read_oversize mc s seq (payload rest : list u8) :
  Z.of_nat (length payload) < 2 ^ 32 → mc < Z.of_nat (length payload) →
  arrives s `prefix_of` to_be_bytes 8 seq ++ to_be_bytes 4 (Z.of_nat (length payload)) ++ rest →
  ∃ e, (read_body (E := ClientError) mc KIND_EVENT s).1 = Err e.
Proof.
  intros H32 Hmc Hs. unfold read_body, read_exact_or_truncated, mbind, wire_bind. rewrite decide_True by done.
  pose proof (read_field 8 (fun filled => wire_truncated (1 + filled) 13 : ClientError) s _ _ (to_be_bytes_length 8 seq) Hs) as Hr.
  destruct (read_loop 8 [] _ s) as [[bs|e] s1]; [|by eexists]. destruct Hr as (-> & _ & Hs1).
  pose proof (read_field 4 (fun filled => wire_truncated (9 + filled) 13 : ClientError) s1 _ _ (to_be_bytes_length 4 _) Hs1) as Hr.
  destruct (read_loop 4 [] _ s1) as [[bs|e] s2]; [|by eexists]. destruct Hr as (-> & _ & _).
  rewrite from_to_be_bytes by (unfold in_width; lia). rewrite decide_True by done. by eexists.
Qed.

Lemma read_body_terminal mc kind s seq payload :
  kind ≠ KIND_EVENT → (read_body (E := ClientError) mc kind s).1 ≠ Ok (EventFrame seq payload).
Proof.
  intros Hk. unfold read_body. rewrite decide_False by done. unfold mbind, wire_bind.
  repeat case_decide; try done; by destruct (read_u64_field s) as [[n|e] s'].
Qed.

#[local] Instance frame_fits_dec mc f : Decision (frame_fits mc f).
Proof. destruct f; cbn; apply _. Defined.

Lemma carries_read client evs :
  carries client evs → Forall (fun e => in_u64 (ce_seq e)) evs →
  match client_read_frame client with
  | (Ok (EventFrame seq payload), client') =>
      ∃ evs', evs = {| ce_seq := seq; ce_payload := payload |} :: evs' ∧ in_u64 seq ∧ carries client' evs'
  | _ => True
  end.
Proof.
  intros (ms & fs & bytes & He & Hs & Hp) Hty. unfold client_read_frame.
  destruct fs as [|f fs].
  { cbn in He. injection He as <-. apply prefix_nil_inv in Hs.
    pose proof (read_loop_spec 1 [] (fun _ => wire_eof : ClientError) (reader client)) as Hr.
    unfold read_server_frame, mbind, wire_bind. destruct (read_loop 1 [] _ _) as [[bs|e] s']; [|done].
    destruct Hr as [Hr _]. rewrite Hs in Hr. cbn in Hr. lia. }
  cbn in He. destruct (encode_outbound f ms) as [a|] eqn:Ea; [|done]. cbn in He.
  fold (encode_all ms fs) in He. destruct (encode_all ms fs) as [b|] eqn:Eb; [|done]. cbn in He. injection He as <-.
  destruct (decide (frame_kind f = KIND_EVENT)) as [Hkind|Hkind].
  2:{ apply encode_outbound_body in Ea as [-> _]. change (?k :: ?b) with ([k] ++ b) in Hs. rewrite <- app_assoc in Hs.
      pose proof (read_field 1 (fun _ => wire_eof : ClientError) (reader client) [frame_kind f] _ eq_refl Hs) as Hr.
      unfold read_server_frame, mbind, wire_bind. destruct (read_loop 1 [] _ _) as [[bs|e] s1]; [|done].
      destruct Hr as (-> & _ & _). pose proof (read_body_terminal (max_frame_size client) (frame_kind f) s1) as Hb.
      destruct (read_body _ _ s1) as [[[]|] s2]; try done. by destruct (Hb seq payload Hkind). }
  destruct f as [seq payload| | | |]; try done. destruct Hp as [l Hp]. cbn in Hp.
  assert (Hf : frame_typed (EventFrame seq payload)).
  { rewrite Hp in Hty. by inversion_clear Hty. }
  destruct (decide (frame_fits (max_frame_size client) (EventFrame seq payload))) as [Hfit|Hfit].
  - pose proof (read_server_frame_of (E := ClientError) _ ms (max_frame_size client) a (reader client) b Ea Hf Hfit Hs) as Hr.
    destruct (read_server_frame _ _) as [[f'|e] s']; [|done]. destruct Hr as (-> & _ & Hs').
    eexists. split; [exact Hp|]. split; [done|]. exists ms, fs, b. split_and!; try done. by exists l.
  - cbn in Hfit. apply encode_outbound_body in Ea as [-> H32].
    change (?k :: ?b) with ([k] ++ b) in Hs. rewrite <- app_assoc in Hs. cbn [frame_kind frame_body] in Hs. rewrite <- !app_assoc in Hs.
    unfold read_server_frame, mbind, wire_bind.
    pose proof (read_field 1 (fun _ => wire_eof : ClientError) (reader client) [KIND_EVENT] _ eq_refl Hs) as Hr.
    destruct (read_loop 1 [] _ _) as [[bs|e] s1]; [|done]. destruct Hr as (-> & _ & Hs1).
    destruct (read_oversize (max_frame_size client) s1 seq payload _ H32 ltac:(lia) Hs1) as [e Hr].
    destruct (read_body _ KIND_EVENT s1) as [r s2]. cbn in Hr. by subst r.
Qed.

Lemma filter_ext_in {A} (P Q : A → Prop) `{∀ x, Decision (P x), ∀ x, Decision (Q x)} (l : list A) :
  (∀ x, x ∈ l → P x ↔ Q x) → filter P l = filter Q l.
Proof.
  induction l as [|x l IH]; intros Heq; [done|]. rewrite !filter_cons, IH by set_solver.
  specialize (Heq x ltac:(constructor)). repeat case_decide; naive_solver.
Qed.

Lemma filter_all {A} (P : A → Prop) `{∀ x, Decision (P x)} (l : list A) : Forall P l → filter P l = l.
Proof. induction 1; [done|]. rewrite filter_cons_True by done. by f_equal. Qed.

Section Log.
Context (log : list CachedEvent).

(** An event and its decoding. *)
Definition decodes (ce : CachedEvent) (x : Z * Event) : Prop :=
  ce_seq ce = x.1 ∧ decode_event (ce_payload ce) = Ok x.2.

Definition flat (bs : list numbered_batch) : list (Z * Event) := bs ≫= fun b => (fun e => (b.1, e)) <$> b.2.

Definition window (base c : Z) : list CachedEvent := filter (fun e => base < ce_seq e ∧ ce_seq e ≤ c) log.

(** The batches are the events of the log after [base] up to their cursor, each
    once and in order. *)
Definition delivers (base : Z) (bs : list numbered_batch) : Prop :=
  Forall2 decodes (window base (cursor_after bs)) (flat bs).

Lemma flat_snoc bs seq es : flat (bs ++ [(seq, es)]) = flat bs ++ ((fun e => (seq, e)) <$> es).
Proof. unfold flat. rewrite bind_app. cbn. by rewrite app_nil_r. Qed.

(** The next batch of the log. *)
Lemma delivers_snoc base bs pre fly rest seq es :
  delivers base bs → log = pre ++ fly ++ rest → 0 ≤ base →
  Forall (fun e => ce_seq e ≤ Z.max base (cursor_after bs)) pre → Z.max base (cursor_after bs) < seq →
  Forall (fun e => ce_seq e = seq) fly → Forall (fun e => seq < ce_seq e) rest →
  Forall2 decodes fly ((fun e => (seq, e)) <$> es) →
  delivers base (bs ++ [(seq, es)]).
Proof.
  intros Hd Hlog Hbase Hpre Hlt Hfly Hrest Hdec. unfold delivers. rewrite cursor_after_snoc, flat_snoc. cbn.
  assert (Hnone : ∀ es c, Forall (fun e => c < ce_seq e) es → filter (fun e => base < ce_seq e ∧ ce_seq e ≤ c) es = []).
  { intros l c Hl. apply elem_of_nil_inv. intros e [He Hin]%list_elem_of_filter. rewrite Forall_forall in Hl.
    specialize (Hl _ Hin). lia. }
  assert (Hw : window base seq = window base (cursor_after bs) ++ fly); [|rewrite Hw; by apply Forall2_app].
  unfold window. rewrite Hlog, !filter_app, (Hnone rest seq) by done. rewrite app_nil_r.
  assert (Hfr : Forall (fun e => cursor_after bs < ce_seq e) (fly ++ rest)).
  { apply Forall_app. split; [eapply Forall_impl; [exact Hfly|]|eapply Forall_impl; [exact Hrest|]]; cbn; lia. }
  rewrite <- (filter_app _ fly rest), (Hnone _ (cursor_after bs) Hfr), app_nil_r. f_equal.
  - rewrite Forall_forall in Hpre. apply filter_ext_in. intros e He. specialize (Hpre _ He). lia.
  - apply filter_all. eapply Forall_impl; [exact Hfly|]. cbn. lia.
Qed.

(** [starts] are the numbers after which a subscriber with no cursor is sent
    events. *)
Context (starts : Z → Prop).

Definition indexed (bs : list numbered_batch) : Prop :=
  bs = [] ∨ ∃ base, starts base ∧ 0 ≤ base ≤ cursor_after bs ∧ delivers base bs.

(** A state between two frames: the batches of [bs] are stored, those of the
    number in flight are held, the rest is to come. *)
Record in_flight (base : Z) (bs : list numbered_batch) (b : InFlight) (rest : list CachedEvent) : Prop := {
  fl_start : starts base ∧ 0 ≤ base;
  fl_base : bs = [] ∨ base ≤ cursor_after bs;
  fl_delivers : delivers base bs;
  fl_seq : Z.max base (cursor_after bs) < current_seq b ∧ in_u64 (current_seq b);
  fl_log : ∃ pre fly, log = pre ++ fly ++ rest ∧ Forall (fun e => ce_seq e ≤ Z.max base (cursor_after bs)) pre ∧
    Forall (fun e => ce_seq e = current_seq b) fly ∧
    Forall2 decodes fly ((fun e => (current_seq b, e)) <$> batch b) ∧ fly ≠ [];
}.

Lemma in_flight_indexed base bs b rest : in_flight base bs b rest → indexed bs.
Proof. intros [[Hs H0] Hb Hd _ _]. destruct Hb as [Hb|Hb]; [by left|]. right. exists base. done. Qed.

Lemma decodes_ok seq fly es : Forall2 decodes fly ((fun e => (seq, e)) <$> es) → Forall event_ok es.
Proof.
  revert fly. induction es as [|e es IH]; intros fly Hd; [constructor|]. cbn in Hd.
  inversion Hd as [|? ? ? ? [_ He] Hrest]; subst. constructor; [|by eapply IH].
  apply decode_event_iff in He. cbn in He. naive_solver.
Qed.

Lemma in_flight_events base bs b rest : in_flight base bs b rest → Forall event_ok (batch b) ∧ batch b ≠ [].
Proof.
  intros [_ _ _ _ (pre & fly & _ & _ & _ & Hd & Hne)]. split; [by eapply decodes_ok|].
  intros Hb. rewrite Hb in Hd. by apply Forall2_nil_inv_r in Hd.
Qed.

Lemma in_flight_more base bs b ce rest b' :
  in_flight base bs b (ce :: rest) → ce_seq ce = current_seq b → accumulate b (ce_payload ce) = Ok b' →
  in_flight base bs b' rest.
Proof.
  intros [Hs Hb Hd Hq (pre & fly & Hlog & Hpre & Hfly & Hdec & Hne)] Hce. unfold accumulate.
  case_decide; [done|]. case_decide; [done|]. destruct (decode_event (ce_payload ce)) as [e|] eqn:Ed; [|done].
  intros [= <-]. constructor; try done. exists pre, (fly ++ [ce]). cbn. split_and!; try done.
  - rewrite Hlog. by rewrite <- app_assoc.
  - apply Forall_app. split; [done|by repeat constructor].
  - rewrite fmap_app. apply Forall2_app; [done|]. by repeat constructor.
  - by destruct fly.
Qed.

Context (Hlog : StronglySorted seq_le log) (Htyped : Forall (fun e => 0 < ce_seq e < FROM_OLDEST) log).

(** The batch in flight is whole when an event of a later number arrives. *)
Lemma in_flight_done base bs b ce rest :
  in_flight base bs b (ce :: rest) → current_seq b < ce_seq ce →
  delivers base (bs ++ [(current_seq b, batch b)]) ∧ indexed (bs ++ [(current_seq b, batch b)]).
Proof using Hlog.
  intros [[Hs H0] Hb Hd [Hq Hu] (pre & fly & Heq & Hpre & Hfly & Hdec & Hne)] Hce.
  assert (Hrest : Forall (fun e => current_seq b < ce_seq e) (ce :: rest)).
  { constructor; [done|]. rewrite Heq, app_assoc in Hlog. apply StronglySorted_app_1_r in Hlog.
    inversion_clear Hlog as [|? ? _ Hall]. eapply Forall_impl; [exact Hall|]. unfold seq_le. cbn. lia. }
  assert (Hd' : delivers base (bs ++ [(current_seq b, batch b)])) by (eapply delivers_snoc; eauto).
  split; [done|]. right. exists base. rewrite cursor_after_snoc. cbn. split_and!; try done; lia.
Qed.

Lemma in_flight_next base bs b ce rest b' :
  in_flight base bs b (ce :: rest) → current_seq b < ce_seq ce → in_u64 (ce_seq ce) →
  start_batch (ce_seq ce) (ce_payload ce) = Ok b' →
  in_flight base (bs ++ [(current_seq b, batch b)]) b' rest.
Proof using Hlog.
  intros Hf Hce Hu. destruct (in_flight_done _ _ _ _ _ Hf Hce) as [Hd' _].
  destruct Hf as [[Hs H0] Hb Hd [Hq _] (pre & fly & Heq & Hpre & Hfly & Hdec & Hne)].
  unfold start_batch. destruct (decode_event (ce_payload ce)) as [e|] eqn:Ed; [|done]. intros [= <-].
  constructor; rewrite ?cursor_after_snoc; cbn; try done; [right; lia|split; [lia|done]|].
  exists (pre ++ fly), [ce]. split_and!; try done; [by rewrite <- app_assoc| |by repeat constructor..].
  apply Forall_app. split; [eapply Forall_impl; [exact Hpre|]|eapply Forall_impl; [exact Hfly|]]; cbn; lia.
Qed.
End Log.

(** ** Sessions and runs *)

(** The subscription: a connection that resumes from [r] carries the events of
    the log after [r], or after a number below it (events that were delivered
    before are sent again); one with no cursor, those after a number of [starts]. *)
Class ServesLog (W : Type) `{SubscribeWorld W} (log : list CachedEvent) (starts : Z → Prop) : Prop := {
  serves_sorted : StronglySorted seq_le log;
  serves_typed : Forall (fun e => 0 < ce_seq e < FROM_OLDEST) log;
  serves_stream : ∀ r w s mc, 0 ≤ r < FROM_OLDEST → (connect r w).1 = Some s →
    ∃ base, carries (connected s mc) (after base log) ∧ 0 ≤ base ∧ (if decide (r = 0) then starts base else base ≤ r);
}.

Section Runs.
Context {W : Type} `{SqlWorldOk W} {SW : SubscribeWorld W} (log : list CachedEvent) (starts : Z → Prop).
Context {SL : ServesLog W log starts}.
Context (pool : option Z) (len : Z) (Hlen : 0 ≤ len) (Hpool : match pool with Some p => in_u64 p | None => True end).

(** An indexer between two batches. *)
Definition resting (self : Indexer) (s : Sqlite) : Prop :=
  ∃ d bs, s = at_rest d ∧ stored pool len d bs ∧ tracks pool len self bs ∧ indexed log starts bs.

Definition on_disk (s : Sqlite) : Prop := ∃ bs, stored pool len (disk s) bs ∧ indexed log starts bs.

Lemma resting_on_disk self s : resting self s → on_disk s.
Proof. intros (d & bs & -> & ? & _ & ?). by exists bs. Qed.

Definition session_ok (r : session * Indexer * Sqlite * W) : Prop :=
  match r with
  | (Dead, _, s, _) => on_disk s
  | (Running, self, s, _) => resting self s
  | (Ends o, self, s, _) => resting self s ∧ (is_ok (after_session o 0) = true → poisoned self = false)
  end.

Lemma log_u64 : Forall (fun e => in_u64 (ce_seq e)) log.
Proof using SL.
  eapply Forall_impl; [apply (serves_typed (log := log))|]. cbn. unfold in_width, FROM_OLDEST. intros. lia.
Qed.

Lemma rest_u64 base bs b rest : in_flight log starts base bs b rest → Forall (fun e => in_u64 (ce_seq e)) rest.
Proof using SL.
  intros [_ _ _ _ (pre & fly & Heq & _)]. pose proof log_u64 as Hl. rewrite Heq, !Forall_app in Hl. apply Hl.
Qed.

Lemma consume_batched_ok fuel : ∀ b client self base bs d rest w,
  in_flight log starts base bs b rest → carries client rest →
  stored pool len d bs → tracks pool len self bs → poisoned self = false →
  session_ok (consume_batched fuel b client self (at_rest d) w).
Proof using All.
  induction fuel as [|fuel IH]; intros b client self base bs d rest w Hf Hc Hd Ht Hp; cbn [consume_batched].
  { exists d, bs. split_and!; try done. by eapply in_flight_indexed. }
  assert (Hrest : resting self (at_rest d)) by (exists d, bs; split_and!; try done; by eapply in_flight_indexed).
  pose proof (carries_read _ _ Hc (rest_u64 _ _ _ _ Hf)) as Hr.
  destruct (client_read_frame client) as [[f|e] client']; [|by destruct e].
  destruct f as [seq payload| | | |]; try done. destruct Hr as (rest' & -> & Hu & Hc').
  destruct (seq ?= current_seq b) eqn:Ecmp.
  - apply Z.compare_eq in Ecmp. destruct (accumulate b payload) as [b'|] eqn:Ea; [|done].
    eapply IH; eauto. by eapply in_flight_more.
  - done.
  - rewrite Z.compare_gt_iff in Ecmp. destruct (in_flight_events _ _ _ _ _ _ Hf) as [Hok _].
    destruct (in_flight_done log starts serves_sorted _ _ _ _ _ Hf Ecmp) as [_ Hidx].
    pose proof (fl_seq _ _ _ _ _ _ Hf) as [Hq Hq']. destruct (fl_start _ _ _ _ _ _ Hf) as [_ Hb0].
    pose proof (in_flight_indexed _ _ _ _ _ _ Hf) as Hidx0.
    pose proof (apply_batch_ok pool len Hlen Hpool (current_seq b) (batch b) self bs d w Hq' ltac:(lia) Hok Hd Ht Hp) as Ha.
    destruct (apply_batch _ _ _ _ _) as [[[[u|[e|]] self'] s'] w'].
    + destruct Ha as (d' & -> & Hd' & Ht' & Hp'). destruct (start_batch seq payload) as [b'|] eqn:Es.
      * eapply IH; eauto. eapply (in_flight_next log starts serves_sorted _ _ _ _ _ _ Hf); eauto.
      * split; [|done]. exists d', (bs ++ [(current_seq b, batch b)]). done.
    + destruct Ha as (d' & bs' & -> & Hd' & Ht' & Hor & Hp'). split; [|by destruct e; auto].
      exists d', bs'. split_and!; try done. by destruct Hor as [-> | ->].
    + destruct Ha as (bs' & Hd' & Hor). exists bs'. split; [done|]. by destruct Hor as [-> | ->].
Qed.

Lemma sorted_after x es : StronglySorted seq_le es → es = filter (fun e => ce_seq e ≤ x) es ++ after x es.
Proof.
  induction 1 as [|e es Hs IH Hall]; [done|]. unfold after. rewrite !filter_cons. case_decide.
  - rewrite decide_False by lia. cbn. f_equal. exact IH.
  - rewrite decide_True by lia. rewrite IH at 1.
    assert (Hn : filter (fun e => ce_seq e ≤ x) es = []).
    { apply elem_of_nil_inv. intros a [Ha Hin]%list_elem_of_filter. rewrite Forall_forall in Hall.
      specialize (Hall _ Hin). unfold seq_le in Hall. lia. }
    by rewrite Hn.
Qed.

(** What is sent again is refused. *)
Lemma apply_batch_stale seq es self (s : Sqlite) (w : W) :
  seq ≤ cursor_value self → ∃ e, apply_batch seq es self s w = (Err (Fails e), self, s, w).
Proof using.
  intros Hle. unfold apply_batch. rewrite (decide_True (P := seq ≤ _)) by done. destruct (poisoned self); [by eexists|].
  destruct (decide (es = [])); [by eexists|]. destruct (decide (_ < _)%nat); by eexists.
Qed.

Lemma consume_stale fuel : ∀ b client self s w,
  current_seq b ≤ cursor_value self → resting self s → poisoned self = false →
  session_ok (consume_batched fuel b client self s w).
Proof using.
  induction fuel as [|fuel IH]; intros b client self s w Hle Hr Hp; cbn [consume_batched]; [done|].
  destruct (client_read_frame client) as [[f|e] client']; [|by destruct e].
  destruct f as [seq payload| | | |]; try done. destruct (seq ?= current_seq b).
  - destruct (accumulate b payload) as [b'|] eqn:Ea; [|done]. apply IH; try done.
    unfold accumulate in Ea. repeat case_decide; try done. destruct (decode_event payload); [|done].
    injection Ea as <-. done.
  - done.
  - destruct (apply_batch_stale (current_seq b) (batch b) self s w Hle) as [e ->]. done.
Qed.

Lemma stored_positive d bs : stored pool len d bs → bs = [] ∨ 0 < cursor_after bs.
Proof.
  intros [_ [_ _ Hn]]. destruct (last bs) as [b|] eqn:El; [|left; by apply last_None].
  right. unfold cursor_after. rewrite El. cbn. apply last_Some in El as [l ->]. apply Forall_app in Hn as [_ Hn].
  inversion_clear Hn. lia.
Qed.

(** The cursor is the number of an event of the log. *)
Lemma indexed_cursor d bs : stored pool len d bs → indexed log starts bs → 0 ≤ cursor_after bs < FROM_OLDEST.
Proof using All.
  intros Hd Hi. destruct (stored_positive _ _ Hd) as [-> |Hpos]; [done|]. destruct Hd as [_ [_ _ Hn]].
  destruct Hi as [-> |(base & _ & Hle & Hdel)]; [done|]. split; [lia|]. unfold cursor_after in Hpos.
  destruct (last bs) as [[seq es]|] eqn:El; [|done]. unfold delivers, cursor_after in *. rewrite El in *. cbn in *.
  apply last_Some in El as [l ->]. apply Forall_app in Hn as [_ Hn]. inversion_clear Hn as [|? ? [_ Hne] _].
  rewrite flat_snoc in Hdel. destruct es as [|e es]; [done|]. apply Forall2_app_inv_r in Hdel as (l1 & l2 & _ & H2 & Hw).
  cbn in H2. inversion H2 as [|ce ? l3 ? [Hce _] _]; subst. cbn in Hce.
  assert (Hin : ce ∈ window log base seq) by (rewrite Hw; set_solver).
  unfold window in Hin. apply list_elem_of_filter in Hin as [_ Hin].
  pose proof (serves_typed (log := log)) as Hty. rewrite Forall_forall in Hty. specialize (Hty _ Hin). lia.
Qed.

(** A connection of an indexer with batches [bs] starts a stream from them. *)
Lemma stream_base self bs d base :
  stored pool len d bs → tracks pool len self bs → indexed log starts bs → poisoned self = false →
  (if decide (cursor_value self = 0) then starts base ∧ 0 ≤ base else base = cursor_value self) →
  ∃ base', starts base' ∧ 0 ≤ base' ∧ (bs = [] ∨ base' ≤ cursor_after bs) ∧ delivers log base' bs ∧
    base = Z.max base' (cursor_after bs).
Proof using SL.
  intros Hd Ht Hi Hp Hb. rewrite (tr_cursor _ _ _ _ Ht Hp) in Hb. destruct (decide (cursor_after bs = 0)) as [Hz|Hz].
  - destruct Hb as [Hb Hb0]. exists base. destruct (stored_positive _ _ Hd) as [-> |]; [|lia].
    cbn. split_and!; try done; [by left| |lia]. unfold delivers, window. cbn.
    assert (Hn : filter (fun e => base < ce_seq e ∧ ce_seq e ≤ 0) log = []); [|by rewrite Hn].
    apply elem_of_nil_inv. intros e [He Hin]%list_elem_of_filter.
    pose proof (serves_typed (log := log)) as Hty. rewrite Forall_forall in Hty. specialize (Hty _ Hin). lia.
  - subst base. destruct Hi as [-> |(base' & Hs & Hle & Hdel)]; [done|]. exists base'. split_and!; try done; [lia|by right; lia|lia].
Qed.

Lemma after_empty_window a b es :
  StronglySorted seq_le es → a ≤ b → Forall (fun e => b < ce_seq e) (after a es) → after a es = after b es.
Proof.
  intros _ Hab Hall. unfold after in *. apply filter_ext_in. intros e He. split; [|lia]. intros Ha.
  rewrite Forall_forall in Hall. apply Hall. by apply list_elem_of_filter.
Qed.

Lemma consume_stream_ok frames client self s w base :
  resting self s → poisoned self = false → carries client (after base log) → 0 ≤ base →
  (if decide (cursor_value self = 0) then starts base else base ≤ cursor_value self) →
  session_ok (consume_stream frames client self s w).
Proof using All.
  intros Hrest Hp Hc Hb0 Hb. unfold consume_stream.
  assert (Hty : Forall (fun e => in_u64 (ce_seq e)) (after base log)).
  { pose proof log_u64 as Hl. rewrite (sorted_after base log serves_sorted), Forall_app in Hl. apply Hl. }
  pose proof (carries_read _ _ Hc Hty) as Hr. destruct (client_read_frame client) as [[f|e] client']; [|by destruct e].
  destruct f as [seq payload| | | |]; try done. destruct Hr as (rest & Hrest' & Hu & Hc').
  destruct (decide (seq = 0)); [done|]. unfold start_batch. destruct (decode_event payload) as [e|] eqn:Ed; [|done].
  destruct (decide (cursor_value self ≠ 0 ∧ seq ≤ cursor_value self)) as [[_ Hstale]|Hfresh]; [by apply consume_stale|].
  destruct Hrest as (d & bs & -> & Hd & Ht & Hi). set (ce := {| ce_seq := seq; ce_payload := payload |}) in *.
  assert (Hsort : StronglySorted seq_le (after base log)) by (apply after_sorted, serves_sorted).
  assert (Hbase : ∃ x, after base log = after x log ∧
    (if decide (cursor_value self = 0) then starts x ∧ 0 ≤ x else x = cursor_value self)).
  { case_decide as Hz; [by exists base|]. exists (cursor_value self). split; [|done].
    apply after_empty_window; [apply serves_sorted|done|]. rewrite Hrest' in Hsort |- *.
    inversion_clear Hsort as [|? ? _ Hall]. constructor; [cbn; lia|]. eapply Forall_impl; [exact Hall|].
    unfold seq_le. cbn. lia. }
  destruct Hbase as (x & Hx & Hxb). rewrite Hx in Hrest'.
  destruct (stream_base self bs d x Hd Ht Hi Hp Hxb) as (base' & Hs & Hbase' & Hor & Hdel & Hmax).
  assert (Hin : ce ∈ after x log) by (rewrite Hrest'; constructor).
  unfold after in Hin. apply list_elem_of_filter in Hin as [Hlt _]. cbn in Hlt.
  eapply consume_batched_ok; eauto. constructor; cbn; try done; [split; [lia|done]|].
  exists (filter (fun e => ce_seq e ≤ x) log), [ce].
  split_and!; try done; [| |by repeat constructor..].
  - rewrite (sorted_after x log serves_sorted) at 1. by rewrite Hrest'.
  - rewrite <- Hmax. apply Forall_forall. intros y [Hy _]%list_elem_of_filter. done.
Qed.

Context (cfg : DaemonConfig) (Hcfg : daemon_gas_pool_actor cfg = pool ∧ daemon_epoch_length cfg = len).

Lemma daemon_loop_ok frames rounds : ∀ reconnects self s w,
  resting self s → poisoned self = false →
  on_disk (daemon_loop (W := W) cfg frames rounds reconnects self s w).1.2.
Proof using All.
  induction rounds as [|rounds IH]; intros reconnects self s w Hr Hp; cbn [daemon_loop]; [by eapply resting_on_disk|].
  case_decide; [by eapply resting_on_disk|].
  pose proof (serves_stream (log := log) (starts := starts) (cursor_value self) w) as Hs.
  destruct (connect (cursor_value self) w) as [[reader|] w1]; [|by apply IH].
  assert (Hcur : 0 ≤ cursor_value self < FROM_OLDEST).
  { destruct Hr as (d & bs & _ & Hd & Ht & Hi). rewrite (tr_cursor _ _ _ _ Ht Hp). by eapply indexed_cursor. }
  destruct (Hs reader (daemon_max_frame_size cfg) Hcur eq_refl) as (base & Hc & Hb0 & Hb).
  pose proof (consume_stream_ok frames _ self s w1 base Hr Hp Hc Hb0 Hb) as Ho.
  destruct (consume_stream _ _ _ _ _) as [[[[o| |] self'] s'] w2]; [|by eapply resting_on_disk|done].
  destruct Ho as [Hr' Hp']. assert (Hany : ∀ n, is_ok (after_session o n) = is_ok (after_session o 0)) by (destruct o as [| | | | | |[]]; done).
  destruct (after_session o 0) as [n|] eqn:Eo; [|by eapply resting_on_disk]. by apply IH; [|apply Hp'].
Qed.

(** *** Opening *)

Lemma identifier_stored d bs : stored pool len d bs → stored pool len (put_row IDENTIFIER_KEY INDEXER_IDENTIFIER d) bs.
Proof.
  intros [Hr Hb]. split; [|done]. destruct Hr as [H1 H2 H3 H4]. constructor; cbn [kv counters put_row]; try done.
  - intros a r Ha Hr. rewrite lookup_insert_ne; [auto|]. intros He. symmetry in He. by apply balance_key_other in He.
  - by rewrite lookup_insert_ne.
  - by rewrite lookup_insert_ne.
Qed.

Lemma ensure_identifier_ok d bs w :
  stored pool len d bs →
  match ensure_identifier (W := W) INDEXER_IDENTIFIER (at_rest d) w with
  | (Ok _, s, _) => ∃ d', s = at_rest d' ∧ stored pool len d' bs
  | (Err _, s, _) => ∃ d', s = at_rest d' ∧ stored pool len d' bs
  end.
Proof.
  intros Hd. unfold ensure_identifier, storage_get, storage_put, check_identifier, execute, mbind, sql_bind.
  cbn [view at_rest open_tx default disk].
  destruct (statement w) as [[|[]|[]] w1]; cbn [set_view open_tx at_rest fst snd]; eauto.
  destruct (kv d !! IDENTIFIER_KEY) as [bs0|].
  - destruct (negb _); [|case_decide]; cbn; eauto.
  - destruct (statement w1) as [[|[]|[]] w2]; cbn [set_view open_tx at_rest fst snd view default disk]; eauto using identifier_stored.
Qed.

Lemma run_daemon_ok frames rounds d bs w :
  stored pool len d bs → indexed log starts bs → on_disk (run_daemon (W := W) cfg frames rounds (at_rest d) w).1.2.
Proof using All.
  intros Hd Hi. unfold run_daemon, open_with_config, mbind, sql_bind, map_err.
  pose proof (ensure_identifier_ok d bs w Hd) as He.
  destruct (ensure_identifier _ _ w) as [[[u|[e|]] s1] w1]; destruct He as (d1 & -> & Hd1); [|by exists bs..].
  pose proof (read_cursor_rests d1 w1) as Hr.
  destruct (read_cursor (at_rest d1) w1) as [[[c|[e|]] s2] w2]; [|by subst; exists bs..].
  destruct Hr as [-> Hr]. rewrite (stored_cursor _ _ _ _ Hd1) in Hr. injection Hr as <-. cbn.
  apply daemon_loop_ok; [|done]. exists d1, bs. split_and!; try done. destruct Hcfg as [H1 H2]. by constructor.
Qed.

Lemma lifetime_ok runs : ∀ d bs w,
  stored pool len d bs → indexed log starts bs → on_disk (lifetime (W := W) cfg runs (at_rest d) w).1.
Proof using All.
  induction runs as [|[frames rounds] runs IH]; intros d bs w Hd Hi; cbn [lifetime]; [by exists bs|].
  pose proof (run_daemon_ok frames rounds d bs w Hd Hi) as Hr.
  destruct (run_daemon _ _ _ _ _) as [[o s] w1]. destruct Hr as (bs' & Hd' & Hi'). by eapply IH.
Qed.
End Runs.

Definition empty_database : Database := {| kv := ∅; counters := ∅ |}.

Lemma empty_stored pool len : 0 ≤ len → stored pool len empty_database [].
Proof.
  intros Hlen. split; [|by repeat constructor]. constructor; cbn [kv counters empty_database]; intros; try by rewrite lookup_empty.
  - rewrite lookup_empty. cbn. by destruct t.
  - rewrite lookup_empty. cbn. unfold epoch_after, epoch_for_seq, checked_div. cbn. by case_decide; [|rewrite Z.div_0_l].
Qed.

(** C16: Over any lifetime of the indexer, from an empty database and through any
    sequence of sessions, network failures, refused statements, failed or
    unreported commits and crashes, over connections that may send events at or
    below the cursor again, the database on disk shows exactly a list of
    batches whose numbers increase: every balance, budget, epoch and pool counter is
    the function of those batches that the contract states, the cursor is the last
    of their numbers, and their events are those of the log after a number [base] at
    which a subscription without a cursor starts, up to the cursor, decoded, each
    once and in order; the events up to [base] are not indexed. *)
Theorem indexer_exactly_once {W : Type} `{SqlWorldOk W} {SW : SubscribeWorld W} log starts
    {SL : ServesLog W log starts} (cfg : DaemonConfig) runs w :
  0 ≤ daemon_epoch_length cfg →
  match daemon_gas_pool_actor cfg with Some p => in_u64 p | None => True end →
  ∃ bs,
    represents (daemon_gas_pool_actor cfg) (daemon_epoch_length cfg)
      (disk (lifetime cfg runs (at_rest empty_database) w).1) bs ∧
    StronglySorted Z.lt bs.*1 ∧ Forall (fun b => 0 < b.1 ∧ b.2 ≠ []) bs ∧
    (bs = [] ∨ ∃ base, starts base ∧ 0 ≤ base ≤ cursor_after bs ∧ delivers log base bs).
Proof.
  intros Hlen Hpool.
  destruct (lifetime_ok (W := W) log starts _ _ Hlen Hpool cfg (conj eq_refl eq_refl) runs empty_database [] w)
    as (bs & [Hr [_ Hs Hn]] & Hi); [by apply empty_stored|by left|]. by exists bs.
Qed.

(** *** A small world *)

(** A server that has the whole log, and sends it again from the start to a
    subscriber that resumes from 2; and the fates of the commits. *)
Definition Script : Type := list commit_fate.

#[local] Instance Script_sql : SqlWorld Script := {|
  statement w := (Ran, w);
  committing w := match w with [] => (Committed true, []) | f :: w => (f, w) end;
  rolling_back w := (Ran, w);
|}.

#[local] Instance Script_ok : SqlWorldOk Script.
Proof. by constructor. Qed.

Definition demo_log : list CachedEvent :=
  [{| ce_seq := 1; ce_payload := encode_event (DepositCredited 0 5 100 1) |};
   {| ce_seq := 1; ce_payload := encode_event (BudgetConsumed 5 2) |};
   {| ce_seq := 2; ce_payload := encode_event (WithdrawalRequested 0 5 30 (replicate 20 (byte_of 7)) 1) |};
   {| ce_seq := 3; ce_payload := encode_event (TimeRecorded 9) |}].

Definition demo_stream (r : Z) : list u8 :=
  match encode_all 1024 (event_frame <$> after r demo_log) with Ok bytes => bytes | Err _ => [] end.

Definition demo_base (r : Z) : Z := if decide (r = 2) then 0 else r.

#[local] Instance Script_subscribe : SubscribeWorld Script :=
  {| connect r w := (Some [Chunk (demo_stream (demo_base r))], w) |}.

Lemma encode_all_ok ms fs : Forall (fun f => is_ok (encode_outbound f ms) = true) fs → ∃ bytes, encode_all ms fs = Ok bytes.
Proof.
  induction 1 as [|f fs Hf _ [b IH]]; [by eexists|]. cbn. fold (encode_all ms fs). rewrite IH.
  destruct (encode_outbound f ms); [|done]. by eexists.
Qed.

Lemma sent_events_frames es : sent_events (event_frame <$> es) = es.
Proof. induction es as [|[s p] es IH]; [done|]. cbn. by f_equal. Qed.

#[local] Instance demo_serves : ServesLog Script demo_log (fun j => j = 0).
Proof.
  constructor.
  - repeat constructor; unfold seq_le; cbn; lia.
  - repeat constructor; vm_compute; done.
  - intros r w s mc [Hr _] [= <-]. exists (demo_base r).
    split; [|unfold demo_base; split; repeat case_decide; lia].
    destruct (encode_all_ok 1024 (event_frame <$> after (demo_base r) demo_log)) as [bytes Hb].
    { apply Forall_fmap, Forall_forall. intros e [_ He]%list_elem_of_filter. revert e He. apply Forall_forall.
      repeat constructor. }
    exists 1024, (event_frame <$> after (demo_base r) demo_log), bytes. split_and!; [done| |by rewrite sent_events_frames].
    unfold demo_stream. rewrite Hb. cbn. destruct bytes; cbn; [done|]. by rewrite app_nil_r.
Qed.

Definition demo_daemon : DaemonConfig :=
  {| daemon_gas_pool_actor := None; daemon_epoch_length := 0; max_reconnects := 0; daemon_max_frame_size := 1024 |}.

(** The first commit happens and reports an error; the second is lost with the
    process.  The last process is sent again what the first has stored. *)
Definition demo_script : Script := [Committed false; KilledCommitting false].
Definition demo_disk : Database := disk (lifetime demo_daemon [(9%nat, 3%nat); (9%nat, 1%nat); (9%nat, 2%nat)] (at_rest empty_database) demo_script).1.

Lemma indexer_exactly_once_witness :
  decode_cursor (kv demo_disk !! CURSOR_KEY) = Ok 2 ∧
  decode_cell 5 0 (kv demo_disk !! balance_key 5 0) = Ok 70 ∧
  ∃ bs, represents None 0 demo_disk bs ∧ StronglySorted Z.lt bs.*1 ∧ Forall (fun b => 0 < b.1 ∧ b.2 ≠ []) bs ∧
    (bs = [] ∨ ∃ base, base = 0 ∧ 0 ≤ base ≤ cursor_after bs ∧ delivers demo_log base bs).
Proof.
  split; [vm_compute; reflexivity|]. split; [vm_compute; reflexivity|].
  apply (indexer_exactly_once demo_log (fun j => j = 0) demo_daemon [(9%nat, 3%nat); (9%nat, 1%nat); (9%nat, 2%nat)] demo_script).
  - cbn. lia.
  - exact I.
Defined.
