(* ===== verification/Pipeline.v ===== *)
(** * From the log to the database

    The event server and the indexer together.  [ServedBy] is a network whose
    connections carry what threads of an event server have written, cut anywhere;
    the server's theorem on streams discharges the interface [ServesLog] that the
    indexer's theorem is proved against.  [pipeline_loses_events] evaluates two runs
    in which events of the log never reach the database. *)

From Stdlib Require Import ZArith Lia Sorted.
From stdpp Require Import base numbers list gmap sorting.
From S2P Require Import Prelude Frame EventWire EventCache EventServer EventStream.
From S2P Require Import IndexEvent IndexStore Indexer IndexViews IndexerSafe.

Local Open Scope Z_scope.

(** A connection of an event server: a thread [k] of a run, whose subscriber lost
    no batch.  The server may have been started after the indexer moved its cursor:
    it publishes the log again from the first frame, and the number the indexer
    resumes from may be beyond the frames published when it registered. *)
Record served (batches : list (list CachedEvent)) (r : Z) (s : list delivery) : Prop := {
  sv_run : ∃ scfg capacity c0 chs st c k j bytes,
    0 ≤ capacity ∧ EventCache_new capacity = Ok c0 ∧ server_run scfg chs (Server_new c0) = Some st ∧
    (published st) `prefix_of` batches ∧ conns st !! c = Some k ∧ resume_from k = r ∧
    joined st !! conn_sub k = Some j ∧ (conn_sub k ∉ dropped st) ∧
    encode_all (dispatch_max_frame_size scfg) (sent k) = Ok bytes ∧ arrives s `prefix_of` bytes;
}.

Class ServedBy (W : Type) `{SubscribeWorld W} (batches : list (list CachedEvent)) : Prop := {
  sb_numbered : ∀ i batch, batches !! i = Some batch → Forall (fun e => ce_seq e = Z.of_nat i + 1) batch;
  sb_bound : Z.of_nat (length batches) + 1 < FROM_OLDEST;
  sb_served : ∀ r w s, 0 ≤ r < FROM_OLDEST → (connect r w).1 = Some s → served batches r s;
}.

(** The events of frames numbered in order are in order. *)
Lemma numbered_sorted batches :
  (∀ i batch, batches !! i = Some batch → Forall (fun e => ce_seq e = Z.of_nat i + 1) batch) →
  StronglySorted seq_le (mjoin batches) ∧
  Forall (fun e => 0 < ce_seq e ≤ Z.of_nat (length batches)) (mjoin batches).
Proof.
  induction batches as [|batch batches IH] using rev_ind; intros Hnum; [split; constructor|].
  destruct IH as [Hs Hall].
  { intros i b Hi. apply Hnum. by apply lookup_app_l_Some. }
  pose proof (Hnum (length batches) batch ltac:(by rewrite list_lookup_middle)) as Hb.
  rewrite join_app. change (mjoin [batch]) with (batch ++ []). rewrite app_nil_r, length_app. cbn [length]. split.
  - apply StronglySorted_app_2; [|done|].
    + intros x y Hx Hy. rewrite Forall_forall in Hall, Hb. specialize (Hall _ Hx). specialize (Hb _ Hy). unfold seq_le. lia.
    + clear -Hb. induction Hb as [|e es He Hes IH]; [constructor|]. constructor; [done|].
      eapply Forall_impl; [exact Hes|]. unfold seq_le. cbn. lia.
  - apply Forall_app. split; (eapply Forall_impl; [eassumption|]); cbn; lia.
Qed.

#[global] Instance ServedBy_log {W} `{ServedBy W batches} :
  ServesLog W (mjoin batches) (fun b => ∃ n : nat, b = Z.of_nat n ∧ (n ≤ length batches)%nat).
Proof.
  destruct (numbered_sorted batches sb_numbered) as [Hsort Hall]. constructor; [done| |].
  { eapply Forall_impl; [exact Hall|]. cbn. pose proof (sb_bound (W := W) (batches := batches)). lia. }
  intros r w s mc Hr Hs.
  destruct (sb_served r w s Hr Hs) as [(scfg & cap & c0 & chs & st & c & k & j & bytes & Hcap & Hc0 & Hrun & Hp & Hk & Hres & Hj & Hd & He & Ha)].
  pose proof (prefix_length _ _ Hp) as Hlp. pose proof (sb_bound (W := W) (batches := batches)) as Hmax.
  destruct (run_owes scfg cap c0 chs st c k j) as (o & Ho & Hjl & Hpre & _); try done; [lia|by unfold numbered; lia|].
  unfold owes in Ho. rewrite Hres in Ho. exists o. split; [|split].
  - exists (dispatch_max_frame_size scfg), (sent k), bytes. split_and!; try done. etrans; [exact Hpre|].
    apply after_prefix. destruct Hp as [l ->]. rewrite join_app. by apply prefix_app_r.
  - repeat case_decide; lia.
  - case_decide; [exists j; split; [done|lia]|]. case_decide; lia.
Qed.

(** C3: An indexer that follows an event server shows the log: over any lifetime
    of the indexer, with connections that carry what the threads of event servers
    wrote to subscribers that lost no batch, cut anywhere, and that send events at
    or below the indexer's cursor again when a server was started again and is
    reading its log, the database on disk is empty or represents the batches of the
    log after some frame [n] up to the cursor, each applied once and in order.  The
    frames up to [n], those before the indexer first registered, are not indexed. *)
Theorem pipeline_exactly_once {W : Type} `{SqlWorldOk W} {SW : SubscribeWorld W} batches {SB : ServedBy W batches}
    (cfg : DaemonConfig) runs w :
  0 ≤ daemon_epoch_length cfg →
  match daemon_gas_pool_actor cfg with Some p => in_u64 p | None => True end →
  ∃ bs,
    represents (daemon_gas_pool_actor cfg) (daemon_epoch_length cfg)
      (disk (lifetime cfg runs (at_rest empty_database) w).1) bs ∧
    (bs = [] ∨ ∃ n : nat, (n ≤ length batches)%nat ∧ Z.of_nat n ≤ cursor_after bs ∧
       delivers (mjoin batches) (Z.of_nat n) bs).
Proof.
  intros Hlen Hpool.
  destruct (lifetime_ok (W := W) (mjoin batches) _ _ _ Hlen Hpool cfg (conj eq_refl eq_refl) runs empty_database [] w)
    as (bs & [Hr _] & Hi); [by apply empty_stored|by left|]. exists bs. split; [done|].
  destruct Hi as [-> |(base & (n & -> & Hn) & Hle & Hd)]; [by left|]. right. exists n. split_and!; try done; lia.
Qed.

(** *** A small deployment *)

Definition deposit (amount : Z) : list u8 := encode_event (DepositCredited 0 5 amount 1).

Definition log_frame (subscribers : nat) (amount : Z) : list choice :=
  Extractor (Some [deposit amount]) :: replicate (subscribers + 2) (Extractor None).

(** What the thread of connection [c] has written at the end of a run. *)
Definition written_to (c : Z) (chs : list choice) : list OutboundFrame :=
  match server_run demo_config chs demo_server ≫= fun st => conns st !! c with Some k => sent k | None => [] end.

Definition bytes_to (c : Z) (chs : list choice) : list u8 :=
  match encode_all 1024 (written_to c chs) with Ok bytes => bytes | Err _ => [] end.

(** A subscriber from the start, and one that resumes from frame 2 at a server that
    was started again and has yet to read its log. *)
Definition live_run : list choice :=
  [Accept 7 0] ++ turns 4 7 ++ log_frame 1 1 ++ turns 4 7 ++ log_frame 1 10 ++ turns 4 7 ++ log_frame 1 100 ++ turns 4 7.
Definition reread_run : list choice :=
  [Accept 8 2] ++ turns 4 8 ++ log_frame 1 1 ++ turns 4 8 ++ log_frame 1 10 ++ turns 4 8 ++ log_frame 1 100 ++ turns 4 8.

Definition demo_batches : list (list CachedEvent) :=
  [[{| ce_seq := 1; ce_payload := deposit 1 |}]; [{| ce_seq := 2; ce_payload := deposit 10 |}];
   [{| ce_seq := 3; ce_payload := deposit 100 |}]].

#[local] Existing Instances IndexerSafe.Script_sql IndexerSafe.Script_ok.

#[local] Instance demo_network : SubscribeWorld Script := {|
  connect r w :=
    (if decide (r = 0) then Some [Chunk (bytes_to 7 live_run)]
     else if decide (r = 2) then Some [Chunk (bytes_to 8 reread_run)] else None, w) |}.

Lemma demo_served_by chs c r k sub j :
  server_run demo_config chs demo_server ≫= (fun st => Some (published st, conns st !! c, joined st !! sub, dropped st)) =
    Some (demo_batches, Some k, Some j, []) →
  conn_sub k = sub → resume_from k = r → is_ok (encode_all 1024 (sent k)) = true →
  served demo_batches r [Chunk (bytes_to c chs)].
Proof.
  intros Hrun <- Hr Hok. destruct (server_run demo_config chs demo_server) as [st|] eqn:E; [|done].
  cbn in Hrun. injection Hrun as Hp Hk Hj Hd. destruct (encode_all 1024 (sent k)) as [bytes|] eqn:Ee; [|done].
  constructor. exists demo_config, 2, (cache demo_server), chs, st, c, k, j, bytes.
  split_and!; try done; [by rewrite Hp|by rewrite Hd; apply not_elem_of_nil|].
  assert (Hw : written_to c chs = sent k) by (unfold written_to; rewrite E; cbn [mbind option_bind]; by rewrite Hk).
  unfold bytes_to. rewrite Hw, Ee. destruct bytes; cbn; [done|]. by rewrite app_nil_r.
Qed.

#[local] Instance demo_network_served : ServedBy Script demo_batches.
Proof.
  constructor.
  - intros [|[|[|i]]] batch; cbn; intros [= <-]; by repeat constructor.
  - done.
  - intros r w s _. cbn. case_decide as H0; [|case_decide as H2]; intros [= <-].
    + eapply (demo_served_by _ _ _ _ 1); [vm_compute; reflexivity|done|by subst|vm_compute; reflexivity].
    + eapply (demo_served_by _ _ _ _ 1); [vm_compute; reflexivity|done|by subst|vm_compute; reflexivity].
Qed.

Definition indexed_disk : Database :=
  disk (lifetime demo_daemon [(9%nat, 1%nat); (9%nat, 3%nat); (9%nat, 1%nat)] (at_rest empty_database) [NotCommitted true]).1.

(** The first process loses its first commit, the second stores two batches, and the
    events it is sent again are refused, also to the third. *)
Lemma pipeline_exactly_once_witness :
  decode_cell 5 0 (kv indexed_disk !! balance_key 5 0) = Ok 11 ∧
  ∃ bs, represents None 0 indexed_disk bs ∧
    (bs = [] ∨ ∃ n : nat, (n ≤ 3)%nat ∧ Z.of_nat n ≤ cursor_after bs ∧ delivers (mjoin demo_batches) (Z.of_nat n) bs).
Proof.
  split; [vm_compute; reflexivity|].
  apply (pipeline_exactly_once demo_batches demo_daemon [(9%nat, 1%nat); (9%nat, 3%nat); (9%nat, 1%nat)] [NotCommitted true]).
  - cbn. lia.
  - exact I.
Defined.

(** The queue of the subscriber (one batch deep) is full while three frames are
    published; and a new indexer registers when the log already has two frames. *)
Definition lagging_run : list choice :=
  [Accept 7 0] ++ turns 4 7 ++ log_frame 1 1 ++ log_frame 1 10 ++ log_frame 1 100 ++ log_frame 1 1000 ++ turns 12 7 ++
  log_frame 1 10000 ++ turns 4 7 ++ log_frame 1 100000 ++ turns 4 7.
Definition late_run : list choice :=
  log_frame 0 1 ++ log_frame 0 10 ++ [Accept 7 0] ++ turns 4 7 ++ log_frame 1 100 ++ turns 4 7 ++ log_frame 1 1000 ++ turns 4 7.

Definition fed_by (chs : list choice) : Database :=
  disk (@lifetime Script IndexerSafe.Script_sql {| connect r w := (Some [Chunk (bytes_to 7 chs)], w) |}
    demo_daemon [(9%nat, 1%nat)] (at_rest empty_database) []).1.

(** What the database shows of a run: the numbers of the frames published, the
    cursor, and the balance the deposits have added up to. *)
Definition outcome_of (chs : list choice) : option (list Z * result Z CursorError * result Z BalanceError) :=
  st ← server_run demo_config chs demo_server;
  Some (ce_seq <$> mjoin (published st), decode_cursor (kv (fed_by chs) !! CURSOR_KEY),
        decode_cell 5 0 (kv (fed_by chs) !! balance_key 5 0)).

(** The database is not the log when a batch is dropped or the indexer is new:
    with deposits of 1, 10, 100, ... in consecutive frames, an indexer whose queue
    was full once, well within the allowed lag, moves its cursor to 5 with the
    deposits of frames 2, 3 and 4 missing; and an indexer with an empty database
    moves its cursor to 3 without the two frames that were there before it. *)
Example pipeline_loses_events :
  outcome_of lagging_run = Some ([1; 2; 3; 4; 5; 6], Ok 5, Ok (1 + 10000)) ∧
  outcome_of late_run = Some ([1; 2; 3; 4], Ok 3, Ok 100).
Proof. split; vm_compute; reflexivity. Qed.
