(* ===== verification/CbeDecode.v ===== *)
(** * The binary decoder of the contracts

    [lib/CBEDecode.sol]: heads, integers, amounts, byte strings and addresses read
    from calldata at an offset.  [consumes] is the exactness of a reader: it
    answers at an offset exactly when the bytes there are an encoding of its
    answer.  Offsets are at most the length of the calldata plus a head, so the
    checked additions on them do not panic and are written as additions. *)

From Stdlib Require Import ZArith Lia.
From stdpp Require Import base numbers list.
From S2P Require Import Prelude.

Local Open Scope Z_scope.

Definition TAG_UINT : u8 := byte_of 0x00.
Definition TAG_AMOUNT : u8 := byte_of 0x06.
Definition TAG_BYTES : u8 := byte_of 0x02.
Definition TAG_ARRAY : u8 := byte_of 0x04.
Definition TAG_MAP : u8 := byte_of 0x05.

Inductive CbeError : Type :=
| CBEUnexpectedEof
| CBEInvalidMajorType (got expected : u8)
| CBEInvalidLength
| CBESizeMismatch (expected actual : Z).

(** A reader of calldata, on the offset. *)
Abbreviation cbe A := (stateful Z CbeError A).

Section Readers.
Context (buf : list u8).

Definition buf_length : Z := Z.of_nat (length buf).

(** [len] bytes of the calldata at an offset. *)
Definition calldata (offset len : Z) : list u8 := take (Z.to_nat len) (drop (Z.to_nat offset) buf).

Definition readUint64LE : cbe Z := fun offset =>
  if decide (buf_length < offset + 8) then Err CBEUnexpectedEof
  else Ok (from_le_bytes (calldata offset 8), offset + 8).

Definition readUint256LE : cbe Z := fun offset =>
  if decide (buf_length < offset + 32) then Err CBEUnexpectedEof
  else Ok (from_le_bytes (calldata offset 32), offset + 32).

Definition peekTag (offset : Z) : result u8 CbeError := ok_or (buf !! Z.to_nat offset) CBEUnexpectedEof.

(** The tag, which must be the expected one, and then the value. *)
Definition readTagged (expectedTag : u8) (value : cbe Z) : cbe Z := fun offset =>
  let? gotTag := peekTag offset in
  if decide (gotTag ≠ expectedTag) then Err (CBEInvalidMajorType gotTag expectedTag)
  else value (offset + 1).

Definition readHead (expectedTag : u8) : cbe Z := readTagged expectedTag readUint64LE.

Definition readUint : cbe Z := readHead TAG_UINT.

Definition readAmount : cbe Z := readTagged TAG_AMOUNT readUint256LE.

Definition readBytes : cbe (list u8) := fun offset =>
  let? (length, afterHead) := readHead TAG_BYTES offset in
  if decide (buf_length < afterHead + length) then Err CBEInvalidLength
  else Ok (calldata afterHead length, afterHead + length).

Definition readBytesExact (expectedSize : Z) : cbe (list u8) := fun offset =>
  let? (payload, nextOffset) := readBytes offset in
  let actual := Z.of_nat (length payload) in
  if decide (actual ≠ expectedSize) then Err (CBESizeMismatch expectedSize actual)
  else Ok (payload, nextOffset).

(** [readBytes32Exact] and [readAddressExact]: the bytes of a fixed size, read as
    a word. *)
Definition readWordExact (size : Z) : cbe (list u8) := fun offset =>
  let? (length, afterHead) := readHead TAG_BYTES offset in
  if decide (buf_length < afterHead + length) then Err CBEInvalidLength else
  if decide (length ≠ size) then Err (CBESizeMismatch size length)
  else Ok (calldata afterHead size, afterHead + size).

Definition readBytes32Exact : cbe (list u8) := readWordExact 32.

Definition readAddressExact : cbe Z := fun offset =>
  let? (word, nextOffset) := readWordExact 20 offset in Ok (from_be_bytes word, nextOffset).

Definition readArrayHead : cbe Z := readHead TAG_ARRAY.
Definition readMapHead : cbe Z := readHead TAG_MAP.

Definition assertFullyConsumed (consumedTo : Z) : result () CbeError :=
  if decide (consumedTo ≠ buf_length) then Err CBEInvalidLength else Ok tt.
End Readers.

(** ** Exactness *)

(** The bytes [w] at an offset. *)
Definition sits (buf : list u8) (o : Z) (w : list u8) : Prop :=
  ∃ pre post, buf = pre ++ w ++ post ∧ Z.of_nat (length pre) = o.

Definition consumes {A} (p : list u8 → cbe A) (L : A → list u8 → Prop) : Prop :=
  ∀ buf o a o', 0 ≤ o → p buf o = Ok (a, o') ↔ ∃ w, L a w ∧ sits buf o w ∧ o' = o + Z.of_nat (length w).

Lemma sits_app buf o w1 w2 :
  sits buf o (w1 ++ w2) ↔ sits buf o w1 ∧ sits buf (o + Z.of_nat (length w1)) w2.
Proof.
  split.
  - intros (pre & post & -> & <-). split.
    + exists pre, (w2 ++ post). by rewrite <- !app_assoc.
    + exists (pre ++ w1), post. rewrite length_app, <- !app_assoc. split; [done|lia].
  - intros [(pre & post & -> & Hpre) (pre' & post' & Hbuf & Hpre')].
    exists pre, post'. split; [|done]. rewrite app_assoc in Hbuf.
    apply (f_equal (drop (length pre'))) in Hbuf. rewrite <- app_assoc in Hbuf.
    replace (length pre') with (length pre + length w1)%nat in Hbuf at 1 by lia.
    rewrite <- drop_drop, !drop_app_length in Hbuf. rewrite Hbuf. by rewrite <- app_assoc.
Qed.

Lemma sits_at buf o w :
  0 ≤ o → sits buf o w ↔ calldata buf o (Z.of_nat (length w)) = w ∧ o + Z.of_nat (length w) ≤ buf_length buf.
Proof.
  intros Ho. unfold calldata, buf_length. rewrite Nat2Z.id. split.
  - intros (pre & post & -> & <-). rewrite Nat2Z.id, drop_app_length, take_app_length, !length_app. split; [done|lia].
  - intros [Hw Hlen]. exists (take (Z.to_nat o) buf), (drop (length w) (drop (Z.to_nat o) buf)). split.
    + rewrite <- Hw at 1. by rewrite take_drop, take_drop.
    + rewrite length_take. lia.
Qed.

Lemma sits_nil buf o : 0 ≤ o → o ≤ buf_length buf → sits buf o [].
Proof. intros Ho Hb. apply sits_at; [done|]. cbn. by rewrite Z.add_0_r. Qed.

(** All of the buffer. *)
Lemma sits_all buf w : sits buf 0 w ∧ Z.of_nat (length w) = buf_length buf ↔ buf = w.
Proof.
  split.
  - intros [(pre & post & -> & Hpre) Hlen]. unfold buf_length in Hlen. rewrite !length_app in Hlen.
    destruct pre, post; cbn in *; try lia. by rewrite app_nil_r.
  - intros ->. split; [|done]. exists [], []. by rewrite app_nil_r.
Qed.

Lemma consumes_bind {A B} (p : list u8 → cbe A) L (k : A → list u8 → cbe B) M :
  consumes p L → (∀ a, consumes (k a) (M a)) →
  consumes (fun buf => a ← p buf; k a buf) (fun b w => ∃ a w1 w2, L a w1 ∧ M a b w2 ∧ w = w1 ++ w2).
Proof.
  intros Hp Hk buf o b o' Ho. rewrite stateful_bind_Ok. split.
  - intros (a & o1 & (w1 & HL & Hs1 & ->)%Hp & (w2 & HM & Hs2 & ->)%Hk); [|lia|done].
    exists (w1 ++ w2). split; [by exists a, w1, w2|]. split; [by apply sits_app|]. rewrite length_app. lia.
  - intros (w & (a & w1 & w2 & HL & HM & ->) & [Hs1 Hs2]%sits_app & ->).
    exists a, (o + Z.of_nat (length w1)). split; [apply Hp; eauto|]. apply Hk; [lia|].
    exists w2. rewrite length_app. split; [done|]. split; [done|lia].
Qed.

Lemma consumes_ext {A} (p : list u8 → cbe A) L M : consumes p L → (∀ a w, L a w ↔ M a w) → consumes p M.
Proof. intros Hp HLM buf o a o' Ho. rewrite (Hp buf o a o' Ho). setoid_rewrite HLM. done. Qed.

(** A field of [n] bytes. *)
Lemma consumes_field {A} (n : nat) (f : list u8 → A) e :
  consumes (fun buf o => if decide (buf_length buf < o + Z.of_nat n) then Err e
                         else Ok (f (calldata buf o (Z.of_nat n)), o + Z.of_nat n))
    (fun a w => length w = n ∧ a = f w).
Proof.
  intros buf o a o' Ho. rewrite guard_Ok. split.
  - intros [Hlen [= <- <-]]. assert (Hc : length (calldata buf o (Z.of_nat n)) = n).
    { unfold calldata, buf_length in *. rewrite length_take, length_drop. lia. }
    exists (calldata buf o (Z.of_nat n)). split; [done|]. rewrite Hc. split; [|done].
    apply sits_at; [done|]. rewrite Hc. split; [done|lia].
  - intros (w & [Hn ->] & [Hw Hlen]%sits_at & ->); [|done]. subst n. rewrite Hw. split; [lia|done].
Qed.

Lemma le_field n v w : length w = n ∧ v = from_le_bytes w ↔ in_width (8 * Z.of_nat n) v ∧ w = to_le_bytes n v.
Proof.
  split.
  - intros [<- ->]. split; [apply from_le_bytes_bound|]. by rewrite to_from_le_bytes.
  - intros [Hv ->]. rewrite to_le_bytes_length. split; [done|]. by rewrite from_to_le_bytes.
Qed.

Lemma readUint64LE_consumes : consumes readUint64LE (fun v w => in_u64 v ∧ w = to_le_bytes 8 v).
Proof. eapply consumes_ext; [exact (consumes_field 8 from_le_bytes _)|]. intros. exact (le_field 8 a w). Qed.

Lemma readUint256LE_consumes : consumes readUint256LE (fun v w => in_u256 v ∧ w = to_le_bytes 32 v).
Proof. eapply consumes_ext; [exact (consumes_field 32 from_le_bytes _)|]. intros. exact (le_field 32 a w). Qed.

Lemma sits_cons buf o b w : 0 ≤ o → sits buf o (b :: w) ↔ buf !! Z.to_nat o = Some b ∧ sits buf (o + 1) w.
Proof.
  intros Ho. change (b :: w) with ([b] ++ w). rewrite sits_app. cbn [length].
  assert (Hb : sits buf o [b] ↔ buf !! Z.to_nat o = Some b); [|by rewrite Hb]. split.
  - intros (pre & post & -> & <-). rewrite Nat2Z.id. by apply list_lookup_middle.
  - intros Hb. exists (take (Z.to_nat o) buf), (drop (S (Z.to_nat o)) buf). split; [|].
    + symmetry. by apply take_drop_middle.
    + apply lookup_lt_Some in Hb. rewrite length_take. lia.
Qed.

Lemma readTagged_consumes tag (value : list u8 → cbe Z) L :
  consumes value L → consumes (fun buf => readTagged buf tag (value buf)) (fun v w => ∃ w', L v w' ∧ w = tag :: w').
Proof.
  intros Hv buf o v o' Ho. unfold readTagged, peekTag. rewrite result_bind_Ok. split.
  - intros (got & Hgot & [Hne Hr]%guard_Ok). destruct (buf !! Z.to_nat o) as [b|] eqn:Hb; [|done]. injection Hgot as <-.
    apply dec_stable in Hne. subst b. apply Hv in Hr as (w & HL & Hs & ->); [|lia].
    exists (tag :: w). split; [by exists w|]. split; [by apply sits_cons|]. cbn [length]. lia.
  - intros (w & (w' & HL & ->) & [Hb Hs]%sits_cons & ->); [|done]. exists tag. rewrite Hb. split; [done|].
    rewrite guard_Ok. split; [tauto|]. apply Hv; [lia|]. exists w'. cbn [length]. split; [done|]. split; [done|lia].
Qed.

Lemma readHead_consumes tag : consumes (fun buf => readHead buf tag) (fun v w => in_u64 v ∧ w = tag :: to_le_bytes 8 v).
Proof.
  eapply consumes_ext; [apply readTagged_consumes, readUint64LE_consumes|]. intros v w. split.
  - by intros (w' & [Hv ->] & ->).
  - intros [Hv ->]. eauto.
Qed.

Lemma readAmount_consumes : consumes readAmount (fun v w => in_u256 v ∧ w = TAG_AMOUNT :: to_le_bytes 32 v).
Proof.
  eapply consumes_ext; [apply readTagged_consumes, readUint256LE_consumes|]. intros v w. split.
  - by intros (w' & [Hv ->] & ->).
  - intros [Hv ->]. eauto.
Qed.

(** A byte string with its head. *)
Definition cbe_bytes (p : list u8) : list u8 := TAG_BYTES :: to_le_bytes 8 (Z.of_nat (length p)) ++ p.

Lemma cbe_bytes_length p : length (cbe_bytes p) = (9 + length p)%nat.
Proof. unfold cbe_bytes. cbn [length]. rewrite length_app, to_le_bytes_length. lia. Qed.

Lemma readBytes_consumes : consumes readBytes (fun p w => in_u64 (Z.of_nat (length p)) ∧ w = cbe_bytes p).
Proof.
  intros buf o p o' Ho. unfold readBytes. rewrite result_bind_Ok. split.
  - intros ([len o1] & (w & [Hlen ->] & Hs & ->)%readHead_consumes & [Hb [= <- <-]]%guard_Ok); [|done].
    set (o1 := o + _) in *. assert (Hc : Z.of_nat (length (calldata buf o1 len)) = len).
    { unfold calldata, buf_length, o1 in *. cbn [length] in *. rewrite to_le_bytes_length in *.
      rewrite length_take, length_drop. unfold in_width in Hlen. lia. }
    exists (cbe_bytes (calldata buf o1 len)). rewrite cbe_bytes_length, Hc. split; [done|]. split.
    + unfold cbe_bytes. rewrite Hc. apply (sits_app _ _ (_ :: _)). split; [done|]. fold o1.
      apply sits_at; [unfold o1; lia|]. rewrite Hc. split; [done|lia].
    + rewrite Nat2Z.inj_add, Hc. unfold o1. cbn [length]. rewrite to_le_bytes_length. lia.
  - intros (w & [Hlen ->] & [Hs1 Hs2]%(sits_app _ _ (_ :: _)) & ->). cbn [length] in Hs2. rewrite to_le_bytes_length in Hs2.
    exists (Z.of_nat (length p), o + 9). split.
    + apply readHead_consumes; [done|]. eexists. split; [done|]. split; [exact Hs1|]. cbn [length]. by rewrite to_le_bytes_length.
    + apply sits_at in Hs2 as [Hp Hb]; [|lia]. change (Z.of_nat 9) with 9 in *. rewrite guard_Ok.
      split; [lia|]. rewrite Hp, cbe_bytes_length. do 2 f_equal. lia.
Qed.

(** A word is a byte string of its size. *)
Lemma readWordExact_Ok buf size o p o' :
  0 ≤ o → readWordExact buf size o = Ok (p, o') ↔ readBytes buf o = Ok (p, o') ∧ Z.of_nat (length p) = size.
Proof.
  intros Ho. unfold readWordExact, readBytes. rewrite !result_bind_Ok. split.
  - intros ([len o1] & Hh & [Hb [Hn [= <- <-]]%guard_Ok]%guard_Ok). apply dec_stable in Hn. subst len. split.
    + exists (size, o1). split; [done|]. rewrite guard_Ok. done.
    + apply readHead_consumes in Hh as (w & [Hlen _] & _ & ->); [|done].
      unfold calldata, buf_length, in_width in *. rewrite length_take, length_drop. lia.
  - intros [([len o1] & Hh & [Hb [= <- <-]]%guard_Ok) Hn]. exists (len, o1). split; [done|].
    apply readHead_consumes in Hh as (w & [Hlen _] & _ & ->); [|done].
    assert (Hs : len = size).
    { unfold calldata, buf_length, in_width in *. rewrite length_take, length_drop in Hn. lia. }
    rewrite !guard_Ok. rewrite Hs in *. tauto.
Qed.

Lemma readAddressExact_consumes :
  consumes readAddressExact (fun a w => in_width 160 a ∧ w = cbe_bytes (to_be_bytes 20 a)).
Proof.
  intros buf o a o' Ho. unfold readAddressExact. rewrite result_bind_Ok. split.
  - intros ([p o1] & [Hr Hn]%readWordExact_Ok & [= <- <-]); [|done].
    apply readBytes_consumes in Hr as (w & [Hlen ->] & Hs & ->); [|done].
    exists (cbe_bytes p). replace 20%nat with (length p) by lia. rewrite to_from_be_bytes. split; [|done].
    split; [|done]. pose proof (from_be_bytes_bound p) as Hbd. by rewrite Hn in Hbd.
  - intros (w & [Ha ->] & Hs & ->). exists (to_be_bytes 20 a, o + Z.of_nat (length (cbe_bytes (to_be_bytes 20 a)))).
    rewrite (from_to_be_bytes 20) by exact Ha. split; [|done]. apply readWordExact_Ok; [done|].
    rewrite to_be_bytes_length. split; [|done]. apply readBytes_consumes; [done|].
    eexists. rewrite to_be_bytes_length. split; [|done]. split; [|done]. unfold in_width. lia.
Qed.

(** A whole buffer. *)
Lemma consumes_all {A} (p : list u8 → cbe A) L buf a :
  consumes p L →
  (∃ o', p buf 0 = Ok (a, o') ∧ assertFullyConsumed buf o' = Ok tt) ↔ L a buf.
Proof.
  intros Hp. split.
  - intros (o' & (w & HL & Hs & ->)%Hp & [Hend%dec_stable _]%guard_Ok); [|done].
    assert (buf = w) as ->; [|done]. apply sits_all. split; [done|lia].
  - intros HL. exists (buf_length buf). split.
    + apply Hp; [done|]. exists buf. split; [done|]. split; [|done]. by apply (sits_all buf buf).
    + unfold assertFullyConsumed. rewrite guard_Ok. tauto.
Qed.
