(* ===== verification/Withdrawal.v ===== *)
(** * Withdrawal proofs

    The tree of pending withdrawals as the kernel builds it
    ([LegalKernel/Bridge/WithdrawalRoot.lean], with the leaves of
    [Encoding/State.lean]) and the verifier of the contracts
    ([lib/SmtVerifier.sol]).  [keccak256] is a parameter.

    The two stacks compute the same root from a proof; the proofs the kernel
    builds are accepted; and a proof of a withdrawal that is accepted at the
    position the withdrawal names is of a withdrawal of the tree, or it shows a
    collision of the hash among the strings hashed on its path. *)

From Stdlib Require Import ZArith Lia.
From stdpp Require Import base numbers list gmap.
From S2P Require Import Prelude Evm CbeDecode.

Local Open Scope Z_scope.

(** ** Pending withdrawals *)

Record PendingWithdrawal : Type := {
  wd_resource : Z;
  wd_recipient : address;
  wd_amount : Z;
  wd_l2LogIndex : Z;
  wdId : Z;
}.

#[global] Instance PendingWithdrawal_eq_dec : EqDecision PendingWithdrawal.
Proof. solve_decision. Defined.

Definition cbe_uint (n : Z) : list u8 := TAG_UINT :: to_le_bytes 8 n.
Definition cbe_amount (n : Z) : list u8 := TAG_AMOUNT :: to_le_bytes 32 n.

Definition leafBytes (wd : PendingWithdrawal) : list u8 :=
  cbe_uint (wd_resource wd) ++ cbe_bytes (to_be_bytes 20 (wd_recipient wd)) ++
  cbe_amount (wd_amount wd) ++ cbe_uint (wd_l2LogIndex wd) ++ cbe_uint (wdId wd).

(** The widths the fields have on L1. *)
Definition wd_typed (wd : PendingWithdrawal) : Prop :=
  in_u64 (wd_resource wd) ∧ in_width 160 (wd_recipient wd) ∧ in_u256 (wd_amount wd) ∧
  in_u64 (wd_l2LogIndex wd) ∧ in_u64 (wdId wd).

(** ** The tree of the kernel *)

Definition smtHeight : nat := 64.
Definition emptyLeafHash : list u8 := zero32.

Abbreviation entries := (list (Z * PendingWithdrawal)).

Definition pathBitAtLevel (idx : Z) (level : nat) : bool := Z.testbit idx (Z.of_nat level).

(** The entries under one child of a node of level [k + 1]. *)
Definition child (b : bool) (k : nat) (es : entries) : entries :=
  filter (fun p => pathBitAtLevel p.1 k = b) es.

Section Tree.
Context (keccak256 : list u8 → list u8).

Fixpoint defaultHash (i : nat) : list u8 :=
  match i with
  | O => emptyLeafHash
  | S i => let prev := defaultHash i in keccak256 (prev ++ prev)
  end.

(** The string [hashUp] hashes. *)
Definition hashUpPreimage (right : bool) (current sibling : list u8) : list u8 :=
  if right then sibling ++ current else current ++ sibling.

Definition hashUp (right : bool) (current sibling : list u8) : list u8 :=
  keccak256 (hashUpPreimage right current sibling).

Fixpoint rangeRoot (level : nat) (es : entries) {struct level} : list u8 :=
  match es, level with
  | [], _ => defaultHash level
  | (_, wd) :: _, O => leafBytes wd
  | _ :: _, S k => keccak256 (rangeRoot k (child false k es) ++ rangeRoot k (child true k es))
  end.

Definition withdrawalRoot (pending : gmap Z PendingWithdrawal) : list u8 :=
  rangeRoot smtHeight (btree_iter pending).

Fixpoint verifyProofRec (idx : Z) (leaf : list u8) (siblings : list (list u8)) (level : nat) : list u8 :=
  match level, siblings with
  | O, _ => leaf
  | S _, [] => leaf
  | S k, s :: rest => hashUp (pathBitAtLevel idx k) (verifyProofRec idx leaf rest k) s
  end.

Fixpoint emptyProofSiblings (level : nat) : list (list u8) :=
  match level with
  | O => []
  | S k => defaultHash k :: emptyProofSiblings k
  end.

Fixpoint constructProofAux (idx : Z) (es : entries) (level : nat) {struct level} : list u8 * list (list u8) :=
  match es, level with
  | [], _ => (emptyLeafHash, emptyProofSiblings level)
  | (_, wd) :: _, O => (leafBytes wd, [])
  | _ :: _, S k =>
      let b := pathBitAtLevel idx k in
      let below := constructProofAux idx (child b k es) k in
      (below.1, rangeRoot k (child (negb b) k es) :: below.2)
  end.

(** The leaf and the siblings of [constructProof]. *)
Definition constructProof (pending : gmap Z PendingWithdrawal) (idx : Z) : list u8 * list (list u8) :=
  constructProofAux idx (btree_iter pending) smtHeight.

(** ** The verifier of the contracts *)

Inductive SmtError : Type :=
| SmtBadProofShape (expected actual : Z)
| SmtBadSiblingSize (siblingArrayIndex actualSize : Z).

Definition SMT_HEIGHT : nat := 64.

(** The loop from level [i]; [above] are the siblings of the levels still to
    climb, the nearest first. *)
Fixpoint climb (idx : Z) (i : nat) (current : list u8) (above : list (list u8)) : result (list u8) SmtError :=
  match above with
  | [] => Ok current
  | sibling :: above =>
      if decide (length sibling ≠ 32%nat)
      then Err (SmtBadSiblingSize (Z.of_nat (SMT_HEIGHT - 1 - i)) (Z.of_nat (length sibling))) else
      let bit := Z.land (Z.shiftr idx (Z.of_nat i)) 1 in
      climb idx (S i) (if decide (bit = 1) then keccak256 (sibling ++ current) else keccak256 (current ++ sibling)) above
  end.

Definition recomputeRoot (idx : Z) (leaf : list u8) (siblings : list (list u8)) : result (list u8) SmtError :=
  if decide (length siblings ≠ SMT_HEIGHT)
  then Err (SmtBadProofShape (Z.of_nat SMT_HEIGHT) (Z.of_nat (length siblings))) else
  let leafSibling := nth (SMT_HEIGHT - 1) siblings [] in
  let bit0 := Z.land idx 1 in
  let current := if decide (bit0 = 1) then keccak256 (leafSibling ++ leaf) else keccak256 (leaf ++ leafSibling) in
  climb idx 1 current (reverse (take (SMT_HEIGHT - 1) siblings)).

Definition verifyProof (idx : Z) (leaf : list u8) (siblings : list (list u8)) (root : list u8) : result bool SmtError :=
  let? r := recomputeRoot idx leaf siblings in Ok (bool_decide (r = root)).

Definition emptyHashAtLevel (level : nat) : list u8 := Nat.iter level (fun h => keccak256 (h ++ h)) zero32.
End Tree.

(** Conversion unfolds the names of trees and proofs before it computes them. *)
Strategy expand [withdrawalRoot constructProof].

#[local] Arguments to_le_bytes : simpl never.
#[local] Arguments to_be_bytes : simpl never.

(** ** Leaves *)

Lemma leafBytes_length wd : length (leafBytes wd) = 89%nat.
Proof.
  unfold leafBytes, cbe_uint, cbe_amount. rewrite !length_app, cbe_bytes_length. cbn [length].
  by rewrite !to_le_bytes_length, to_be_bytes_length.
Qed.

Lemma cbe_uint_length n : length (cbe_uint n) = 9%nat.
Proof. unfold cbe_uint. cbn [length]. by rewrite to_le_bytes_length. Qed.

Lemma cbe_amount_length n : length (cbe_amount n) = 33%nat.
Proof. unfold cbe_amount. cbn [length]. by rewrite to_le_bytes_length. Qed.

Lemma cbe_uint_inj a b : in_u64 a → in_u64 b → cbe_uint a = cbe_uint b → a = b.
Proof. intros Ha Hb H%(f_equal tail). by apply (to_le_bytes_inj 8). Qed.

Lemma leafBytes_inj w1 w2 : wd_typed w1 → wd_typed w2 → leafBytes w1 = leafBytes w2 → w1 = w2.
Proof.
  intros (H1 & H2 & H3 & H4 & H5) (H1' & H2' & H3' & H4' & H5') He. unfold leafBytes in He.
  apply app_inj_1 in He as [E1 He]; [|by rewrite !cbe_uint_length].
  apply app_inj_1 in He as [E2 He]; [|by rewrite !cbe_bytes_length, !to_be_bytes_length].
  apply app_inj_1 in He as [E3 He]; [|by rewrite !cbe_amount_length].
  apply app_inj_1 in He as [E4 E5]; [|by rewrite !cbe_uint_length].
  apply cbe_uint_inj in E1, E4, E5; try done. unfold cbe_bytes in E2. rewrite !to_be_bytes_length in E2.
  apply (f_equal tail) in E2. cbn [tail] in E2. apply (app_inj_1 (to_le_bytes 8 _)) in E2 as [_ E2]; [|done].
  unfold cbe_amount in E3. apply (f_equal tail) in E3. cbn [tail] in E3. apply (to_le_bytes_inj 32) in E3; try done.
  apply (f_equal from_be_bytes) in E2. rewrite !from_to_be_bytes in E2 by done.
  destruct w1, w2; cbn in *. congruence.
Qed.

(** ** The shape of the tree *)

Section Shape.
Context (keccak256 : list u8 → list u8).
Abbreviation rangeRoot := (rangeRoot keccak256).

(** A node is the hash of its children, empty or not. *)
Lemma rangeRoot_S k es : rangeRoot (S k) es = keccak256 (rangeRoot k (child false k es) ++ rangeRoot k (child true k es)).
Proof. destruct es as [|[i wd] es]; [|done]. cbn. by destruct k. Qed.

Lemma constructProofAux_S idx k es :
  constructProofAux keccak256 idx es (S k) =
  ((constructProofAux keccak256 idx (child (pathBitAtLevel idx k) k es) k).1,
   rangeRoot k (child (negb (pathBitAtLevel idx k)) k es) ::
   (constructProofAux keccak256 idx (child (pathBitAtLevel idx k) k es) k).2).
Proof. destruct es as [|[i wd] es]; [|done]. cbn. by destruct k. Qed.

(** The entries whose bits from [k] up are those of [idx]. *)
Definition branch (idx : Z) (k : nat) (es : entries) : entries :=
  filter (fun p => Z.shiftr p.1 (Z.of_nat k) = Z.shiftr idx (Z.of_nat k)) es.

Lemma shiftr_split a b k :
  Z.shiftr a (Z.of_nat k) = Z.shiftr b (Z.of_nat k) ↔
  Z.shiftr a (Z.of_nat (S k)) = Z.shiftr b (Z.of_nat (S k)) ∧ pathBitAtLevel a k = pathBitAtLevel b k.
Proof.
  unfold pathBitAtLevel. split.
  - intros H. split.
    + rewrite Nat2Z.inj_succ, <- Z.add_1_r, <- !Z.shiftr_shiftr by lia. by rewrite H.
    + rewrite <- (Z.add_0_l (Z.of_nat k)), <- !Z.shiftr_spec by lia. by rewrite H.
  - intros [H Hb]. apply Z.bits_inj'. intros n Hn. rewrite !Z.shiftr_spec by done.
    destruct (decide (n = 0)) as [->|]; [done|].
    replace (n + Z.of_nat k) with ((n - 1) + Z.of_nat (S k)) by lia. rewrite <- !Z.shiftr_spec by lia. by rewrite H.
Qed.

Lemma child_branch idx k es : child (pathBitAtLevel idx k) k (branch idx (S k) es) = branch idx k es.
Proof.
  unfold child, branch. rewrite list_filter_filter. apply list_filter_iff. intros [i wd]. cbn.
  rewrite (shiftr_split i idx k). tauto.
Qed.

(** The branch of a position is its entry. *)
Lemma branch_top idx es : in_u64 idx → Forall (fun p => in_u64 p.1) es → branch idx smtHeight es = es.
Proof.
  intros Hi Hes. unfold branch. induction Hes as [|[i wd] es Hp _ IH]; [done|]. cbn in Hp. rewrite filter_cons_True.
  - by f_equal.
  - cbn. unfold in_width in *. rewrite !Z.shiftr_div_pow2 by lia. change (Z.of_nat smtHeight) with 64. rewrite !Z.div_small by lia. done.
Qed.

Definition leaf_at (pending : gmap Z PendingWithdrawal) (idx : Z) : list u8 :=
  match pending !! idx with Some wd => leafBytes wd | None => emptyLeafHash end.

Lemma branch_bottom pending idx : rangeRoot 0 (branch idx 0 (btree_iter pending)) = leaf_at pending idx.
Proof.
  unfold leaf_at. assert (Hin : ∀ p, p ∈ branch idx 0 (btree_iter pending) ↔ p.1 = idx ∧ pending !! idx = Some p.2).
  { intros [i wd]. unfold branch. rewrite list_elem_of_filter, !Z.shiftr_0_r. cbn.
    rewrite btree_iter_perm, elem_of_map_to_list. naive_solver. }
  destruct (branch idx 0 (btree_iter pending)) as [|[i wd] es] eqn:E.
  - destruct (pending !! idx) as [wd|] eqn:Hp; [|done]. exfalso. specialize (Hin (idx, wd)). cbn in Hin.
    apply (not_elem_of_nil (idx, wd)), Hin. done.
  - destruct (proj1 (Hin (i, wd)) ltac:(left)) as [_ Hp]. cbn in Hp. by rewrite Hp.
Qed.

(** The other child of the lowest node. *)
Lemma sibling_bottom pending idx :
  rangeRoot 0 (child (negb (pathBitAtLevel idx 0)) 0 (branch idx 1 (btree_iter pending))) =
  leaf_at pending (Z.lxor idx 1).
Proof.
  rewrite <- branch_bottom. f_equal. unfold child, branch. rewrite list_filter_filter. apply list_filter_iff.
  intros [i wd]. cbn [fst]. rewrite (shiftr_split i (Z.lxor idx 1)). unfold pathBitAtLevel. change (Z.of_nat 0) with 0. change (Z.of_nat 1) with 1.
  rewrite Z.lxor_spec, Z.shiftr_lxor. change (Z.testbit 1 0) with true. change (Z.shiftr 1 1) with 0.
  rewrite Z.lxor_0_r, xorb_true_r. tauto.
Qed.
End Shape.

(** ** The two verifiers *)

Section Verifiers.
Context (keccak256 : list u8 → list u8).
Abbreviation hashUp := (hashUp keccak256).

(** From a level up, the nearest sibling first. *)
Fixpoint up (idx : Z) (i : nat) (current : list u8) (above : list (list u8)) : list u8 :=
  match above with
  | [] => current
  | s :: above => up idx (S i) (hashUp (pathBitAtLevel idx i) current s) above
  end.

Lemma up_app idx i c a b : up idx i c (a ++ b) = up idx (i + length a) (up idx i c a) b.
Proof.
  revert i c. induction a as [|s a IH]; intros i c; cbn; [by rewrite Nat.add_0_r|].
  rewrite IH. by rewrite Nat.add_succ_r.
Qed.

Lemma verifyProofRec_up idx leaf siblings :
  verifyProofRec keccak256 idx leaf siblings (length siblings) = up idx 0 leaf (reverse siblings).
Proof.
  induction siblings as [|s rest IH]; [done|]. rewrite reverse_cons, up_app, length_reverse. cbn.
  by rewrite IH.
Qed.

Lemma bit_land idx i : Z.land (Z.shiftr idx (Z.of_nat i)) 1 = 1 ↔ pathBitAtLevel idx i = true.
Proof.
  unfold pathBitAtLevel. change 1 with (Z.ones 1) at 1. rewrite Z.land_ones by lia. change (2 ^ 1) with 2.
  rewrite <- Z.bit0_mod, Z.shiftr_spec, Z.add_0_l by lia. destruct (Z.testbit idx (Z.of_nat i)); cbn; split; lia || done.
Qed.

Lemma hash_by_bit idx i current sibling :
  (if decide (Z.land (Z.shiftr idx (Z.of_nat i)) 1 = 1) then keccak256 (sibling ++ current)
   else keccak256 (current ++ sibling)) = hashUp (pathBitAtLevel idx i) current sibling.
Proof.
  unfold Withdrawal.hashUp, hashUpPreimage. pose proof (bit_land idx i) as Hb.
  destruct (decide _) as [E|E]; destruct (pathBitAtLevel idx i); try done.
  - by apply Hb in E.
  - exfalso. by apply E, Hb.
Qed.

Lemma climb_Ok idx i current above r :
  climb keccak256 idx i current above = Ok r ↔ Forall (fun s => length s = 32%nat) above ∧ r = up idx i current above.
Proof.
  revert i current. induction above as [|s above IH]; intros i current; cbn.
  - split; [intros [= <-]; split; [constructor|done]|intros [_ ->]; done].
  - rewrite guard_Ok, Forall_cons, IH, hash_by_bit. split.
    + intros [Hn [Hf ->]]. apply dec_stable in Hn. done.
    + intros [[Hs Hf] ->]. split; [tauto|done].
Qed.

Lemma recomputeRoot_Ok idx leaf siblings r :
  recomputeRoot keccak256 idx leaf siblings = Ok r ↔
  length siblings = smtHeight ∧ Forall (fun s => length s = 32%nat) (take 63 siblings) ∧
  r = verifyProofRec keccak256 idx leaf siblings smtHeight.
Proof.
  unfold recomputeRoot. rewrite guard_Ok. change SMT_HEIGHT with 64%nat.
  rewrite climb_Ok, Forall_reverse. change (64 - 1)%nat with 63%nat.
  pose proof (hash_by_bit idx 0 leaf (nth 63 siblings [])) as Hb. change (Z.of_nat 0) with 0 in Hb.
  rewrite Z.shiftr_0_r in Hb. rewrite Hb.
  assert (He : length siblings = 64%nat → up idx 1 (hashUp (pathBitAtLevel idx 0) leaf (nth 63 siblings [])) (reverse (take 63 siblings))
              = verifyProofRec keccak256 idx leaf siblings smtHeight).
  { intros Hl. change smtHeight with 64%nat. rewrite <- Hl. rewrite verifyProofRec_up.
    rewrite <- (take_drop 63 siblings) at 3. rewrite reverse_app.
    assert (Hd : drop 63 siblings = [nth 63 siblings []]).
    { destruct (drop 63 siblings) as [|s [|t l]] eqn:E; apply (f_equal length) in E as El; rewrite length_drop in El; cbn in El; try lia.
      f_equal. rewrite <- (Nat.add_0_r 63), <- nth_skipn. change (skipn 63 siblings) with (drop 63 siblings). by rewrite E. }
    by rewrite Hd. }
  split.
  - intros [Hl%dec_stable [Hf ->]]. split; [done|]. split; [done|]. by apply He.
  - intros (Hl & Hf & ->). split; [tauto|]. split; [done|]. symmetry. by apply He.
Qed.
End Verifiers.

(** ** Completeness and soundness *)

(** The digests of the hash have 32 bytes. *)
Class Digest (keccak256 : list u8 → list u8) : Prop := digest_length : ∀ x, length (keccak256 x) = 32%nat.

Section Proofs.
Context (keccak256 : list u8 → list u8) {HD : Digest keccak256}.
Abbreviation rangeRoot := (rangeRoot keccak256).
Abbreviation verifyProofRec := (verifyProofRec keccak256).

Lemma rangeRoot_length k es : length (rangeRoot (S k) es) = 32%nat.
Proof. rewrite rangeRoot_S. apply digest_length. Qed.

Lemma verifyProofRec_length idx leaf s rest k : length (verifyProofRec idx leaf (s :: rest) (S k)) = 32%nat.
Proof. apply (digest_length (keccak256 := keccak256)). Qed.

Lemma constructProofAux_verifies idx es k :
  verifyProofRec idx (constructProofAux keccak256 idx es k).1 (constructProofAux keccak256 idx es k).2 k = rangeRoot k es.
Proof.
  revert es. induction k as [|k IH]; intros es; [by destruct es as [|[]]|].
  rewrite constructProofAux_S, rangeRoot_S. cbn. rewrite IH. unfold hashUp, hashUpPreimage.
  by destruct (pathBitAtLevel idx k).
Qed.

Lemma constructProofAux_length idx es k : length (constructProofAux keccak256 idx es k).2 = k.
Proof. revert es. induction k as [|k IH]; intros es; [by destruct es as [|[]]|]. rewrite constructProofAux_S. cbn. by rewrite IH. Qed.

Lemma constructProofAux_sizes idx es k :
  Forall (fun s => length s = 32%nat) (take k (constructProofAux keccak256 idx es (S k)).2).
Proof.
  revert es. induction k as [|k IH]; intros es; [constructor|].
  rewrite constructProofAux_S. cbn [snd take]. constructor; [apply rangeRoot_length|apply IH].
Qed.

Lemma constructProofAux_leaf idx es k :
  (constructProofAux keccak256 idx (branch idx k es) k).1 = rangeRoot 0 (branch idx 0 es).
Proof.
  induction k as [|k IH]; [by destruct (branch idx 0 es) as [|[]]|].
  rewrite constructProofAux_S, child_branch. exact IH.
Qed.

(** The strings hashed on the path of a proof, and on the path of a position of
    the tree, from the root. *)
Fixpoint proof_preimages (idx : Z) (leaf : list u8) (siblings : list (list u8)) (level : nat) : list (list u8) :=
  match level, siblings with
  | S k, s :: rest => hashUpPreimage (pathBitAtLevel idx k) (verifyProofRec idx leaf rest k) s ::
                      proof_preimages idx leaf rest k
  | _, _ => []
  end.

Fixpoint tree_preimages (idx : Z) (es : entries) (level : nat) : list (list u8) :=
  match level with
  | O => []
  | S k => (rangeRoot k (child false k es) ++ rangeRoot k (child true k es)) ::
           tree_preimages idx (child (pathBitAtLevel idx k) k es) k
  end.

(** The path of a proof and the path of the tree have different strings with the
    same digest, on some level. *)
Definition collides (idx : Z) (leaf : list u8) (siblings : list (list u8)) (pending : gmap Z PendingWithdrawal) : Prop :=
  Exists (fun p => p.1 ≠ p.2 ∧ keccak256 p.1 = keccak256 p.2)
    (zip (proof_preimages idx leaf siblings smtHeight) (tree_preimages idx (btree_iter pending) smtHeight)).

Lemma hashUpPreimage_inj b c s l r :
  length c = length s → length l = length r → length c = length l →
  hashUpPreimage b c s = l ++ r → c = (if b then r else l).
Proof.
  intros H1 H2 H3. unfold hashUpPreimage. destruct b; intros E; apply app_inj_1 in E as [-> ->]; done || lia.
Qed.

(** A proof that recomputes the root of a node above the leaves agrees with the
    tree down to the strings of the lowest one, or collides on its way. *)
Lemma path_sound idx leaf es k : ∀ siblings,
  length siblings = S k → Forall (fun s => length s = 32%nat) (take k siblings) →
  verifyProofRec idx leaf siblings (S k) = rangeRoot (S k) (branch idx (S k) es) →
  (∃ s, last siblings = Some s ∧
     hashUpPreimage (pathBitAtLevel idx 0) leaf s =
       rangeRoot 0 (child false 0 (branch idx 1 es)) ++ rangeRoot 0 (child true 0 (branch idx 1 es))) ∨
  Exists (fun p => p.1 ≠ p.2 ∧ keccak256 p.1 = keccak256 p.2)
    (zip (proof_preimages idx leaf siblings (S k)) (tree_preimages idx (branch idx (S k) es) (S k))).
Proof.
  induction k as [|k IH]; intros [|s rest] Hlen Hf Hv; try done; rewrite rangeRoot_S in Hv; cbn [Withdrawal.verifyProofRec] in Hv; cbn [proof_preimages tree_preimages zip]; unfold hashUp in Hv.
  - destruct rest; [|done]. destruct (decide (hashUpPreimage (pathBitAtLevel idx 0) leaf s =
      rangeRoot 0 (child false 0 (branch idx 1 es)) ++ rangeRoot 0 (child true 0 (branch idx 1 es)))) as [E|E].
    + left. by exists s.
    + right. constructor. done.
  - cbn in Hf. apply Forall_cons in Hf as [Hs Hf]. injection Hlen as Hlen.
    destruct (decide (hashUpPreimage (pathBitAtLevel idx (S k)) (verifyProofRec idx leaf rest (S k)) s =
      rangeRoot (S k) (child false (S k) (branch idx (S (S k)) es)) ++ rangeRoot (S k) (child true (S k) (branch idx (S (S k)) es)))) as [E|E].
    + apply hashUpPreimage_inj in E; rewrite ?rangeRoot_length; [|..|done| ].
      2,3: destruct rest; [done|]; by rewrite verifyProofRec_length.
      rewrite child_branch. destruct (IH rest) as [(s' & Hl & Hb)|Hc]; [done|done| | |].
      * rewrite E. rewrite <- (child_branch idx (S k)). by destruct (pathBitAtLevel idx (S k)).
      * left. exists s'. split; [|done]. destruct rest; [done|]. exact Hl.
      * right. by apply Exists_cons_tl.
    + right. by apply Exists_cons_hd.
Qed.

Lemma root_sound idx leaf pending siblings n k :
  n = S k → length siblings = n → Forall (fun s => length s = 32%nat) (take k siblings) →
  branch idx n (btree_iter pending) = btree_iter pending →
  verifyProofRec idx leaf siblings n = rangeRoot n (btree_iter pending) →
  (∃ s, hashUpPreimage (pathBitAtLevel idx 0) leaf s =
     hashUpPreimage (pathBitAtLevel idx 0) (leaf_at pending idx) (leaf_at pending (Z.lxor idx 1))) ∨
  Exists (fun p => p.1 ≠ p.2 ∧ keccak256 p.1 = keccak256 p.2)
    (zip (proof_preimages idx leaf siblings n) (tree_preimages idx (btree_iter pending) n)).
Proof.
  intros -> Hlen Hf Hb. rewrite <- Hb. intros Hv.
  destruct (path_sound _ _ _ _ _ Hlen Hf Hv) as [(s & _ & E)|Hc]; [left|by right]. exists s. rewrite E.
  pose proof (branch_bottom keccak256 pending idx) as Hl. rewrite <- child_branch in Hl.
  rewrite <- Hl, <- (sibling_bottom keccak256 pending idx).
  unfold hashUpPreimage. by destruct (pathBitAtLevel idx 0).
Qed.
End Proofs.

(** A tree whose withdrawals are in range and know their position. *)
Definition pending_ok (pending : gmap Z PendingWithdrawal) : Prop :=
  ∀ i wd, pending !! i = Some wd → wdId wd = i ∧ wd_typed wd.

Lemma pending_keys pending : pending_ok pending → Forall (fun p => in_u64 p.1) (btree_iter pending).
Proof.
  intros Hp. apply Forall_forall. intros [i wd] Hin. rewrite btree_iter_perm, elem_of_map_to_list in Hin.
  destruct (Hp i wd Hin) as [<- (_ & _ & _ & _ & Hid)]. exact Hid.
Qed.

Lemma leafBytes_tag wd : leafBytes wd !! 9%nat = Some TAG_BYTES.
Proof. unfold leafBytes. rewrite lookup_app_r; rewrite cbe_uint_length; [done|lia]. Qed.

Lemma leafBytes_end wd : ∃ front, leafBytes wd = front ++ to_le_bytes 8 (wdId wd).
Proof.
  unfold leafBytes, cbe_uint at 3. eexists. rewrite !app_assoc.
  change (?a ++ TAG_UINT :: ?b) with (a ++ [TAG_UINT] ++ b). by rewrite app_assoc.
Qed.

(** A withdrawal that verifies next to the strings of the tree is not one of an
    empty position. *)
Lemma empty_refused wd s t :
  in_u64 (wdId wd) →
  hashUpPreimage (pathBitAtLevel (wdId wd) 0) (leafBytes wd) s =
    (if pathBitAtLevel (wdId wd) 0 then t ++ emptyLeafHash else emptyLeafHash ++ t) → False.
Proof.
  intros Hid. unfold hashUpPreimage. destruct (pathBitAtLevel (wdId wd) 0) eqn:Eb; intros E.
  - destruct (leafBytes_end wd) as [front Hfront]. rewrite Hfront, app_assoc in E.
    change emptyLeafHash with (replicate 24 (byte_of 0) ++ replicate 8 (byte_of 0)) in E. rewrite app_assoc in E.
    apply app_inj_2 in E as [_ E]; [|by rewrite to_le_bytes_length].
    apply (f_equal from_le_bytes) in E. rewrite from_to_le_bytes in E by done.
    assert (wdId wd = 0) as H0 by (rewrite E; reflexivity). by rewrite H0 in Eb.
  - apply (f_equal (lookup 9%nat)) in E. rewrite lookup_app_l in E by (rewrite leafBytes_length; lia).
    rewrite leafBytes_tag in E. done.
Qed.

Section Theorems.
Context (keccak256 : list u8 → list u8) {HD : Digest keccak256}.

(** The proofs of the kernel are accepted: for every pending withdrawal the
    proof that the kernel builds from its tree has the encoding of the withdrawal
    as its leaf, and the verifier of the contracts accepts it against the root the
    kernel publishes. *)
Lemma withdrawal_proofs_complete pending idx wd :
  pending_ok pending → pending !! idx = Some wd →
  (constructProof keccak256 pending idx).1 = leafBytes wd ∧
  verifyProof keccak256 idx (leafBytes wd) (constructProof keccak256 pending idx).2
    (withdrawalRoot keccak256 pending) = Ok true.
Proof.
  intros Hp Hi. destruct (Hp idx wd Hi) as [<- (_ & _ & _ & _ & Hid)].
  assert (Hv : verifyProofRec keccak256 (wdId wd) (constructProof keccak256 pending (wdId wd)).1
    (constructProof keccak256 pending (wdId wd)).2 smtHeight = withdrawalRoot keccak256 pending).
  { unfold constructProof, withdrawalRoot. apply constructProofAux_verifies. }
  assert (Hl : (constructProof keccak256 pending (wdId wd)).1 = leafBytes wd).
  { unfold constructProof. rewrite <- (branch_top (wdId wd) (btree_iter pending)) by (done || by apply pending_keys).
    rewrite constructProofAux_leaf, branch_bottom by exact HD. unfold leaf_at. by rewrite Hi. }
  split; [done|]. unfold verifyProof. rewrite Hl in Hv.
  rewrite (proj2 (recomputeRoot_Ok keccak256 _ _ _ (withdrawalRoot keccak256 pending))).
  - cbn [result_bind]. by rewrite bool_decide_eq_true_2.
  - split; [apply (constructProofAux_length keccak256)|]. split; [|done].
    exact (constructProofAux_sizes keccak256 _ _ 63).
Qed.

(** A withdrawal that the contracts accept is pending: when the verifier accepts
    the encoding of a withdrawal, at the position the withdrawal names, against the
    root of a tree of the kernel, then the withdrawal is in the tree at that
    position, or the path of the proof and the path of the tree have different
    strings with the same digest.  Siblings next to the leaf may have any size. *)
Lemma withdrawal_proofs_sound pending wd siblings :
  pending_ok pending → wd_typed wd →
  verifyProof keccak256 (wdId wd) (leafBytes wd) siblings (withdrawalRoot keccak256 pending) = Ok true →
  pending !! wdId wd = Some wd ∨ collides keccak256 (wdId wd) (leafBytes wd) siblings pending.
Proof.
  intros Hp Hwd (r & (Hlen & Hf & ->)%recomputeRoot_Ok & [= Hr%bool_decide_eq_true])%result_bind_Ok.
  pose proof Hwd as (_ & _ & _ & _ & Hid).
  destruct (root_sound keccak256 (wdId wd) (leafBytes wd) pending siblings smtHeight 63) as [(s & E')|Hc]; [done|done|done| | | |by right].
  { apply branch_top; [done|]. by apply pending_keys. }
  { unfold withdrawalRoot in Hr. exact Hr. }
  left.
  unfold leaf_at at 1 in E'. destruct (pending !! wdId wd) as [wd'|] eqn:Hi.
  - f_equal. destruct (Hp _ _ Hi) as [_ Hwd']. apply leafBytes_inj; [done..|]. unfold hashUpPreimage in E'.
    destruct (pathBitAtLevel (wdId wd) 0).
    + apply app_inj_2 in E' as [_ ->]; [done|]. by rewrite !leafBytes_length.
    + apply app_inj_1 in E' as [-> _]; [done|]. by rewrite !leafBytes_length.
  - exfalso. eapply empty_refused; [exact Hid|]. rewrite E'. unfold hashUpPreimage.
    by destruct (pathBitAtLevel (wdId wd) 0).
Qed.
End Theorems.
