(* ===== verification/Bridge.v ===== *)
(** * The bridge contract

    [contracts/KnomosisBridge.sol]: deposits in ether and tokens with their fee
    split, the circuit breakers, the ledger of state roots the attestor signs, the
    redemption of withdrawals against them, the rollback of roots, and the BOLD and
    AMM switches.  [keccak256] and signature recovery are parameters.

    Ether and tokens are a world of their own, the class [Ledger]; a call that
    leaves the contract hands control to code that may call the bridge again, so a
    call carries the calls its callees make ([Call]), and [entered] is the guard
    that keeps the entry points that move value from being entered twice. *)

From Stdlib Require Import ZArith Lia.
From Stdlib Require Strings.String.
From stdpp Require Import base numbers list gmap.
From S2P Require Import Prelude Evm CbeDecode Withdrawal.
Import String.StringSyntax.
Delimit Scope string_scope with string.

Local Open Scope Z_scope.

(** ** Constants *)

Definition RESOURCE_ID_NATIVE_ETH : Z := 0.
Definition RESOURCE_ID_BOLD : Z := 1.
Definition MAX_FEE_BPS_CAP : Z := 5000.
Definition MIN_WEI_PER_BUDGET_UNIT : Z := 1.
Definition MAX_BUDGET_PER_DEPOSIT : Z := 1000000000000.
Definition MAX_AMM_SEED_RATIO_BPS : Z := 8000.
Definition BOLD_TOKEN_ADDRESS : address := 0x6440f144b7e50D6a8439336510312d2F54beB01D.
Definition EXPECTED_BOLD_SYMBOL : list u8 := String.list_byte_of_string "BOLD"%string.
Definition LIQUITY_V2_TROVE_MANAGER_ETH : address := 0x7bcb64B2c9206a5B699eD43363f6F98D4776Cf5A.
Definition LIQUITY_V2_TROVE_MANAGER_WSTETH : address := 0xA2895d6A3bf110561Dfe4b71cA539d84e1928B22.
Definition LIQUITY_V2_TROVE_MANAGER_RETH : address := 0xb2B2ABEb5C357a234363FF5D180912D319e3e19e.
Definition DOMAIN_NAME : list u8 := String.list_byte_of_string "KnomosisBridge"%string.
Definition DOMAIN_VERSION : list u8 := String.list_byte_of_string "1"%string.

Inductive BridgeError : Type :=
| NotAttestor | NotDisputeVerifier | AttestationStale | DisputeCooldown | TvlCapReached
| MigrationActivated | NonMonotonic | UnknownStateRoot | StateRootReverted | PreFinalisation
| AlreadyRedeemed | InvalidProof | UnsupportedResource
| InvariantViolation_DisputeWindowVsRedemption | InvalidRecipient
| BridgeAccountingMismatch (locked amountRequested : Z) | InvalidSignatureLength
| DuplicateResourceToken (token : address) | TransferAmountMismatch (declared received : Z)
| ZeroDeposit | FeeBpsBelowMin (chosenFeeBps : Z) | FeeBpsAboveMax (chosenFeeBps : Z)
| MinFeeBpsExceedsMax (min max : Z) | MaxFeeBpsExceedsCap (max : Z)
| WeiPerBudgetUnitTooSmall (wei : Z) | AmmSeedRatioExceedsMax (ratio : Z) | AmmRoleIsBridge
| AmmDisasterRecoveryRequired | BoldTokenAddressMismatch (provided : address)
| BoldTokenSymbolMismatch (actual : list u8) | BoldTokenSymbolUnavailable
| BoldTransferAmountMismatch (expected actual : Z) | BoldNotEnabled | BoldResourceReserved
| BoldDepositViaFeeSplitOnly | BoldDepositPaused | BoldTvlCapReached
| BoldTvlCapExceedsGlobal (boldCap cap : Z) | NotBoldCircuitBreaker | NotBoldAdmin
| ZeroBoldCircuitBreaker | ZeroBoldAdmin | BoldRolesNotDistinct | BoldRoleIsBridge
| AutoCircuitTriggerDisabled | LiquityV2ReadFailed | NoLiquityBranchShutdown
| AutoTriggerRequiresBold | LiquityOracleHasNoCode (troveManager : address)
| BoldTroveManagersNotDistinct | ZeroSequencerStake | ZeroDisputeWindow
| ZeroMaxAttestationStaleBlocks | NotAmmDisasterRecovery | AmmAlreadyDisabled
| CbeReverted (e : CbeError) | SmtReverted (e : SmtError)
| ReentrantCall | NotPayable | CallReverted | InvalidSignature.

Abbreviation bridge_call A := (result A (revert BridgeError)).

(** ** Storage *)

(** The immutables, with the resource map, which only the constructor writes. *)
Record Immutables : Type := {
  this : address;
  bridge_deploymentId : bytes32;
  attestor : address;
  disputeVerifier : address;
  faultProofRollbackAuthority : address;
  migration : address;
  disputeWindowBlocks : Z;
  maxAttestationStaleBlocks : Z;
  cooldownBlocks : Z;
  tvlCap : Z;
  minFeeBps : Z;
  maxFeeBps : Z;
  weiPerBudgetUnitEth : Z;
  weiPerBudgetUnitBold : Z;
  boldEnabled : bool;
  boldToken : address;
  ammSeedRatioBps : Z;
  ammDisasterRecovery : address;
  boldCircuitBreaker : address;
  boldAdmin : address;
  enableLiquityAutoCircuitTrigger : bool;
  resourceTokens : gmap Z address;
}.

Record StateRootRecord : Type := { record_root : bytes32; record_submittedAtBlock : Z }.

Inductive BridgeEvent : Type :=
| DepositInitiated (depositor : address) (resourceId : Z) (token : address) (amount depositorNonce : Z) (receiptHash : bytes32)
| DepositWithFeeInitiated (sender : address) (resourceId : Z) (token : address)
    (userAmount poolAmount ammSeedAmount budgetGrant depositorNonce : Z) (receiptHash : bytes32)
| AmmDisabled (timestamp : Z)
| StateRootSubmitted (root : bytes32) (logIndexHigh : Z) (signer : address) (submittedAtBlock : Z)
| WithdrawalRedeemed (leafHash : bytes32) (recipient : address) (resourceId amount atLogIndexHigh : Z)
| StateRootRangeReverted (disputedLogIndexHigh newRevertedFloor newRevertedCeiling : Z)
| BoldCircuitClosed (timestamp : Z)
| BoldCircuitOpened (timestamp : Z)
| BoldCircuitClosedByAutoTrigger (timestamp : Z) (shutdownBranch : address) (branchShutdownTime : Z)
| BoldTvlCapUpdated (newCap : Z).

(** [logs] are the events emitted so far, the last one first. *)
Record Bridge : Type := {
  depositNonce : gmap Z Z;
  stateRoots : gmap Z StateRootRecord;
  latestSubmittedLogIndexHigh : Z;
  latestStateRootSubmittedAtBlock : Z;
  lastUpheldDisputeBlock : Z;
  lowestRevertedLogIndexHigh : Z;
  revertedThroughLogIndexHigh : Z;
  withdrawalLeafRedeemed : gset (list u8);
  totalLockedValue : Z;
  boldCircuitClosed : bool;
  boldTvlCap : Z;
  boldTotalLockedValue : Z;
  ammDisabled : bool;
  entered : bool;
  logs : list BridgeEvent;
}.

(** *** Field updates *)

Definition emit (e : BridgeEvent) (st : Bridge) : Bridge :=
  {| depositNonce := depositNonce st; stateRoots := stateRoots st; latestSubmittedLogIndexHigh :=
     latestSubmittedLogIndexHigh st; latestStateRootSubmittedAtBlock := latestStateRootSubmittedAtBlock
     st; lastUpheldDisputeBlock := lastUpheldDisputeBlock st; lowestRevertedLogIndexHigh :=
     lowestRevertedLogIndexHigh st; revertedThroughLogIndexHigh := revertedThroughLogIndexHigh st;
     withdrawalLeafRedeemed := withdrawalLeafRedeemed st; totalLockedValue := totalLockedValue st;
     boldCircuitClosed := boldCircuitClosed st; boldTvlCap := boldTvlCap st; boldTotalLockedValue :=
     boldTotalLockedValue st; ammDisabled := ammDisabled st; entered := entered st; logs := e :: logs st |}.

Definition set_locked (total bold : Z) (st : Bridge) : Bridge :=
  {| depositNonce := depositNonce st; stateRoots := stateRoots st; latestSubmittedLogIndexHigh :=
     latestSubmittedLogIndexHigh st; latestStateRootSubmittedAtBlock := latestStateRootSubmittedAtBlock
     st; lastUpheldDisputeBlock := lastUpheldDisputeBlock st; lowestRevertedLogIndexHigh :=
     lowestRevertedLogIndexHigh st; revertedThroughLogIndexHigh := revertedThroughLogIndexHigh st;
     withdrawalLeafRedeemed := withdrawalLeafRedeemed st; totalLockedValue := total; boldCircuitClosed :=
     boldCircuitClosed st; boldTvlCap := boldTvlCap st; boldTotalLockedValue := bold; ammDisabled :=
     ammDisabled st; entered := entered st; logs := logs st |}.

Definition bump_nonce (sender : address) (nonce : Z) (st : Bridge) : Bridge :=
  {| depositNonce := <[sender := uint64 (nonce + 1)]> (depositNonce st); stateRoots := stateRoots st;
     latestSubmittedLogIndexHigh := latestSubmittedLogIndexHigh st; latestStateRootSubmittedAtBlock :=
     latestStateRootSubmittedAtBlock st; lastUpheldDisputeBlock := lastUpheldDisputeBlock st;
     lowestRevertedLogIndexHigh := lowestRevertedLogIndexHigh st; revertedThroughLogIndexHigh :=
     revertedThroughLogIndexHigh st; withdrawalLeafRedeemed := withdrawalLeafRedeemed st;
     totalLockedValue := totalLockedValue st; boldCircuitClosed := boldCircuitClosed st; boldTvlCap :=
     boldTvlCap st; boldTotalLockedValue := boldTotalLockedValue st; ammDisabled := ammDisabled st;
     entered := entered st; logs := logs st |}.

Definition set_root (i : Z) (r : StateRootRecord) (st : Bridge) : Bridge :=
  {| depositNonce := depositNonce st; stateRoots := <[i := r]> (stateRoots st);
     latestSubmittedLogIndexHigh := i; latestStateRootSubmittedAtBlock := record_submittedAtBlock r;
     lastUpheldDisputeBlock := lastUpheldDisputeBlock st; lowestRevertedLogIndexHigh :=
     lowestRevertedLogIndexHigh st; revertedThroughLogIndexHigh := revertedThroughLogIndexHigh st;
     withdrawalLeafRedeemed := withdrawalLeafRedeemed st; totalLockedValue := totalLockedValue st;
     boldCircuitClosed := boldCircuitClosed st; boldTvlCap := boldTvlCap st; boldTotalLockedValue :=
     boldTotalLockedValue st; ammDisabled := ammDisabled st; entered := entered st; logs := logs st |}.

Definition set_reverted (floor ceiling block : Z) (st : Bridge) : Bridge :=
  {| depositNonce := depositNonce st; stateRoots := stateRoots st; latestSubmittedLogIndexHigh :=
     latestSubmittedLogIndexHigh st; latestStateRootSubmittedAtBlock := latestStateRootSubmittedAtBlock
     st; lastUpheldDisputeBlock := block; lowestRevertedLogIndexHigh := floor;
     revertedThroughLogIndexHigh := ceiling; withdrawalLeafRedeemed := withdrawalLeafRedeemed st;
     totalLockedValue := totalLockedValue st; boldCircuitClosed := boldCircuitClosed st; boldTvlCap :=
     boldTvlCap st; boldTotalLockedValue := boldTotalLockedValue st; ammDisabled := ammDisabled st;
     entered := entered st; logs := logs st |}.

Definition mark_redeemed (leafHash : bytes32) (st : Bridge) : Bridge :=
  {| depositNonce := depositNonce st; stateRoots := stateRoots st; latestSubmittedLogIndexHigh :=
     latestSubmittedLogIndexHigh st; latestStateRootSubmittedAtBlock := latestStateRootSubmittedAtBlock
     st; lastUpheldDisputeBlock := lastUpheldDisputeBlock st; lowestRevertedLogIndexHigh :=
     lowestRevertedLogIndexHigh st; revertedThroughLogIndexHigh := revertedThroughLogIndexHigh st;
     withdrawalLeafRedeemed := {[leafHash]} ∪ withdrawalLeafRedeemed st; totalLockedValue :=
     totalLockedValue st; boldCircuitClosed := boldCircuitClosed st; boldTvlCap := boldTvlCap st;
     boldTotalLockedValue := boldTotalLockedValue st; ammDisabled := ammDisabled st; entered := entered
     st; logs := logs st |}.

Definition set_switches (closed : bool) (cap : Z) (disabled : bool) (st : Bridge) : Bridge :=
  {| depositNonce := depositNonce st; stateRoots := stateRoots st; latestSubmittedLogIndexHigh :=
     latestSubmittedLogIndexHigh st; latestStateRootSubmittedAtBlock := latestStateRootSubmittedAtBlock
     st; lastUpheldDisputeBlock := lastUpheldDisputeBlock st; lowestRevertedLogIndexHigh :=
     lowestRevertedLogIndexHigh st; revertedThroughLogIndexHigh := revertedThroughLogIndexHigh st;
     withdrawalLeafRedeemed := withdrawalLeafRedeemed st; totalLockedValue := totalLockedValue st;
     boldCircuitClosed := closed; boldTvlCap := cap; boldTotalLockedValue := boldTotalLockedValue st;
     ammDisabled := disabled; entered := entered st; logs := logs st |}.

Definition set_entered (b : bool) (st : Bridge) : Bridge :=
  {| depositNonce := depositNonce st; stateRoots := stateRoots st; latestSubmittedLogIndexHigh :=
     latestSubmittedLogIndexHigh st; latestStateRootSubmittedAtBlock := latestStateRootSubmittedAtBlock
     st; lastUpheldDisputeBlock := lastUpheldDisputeBlock st; lowestRevertedLogIndexHigh :=
     lowestRevertedLogIndexHigh st; revertedThroughLogIndexHigh := revertedThroughLogIndexHigh st;
     withdrawalLeafRedeemed := withdrawalLeafRedeemed st; totalLockedValue := totalLockedValue st;
     boldCircuitClosed := boldCircuitClosed st; boldTvlCap := boldTvlCap st; boldTotalLockedValue :=
     boldTotalLockedValue st; ammDisabled := ammDisabled st; entered := b; logs := logs st |}.

(** ** What a call sees *)

(** The transaction, and the answers of the contracts the bridge reads: whether
    the migration is activated, and [shutdownTime()] of a trove manager ([None]
    when the call fails or its answer is not one word). *)
Record BridgeTx : Type := {
  sender : address;
  value : Z;
  number : Z;
  timestamp : Z;
  chainid : Z;
  migrationActivated : bool;
  shutdownTime : address → option Z;
}.

(** Ether and tokens: the balances of the bridge, the value that comes with a
    call, and the transfers, which may revert. *)
Class Ledger (W : Type) : Type := {
  eth_balance : W → Z;
  token_balance : address → W → Z;
  take_value : Z → W → W;
  safeTransferFrom : address → address → Z → W → option W;
  safeTransfer : address → address → Z → W → option W;
  sendValue : address → Z → W → option W;
}.

(** A word of [abi.encode]. *)
Definition abi_word (x : Z) : list u8 := to_be_bytes 32 x.

Definition lift_cbe {A} (r : result A CbeError) : bridge_call A :=
  match r with Ok a => Ok a | Err e => Err (Revert (CbeReverted e)) end.

Section Bridge.
Context (keccak256 : list u8 → bytes32) (recover : bytes32 → list u8 → option address).
Context (imm : Immutables).
Context {W : Type} `{Ledger W}.

(** ** Guards *)

Definition nonpayable (tx : BridgeTx) : bridge_call () :=
  if decide (value tx ≠ 0) then reverts NotPayable else Ok tt.

Definition requireAttestationFresh (tx : BridgeTx) (st : Bridge) : bridge_call () :=
  if decide (latestStateRootSubmittedAtBlock st ≠ 0 ∧
             latestStateRootSubmittedAtBlock st + maxAttestationStaleBlocks imm < number tx)
  then reverts AttestationStale else Ok tt.

Definition requireOperationalBreakersOpen (tx : BridgeTx) (st : Bridge) : bridge_call () :=
  if decide (lastUpheldDisputeBlock st ≠ 0 ∧ number tx < lastUpheldDisputeBlock st + cooldownBlocks imm)
  then reverts DisputeCooldown else
  if decide (tvlCap imm < totalLockedValue st) then reverts TvlCapReached else
  if decide (migration imm ≠ 0 ∧ migrationActivated tx = true) then reverts MigrationActivated else Ok tt.

Definition circuitOpen (tx : BridgeTx) (st : Bridge) : bridge_call () :=
  let? _ := requireAttestationFresh tx st in requireOperationalBreakersOpen tx st.

(** The guard of [nonReentrant]. *)
Definition enter (st : Bridge) : bridge_call Bridge :=
  if entered st then reverts ReentrantCall else Ok (set_entered true st).

(** ** Deposits *)

Definition receipt (tx : BridgeTx) (rid token amount nonce : Z) : list u8 :=
  bridge_deploymentId imm ++ abi_word (sender tx) ++ abi_word rid ++ abi_word token ++ abi_word amount ++ abi_word nonce.

Definition registerDeposit (tx : BridgeTx) (rid token amount : Z) (st : Bridge) : bridge_call Bridge :=
  let? newTvl := add_at 256 (totalLockedValue st) amount in
  if decide (tvlCap imm < newTvl) then reverts TvlCapReached else
  let nonce := get 0 (depositNonce st) (sender tx) in
  let receiptHash := keccak256 (receipt tx rid token amount nonce) in
  Ok (emit (DepositInitiated (sender tx) rid token amount nonce receiptHash)
       (bump_nonce (sender tx) nonce (set_locked newTvl (boldTotalLockedValue st) st))).

Definition depositETH (tx : BridgeTx) (st : Bridge) (w : W) : bridge_call (Bridge * W) :=
  let w := take_value (value tx) w in
  let? st := enter st in
  let? _ := circuitOpen tx st in
  let? st := registerDeposit tx RESOURCE_ID_NATIVE_ETH 0 (value tx) st in
  Ok (set_entered false st, w).

(** The transfer of a deposit, of which the bridge measures what it received.
    [during] is what the token does to the bridge while it is called. *)
Definition pull (during : Bridge → W → Bridge * W) (mismatch : Z → Z → BridgeError)
    (token from : address) (amount : Z) (st : Bridge) (w : W) : bridge_call (Bridge * W) :=
  let balBefore := token_balance token w in
  let? w := ok_or (safeTransferFrom token from amount w) (Revert CallReverted) in
  let '(st, w) := during st w in
  let balAfter := token_balance token w in
  let received := (balAfter - balBefore) mod 2 ^ 256 in
  if decide (received ≠ amount) then reverts (mismatch amount received) else Ok (st, w).

Definition depositERC20 (during : Bridge → W → Bridge * W) (tx : BridgeTx) (rid : Z) (token : address) (amount : Z)
    (st : Bridge) (w : W) : bridge_call (Bridge * W) :=
  let? _ := nonpayable tx in
  let? st := enter st in
  let? _ := circuitOpen tx st in
  if decide (boldEnabled imm = true ∧ rid = RESOURCE_ID_BOLD) then reverts BoldDepositViaFeeSplitOnly else
  if decide (rid = RESOURCE_ID_NATIVE_ETH ∨ resourceTokens imm !! rid = None) then reverts UnsupportedResource else
  if decide (resourceTokens imm !! rid ≠ Some token) then reverts UnsupportedResource else
  let? (st, w) := pull during TransferAmountMismatch token (sender tx) amount st w in
  let? st := registerDeposit tx rid token amount st in
  Ok (set_entered false st, w).

Definition ammSeedSplit (st : Bridge) (rid poolAmount : Z) : bridge_call Z :=
  let ratio := ammSeedRatioBps imm in
  if decide (ratio = 0) then Ok 0 else
  if negb (boldEnabled imm) then Ok 0 else
  if ammDisabled st then Ok 0 else
  if decide (rid ≠ RESOURCE_ID_NATIVE_ETH ∧ rid ≠ RESOURCE_ID_BOLD) then Ok 0 else
  let? product := mul_at 256 poolAmount ratio in
  Ok (product / 10000).

Definition receiptWithFee (tx : BridgeTx) (rid token userAmount poolAmount ammSeedAmount budgetGrant nonce : Z) : list u8 :=
  bridge_deploymentId imm ++ abi_word (sender tx) ++ abi_word rid ++ abi_word token ++ abi_word userAmount ++
  abi_word poolAmount ++ abi_word ammSeedAmount ++ abi_word budgetGrant ++ abi_word nonce.

Definition registerDepositWithFee (tx : BridgeTx) (rid token userAmount poolAmount budgetGrant : Z) (st : Bridge)
    : bridge_call Bridge :=
  let? amount := add_at 256 userAmount poolAmount in
  let? newTvl := add_at 256 (totalLockedValue st) amount in
  if decide (tvlCap imm < newTvl) then reverts TvlCapReached else
  let? newBoldTvl :=
    if decide (boldEnabled imm = true ∧ rid = RESOURCE_ID_BOLD) then
      let? newBoldTvl := add_at 256 (boldTotalLockedValue st) amount in
      if decide (boldTvlCap st < newBoldTvl) then reverts BoldTvlCapReached else Ok newBoldTvl
    else Ok (boldTotalLockedValue st) in
  let? ammSeedAmount := ammSeedSplit st rid poolAmount in
  let nonce := get 0 (depositNonce st) (sender tx) in
  let receiptHash := keccak256 (receiptWithFee tx rid token userAmount poolAmount ammSeedAmount budgetGrant nonce) in
  Ok (emit (DepositWithFeeInitiated (sender tx) rid token userAmount poolAmount ammSeedAmount budgetGrant nonce receiptHash)
       (bump_nonce (sender tx) nonce (set_locked newTvl newBoldTvl st))).

(** The amounts of the user and of the pool, and the budget the pool's amount
    buys at an exchange rate. *)
Definition feeSplit (v chosenFeeBps rate : Z) : bridge_call (Z * Z * Z) :=
  let? product := mul_at 256 v chosenFeeBps in
  let poolAmount := product / 10000 in
  let userAmount := (v - poolAmount) mod 2 ^ 256 in
  if decide (rate = 0) then Err Panic else
  let rawBudgetGrant := poolAmount / rate in
  Ok (userAmount, poolAmount,
      if decide (MAX_BUDGET_PER_DEPOSIT < rawBudgetGrant) then MAX_BUDGET_PER_DEPOSIT else uint64 rawBudgetGrant).

Definition requireFee (chosenFeeBps : Z) : bridge_call () :=
  if decide (chosenFeeBps < minFeeBps imm) then reverts (FeeBpsBelowMin chosenFeeBps) else
  if decide (maxFeeBps imm < chosenFeeBps) then reverts (FeeBpsAboveMax chosenFeeBps) else Ok tt.

Definition depositETHWithFee (tx : BridgeTx) (chosenFeeBps : Z) (st : Bridge) (w : W) : bridge_call (Bridge * W) :=
  let w := take_value (value tx) w in
  let? st := enter st in
  let? _ := circuitOpen tx st in
  if decide (value tx = 0) then reverts ZeroDeposit else
  let? _ := requireFee chosenFeeBps in
  let? (userAmount, poolAmount, budgetGrant) := feeSplit (value tx) chosenFeeBps (weiPerBudgetUnitEth imm) in
  let? st := registerDepositWithFee tx RESOURCE_ID_NATIVE_ETH 0 userAmount poolAmount budgetGrant st in
  Ok (set_entered false st, w).

Definition depositBoldWithFee (during : Bridge → W → Bridge * W) (tx : BridgeTx) (amount chosenFeeBps : Z)
    (st : Bridge) (w : W) : bridge_call (Bridge * W) :=
  let? _ := nonpayable tx in
  let? st := enter st in
  let? _ := circuitOpen tx st in
  if boldCircuitClosed st then reverts BoldDepositPaused else
  if negb (boldEnabled imm) then reverts BoldNotEnabled else
  if decide (amount = 0) then reverts ZeroDeposit else
  let? _ := requireFee chosenFeeBps in
  let? (st, w) := pull during BoldTransferAmountMismatch (boldToken imm) (sender tx) amount st w in
  let? (userAmount, poolAmount, budgetGrant) := feeSplit amount chosenFeeBps (weiPerBudgetUnitBold imm) in
  let? st := registerDepositWithFee tx RESOURCE_ID_BOLD (boldToken imm) userAmount poolAmount budgetGrant st in
  Ok (set_entered false st, w).

Definition emergencyDisableAmm (tx : BridgeTx) (st : Bridge) : bridge_call Bridge :=
  let? _ := nonpayable tx in
  if decide (sender tx ≠ ammDisasterRecovery imm) then reverts NotAmmDisasterRecovery else
  if ammDisabled st then reverts AmmAlreadyDisabled else
  Ok (emit (AmmDisabled (timestamp tx)) (set_switches (boldCircuitClosed st) (boldTvlCap st) true st)).

(** ** State roots *)

(** [KnomosisEip712.domainSeparator] and [digest]. *)
Definition domainSeparator (name version : list u8) (chain rollupId : Z) (verifyingContract : address) : bytes32 :=
  keccak256 (keccak256 (String.list_byte_of_string
      "EIP712Domain(string name,string version,uint256 chainId,uint256 rollupId,bytes verifyingContract)"%string) ++
    keccak256 name ++ keccak256 version ++ abi_word chain ++ abi_word rollupId ++
    keccak256 (to_be_bytes 20 verifyingContract)).

Definition digest (ds structHash : bytes32) : bytes32 := keccak256 (to_be_bytes 2 0x1901 ++ ds ++ structHash).

(** What the attestor signs for a root. *)
Definition stateRootDigest (tx : BridgeTx) (root : bytes32) (logIndexHigh : Z) : bytes32 :=
  digest (domainSeparator DOMAIN_NAME DOMAIN_VERSION (chainid tx) 0 (this imm))
    (keccak256 (keccak256 (String.list_byte_of_string
        "StateRoot(bytes32 root,uint64 logIndexHigh,bytes32 deploymentId)"%string) ++
      root ++ abi_word logIndexHigh ++ bridge_deploymentId imm)).

Definition submitStateRoot (tx : BridgeTx) (root : bytes32) (logIndexHigh : Z) (attestorSig : list u8) (st : Bridge)
    : bridge_call Bridge :=
  let? _ := nonpayable tx in
  let? _ := requireOperationalBreakersOpen tx st in
  if decide (logIndexHigh ≤ latestSubmittedLogIndexHigh st) then reverts NonMonotonic else
  if decide (length attestorSig ≠ 65%nat) then reverts InvalidSignatureLength else
  let? recovered := ok_or (recover (stateRootDigest tx root logIndexHigh) attestorSig) (Revert InvalidSignature) in
  if decide (recovered ≠ attestor imm) then reverts NotAttestor else
  let block := uint64 (number tx) in
  Ok (emit (StateRootSubmitted root logIndexHigh recovered block)
       (set_root logIndexHigh {| record_root := root; record_submittedAtBlock := block |} st)).

Definition isStateRootReverted (st : Bridge) (logIndexHigh : Z) : bool :=
  bool_decide (lowestRevertedLogIndexHigh st ≤ logIndexHigh) && bool_decide (logIndexHigh ≤ revertedThroughLogIndexHigh st).

Definition isStateRootFinalised (tx : BridgeTx) (st : Bridge) (logIndexHigh : Z) : bool :=
  match stateRoots st !! logIndexHigh with
  | None => false
  | Some rec =>
      negb (isStateRootReverted st logIndexHigh) &&
      bool_decide (record_submittedAtBlock rec + disputeWindowBlocks imm ≤ number tx)
  end.

Definition hasOpenDisputeOlderThan (tx : BridgeTx) (st : Bridge) (thresholdBlock : Z) : bridge_call bool :=
  if decide (latestStateRootSubmittedAtBlock st = 0) then Ok false else
  if decide (latestStateRootSubmittedAtBlock st ≤ thresholdBlock) then Ok false else
  let? open_until := add_at 64 (latestStateRootSubmittedAtBlock st) (disputeWindowBlocks imm) in
  Ok (bool_decide (number tx < open_until)).

(** ** Withdrawals *)

Definition read_withdrawal (buf : list u8) : cbe PendingWithdrawal :=
  rid ← readUint buf;
  recipient ← readAddressExact buf;
  amount ← readAmount buf;
  l2LogIndex ← readUint buf;
  id ← readUint buf;
  mret {| wd_resource := rid; wd_recipient := recipient; wd_amount := amount; wd_l2LogIndex := l2LogIndex; wdId := id |}.

Definition decodePendingWithdrawal (leafBlob : list u8) : bridge_call PendingWithdrawal :=
  lift_cbe (let? (wd, off) := read_withdrawal leafBlob 0 in
            let? _ := assertFullyConsumed leafBlob off in Ok wd).

Fixpoint read_siblings (n : nat) (buf : list u8) : cbe (list (list u8)) :=
  match n with
  | O => mret []
  | S n => s ← readBytes buf; rest ← read_siblings n buf; mret (s :: rest)
  end.

Definition read_proof_head (buf : list u8) : cbe (list u8 * Z * Z) :=
  leaf ← readBytes buf; index ← readUint buf; count ← readArrayHead buf; mret (leaf, index, count).

Definition decodeWithdrawalProof (proofBlob : list u8) : bridge_call (list u8 * Z * list (list u8)) :=
  let? (leaf, index, count, off) := lift_cbe (read_proof_head proofBlob 0) in
  if decide (count ≠ Z.of_nat SMT_HEIGHT) then reverts InvalidProof else
  let? (siblings, off) := lift_cbe (read_siblings SMT_HEIGHT proofBlob off) in
  let? _ := lift_cbe (assertFullyConsumed proofBlob off) in
  Ok (leaf, index, siblings).

Definition lift_smt {A} (r : result A SmtError) : bridge_call A :=
  match r with Ok a => Ok a | Err e => Err (Revert (SmtReverted e)) end.

(** The finalised root of an index. *)
Definition finalised_root (tx : BridgeTx) (st : Bridge) (i : Z) : bridge_call bytes32 :=
  match stateRoots st !! i with
  | None => reverts UnknownStateRoot
  | Some rec =>
      if isStateRootFinalised tx st i then Ok (record_root rec)
      else if isStateRootReverted st i then reverts StateRootReverted else reverts PreFinalisation
  end.

(** The checks of a withdrawal. *)
Definition check_withdrawal (tx : BridgeTx) (st : Bridge) (atLogIndexHigh : Z) (proofBlob leafBlob : list u8)
    : bridge_call PendingWithdrawal :=
  let? wd := decodePendingWithdrawal leafBlob in
  if decide (wd_recipient wd = 0) then reverts InvalidRecipient else
  let? root := finalised_root tx st atLogIndexHigh in
  let leafHash := keccak256 leafBlob in
  if decide (leafHash ∈ withdrawalLeafRedeemed st) then reverts AlreadyRedeemed else
  let? (proofLeaf, proofIndex, siblings) := decodeWithdrawalProof proofBlob in
  if decide (keccak256 proofLeaf ≠ leafHash) then reverts InvalidProof else
  if decide (proofIndex ≠ wdId wd) then reverts InvalidProof else
  let? valid := lift_smt (verifyProof keccak256 proofIndex proofLeaf siblings root) in
  if negb valid then reverts InvalidProof else Ok wd.

(** Its effects on the counters. *)
Definition release (wd : PendingWithdrawal) (st : Bridge) : bridge_call Bridge :=
  if decide (totalLockedValue st < wd_amount wd)
  then reverts (BridgeAccountingMismatch (totalLockedValue st) (wd_amount wd)) else
  let total := totalLockedValue st - wd_amount wd in
  if decide (boldEnabled imm = true ∧ wd_resource wd = RESOURCE_ID_BOLD) then
    if decide (boldTotalLockedValue st < wd_amount wd)
    then reverts (BridgeAccountingMismatch (boldTotalLockedValue st) (wd_amount wd))
    else Ok (set_locked total (boldTotalLockedValue st - wd_amount wd) st)
  else Ok (set_locked total (boldTotalLockedValue st) st).

(** The payment. *)
Definition pay_out (wd : PendingWithdrawal) (w : W) : bridge_call W :=
  if decide (wd_resource wd = RESOURCE_ID_NATIVE_ETH)
  then ok_or (sendValue (wd_recipient wd) (wd_amount wd) w) (Revert CallReverted)
  else
    match resourceTokens imm !! wd_resource wd with
    | None => reverts UnsupportedResource
    | Some tok => ok_or (safeTransfer tok (wd_recipient wd) (wd_amount wd) w) (Revert CallReverted)
    end.

Definition withdrawWithProof (during : Bridge → W → Bridge * W) (tx : BridgeTx) (atLogIndexHigh : Z)
    (proofBlob leafBlob : list u8) (st : Bridge) (w : W) : bridge_call (Bridge * W) :=
  let? _ := nonpayable tx in
  let? st := enter st in
  let? wd := check_withdrawal tx st atLogIndexHigh proofBlob leafBlob in
  let leafHash := keccak256 leafBlob in
  let? st := release wd (mark_redeemed leafHash st) in
  let? w := pay_out wd w in
  let '(st, w) := during st w in
  Ok (set_entered false
        (emit (WithdrawalRedeemed leafHash (wd_recipient wd) (wd_resource wd) (wd_amount wd) atLogIndexHigh) st), w).

(** ** Rollback *)

Definition revertToPriorRoot (tx : BridgeTx) (disputedLogIndexHigh : Z) (st : Bridge) : bridge_call Bridge :=
  let? _ := nonpayable tx in
  if decide (sender tx ≠ disputeVerifier imm ∧ sender tx ≠ faultProofRollbackAuthority imm)
  then reverts NotDisputeVerifier else
  let floor := Z.min disputedLogIndexHigh (lowestRevertedLogIndexHigh st) in
  let ceiling := Z.max (latestSubmittedLogIndexHigh st) (revertedThroughLogIndexHigh st) in
  let changed := bool_decide (disputedLogIndexHigh < lowestRevertedLogIndexHigh st) ||
                 bool_decide (revertedThroughLogIndexHigh st < latestSubmittedLogIndexHigh st) in
  let st := set_reverted floor ceiling (uint64 (number tx)) st in
  Ok (if changed then emit (StateRootRangeReverted disputedLogIndexHigh floor ceiling) st else st).

(** ** The BOLD switches *)

Definition closeBoldCircuit (tx : BridgeTx) (st : Bridge) : bridge_call Bridge :=
  let? _ := nonpayable tx in
  if decide (sender tx ≠ boldCircuitBreaker imm) then reverts NotBoldCircuitBreaker else
  Ok (emit (BoldCircuitClosed (timestamp tx)) (set_switches true (boldTvlCap st) (ammDisabled st) st)).

Definition openBoldCircuit (tx : BridgeTx) (st : Bridge) : bridge_call Bridge :=
  let? _ := nonpayable tx in
  if decide (sender tx ≠ boldCircuitBreaker imm) then reverts NotBoldCircuitBreaker else
  Ok (emit (BoldCircuitOpened (timestamp tx)) (set_switches false (boldTvlCap st) (ammDisabled st) st)).

Definition readLiquityShutdownTime (tx : BridgeTx) (troveManager : address) : bridge_call Z :=
  ok_or (shutdownTime tx troveManager) (Revert LiquityV2ReadFailed).

(** The branches from the first one on. *)
Fixpoint close_if_shutdown (tx : BridgeTx) (branches : list address) (st : Bridge) : bridge_call Bridge :=
  match branches with
  | [] => reverts NoLiquityBranchShutdown
  | b :: branches =>
      let? t := readLiquityShutdownTime tx b in
      if decide (t ≠ 0)
      then Ok (emit (BoldCircuitClosedByAutoTrigger (timestamp tx) b t)
                 (set_switches true (boldTvlCap st) (ammDisabled st) st))
      else close_if_shutdown tx branches st
  end.

Definition closeBoldCircuitIfAnyLiquityBranchShutdown (tx : BridgeTx) (st : Bridge) : bridge_call Bridge :=
  let? _ := nonpayable tx in
  if negb (enableLiquityAutoCircuitTrigger imm) then reverts AutoCircuitTriggerDisabled else
  if boldCircuitClosed st then Ok st else
  close_if_shutdown tx
    [LIQUITY_V2_TROVE_MANAGER_ETH; LIQUITY_V2_TROVE_MANAGER_WSTETH; LIQUITY_V2_TROVE_MANAGER_RETH] st.

Definition setBoldTvlCap (tx : BridgeTx) (newCap : Z) (st : Bridge) : bridge_call Bridge :=
  let? _ := nonpayable tx in
  if decide (sender tx ≠ boldAdmin imm) then reverts NotBoldAdmin else
  if decide (tvlCap imm < newCap) then reverts (BoldTvlCapExceedsGlobal newCap (tvlCap imm)) else
  Ok (emit (BoldTvlCapUpdated newCap) (set_switches (boldCircuitClosed st) newCap (ammDisabled st) st)).

(** ** Calls *)

Inductive op : Type :=
| DepositETH
| DepositERC20 (rid : Z) (token : address) (amount : Z)
| DepositETHWithFee (chosenFeeBps : Z)
| DepositBoldWithFee (amount chosenFeeBps : Z)
| EmergencyDisableAmm
| SubmitStateRoot (root : bytes32) (logIndexHigh : Z) (attestorSig : list u8)
| WithdrawWithProof (atLogIndexHigh : Z) (proofBlob leafBlob : list u8)
| RevertToPriorRoot (disputedLogIndexHigh : Z)
| CloseBoldCircuit
| OpenBoldCircuit
| CloseIfShutdown
| SetBoldTvlCap (newCap : Z).

(** A call, with the calls that the code it hands control to makes meanwhile. *)
Inductive call : Type := Call (tx : BridgeTx) (o : op) (during : list call).

Definition with_world (r : bridge_call Bridge) (w : W) : bridge_call (Bridge * W) :=
  let? st := r in Ok (st, w).

(** A call that reverts changes nothing. *)
Definition settle (r : bridge_call (Bridge * W)) (st : Bridge) (w : W) : Bridge * W :=
  match r with Ok sw => sw | Err _ => (st, w) end.

Definition run_op (back : Bridge → W → Bridge * W) (tx : BridgeTx) (o : op) (st : Bridge) (w : W)
    : bridge_call (Bridge * W) :=
  match o with
  | DepositETH => depositETH tx st w
  | DepositERC20 rid token amount => depositERC20 back tx rid token amount st w
  | DepositETHWithFee chosenFeeBps => depositETHWithFee tx chosenFeeBps st w
  | DepositBoldWithFee amount chosenFeeBps => depositBoldWithFee back tx amount chosenFeeBps st w
  | EmergencyDisableAmm => with_world (emergencyDisableAmm tx st) w
  | SubmitStateRoot root i sig => with_world (submitStateRoot tx root i sig st) w
  | WithdrawWithProof i proofBlob leafBlob => withdrawWithProof back tx i proofBlob leafBlob st w
  | RevertToPriorRoot i => with_world (revertToPriorRoot tx i st) w
  | CloseBoldCircuit => with_world (closeBoldCircuit tx st) w
  | OpenBoldCircuit => with_world (openBoldCircuit tx st) w
  | CloseIfShutdown => with_world (closeBoldCircuitIfAnyLiquityBranchShutdown tx st) w
  | SetBoldTvlCap newCap => with_world (setBoldTvlCap tx newCap st) w
  end.

Fixpoint exec (c : call) (st : Bridge) (w : W) : bridge_call (Bridge * W) :=
  match c with
  | Call tx o during =>
      let fix back (cs : list call) (st : Bridge) (w : W) : Bridge * W :=
        match cs with
        | [] => (st, w)
        | c :: cs => let '(st, w) := settle (exec c st w) st w in back cs st w
        end in
      run_op (back during) tx o st w
  end.

(** A sequence of calls. *)
Fixpoint exec_all (cs : list call) (st : Bridge) (w : W) : Bridge * W :=
  match cs with
  | [] => (st, w)
  | c :: cs => let '(st, w) := settle (exec c st w) st w in exec_all cs st w
  end.

(** The widths of what comes with a transaction. *)
Definition call_typed (c : call) : Prop :=
  let '(Call tx o _) := c in
  in_width 160 (sender tx) ∧ in_u256 (value tx) ∧
  match o with
  | DepositERC20 rid token amount => in_u64 rid ∧ in_width 160 token ∧ in_u256 amount
  | DepositETHWithFee chosenFeeBps => in_width 16 chosenFeeBps
  | DepositBoldWithFee amount chosenFeeBps => in_u256 amount ∧ in_width 16 chosenFeeBps
  | SubmitStateRoot root logIndexHigh _ => length root = 32%nat ∧ in_u64 logIndexHigh
  | WithdrawWithProof atLogIndexHigh _ _ => in_u64 atLogIndexHigh
  | RevertToPriorRoot disputedLogIndexHigh => in_u64 disputedLogIndexHigh
  | SetBoldTvlCap newCap => in_u256 newCap
  | _ => True
  end.

(** What a history is made of: a transaction on the bridge, and anything else that
    happens to ether and tokens. *)
Inductive history : Bridge → W → Bridge → W → Prop :=
| history_done st w : history st w st w
| history_call st w c st' w' st'' w'' :
    call_typed c → exec c st w = Ok (st', w') → history st' w' st'' w'' → history st w st'' w''
| history_outside st w w' st'' w'' :
    eth_balance w ≤ eth_balance w' → (∀ t, token_balance t w ≤ token_balance t w') →
    history st w' st'' w'' → history st w st'' w''.
End Bridge.

(** ** Deployment *)

Record ConstructorArgs : Type := {
  arg_knomosisVersionTag : bytes32;
  arg_attestor : address;
  arg_disputeVerifier : address;
  arg_sequencerStake : address;
  arg_migration : address;
  arg_disputeWindowBlocks : Z;
  arg_maxRedemptionWindowBlocks : Z;
  arg_maxAttestationStaleBlocks : Z;
  arg_cooldownBlocks : Z;
  arg_tvlCap : Z;
  arg_minFeeBps : Z;
  arg_maxFeeBps : Z;
  arg_weiPerBudgetUnitEth : Z;
  arg_weiPerBudgetUnitBold : Z;
  arg_boldTokenAddress : address;
  arg_boldTvlCap : Z;
  arg_boldCircuitBreaker : address;
  arg_boldAdmin : address;
  arg_enableLiquityAutoCircuitTrigger : bool;
  arg_ammSeedRatioBps : Z;
  arg_ammDisasterRecovery : address;
  arg_faultProofRollbackAuthority : address;
  arg_erc20ResourceIds : list Z;
  arg_erc20TokenAddrs : list address;
}.

(** The chain a bridge is deployed on: which addresses have code, and what
    [symbol()] answers. *)
Record Deployment : Type := {
  deploy_chainid : Z;
  deploy_this : address;
  has_code : address → bool;
  token_symbol : address → option (list u8);
}.

Section Constructor.
Context (keccak256 : list u8 → bytes32) (env : Deployment) (args : ConstructorArgs).

Abbreviation require P e := (if decide P then reverts e else Ok tt).

Definition boldEnabled_ : bool := bool_decide (arg_boldTokenAddress args ≠ 0).

Definition check_windows : bridge_call () :=
  let? _ := require (arg_disputeWindowBlocks args < arg_maxRedemptionWindowBlocks args) InvariantViolation_DisputeWindowVsRedemption in
  let? _ := require (arg_disputeWindowBlocks args = 0) ZeroDisputeWindow in
  let? _ := require (arg_attestor args = 0) NotAttestor in
  let? _ := require (arg_disputeVerifier args = 0) NotDisputeVerifier in
  let? _ := require (arg_sequencerStake args = 0) ZeroSequencerStake in
  require (arg_maxAttestationStaleBlocks args = 0) ZeroMaxAttestationStaleBlocks.

Definition check_fees : bridge_call () :=
  let? _ := require (arg_maxFeeBps args < arg_minFeeBps args) (MinFeeBpsExceedsMax (arg_minFeeBps args) (arg_maxFeeBps args)) in
  let? _ := require (MAX_FEE_BPS_CAP < arg_maxFeeBps args) (MaxFeeBpsExceedsCap (arg_maxFeeBps args)) in
  let? _ := require (arg_weiPerBudgetUnitEth args < MIN_WEI_PER_BUDGET_UNIT) (WeiPerBudgetUnitTooSmall (arg_weiPerBudgetUnitEth args)) in
  let? _ := require (MAX_AMM_SEED_RATIO_BPS < arg_ammSeedRatioBps args) (AmmSeedRatioExceedsMax (arg_ammSeedRatioBps args)) in
  require (arg_ammDisasterRecovery args = deploy_this env) AmmRoleIsBridge.

Definition check_bold : bridge_call () :=
  let token := arg_boldTokenAddress args in
  if negb boldEnabled_ then Ok tt else
  let? _ := require (deploy_chainid env = 1 ∧ token ≠ BOLD_TOKEN_ADDRESS) (BoldTokenAddressMismatch token) in
  let? _ := require (arg_weiPerBudgetUnitBold args < MIN_WEI_PER_BUDGET_UNIT) (WeiPerBudgetUnitTooSmall (arg_weiPerBudgetUnitBold args)) in
  let? _ := require (has_code env token = false) BoldTokenSymbolUnavailable in
  let? sym := ok_or (token_symbol env token) (Revert BoldTokenSymbolUnavailable) in
  require (keccak256 sym ≠ keccak256 EXPECTED_BOLD_SYMBOL) (BoldTokenSymbolMismatch sym).

Definition check_roles : bridge_call () :=
  if negb boldEnabled_ then Ok tt else
  let? _ := require (arg_boldCircuitBreaker args = 0) ZeroBoldCircuitBreaker in
  let? _ := require (arg_boldAdmin args = 0) ZeroBoldAdmin in
  let? _ := require (arg_boldCircuitBreaker args = arg_boldAdmin args) BoldRolesNotDistinct in
  let? _ := require (arg_boldCircuitBreaker args = deploy_this env ∨ arg_boldAdmin args = deploy_this env) BoldRoleIsBridge in
  let? _ := require (arg_tvlCap args < arg_boldTvlCap args) (BoldTvlCapExceedsGlobal (arg_boldTvlCap args) (arg_tvlCap args)) in
  require (0 < arg_ammSeedRatioBps args ∧ arg_ammDisasterRecovery args = 0) AmmDisasterRecoveryRequired.

Definition check_trigger : bridge_call () :=
  if negb (arg_enableLiquityAutoCircuitTrigger args) then Ok tt else
  if negb boldEnabled_ then reverts AutoTriggerRequiresBold else
  let? _ := require (LIQUITY_V2_TROVE_MANAGER_ETH = LIQUITY_V2_TROVE_MANAGER_WSTETH ∨
                     LIQUITY_V2_TROVE_MANAGER_WSTETH = LIQUITY_V2_TROVE_MANAGER_RETH ∨
                     LIQUITY_V2_TROVE_MANAGER_ETH = LIQUITY_V2_TROVE_MANAGER_RETH) BoldTroveManagersNotDistinct in
  let? _ := require (has_code env LIQUITY_V2_TROVE_MANAGER_ETH = false) (LiquityOracleHasNoCode LIQUITY_V2_TROVE_MANAGER_ETH) in
  let? _ := require (has_code env LIQUITY_V2_TROVE_MANAGER_WSTETH = false) (LiquityOracleHasNoCode LIQUITY_V2_TROVE_MANAGER_WSTETH) in
  require (has_code env LIQUITY_V2_TROVE_MANAGER_RETH = false) (LiquityOracleHasNoCode LIQUITY_V2_TROVE_MANAGER_RETH).

(** The loop over the resources; [seen] are the tokens before. *)
Fixpoint wire (seen : list address) (pairs : list (Z * address)) (m : gmap Z address) : bridge_call (gmap Z address) :=
  match pairs with
  | [] => Ok m
  | (rid, tok) :: pairs =>
      if decide (rid = RESOURCE_ID_NATIVE_ETH ∨ tok = 0) then reverts UnsupportedResource else
      if decide (m !! rid ≠ None) then reverts UnsupportedResource else
      if decide (tok ∈ seen) then reverts (DuplicateResourceToken tok) else
      if decide (boldEnabled_ = true ∧ (rid = RESOURCE_ID_BOLD ∨ tok = arg_boldTokenAddress args))
      then reverts BoldResourceReserved else
      wire (seen ++ [tok]) pairs (<[rid := tok]> m)
  end.

Definition initial_bridge : Bridge :=
  {| depositNonce := ∅; stateRoots := ∅; latestSubmittedLogIndexHigh := 0;
     latestStateRootSubmittedAtBlock := 0; lastUpheldDisputeBlock := 0;
     lowestRevertedLogIndexHigh := u64_max; revertedThroughLogIndexHigh := 0;
     withdrawalLeafRedeemed := ∅; totalLockedValue := 0; boldCircuitClosed := false;
     boldTvlCap := arg_boldTvlCap args; boldTotalLockedValue := 0; ammDisabled := false;
     entered := false; logs := [] |}.

Definition constructor : bridge_call (Immutables * Bridge) :=
  let? _ := check_windows in
  let? _ := check_fees in
  let? _ := check_bold in
  let? _ := check_roles in
  let? _ := check_trigger in
  if decide (length (arg_erc20ResourceIds args) ≠ length (arg_erc20TokenAddrs args)) then reverts UnsupportedResource else
  let? m := wire [] (zip (arg_erc20ResourceIds args) (arg_erc20TokenAddrs args)) ∅ in
  Ok ({| this := deploy_this env;
         bridge_deploymentId := keccak256 (abi_word (deploy_chainid env) ++ abi_word (deploy_this env) ++ arg_knomosisVersionTag args);
         attestor := arg_attestor args; disputeVerifier := arg_disputeVerifier args;
         faultProofRollbackAuthority := arg_faultProofRollbackAuthority args; migration := arg_migration args;
         disputeWindowBlocks := arg_disputeWindowBlocks args;
         maxAttestationStaleBlocks := arg_maxAttestationStaleBlocks args;
         cooldownBlocks := arg_cooldownBlocks args; tvlCap := arg_tvlCap args;
         minFeeBps := arg_minFeeBps args; maxFeeBps := arg_maxFeeBps args;
         weiPerBudgetUnitEth := arg_weiPerBudgetUnitEth args;
         weiPerBudgetUnitBold := arg_weiPerBudgetUnitBold args; boldEnabled := boldEnabled_;
         boldToken := arg_boldTokenAddress args; ammSeedRatioBps := arg_ammSeedRatioBps args;
         ammDisasterRecovery := arg_ammDisasterRecovery args;
         boldCircuitBreaker := arg_boldCircuitBreaker args; boldAdmin := arg_boldAdmin args;
         enableLiquityAutoCircuitTrigger := arg_enableLiquityAutoCircuitTrigger args;
         resourceTokens := if boldEnabled_ then <[RESOURCE_ID_BOLD := arg_boldTokenAddress args]> m else m |},
      initial_bridge).
End Constructor.
