(* ===== verification/BridgeCodec.v ===== *)
(** * The blobs of a withdrawal

    The bridge's decoders of a pending withdrawal and of a withdrawal proof accept
    exactly the encodings: [decodePendingWithdrawal] the leaves of the kernel's
    tree, [decodeWithdrawalProof] what a withdrawing client sends
    ([test/utils/CbeTestEncoder.sol]). *)

From Stdlib Require Import ZArith Lia.
From stdpp Require Import base numbers list.
From S2P Require Import Prelude Evm CbeDecode Withdrawal Bridge.

Local Open Scope Z_scope.

Definition encodeWithdrawalProof (leaf : list u8) (index : Z) (siblings : list (list u8)) : list u8 :=
  cbe_bytes leaf ++ cbe_uint index ++ (TAG_ARRAY :: to_le_bytes 8 (Z.of_nat (length siblings))) ++
  concat (cbe_bytes <$> siblings).

#[local] Arguments cbe_bytes : simpl never.
#[local] Arguments to_le_bytes : simpl never.

(** A byte string a head can announce. *)
Definition short (p : list u8) : Prop := in_u64 (Z.of_nat (length p)).

Lemma consumes_bound {A} (p : list u8 → cbe A) L buf o a o' :
  consumes p L → 0 ≤ o → p buf o = Ok (a, o') → 0 ≤ o' ≤ buf_length buf.
Proof.
  intros Hp Ho (w & _ & [_ Hb]%sits_at & ->)%Hp; [|done..]. lia.
Qed.

Lemma consumes_map {A B} (p : list u8 → cbe A) L (f : A → B) :
  consumes p L → consumes (fun buf => a ← p buf; mret (f a)) (fun b w => ∃ a, L a w ∧ b = f a).
Proof.
  intros Hp buf o b o' Ho. rewrite stateful_bind_Ok. split.
  - intros (a & o1 & (w & HLw & Hs & ->)%Hp & [= <- <-]); [|done]. exists w. eauto.
  - intros (w & (a & HLw & ->) & Hs & ->). exists a, (o + Z.of_nat (length w)). split; [|done]. apply Hp; eauto.
Qed.

Lemma lift_cbe_Ok {A} (r : result A CbeError) a : lift_cbe r = Ok a ↔ r = Ok a.
Proof. destruct r; cbn; split; congruence. Qed.

(** ** The leaf *)

Lemma read_withdrawal_consumes : consumes read_withdrawal (fun wd w => wd_typed wd ∧ w = leafBytes wd).
Proof.
  eapply consumes_ext.
  { apply consumes_bind; [apply (readHead_consumes TAG_UINT)|intros rid].
    apply consumes_bind; [apply readAddressExact_consumes|intros recipient].
    apply consumes_bind; [apply readAmount_consumes|intros amount].
    apply consumes_bind; [apply (readHead_consumes TAG_UINT)|intros l2LogIndex].
    apply consumes_map, (readHead_consumes TAG_UINT). }
  intros wd w. split.
  - intros (rid & w1 & ? & [Hr ->] & (to & w2 & ? & [Ht ->] & (a & w3 & ? & [Ha ->] & (l & w4 & ? & [Hl ->] &
      (id & [Hid ->] & ->) & ->) & ->) & ->) & ->). done.
  - intros [(Hr & Ht & Ha & Hl & Hid) ->]. destruct wd as [r t a l i]. unfold leafBytes. cbn [wd_resource wd_recipient wd_amount wd_l2LogIndex wdId] in *.
    eexists r, _, _. split; [done|]. split; [|done]. eexists t, _, _. split; [done|]. split; [|done].
    eexists a, _, _. split; [done|]. split; [|done]. eexists l, _, _. split; [done|]. split; [|done]. by exists i.
Qed.

Lemma decodePendingWithdrawal_Ok leafBlob wd :
  decodePendingWithdrawal leafBlob = Ok wd ↔ wd_typed wd ∧ leafBlob = leafBytes wd.
Proof.
  rewrite <- (consumes_all _ _ leafBlob wd read_withdrawal_consumes). unfold decodePendingWithdrawal. split.
  - destruct (let? (wd, off) := read_withdrawal leafBlob 0 in _) as [wd'|] eqn:E; [|done]. intros [= ->].
    apply result_bind_Ok in E as ([wd' off] & Hr & ([] & Hc & [= ->])%result_bind_Ok). eauto.
  - intros (off & -> & Hc). cbn [result_bind]. by rewrite Hc.
Qed.

(** ** The proof *)

Lemma read_siblings_Ok n buf o ss o' :
  0 ≤ o ≤ buf_length buf →
  read_siblings n buf o = Ok (ss, o') ↔
  length ss = n ∧ Forall short ss ∧ sits buf o (concat (cbe_bytes <$> ss)) ∧
  o' = o + Z.of_nat (length (concat (cbe_bytes <$> ss))).
Proof.
  revert o ss o'. induction n as [|n IH]; intros o ss o' Ho; cbn [read_siblings].
  - split.
    + intros [= <- <-]. split; [done|]. split; [constructor|]. split; [apply sits_nil; lia|cbn; lia].
    + intros (Hl & _ & _ & ->). destruct ss; [|done]. cbn. by rewrite Z.add_0_r.
  - rewrite stateful_bind_Ok. split.
    + intros (s & o1 & Hs & (rest & o2 & Hr & [= <- <-])%stateful_bind_Ok).
      pose proof (consumes_bound _ _ _ _ _ _ readBytes_consumes (proj1 Ho) Hs) as Hb.
      apply readBytes_consumes in Hs as (w & [Hlen ->] & Hs & ->); [|lia].
      apply IH in Hr as (Hl & Hf & Hr & ->); [|done]. cbn. split; [by rewrite Hl|]. split; [by constructor|].
      split; [by apply sits_app|]. rewrite length_app. lia.
    + intros (Hl & Hf & Hs & ->). destruct ss as [|s ss]; [done|]. apply Forall_cons in Hf as [Hlen Hf]. cbn in Hs |- *.
      apply sits_app in Hs as [Hs Hr]. injection Hl as Hl.
      exists s, (o + Z.of_nat (length (cbe_bytes s))). split; [apply readBytes_consumes; [lia|]; eauto|].
      rewrite stateful_bind_Ok. exists ss, (o + Z.of_nat (length (cbe_bytes s ++ concat (cbe_bytes <$> ss)))). split; [|done].
      rewrite length_app, Nat2Z.inj_add, Z.add_assoc. apply sits_at in Hs as [_ Hb]; [|lia]. apply IH; [lia|done].
Qed.

Lemma read_proof_head_consumes :
  consumes read_proof_head (fun h w =>
    short h.1.1 ∧ in_u64 h.1.2 ∧ in_u64 h.2 ∧ w = cbe_bytes h.1.1 ++ cbe_uint h.1.2 ++ (TAG_ARRAY :: to_le_bytes 8 h.2)).
Proof.
  eapply consumes_ext.
  { apply consumes_bind; [apply readBytes_consumes|intros leaf].
    apply consumes_bind; [apply (readHead_consumes TAG_UINT)|intros index].
    apply consumes_map, (readHead_consumes TAG_ARRAY). }
  intros [[leaf index] count] w. cbn [fst snd]. split.
  - intros (a & w1 & ? & [Ha ->] & (b & w2 & ? & [Hb ->] & (c & [Hc ->] & [= -> -> ->]) & ->) & ->). done.
  - intros (Ha & Hb & Hc & ->). eexists leaf, _, _. split; [done|]. split; [|done].
    eexists index, _, _. split; [done|]. split; [|done]. by exists count.
Qed.

(** The head of the encoding, and the siblings after it. *)
Lemma encodeWithdrawalProof_split leaf index siblings :
  encodeWithdrawalProof leaf index siblings =
  (cbe_bytes leaf ++ cbe_uint index ++ (TAG_ARRAY :: to_le_bytes 8 (Z.of_nat (length siblings)))) ++
  concat (cbe_bytes <$> siblings).
Proof. unfold encodeWithdrawalProof. by rewrite <- !app_assoc. Qed.

Lemma decodeWithdrawalProof_Ok proofBlob leaf index siblings :
  decodeWithdrawalProof proofBlob = Ok (leaf, index, siblings) ↔
  short leaf ∧ in_u64 index ∧ length siblings = SMT_HEIGHT ∧ Forall short siblings ∧
  proofBlob = encodeWithdrawalProof leaf index siblings.
Proof.
  unfold decodeWithdrawalProof. rewrite encodeWithdrawalProof_split. split.
  - intros ([[[l i] c] off] & Hh%lift_cbe_Ok & [Hc%dec_stable ([ss off'] & Hs%lift_cbe_Ok &
      ([] & [Hend%dec_stable _]%lift_cbe_Ok%guard_Ok & [= <- <- <-])%result_bind_Ok)%result_bind_Ok]%guard_Ok)%result_bind_Ok.
    pose proof (consumes_bound _ _ _ _ _ _ read_proof_head_consumes (Z.le_refl 0) Hh) as Hb.
    apply read_proof_head_consumes in Hh as (w & (Hl & Hi & _ & ->) & Hw & ->); [|done]. cbn [fst snd] in *.
    apply read_siblings_Ok in Hs as (Hn & Hf & Hs & ->); [|done]. do 4 (split; [done|]).
    apply sits_all. rewrite Hn, <- Hc. split; [by apply sits_app|]. rewrite length_app. lia.
  - intros (Hl & Hi & Hn & Hf & He). set (head := cbe_bytes leaf ++ _) in He.
    destruct (proj2 (sits_all proofBlob _) He) as [[Hw Hs]%sits_app Hlen]. rewrite Z.add_0_l in Hs.
    rewrite length_app, Nat2Z.inj_add in Hlen.
    rewrite result_bind_Ok. exists (leaf, index, Z.of_nat (length siblings), Z.of_nat (length head)). split.
    { apply lift_cbe_Ok, read_proof_head_consumes; [done|]. exists head. cbn [fst snd]. rewrite Z.add_0_l.
      split; [|done]. split; [done|]. split; [done|]. split; [by rewrite Hn|done]. }
    cbv beta iota. rewrite Hn, decide_False by tauto. rewrite result_bind_Ok.
    exists (siblings, buf_length proofBlob). split.
    { apply lift_cbe_Ok, read_siblings_Ok; [lia|]. done. }
    cbv beta iota. unfold assertFullyConsumed. by rewrite decide_False by tauto.
Qed.
