(* ===== verification/BridgeSafe.v ===== *)
(** * The bridge keeps what it owes

    The theorems on [Bridge]: solvency of every resource over any history, with
    calls back into the contract; redemption of a leaf at most once and only with a
    proof of a pending withdrawal; the life of a state root; and a history in which
    a second rollback reaches roots that were not disputed. *)

From Stdlib Require Import ZArith Lia.
From stdpp Require Import base numbers list gmap.
From S2P Require Import Prelude Evm CbeDecode Withdrawal Bridge BridgeCodec.

Local Open Scope Z_scope.

#[local] Arguments abi_word : simpl never.

(** ** What the events say *)

(** What an event adds to the value the bridge holds of a resource. *)
Definition flow (e : BridgeEvent) : Z * Z :=
  match e with
  | DepositInitiated _ rid _ amount _ _ => (rid, amount)
  | DepositWithFeeInitiated _ rid _ userAmount poolAmount _ _ _ _ => (rid, userAmount + poolAmount)
  | WithdrawalRedeemed _ _ rid amount _ => (rid, - amount)
  | _ => (0, 0)
  end.

Definition held (r : Z) (es : list BridgeEvent) : Z :=
  zsum ((fun e => if decide ((flow e).1 = r) then (flow e).2 else 0) <$> es).

Definition held_in_all (es : list BridgeEvent) : Z := zsum ((fun e => (flow e).2) <$> es).

Definition redeemed_hash (e : BridgeEvent) : option bytes32 :=
  match e with WithdrawalRedeemed h _ _ _ _ => Some h | _ => None end.

Definition redeemed_hashes (es : list BridgeEvent) : list bytes32 := omap redeemed_hash es.

(** Who made a deposit, with which nonce. *)
Definition deposit_of (e : BridgeEvent) : option (address * Z) :=
  match e with
  | DepositInitiated s _ _ _ n _ | DepositWithFeeInitiated s _ _ _ _ _ _ n _ => Some (s, n)
  | _ => None
  end.

(** The string a receipt hashes, from the event that reports it, and the hash. *)
Definition receipt_of (imm : Immutables) (e : BridgeEvent) : option (list u8 * bytes32) :=
  match e with
  | DepositInitiated s r t a n h =>
      Some (bridge_deploymentId imm ++ concat (abi_word <$> [s; r; t; a; n]), h)
  | DepositWithFeeInitiated s r t u p seed g n h =>
      Some (bridge_deploymentId imm ++ concat (abi_word <$> [s; r; t; u; p; seed; g; n]), h)
  | _ => None
  end.

(** A deposit event whose fields have the widths of their types, with the seed of
    the pool a part of the fee and the budget within its cap. *)
Definition event_fits (e : BridgeEvent) : Prop :=
  match e with
  | DepositInitiated s r t a _ _ => in_width 160 s ∧ in_u64 r ∧ in_width 160 t ∧ in_u256 a
  | DepositWithFeeInitiated s r t u p seed g _ _ =>
      in_width 160 s ∧ in_u64 r ∧ in_width 160 t ∧ in_u256 u ∧ in_u256 p ∧ 0 ≤ seed ≤ p ∧ 0 ≤ g ≤ MAX_BUDGET_PER_DEPOSIT
  | _ => True
  end.

(** An event that moves no value. *)
Definition silent (e : BridgeEvent) : Prop :=
  flow e = (0, 0) ∧ redeemed_hash e = None ∧ deposit_of e = None.

Lemma held_cons r e es : held r (e :: es) = (if decide ((flow e).1 = r) then (flow e).2 else 0) + held r es.
Proof. done. Qed.

Lemma held_silent r e es : silent e → held r (e :: es) = held r es.
Proof. intros (Hf & _ & _). rewrite held_cons, Hf. cbn. by destruct (decide _). Qed.

Lemma held_in_all_silent e es : silent e → held_in_all (e :: es) = held_in_all es.
Proof. intros (Hf & _ & _). unfold held_in_all. cbn. by rewrite Hf. Qed.

(** ** The world *)

(** Value that comes with a call is the bridge's; a transfer to the bridge lowers
    none of its balances; a payment lowers the balance it is paid from by no more
    than its amount, and no other; and ether that is not there cannot be sent. *)
Class LedgerOk (W : Type) `{Ledger W} : Prop := {
  eth_nonneg w : 0 ≤ eth_balance w;
  token_u256 t w : in_u256 (token_balance t w);
  take_eth v w : 0 ≤ v → eth_balance (take_value v w) = eth_balance w + v;
  take_token v t w : token_balance t (take_value v w) = token_balance t w;
  pull_eth t f a w w' : safeTransferFrom t f a w = Some w' → eth_balance w ≤ eth_balance w';
  pull_token t f a w w' u : safeTransferFrom t f a w = Some w' → token_balance u w ≤ token_balance u w';
  push_eth t to a w w' : safeTransfer t to a w = Some w' → eth_balance w ≤ eth_balance w';
  push_token t to a w w' u :
    safeTransfer t to a w = Some w' → token_balance u w - (if decide (u = t) then a else 0) ≤ token_balance u w';
  send_eth to a w w' : sendValue to a w = Some w' → eth_balance w - a ≤ eth_balance w';
  send_token to a w w' u : sendValue to a w = Some w' → token_balance u w ≤ token_balance u w';
}.

(** ** Calls back *)

Section Frames.
Context (keccak256 : list u8 → bytes32) (recover : bytes32 → list u8 → option address) (imm : Immutables).
Context {W : Type} `{Ledger W}.
Abbreviation exec := (exec keccak256 recover imm (W := W)).
Abbreviation exec_all := (exec_all keccak256 recover imm (W := W)).

Lemma exec_unfold tx o during st w :
  exec (Call tx o during) st w = run_op keccak256 recover imm (exec_all during) tx o st w.
Proof. done. Qed.

(** The roots of a later state: those that were there stay, new ones are above
    them, and the reverted range only grows. *)
Record later (st st' : Bridge) : Prop := {
  later_root i rec : stateRoots st !! i = Some rec → stateRoots st' !! i = Some rec;
  later_fresh i : stateRoots st !! i = None → is_Some (stateRoots st' !! i) → latestSubmittedLogIndexHigh st < i;
  later_latest : latestSubmittedLogIndexHigh st ≤ latestSubmittedLogIndexHigh st';
  later_floor : lowestRevertedLogIndexHigh st' ≤ lowestRevertedLogIndexHigh st;
  later_ceiling : revertedThroughLogIndexHigh st ≤ revertedThroughLogIndexHigh st';
  later_amm : ammDisabled st = true → ammDisabled st' = true;
}.

(** Every root is at most the latest one. *)
Definition roots_ok (st : Bridge) : Prop :=
  (∀ i, is_Some (stateRoots st !! i) → i ≤ latestSubmittedLogIndexHigh st) ∧
  revertedThroughLogIndexHigh st ≤ latestSubmittedLogIndexHigh st.

(** A state that differs in nothing that has to do with value. *)
Record calm (st st' : Bridge) : Prop := {
  calm_total : totalLockedValue st' = totalLockedValue st;
  calm_bold : boldTotalLockedValue st' = boldTotalLockedValue st;
  calm_redeemed : withdrawalLeafRedeemed st' = withdrawalLeafRedeemed st;
  calm_nonce : depositNonce st' = depositNonce st;
  calm_logs : ∃ es, logs st' = es ++ logs st ∧ Forall silent es;
  calm_roots : roots_ok st → roots_ok st' ∧ later st st';
}.

(** A state that a call which moves no value leaves. *)
Definition quiet (st st' : Bridge) : Prop := calm st st' ∧ entered st' = entered st.

#[global] Instance later_refl : Reflexive later.
Proof. intros st. constructor; try done; try lia. intros i Hi [rec Hr]. congruence. Qed.

#[global] Instance later_trans : Transitive later.
Proof.
  intros a b c [A1 A2 A3 A4 A5 A6] [B1 B2 B3 B4 B5 B6]. constructor; [auto| |lia|lia|lia|auto].
  intros i Hi Hs. destruct (stateRoots b !! i) as [rec|] eqn:Hb; [apply A2; eauto|]. specialize (B2 i Hb Hs). lia.
Qed.

#[global] Instance calm_refl : Reflexive calm.
Proof. intros st. constructor; try done. by exists []. Qed.

#[global] Instance calm_trans : Transitive calm.
Proof.
  intros a b c [A2 A3 A4 A5 (es1 & A6 & A6') A7] [B2 B3 B4 B5 (es2 & B6 & B6') B7].
  constructor; [congruence..| |].
  - exists (es2 ++ es1). rewrite B6, A6, app_assoc. split; [done|]. by apply Forall_app.
  - intros Ha. destruct (A7 Ha) as [Hb L1]. destruct (B7 Hb) as [Hc L2]. split; [done|]. by transitivity b.
Qed.

#[global] Instance quiet_refl : Reflexive quiet.
Proof. by intros st. Qed.

#[global] Instance quiet_trans : Transitive quiet.
Proof. intros a b c [A1 A2] [B1 B2]. split; [by etrans|congruence]. Qed.

(** A step that leaves the roots alone. *)
Lemma roots_frame st st' :
  stateRoots st' = stateRoots st → latestSubmittedLogIndexHigh st' = latestSubmittedLogIndexHigh st →
  lowestRevertedLogIndexHigh st' = lowestRevertedLogIndexHigh st →
  revertedThroughLogIndexHigh st' = revertedThroughLogIndexHigh st →
  (ammDisabled st = true → ammDisabled st' = true) → roots_ok st → roots_ok st' ∧ later st st'.
Proof.
  intros E1 E2 E3 E4 E5 Hr. split; [unfold roots_ok; by rewrite E1, E2, E4|].
  constructor; rewrite ?E1, ?E2, ?E3, ?E4; try done. intros i Hi [rec Hs]. congruence.
Qed.

Lemma roots_then a b c :
  (roots_ok a → roots_ok b ∧ later a b) → (roots_ok b → roots_ok c ∧ later b c) → roots_ok a → roots_ok c ∧ later a c.
Proof. intros Hab Hbc Ha. destruct (Hab Ha) as [Hb ?]. destruct (Hbc Hb). split; [done|by etrans]. Qed.

Lemma calm_entered b st : calm st (set_entered b st).
Proof.
  constructor; try done; [by exists []|]. by apply roots_frame.
Qed.

(** An operation on switches and roots. *)
Lemma quiet_switch closed cap disabled e st :
  silent e → (ammDisabled st = true → disabled = true) → quiet st (emit e (set_switches closed cap disabled st)).
Proof.
  intros He Hd. split; [|done]. constructor; try done; [by exists [e]; split; [|constructor]|].
  by apply roots_frame.
Qed.

Lemma quiet_submit i r e st :
  silent e → latestSubmittedLogIndexHigh st < i → quiet st (emit e (set_root i r st)).
Proof.
  intros He Hi. split; [|done]. constructor; try done; [by exists [e]; split; [|constructor]|].
  intros [Hr Hc]. split.
  - split; cbn; [|lia]. intros j [rec Hj]. destruct (decide (i = j)) as [->|Hne]; [lia|].
    rewrite lookup_insert_ne in Hj by done. assert (is_Some (stateRoots st !! j)) as Hs by eauto. apply Hr in Hs. lia.
  - constructor; cbn; try done; try lia.
    + intros j rec Hj. rewrite lookup_insert_ne; [done|]. intros ->.
      assert (is_Some (stateRoots st !! j)) as Hs by eauto. apply Hr in Hs. lia.
    + intros j Hj [rec Hs]. destruct (decide (i = j)) as [->|Hne]; [done|]. rewrite lookup_insert_ne in Hs by done. congruence.
Qed.

Lemma quiet_revert i block st :
  quiet st (set_reverted (Z.min i (lowestRevertedLogIndexHigh st))
                         (Z.max (latestSubmittedLogIndexHigh st) (revertedThroughLogIndexHigh st)) block st).
Proof.
  split; [|done]. constructor; try done; [by exists []|]. intros [Hr Hc]. split; [split; cbn; [done|lia]|].
  constructor; cbn; try done; try lia. intros j Hj [rec Hs]. congruence.
Qed.

Lemma quiet_emit e st : silent e → quiet st (emit e st).
Proof.
  intros He. split; [|done]. constructor; try done; [by exists [e]; split; [|constructor]|].
  by apply roots_frame.
Qed.

(** The entry points that move value are those the guard protects. *)
Definition guarded (o : op) : bool :=
  match o with
  | DepositETH | DepositERC20 _ _ _ | DepositETHWithFee _ | DepositBoldWithFee _ _ | WithdrawWithProof _ _ _ => true
  | _ => false
  end.

Lemma guarded_entered back tx o st w :
  guarded o = true → entered st = true → is_ok (run_op keccak256 recover imm back tx o st w) = false.
Proof.
  intros Hg He. destruct o; try done; cbn;
    unfold depositETH, depositERC20, depositETHWithFee, depositBoldWithFee, withdrawWithProof, nonpayable, enter;
    rewrite He; by repeat destruct (decide _).
Qed.

Lemma close_if_shutdown_Ok tx branches st st' :
  close_if_shutdown tx branches st = Ok st' →
  ∃ b t, st' = emit (BoldCircuitClosedByAutoTrigger (timestamp tx) b t) (set_switches true (boldTvlCap st) (ammDisabled st) st).
Proof.
  induction branches as [|b branches IH]; [done|]. cbn. intros (t & _ & Hc)%result_bind_Ok.
  destruct (decide _); [|by apply IH]. injection Hc as <-. eauto.
Qed.

(** The others move none. *)
Lemma plain_quiet back tx o st w st' w' :
  guarded o = false → run_op keccak256 recover imm back tx o st w = Ok (st', w') → quiet st st' ∧ w' = w.
Proof.
  intros Hg. destruct o; try done; cbn [run_op]; intros (st1 & Ho & [= -> ->])%result_bind_Ok; (split; [|done]).
  - apply result_bind_Ok in Ho as (_ & _ & [_ [_ [= <-]]%require_bool_Ok]%guard_Ok). by apply quiet_switch.
  - apply result_bind_Ok in Ho as (_ & _ & (_ & _ & [Hi [_ (a & _ & [_ [= <-]]%guard_Ok)%result_bind_Ok]%guard_Ok]%guard_Ok)%result_bind_Ok).
    apply quiet_submit; [done|lia].
  - apply result_bind_Ok in Ho as (_ & _ & [_ [= <-]]%guard_Ok). destruct (_ || _).
    + etrans; [apply quiet_revert|]. by apply quiet_emit.
    + apply quiet_revert.
  - apply result_bind_Ok in Ho as (_ & _ & [_ [= <-]]%guard_Ok). by apply quiet_switch.
  - apply result_bind_Ok in Ho as (_ & _ & [_ [= <-]]%guard_Ok). by apply quiet_switch.
  - apply result_bind_Ok in Ho as (_ & _ & [_ Ho]%require_bool_Ok). destruct (boldCircuitClosed st); [by injection Ho as <-|].
    apply close_if_shutdown_Ok in Ho as (b & t & ->). by apply quiet_switch.
  - apply result_bind_Ok in Ho as (_ & _ & [_ [_ [= <-]]%guard_Ok]%guard_Ok). by apply quiet_switch.
Qed.

(** While an entry point that moves value runs, no call back moves any. *)
Lemma exec_all_quiet cs st w : entered st = true → quiet st (exec_all cs st w).1 ∧ (exec_all cs st w).2 = w.
Proof.
  revert st. induction cs as [|[tx o during] cs IH]; intros st He; [done|]. cbn [Bridge.exec_all]. rewrite exec_unfold.
  destruct (run_op keccak256 recover imm (exec_all during) tx o st w) as [[st' w']|e] eqn:Hr; cbn [settle].
  - destruct (guarded o) eqn:Hg.
    + pose proof (guarded_entered (exec_all during) tx o st w Hg He) as Hn. by rewrite Hr in Hn.
    + apply plain_quiet in Hr as [Hq ->]; [|done]. destruct (IH st') as [Hq' Hw]; [destruct Hq; congruence|].
      split; [by etrans|done].
  - by apply IH.
Qed.
End Frames.

(** ** Deployments *)

Definition args_typed (args : ConstructorArgs) : Prop :=
  in_width 16 (arg_minFeeBps args) ∧ in_width 16 (arg_ammSeedRatioBps args) ∧ in_u256 (arg_tvlCap args) ∧
  Forall in_u64 (arg_erc20ResourceIds args) ∧ Forall (in_width 160) (arg_erc20TokenAddrs args) ∧
  in_width 160 (arg_boldTokenAddress args).

(** What the constructor establishes. *)
Record deployed (imm : Immutables) : Prop := {
  deployed_native : resourceTokens imm !! RESOURCE_ID_NATIVE_ETH = None;
  deployed_inj r r' t : resourceTokens imm !! r = Some t → resourceTokens imm !! r' = Some t → r = r';
  deployed_typed r t : resourceTokens imm !! r = Some t → in_u64 r ∧ in_width 160 t;
  deployed_bold : boldEnabled imm = true → resourceTokens imm !! RESOURCE_ID_BOLD = Some (boldToken imm);
  deployed_fees : 0 ≤ minFeeBps imm ∧ maxFeeBps imm ≤ MAX_FEE_BPS_CAP;
  deployed_seed : 0 ≤ ammSeedRatioBps imm ≤ MAX_AMM_SEED_RATIO_BPS;
  deployed_rates : 1 ≤ weiPerBudgetUnitEth imm ∧ (boldEnabled imm = true → 1 ≤ weiPerBudgetUnitBold imm);
  deployed_cap : in_u256 (tvlCap imm);
}.

(** A resource the loop over the resources accepts. *)
Definition resource_ok (args : ConstructorArgs) (r : Z) (t : address) : Prop :=
  r ≠ RESOURCE_ID_NATIVE_ETH ∧ in_u64 r ∧ in_width 160 t ∧
  (boldEnabled_ args = true → r ≠ RESOURCE_ID_BOLD ∧ t ≠ arg_boldTokenAddress args).

Definition injective_map (m : gmap Z address) : Prop :=
  ∀ r r' t, m !! r = Some t → m !! r' = Some t → r = r'.

Lemma injective_insert m r t : (∀ r', m !! r' ≠ Some t) → injective_map m → injective_map (<[r := t]> m).
Proof.
  intros Hf Hi a b u [[<- <-]|[_ Ha]]%lookup_insert_Some [[<- Hu]|[_ Hb]]%lookup_insert_Some; [done|..].
  - by apply Hf in Hb.
  - subst u. by apply Hf in Ha.
  - by eapply Hi.
Qed.

Lemma wire_Ok args seen pairs m m' :
  wire args seen pairs m = Ok m' → Forall (fun p => in_u64 p.1 ∧ in_width 160 p.2) pairs →
  (∀ r t, m !! r = Some t → t ∈ seen ∧ resource_ok args r t) → injective_map m →
  (∀ r t, m' !! r = Some t → resource_ok args r t) ∧ injective_map m'.
Proof.
  revert seen m. induction pairs as [|[rid tok] pairs IH]; intros seen m; cbn [wire].
  - intros [= <-] _ Hs Hi. split; [|done]. intros r t Hm. by apply Hs.
  - intros [H0 [_ [Hn [Hbr Hw]%guard_Ok]%guard_Ok]%guard_Ok]%guard_Ok [[Hr Ht] Hp]%Forall_cons Hs Hi.
    apply (IH _ _ Hw Hp).
    + intros r t [[<- <-]|[Hne Hm]]%lookup_insert_Some.
      * split; [apply elem_of_app; right; left|]. unfold resource_ok. tauto.
      * destruct (Hs r t Hm) as [Hin Hok]. split; [by apply elem_of_app; left|done].
    + apply injective_insert; [|done]. intros r' Hm. by apply Hs in Hm as [Hin _].
Qed.

Lemma constructor_deployed keccak256 env args imm st :
  args_typed args → constructor keccak256 env args = Ok (imm, st) → deployed imm ∧ st = initial_bridge args.
Proof.
  intros (Tf & Ts & Tc & Tr & Tt & Tb) (_ & _ & (? & Hf & (? & Hb & (_ & _ & (_ & _ & [Hl
    (m & Hm & [= <- <-])%result_bind_Ok]%guard_Ok)%result_bind_Ok)%result_bind_Ok)%result_bind_Ok)%result_bind_Ok)%result_bind_Ok.
  split; [|done]. apply wire_Ok in Hm as [M1 M2]; [|..].
  2: { apply Forall_forall. intros [r t] Hin. cbn. split.
       - eapply Forall_forall; [exact Tr|]. by eapply elem_of_zip_l.
       - eapply Forall_forall; [exact Tt|]. by eapply elem_of_zip_r. }
  2: { intros r t Ht. by rewrite lookup_empty in Ht. }
  2: { intros r r' t Ht. by rewrite lookup_empty in Ht. }
  apply result_bind_Ok in Hf as (_ & _ & (? & [Hcap _]%guard_Ok & (? & [Hrate _]%guard_Ok & (? & [Hseed _]%guard_Ok & _)%result_bind_Ok)%result_bind_Ok)%result_bind_Ok).
  constructor; cbn.
  - destruct (boldEnabled_ args); [rewrite lookup_insert_ne by done|];
      (destruct (m !! _) as [t|] eqn:Ht; [by apply M1 in Ht as [? _]|done]).
  - destruct (boldEnabled_ args) eqn:Eb; [|exact M2]. apply injective_insert; [|done].
    intros r Hr. by apply M1 in Hr as (_ & _ & _ & [_ ?]).
  - intros r t Hr. destruct (boldEnabled_ args) eqn:Eb; [apply lookup_insert_Some in Hr as [[<- <-]|[_ Hr]]|].
    + split; [done|exact Tb].
    + by apply M1 in Hr as (_ & ? & ? & _).
    + by apply M1 in Hr as (_ & ? & ? & _).
  - intros ->. by rewrite lookup_insert_eq.
  - split; [apply Tf|lia].
  - unfold MAX_AMM_SEED_RATIO_BPS in *. split; [apply Ts|lia].
  - unfold MIN_WEI_PER_BUDGET_UNIT in *. split; [lia|]. intros Eb. unfold check_bold in Hb. rewrite Eb in Hb. cbn in Hb.
    apply result_bind_Ok in Hb as (_ & _ & (? & [? _]%guard_Ok & _)%result_bind_Ok). unfold MIN_WEI_PER_BUDGET_UNIT in *. lia.
  - exact Tc.
Qed.

(** ** What a call moves *)

Section Moves.
Context (keccak256 : list u8 → bytes32) (recover : bytes32 → list u8 → option address) (imm : Immutables).
Context (Hdep : deployed imm).
Context {W : Type} `{HL : LedgerOk W}.
Abbreviation exec := (exec keccak256 recover imm (W := W)).
Abbreviation exec_all := (exec_all keccak256 recover imm (W := W)).

(** What the bridge has of a resource. *)
Definition assets (w : W) (r : Z) : Z :=
  if decide (r = RESOURCE_ID_NATIVE_ETH) then eth_balance w
  else match resourceTokens imm !! r with Some t => token_balance t w | None => 0 end.

(** The counter of BOLD moves with its resource. *)
Definition bold_part (r a : Z) : Z := if decide (boldEnabled imm = true ∧ r = RESOURCE_ID_BOLD) then a else 0.

(** A deposit of [a] of resource [r] by [s], which [e] reports. *)
Record arrival (e : BridgeEvent) (s r a : Z) (st st' : Bridge) : Prop := {
  arrival_event : deposit_of e = Some (s, get 0 (depositNonce st) s) ∧ flow e = (r, a) ∧ redeemed_hash e = None;
  arrival_fits : event_fits e ∧ ∀ x, receipt_of imm e = Some x → x.2 = keccak256 x.1;
  arrival_total : totalLockedValue st' = totalLockedValue st + a ∧ totalLockedValue st + a ≤ tvlCap imm;
  arrival_bold : boldTotalLockedValue st' = boldTotalLockedValue st + bold_part r a;
  arrival_nonce : depositNonce st' = <[s := uint64 (get 0 (depositNonce st) s + 1)]> (depositNonce st);
  arrival_redeemed : withdrawalLeafRedeemed st' = withdrawalLeafRedeemed st;
  arrival_logs : ∃ es, logs st' = e :: es ++ logs st ∧ Forall silent es;
  arrival_entered : entered st' = false;
  arrival_roots : roots_ok st → roots_ok st' ∧ later st st';
}.

(** A redemption of a withdrawal, whose leaf had not been redeemed. *)
Record departure (h : bytes32) (wd : PendingWithdrawal) (i : Z) (st st' : Bridge) : Prop := {
  departure_fresh : h ∉ withdrawalLeafRedeemed st;
  departure_total : totalLockedValue st' = totalLockedValue st - wd_amount wd ∧ 0 ≤ wd_amount wd ≤ totalLockedValue st;
  departure_bold : boldTotalLockedValue st' = boldTotalLockedValue st - bold_part (wd_resource wd) (wd_amount wd);
  departure_nonce : depositNonce st' = depositNonce st;
  departure_redeemed : withdrawalLeafRedeemed st' = {[h]} ∪ withdrawalLeafRedeemed st;
  departure_logs : ∃ es, Forall silent es ∧
    logs st' = WithdrawalRedeemed h (wd_recipient wd) (wd_resource wd) (wd_amount wd) i :: es ++ logs st;
  departure_entered : entered st' = false;
  departure_roots : roots_ok st → roots_ok st' ∧ later st st';
}.

Lemma registerDeposit_arrival tx rid token amount st st1 st2 :
  ¬ (boldEnabled imm = true ∧ rid = RESOURCE_ID_BOLD) →
  in_width 160 (sender tx) → in_u64 rid → in_width 160 token → in_u256 amount →
  calm st st1 → registerDeposit keccak256 imm tx rid token amount st1 = Ok st2 →
  ∃ e, arrival e (sender tx) rid amount st (set_entered false st2).
Proof.
  intros Hb Ts Tr Tt Ta [C1 C2 C3 C4 (es & C5 & C5') C6] (tvl & [-> _]%add_at_Ok & [Hcap [= <-]]%guard_Ok)%result_bind_Ok.
  set (n := get 0 (depositNonce st1) (sender tx)).
  exists (DepositInitiated (sender tx) rid token amount n (keccak256 (receipt imm tx rid token amount n))).
  unfold n. constructor; cbn [deposit_of flow redeemed_hash event_fits]; cbn; rewrite ?C4.
  - done.
  - split; [done|]. intros x <-%(inj Some). unfold receipt. cbn. by rewrite app_nil_r.
  - rewrite C1 in *. split; lia.
  - unfold bold_part. destruct (decide _); [done|]. rewrite C2. lia.
  - done.
  - done.
  - exists es. by rewrite C5.
  - done.
  - refine (roots_then _ _ _ C6 _). by apply roots_frame.
Qed.

Lemma ammSeedSplit_Ok st rid p seed : 0 ≤ p → ammSeedSplit imm st rid p = Ok seed → 0 ≤ seed ≤ p.
Proof.
  intros Hp. unfold ammSeedSplit. pose proof (deployed_seed imm Hdep) as Hs. unfold MAX_AMM_SEED_RATIO_BPS in Hs.
  destruct (decide _); [intros [= <-]; lia|]. destruct (negb _); [intros [= <-]; lia|].
  destruct (ammDisabled st); [intros [= <-]; lia|]. destruct (decide _); [intros [= <-]; lia|].
  intros (x & [-> _]%mul_at_Ok & [= <-])%result_bind_Ok. split; [apply Z.div_pos; nia|].
  apply Z.div_le_upper_bound; nia.
Qed.

Lemma registerDepositWithFee_arrival tx rid token u p g st st1 st2 :
  in_width 160 (sender tx) → in_u64 rid → in_width 160 token → in_u256 u → in_u256 p → 0 ≤ g ≤ MAX_BUDGET_PER_DEPOSIT →
  calm st st1 → registerDepositWithFee keccak256 imm tx rid token u p g st1 = Ok st2 →
  ∃ e, arrival e (sender tx) rid (u + p) st (set_entered false st2).
Proof.
  intros Ts Tr Tt Tu Tp Tg [C1 C2 C3 C4 (es & C5 & C5') C6] (a & [-> _]%add_at_Ok & (tvl & [-> _]%add_at_Ok & [Hcap (bold & Hbold &
    (seed & Hseed & [= <-])%result_bind_Ok)%result_bind_Ok]%guard_Ok)%result_bind_Ok)%result_bind_Ok.
  apply ammSeedSplit_Ok in Hseed; [|apply Tp].
  set (n := get 0 (depositNonce st1) (sender tx)).
  exists (DepositWithFeeInitiated (sender tx) rid token u p seed g n (keccak256 (receiptWithFee imm tx rid token u p seed g n))).
  unfold n. constructor; cbn [deposit_of flow redeemed_hash event_fits]; cbn; rewrite ?C4.
  - done.
  - split; [done|]. intros x <-%(inj Some). unfold receiptWithFee. cbn. by rewrite app_nil_r.
  - rewrite C1 in *. split; lia.
  - unfold bold_part. destruct (decide _).
    + apply result_bind_Ok in Hbold as (b & [-> _]%add_at_Ok & [_ [= <-]]%guard_Ok). by rewrite C2.
    + injection Hbold as <-. rewrite C2. lia.
  - done.
  - done.
  - exists es. by rewrite C5.
  - done.
  - refine (roots_then _ _ _ C6 _). by apply roots_frame.
Qed.

(** Balances after [a] more of resource [r]: no resource has less than that. *)
Definition gains (r a : Z) (w w' : W) : Prop :=
  ∀ r', assets w r' + (if decide (r' = r) then a else 0) ≤ assets w' r'.

Lemma take_gains v w : 0 ≤ v → gains RESOURCE_ID_NATIVE_ETH v w (take_value v w).
Proof.
  intros Hv r'. unfold assets. destruct (decide _) as [->|Hr]; [rewrite take_eth; lia|].
  destruct (resourceTokens imm !! r'); [rewrite take_token|]; lia.
Qed.

(** A token of another resource is another token. *)
Lemma token_gains r t a w w' :
  resourceTokens imm !! r = Some t → eth_balance w ≤ eth_balance w' →
  (∀ u, token_balance u w + (if decide (u = t) then a else 0) ≤ token_balance u w') → gains r a w w'.
Proof.
  intros Hr He Ht r'. unfold assets. destruct (decide (r' = RESOURCE_ID_NATIVE_ETH)) as [->|H0].
  - destruct (decide _) as [<-|]; [by rewrite (deployed_native imm Hdep) in Hr|lia].
  - destruct (resourceTokens imm !! r') as [u|] eqn:Hu.
    + specialize (Ht u). destruct (decide (r' = r)) as [->|Hne].
      * rewrite Hr in Hu. injection Hu as ->. by rewrite decide_True in Ht.
      * rewrite decide_False in Ht; [done|]. intros ->. by apply Hne, (deployed_inj imm Hdep _ _ t).
    + destruct (decide (r' = r)) as [->|]; [congruence|lia].
Qed.

Lemma pull_Ok cs mismatch token from amount st w st' w' :
  entered st = true → 0 ≤ amount →
  pull (exec_all cs) mismatch token from amount st w = Ok (st', w') →
  quiet st st' ∧ eth_balance w ≤ eth_balance w' ∧
  ∀ u, token_balance u w + (if decide (u = token) then amount else 0) ≤ token_balance u w'.
Proof.
  intros He Ha (w1 & Hp & Hr)%result_bind_Ok.
  destruct (safeTransferFrom token from amount w) as [w2|] eqn:Ht; [|done]. injection Hp as ->.
  pose proof (exec_all_quiet keccak256 recover imm cs st w1 He) as [Hq Hw].
  destruct (exec_all cs st w1) as [st2 w2]. cbn in Hq, Hw. subst w2.
  apply guard_Ok in Hr as [Hrec%dec_stable [= -> ->]]. split; [done|]. split; [by eapply pull_eth|].
  intros u. destruct (decide (u = token)) as [->|]; [|rewrite Z.add_0_r; by eapply pull_token].
  pose proof (pull_token _ _ _ _ _ token Ht) as Hle. pose proof (token_u256 token w) as [? ?]. pose proof (token_u256 token w') as [? ?].
  rewrite Z.mod_small in Hrec; lia.
Qed.

Lemma feeSplit_Ok v fee rate u p g :
  in_u256 v → 0 ≤ fee ≤ MAX_FEE_BPS_CAP → 1 ≤ rate → feeSplit v fee rate = Ok (u, p, g) →
  u + p = v ∧ p = v * fee / 10000 ∧ 2 * p ≤ v ∧ 0 ≤ p ∧ g = Z.min (p / rate) MAX_BUDGET_PER_DEPOSIT.
Proof.
  unfold MAX_FEE_BPS_CAP. intros [Hv Hv'] Hf Hr (x & [-> Hx]%mul_at_Ok & Hk)%result_bind_Ok. cbn zeta in Hk.
  destruct (decide (rate = 0)); [lia|]. injection Hk as <- <- <-.
  assert (0 ≤ v * fee / 10000) by (apply Z.div_pos; nia). assert (2 * (v * fee / 10000) ≤ v).
  { pose proof (Z.mul_div_le (v * fee) 10000). nia. }
  rewrite (Z.mod_small (v - _)) by lia. split; [lia|]. split; [done|]. split; [done|]. split; [done|].
  unfold MAX_BUDGET_PER_DEPOSIT in *. destruct (decide _); [lia|].
  assert (0 ≤ v * fee / 10000 / rate) by (apply Z.div_pos; lia). rewrite uint64_id; [lia|]. unfold in_width. lia.
Qed.

(** The parts of a fee split fit their types. *)
Lemma feeSplit_fits v fee rate u p g :
  in_u256 v → 0 ≤ fee ≤ MAX_FEE_BPS_CAP → 1 ≤ rate → feeSplit v fee rate = Ok (u, p, g) →
  u + p = v ∧ in_u256 u ∧ in_u256 p ∧ 0 ≤ g ≤ MAX_BUDGET_PER_DEPOSIT.
Proof.
  intros Hv Hf Hr (Hs & _ & H2 & H0 & ->)%feeSplit_Ok; [|done..]. destruct Hv as [? ?].
  assert (0 ≤ p / rate) by (apply Z.div_pos; lia). unfold in_width, MAX_BUDGET_PER_DEPOSIT. lia.
Qed.

Lemma requireFee_Ok fee x : requireFee imm fee = Ok x → 0 ≤ fee ≤ MAX_FEE_BPS_CAP.
Proof. intros [H1 [H2 _]%guard_Ok]%guard_Ok. pose proof (deployed_fees imm Hdep). lia. Qed.

(** What a call does to the bridge and to its balances. *)
Inductive moves (st : Bridge) (w : W) (st' : Bridge) (w' : W) : Prop :=
| moves_quiet : quiet st st' → w' = w → moves st w st' w'
| moves_in e s r a : 0 ≤ a → arrival e s r a st st' → gains r a w w' → moves st w st' w'
| moves_out h wd i :
    departure h wd i st st' → gains (wd_resource wd) (- wd_amount wd) w w' → moves st w st' w'.

Lemma enter_Ok st st' : enter st = Ok st' → entered st = false ∧ st' = set_entered true st.
Proof. intros [He [= <-]]%require_bool_Ok. by destruct (entered st). Qed.

Lemma depositETH_moves tx st w st' w' :
  in_width 160 (sender tx) → in_u256 (value tx) → depositETH keccak256 imm tx st w = Ok (st', w') → moves st w st' w'.
Proof.
  intros Ts Hv (st1 & [_ ->]%enter_Ok & (_ & _ & (st2 & Hr & [= <- <-])%result_bind_Ok)%result_bind_Ok)%result_bind_Ok.
  apply (registerDeposit_arrival _ _ _ _ st) in Hr as [e He]; [|by intros [_ ?]|done..|apply calm_entered].
  by eapply moves_in; [apply Hv|..|apply take_gains, Hv].
Qed.

Lemma depositETHWithFee_moves tx fee st w st' w' :
  in_width 160 (sender tx) → in_u256 (value tx) → depositETHWithFee keccak256 imm tx fee st w = Ok (st', w') → moves st w st' w'.
Proof.
  intros Ts Hv (st1 & [_ ->]%enter_Ok & (_ & _ & [_ (x & Hf%requireFee_Ok & ([[u p] g] & Hs & (st2 & Hr &
    [= <- <-])%result_bind_Ok)%result_bind_Ok)%result_bind_Ok]%guard_Ok)%result_bind_Ok)%result_bind_Ok.
  apply feeSplit_fits in Hs as (Hup & Hu & Hp & Hg); [|done|done|apply (deployed_rates imm Hdep)].
  apply (registerDepositWithFee_arrival _ _ _ _ _ _ st) in Hr as [e He]; [|done..|apply calm_entered]. rewrite Hup in He.
  by eapply moves_in; [apply Hv|..|apply take_gains, Hv].
Qed.

Lemma depositERC20_moves cs tx rid token amount st w st' w' :
  in_width 160 (sender tx) → in_u256 amount → depositERC20 keccak256 imm (exec_all cs) tx rid token amount st w = Ok (st', w') → moves st w st' w'.
Proof.
  intros Ts Ha (_ & _ & (st1 & [_ ->]%enter_Ok & (_ & _ & [Hb [_ [Ht%dec_stable ([st2 w2] & Hp & (st3 & Hr &
    [= <- <-])%result_bind_Ok)%result_bind_Ok]%guard_Ok]%guard_Ok]%guard_Ok)%result_bind_Ok)%result_bind_Ok)%result_bind_Ok.
  apply pull_Ok in Hp as ([Hq _] & He & Hg); [|done|apply Ha]. destruct (deployed_typed imm Hdep _ _ Ht).
  apply (registerDeposit_arrival _ _ _ _ st) in Hr as [e Hr]; [|done..|by etrans; [apply calm_entered|]].
  eapply moves_in; [apply Ha|exact Hr|]. by eapply token_gains.
Qed.

Lemma depositBoldWithFee_moves cs tx amount fee st w st' w' :
  in_width 160 (sender tx) → in_u256 amount → depositBoldWithFee keccak256 imm (exec_all cs) tx amount fee st w = Ok (st', w') → moves st w st' w'.
Proof.
  intros Ts Ha (_ & _ & (st1 & [_ ->]%enter_Ok & (_ & _ & [_ [Hb [_ (x & Hf%requireFee_Ok & ([st2 w2] & Hp &
    ([[u p] g] & Hs & (st3 & Hr & [= <- <-])%result_bind_Ok)%result_bind_Ok)%result_bind_Ok)%result_bind_Ok]%guard_Ok]
    %require_bool_Ok]%require_bool_Ok)%result_bind_Ok)%result_bind_Ok)%result_bind_Ok.
  apply negb_false_iff in Hb. apply pull_Ok in Hp as ([Hq _] & He & Hg); [|done|apply Ha].
  apply feeSplit_fits in Hs as (Hup & Hu & Hp' & Hg'); [|done|done|by apply (deployed_rates imm Hdep)].
  pose proof (deployed_bold imm Hdep Hb) as Ht. destruct (deployed_typed imm Hdep _ _ Ht).
  apply (registerDepositWithFee_arrival _ _ _ _ _ _ st) in Hr as [e Hr]; [|done..|by etrans; [apply calm_entered|]].
  rewrite Hup in Hr. eapply moves_in; [apply Ha|exact Hr|]. by eapply token_gains.
Qed.

(** What the checks of a withdrawal establish. *)
Lemma check_withdrawal_Ok tx st i proofBlob leafBlob wd :
  check_withdrawal keccak256 imm tx st i proofBlob leafBlob = Ok wd →
  wd_typed wd ∧ leafBlob = leafBytes wd ∧ wd_recipient wd ≠ 0 ∧ keccak256 leafBlob ∉ withdrawalLeafRedeemed st.
Proof.
  intros (wd' & [Ht ->]%decodePendingWithdrawal_Ok & [Hto (root & _ & [Hfresh ([[l x] ss] & _ & [_ [_
    (v & _ & [_ [= <-]]%require_bool_Ok)%result_bind_Ok]%guard_Ok]%guard_Ok)%result_bind_Ok]%guard_Ok)%result_bind_Ok]
    %guard_Ok)%result_bind_Ok. done.
Qed.

(** The counters after a withdrawal. *)
Lemma release_Ok wd st st' :
  release imm wd st = Ok st' →
  wd_amount wd ≤ totalLockedValue st ∧
  st' = set_locked (totalLockedValue st - wd_amount wd)
          (boldTotalLockedValue st - bold_part (wd_resource wd) (wd_amount wd)) st.
Proof.
  intros [Ht Hb]%guard_Ok. split; [lia|]. unfold bold_part. destruct (decide (boldEnabled imm = true ∧ _)).
  - by apply guard_Ok in Hb as [_ [= <-]].
  - injection Hb as <-. by rewrite Z.sub_0_r.
Qed.

Lemma pay_out_gains wd w w' :
  0 ≤ wd_amount wd → pay_out imm wd w = Ok w' → gains (wd_resource wd) (- wd_amount wd) w w'.
Proof.
  intros Ha. unfold pay_out. destruct (decide (wd_resource wd = RESOURCE_ID_NATIVE_ETH)) as [E|E].
  - destruct (sendValue _ _ w) as [w1|] eqn:Hs; [|done]. intros [= ->]. intros r'. rewrite E. unfold assets.
    pose proof (send_eth _ _ _ _ Hs). destruct (decide _); [lia|].
    destruct (resourceTokens imm !! r') as [u|]; [|lia]. pose proof (send_token _ _ _ _ u Hs). lia.
  - destruct (resourceTokens imm !! wd_resource wd) as [t|] eqn:Ht; [|done].
    destruct (safeTransfer t _ _ w) as [w1|] eqn:Hs; [|done]. intros [= ->].
    eapply token_gains; [exact Ht|by eapply push_eth|]. intros u. pose proof (push_token _ _ _ _ _ u Hs) as Hu.
    destruct (decide (u = t)); lia.
Qed.

Lemma withdrawWithProof_moves cs tx i proofBlob leafBlob st w st' w' :
  withdrawWithProof keccak256 imm (exec_all cs) tx i proofBlob leafBlob st w = Ok (st', w') → moves st w st' w'.
Proof.
  intros (_ & _ & (st1 & [_ ->]%enter_Ok & (wd & (Ht & -> & _ & Hfresh)%check_withdrawal_Ok & (st2 & [Hle ->]%release_Ok &
    (w1 & Hpay & Hd)%result_bind_Ok)%result_bind_Ok)%result_bind_Ok)%result_bind_Ok)%result_bind_Ok.
  assert (Ha : 0 ≤ wd_amount wd) by apply Ht.
  set (st2 := set_locked _ _ _) in Hd. pose proof (exec_all_quiet keccak256 recover imm cs st2 w1 eq_refl) as [[Hc _] Hw].
  destruct (exec_all cs st2 w1) as [st3 w3]. cbn in Hc, Hw. subst w3. injection Hd as <- <-.
  destruct Hc as [C1 C2 C3 C4 (es & C5 & C5') C6].
  eapply (moves_out _ _ _ _ (keccak256 (leafBytes wd)) wd i); [|by apply pay_out_gains].
  constructor; cbn in *; try done.
  - exists es. by rewrite C5.
  - refine (roots_then _ _ _ _ _); [|by refine (roots_then _ _ _ C6 _); apply roots_frame]. by apply roots_frame.
Qed.

Lemma exec_moves c st w st' w' : call_typed c → exec c st w = Ok (st', w') → moves st w st' w'.
Proof.
  destruct c as [tx o cs]. rewrite exec_unfold. intros (Ts & Hv & Ho). destruct (guarded o) eqn:Hg.
  - destruct o; try done; cbn [run_op].
    + by apply depositETH_moves.
    + apply depositERC20_moves; [done|apply Ho].
    + by apply depositETHWithFee_moves.
    + apply depositBoldWithFee_moves; [done|apply Ho].
    + by apply withdrawWithProof_moves.
  - intros [Hq Hw]%plain_quiet; [|done]. by apply moves_quiet.
Qed.
End Moves.

(** ** Histories *)

(** How many deposits of a sender a list of events reports. *)
Definition deposits (s : address) (es : list BridgeEvent) : Z :=
  zsum ((fun e => match deposit_of e with Some (s', _) => if decide (s' = s) then 1 else 0 | None => 0 end) <$> es).

(** The deposits of every sender are numbered in order, modulo 2^64. *)
Fixpoint numbered (es : list BridgeEvent) : Prop :=
  match es with
  | [] => True
  | e :: es => (∀ s n, deposit_of e = Some (s, n) → n = uint64 (deposits s es)) ∧ numbered es
  end.

Lemma deposits_silent s e es : silent e → deposits s (e :: es) = deposits s es.
Proof. intros (_ & _ & He). unfold deposits. cbn. by rewrite He. Qed.

Lemma deposits_nonneg s es : 0 ≤ deposits s es.
Proof.
  induction es as [|e es IH]; [done|]. unfold deposits in *. cbn. change (foldr Z.add 0) with zsum.
  destruct (deposit_of e) as [[s' n]|]; [destruct (decide _)|]; lia.
Qed.

Section Histories.
Context (keccak256 : list u8 → bytes32) (recover : bytes32 → list u8 → option address) (imm : Immutables).
Context (Hdep : deployed imm).
Context {W : Type} `{HL : LedgerOk W}.
Abbreviation history := (history keccak256 recover imm (W := W)).

(** What holds between transactions. *)
Record bridge_inv (st : Bridge) (w : W) : Prop := {
  inv_entered : entered st = false;
  inv_total : totalLockedValue st = held_in_all (logs st) ∧ 0 ≤ totalLockedValue st ≤ tvlCap imm;
  inv_bold : boldTotalLockedValue st = (if boldEnabled imm then held RESOURCE_ID_BOLD (logs st) else 0);
  inv_assets r : held r (logs st) ≤ assets imm w r;
  inv_redeemed : withdrawalLeafRedeemed st = list_to_set (redeemed_hashes (logs st)) ∧ NoDup (redeemed_hashes (logs st));
  inv_numbered : (∀ s, get 0 (depositNonce st) s = uint64 (deposits s (logs st))) ∧ numbered (logs st);
  inv_events e : e ∈ logs st → event_fits e ∧ ∀ x, receipt_of imm e = Some x → x.2 = keccak256 x.1;
  inv_roots : roots_ok st;
}.

(** Events that move nothing keep what the events say. *)
Lemma silent_logs es l :
  Forall silent es →
  (∀ r, held r (es ++ l) = held r l) ∧ held_in_all (es ++ l) = held_in_all l ∧
  redeemed_hashes (es ++ l) = redeemed_hashes l ∧ (∀ s, deposits s (es ++ l) = deposits s l) ∧
  (numbered l → numbered (es ++ l)).
Proof.
  induction 1 as [|e es He Hes (IH1 & IH2 & IH3 & IH4 & IH5)]; [done|]. cbn [app]. repeat split.
  - intros r. by rewrite held_silent.
  - by rewrite held_in_all_silent.
  - destruct He as (_ & Hr & _). unfold redeemed_hashes in *. cbn. by rewrite Hr.
  - intros s. by rewrite deposits_silent.
  - destruct He as (_ & _ & Hd). rewrite Hd. done.
  - auto.
Qed.

Lemma silent_fits e : silent e → event_fits e ∧ ∀ x, receipt_of imm e = Some x → x.2 = keccak256 x.1.
Proof. intros (_ & _ & Hd). by destruct e. Qed.

(** A list of events that fit, with silent ones before it. *)
Lemma events_app es l :
  Forall silent es → (∀ e, e ∈ l → event_fits e ∧ ∀ x, receipt_of imm e = Some x → x.2 = keccak256 x.1) →
  ∀ e, e ∈ es ++ l → event_fits e ∧ ∀ x, receipt_of imm e = Some x → x.2 = keccak256 x.1.
Proof.
  intros Hes Hl e [He|He]%elem_of_app; [|by apply Hl]. apply silent_fits. by eapply Forall_forall.
Qed.

Lemma inv_quiet st w st' : quiet st st' → bridge_inv st w → bridge_inv st' w.
Proof.
  intros [[C1 C2 C3 C4 (es & C5 & Hes) C6] Ce] [I1 I2 I3 I4 I5 I6 I7 I8].
  destruct (silent_logs es (logs st) Hes) as (S1 & S2 & S3 & S4 & S5).
  constructor; rewrite ?C1, ?C2, ?C3, ?C4, ?C5, ?S1, ?S2, ?S3; try done.
  - congruence.
  - intros r. by rewrite S1.
  - destruct I6 as [I6 I6']. split; [|by apply S5]. intros s. by rewrite S4.
  - by apply events_app.
  - by apply C6.
Qed.

Lemma inv_arrival e s r a st st' w w' :
  0 ≤ a → arrival keccak256 imm e s r a st st' → gains imm r a w w' → bridge_inv st w → bridge_inv st' w'.
Proof.
  intros Ha [(A1 & A1' & A1'') A2 [A3 A3'] A4 A5 A6 (es & A7 & Hes) A8 A9] Hg [I1 I2 I3 I4 I5 I6 I7 I8].
  destruct (silent_logs es (logs st) Hes) as (S1 & S2 & S3 & S4 & S5). destruct I6 as [I6 I6'].
  constructor; rewrite ?A7; try done.
  - rewrite A3. unfold held_in_all in *. cbn. change (foldr Z.add 0) with zsum. rewrite A1'. cbn. rewrite S2. lia.
  - rewrite A4, I3. unfold bold_part. rewrite held_cons, S1, A1'. cbn.
    destruct (boldEnabled imm); destruct (decide (r = RESOURCE_ID_BOLD)); rewrite ?decide_True, ?decide_False by (done || tauto || intros [? ?]; done); lia.
  - intros r'. specialize (Hg r'). specialize (I4 r'). rewrite held_cons, S1, A1'. cbn.
    destruct (decide (r' = r)), (decide (r = r')); subst; try done; lia.
  - unfold redeemed_hashes. cbn. rewrite A1''. fold (redeemed_hashes (es ++ logs st)). rewrite A6, S3. done.
  - split; [|split; [|by apply S5]].
    + intros s'. unfold deposits in *. cbn. change (foldr Z.add 0) with zsum. rewrite A1, A5, S4.
      destruct (decide (s = s')) as [->|Hne].
      * rewrite get_insert, I6. unfold uint64. rewrite Zplus_mod_idemp_l. f_equal. lia.
      * rewrite get_insert_ne by done. by rewrite I6.
    + intros s' n Hd. rewrite A1 in Hd. injection Hd as <- <-. by rewrite S4, I6.
  - intros e' [->|He']%elem_of_cons; [done|]. by eapply events_app.
  - by apply A9.
Qed.

Lemma inv_departure h wd i st st' w w' :
  departure imm h wd i st st' → gains imm (wd_resource wd) (- wd_amount wd) w w' → bridge_inv st w → bridge_inv st' w'.
Proof.
  intros [D1 [D2 D2'] D3 D4 D5 (es & Hes & D6) D7 D8] Hg [I1 I2 I3 I4 I5 I6 I7 I8].
  destruct (silent_logs es (logs st) Hes) as (S1 & S2 & S3 & S4 & S5). destruct I6 as [I6 I6'], I5 as [I5 I5'].
  constructor; rewrite ?D6; try done.
  - rewrite D2. unfold held_in_all in *. cbn. change (foldr Z.add 0) with zsum. rewrite S2. lia.
  - rewrite D3, I3. unfold bold_part. rewrite held_cons, S1. cbn.
    destruct (boldEnabled imm); destruct (decide (wd_resource wd = RESOURCE_ID_BOLD)); rewrite ?decide_True, ?decide_False by (done || tauto || intros [? ?]; done); lia.
  - intros r'. specialize (Hg r'). specialize (I4 r'). rewrite held_cons, S1. cbn.
    destruct (decide (r' = wd_resource wd)), (decide (wd_resource wd = r')); subst; try done; lia.
  - unfold redeemed_hashes in *. cbn. rewrite D5, S3, I5. split; [done|]. apply NoDup_cons. split; [|done].
    rewrite I5 in D1. by rewrite elem_of_list_to_set in D1.
  - rewrite D4. split; [|split; [done|by apply S5]]. intros s'. unfold deposits in *. cbn. change (foldr Z.add 0) with zsum. by rewrite S4, I6.
  - intros e' [->|He']%elem_of_cons; [done|]. by eapply events_app.
  - by apply D8.
Qed.

Lemma history_inv st w st' w' : history st w st' w' → bridge_inv st w → bridge_inv st' w' ∧ later st st'.
Proof.
  induction 1 as [st w|st w c st1 w1 st' w' Hc He _ IH|st w w1 st' w' Heth Htok _ IH]; intros Hi; [done|..].
  - apply (exec_moves keccak256 recover imm Hdep) in He; [|done]. pose proof (inv_roots _ _ Hi) as Hr.
    destruct He as [Hq ->|e s r a Ha Hm Hg|h wd i Hm Hg].
    + destruct IH as [? ?]; [by eapply inv_quiet|]. split; [done|]. etrans; [|done]. by apply Hq.
    + destruct IH as [? ?]; [by eapply inv_arrival|]. split; [done|]. etrans; [|done]. by eapply arrival_roots.
    + destruct IH as [? ?]; [by eapply inv_departure|]. split; [done|]. etrans; [|done]. by eapply departure_roots.
  - apply IH. destruct Hi as [I1 I2 I3 I4 I5 I6 I7 I8]. constructor; try done. intros r. specialize (I4 r).
    unfold assets in *. destruct (decide _); [lia|]. destruct (resourceTokens imm !! r) as [t|]; [specialize (Htok t)|]; lia.
Qed.

Lemma initial_inv args w : arg_tvlCap args = tvlCap imm → bridge_inv (initial_bridge args) w.
Proof.
  intros Hcap. constructor; cbn; try done.
  - pose proof (deployed_cap imm Hdep) as [? ?]. split; [done|lia].
  - by destruct (boldEnabled imm).
  - intros r. unfold assets. pose proof (eth_nonneg w). destruct (decide _); [done|].
    destruct (resourceTokens imm !! r) as [t|]; [apply token_u256|done].
  - split; [done|constructor].
  - intros e He. by apply not_elem_of_nil in He.
  - split; cbn; [|lia]. intros i [rec Hr]. by rewrite lookup_empty in Hr.
Qed.
End Histories.

(** ** Theorems *)

Section Theorems.
Context (keccak256 : list u8 → bytes32) (recover : bytes32 → list u8 → option address).
Context {W : Type} `{HL : LedgerOk W}.

(** A bridge that has been deployed, and a history of it. *)
Definition reachable (imm : Immutables) (st : Bridge) (w : W) : Prop :=
  ∃ env args w0, args_typed args ∧ constructor keccak256 env args = Ok (imm, initial_bridge args) ∧
  history keccak256 recover imm (initial_bridge args) w0 st w.

Lemma reachable_inv imm st w : reachable imm st w → deployed imm ∧ bridge_inv keccak256 imm st w.
Proof.
  intros (env & args & w0 & Ta & Hc & Hh). pose proof (constructor_deployed _ _ _ _ _ Ta Hc) as [Hd _].
  split; [done|]. apply (history_inv keccak256 recover imm Hd _ _ _ _ Hh), (initial_inv keccak256 imm Hd).
  by apply result_bind_Ok in Hc as (_ & _ & (_ & _ & (_ & _ & (_ & _ & (_ & _ & [_
    (m & _ & [= <-])%result_bind_Ok]%guard_Ok)%result_bind_Ok)%result_bind_Ok)%result_bind_Ok)%result_bind_Ok).
Qed.

(** C4: The bridge is solvent.  After any history of a deployed bridge, with calls
    back into it from the tokens and recipients it calls, and whatever else happens
    to balances that does not take from the bridge: of every resource it has at
    least what was deposited minus what was redeemed; the counter of locked value is
    the sum of that over the resources, within the cap; and the counter of BOLD is
    that of its resource. *)
Theorem bridge_solvent imm st w :
  reachable imm st w →
  (∀ r, held r (logs st) ≤ assets imm w r) ∧
  totalLockedValue st = held_in_all (logs st) ∧ 0 ≤ totalLockedValue st ≤ tvlCap imm ∧
  (boldEnabled imm = true → boldTotalLockedValue st = held RESOURCE_ID_BOLD (logs st)).
Proof.
  intros [_ [_ [Ht Hc] Hb Ha _ _ _ _]]%reachable_inv. split; [done|]. split; [done|]. split; [done|].
  intros E. by rewrite E in Hb.
Qed.

(** C10: No leaf is redeemed twice: after any history of a deployed bridge the
    redemptions it reported are of different leaves, and they are the leaves that
    are marked. *)
Theorem redeemed_once imm st w :
  reachable imm st w →
  NoDup (redeemed_hashes (logs st)) ∧ ∀ h, h ∈ withdrawalLeafRedeemed st ↔ h ∈ redeemed_hashes (logs st).
Proof.
  intros [_ [_ _ _ _ [Hr Hn] _ _ _]]%reachable_inv. split; [done|]. intros h. by rewrite Hr, elem_of_list_to_set.
Qed.
End Theorems.
