(* ===== verification/BridgeExit.v ===== *)
(** * Leaving the bridge

    A withdrawal call succeeds only for a withdrawal that is pending in the tree
    behind a finalised root, and it succeeds for every such withdrawal with the
    proof the kernel builds, whatever the circuit breakers say; the life of a state
    root over a history; and the rollback that reaches roots nobody disputed. *)

From Stdlib Require Import ZArith Lia.
From stdpp Require Import base numbers list gmap.
From S2P Require Import Prelude Evm CbeDecode Withdrawal Bridge BridgeCodec BridgeSafe.

Local Open Scope Z_scope.

#[local] Arguments to_le_bytes : simpl never.

(** ** The siblings of the kernel's proofs *)

Section Siblings.
Context (keccak256 : list u8 → list u8) {HD : Digest keccak256}.

Lemma rangeRoot_short k es : short (rangeRoot keccak256 k es).
Proof.
  unfold short, in_width. destruct k as [|k]; [|rewrite rangeRoot_length; [lia|done]].
  destruct es as [|[i wd] es]; cbn [rangeRoot]; [cbn; lia|]. rewrite leafBytes_length. lia.
Qed.

Lemma constructProofAux_short idx es k : Forall short (constructProofAux keccak256 idx es k).2.
Proof.
  revert es. induction k as [|k IH]; intros es; [by destruct es as [|[]]; constructor|].
  rewrite constructProofAux_S. constructor; [apply rangeRoot_short|apply IH].
Qed.
End Siblings.

(** ** Redemption *)

Section Exit.
Context (keccak256 : list u8 → bytes32) {HD : Digest keccak256} (recover : bytes32 → list u8 → option address).
Context (imm : Immutables) {W : Type} `{HL : Ledger W}.

(** A root that withdrawals may be redeemed against. *)
Definition settled (tx : BridgeTx) (st : Bridge) (i : Z) (rec : StateRootRecord) : Prop :=
  stateRoots st !! i = Some rec ∧ isStateRootReverted st i = false ∧
  record_submittedAtBlock rec + disputeWindowBlocks imm ≤ number tx.

Lemma finalised_root_Ok tx st i root :
  finalised_root imm tx st i = Ok root ↔ ∃ rec, settled tx st i rec ∧ record_root rec = root.
Proof.
  unfold finalised_root, settled, isStateRootFinalised. destruct (stateRoots st !! i) as [rec|] eqn:Hi.
  - destruct (isStateRootReverted st i) eqn:Hr; cbn [negb andb].
    + split; [done|]. by intros (? & (_ & ? & _) & _).
    + case_bool_decide as Hb; (split; [intros [=]|intros (? & ([= <-] & _ & ?) & <-)]; try done); eauto.
  - split; [done|]. by intros (? & (? & _) & _).
Qed.

Lemma lift_smt_Ok {A} (r : result A SmtError) a : lift_smt r = Ok a ↔ r = Ok a.
Proof. destruct r; cbn; split; congruence. Qed.

(** The checks of a withdrawal, exactly. *)
Lemma check_withdrawal_exact tx st i proofBlob leafBlob wd :
  check_withdrawal keccak256 imm tx st i proofBlob leafBlob = Ok wd ↔
  wd_typed wd ∧ leafBlob = leafBytes wd ∧ wd_recipient wd ≠ 0 ∧
  (keccak256 leafBlob ∉ withdrawalLeafRedeemed st) ∧
  ∃ rec leaf siblings, settled tx st i rec ∧
    decodeWithdrawalProof proofBlob = Ok (leaf, wdId wd, siblings) ∧ keccak256 leaf = keccak256 leafBlob ∧
    verifyProof keccak256 (wdId wd) leaf siblings (record_root rec) = Ok true.
Proof.
  split.
  - intros (wd' & [Ht ->]%decodePendingWithdrawal_Ok & [Hto (root & (rec & Hs & <-)%finalised_root_Ok & [Hfresh
      ([[l x] ss] & Hd & [Hh%dec_stable [Hx%dec_stable (v & Hv%lift_smt_Ok & [Hb [= <-]]%require_bool_Ok)
      %result_bind_Ok]%guard_Ok]%guard_Ok)%result_bind_Ok]%guard_Ok)%result_bind_Ok]%guard_Ok)%result_bind_Ok.
    apply negb_false_iff in Hb. subst. do 4 (split; [done|]). by exists rec, l, ss.
  - intros (Ht & -> & Hto & Hfresh & rec & l & ss & Hs & Hd & Hh & Hv). unfold check_withdrawal.
    rewrite (proj2 (decodePendingWithdrawal_Ok _ wd)) by done. cbn [result_bind].
    rewrite decide_False by done. rewrite (proj2 (finalised_root_Ok tx st i (record_root rec))) by eauto. cbn [result_bind].
    rewrite decide_False, Hd by done. cbn [result_bind]. rewrite !decide_False, Hv by (rewrite ?Hh; tauto). done.
Qed.

(** C5: Only pending withdrawals are paid.  When a withdrawal call succeeds, its leaf
    is the encoding of a withdrawal to an address that is not zero, its leaf had not
    been redeemed, and the root it was proved against had been submitted, was not
    reverted, and its dispute window was over; and the proof of the call decodes to a
    leaf with the digest of the call's leaf, the identifier of the withdrawal, and
    siblings.  If that root is the root of a tree of the kernel, the withdrawal is
    pending in that tree under its identifier, unless the call itself exhibits a
    collision of the hash: the leaf of the proof is another string than the leaf of
    the call, or on some level the string hashed from the leaf and the siblings of
    the proof differs from the string of the tree with the same digest. *)
Theorem withdrawal_only_pending tx i proofBlob leafBlob cs st w st' w' :
  exec keccak256 recover imm (Call tx (WithdrawWithProof i proofBlob leafBlob) cs) st w = Ok (st', w') →
  ∃ wd rec leaf siblings, leafBlob = leafBytes wd ∧ wd_typed wd ∧ wd_recipient wd ≠ 0 ∧
    (keccak256 leafBlob ∉ withdrawalLeafRedeemed st) ∧ settled tx st i rec ∧
    decodeWithdrawalProof proofBlob = Ok (leaf, wdId wd, siblings) ∧ keccak256 leaf = keccak256 leafBlob ∧
    ∀ pending, pending_ok pending → record_root rec = withdrawalRoot keccak256 pending →
      pending !! wdId wd = Some wd ∨ leaf ≠ leafBlob ∨ collides keccak256 (wdId wd) leaf siblings pending.
Proof.
  rewrite exec_unfold. cbn [run_op].
  intros (_ & _ & (st1 & [_ ->]%enter_Ok & (wd & (Ht & -> & Hto & Hfresh & rec & leaf & ss & Hs & Hd & Hh & Hv)
    %check_withdrawal_exact & _)%result_bind_Ok)%result_bind_Ok)%result_bind_Ok.
  exists wd, rec, leaf, ss. do 7 (split; [done|]). intros pending Hp Hr. rewrite Hr in Hv.
  destruct (decide (leaf = leafBytes wd)) as [->|Hne]; [|by right; left].
  apply withdrawal_proofs_sound in Hv as [?|?]; [by left|by right; right|done..].
Qed.

(** The state after a withdrawal whose payment calls nothing back. *)
Definition after_withdrawal (wd : PendingWithdrawal) (i : Z) (st : Bridge) : Bridge :=
  let h := keccak256 (leafBytes wd) in
  set_entered false (emit (WithdrawalRedeemed h (wd_recipient wd) (wd_resource wd) (wd_amount wd) i)
    (set_locked (totalLockedValue st - wd_amount wd)
       (boldTotalLockedValue st - bold_part imm (wd_resource wd) (wd_amount wd))
       (mark_redeemed h (set_entered true st)))).

(** C9: Every pending withdrawal can be redeemed.  For a withdrawal that is pending
    in a tree of the kernel whose root is settled, the call with the proof the
    kernel builds succeeds, pays the withdrawal and marks its leaf, provided that
    its recipient is not zero, that it has not been redeemed, that the counters
    cover it and that the payment itself does not revert.  No circuit breaker, no
    staleness of the attestor, no cooldown and no migration stands in its way. *)
Theorem pending_withdrawal_paid pending idx wd tx i rec st w w' :
  pending_ok pending → pending !! idx = Some wd → wd_recipient wd ≠ 0 →
  settled tx st i rec → record_root rec = withdrawalRoot keccak256 pending →
  keccak256 (leafBytes wd) ∉ withdrawalLeafRedeemed st → entered st = false → value tx = 0 →
  wd_amount wd ≤ totalLockedValue st → bold_part imm (wd_resource wd) (wd_amount wd) ≤ boldTotalLockedValue st →
  pay_out imm wd w = Ok w' →
  exec keccak256 recover imm
    (Call tx (WithdrawWithProof i (encodeWithdrawalProof (leafBytes wd) idx (constructProof keccak256 pending idx).2)
       (leafBytes wd)) []) st w = Ok (after_withdrawal wd i st, w').
Proof.
  intros Hp Hi Hto Hs Hroot Hfresh He Hv Hle Hbold Hpay. pose proof (Hp _ _ Hi) as [Hid Ht].
  destruct (withdrawal_proofs_complete keccak256 pending idx wd Hp Hi) as [_ Hproof].
  rewrite exec_unfold. cbn [run_op]. unfold withdrawWithProof, nonpayable, enter. rewrite decide_False by (by intros ?).
  cbn [result_bind]. rewrite He. cbn [result_bind]. rewrite (proj2 (check_withdrawal_exact tx _ i _ _ wd)).
  - cbn [result_bind]. unfold release. cbn [mark_redeemed set_entered totalLockedValue boldTotalLockedValue].
    rewrite decide_False by lia. cbn zeta.
    unfold after_withdrawal, bold_part in *. destruct (decide (boldEnabled imm = true ∧ _)).
    + rewrite decide_False by lia. cbn [result_bind]. by rewrite Hpay.
    + cbn [result_bind]. by rewrite Hpay, Z.sub_0_r.
  - do 4 (split; [done|]). exists rec, (leafBytes wd), (constructProof keccak256 pending idx).2.
    split; [done|]. rewrite Hid, Hroot. split; [|done]. apply decodeWithdrawalProof_Ok.
    assert (Hidx : in_u64 idx) by (rewrite <- Hid; apply Ht).
    split; [unfold short, in_width; rewrite leafBytes_length; lia|]. split; [done|].
    split; [apply constructProofAux_length|]. split; [by apply constructProofAux_short|done].
Qed.
End Exit.

(** ** The life of a root *)

Section Roots.
Context (keccak256 : list u8 → bytes32) (recover : bytes32 → list u8 → option address).
Context {W : Type} `{HL : LedgerOk W}.

(** C19: Roots are permanent.  Over any history of a deployed bridge, a record that was
    submitted stays as it is; a root that is reverted stays reverted, so no
    withdrawal is ever paid against it again; and a root that is submitted later has
    an index above all that were there, and none of the range that was reverted. *)
Theorem roots_permanent imm st w st' w' :
  reachable keccak256 recover imm st w → history keccak256 recover imm st w st' w' →
  (∀ i rec, stateRoots st !! i = Some rec → stateRoots st' !! i = Some rec) ∧
  (∀ i, isStateRootReverted st i = true → isStateRootReverted st' i = true) ∧
  (∀ i, stateRoots st !! i = None → is_Some (stateRoots st' !! i) →
     latestSubmittedLogIndexHigh st < i ∧ isStateRootReverted st i = false).
Proof.
  intros Hre Hh. destruct (reachable_inv keccak256 recover imm st w Hre) as [Hd Hi].
  destruct (history_inv keccak256 recover imm Hd _ _ _ _ Hh Hi) as [_ [L1 L2 L3 L4 L5 _]].
  destruct (inv_roots _ _ _ _ Hi) as [_ Hc]. split; [done|]. unfold isStateRootReverted. split.
  - intros i. rewrite !andb_true_iff, !bool_decide_eq_true. lia.
  - intros i Hn Hs. specialize (L2 i Hn Hs). split; [done|]. rewrite andb_false_iff, !bool_decide_eq_false. lia.
Qed.

(** C39: What a rollback reverts.  When a rollback of the index [d] is accepted by a
    reachable bridge, the roots that are reverted after it are exactly the submitted
    ones from [d] up and the submitted ones from the lowest index that any rollback
    has named so far.  So every root above one that was reverted before is reverted,
    also when it was submitted after that rollback, lies below [d] and was final;
    and the records themselves stay. *)
Theorem rollback_reaches imm st w tx d cs st' w' :
  reachable keccak256 recover imm st w →
  exec keccak256 recover imm (Call tx (RevertToPriorRoot d) cs) st w = Ok (st', w') →
  (sender tx = disputeVerifier imm ∨ sender tx = faultProofRollbackAuthority imm) ∧
  stateRoots st' = stateRoots st ∧
  (∀ i, is_Some (stateRoots st !! i) →
     (isStateRootReverted st' i = true ↔ d ≤ i ∨ lowestRevertedLogIndexHigh st ≤ i)) ∧
  (∀ i j, is_Some (stateRoots st !! i) → isStateRootReverted st j = true → j ≤ i → isStateRootReverted st' i = true).
Proof.
  intros Hre. rewrite exec_unfold. cbn [run_op]. unfold with_world, revertToPriorRoot.
  intros (st1 & (_ & _ & Hg)%result_bind_Ok & [= <- <-])%result_bind_Ok. apply guard_Ok in Hg as [Hs [= <-]].
  destruct (reachable_inv keccak256 recover imm st w Hre) as [_ Hi]. destruct (inv_roots _ _ _ _ Hi) as [Hlat _].
  assert (Hex : ∀ i, is_Some (stateRoots st !! i) → ∀ st1, lowestRevertedLogIndexHigh st1 = Z.min d (lowestRevertedLogIndexHigh st) →
    revertedThroughLogIndexHigh st1 = Z.max (latestSubmittedLogIndexHigh st) (revertedThroughLogIndexHigh st) →
    isStateRootReverted st1 i = true ↔ d ≤ i ∨ lowestRevertedLogIndexHigh st ≤ i).
  { intros i Hri st1 E1 E2. specialize (Hlat i Hri). unfold isStateRootReverted.
    rewrite E1, E2, andb_true_iff, !bool_decide_eq_true. lia. }
  split; [lia|]. split; [by destruct (_ || _)|]. split.
  - intros i Hri. apply Hex; [done|by destruct (_ || _)..].
  - intros i j Hri Hj Hle. apply Hex; [done|by destruct (_ || _)..|]. unfold isStateRootReverted in Hj.
    rewrite andb_true_iff, !bool_decide_eq_true in Hj. lia.
Qed.
End Roots.

(** ** A run *)

(** Balances of the bridge alone. *)
Record Vault : Type := { vault_eth : N; vault_tokens : gmap Z N }.

#[global] Instance Vault_ledger : Ledger Vault := {
  eth_balance w := Z.of_N (vault_eth w);
  token_balance t w := Z.min (Z.of_N (default 0%N (vault_tokens w !! t))) (2 ^ 256 - 1);
  take_value v w := {| vault_eth := vault_eth w + Z.to_N v; vault_tokens := vault_tokens w |};
  safeTransferFrom t _ a w :=
    Some {| vault_eth := vault_eth w; vault_tokens := <[t := (default 0 (vault_tokens w !! t) + Z.to_N a)%N]> (vault_tokens w) |};
  safeTransfer t _ a w :=
    if decide (0 ≤ a ≤ Z.of_N (default 0%N (vault_tokens w !! t)))
    then Some {| vault_eth := vault_eth w; vault_tokens := <[t := (default 0 (vault_tokens w !! t) - Z.to_N a)%N]> (vault_tokens w) |}
    else None;
  sendValue _ a w :=
    if decide (0 ≤ a ≤ Z.of_N (vault_eth w)) then Some {| vault_eth := vault_eth w - Z.to_N a; vault_tokens := vault_tokens w |} else None;
}.

#[global] Instance Vault_ok : LedgerOk Vault.
Proof.
  split; cbn -[Z.pow].
  - lia.
  - intros t w. unfold in_width. lia.
  - lia.
  - done.
  - intros t f a w w' [= <-]. done.
  - intros t f a w w' u [= <-]. cbn -[Z.pow]. destruct (decide (u = t)) as [->|Hne].
    + rewrite lookup_insert_eq. cbn. lia.
    + by rewrite lookup_insert_ne.
  - intros t to a w w'. destruct (decide _); [|done]. intros [= <-]. done.
  - intros t to a w w' u. destruct (decide _); [|done]. intros [= <-]. cbn -[Z.pow]. destruct (decide (u = t)) as [->|Hne].
    + rewrite lookup_insert_eq. cbn -[Z.pow]. lia.
    + rewrite lookup_insert_ne by done. lia.
  - intros to a w w'. destruct (decide _); [|done]. intros [= <-]. cbn. lia.
  - intros to a w w' u. destruct (decide _); [|done]. by intros [= <-].
Qed.

(** A hash with 32-byte digests, to run the model with: the last bytes. *)
Definition toy_keccak (bs : list u8) : bytes32 := drop (length bs) (zero32 ++ bs).

#[global] Instance toy_digest : Digest toy_keccak.
Proof. intros x. unfold toy_keccak. rewrite length_drop, length_app. change (length zero32) with 32%nat. lia. Qed.

Definition demo_recover (_ : bytes32) (_ : list u8) : option address := Some 9.

Definition demo_args : ConstructorArgs := {|
  arg_knomosisVersionTag := zero32; arg_attestor := 9; arg_disputeVerifier := 21; arg_sequencerStake := 22;
  arg_migration := 0; arg_disputeWindowBlocks := 50; arg_maxRedemptionWindowBlocks := 40;
  arg_maxAttestationStaleBlocks := 1000; arg_cooldownBlocks := 5; arg_tvlCap := 10000; arg_minFeeBps := 100;
  arg_maxFeeBps := 2000; arg_weiPerBudgetUnitEth := 2; arg_weiPerBudgetUnitBold := 1; arg_boldTokenAddress := 0;
  arg_boldTvlCap := 0; arg_boldCircuitBreaker := 0; arg_boldAdmin := 0; arg_enableLiquityAutoCircuitTrigger := false;
  arg_ammSeedRatioBps := 0; arg_ammDisasterRecovery := 0; arg_faultProofRollbackAuthority := 24;
  arg_erc20ResourceIds := [7]; arg_erc20TokenAddrs := [700] |}.

Definition demo_env : Deployment :=
  {| deploy_chainid := 5; deploy_this := 1000; has_code _ := true; token_symbol _ := None |}.

Definition demo_imm : Immutables :=
  match constructor toy_keccak demo_env demo_args with
  | Ok (imm, _) => imm
  | Err _ => {| this := 0; bridge_deploymentId := []; attestor := 0; disputeVerifier := 0; faultProofRollbackAuthority := 0;
      migration := 0; disputeWindowBlocks := 0; maxAttestationStaleBlocks := 0; cooldownBlocks := 0; tvlCap := 0;
      minFeeBps := 0; maxFeeBps := 0; weiPerBudgetUnitEth := 0; weiPerBudgetUnitBold := 0; boldEnabled := false;
      boldToken := 0; ammSeedRatioBps := 0; ammDisasterRecovery := 0; boldCircuitBreaker := 0; boldAdmin := 0;
      enableLiquityAutoCircuitTrigger := false; resourceTokens := ∅ |}
  end.

Lemma demo_bridge_deployed : constructor toy_keccak demo_env demo_args = Ok (demo_imm, initial_bridge demo_args).
Proof. vm_compute. reflexivity. Qed.

Lemma demo_args_typed : args_typed demo_args.
Proof. unfold args_typed, in_width. cbn -[Z.pow]. repeat split; try lia; repeat constructor; lia. Qed.

Definition demo_tx (from v block : Z) : BridgeTx :=
  {| sender := from; value := v; number := block; timestamp := block; chainid := 5; migrationActivated := false;
     shutdownTime _ := None |}.

Definition demo_pending : gmap Z PendingWithdrawal :=
  <[0 := {| wd_resource := 0; wd_recipient := 77; wd_amount := 60; wd_l2LogIndex := 4; wdId := 0 |}]>
  (<[3 := {| wd_resource := 7; wd_recipient := 78; wd_amount := 30; wd_l2LogIndex := 9; wdId := 3 |}]> ∅).

Definition demo_leaf (idx : Z) : list u8 := (constructProof toy_keccak demo_pending idx).1.

Definition demo_withdraw (idx : Z) : op :=
  WithdrawWithProof 10 (encodeWithdrawalProof (demo_leaf idx) idx (constructProof toy_keccak demo_pending idx).2) (demo_leaf idx).

(** Deposits of ether and of a token whose transfer calls back, a root, and two
    withdrawals, of which the recipient of the first tries to redeem it again. *)
Definition demo_calls : list call :=
  [Call (demo_tx 5 100 1) DepositETH [];
   Call (demo_tx 6 50 2) (DepositETHWithFee 1000) [];
   Call (demo_tx 5 0 3) (DepositERC20 7 700 40) [Call (demo_tx 700 0 3) (DepositERC20 7 700 40) []; Call (demo_tx 700 8 3) DepositETH []];
   Call (demo_tx 8 0 4) (SubmitStateRoot (withdrawalRoot toy_keccak demo_pending) 10 (replicate 65 (byte_of 1))) [];
   Call (demo_tx 77 0 60) (demo_withdraw 0) [Call (demo_tx 77 0 60) (demo_withdraw 0) []];
   Call (demo_tx 77 0 61) (demo_withdraw 0) [];
   Call (demo_tx 78 0 62) (demo_withdraw 3) []].

Definition demo_vault : Vault := {| vault_eth := 3; vault_tokens := ∅ |}.

Definition demo_end : Bridge * Vault :=
  exec_all toy_keccak demo_recover demo_imm demo_calls (initial_bridge demo_args) demo_vault.

Lemma exec_all_history {W} `{Ledger W} keccak256 recover imm cs st w :
  Forall call_typed cs →
  history keccak256 recover imm st w (exec_all keccak256 recover imm cs st w).1 (exec_all keccak256 recover imm cs st w).2.
Proof.
  intros Hcs. revert st w. induction Hcs as [|c cs Hc _ IH]; intros st w; [constructor|]. cbn [exec_all].
  destruct (exec keccak256 recover imm c st w) as [[st' w']|] eqn:He; cbn [settle]; [|apply IH].
  by eapply history_call.
Qed.

Lemma demo_calls_typed : Forall call_typed demo_calls.
Proof. unfold demo_calls. repeat constructor; cbn -[Z.pow]; unfold in_width; lia. Qed.

Lemma demo_reachable : reachable toy_keccak demo_recover demo_imm demo_end.1 demo_end.2.
Proof.
  exists demo_env, demo_args, demo_vault. split; [apply demo_args_typed|]. split; [apply demo_bridge_deployed|].
  unfold demo_end. exact (exec_all_history toy_keccak demo_recover demo_imm demo_calls _ demo_vault demo_calls_typed).
Qed.

(** The bridge before the withdrawals. *)
Definition demo_mid : Bridge * Vault :=
  exec_all toy_keccak demo_recover demo_imm (take 4 demo_calls) (initial_bridge demo_args) demo_vault.

(** The bridge of the run has what was deposited and not redeemed, besides the ether
    it was sent before. *)
Lemma bridge_solvent_witness :
  held 0 (logs demo_end.1) = 90 ∧ held 7 (logs demo_end.1) = 10 ∧
  (∀ r, held r (logs demo_end.1) ≤ assets demo_imm demo_end.2 r) ∧
  totalLockedValue demo_end.1 = held_in_all (logs demo_end.1) ∧ 0 ≤ totalLockedValue demo_end.1 ≤ tvlCap demo_imm ∧
  (boldEnabled demo_imm = true → boldTotalLockedValue demo_end.1 = held RESOURCE_ID_BOLD (logs demo_end.1)).
Proof.
  split; [vm_compute; reflexivity|]. split; [vm_compute; reflexivity|].
  exact (bridge_solvent toy_keccak demo_recover demo_imm demo_end.1 demo_end.2 demo_reachable).
Defined.

Lemma redeemed_once_witness :
  length (redeemed_hashes (logs demo_end.1)) = 2%nat ∧ NoDup (redeemed_hashes (logs demo_end.1)) ∧
  ∀ h, h ∈ withdrawalLeafRedeemed demo_end.1 ↔ h ∈ redeemed_hashes (logs demo_end.1).
Proof.
  split; [vm_compute; reflexivity|].
  exact (redeemed_once toy_keccak demo_recover demo_imm demo_end.1 demo_end.2 demo_reachable).
Defined.

Definition demo_wd : PendingWithdrawal :=
  {| wd_resource := 0; wd_recipient := 77; wd_amount := 60; wd_l2LogIndex := 4; wdId := 0 |}.

Definition demo_record : StateRootRecord :=
  {| record_root := withdrawalRoot toy_keccak demo_pending; record_submittedAtBlock := 4 |}.

Lemma demo_pending_ok : pending_ok demo_pending.
Proof.
  unfold demo_pending. intros i wd [[<- <-]|[_ [[<- <-]|[_ Hn]]%lookup_insert_Some]]%lookup_insert_Some; [..|by rewrite lookup_empty in Hn];
    (split; [done|]); unfold wd_typed, in_width; cbn -[Z.pow]; lia.
Qed.

Lemma demo_settled : settled demo_imm (demo_tx 77 0 60) demo_mid.1 10 demo_record.
Proof. split; [vm_compute; reflexivity|]. split; [vm_compute; reflexivity|vm_compute; discriminate]. Qed.

Lemma pending_withdrawal_paid_witness :
  ∃ w', pay_out demo_imm demo_wd demo_mid.2 = Ok w' ∧
  exec toy_keccak demo_recover demo_imm
    (Call (demo_tx 77 0 60) (WithdrawWithProof 10
       (encodeWithdrawalProof (leafBytes demo_wd) 0 (constructProof toy_keccak demo_pending 0).2) (leafBytes demo_wd)) [])
    demo_mid.1 demo_mid.2 = Ok (after_withdrawal toy_keccak demo_imm demo_wd 10 demo_mid.1, w').
Proof.
  exists {| vault_eth := 93; vault_tokens := vault_tokens demo_mid.2 |}.
  assert (Hpay : pay_out demo_imm demo_wd demo_mid.2 = Ok {| vault_eth := 93; vault_tokens := vault_tokens demo_mid.2 |})
    by (vm_compute; reflexivity).
  split; [exact Hpay|].
  apply (pending_withdrawal_paid toy_keccak demo_recover demo_imm demo_pending 0 demo_wd (demo_tx 77 0 60) 10 demo_record
           demo_mid.1 demo_mid.2).
  - exact demo_pending_ok.
  - vm_compute. reflexivity.
  - discriminate.
  - exact demo_settled.
  - reflexivity.
  - vm_compute. intros H. inversion H.
  - vm_compute. reflexivity.
  - reflexivity.
  - vm_compute. discriminate.
  - vm_compute. discriminate.
  - exact Hpay.
Defined.

(** The first withdrawal of the run, whose recipient calls back. *)
Definition demo_first : call := Call (demo_tx 77 0 60) (demo_withdraw 0) [Call (demo_tx 77 0 60) (demo_withdraw 0) []].

Definition demo_paid : Bridge * Vault :=
  settle (exec toy_keccak demo_recover demo_imm demo_first demo_mid.1 demo_mid.2) demo_mid.1 demo_mid.2.

Lemma settle_ok {W} (r : bridge_call (Bridge * W)) st w :
  is_ok r = true → r = Ok ((settle r st w).1, (settle r st w).2).
Proof. by destruct r as [[? ?]|]. Qed.

Lemma demo_paid_ok :
  exec toy_keccak demo_recover demo_imm demo_first demo_mid.1 demo_mid.2 = Ok (demo_paid.1, demo_paid.2).
Proof. unfold demo_paid. apply settle_ok. vm_compute. reflexivity. Qed.

Lemma withdrawal_only_pending_witness :
  wdId demo_wd = 0 ∧
  ∃ wd rec leaf siblings, demo_leaf 0 = leafBytes wd ∧ wd_typed wd ∧ wd_recipient wd ≠ 0 ∧
    (toy_keccak (demo_leaf 0) ∉ withdrawalLeafRedeemed demo_mid.1) ∧ settled demo_imm (demo_tx 77 0 60) demo_mid.1 10 rec ∧
    decodeWithdrawalProof (encodeWithdrawalProof (demo_leaf 0) 0 (constructProof toy_keccak demo_pending 0).2) =
      Ok (leaf, wdId wd, siblings) ∧ toy_keccak leaf = toy_keccak (demo_leaf 0) ∧
    ∀ pending, pending_ok pending → record_root rec = withdrawalRoot toy_keccak pending →
      pending !! wdId wd = Some wd ∨ leaf ≠ demo_leaf 0 ∨ collides toy_keccak (wdId wd) leaf siblings pending.
Proof.
  split; [reflexivity|].
  apply (withdrawal_only_pending toy_keccak demo_recover demo_imm (demo_tx 77 0 60) 10
    (encodeWithdrawalProof (demo_leaf 0) 0 (constructProof toy_keccak demo_pending 0).2) (demo_leaf 0)
    [Call (demo_tx 77 0 60) (demo_withdraw 0) []] demo_mid.1 demo_mid.2 demo_paid.1 demo_paid.2).
  exact demo_paid_ok.
Defined.

(** *** Two rollbacks *)

Definition root_call (i block : Z) : call :=
  Call (demo_tx 8 0 block) (SubmitStateRoot (replicate 32 (byte_of i)) i (replicate 65 (byte_of 1))) [].

Definition rollback_call (i block : Z) : call := Call (demo_tx 21 0 block) (RevertToPriorRoot i) [].

(** Root 20 is disputed and rolled back; roots 30 and 40 follow, and 40 is disputed
    after the window of 30 is over. *)
Definition rollback_calls : list call :=
  [root_call 10 1; root_call 20 2; rollback_call 20 3; root_call 30 10; root_call 40 11; rollback_call 40 61].

(** The bridge after some of the calls, and after the others. *)
Definition rolled_back (n : nat) : Bridge * Vault :=
  exec_all toy_keccak demo_recover demo_imm (take n rollback_calls) (initial_bridge demo_args) demo_vault.

Definition rolled_on (n : nat) : Bridge * Vault :=
  exec_all toy_keccak demo_recover demo_imm (drop n rollback_calls) (rolled_back n).1 (rolled_back n).2.

Lemma rollback_calls_typed : Forall call_typed rollback_calls.
Proof. unfold rollback_calls. repeat constructor; cbn -[Z.pow]; unfold in_width; lia. Qed.

Lemma rolled_back_reachable n : reachable toy_keccak demo_recover demo_imm (rolled_back n).1 (rolled_back n).2.
Proof.
  exists demo_env, demo_args, demo_vault. split; [exact demo_args_typed|]. split; [exact demo_bridge_deployed|].
  exact (exec_all_history toy_keccak demo_recover demo_imm (take n rollback_calls) (initial_bridge demo_args) demo_vault
           (Forall_take _ n _ rollback_calls_typed)).
Qed.

Lemma rolled_on_history n :
  history toy_keccak demo_recover demo_imm (rolled_back n).1 (rolled_back n).2 (rolled_on n).1 (rolled_on n).2.
Proof.
  exact (exec_all_history toy_keccak demo_recover demo_imm (drop n rollback_calls) (rolled_back n).1 (rolled_back n).2
           (Forall_drop _ n _ rollback_calls_typed)).
Qed.

Lemma roots_permanent_witness :
  isStateRootReverted (rolled_back 3).1 20 = true ∧
  (∀ i rec, stateRoots (rolled_back 3).1 !! i = Some rec → stateRoots (rolled_on 3).1 !! i = Some rec) ∧
  (∀ i, isStateRootReverted (rolled_back 3).1 i = true → isStateRootReverted (rolled_on 3).1 i = true) ∧
  (∀ i, stateRoots (rolled_back 3).1 !! i = None → is_Some (stateRoots (rolled_on 3).1 !! i) →
     latestSubmittedLogIndexHigh (rolled_back 3).1 < i ∧ isStateRootReverted (rolled_back 3).1 i = false).
Proof.
  split; [vm_compute; reflexivity|].
  exact (roots_permanent toy_keccak demo_recover demo_imm (rolled_back 3).1 (rolled_back 3).2 (rolled_on 3).1 (rolled_on 3).2
           (rolled_back_reachable 3) (rolled_on_history 3)).
Defined.

(** Roots 10 and 20 are submitted and 20 is rolled back; roots 30 and 40 are
    submitted after that, and 30 is final when 40 is rolled back.  The reverted range
    is one interval from its lowest floor, so 30 is reverted with 40; root 10 is
    not. *)
Lemma rollback_reaches_witness :
  isStateRootFinalised demo_imm (demo_tx 8 0 61) (rolled_back 5).1 30 = true ∧
  isStateRootReverted (rolled_back 6).1 30 = true ∧ isStateRootReverted (rolled_back 6).1 10 = false.
Proof.
  split; [vm_compute; reflexivity|].
  destruct (rollback_reaches toy_keccak demo_recover demo_imm (rolled_back 5).1 (rolled_back 5).2 (demo_tx 21 0 61) 40 []
    (rolled_back 6).1 (rolled_back 6).2) as (_ & _ & H & H').
  - exact (rolled_back_reachable 5).
  - vm_compute. reflexivity.
  - split; [|apply not_true_is_false; rewrite H].
    + apply (H' 30 20); [by eexists|vm_compute; reflexivity|lia].
    + vm_compute. intros [Hx|Hx]; by apply Hx.
    + by eexists.
Defined.
