(* ===== verification/BridgeDeposit.v ===== *)
(** * Deposits from L1 to L2

    The bridge ([Bridge]) composed with the ingestor ([Events], [Ingest]): the event
    of every deposit that a reachable bridge reports is decoded from its log and
    translated to an action that credits on L2 what the bridge took on L1; and the
    receipts of deposits are hashes of different strings. *)

From Stdlib Require Import ZArith Lia.
From stdpp Require Import base numbers list gmap.
From S2P Require Import Prelude Encoding Events Ingest Evm CbeDecode Withdrawal Bridge BridgeSafe BridgeExit.

Local Open Scope Z_scope.

#[local] Arguments abi_word : simpl never.
#[local] Arguments to_be_bytes : simpl never.

(** ** Receipts *)

(** Words of [abi.encode] are injective. *)
Lemma abi_word_inj x y : in_u256 x → in_u256 y → abi_word x = abi_word y → x = y.
Proof. intros Hx Hy E%(f_equal from_be_bytes). unfold abi_word in E. by rewrite !from_to_be_bytes in E. Qed.

Lemma abi_word_length x : length (abi_word x) = 32%nat.
Proof. apply to_be_bytes_length. Qed.

Lemma abi_words_inj xs ys :
  Forall in_u256 xs → Forall in_u256 ys → concat (abi_word <$> xs) = concat (abi_word <$> ys) → xs = ys.
Proof.
  intros Hx. revert ys. induction Hx as [|x xs Hx _ IH]; intros [|y ys] Hy E; try done; cbn in E.
  apply Forall_cons in Hy as [Hy Hys]. apply app_inj_1 in E as [E1 E2]; [|by rewrite !abi_word_length].
  f_equal; [by apply abi_word_inj|by apply IH].
Qed.

(** The words of the receipt of a deposit. *)
Definition receipt_words (e : BridgeEvent) : list Z :=
  match e with
  | Bridge.DepositInitiated s r t a n _ => [s; r; t; a; n]
  | Bridge.DepositWithFeeInitiated s r t u p seed g n _ => [s; r; t; u; p; seed; g; n]
  | _ => []
  end.

Lemma receipt_of_words imm e x : receipt_of imm e = Some x → x.1 = bridge_deploymentId imm ++ concat (abi_word <$> receipt_words e).
Proof. destruct e; try done; intros <-%(inj Some); done. Qed.

Lemma receipt_of_deposit imm e x : receipt_of imm e = Some x → is_Some (deposit_of e).
Proof. destruct e; try done; cbn; eauto. Qed.

Lemma receipt_words_fit e s n : event_fits e → deposit_of e = Some (s, n) → in_u64 n → Forall in_u256 (receipt_words e).
Proof.
  unfold in_width. destruct e; try done; cbn -[Z.pow]; unfold in_width, MAX_BUDGET_PER_DEPOSIT; intros He [= <- <-] Hn;
    repeat constructor; lia.
Qed.

(** Equal words are those of one sender and one nonce. *)
Lemma receipt_words_deposit e1 e2 d1 d2 :
  receipt_words e1 = receipt_words e2 → deposit_of e1 = Some d1 → deposit_of e2 = Some d2 → d1 = d2.
Proof. destruct e1, e2; try done; cbn; congruence. Qed.

Lemma deposits_drop s es i : 0 ≤ deposits s (drop i es) ≤ deposits s es.
Proof.
  split; [apply deposits_nonneg|]. revert i. induction es as [|e es IH]; intros [|i]; try done. cbn [drop].
  specialize (IH i). unfold deposits in *. cbn. change (foldr Z.add 0) with zsum.
  destruct (deposit_of e) as [[s' n]|]; [destruct (decide _)|]; lia.
Qed.

Lemma numbered_lookup es i e s n :
  numbered es → es !! i = Some e → deposit_of e = Some (s, n) → n = uint64 (deposits s (drop (S i) es)).
Proof.
  revert i. induction es as [|e' es IH]; intros [|i] Hn Hi Hd; try done.
  - injection Hi as ->. apply (proj1 Hn _ _ Hd).
  - cbn. apply IH; [apply Hn|done..].
Qed.

(** Deposits of one sender at different places of the log have different numbers,
    while there are fewer than 2^64. *)
Lemma numbers_differ es i j e1 e2 s n1 n2 :
  numbered es → (i < j)%nat → es !! i = Some e1 → es !! j = Some e2 →
  deposit_of e1 = Some (s, n1) → deposit_of e2 = Some (s, n2) → deposits s es < 2 ^ 64 → n1 ≠ n2.
Proof.
  intros Hn Hij H1 H2 D1 D2 Hlt. rewrite (numbered_lookup _ _ _ _ _ Hn H1 D1), (numbered_lookup _ _ _ _ _ Hn H2 D2).
  pose proof (deposits_drop s es (S i)) as B1. pose proof (deposits_drop s es (S j)) as B2.
  rewrite !uint64_id by (unfold in_width; lia).
  assert (Hd : deposits s (drop j es) = 1 + deposits s (drop (S j) es)).
  { rewrite (drop_S es e2 j H2). unfold deposits at 1. cbn. rewrite D2, decide_True by done. done. }
  pose proof (deposits_drop s (drop (S i) es) (j - S i)) as B3. rewrite drop_drop in B3.
  replace (S i + (j - S i))%nat with j in B3 by lia. lia.
Qed.

(** ** From the event to the action *)

Definition eth_address (a : address) : EthAddress := to_be_bytes 20 a.

(** The event as the log of the chain carries it. *)
Definition l1_event (o : Origin) (e : BridgeEvent) : option IngestedEvent :=
  match e with
  | Bridge.DepositInitiated s r t a n h =>
      Some (Events.DepositInitiated (eth_address s) r (eth_address t) (abi_word a) n h o)
  | Bridge.DepositWithFeeInitiated s r t u p seed g n h =>
      Some (Events.DepositWithFeeInitiated (eth_address s) r (eth_address t) (abi_word u) (abi_word p) (abi_word seed) g n h o)
  | Bridge.AmmDisabled ts => Some (Events.AmmDisabled (abi_word ts) o)
  | _ => None
  end.

(** What an action credits on L2: actors, resources and amounts, in order, and the
    budget granted to the first actor. *)
Definition credits (a : Action) : list (Z * Z * Z) * Z :=
  match a with
  | Deposit r recipient amount _ => ([(recipient, r, amount)], 0)
  | DepositWithFee r recipient pool userAmount poolAmount budget _ _ =>
      ([(recipient, r, userAmount); (pool, r, poolAmount)], budget)
  | _ => ([], 0)
  end.

(** What the depositor, known as [i] on L2, is owed for a deposit on L1. *)
Definition owed (e : BridgeEvent) (i : Z) : list (Z * Z * Z) * Z :=
  match e with
  | Bridge.DepositInitiated _ r _ amount _ _ => ([(i, r, amount)], 0)
  | Bridge.DepositWithFeeInitiated _ r _ userAmount poolAmount _ budget _ _ =>
      ([(i, r, userAmount); (GAS_POOL_ACTOR_ID, r, poolAmount)], budget)
  | _ => ([], 0)
  end.

(** The part of the pool's amount that seeds the reserve. *)
Definition seeds (a : Action) : Z := match a with DepositWithFee _ _ _ _ _ _ _ seed => seed | _ => 0 end.
Definition seed_of (e : BridgeEvent) : Z :=
  match e with Bridge.DepositWithFeeInitiated _ _ _ _ _ seed _ _ _ => seed | _ => 0 end.

(** The actor the address has in the book, or is given. *)
Definition actor_for (book : AddressBook) (a : EthAddress) : ActorId := default (next_actor_id book) (lookup_addr book a).

(** The identifier an action is known by on L2. *)
Definition consumed_id (a : Action) : option Z :=
  match a with
  | Deposit _ _ _ id | DepositWithFee _ _ _ _ _ _ id _ => Some id
  | _ => None
  end.

Section Deposits.
Context (keccak256 : list u8 → bytes32) {HD : Digest keccak256} (recover : bytes32 → list u8 → option address).
Context {W : Type} `{HL : LedgerOk W}.

Lemma reachable_deposit imm st w e s n :
  reachable keccak256 recover imm st w → e ∈ logs st → deposit_of e = Some (s, n) →
  event_fits e ∧ in_u64 n ∧ ∃ p, receipt_of imm e = Some (p, keccak256 p).
Proof.
  intros Hre He Hd. destruct (reachable_inv keccak256 recover imm st w Hre) as [_ Hi].
  destruct (inv_events _ _ _ _ Hi e He) as [Hf Hr]. split; [done|].
  apply list_elem_of_lookup in He as [i Hlook]. split.
  - destruct (inv_numbered _ _ _ _ Hi) as [_ Hn]. rewrite (numbered_lookup _ _ _ _ _ Hn Hlook Hd). apply uint64_in.
  - destruct (receipt_of imm e) as [[p h]|] eqn:E; [|by destruct e]. exists p. pose proof (Hr (p, h) eq_refl) as Hh. cbn in Hh. by rewrite Hh.
Qed.

(** C18: Receipts are of different deposits.  In the log of a reachable bridge, two
    deposits whose receipts are equal exhibit a collision of the hash, as long as
    their sender made fewer than 2^64 deposits: the strings that the receipts hash
    are different, by sender, by number or by amounts. *)
Theorem receipts_differ imm st w i j e1 e2 p1 p2 h1 h2 s n :
  reachable keccak256 recover imm st w → i ≠ j → logs st !! i = Some e1 → logs st !! j = Some e2 →
  receipt_of imm e1 = Some (p1, h1) → receipt_of imm e2 = Some (p2, h2) →
  deposit_of e1 = Some (s, n) → deposits s (logs st) < 2 ^ 64 →
  p1 ≠ p2 ∧ h1 = keccak256 p1 ∧ h2 = keccak256 p2.
Proof.
  intros Hre Hij H1 H2 R1 R2 D1 Hlt. destruct (receipt_of_deposit _ _ _ R2) as [[s2 n2] D2].
  destruct (reachable_deposit _ _ _ _ _ _ Hre (list_elem_of_lookup_2 _ _ _ H1) D1) as (F1 & N1 & q1 & E1).
  destruct (reachable_deposit _ _ _ _ _ _ Hre (list_elem_of_lookup_2 _ _ _ H2) D2) as (F2 & N2 & q2 & E2).
  rewrite R1 in E1. apply (inj Some) in E1. rewrite R2 in E2. apply (inj Some) in E2. simplify_eq. split; [|done].
  intros <-. apply receipt_of_words in R1, R2. cbn in R1, R2. rewrite R1 in R2. apply app_inj_1 in R2 as [_ R2]; [|done].
  apply abi_words_inj in R2; [|by eapply receipt_words_fit..].
  pose proof (receipt_words_deposit _ _ _ _ R2 D1 D2) as E. simplify_eq.
  destruct (reachable_inv keccak256 recover imm st w Hre) as [_ Hi]. destruct (inv_numbered _ _ _ _ Hi) as [_ Hn].
  destruct (decide (i < j)%nat).
  - by eapply (numbers_differ _ i j).
  - eapply (numbers_differ _ j i); [done|lia|done..].
Qed.

Lemma l1_event_typed o e s n p :
  event_fits e → in_u64 n → deposit_of e = Some (s, n) → (∃ imm, receipt_of imm e = Some (p, keccak256 p)) →
  ∃ ev, l1_event o e = Some ev ∧ event_typed ev.
Proof.
  unfold MAX_BUDGET_PER_DEPOSIT. intros Hf Hn Hd [imm Hr]. destruct e; try done; cbn in Hf, Hd, Hr; simplify_eq; (eexists; split; [done|]);
    cbn; unfold eth_address; rewrite !to_be_bytes_length, ?abi_word_length, ?digest_length; unfold MAX_BUDGET_PER_DEPOSIT, in_width in *.
  - split_and!; (done || lia).
  - split_and!; (done || lia).
Qed.

End Deposits.

(** ** A run *)

Definition deposit_calls : list call :=
  [Call (demo_tx 5 100 1) DepositETH [];
   Call (demo_tx 6 50 2) (DepositETHWithFee 1000) [];
   Call (demo_tx 5 0 3) (DepositERC20 7 700 40) []].

Definition deposited : Bridge * Vault :=
  exec_all toy_keccak demo_recover demo_imm deposit_calls (initial_bridge demo_args) demo_vault.

Lemma deposited_reachable : reachable toy_keccak demo_recover demo_imm deposited.1 deposited.2.
Proof.
  exists demo_env, demo_args, demo_vault. split; [exact demo_args_typed|]. split; [exact demo_bridge_deployed|].
  apply (exec_all_history toy_keccak demo_recover demo_imm deposit_calls (initial_bridge demo_args) demo_vault).
  unfold deposit_calls. repeat constructor; cbn -[Z.pow]; unfold in_width; lia.
Qed.

Definition deposit_event (i : nat) : BridgeEvent := nth i (logs deposited.1) (Bridge.AmmDisabled 0).
Definition deposit_receipt (i : nat) : list u8 * bytes32 := default ([], []) (receipt_of demo_imm (deposit_event i)).

Lemma receipts_differ_witness :
  (deposit_receipt 0).1 ≠ (deposit_receipt 2).1 ∧ (deposit_receipt 0).2 = toy_keccak (deposit_receipt 0).1 ∧
  (deposit_receipt 2).2 = toy_keccak (deposit_receipt 2).1.
Proof.
  apply (receipts_differ toy_keccak demo_recover demo_imm deposited.1 deposited.2 0 2 (deposit_event 0) (deposit_event 2)
           (deposit_receipt 0).1 (deposit_receipt 2).1 (deposit_receipt 0).2 (deposit_receipt 2).2 5 1).
  - exact deposited_reachable.
  - discriminate.
  - vm_compute. reflexivity.
  - vm_compute. reflexivity.
  - vm_compute. reflexivity.
  - vm_compute. reflexivity.
  - vm_compute. reflexivity.
  - vm_compute. reflexivity.
Defined.

